(* ===== verification/_CoqProject ===== *)
-Q . S2P
Prelude.v
Machine.v
Errors.v
Crates.v
Post.v
Primes.v
Keys.v
Derive.v
Padding.v
Tokens.v
BlockV8.v
LegacyV7.v
StreamV8.v
StreamIntegrity.v
Modbus.v
Dnp3.v
OtFrame.v
Kem.v
KemExchange.v
Gateway.v
KatVectors.v
SelfTest.v
PostLatch.v
Startup.v
System.v
SystemRuns.v
Report.v
StsLinear.v
StsBits.v
StsStats.v
StsFft.v
StsReal.v
StsTests.v
Wipe.v
Messages.v
CrossCheck.v
FrameTests.v
CrateTests.v
SieveTest.v
CipherTests.v
StreamTests.v
LegacyTests.v
KemTests.v
ModuleTests.v
TimingHarness.v
Fuzz.v
