(* ===== verification/Prelude.v ===== *)
(** * NAPQES: a verification library for the Rust implementation

    The Rust crate under [src/rust] implements an authenticated cipher keyed by a
    tuple of primes and a 32-byte [sk], its legacy v7 and streaming formats, a KEM
    that establishes keys, the FIPS-style power-on self-tests that gate it, and a
    gateway that carries industrial protocol frames over it. This library
    translates that code into executable definitions and proves what each part
    promises. File names below are relative to [src/rust/src].

    ** The parts and where they are

    - Foundations. [Prelude] has outcomes ([Ok], [Err], [Panic]: returning,
      reporting and aborting), loops, tactics; [Machine] has checked arithmetic
      (the release profile keeps overflow checks on), bytes, big-endian integers,
      slices, scalar values and UTF-8; [Errors] names every error message of the
      crate root with the values it interpolates; [Crates] states what the code
      relies on from HMAC, SHA-256, HKDF, base64, FrodoKEM and X25519 as type
      classes with laws, and gives a toy instance of each for the examples.
    - Keys. [Primes] is [is_prime] and [isqrt_u64] of [lib.rs]; [Keys] is key
      validation, generation and [NapqesKey] ([lib.rs], [key.rs]).
    - The cipher ([lib.rs]). [Derive]: HMAC derivations, noise thresholds, tags.
      [Padding]: profiles, padding, keystream. [Tokens]: the token encoding and the
      v8 and v7 emission and recovery loops. [BlockV8]: the v8 block format and its
      entry points (also [key.rs]). [LegacyV7]: the v7 wrappers and the continuous
      RNG test. [StreamV8]: the v8 stream, one-shot and incremental;
      [StreamIntegrity]: which streams are accepted once several have been sealed.
    - Memory. [Wipe] ([lib.rs], [key.rs]): the zeroing functions, the [Drop]
      implementations, key generation, [NapqesKey] and the incremental encryptor once
      more, over a memory in which releasing a region leaves its cells as they are.
    - Self-tests ([self_test.rs]). [Post]: the gate an entry point consults.
      [KatVectors] and [SelfTest]: the known-answer tests, the integrity checks and
      the tool that writes their reference ([bin/napqes_integrity.rs]). [PostLatch]:
      the latch, its lock and any number of threads as a step relation.
    - Key establishment. [Kem] ([kem.rs]): FrodoKEM alone and hybrid, and the
      expansion of a secret into a key. [KemExchange] ([kem_exchange.rs]): the
      two-party exchange.
    - The gateway. [Modbus], [Dnp3] ([protocols/]): framing. [OtFrame]
      ([ot_frame.rs]): envelopes, sequence counters, key stores. [Gateway] and
      [Startup] ([bin/ls_gateway.rs]): the handlers, each as one function, and what
      [main] starts. [System]: the running process, with any number of listeners,
      connections and rekeying jobs over the shared key store, counters and locks,
      as a step relation whose steps are the handlers' accesses to shared state and
      to the network. [SystemRuns]: what every run of it satisfies, and that a
      handler nobody disturbs does what its function in [Gateway] says. [Report]: error
      texts, CEF lines and the datagram to the SIEM.
    - The statistical test program ([bin/sts.rs]). [StsBits]: the bit stream it
      tests, built from [BlockV8]. [StsLinear]: Berlekamp-Massey and the matrix
      rank, against what a linear complexity and a rank are. [StsStats]: the
      counts the other tests are computed from (templates, circular patterns,
      runs, last occurrences, walks, excursions), each against its definition.
      [StsFft]: the Fourier transform over any scalars. [StsReal]: binary64 and the
      special functions. [StsTests]: the fifteen tests, [main] and its two reports.
    - Error texts and known answers. [Messages] ([lib.rs], [kem.rs]): the format string
      of every error of [Errors], the errors each decryptor can report, and what a part
      of a message tells. [CrossCheck] ([kat_cross_check.rs]): the tests that replay the
      corpora shared with the other ports, over an interface of the JSON library.
    - Unit tests of the sources, each a definition that returns or panics as the test
      does. [FrameTests]: [protocols/], [ot_frame.rs] and the key store tests of
      [kem_exchange.rs]. [CrateTests] (comparison, refusals, limits), [SieveTest]
      (primality against a sieve), [CipherTests] (key generation, blocks and streams),
      [StreamTests] (what the tests that alter a stream decide), [LegacyTests] (v7):
      [lib.rs]. [KemTests]: [kem.rs] and the exchange of [kem_exchange.rs].
      [ModuleTests]: [self_test.rs] and the wiping tests of [lib.rs].
    - The programs around the library. [TimingHarness] ([examples/dudect_harness.rs]): what
      the two classes of its measurements are. [Fuzz] ([fuzz_targets/*.rs], [main.rs] and
      the fuzzing hooks of [lib.rs]): no input crashes a fuzz target.

    The parts interact as in the code: an entry point asks the gate ([Post]), checks
    the key ([Keys]), pads ([Padding]), emits tokens ([Tokens]), masks and tags
    ([BlockV8], [StreamV8]); envelopes ([OtFrame]) carry block ciphertexts; the
    gateway handlers compose framing, key store, envelope and counters; [Startup]
    ties the key store to the exchanges of [KemExchange]; the self-tests call the
    same entry points on fixed inputs.

    ** How state is modelled

    A Rust function is a function to [outcome]. Process-global or shared state is
    threaded: [PREV_NONCE] and the latch ([LegacyV7.crng_state]), the counters
    ([OtFrame.SequenceCounter]), the key stores (finite maps), the encryptor
    ([StreamV8.StreamV8Encryptor]). Random draws, file contents and received bytes
    are arguments. What a gateway handler sends is its list of effects. Threads
    matter in [PostLatch] and [System], where each access to shared state is one
    step and any thread may take the next, and in [Gateway.egress_run], whose list is
    the order in which handlers reach the counters. A panic while a lock is held
    poisons it ([System.shared_next_seq]). A call sees the self-test gate through the class [Post.Gate]: the
    values of the latch it happens to load.

    ** What the theorems show

    - Round trips: padding, tokens, block, v7 wrappers, stream, Modbus, DNP3,
      envelopes, KEM, integrity references.
    - Rejection: the block and stream decryptors are total and refuse every change
      of an authenticated part; a stream is accepted only if it carries a tag no sealing
      produced or is one of the streams sealed ([StreamIntegrity]); envelopes bind their
      header; no decryptor panics. That a change is refused rests on HMAC telling two
      inputs apart, and no hypothesis assumes that it always does: a function into 32
      bytes cannot. Each statement says instead which two inputs, computed from the
      ciphertexts at hand, would have the same HMAC if the change were accepted
      ([Derive.collides], [Derive.coincide], [BlockV8.block_covered],
      [StreamIntegrity.stream_covered]).
    - Refinement and equivalence: the stream decryptor against a specification of
      well-formed streams; the incremental encryptor and the one-shot one; entry
      points among themselves; the table-driven CRC and polynomial division; the
      float noise threshold and its integer form.
    - Invariants: sequence numbers only grow, nothing is accepted twice, no
      sequence number is used twice by a sender; the self-test latch is sticky, is
      not bypassed by any interleaving and no caller waits for ever; key stores hold
      valid keys whatever the peers send.
    - Composition: both ends of an exchange hold the same key; egress forwards
      exactly the authenticated fresh PDUs of the interleaved connections. In every
      run of the whole gateway ([SystemRuns]) what an egress handler forwards was
      authenticated under a loaded key with a number not accepted before, no ingress
      handler sends two envelopes with one number, and no input or schedule stops the
      process. Nothing is claimed about blocking: a step of the model takes a lock and
      releases it. Frames may be forwarded in another order than accepted
      ([SystemRuns.egress_may_reorder]).
    - Error behaviour: each decryptor reports only the errors listed for it, and the texts
      the corpora expect name the check that refused ([CrossCheck]).
    - Secrets in memory: key generation, keys and stream encryptors give in memory what
      the functions give. An encryptor leaves only zeros where secrets and plaintext were,
      also when it is dropped half way or panics; a key leaves only zeros where its primes
      and its own [sk] were, but three more copies of [sk] that [NapqesKey::generate] makes
      are never wiped ([Wipe.generated_key_memory]).
    - Reports: a CEF line can be read back to the event it reports.
    - The statistical tests: the linear complexity and the rank are what linear
      algebra says they are, and the counts of templates, patterns, runs, last
      occurrences and excursions agree with their definitions; the fast transform is
      the discrete Fourier transform over every commutative ring with the roots of
      unity it uses; the special functions return on every input; the program runs
      every test and its exit status and counts are those of the results, whatever
      the accuracy of the platform's elementary functions.
    - The fuzz targets run to their end on every input, which composes the totality
      and round-trip lemmas of the formats.
    - Unit tests: the round trips, the refusals of bad keys, lengths and tags and the limits
      pass for every behaviour of the primitives, the generator and the allocator, or pass
      up to a named coincidence: equal HMACs of two inputs the test's ciphertext names, too
      long a run of v7 noise, the counter overflow of a seed expansion. The corpora pin the
      known answers of the self-tests ([ModuleTests.corpora_pin_known_answers]). The tests that compare hash values
      (different keys, fresh sessions, cross-language vectors) and those that compare the
      v7 encryptors are definitions without a theorem, except that the hybrid vector is
      shown to be the answer of KAT-8.
    - Findings that modelling brought up are theorems or examples next to the
      definitions they concern: [Dnp3.extract_payload_panics],
      [Gateway.gateway_end_to_end],
      [OtFrame.parse_sk_hex_plus], [SelfTest.decode_hex_panics],
      [PostLatch.gate_refused_between_loads], [StsStats.is_aperiodic_strict],
      [StsTests.sts_main_correct] (fewer than ten bits), [Wipe.generated_key_memory],
      [CrossCheck.unrecognised_profile_passes].

    ** Bounds and fuel

    [loop k] makes at most [2^k] rounds and stops as soon as a step leaves it, so
    [while_loop 64] covers any loop over a 64-bit counter; smaller budgets are
    [Primes] 33 (a divisor below [2^32] in steps of two), [Keys] 20 (the draw budget
    of 128 primes), [Padding] and [Kem] 33 (32-bit counters, which panic on overflow
    before), [Tokens] 5 (at most 19 noise tokens). The two recursions of [StsReal] have
    depth 2, proved enough. Every use has a theorem or lemma
    that the loop leaves within its budget ([while_loop_total]); [OutOfFuel] never
    occurs in a result. Theorems about received buffers assume lengths below [2^36]
    bytes or more, far above what the formats and handlers admit.

    ** Not modelled

    Asynchronous runtime, sockets, timers and logging; JSON and command line parsing of
    the gateway (their results are inputs); what calls leave in temporaries and in the
    slots arguments pass through ([Wipe] follows named variables and fields); the accuracy of
    floating-point results (the elementary functions are arguments of [StsReal]); time, so
    neither what the timing harness measures nor the time limit of one unit test; the test
    of concurrent callers of the gate, whose interleavings are those of [PostLatch]; the
    Python and C ports. *)
From stdpp Require Import base tactics list option numbers.
From Stdlib Require Import ZArith Lia.

#[local] Open Scope Z_scope.

(** ** Outcomes

    A Rust function either returns, returns [Err], or panics. [OutOfFuel] is
    the model's own marker for a loop that did not finish within its budget;
    the theorems show that it never occurs. *)
Inductive panic :=
| PanicOverflow | PanicBounds | PanicDivZero | PanicAssert | PanicExpect
| OutOfFuel.

Inductive outcome (E A : Type) :=
| Ok (a : A)
| Err (e : E)
| Panic (p : panic).
Arguments Ok {E A} a.
Arguments Err {E A} e.
Arguments Panic {E A} p.

#[export] Instance outcome_ret {E} : MRet (outcome E) := λ A a, Ok a.
#[export] Instance outcome_bind {E} : MBind (outcome E) := λ A B f m,
  match m with Ok a => f a | Err e => Err e | Panic p => Panic p end.
#[export] Instance outcome_fmap {E} : FMap (outcome E) := λ A B f m,
  match m with Ok a => Ok (f a) | Err e => Err e | Panic p => Panic p end.

#[export] Instance panic_eq_dec : EqDecision panic.
Proof. solve_decision. Defined.

Definition map_err {E F A} (f : E → F) (m : outcome E A) : outcome F A :=
  match m with Ok a => Ok a | Err e => Err (f e) | Panic p => Panic p end.

(** [opt_or] is Rust's [ok_or]. *)
Definition opt_or {E A} (o : option A) (e : E) : outcome E A :=
  match o with Some a => Ok a | None => Err e end.

(** [expect] turns an absent value into a panic: [Option::expect], and
    indexing a slice out of range. *)
Definition expect {E A} (p : panic) (o : option A) : outcome E A :=
  match o with Some a => Ok a | None => Panic p end.

(** [assert_that] is Rust's [assert!]. *)
Definition assert_that {E} (b : bool) : outcome E unit :=
  if b then Ok tt else Panic PanicAssert.

(** The value of a successful outcome. *)
Definition from_ok {E A} (d : A) (m : outcome E A) : A :=
  match m with Ok a => a | _ => d end.

Definition is_ok {E A} (m : outcome E A) : bool :=
  match m with Ok _ => true | _ => false end.

Definition no_panic {E A} (m : outcome E A) : Prop :=
  match m with Panic _ => False | _ => True end.

(** Collecting an iterator of fallible results. *)
Fixpoint collect {E A B} (f : A → outcome E B) (l : list A) : outcome E (list B) :=
  match l with
  | [] => Ok []
  | x :: l' => y ← f x; ys ← collect f l'; Ok (y :: ys)
  end.

Section outcome_lemmas.
Context {E : Type}.

Lemma bind_Ok {A B} (f : A → outcome E B) a : (Ok a ≫= f) = f a.
Proof. done. Qed.

Lemma bind_Ok_inv {A B} (m : outcome E A) (f : A → outcome E B) b :
  m ≫= f = Ok b → ∃ a, m = Ok a ∧ f a = Ok b.
Proof. destruct m; naive_solver. Qed.

Lemma bind_Ok_iff {A B} (m : outcome E A) (f : A → outcome E B) b :
  m ≫= f = Ok b ↔ ∃ a, m = Ok a ∧ f a = Ok b.
Proof. destruct m; naive_solver. Qed.

Lemma no_panic_bind {A B} (m : outcome E A) (f : A → outcome E B) :
  no_panic m → (∀ a, m = Ok a → no_panic (f a)) → no_panic (m ≫= f).
Proof. destruct m; naive_solver. Qed.

Lemma no_panic_map_err {F A} (g : E → F) (m : outcome E A) :
  no_panic m → no_panic (map_err g m).
Proof. by destruct m. Qed.

Lemma no_panic_Ok {A} (m : outcome E A) : (∃ a, m = Ok a) → no_panic m.
Proof. by intros [a ->]. Qed.

Lemma no_panic_opt_or {A} (o : option A) (e : E) : no_panic (opt_or o e).
Proof. by destruct o. Qed.

Lemma no_panic_collect {A B} (f : A → outcome E B) l :
  (∀ a, a ∈ l → no_panic (f a)) → no_panic (collect f l).
Proof.
  induction l as [|x l IH]; intros H; [done|]; simpl.
  apply no_panic_bind; [apply H; left|intros y _].
  apply no_panic_bind; [|done]. apply IH. intros a Ha. apply H. by right.
Qed.

Lemma collect_Ok {A B} (f : A → outcome E B) (g : A → B) l :
  (∀ a, a ∈ l → f a = Ok (g a)) → collect f l = Ok (g <$> l).
Proof.
  induction l as [|x l IH]; intros H; [done|]; simpl.
  rewrite (H x) by left. simpl. rewrite IH; [done|]. intros; apply H; by right.
Qed.

Lemma collect_length {A B} (f : A → outcome E B) l ys :
  collect f l = Ok ys → length ys = length l.
Proof.
  revert ys. induction l as [|x l IH]; simpl; intros ys.
  - by intros [= <-].
  - intros (y & _ & (ys' & H & [= <-])%bind_Ok_inv)%bind_Ok_inv. simpl.
    by rewrite (IH _ H).
Qed.

Lemma collect_Forall2 {A B} (f : A → outcome E B) l ys :
  collect f l = Ok ys → Forall2 (λ x y, f x = Ok y) l ys.
Proof.
  revert ys. induction l as [|x l IH]; simpl; intros ys.
  - intros [= <-]. constructor.
  - intros (y & Hy & (ys' & H & [= <-])%bind_Ok_inv)%bind_Ok_inv.
    constructor; eauto.
Qed.

Lemma collect_total {A B} (f : A → outcome E B) (P : B → Prop) l :
  (∀ a, a ∈ l → ∃ b, f a = Ok b ∧ P b) → ∃ bs, collect f l = Ok bs ∧ Forall P bs.
Proof.
  induction l as [|a l IH]; intros Hf; [eexists; by split|]. cbn.
  destruct (Hf a ltac:(left)) as (b & -> & Hb). destruct IH as (bs & -> & Hbs); [intros; apply Hf; by right|].
  cbn. eexists. split; [done|]. by constructor.
Qed.

Lemma collect_total_plain {A B} (f : A → outcome E B) l :
  (∀ a, a ∈ l → ∃ b, f a = Ok b) → ∃ bs, collect f l = Ok bs.
Proof.
  intros Hf. destruct (collect_total f (λ _, True) l) as (bs & Hbs & _); [|eauto].
  intros a Ha. destruct (Hf a Ha) as [b Hb]. eauto.
Qed.
End outcome_lemmas.

(** ** Indexed iteration

    [for (i, x) in l.iter().enumerate() { f(i, x)?; }] *)
Section for_each.
Context {E A : Type} (f : Z → A → outcome E unit).

Fixpoint for_each (i : Z) (l : list A) : outcome E unit :=
  match l with
  | [] => Ok tt
  | x :: l' => _ ← f i x; for_each (i + 1) l'
  end.

Lemma for_each_Ok i l :
  for_each i l = Ok tt ↔ ∀ (j : nat) x, l !! j = Some x → f (i + Z.of_nat j) x = Ok tt.
Proof.
  revert i. induction l as [|y l IH]; intros i; simpl; [naive_solver|].
  split.
  - intros ([] & Hy & Hl)%bind_Ok_inv j x Hj. destruct j as [|j]; simplify_eq/=.
    + by rewrite Z.add_0_r.
    + replace (i + Z.of_nat (S j)) with (i + 1 + Z.of_nat j) by lia.
      by apply (proj1 (IH (i + 1)) Hl).
  - intros H. pose proof (H 0%nat y eq_refl) as Hy. replace (i + Z.of_nat 0) with i in Hy by lia.
    rewrite Hy. simpl.
    apply IH. intros j x Hj.
    replace (i + 1 + Z.of_nat j) with (i + Z.of_nat (S j)) by lia. by apply H.
Qed.

Lemma no_panic_for_each i l :
  (∀ j x, x ∈ l → no_panic (f j x)) → no_panic (for_each i l).
Proof.
  revert i. induction l as [|y l IH]; intros i H; [done|]; simpl.
  apply no_panic_bind; [apply H; left|intros _ _; apply IH]. intros. apply H. by right.
Qed.
End for_each.

(** ** Loops

    [loop k] runs at most [2^k] iterations of [step]; a step either continues
    with a new state ([inl]) or leaves the loop ([inr]). The doubling makes the
    budget of a [while] over a 64-bit counter an ordinary small numeral, and the
    loop stops as soon as a step leaves it, so it evaluates at the speed of the
    code. *)
Section loop.
Context {S R : Type} (step : S → S + R).

Fixpoint loop (k : nat) (s : S) : S + R :=
  match k with
  | O => step s
  | Datatypes.S k' =>
      match loop k' s with
      | inl s' => loop k' s'
      | inr r => inr r
      end
  end.

Context (I : S → Prop) (m : S → Z) (Q : R → Prop).

(** Total correctness: an invariant, a variant that decreases at every
    iteration, and a postcondition at the exit. *)
Hypothesis step_ok : ∀ s, I s →
  match step s with
  | inl s' => I s' ∧ m s' < m s
  | inr r => Q r
  end.

Lemma loop_progress k s : I s →
  match loop k s with
  | inl s' => I s' ∧ m s' ≤ m s - 2 ^ Z.of_nat k
  | inr r => Q r
  end.
Proof.
  revert s. induction k as [|k IH]; intros s Hs.
  - simpl. pose proof (step_ok s Hs) as Hstep. destruct (step s); [|done].
    change (2 ^ Z.of_nat 0) with 1. destruct Hstep. split; [done|lia].
  - simpl loop. specialize (IH s Hs) as H1. destruct (loop k s) as [s'|r]; [|done].
    destruct H1 as [Hs' Hm]. specialize (IH s' Hs').
    destruct (loop k s') as [s''|r]; [|done]. destruct IH as [? ?]. split; [done|].
    rewrite Nat2Z.inj_succ, Z.pow_succ_r by lia. lia.
Qed.

Lemma loop_total k s :
  I s → (∀ s', I s' → 0 ≤ m s') → m s < 2 ^ Z.of_nat k →
  ∃ r, loop k s = inr r ∧ Q r.
Proof.
  intros Hs Hpos Hk. pose proof (loop_progress k s Hs) as H.
  destruct (loop k s) as [s'|r]; [|by eauto].
  destruct H as [Hs' Hm]. specialize (Hpos s' Hs'). lia.
Qed.
End loop.

(** A loop whose exit value is itself an outcome. *)
Definition while_loop {S E A} (k : nat) (step : S → S + outcome E A) (s : S) : outcome E A :=
  match loop step k s with
  | inr r => r
  | inl _ => Panic OutOfFuel
  end.

(** A loop left in its first round. *)
Lemma while_loop_exit {S E A} (k : nat) (step : S → S + outcome E A) s r :
  step s = inr r → while_loop k step s = r.
Proof.
  intros Hs. unfold while_loop. assert (loop step k s = inr r) as ->; [|done].
  induction k as [|k IH]; [done|]. cbn [loop]. by rewrite IH.
Qed.

Lemma while_loop_total {S E A} (k : nat) (step : S → S + outcome E A)
    (I : S → Prop) (m : S → Z) (Q : outcome E A → Prop) s :
  (∀ s, I s → match step s with inl s' => I s' ∧ m s' < m s | inr r => Q r end) →
  I s → (∀ s', I s' → 0 ≤ m s') → m s < 2 ^ Z.of_nat k →
  Q (while_loop k step s).
Proof.
  intros Hstep Hs Hpos Hk. unfold while_loop.
  destruct (loop_total step I m Q Hstep k s Hs Hpos Hk) as (r & -> & HQ). done.
Qed.

(** Two loops that agree step by step, up to the error they report, agree on
    the whole run. *)
Definition same_step {S E A} (r1 r2 : S + outcome E A) : Prop :=
  match r1, r2 with
  | inl a, inl b => a = b
  | inr (Ok a), inr (Ok b) => a = b
  | inr (Err _), inr (Err _) => True
  | inr (Panic p), inr (Panic q) => p = q
  | _, _ => False
  end.

Definition same_outcome {E A} (r1 r2 : outcome E A) : Prop :=
  match r1, r2 with
  | Ok a, Ok b => a = b
  | Err _, Err _ => True
  | Panic p, Panic q => p = q
  | _, _ => False
  end.

Lemma same_outcome_refl {E A} (m : outcome E A) : same_outcome m m.
Proof. by destruct m. Qed.

Lemma same_outcome_bind {E A B} (m1 m2 : outcome E A) (f1 f2 : A → outcome E B) :
  same_outcome m1 m2 → (∀ a, m1 = Ok a → same_outcome (f1 a) (f2 a)) →
  same_outcome (m1 ≫= f1) (m2 ≫= f2).
Proof. destruct m1, m2; cbn; try done; naive_solver. Qed.

Lemma while_loop_same {S E A} (k : nat) (step1 step2 : S → S + outcome E A) (I : S → Prop) s :
  (∀ s, I s → same_step (step1 s) (step2 s) ∧ ∀ s', step1 s = inl s' → I s') →
  I s → same_outcome (while_loop k step1 s) (while_loop k step2 s).
Proof.
  intros Hstep Hs.
  assert (same_step (loop step1 k s) (loop step2 k s) ∧ ∀ s', loop step1 k s = inl s' → I s') as [H _].
  { revert s Hs. induction k as [|k IH]; intros s Hs; [by apply Hstep|]. cbn [loop].
    destruct (IH s Hs) as [H1 H2].
    destruct (loop step1 k s) as [s1|r1], (loop step2 k s) as [s2|r2]; cbn [same_step] in H1;
      try done; [|by destruct r1].
    subst s2. by apply IH, H2. }
  unfold while_loop. destruct (loop step1 k s) as [|r1], (loop step2 k s) as [|r2];
    cbn [same_step] in H; try done; by destruct r1.
Qed.

(** Two loops whose steps keep a relation between their states leave in the same round,
    with related results. *)
Lemma loop_simulates {S T A B} (step1 : S → S + A) (step2 : T → T + B)
    (R : S → T → Prop) (Q : A → B → Prop) k s t :
  (∀ s t, R s t →
    match step1 s, step2 t with inl s', inl t' => R s' t' | inr a, inr b => Q a b | _, _ => False end) →
  R s t →
  match loop step1 k s, loop step2 k t with
  | inl s', inl t' => R s' t'
  | inr a, inr b => Q a b
  | _, _ => False
  end.
Proof.
  intros Hstep. revert s t. induction k as [|k IH]; intros s t HR; cbn [loop]; [by apply Hstep|].
  specialize (IH s t HR) as H1. destruct (loop step1 k s) as [s'|a], (loop step2 k t) as [t'|b]; try done.
  by apply IH.
Qed.

(** ** The errors a computation can report *)

Definition refuses {E A} (P : E → Prop) (m : outcome E A) : Prop :=
  match m with Err e => P e | _ => True end.

Section refuses.
Context {E : Type} (P : E → Prop).

Lemma refuses_bind {A B} (m : outcome E A) (f : A → outcome E B) :
  refuses P m → (∀ a, m = Ok a → refuses P (f a)) → refuses P (m ≫= f).
Proof. destruct m; naive_solver. Qed.

Lemma refuses_opt_or {A} (o : option A) e : P e → refuses P (opt_or o e).
Proof. by destruct o. Qed.

Lemma refuses_expect {A} p (o : option A) : refuses P (expect p o).
Proof. by destruct o. Qed.

Lemma refuses_map_err {F A} (g : F → E) (m : outcome F A) : refuses (P ∘ g) m → refuses P (map_err g m).
Proof. by destruct m. Qed.

Lemma refuses_collect {A B} (f : A → outcome E B) l : (∀ a, refuses P (f a)) → refuses P (collect f l).
Proof.
  intros Hf. induction l as [|a l IH]; [done|]. cbn. apply refuses_bind; [done|intros b _].
  by apply refuses_bind.
Qed.

Lemma refuses_for_each {A} (f : Z → A → outcome E unit) i l : (∀ i a, refuses P (f i a)) → refuses P (for_each f i l).
Proof.
  intros Hf. revert i. induction l as [|a l IH]; intros i; [done|]. cbn. by apply refuses_bind.
Qed.

Lemma refuses_while_loop {S A} k (step : S → S + outcome E A) s :
  (∀ s r, step s = inr r → refuses P r) → refuses P (while_loop k step s).
Proof.
  intros Hstep. unfold while_loop. assert (∀ s r, loop step k s = inr r → refuses P r) as Hl.
  { clear s. induction k as [|k IH]; intros s r; cbn; [apply Hstep|].
    destruct (loop step k s) as [s'|r'] eqn:Hs; [apply IH|]. intros [= ->]. by apply (IH s). }
  destruct (loop step k s) eqn:Hs; [done|]. by apply (Hl s).
Qed.
End refuses.

(** ** Lists *)

Lemma filter_none {A} (P : A → Prop) `{!∀ x, Decision (P x)} (l : list A) :
  Forall (λ x, ¬ P x) l → filter P l = [].
Proof.
  induction 1 as [|x l Hx _ IH]; [done|]. by rewrite filter_cons, decide_False.
Qed.

(** ** Tactics *)

(** [inv_ok] splits every hypothesis [m ≫= f = Ok b]. *)
Ltac inv_ok :=
  repeat match goal with
  | H : _ ≫= _ = Ok _ |- _ =>
      let a := fresh "v" in let H1 := fresh "Hv" in
      apply bind_Ok_inv in H as (a & H1 & H)
  | H : Ok _ = Ok _ |- _ => injection H as H; try subst
  | H : Err _ = Ok _ |- _ => discriminate H
  | H : Panic _ = Ok _ |- _ => discriminate H
  end.

(** [bind_ok tac] proves with [tac] that the first computation of the goal
    succeeds, and continues with its value. *)
Tactic Notation "bind_ok" tactic3(tac) :=
  lazymatch goal with
  | |- context [ ?m ≫= ?f ] =>
      let Hm := fresh in
      eassert (Hm : m = Ok _) by tac; rewrite Hm; clear Hm; rewrite bind_Ok
  end.

(** [case_if] destructs the scrutinee of a boolean conditional in the goal and
    reflects it. *)
Ltac reflect_bools :=
  repeat match goal with
  | H : (_ && _)%bool = true |- _ => apply andb_true_iff in H as [? ?]
  | H : (_ && _)%bool = false |- _ => apply andb_false_iff in H
  | H : (_ || _)%bool = false |- _ => apply orb_false_iff in H as [? ?]
  | H : (_ || _)%bool = true |- _ => apply orb_true_iff in H
  | H : negb _ = true |- _ => apply negb_true_iff in H
  | H : negb _ = false |- _ => apply negb_false_iff in H
  | H : (_ <? _) = true |- _ => apply Z.ltb_lt in H
  | H : (_ <? _) = false |- _ => apply Z.ltb_ge in H
  | H : (_ <=? _) = true |- _ => apply Z.leb_le in H
  | H : (_ <=? _) = false |- _ => apply Z.leb_gt in H
  | H : (_ =? _) = true |- _ => apply Z.eqb_eq in H
  | H : (_ =? _) = false |- _ => apply Z.eqb_neq in H
  | H : bool_decide _ = true |- _ => apply bool_decide_eq_true in H
  | H : bool_decide _ = false |- _ => apply bool_decide_eq_false in H
  end.

Ltac case_if :=
  match goal with
  | |- context [if ?b then _ else _] =>
      lazymatch type of b with bool => destruct b eqn:?; reflect_bools end
  end.

Tactic Notation "case_if_as" ident(H) :=
  match goal with
  | |- context [if ?b then _ else _] =>
      lazymatch type of b with bool => destruct b eqn:H; reflect_bools end
  end.

Ltac case_if_in H :=
  match type of H with
  | context [if ?b then _ else _] =>
      lazymatch type of b with bool => destruct b eqn:?; reflect_bools end
  end.

Create HintDb napqes.
#[export] Hint Resolve no_panic_bind no_panic_map_err no_panic_opt_or : napqes.
