(* ===== verification/Machine.v ===== *)
(** * Machine integers, bytes and slices

    Rust's fixed-width integers as [Z] with their bounds written out, checked
    arithmetic (the release profile sets [overflow-checks = true]), big-endian
    serialisation, slices, and the byte operations of the cipher. *)
From stdpp Require Import base tactics list option numbers.
From Stdlib Require Import ZArith Lia Strings.Byte.
From S2P Require Import Prelude.

#[local] Open Scope Z_scope.

(** ** Checked arithmetic *)

Definition fits (w z : Z) : Prop := 0 ≤ z < 2 ^ w.

#[export] Instance fits_dec w z : Decision (fits w z).
Proof. unfold fits. apply _. Defined.

(** [a + b], [a - b], [a * b] and [a % b] on a [w]-bit unsigned type. *)
Definition checked_add {E} (w a b : Z) : outcome E Z :=
  if a + b <? 2 ^ w then Ok (a + b) else Panic PanicOverflow.
Definition checked_sub {E} (a b : Z) : outcome E Z :=
  if a <? b then Panic PanicOverflow else Ok (a - b).
Definition checked_mul {E} (w a b : Z) : outcome E Z :=
  if a * b <? 2 ^ w then Ok (a * b) else Panic PanicOverflow.
Definition checked_rem {E} (a b : Z) : outcome E Z :=
  if b =? 0 then Panic PanicDivZero else Ok (a mod b).
Definition checked_div {E} (a b : Z) : outcome E Z :=
  if b =? 0 then Panic PanicDivZero else Ok (a / b).

Declare Scope napqes_scope.
Delimit Scope napqes_scope with napqes.
Notation "a +64 b" := (checked_add 64 a b) (at level 50, left associativity) : napqes_scope.
Notation "a *64 b" := (checked_mul 64 a b) (at level 40, left associativity) : napqes_scope.
Notation "a -! b" := (checked_sub a b) (at level 50, left associativity) : napqes_scope.
Notation "a %! b" := (checked_rem a b) (at level 40, left associativity) : napqes_scope.
Notation "a /! b" := (checked_div a b) (at level 40, left associativity) : napqes_scope.

Lemma checked_add_Ok {E} w a b :
  a + b < 2 ^ w → checked_add w a b =@{outcome E Z} Ok (a + b).
Proof. intros. unfold checked_add. by rewrite (proj2 (Z.ltb_lt _ _)) by done. Qed.
Lemma checked_sub_Ok {E} a b : b ≤ a → checked_sub a b =@{outcome E Z} Ok (a - b).
Proof. intros. unfold checked_sub. by rewrite (proj2 (Z.ltb_ge _ _)) by done. Qed.
Lemma checked_mul_Ok {E} w a b :
  a * b < 2 ^ w → checked_mul w a b =@{outcome E Z} Ok (a * b).
Proof. intros. unfold checked_mul. by rewrite (proj2 (Z.ltb_lt _ _)) by done. Qed.
Lemma checked_rem_Ok {E} a b : b ≠ 0 → checked_rem a b =@{outcome E Z} Ok (a mod b).
Proof. intros. unfold checked_rem. by rewrite (proj2 (Z.eqb_neq _ _)) by done. Qed.
Lemma checked_div_Ok {E} a b : b ≠ 0 → checked_div a b =@{outcome E Z} Ok (a / b).
Proof. intros. unfold checked_div. by rewrite (proj2 (Z.eqb_neq _ _)) by done. Qed.

(** ** Bytes *)

#[export] Instance byte_eq_dec : EqDecision byte := Byte.byte_eq_dec.
#[export] Instance byte_inhabited : Inhabited byte := populate x00.

Definition byte_to_Z (b : byte) : Z := Z.of_N (Byte.to_N b).

(** [z as u8]. *)
Definition byte_of_Z (z : Z) : byte :=
  match Byte.of_N (Z.to_N (z mod 256)) with Some b => b | None => x00 end.

Definition xor_byte (a b : byte) : byte :=
  byte_of_Z (Z.lxor (byte_to_Z a) (byte_to_Z b)).

(** [a.iter().zip(b.iter()).map(|(a, b)| a ^ b)]. *)
Definition xor_bytes (a b : list byte) : list byte := zip_with xor_byte a b.

Lemma byte_to_Z_range b : 0 ≤ byte_to_Z b < 256.
Proof.
  unfold byte_to_Z. pose proof (Byte.to_N_bounded b). lia.
Qed.

Lemma byte_to_of_Z z : byte_to_Z (byte_of_Z z) = z mod 256.
Proof.
  unfold byte_to_Z, byte_of_Z.
  pose proof (Z.mod_pos_bound z 256 ltac:(lia)) as Hm.
  destruct (Byte.of_N (Z.to_N (z mod 256))) as [b|] eqn:E.
  - apply Byte.to_of_N in E. rewrite E. lia.
  - apply Byte.of_N_None_iff in E. lia.
Qed.

Lemma byte_to_of_Z_small z : 0 ≤ z < 256 → byte_to_Z (byte_of_Z z) = z.
Proof. intros. rewrite byte_to_of_Z. by apply Z.mod_small. Qed.

Lemma byte_of_to_Z b : byte_of_Z (byte_to_Z b) = b.
Proof.
  unfold byte_of_Z. rewrite Z.mod_small by apply byte_to_Z_range.
  unfold byte_to_Z. rewrite N2Z.id. by rewrite Byte.of_to_N.
Qed.

#[export] Instance byte_to_Z_inj : Inj (=) (=) byte_to_Z.
Proof. intros a b H. by rewrite <-(byte_of_to_Z a), <-(byte_of_to_Z b), H. Qed.

(** Exclusive or stays within a width. *)
Lemma lxor_bound w a b :
  0 ≤ w → 0 ≤ a < 2 ^ w → 0 ≤ b < 2 ^ w → 0 ≤ Z.lxor a b < 2 ^ w.
Proof.
  intros Hw Ha Hb. split; [apply Z.lxor_nonneg; lia|].
  assert (Z.lxor a b = Z.lxor a b mod 2 ^ w) as ->; [|apply Z.mod_pos_bound; lia].
  rewrite <-(Z.mod_small a (2 ^ w)), <-(Z.mod_small b (2 ^ w)) by done.
  apply Z.bits_inj'. intros i Hi. destruct (decide (i < w)).
  - by rewrite Z.mod_pow2_bits_low by lia.
  - by rewrite Z.lxor_spec, !Z.mod_pow2_bits_high by lia.
Qed.

Lemma lxor_byte_range a b :
  0 ≤ Z.lxor (byte_to_Z a) (byte_to_Z b) < 256.
Proof. apply (lxor_bound 8); [lia|apply byte_to_Z_range..]. Qed.

Lemma xor_byte_involutive a k : xor_byte (xor_byte a k) k = a.
Proof.
  unfold xor_byte. rewrite byte_to_of_Z_small by apply lxor_byte_range.
  by rewrite Z.lxor_assoc, Z.lxor_nilpotent, Z.lxor_0_r, byte_of_to_Z.
Qed.

Lemma xor_byte_inj_l a b k : xor_byte a k = xor_byte b k → a = b.
Proof.
  intros H. by rewrite <-(xor_byte_involutive a k), H, xor_byte_involutive.
Qed.

Lemma length_xor_bytes a b : length (xor_bytes a b) = (length a `min` length b)%nat.
Proof. apply length_zip_with. Qed.

Lemma xor_bytes_involutive a ks :
  (length a ≤ length ks)%nat → xor_bytes (xor_bytes a ks) ks = a.
Proof.
  revert ks. induction a as [|x a IH]; intros [|k ks]; simpl; try done; [lia|].
  intros H. f_equal; [apply xor_byte_involutive|]. apply IH. lia.
Qed.

(** ** Big-endian serialisation *)

(** [z.to_be_bytes()] for an integer type of [n] bytes, and the low [n] bytes
    of a wider one. *)
Fixpoint to_be_bytes (n : nat) (z : Z) : list byte :=
  match n with
  | O => []
  | S n' => to_be_bytes n' (z / 256) ++ [byte_of_Z z]
  end.

Definition from_be_bytes (l : list byte) : Z :=
  foldl (λ acc b, acc * 256 + byte_to_Z b) 0 l.

(** [z.to_le_bytes()]. *)
Definition to_le_bytes (n : nat) (z : Z) : list byte := reverse (to_be_bytes n z).
Definition from_le_bytes (l : list byte) : Z := from_be_bytes (reverse l).

Lemma length_to_be_bytes n z : length (to_be_bytes n z) = n.
Proof.
  revert z. induction n as [|n IH]; intros z; simpl; [done|].
  rewrite length_app, IH. simpl. lia.
Qed.

Lemma from_be_bytes_snoc l b :
  from_be_bytes (l ++ [b]) = from_be_bytes l * 256 + byte_to_Z b.
Proof. unfold from_be_bytes. by rewrite foldl_app. Qed.

Lemma from_to_be_bytes_mod n z :
  from_be_bytes (to_be_bytes n z) = z mod 256 ^ Z.of_nat n.
Proof.
  revert z. induction n as [|n IH]; intros z; simpl to_be_bytes.
  - by rewrite Z.mod_1_r.
  - rewrite from_be_bytes_snoc, IH, byte_to_of_Z.
    rewrite Nat2Z.inj_succ, Z.pow_succ_r by lia.
    rewrite Z.rem_mul_r by lia. lia.
Qed.

Lemma from_to_be_bytes n z :
  0 ≤ z < 256 ^ Z.of_nat n → from_be_bytes (to_be_bytes n z) = z.
Proof. intros. rewrite from_to_be_bytes_mod. by apply Z.mod_small. Qed.

Lemma from_be_bytes_range l : 0 ≤ from_be_bytes l < 256 ^ Z.of_nat (length l).
Proof.
  induction l as [|b l IH] using rev_ind; [done|].
  rewrite from_be_bytes_snoc, length_app. simpl.
  replace (length l + 1)%nat with (S (length l)) by lia.
  rewrite Nat2Z.inj_succ, Z.pow_succ_r by lia.
  pose proof (byte_to_Z_range b). lia.
Qed.

Lemma to_from_be_bytes l : to_be_bytes (length l) (from_be_bytes l) = l.
Proof.
  induction l as [|b l IH] using rev_ind; [done|].
  rewrite length_app. simpl. rewrite Nat.add_1_r. simpl.
  pose proof (byte_to_Z_range b) as Hb.
  rewrite from_be_bytes_snoc.
  rewrite Z.div_add_l, Z.div_small, Z.add_0_r, IH by lia.
  f_equal. f_equal. unfold byte_of_Z.
  rewrite (Z.add_comm _ (byte_to_Z b)), Z.mod_add, Z.mod_small by lia.
  unfold byte_to_Z. rewrite N2Z.id. by rewrite Byte.of_to_N.
Qed.

Lemma to_from_be_bytes' n l : length l = n → to_be_bytes n (from_be_bytes l) = l.
Proof. intros <-. apply to_from_be_bytes. Qed.

Lemma to_be_bytes_app n m z :
  to_be_bytes (n + m) z = to_be_bytes n (z / 256 ^ Z.of_nat m) ++ to_be_bytes m z.
Proof.
  revert z. induction m as [|m IH]; intros z.
  - rewrite Nat.add_0_r, Z.pow_0_r, Z.div_1_r. by rewrite app_nil_r.
  - rewrite Nat.add_succ_r. cbn [to_be_bytes]. rewrite IH, <-app_assoc, Z.div_div by lia.
    by rewrite Nat2Z.inj_succ, Z.pow_succ_r by lia.
Qed.

Lemma to_be_bytes_inj n a b :
  0 ≤ a < 256 ^ Z.of_nat n → 0 ≤ b < 256 ^ Z.of_nat n →
  to_be_bytes n a = to_be_bytes n b → a = b.
Proof.
  intros Ha Hb H. by rewrite <-(from_to_be_bytes n a), <-(from_to_be_bytes n b), H.
Qed.

Lemma from_be_bytes_inj a b :
  length a = length b → from_be_bytes a = from_be_bytes b → a = b.
Proof.
  intros Hl H. rewrite <-(to_from_be_bytes a), <-(to_from_be_bytes b). by rewrite Hl, H.
Qed.

Lemma length_to_le_bytes n z : length (to_le_bytes n z) = n.
Proof. unfold to_le_bytes. by rewrite length_reverse, length_to_be_bytes. Qed.

Lemma from_to_le_bytes n z :
  0 ≤ z < 256 ^ Z.of_nat n → from_le_bytes (to_le_bytes n z) = z.
Proof.
  intros. unfold from_le_bytes, to_le_bytes. rewrite reverse_involutive.
  by apply from_to_be_bytes.
Qed.

Lemma to_from_le_bytes n l : length l = n → to_le_bytes n (from_le_bytes l) = l.
Proof.
  intros Hl. unfold to_le_bytes, from_le_bytes.
  rewrite to_from_be_bytes' by (by rewrite length_reverse).
  apply reverse_involutive.
Qed.

Lemma from_le_bytes_range l : 0 ≤ from_le_bytes l < 256 ^ Z.of_nat (length l).
Proof.
  unfold from_le_bytes. rewrite <-(length_reverse l). apply from_be_bytes_range.
Qed.

(** ** Slices *)

(** [l[i..j]] when in range. *)
Definition slice {A} (i j : nat) (l : list A) : list A := take (j - i) (drop i l).

(** [l[i..j]] as the code writes it: out of range panics. *)
Definition index_range {E A} (i j : nat) (l : list A) : outcome E (list A) :=
  if bool_decide (i ≤ j ∧ j ≤ length l)%nat then Ok (slice i j l) else Panic PanicBounds.

Lemma length_slice {A} i j (l : list A) :
  (i ≤ j)%nat → (j ≤ length l)%nat → length (slice i j l) = (j - i)%nat.
Proof. intros. unfold slice. rewrite length_take, length_drop. lia. Qed.

Lemma slice_app_exact {A} (a b c : list A) i j :
  length a = i → j = (i + length b)%nat → slice i j (a ++ b ++ c) = b.
Proof.
  intros <- ->. unfold slice. rewrite drop_app_length.
  by rewrite Nat.add_comm, Nat.add_sub, take_app_length.
Qed.

Lemma slice_split {A} i j k (l : list A) :
  (i ≤ j)%nat → (j ≤ k)%nat → slice i j l ++ slice j k l = slice i k l.
Proof.
  intros. unfold slice.
  replace (drop j l) with (drop (j - i) (drop i l)) by (rewrite drop_drop; f_equal; lia).
  replace (k - i)%nat with ((j - i) + (k - j))%nat by lia.
  by rewrite take_take_drop.
Qed.

Lemma slice_full {A} n (l : list A) : length l = n → slice 0 n l = l.
Proof. intros <-. unfold slice. rewrite Nat.sub_0_r, drop_0. by rewrite firstn_all. Qed.

Lemma index_range_Ok {E A} i j (l : list A) :
  (i ≤ j)%nat → (j ≤ length l)%nat → index_range i j l =@{outcome E _} Ok (slice i j l).
Proof. intros. unfold index_range. by rewrite bool_decide_eq_true_2. Qed.

(** [data.chunks_exact(n)]: the complete chunks of [n] elements. *)
Fixpoint chunks_exact_fuel {A} (fuel n : nat) (l : list A) : list (list A) :=
  match fuel with
  | O => []
  | S fuel' =>
      if bool_decide (n ≤ length l)%nat
      then take n l :: chunks_exact_fuel fuel' n (drop n l) else []
  end.

Definition chunks_exact {A} (n : nat) (l : list A) : list (list A) :=
  chunks_exact_fuel (length l) n l.

(** Every round removes [n >= 1] elements, so a budget of [length l] rounds
    is enough: more fuel changes nothing. *)
Lemma chunks_exact_fuel_enough {A} n (l : list A) f1 f2 :
  (0 < n)%nat → (length l ≤ f1)%nat → (length l ≤ f2)%nat →
  chunks_exact_fuel f1 n l = chunks_exact_fuel f2 n l.
Proof.
  intros Hn H1 H2. revert l f2 H1 H2. induction f1 as [|f1 IH]; intros l f2 H1 H2.
  - destruct l; [|simpl in H1; lia]. destruct f2; [done|]. simpl.
    rewrite bool_decide_eq_false_2; [done|simpl; lia].
  - destruct f2 as [|f2].
    + destruct l; [|simpl in H2; lia]. simpl.
      rewrite bool_decide_eq_false_2; [done|simpl; lia].
    + simpl. case_bool_decide; [|done]. f_equal. apply IH; rewrite length_drop; lia.
Qed.

Lemma chunks_exact_cons {A} n (c l : list A) :
  (0 < n)%nat → length c = n → chunks_exact n (c ++ l) = c :: chunks_exact n l.
Proof.
  intros Hn Hc. unfold chunks_exact. rewrite length_app.
  destruct (length c + length l)%nat as [|f] eqn:E; [lia|]. simpl.
  rewrite bool_decide_eq_true_2 by (rewrite length_app; lia).
  rewrite take_app_length', drop_app_length' by done.
  f_equal. apply chunks_exact_fuel_enough; lia.
Qed.

Lemma chunks_exact_short {A} n (l : list A) :
  (length l < n)%nat → chunks_exact n l = [].
Proof.
  intros. unfold chunks_exact. destruct (length l) eqn:E; [done|]. simpl.
  rewrite bool_decide_eq_false_2; [done|lia].
Qed.

(** ** Unicode scalar values *)

(** [char::from_u32(c).is_some()]. *)
Definition is_scalar (c : Z) : bool :=
  (0 <=? c) && (c <=? 0x10FFFF) && negb ((0xD800 <=? c) && (c <=? 0xDFFF)).

(** [char::from_u32]. A [String] is the list of its scalar values. *)
Definition char_from_u32 (c : Z) : option Z := if is_scalar c then Some c else None.

Definition str_ok (s : list Z) : Prop := Forall (λ c, is_scalar c = true) s.

#[export] Instance str_ok_dec s : Decision (str_ok s).
Proof. unfold str_ok. apply _. Defined.

Lemma is_scalar_range c : is_scalar c = true → 0 ≤ c ≤ 0x10FFFF.
Proof. unfold is_scalar. intros. reflect_bools. lia. Qed.

Lemma is_scalar_byte c : 0 ≤ c ≤ 0xFF → is_scalar c = true.
Proof.
  intros. unfold is_scalar. repeat (apply andb_true_intro; split).
  - apply Z.leb_le. lia.
  - apply Z.leb_le. lia.
  - apply negb_true_iff, andb_false_iff. left. apply Z.leb_gt. lia.
Qed.

(** UTF-8, the bytes of a [&str] ([str::as_bytes]). *)
Definition utf8_char (c : Z) : list byte :=
  if c <? 0x80 then [byte_of_Z c]
  else if c <? 0x800 then
    [byte_of_Z (0xC0 + c / 2 ^ 6); byte_of_Z (0x80 + c mod 2 ^ 6)]
  else if c <? 0x10000 then
    [byte_of_Z (0xE0 + c / 2 ^ 12); byte_of_Z (0x80 + (c / 2 ^ 6) mod 2 ^ 6);
     byte_of_Z (0x80 + c mod 2 ^ 6)]
  else
    [byte_of_Z (0xF0 + c / 2 ^ 18); byte_of_Z (0x80 + (c / 2 ^ 12) mod 2 ^ 6);
     byte_of_Z (0x80 + (c / 2 ^ 6) mod 2 ^ 6); byte_of_Z (0x80 + c mod 2 ^ 6)].

Definition as_bytes (s : list Z) : list byte := concat (utf8_char <$> s).

(** A codepoint as wide as [len_utf8] says; enough for length bounds. *)
Lemma length_utf8_char c : (1 ≤ length (utf8_char c) ≤ 4)%nat.
Proof. unfold utf8_char. repeat case_if; simpl; lia. Qed.
