(* ===== verification/Errors.v ===== *)
(** * Errors of the crate root

    Every function of [lib.rs], [key.rs] and [kem.rs] reports failure as a
    formatted [String]. Each message is one constructor here, with the values
    the message interpolates, so a theorem can say which check refused; only
    [TooManyElements] and [MessageTooLong] stand for the wordings of several
    functions. [Messages] has the texts. *)
From stdpp Require Import base tactics decidable numbers.
From Stdlib Require Import ZArith.

#[local] Open Scope Z_scope.

Inductive error :=
(* self_test.rs: the FIPS gate *)
| NotOperational
(* validate_key, validate_key_v7_decrypt *)
| EmptyKey
| TooManyElements (n : Z)
| BelowMinimum (i k : Z)
| AboveMaximum (i k : Z)
| NotSerialisable (i k : Z)
| NotPrime (i k : Z)
| DuplicateElement (j i : Z)
| OutsideV7Range (i k : Z)
| DuplicatesEarlier (i : Z)
(* key generation and the continuous RNG test *)
| KeygenBadCount (count : Z)
| KeygenEmptyRange (min_val max_val : Z)
| KeygenExhausted (count min_val max_val max_attempts : Z)
| KeygenOutsideInterval (min_val max_val : Z)
| CrngStuck
(* padding *)
| ExceedsMaximumBucket (n : Z)
| BadCoarseStride (g : Z)
| BadFrameSize (f : Z)
| FrameTooSmall (f n : Z)
| PaddedTooShort
| PrefixNotByteValued (hi lo : Z)
| PrefixExceedsData (n available : Z)
(* token streams *)
| BlobNotMultiple (len : Z)
| NoiseRunAborted
| V7MalformedToken (ct_pos k : Z)
| V7NotScalar (cp ct_pos : Z)
| V8NotCeilingMultiple
| V8IllegalRealCount (real_count : Z)
| V8Truncated (ct_pos n_tokens real_idx real_count noise_run : Z)
| V8MalformedToken (ct_pos k : Z)
| V8NotScalar (cp ct_pos : Z)
(* sealing and opening *)
| CiphertextTooShort (len : Z)
| AuthenticationFailed
| MessageTooLong (n : Z)
| V7AadTooLong (n : Z)
| V7PlaintextNotScalar (c i : Z)
| V8PlaintextNotScalar (c : Z)
| V7NotByte (c i : Z)
| InputNotScalar (c i : Z)
| Base64DecodeError
| VarintDecode (e : error)
(* the v8 stream *)
| StreamBadFrame (f : Z)
| StreamHeaderTruncated (len : Z)
| StreamBadFormat (id : Z)
| StreamHeaderBadFrame (f : Z)
| StreamNoLengthPrefix
| StreamNoSentinelBody
| StreamSentinelTag
| StreamSentinelCount (total delivered pending : Z)
| StreamTrailingBytes (n : Z)
| StreamNotScalar (c : Z)
| StreamChunkLength (got expected : Z)
| StreamTruncatedFrame
| StreamChunkTag (idx : Z)
| StreamChunkTruncated
| StreamChunkMalformed (ct_pos : Z)
| StreamChunkNotScalar (cp : Z)
| StreamChunkLimit
| StreamPushAfterFinish
| StreamFinishTwice
(* kem.rs *)
| InvalidPublicKey
| InvalidKemCiphertext
| InvalidSecretKey
| X25519SecretSize (n : Z)
| X25519AllZero
| HybridPublicKeySize (n : Z)
| HybridCiphertextSize (n : Z)
| HybridSecretKeySize (n : Z).

#[export] Instance error_eq_dec : EqDecision error.
Proof. solve_decision. Defined.
