(* ===== verification/Crates.v ===== *)
(** * Third-party crates

    Code the repository calls but does not contain is an interface here: the
    operations the source uses and the documented laws it relies on. Nothing
    below fixes an implementation; [Toy] gives one small instance of each, so
    that the laws are seen to be satisfiable and theorems can be exercised. *)
From stdpp Require Import base tactics list option numbers.
From Stdlib Require Import ZArith Lia Strings.Byte.
From S2P Require Import Prelude Machine.

#[local] Open Scope Z_scope.

(** [hmac] + [sha2] (HMAC-SHA256: total for every key length, 32-byte output)
    and [subtle] ([ConstantTimeEq] on slices: equality, [false] on a length
    mismatch). *)
Class Crypto := {
  hmac_sha256 : list byte → list byte → list byte;
  length_hmac_sha256 : ∀ key data, length (hmac_sha256 key data) = 32%nat;
  ct_eq : list byte → list byte → bool;
  ct_eq_spec : ∀ a b, ct_eq a b = true ↔ a = b;
}.

(** [sha2]: [Sha256::digest]. *)
Class Sha256 := {
  sha256 : list byte → list byte;
  length_sha256 : ∀ data, length (sha256 data) = 32%nat;
}.

(** [base64]'s [STANDARD] engine: encoding produces a string, and decoding the
    bytes of an encoding gives back the input, and never yields more bytes than
    it reads. *)
Class Base64 := {
  b64_encode : list byte → list Z;
  b64_decode : list byte → option (list byte);
  b64_encode_ok : ∀ data, str_ok (b64_encode data);
  b64_roundtrip : ∀ data, b64_decode (as_bytes (b64_encode data)) = Some data;
  b64_decode_length : ∀ s data, b64_decode s = Some data → (length data ≤ length s)%nat;
}.

(** [hkdf]: [Hkdf::<Sha256>::new(Some(salt), ikm).expand(info, out)] for a
    32-byte output, which never exceeds the RFC 5869 limit. *)
Class Hkdf := {
  hkdf_sha256 : (* salt *) list byte → (* ikm *) list byte → (* info *) list byte → list byte;
  length_hkdf_sha256 : ∀ salt ikm info, length (hkdf_sha256 salt ikm info) = 32%nat;
}.

(** [pqcrypto_frodo::frodokem640aes]. The randomness of [keypair] and
    [encapsulate] is an argument; [from_bytes] accepts exactly the byte strings
    of the right length, and decapsulation inverts encapsulation on a genuine
    pair. *)
Class Frodo := {
  frodo_pk_len : Z; frodo_sk_len : Z; frodo_ct_len : Z;
  frodo_keypair : (* seed *) list byte → list byte * list byte;
  frodo_encapsulate : (* pk *) list byte → (* seed *) list byte → list byte * list byte;
  frodo_decapsulate : (* ct *) list byte → (* sk *) list byte → list byte;
  length_frodo_keypair : ∀ seed,
    Z.of_nat (length (frodo_keypair seed).1) = frodo_pk_len ∧
    Z.of_nat (length (frodo_keypair seed).2) = frodo_sk_len;
  length_frodo_ct : ∀ pk seed, Z.of_nat (length (frodo_encapsulate pk seed).2) = frodo_ct_len;
  frodo_correct : ∀ s1 s2,
    frodo_decapsulate (frodo_encapsulate (frodo_keypair s1).1 s2).2 (frodo_keypair s1).2
    = (frodo_encapsulate (frodo_keypair s1).1 s2).1;
}.

(** [x25519_dalek]: 32-byte scalars and points, with commuting Diffie-Hellman. *)
Class X25519 := {
  x25519_public : list byte → list byte;
  x25519_dh : (* secret *) list byte → (* public *) list byte → list byte;
  length_x25519_public : ∀ sk, length (x25519_public sk) = 32%nat;
  length_x25519_dh : ∀ sk pk, length (x25519_dh sk pk) = 32%nat;
  x25519_comm : ∀ a b, x25519_dh a (x25519_public b) = x25519_dh b (x25519_public a);
}.

(** ** Toy instances *)
Module Toy.
(** A keyed mixing function with 32-byte output; it has no cryptographic
    strength and stands in for HMAC only in worked examples. *)
Definition absorb (acc : Z) (b : byte) : Z :=
  Z.land (Z.lxor acc (byte_to_Z b) * 1099511628211) (Z.ones 61).
Definition hmac (key data : list byte) : list byte :=
  let h := to_be_bytes 8 (foldl absorb 14695981039346656037 (key ++ x5c :: data ++ [x36])) in
  reverse h ++ h ++ reverse h ++ h.

Lemma length_hmac key data : length (hmac key data) = 32%nat.
Proof.
  unfold hmac. cbv zeta. rewrite !length_app, !length_reverse. by rewrite !length_to_be_bytes.
Qed.

#[export, program] Instance crypto : Crypto := {|
  hmac_sha256 := hmac;
  ct_eq a b := bool_decide (a = b);
|}.
Next Obligation. intros. apply length_hmac. Qed.
Next Obligation. intros. apply bool_decide_eq_true. Qed.

(** A constant keyed function: every pair of inputs collides. *)
Definition constant (key data : list byte) : list byte := replicate 32 x00.

#[program] Definition constant_crypto : Crypto := {|
  hmac_sha256 := constant;
  ct_eq a b := bool_decide (a = b);
|}.
Next Obligation. done. Qed.
Next Obligation. intros. apply bool_decide_eq_true. Qed.

#[export, program] Instance sha : Sha256 := {| sha256 := hmac [] |}.
Next Obligation. intros. apply length_hmac. Qed.

(** Two characters per byte, [A] to [P]. *)
Definition encode (data : list byte) : list Z :=
  concat ((λ b, [65 + byte_to_Z b / 16; 65 + byte_to_Z b mod 16]) <$> data).
Fixpoint decode (s : list byte) : option (list byte) :=
  match s with
  | [] => Some []
  | hi :: lo :: s' =>
      (byte_of_Z ((byte_to_Z hi - 65) * 16 + (byte_to_Z lo - 65)) ::.) <$> decode s'
  | _ => None
  end.

Lemma length_decode n : ∀ s data, (length s ≤ n)%nat → decode s = Some data → (length data ≤ length s)%nat.
Proof.
  induction n as [|n IH]; intros [|hi [|lo s]] data Hn Hd; cbn [length decode] in *; simplify_eq; cbn; try lia.
  apply fmap_Some in Hd as (d & Hd & ->). apply IH in Hd; [cbn; lia|lia].
Qed.

Lemma utf8_ascii c : 0 ≤ c < 128 → utf8_char c = [byte_of_Z c].
Proof. intros. unfold utf8_char. case_if; [done|lia]. Qed.

#[export, program] Instance base64 : Base64 := {|
  b64_encode := encode;
  b64_decode := decode;
|}.
Next Obligation.
  intros data. unfold str_ok, encode. induction data as [|b data IH]; simpl; [done|].
  pose proof (byte_to_Z_range b).
  pose proof (Z.div_pos (byte_to_Z b) 16).
  pose proof (Z.div_lt_upper_bound (byte_to_Z b) 16 16).
  pose proof (Z.mod_pos_bound (byte_to_Z b) 16).
  repeat constructor; [apply is_scalar_byte; lia..|done].
Qed.
Next Obligation.
  intros data. unfold as_bytes, encode. induction data as [|b data IH]; [done|].
  cbn [fmap list_fmap concat app].
  pose proof (byte_to_Z_range b) as Hb.
  pose proof (Z.div_pos (byte_to_Z b) 16).
  pose proof (Z.div_lt_upper_bound (byte_to_Z b) 16 16).
  pose proof (Z.mod_pos_bound (byte_to_Z b) 16).
  cbn [fmap list_fmap concat app].
  rewrite !utf8_ascii by lia. cbn [app decode].
  change (list_fmap Z (list byte) utf8_char) with (fmap (M:=list) utf8_char) in *.
  rewrite IH. cbn [fmap option_fmap option_map]. do 2 f_equal.
  rewrite !byte_to_of_Z_small by lia.
  rewrite <-(byte_of_to_Z b) at 3. f_equal.
  rewrite (Z.div_mod (byte_to_Z b) 16) at 3 by lia. lia.
Qed.
Next Obligation. intros s data. by apply (length_decode (length s)). Qed.

#[export, program] Instance hkdf : Hkdf := {|
  hkdf_sha256 salt ikm info := hmac (hmac salt ikm) info;
|}.
Next Obligation. intros. apply length_hmac. Qed.

(** FrodoKEM by revealing the secret: the ciphertext is the padded secret. *)
Definition pad (n : nat) (l : list byte) : list byte := take n (l ++ replicate n x00).

Lemma length_pad n l : length (pad n l) = n.
Proof. unfold pad. rewrite length_take, length_app, length_replicate. lia. Qed.

Lemma pad_pad n l : pad n (pad n l) = pad n l.
Proof. unfold pad at 1. by rewrite take_app_length' by (by rewrite length_pad). Qed.

#[export, program] Instance frodo : Frodo := {|
  frodo_pk_len := 9616; frodo_sk_len := 19888; frodo_ct_len := 9720;
  frodo_keypair seed := (pad (Z.to_nat 9616) seed, pad (Z.to_nat 19888) seed);
  frodo_encapsulate pk seed := (pad 16 seed, pad (Z.to_nat 9720) (pad 16 seed));
  frodo_decapsulate ct sk := take 16 ct;
|}.
Next Obligation. intros. cbn [fst snd]. rewrite !length_pad, !Z2Nat.id by lia. done. Qed.
Next Obligation. intros. cbn [fst snd]. rewrite length_pad, Z2Nat.id by lia. done. Qed.
Next Obligation.
  intros. cbn [fst snd]. unfold pad at 1. rewrite take_take, Nat.min_l by lia.
  by rewrite take_app_length' by (by rewrite length_pad).
Qed.

(** Diffie-Hellman in the group of 32-byte strings under exclusive or. *)
Lemma xor_bytes_comm a b : xor_bytes a b = xor_bytes b a.
Proof.
  unfold xor_bytes. revert b. induction a as [|x a IH]; intros [|y b]; try done. simpl.
  rewrite IH. f_equal. unfold xor_byte. by rewrite Z.lxor_comm.
Qed.

#[export, program] Instance x25519 : X25519 := {|
  x25519_public sk := pad 32 sk;
  x25519_dh sk pk := xor_bytes (pad 32 sk) (pad 32 pk);
|}.
Next Obligation. intros. apply length_pad. Qed.
Next Obligation. intros. etransitivity; [apply length_xor_bytes|by rewrite !length_pad]. Qed.
Next Obligation.
  intros a b. change (xor_bytes (pad 32 a) (pad 32 (pad 32 b)) = xor_bytes (pad 32 b) (pad 32 (pad 32 a))).
  rewrite !pad_pad. apply xor_bytes_comm.
Qed.
End Toy.
