(* ===== verification/Post.v ===== *)
(** * The power-on self-test gate ([self_test.rs])

    The process-global latch that the public entry points consult when the
    [fips_gate] feature is on. The state machine that moves the latch is in
    [PostLatch]; here is only the decision an entry point makes. *)
From stdpp Require Import base tactics decidable numbers.
From Stdlib Require Import ZArith Lia.
From S2P Require Import Prelude Errors.

#[local] Open Scope Z_scope.

Definition POST_NOT_RUN : Z := 0.
Definition POST_RUNNING : Z := 1.
Definition POST_PASSED : Z := 2.
Definition POST_FAILED : Z := 3.

Inductive internal_error := OddHexLength | InvalidHexDigit | FaultInjected.

#[export] Instance internal_error_eq_dec : EqDecision internal_error.
Proof. solve_decision. Defined.

Inductive SelfTestError :=
| KatEncryptMismatch | KatDecryptMismatch | KatTamperNotRejected
| KatV8EncryptFailed | KatV8DecryptFailed | KatV8StructuralAccept
| KatV8TamperNotRejected | KatKemFailed | KatStreamFailed
| BuildProvenanceMismatch | IntegrityCheckFailed | ModuleNotOperational
| InternalError (message : internal_error).

#[export] Instance SelfTestError_eq_dec : EqDecision SelfTestError.
Proof. solve_decision. Defined.

(** The gate decision: [POST_RUNNING] lets in only the thread running POST. *)
Definition gate_admit (state : Z) (in_post : bool) : outcome SelfTestError unit :=
  if state =? POST_PASSED then Ok tt
  else if (state =? POST_RUNNING) && in_post then Ok tt
  else Err ModuleNotOperational.

(** What a call sees of the process-global state: whether the feature is
    compiled in, whether this is the POST thread, and the values of the latch the
    call loads: first, then again, or once a running POST has released the lock. *)
Class Gate := {
  fips_gate : bool;
  in_post : bool;
  post_state : Z;
  post_state_again : Z;
  post_state_unlocked : Z;
}.

Definition require_post `{Gate} : outcome SelfTestError unit :=
  if in_post then gate_admit post_state true
  else if post_state =? POST_RUNNING then gate_admit post_state_unlocked false
  else gate_admit post_state_again false.

(** [#[cfg(feature = "fips_gate")] require_post().map_err(|e| e.to_string())?] *)
Definition gated `{Gate} : outcome error unit :=
  if fips_gate then map_err (λ _, NotOperational) require_post else Ok tt.

(** The gate is open for the calling thread. *)
Definition gate_open `{Gate} : Prop := gated = Ok tt.

#[export] Instance gate_open_dec `{Gate} : Decision gate_open.
Proof.
  unfold gate_open. destruct gated as [[]| |]; [left; done|right; done|right; done].
Defined.

(** A default build: the feature is off. *)
Definition default_build : Gate :=
  {| fips_gate := false; in_post := false;
     post_state := POST_NOT_RUN; post_state_again := POST_NOT_RUN;
     post_state_unlocked := POST_NOT_RUN |}.

Lemma gated_cases `{Gate} : gated = Ok tt ∨ gated = Err NotOperational.
Proof.
  unfold gated, require_post, gate_admit. repeat case_match; simpl; auto.
Qed.

Lemma no_panic_gated `{Gate} : no_panic gated.
Proof. by destruct gated_cases as [->| ->]. Qed.

Lemma gated_closed `{Gate} : ¬ gate_open → gated = Err NotOperational.
Proof. unfold gate_open. by destruct gated_cases as [->| ->]. Qed.

(** An open gate means POST has passed, or the caller is the POST thread while
    POST runs. *)
Lemma gate_open_iff `{Gate} :
  gate_open ↔
  fips_gate = false ∨
  (in_post = true ∧ (post_state = POST_PASSED ∨ post_state = POST_RUNNING)) ∨
  (in_post = false ∧ post_state ≠ POST_RUNNING ∧ post_state_again = POST_PASSED) ∨
  (in_post = false ∧ post_state = POST_RUNNING ∧ post_state_unlocked = POST_PASSED).
Proof.
  unfold gate_open, gated, require_post, gate_admit.
  destruct fips_gate, in_post; simpl;
    repeat (case_if; simpl); unfold POST_PASSED, POST_RUNNING in *;
    naive_solver lia.
Qed.

#[export] Hint Resolve no_panic_gated : napqes.
