(* ===== verification/Primes.v ===== *)
(** * Primality ([lib.rs]: [isqrt_u64], [is_prime])

    [isqrt_u64] starts from an IEEE-754 estimate and corrects it; the estimate
    is computed with the Standard Library's executable specification of binary64
    arithmetic, and the correctness theorem does not depend on its accuracy. *)
From stdpp Require Import base tactics list option numbers sets.
From Stdlib Require Import ZArith Lia Zdivisibility Znumtheory Floats.SpecFloat.
From S2P Require Import Prelude Machine Errors.

#[local] Open Scope Z_scope.
#[local] Open Scope napqes_scope.

(** ** binary64 *)

(** [n as f64], [x.sqrt()] and [x as u64] (truncating, saturating, NaN to 0). *)
Definition f64_of_u64 (n : Z) : spec_float := binary_normalize 53 1024 n 0 false.
Definition f64_sqrt (x : spec_float) : spec_float := SFsqrt 53 1024 x.
Definition u64_of_f64 (x : spec_float) : Z :=
  match x with
  | S754_zero _ | S754_nan => 0
  | S754_infinity s => if s then 0 else 2 ^ 64 - 1
  | S754_finite s m e =>
      if s then 0 else Z.min (2 ^ 64 - 1) (Z.shiftl (Zpos m) e)
  end.

Lemma u64_of_f64_range x : fits 64 (u64_of_f64 x).
Proof.
  unfold fits. destruct x as [s|s| |s m e]; simpl; try (destruct s; simpl); try lia.
  pose proof (proj2 (Z.shiftl_nonneg (Zpos m) e) ltac:(lia)). lia.
Qed.

(** ** Integer square root *)

(** A step that keeps looping on success and leaves the loop on failure. *)
Definition continue_with {E A B} (m : outcome E A) : A + outcome E B :=
  match m with Ok s => inl s | Err e => inr (Err e) | Panic p => inr (Panic p) end.

Definition checked_mul_opt (a b : Z) : option Z :=
  if a * b <? 2 ^ 64 then Some (a * b) else None.

Definition isqrt_down {E} (n r : Z) : Z + outcome E Z :=
  if match checked_mul_opt r r with Some sq => n <? sq | None => true end
  then continue_with (r -! 1) else inr (Ok r).

Definition isqrt_up {E} (n r : Z) : Z + outcome E Z :=
  match r +64 1 with
  | Ok r1 =>
      if match checked_mul_opt r1 r1 with Some sq => sq <=? n | None => false end
      then continue_with (r +64 1) else inr (Ok r)
  | Err e => inr (Err e)
  | Panic p => inr (Panic p)
  end.

Definition isqrt_u64 {E} (n : Z) : outcome E Z :=
  let r := u64_of_f64 (f64_sqrt (f64_of_u64 n)) in
  r ← while_loop 64 (isqrt_down n) r;
  while_loop 64 (isqrt_up n) r.

(** ** Trial division *)

Definition SMALL_ODD_PRIMES : list Z :=
  [3; 5; 7; 11; 13; 17; 19; 23; 29; 31; 37; 41; 43; 47; 53].

Definition trial_division {E} (n limit i : Z) : Z + outcome E bool :=
  if i <=? limit then
    if n mod i =? 0 then inr (Ok false) else continue_with (i +64 2)
  else inr (Ok true).

Definition is_prime {E} (n : Z) : outcome E bool :=
  if n <? 2 then Ok false
  else if n mod 2 =? 0 then Ok (n =? 2)
  else match List.find (λ p, n mod p =? 0) SMALL_ODD_PRIMES with
  | Some p => Ok (n =? p)
  | None =>
      limit ← isqrt_u64 n;
      while_loop 33 (trial_division n limit) 59
  end.

(** ** Correctness *)

Section isqrt.
Context {E : Type} (n : Z) (Hn : fits 64 n).

Lemma isqrt_down_correct r :
  fits 64 r → ∃ r', while_loop 64 (isqrt_down (E:=E) n) r = Ok r' ∧ 0 ≤ r' ∧ r' * r' ≤ n.
Proof using Hn.
  intros Hr.
  apply (while_loop_total 64 (isqrt_down (E:=E) n) (fits 64) (λ r, r)
           (λ o, ∃ r', o = Ok r' ∧ 0 ≤ r' ∧ r' * r' ≤ n)); unfold fits in *; [|lia..].
  intros s Hs. unfold isqrt_down, checked_mul_opt.
  destruct (s * s <? 2 ^ 64) eqn:Hov; reflect_bools; [case_if|];
    try (rewrite checked_sub_Ok by nia; simpl; nia).
  eexists; split_and!; [done|lia|lia].
Qed.

Lemma isqrt_up_correct r :
  0 ≤ r → r * r ≤ n →
  ∃ r', while_loop 64 (isqrt_up (E:=E) n) r = Ok r' ∧ 0 ≤ r' ∧ r' * r' ≤ n < (r' + 1) * (r' + 1).
Proof using Hn.
  intros Hr Hrn.
  apply (while_loop_total 64 (isqrt_up (E:=E) n)
           (λ r, 0 ≤ r ∧ r * r ≤ n) (λ r, 2 ^ 32 - r)
           (λ o, ∃ r', o = Ok r' ∧ 0 ≤ r' ∧ r' * r' ≤ n < (r' + 1) * (r' + 1)));
    unfold fits in *; [|nia..].
  intros s [Hs0 Hs]. unfold isqrt_up, checked_mul_opt.
  rewrite checked_add_Ok by nia.
  destruct ((s + 1) * (s + 1) <? 2 ^ 64) eqn:Hov; reflect_bools; [case_if|]; simpl.
  - nia.
  - eexists; split_and!; [done|lia|lia|nia].
  - eexists; split_and!; [done|lia|lia|nia].
Qed.
End isqrt.

Lemma isqrt_u64_correct {E} n :
  fits 64 n →
  ∃ r, isqrt_u64 n =@{outcome E Z} Ok r ∧ 0 ≤ r ∧ r * r ≤ n < (r + 1) * (r + 1).
Proof.
  intros Hn. unfold isqrt_u64.
  destruct (isqrt_down_correct (E:=E) n Hn _ (u64_of_f64_range (f64_sqrt (f64_of_u64 n))))
    as (r & -> & Hr & Hrn). simpl.
  by apply isqrt_up_correct.
Qed.

Lemma divide_of_mod n d : d ≠ 0 → n mod d = 0 → (d | n).
Proof. intros. by apply Z.mod_divide. Qed.

(** A number with no divisor from 2 up to its square root is prime. *)
Lemma prime_of_no_small_divisor n :
  2 ≤ n → (∀ d, 2 ≤ d → d * d ≤ n → ¬ (d | n)) → Z.prime n.
Proof.
  intros Hn H. split; [lia|].
  intros d Hd [q Hq]. destruct (decide (d * d ≤ n)).
  - apply (H d); [lia|done|by exists q].
  - apply (H q); [nia|nia|exists d; lia].
Qed.

Lemma not_prime_of_divisor n d : 1 < d < n → (d | n) → ¬ Z.prime n.
Proof. intros Hd Hdn [_ Hp]. by apply (Hp d). Qed.

(** Every number from 2 to 58 has a prime factor among 2 and the table. *)
Lemma small_divisor d :
  2 ≤ d < 59 → ∃ p, (p = 2 ∨ p ∈ SMALL_ODD_PRIMES) ∧ (p | d).
Proof.
  intros Hd.
  assert (forallb (λ d, existsb (λ p, d mod p =? 0) (2 :: SMALL_ODD_PRIMES)) (seqZ 2 57) = true)
    as Hall by (vm_compute; done).
  rewrite forallb_forall in Hall.
  specialize (Hall d). rewrite existsb_exists in Hall.
  destruct Hall as (p & Hp & Hdp).
  { apply list_elem_of_In, elem_of_seqZ. lia. }
  exists p. split.
  - apply list_elem_of_In in Hp. set_solver.
  - apply Z.eqb_eq in Hdp. apply Z.mod_divide; [|done].
    intros ->. apply list_elem_of_In in Hp. unfold SMALL_ODD_PRIMES in Hp. set_solver.
Qed.

Lemma SMALL_ODD_PRIMES_prime p : p ∈ SMALL_ODD_PRIMES → Z.prime p.
Proof.
  intros Hp. apply prime_of_no_small_divisor.
  - unfold SMALL_ODD_PRIMES in Hp. set_solver by lia.
  - intros d Hd Hdd [q Hq].
    assert (Hpb : p ≤ 53) by (unfold SMALL_ODD_PRIMES in Hp; set_solver by lia).
    assert (d = 2 ∨ d = 3 ∨ d = 4 ∨ d = 5 ∨ d = 6 ∨ d = 7) as Hcases by nia.
    unfold SMALL_ODD_PRIMES in Hp. set_unfold in Hp. lia.
Qed.

#[export] Instance prime_decision n : Decision (Z.prime n).
Proof.
  destruct (prime_dec n) as [H|H]; [left|right]; by rewrite prime_alt.
Defined.

Section is_prime.
Context {E : Type} (n : Z) (Hn : fits 64 n).

(** The loop invariant: [i] is odd and nothing below it divides [n]. *)
Definition trial_inv (i : Z) : Prop :=
  59 ≤ i ∧ i mod 2 = 1 ∧ i < 2 ^ 33 ∧ ∀ d, 2 ≤ d < i → ¬ (d | n).

Lemma trial_inv_step i :
  n mod 2 ≠ 0 → i ≤ 2 ^ 32 → n mod i ≠ 0 → trial_inv i → trial_inv (i + 2).
Proof using Type.
  intros Hodd Hi Hni (H59 & Hi2 & Hlt & Hd). split_and!; [lia| |lia|].
  - rewrite Zplus_mod, Hi2. done.
  - intros d Hdr Hdn. destruct (decide (d < i)); [apply (Hd d); [lia|done]|].
    destruct (decide (d = i)) as [->|].
    + by apply Hni, Z.mod0_divide.
    + assert (d = i + 1) as -> by lia. apply Hodd, Z.mod0_divide.
      apply Z.divide_trans with (i + 1); [|done].
      exists (i / 2 + 1). pose proof (Z.div_mod i 2 ltac:(lia)). lia.
Qed.

Lemma trial_division_correct limit :
  2 ≤ n → n mod 2 ≠ 0 → 0 ≤ limit → limit * limit ≤ n < (limit + 1) * (limit + 1) →
  trial_inv 59 → (∀ d, 2 ≤ d < 59 → ¬ (d | n)) →
  while_loop 33 (trial_division (E:=E) n limit) 59 = Ok (bool_decide (Z.prime n)).
Proof using Hn.
  intros H2 Hodd Hl Hlim Hinv Hsmall.
  assert (limit < 2 ^ 32) by (unfold fits in Hn; nia).
  apply (while_loop_total 33 (trial_division (E:=E) n limit)
           (λ i, trial_inv i ∧ i ≤ 2 ^ 32 + 60) (λ i, 2 ^ 32 + 60 - i)
           (λ o, o = Ok (bool_decide (Z.prime n)))); [|split; [done|lia]|lia|lia].
  intros i [Hi Hib]. unfold trial_division. pose proof Hi as (H59 & _ & _ & Hd).
  case_if; [case_if|].
  - rewrite bool_decide_eq_false_2; [done|].
    apply (not_prime_of_divisor n i); [nia|apply divide_of_mod; [lia|done]].
  - rewrite checked_add_Ok by lia. simpl.
    split; [split; [apply trial_inv_step|]|]; auto with lia.
  - rewrite bool_decide_eq_true_2; [done|].
    apply prime_of_no_small_divisor; [done|].
    intros d Hd2 Hdd. apply Hd. nia.
Qed.
End is_prime.

Lemma find_small_prime n p :
  List.find (λ p, n mod p =? 0) SMALL_ODD_PRIMES = Some p →
  p ∈ SMALL_ODD_PRIMES ∧ 2 < p ∧ (p | n).
Proof.
  intros [Hp Hnp]%find_some. apply list_elem_of_In in Hp.
  assert (2 < p) by (unfold SMALL_ODD_PRIMES in Hp; set_solver by lia).
  split_and!; [done|lia|]. apply divide_of_mod; [lia|by apply Z.eqb_eq].
Qed.

Lemma find_small_prime_none n :
  n mod 2 ≠ 0 → List.find (λ p, n mod p =? 0) SMALL_ODD_PRIMES = None →
  ∀ d, 2 ≤ d < 59 → ¬ (d | n).
Proof.
  intros Hodd Hnone d Hd Hdn.
  destruct (small_divisor d Hd) as (p & [->|Hp] & Hpd).
  - apply Hodd, Z.mod0_divide. by apply Z.divide_trans with d.
  - assert (p ≠ 0) by (unfold SMALL_ODD_PRIMES in Hp; set_solver by lia).
    apply list_elem_of_In in Hp. pose proof (find_none _ _ Hnone p Hp) as Hz.
    apply Z.eqb_neq in Hz. apply Hz, Z.mod0_divide. by apply Z.divide_trans with d.
Qed.

(** [is_prime] with every case discharged; the property below and the key
    lemmas use this form. *)
Lemma is_prime_spec {E} n :
  fits 64 n → is_prime n =@{outcome E bool} Ok (bool_decide (Z.prime n)).
Proof.
  intros Hn. unfold is_prime. case_if.
  { rewrite bool_decide_eq_false_2; [done|]. intros Hp%Z.prime_ge_2. lia. }
  case_if.
  { destruct (decide (n = 2)) as [->|]; [by rewrite bool_decide_eq_true_2 by apply Z.prime_2|].
    rewrite bool_decide_eq_false_2; [by rewrite (proj2 (Z.eqb_neq _ _))|].
    apply (not_prime_of_divisor n 2); [lia|by apply divide_of_mod]. }
  destruct (List.find _ _) as [p|] eqn:Hf.
  { apply find_small_prime in Hf as (Hp & Hp2 & Hpn). pose proof (SMALL_ODD_PRIMES_prime p Hp).
    destruct (decide (n = p)) as [->|]; [by rewrite bool_decide_eq_true_2, Z.eqb_refl|].
    rewrite bool_decide_eq_false_2; [by rewrite (proj2 (Z.eqb_neq _ _))|].
    apply (not_prime_of_divisor n p); [|done].
    apply Z.divide_pos_le in Hpn; lia. }
  destruct (isqrt_u64_correct (E:=E) n Hn) as (limit & -> & Hl & Hlim). simpl.
  pose proof (find_small_prime_none n ltac:(done) Hf) as Hsmall.
  apply trial_division_correct; done || lia.
Qed.

(** C14: [is_prime] decides primality. For every [u64] the two square-root
    correction loops and the trial-division loop terminate without overflow,
    division by zero or out-of-fuel, and the answer is exactly whether the
    number is prime. *)
Theorem is_prime_correct n :
  fits 64 n → is_prime n =@{outcome error bool} Ok (bool_decide (Z.prime n)).
Proof. apply is_prime_spec. Qed.

Lemma is_prime_correct_witness :
  fits 64 1000003 ∧ is_prime 1000003 =@{outcome error bool} Ok (bool_decide (Z.prime 1000003)).
Proof. split; [split; [lia|reflexivity]|apply is_prime_correct; split; [lia|reflexivity]]. Defined.
