(* ===== verification/Keys.v ===== *)
(** * Key material ([lib.rs], [key.rs])

    Validation of prime tuples, the two key policies (v8 and the relaxed v7
    decryption policy), key generation and the validated [NapqesKey]. *)
From stdpp Require Import base tactics list option numbers sets sorting.
From Stdlib Require Import ZArith Lia Strings.Byte Zdivisibility.
From S2P Require Import Prelude Machine Errors Post Primes.

#[local] Open Scope Z_scope.
#[local] Open Scope napqes_scope.

Definition NONCE_SIZE : nat := 16.
Definition TAG_SIZE : nat := 32.
Definition SK_SIZE : nat := 32.
Definition MIN_KEY_PRIME : Z := 1000000.
Definition MAX_KEY_PRIME : Z := 14999999.
Definition MAX_SAFE_KEY_PRIME : Z := (2 ^ 64 - 1) / (0x10FFFF + 1).
Definition DEFAULT_KEY_COUNT : Z := 13.
Definition MAX_KEY_ELEMENTS : Z := 128.
Definition MAX_SERIALISABLE_KEY_PRIME : Z := 2 ^ 40 - 1.
Definition KEYGEN_DRAWS_PER_PRIME : Z := 4096.

(** ** Validation *)

(** The three comparisons of the first loop over the key. *)
Definition check_key_element (i k : Z) : outcome error unit :=
  if k <? MIN_KEY_PRIME then Err (BelowMinimum i k)
  else if MAX_KEY_PRIME <? k then Err (AboveMaximum i k)
  else if MAX_SERIALISABLE_KEY_PRIME <? k then Err (NotSerialisable i k)
  else Ok tt.

Definition check_key_prime (i k : Z) : outcome error unit :=
  b ← is_prime k;
  if (b : bool) then Ok tt else Err (NotPrime i k).

(** [for i in 0..len { for j in (i + 1)..len { if key[i] == key[j] ... } } }]:
    the tail of the list holds the elements [key[i + 1..]]. *)
Fixpoint check_key_distinct (i : Z) (key : list Z) : outcome error unit :=
  match key with
  | [] => Ok tt
  | k :: key' =>
      _ ← for_each (λ j k', if k =? k' then Err (DuplicateElement j i) else Ok tt) (i + 1) key';
      check_key_distinct (i + 1) key'
  end.

Definition validate_key (key : list Z) : outcome error unit :=
  if bool_decide (key = []) then Err EmptyKey
  else if MAX_KEY_ELEMENTS <? Z.of_nat (length key)
  then Err (TooManyElements (Z.of_nat (length key)))
  else
    _ ← for_each check_key_element 0 key;
    _ ← for_each check_key_prime 0 key;
    check_key_distinct 0 key.

(** The relaxed policy of the v7 decryptors: no primality, no interval. *)
Definition validate_key_v7_decrypt (key : list Z) : outcome error unit :=
  if bool_decide (key = []) then Err EmptyKey
  else if MAX_KEY_ELEMENTS <? Z.of_nat (length key)
  then Err (TooManyElements (Z.of_nat (length key)))
  else
    for_each (λ i k,
      if negb ((2 <=? k) && (k <=? MAX_SERIALISABLE_KEY_PRIME)) then Err (OutsideV7Range i k)
      else if bool_decide (k ∈ take (Z.to_nat i) key) then Err (DuplicatesEarlier i)
      else Ok tt) 0 key.

(** ** Generation *)

(** [sorted.binary_search(&num)] on a sorted slice: [None] when the value is
    present, otherwise the position that keeps the slice sorted. *)
Definition binary_search (num : Z) (sorted : list Z) : option nat :=
  if bool_decide (num ∈ sorted) then None
  else Some (length (filter (λ x, x < num) sorted)).

(** [v.insert(pos, x)]. *)
Definition vec_insert (pos : nat) (x : Z) (v : list Z) : list Z :=
  take pos v ++ x :: drop pos v.

(** The state of the drawing loop; [draws] is the sequence of values that
    [dist.sample(&mut rng)] returns. *)
Record keygen_state := KeygenState {
  kg_primes : list Z; kg_sorted : list Z; kg_attempts : Z
}.

Definition keygen_step (count : Z) (max_attempts : Z) (draws : Z → Z) (s : keygen_state)
    : keygen_state + outcome error keygen_state :=
  if (Z.of_nat (length (kg_primes s)) <? count) && (kg_attempts s <? max_attempts) then
    let num := draws (kg_attempts s) in
    continue_with (
      s' ← match binary_search num (kg_sorted s) with
      | None => Ok s
      | Some pos =>
          b ← is_prime num;
          Ok (if (b : bool)
              then KeygenState (kg_primes s ++ [num]) (vec_insert pos num (kg_sorted s)) (kg_attempts s)
              else s)
      end;
      attempts ← kg_attempts s' +64 1;
      Ok (KeygenState (kg_primes s') (kg_sorted s') attempts))
  else inr (Ok s).

(** [a.saturating_mul(b)] on [u64]. *)
Definition saturating_mul (a b : Z) : Z := Z.min (a * b) (2 ^ 64 - 1).

Definition keygen_budget (count : Z) : Z :=
  saturating_mul (Z.max count 1) KEYGEN_DRAWS_PER_PRIME.

Definition generate_prime_numbers `{Gate} (draws : Z → Z) (count min_val max_val : Z)
    : outcome error (list Z) :=
  _ ← gated;
  if (count =? 0) || (MAX_KEY_ELEMENTS <? count) then Err (KeygenBadCount count)
  else if max_val <=? min_val then Err (KeygenEmptyRange min_val max_val)
  else
    let max_attempts := keygen_budget count in
    s ← while_loop 20 (keygen_step count max_attempts draws) (KeygenState [] [] 0);
    if Z.of_nat (length (kg_primes s)) <? count
    then Err (KeygenExhausted count min_val max_val max_attempts)
    else Ok (kg_primes s).

(** [generate_v8_key]: the second component is the 32-byte CSPRNG draw. *)
Definition generate_v8_key `{Gate} (draws : Z → Z) (fill : list byte) (count min_val max_val : Z)
    : outcome error (list Z * list byte) :=
  _ ← gated;
  if negb ((MIN_KEY_PRIME <=? min_val) && (max_val <=? MAX_KEY_PRIME))
  then Err (KeygenOutsideInterval min_val max_val)
  else
    primes ← generate_prime_numbers draws count min_val max_val;
    Ok (primes, fill).

(** ** [NapqesKey] *)

Record NapqesKey := MkNapqesKey { primes : list Z; sk : list byte }.

Definition NapqesKey_new (ps : list Z) (s : list byte) : outcome error NapqesKey :=
  _ ← validate_key ps;
  Ok (MkNapqesKey ps s).

Definition NapqesKey_generate `{Gate} (draws : Z → Z) (fill : list byte) : outcome error NapqesKey :=
  p ← generate_v8_key draws fill DEFAULT_KEY_COUNT MIN_KEY_PRIME MAX_KEY_PRIME;
  NapqesKey_new p.1 p.2.

Definition NapqesKey_k (key : NapqesKey) : nat := length (primes key).

(** ** What a valid key is *)

Definition valid_key (key : list Z) : Prop :=
  key ≠ [] ∧ Z.of_nat (length key) ≤ MAX_KEY_ELEMENTS ∧
  Forall (λ k, MIN_KEY_PRIME ≤ k ≤ MAX_KEY_PRIME ∧ Z.prime k) key ∧ NoDup key.

Definition valid_key_v7 (key : list Z) : Prop :=
  key ≠ [] ∧ Z.of_nat (length key) ≤ MAX_KEY_ELEMENTS ∧
  Forall (λ k, 2 ≤ k ≤ MAX_SERIALISABLE_KEY_PRIME) key ∧ NoDup key.

(** The defect an error of [validate_key] reports. *)
Inductive key_defect (key : list Z) : error → Prop :=
| defect_empty : key = [] → key_defect key EmptyKey
| defect_many : MAX_KEY_ELEMENTS < Z.of_nat (length key) →
    key_defect key (TooManyElements (Z.of_nat (length key)))
| defect_below (i : nat) k : key !! i = Some k → k < MIN_KEY_PRIME →
    key_defect key (BelowMinimum (Z.of_nat i) k)
| defect_above (i : nat) k : key !! i = Some k → MAX_KEY_PRIME < k →
    key_defect key (AboveMaximum (Z.of_nat i) k)
| defect_prime (i : nat) k : key !! i = Some k → ¬ Z.prime k →
    key_defect key (NotPrime (Z.of_nat i) k)
| defect_duplicate (i j : nat) k : key !! i = Some k → key !! j = Some k → (i < j)%nat →
    key_defect key (DuplicateElement (Z.of_nat j) (Z.of_nat i)).

Lemma key_defect_invalid key e : key_defect key e → ¬ valid_key key.
Proof.
  intros Hd (Hne & Hlen & Hall & Hnd). destruct Hd as [| |i k Hi|i k Hi|i k Hi|i j k Hi Hj];
    try (rewrite Forall_lookup in Hall; specialize (Hall i k Hi)); try tauto; try lia.
  pose proof (NoDup_lookup key i j k Hnd Hi Hj). lia.
Qed.

(** An indexed loop returns the error of the first element it refuses. *)
Lemma for_each_cases {A} (f : Z → A → outcome error unit) (i : Z) (l : list A) :
  (∀ j x, x ∈ l → no_panic (f j x)) →
  for_each f i l = Ok tt ∨
  ∃ (j : nat) x e, l !! j = Some x ∧ f (i + Z.of_nat j) x = Err e ∧ for_each f i l = Err e.
Proof.
  revert i. induction l as [|y l IH]; intros i Hnp; [by left|]. simpl.
  destruct (f i y) as [[]|e|p] eqn:Hy.
  - destruct (IH (i + 1)) as [H|(j & x & e & Hj & He & H)].
    + intros; apply Hnp; by right.
    + by left.
    + right. exists (S j), x, e. split_and!; [done| |done].
      by replace (i + Z.of_nat (S j)) with (i + 1 + Z.of_nat j) by lia.
  - right. exists 0%nat, y, e. simpl. by rewrite Z.add_0_r.
  - specialize (Hnp i y ltac:(left)). by rewrite Hy in Hnp.
Qed.

Section validate.
Context (key : list Z) (Hkey : Forall (fits 64) key).

Lemma check_key_element_cases i k :
  match check_key_element i k with
  | Ok _ => MIN_KEY_PRIME ≤ k ≤ MAX_KEY_PRIME
  | Err e => (e = BelowMinimum i k ∧ k < MIN_KEY_PRIME) ∨
             (e = AboveMaximum i k ∧ MAX_KEY_PRIME < k)
  | Panic _ => False
  end.
Proof using Type.
  unfold check_key_element, MAX_KEY_PRIME, MIN_KEY_PRIME, MAX_SERIALISABLE_KEY_PRIME.
  repeat case_if; naive_solver lia.
Qed.

Lemma check_key_prime_cases i k :
  fits 64 k →
  match check_key_prime i k with
  | Ok _ => Z.prime k
  | Err e => e = NotPrime i k ∧ ¬ Z.prime k
  | Panic _ => False
  end.
Proof using Type.
  intros Hk. unfold check_key_prime. rewrite is_prime_spec by done. simpl. by case_bool_decide.
Qed.

Lemma check_key_distinct_cases i l :
  check_key_distinct i l = Ok tt ∧ NoDup l ∨
  ∃ (a b : nat) k, l !! a = Some k ∧ l !! b = Some k ∧ (a < b)%nat ∧
    check_key_distinct i l = Err (DuplicateElement (i + Z.of_nat b) (i + Z.of_nat a)).
Proof using Type.
  revert i. induction l as [|k l IH]; intros i; [left; split; [done|constructor]|].
  simpl. set (f := λ (j k' : Z), _).
  destruct (for_each_cases f (i + 1) l) as [H|(j & x & e & Hj & He & H)].
  { intros. unfold f. by case_if. }
  - rewrite H. simpl. destruct (IH (i + 1)) as [[Hd Hnd]|(a & b & k' & Ha & Hb & Hab & Hd)].
    + left. split; [done|]. constructor; [|done]. intros [j Hj]%list_elem_of_lookup.
      apply for_each_Ok with (j := j) (x := k) in H; [|done].
      unfold f in H. by rewrite Z.eqb_refl in H.
    + right. exists (S a), (S b), k'. split_and!; [done|done|lia|].
      rewrite Hd. cbn [mbind outcome_bind]. do 2 f_equal; lia.
  - right. unfold f in He. case_if_in He; [|done]. simplify_eq.
    exists 0%nat, (S j), x. split_and!; [done|done|lia|]. rewrite H. cbn [mbind outcome_bind]. do 2 f_equal; lia.
Qed.

Lemma validate_key_cases :
  match validate_key key with
  | Ok _ => valid_key key
  | Err e => key_defect key e
  | Panic _ => False
  end.
Proof using Hkey.
  unfold validate_key. case_if; [by constructor|]. case_if; [by constructor|].
  rewrite Forall_forall in Hkey.
  destruct (for_each_cases check_key_element 0 key) as [H1|(j & x & e & Hj & He & ->)].
  { intros j x Hx. pose proof (check_key_element_cases j x). by destruct check_key_element. }
  2: { pose proof (check_key_element_cases (0 + Z.of_nat j) x) as Hc. rewrite He in Hc.
       destruct Hc as [[-> ?]|[-> ?]]; simpl; by econstructor. }
  rewrite H1. simpl.
  destruct (for_each_cases check_key_prime 0 key) as [H2|(j & x & e & Hj & He & ->)].
  { intros j x Hx. pose proof (check_key_prime_cases j x (Hkey x Hx)).
    by destruct check_key_prime. }
  2: { pose proof (check_key_prime_cases (0 + Z.of_nat j) x) as Hc. rewrite He in Hc.
       destruct Hc as [-> ?]; [apply Hkey, list_elem_of_lookup; eauto|]. simpl. by econstructor. }
  rewrite H2. simpl.
  destruct (check_key_distinct_cases 0 key) as [[-> Hnd]|(a & b & k & Ha & Hb & Hab & ->)].
  2: { rewrite !Z.add_0_l. by econstructor. }
  split_and!; [done|lia| |done]. apply Forall_lookup. intros j k Hj. split.
  - pose proof (check_key_element_cases (0 + Z.of_nat j) k) as Hc.
    by rewrite (proj1 (for_each_Ok _ _ _) H1 j k Hj) in Hc.
  - pose proof (check_key_prime_cases (0 + Z.of_nat j) k) as Hc.
    rewrite (proj1 (for_each_Ok _ _ _) H2 j k Hj) in Hc.
    apply Hc, Hkey, list_elem_of_lookup; eauto.
Qed.
End validate.

Lemma valid_key_fits key : valid_key key → Forall (fits 64) key.
Proof.
  intros (_ & _ & Hall & _). eapply Forall_impl; [exact Hall|].
  unfold fits, MIN_KEY_PRIME, MAX_KEY_PRIME. intros k [? _]. lia.
Qed.

Lemma validate_key_valid key : valid_key key → validate_key key = Ok tt.
Proof.
  intros Hv. pose proof (validate_key_cases key (valid_key_fits key Hv)) as Hc.
  destruct (validate_key key) as [[]|e|p]; [done| |done].
  by destruct (key_defect_invalid key e).
Qed.

(** C13: [validate_key] accepts exactly the non-empty tuples of at most 128
    distinct primes of the normative interval, never panics on any tuple of
    [u64]s, and an error names an element that really has the stated defect. *)
Theorem validate_key_correct key :
  Forall (fits 64) key →
  match validate_key key with
  | Ok _ => valid_key key
  | Err e => key_defect key e ∧ ¬ valid_key key
  | Panic _ => False
  end.
Proof.
  intros Hkey. pose proof (validate_key_cases key Hkey) as Hc.
  destruct (validate_key key); [done| |done]. eauto using key_defect_invalid.
Qed.

Lemma validate_key_correct_witness :
  Forall (fits 64) [1000003; 1000033] ∧
  match validate_key [1000003; 1000033] with
  | Ok _ => valid_key [1000003; 1000033]
  | Err e => key_defect [1000003; 1000033] e ∧ ¬ valid_key [1000003; 1000033]
  | Panic _ => False
  end.
Proof.
  assert (Forall (fits 64) [1000003; 1000033]) as H by (repeat constructor; lia).
  split; [exact H|exact (validate_key_correct _ H)].
Defined.

(** ** The v7 decryption policy *)

Lemma NoDup_take_snoc (key : list Z) :
  (∀ (j : nat) k, key !! j = Some k → k ∉ take j key) → NoDup key.
Proof.
  intros H. apply NoDup_alt. intros i j k Hi Hj.
  destruct (decide (i = j)) as [|Hne]; [done|]. exfalso.
  destruct (decide (i < j)%nat).
  - apply (H j k Hj). apply list_elem_of_lookup. exists i. by rewrite lookup_take_lt by done.
  - apply (H i k Hi). apply list_elem_of_lookup. exists j. rewrite lookup_take_lt by lia. done.
Qed.

Lemma validate_key_v7_cases key :
  no_panic (validate_key_v7_decrypt key) ∧
  (validate_key_v7_decrypt key = Ok tt ↔ valid_key_v7 key) ∧
  (valid_key key → valid_key_v7 key).
Proof.
  unfold validate_key_v7_decrypt, valid_key_v7. split_and!.
  - repeat case_if; try done. apply no_panic_for_each. intros j k _. by repeat case_if.
  - case_if; [by naive_solver|]. case_if; [naive_solver lia|].
    rewrite for_each_Ok. split.
    + intros H. split_and!; [done|done| |].
      * apply Forall_lookup. intros j k Hj. specialize (H j k Hj).
        case_if_in H; [done|]. lia.
      * apply NoDup_take_snoc. intros j k Hj. specialize (H j k Hj).
        rewrite Z.add_0_l, Nat2Z.id in H. case_if_in H; [done|]. by case_if_in H.
    + intros (_ & _ & Hall & Hnd) j k Hj. rewrite Z.add_0_l, Nat2Z.id.
      rewrite Forall_lookup in Hall. specialize (Hall j k Hj).
      case_if; [lia|]. case_bool_decide as Hin; [|done]. exfalso.
      apply list_elem_of_lookup in Hin as [a Ha]. apply lookup_take_Some in Ha as [Ha ?].
      pose proof (NoDup_lookup key a j k Hnd Ha Hj). lia.
  - intros (Hne & Hlen & Hall & Hnd). split_and!; [done|done| |done].
    eapply Forall_impl; [exact Hall|]. unfold MIN_KEY_PRIME, MAX_KEY_PRIME, MAX_SERIALISABLE_KEY_PRIME.
    intros k [? _]. lia.
Qed.

(** The v7 decryptors accept exactly the non-empty tuples of at most 128
    distinct elements of [2, 2^40 - 1]: every key the v8 policy accepts, and
    archived keys that are composite or outside the interval; any other key is
    refused with an error, never a panic. *)
Theorem validate_key_v7_decrypt_correct key :
  no_panic (validate_key_v7_decrypt key) ∧
  (validate_key_v7_decrypt key = Ok tt ↔ valid_key_v7 key) ∧
  (valid_key key → valid_key_v7 key).
Proof. apply validate_key_v7_cases. Qed.

(** ** Key generation *)

(** The reference: keep each drawn prime not seen before, in drawing order. *)
Definition accept_prime (acc : list Z) (n : Z) : list Z :=
  if bool_decide (Z.prime n ∧ n ∉ acc) then acc ++ [n] else acc.
Definition distinct_primes (l : list Z) : list Z := foldl accept_prime [] l.

Lemma distinct_primes_snoc l n :
  distinct_primes (l ++ [n]) = accept_prime (distinct_primes l) n.
Proof. unfold distinct_primes. by rewrite foldl_app. Qed.

Lemma distinct_primes_spec l :
  NoDup (distinct_primes l) ∧ Forall (λ k, k ∈ l ∧ Z.prime k) (distinct_primes l).
Proof.
  induction l as [|n l [IH1 IH2]] using rev_ind; [split; constructor|].
  rewrite distinct_primes_snoc. unfold accept_prime.
  assert (Forall (λ k, k ∈ l ++ [n] ∧ Z.prime k) (distinct_primes l)) as IH3.
  { eapply Forall_impl; [exact IH2|]. set_solver. }
  case_bool_decide as H; [|done]. destruct H as [Hp Hn]. split.
  - apply NoDup_app. split_and!; [done| |apply NoDup_singleton]. set_solver.
  - apply Forall_app. split; [done|]. apply Forall_singleton. split; [set_solver|done].
Qed.

Lemma vec_insert_perm pos x v : vec_insert pos x v ≡ₚ x :: v.
Proof.
  unfold vec_insert. rewrite <-Permutation_middle. by rewrite take_drop.
Qed.

(** Inserting where [binary_search] says keeps the index sorted, which is the
    precondition of the next [binary_search]. *)
Lemma vec_insert_sorted x v :
  StronglySorted Z.lt v → x ∉ v →
  StronglySorted Z.lt (vec_insert (length (filter (λ y, y < x) v)) x v).
Proof.
  induction v as [|y v IH]; intros Hs Hx.
  - repeat constructor.
  - apply StronglySorted_inv in Hs as [Hs Hy]. rewrite filter_cons.
    assert (x ≠ y) by set_solver. case_decide as Hyx.
    + simpl. unfold vec_insert in *. simpl. constructor; [apply IH; set_solver|].
      rewrite Forall_forall in Hy |- *. intros z Hz.
      assert (z = x ∨ z ∈ v) as [->|Hv]; [|lia|by apply Hy].
      change (z ∈ vec_insert (length (filter (λ y, y < x) v)) x v) in Hz.
      rewrite vec_insert_perm in Hz. set_solver.
    + replace (filter (λ y, y < x) v) with (@nil Z).
      * unfold vec_insert. simpl. constructor; [by constructor|].
        rewrite Forall_forall in Hy. constructor; [lia|]. apply Forall_forall.
        intros z Hz. specialize (Hy z Hz). lia.
      * symmetry. apply filter_none. eapply Forall_impl; [exact Hy|]. simpl. lia.
Qed.

Section keygen.
Context (draws : Z → Z) (count min_val max_val : Z).
Hypothesis Hdraws : ∀ i, min_val ≤ draws i ≤ max_val.
Hypothesis Hmin : 0 ≤ min_val.
Hypothesis Hmax : max_val < 2 ^ 64.

Definition drawn (a : Z) : list Z := draws <$> seqZ 0 a.

Definition keygen_inv (max_attempts : Z) (s : keygen_state) : Prop :=
  0 ≤ kg_attempts s ≤ max_attempts ∧ Z.of_nat (length (kg_primes s)) ≤ count ∧
  kg_primes s = distinct_primes (drawn (kg_attempts s)) ∧
  kg_sorted s ≡ₚ kg_primes s ∧ StronglySorted Z.lt (kg_sorted s).

Lemma keygen_step_ok max_attempts s :
  max_attempts < 2 ^ 64 → keygen_inv max_attempts s →
  match keygen_step count max_attempts draws s with
  | inl s' => keygen_inv max_attempts s' ∧
              max_attempts - kg_attempts s' < max_attempts - kg_attempts s
  | inr r => r = Ok s ∧
      (Z.of_nat (length (kg_primes s)) = count ∨ kg_attempts s = max_attempts)
  end.
Proof using Hdraws Hmin Hmax.
  intros Hbound (Ha & Hc & Hp & Hperm & Hsort). unfold keygen_step.
  destruct (_ && _) eqn:Hgo; reflect_bools.
  2: { split; [done|]. destruct Hgo; reflect_bools; lia. }
  assert (Hdrawn : drawn (kg_attempts s + 1) = drawn (kg_attempts s) ++ [draws (kg_attempts s)]).
  { unfold drawn. rewrite seqZ_app by lia. rewrite fmap_app. simpl. f_equal. }
  set (num := draws (kg_attempts s)) in *.
  assert (Hnum : fits 64 num) by (specialize (Hdraws (kg_attempts s)); unfold fits; subst num; lia).
  unfold binary_search. case_bool_decide as Hin.
  - rewrite Hperm in Hin. simpl. rewrite checked_add_Ok by lia. simpl.
    split; [split_and!; simpl; auto with lia|lia].
    rewrite Hdrawn, distinct_primes_snoc, <-Hp. unfold accept_prime.
    by rewrite bool_decide_eq_false_2 by tauto.
  - rewrite is_prime_spec by done. simpl.
    assert (Hnin : num ∉ kg_primes s) by (by rewrite <-Hperm).
    case_bool_decide as Hprime; simpl; rewrite checked_add_Ok by lia; simpl.
    + split; [split_and!; simpl|lia]; auto with lia.
      * rewrite length_app. simpl. lia.
      * rewrite Hdrawn, distinct_primes_snoc, <-Hp. unfold accept_prime.
        by rewrite bool_decide_eq_true_2.
      * rewrite vec_insert_perm, Hperm. by rewrite Permutation_app_comm.
      * by apply vec_insert_sorted.
    + split; [split_and!; simpl|lia]; auto with lia.
      rewrite Hdrawn, distinct_primes_snoc, <-Hp. unfold accept_prime.
      by rewrite bool_decide_eq_false_2 by tauto.
Qed.
End keygen.

Lemma keygen_budget_bounds count :
  1 ≤ count ≤ MAX_KEY_ELEMENTS → keygen_budget count = count * 4096.
Proof.
  unfold keygen_budget, saturating_mul, MAX_KEY_ELEMENTS, KEYGEN_DRAWS_PER_PRIME. lia.
Qed.

(** What the drawing loop and the checks around it give for any sub-range of
    [u64] and any behaviour of the sampler. *)
Lemma generate_prime_numbers_cases `{Gate} draws count min_val max_val :
  gate_open → 0 ≤ count → 0 ≤ min_val → max_val < 2 ^ 64 →
  (∀ i, min_val ≤ draws i ≤ max_val) →
  match generate_prime_numbers draws count min_val max_val with
  | Ok ps => ∃ a, 0 ≤ a ≤ keygen_budget count ∧ ps = distinct_primes (drawn draws a) ∧
      Z.of_nat (length ps) = count ∧ 1 ≤ count ≤ MAX_KEY_ELEMENTS
  | Err e =>
      e = KeygenBadCount count ∧ ¬ (1 ≤ count ≤ MAX_KEY_ELEMENTS) ∨
      e = KeygenEmptyRange min_val max_val ∧ max_val ≤ min_val ∨
      e = KeygenExhausted count min_val max_val (keygen_budget count) ∧
        Z.of_nat (length (distinct_primes (drawn draws (keygen_budget count)))) < count
  | Panic _ => False
  end.
Proof.
  intros Hg Hc Hmin Hmax Hdraws. unfold generate_prime_numbers. rewrite Hg. simpl.
  destruct (_ || _) eqn:Hcount; reflect_bools; [left; split; [done|lia]|].
  case_if; [naive_solver|].
  assert (Hb : keygen_budget count = count * 4096) by (apply keygen_budget_bounds; lia).
  unfold MAX_KEY_ELEMENTS in *.
  set (o := while_loop _ _ _).
  assert (∃ s, o = Ok s ∧ keygen_inv draws count (keygen_budget count) s ∧
    (Z.of_nat (length (kg_primes s)) = count ∨ kg_attempts s = keygen_budget count))
    as (s & -> & (Ha & Hlen & Hp & _) & Hend).
  { apply (while_loop_total 20 _ (keygen_inv draws count (keygen_budget count))
             (λ s, keygen_budget count - kg_attempts s)
             (λ o, ∃ s, o = Ok s ∧ keygen_inv draws count (keygen_budget count) s ∧
               (Z.of_nat (length (kg_primes s)) = count ∨ kg_attempts s = keygen_budget count))).
    - intros s Hs.
      pose proof (keygen_step_ok draws count min_val max_val Hdraws Hmin Hmax
                    (keygen_budget count) s ltac:(lia) Hs) as Hstep.
      destruct (keygen_step _ _ _ _); [done|]. destruct Hstep as [-> ?]. eauto.
    - split_and!; simpl; try lia; [done|done|constructor].
    - intros s' (? & _). lia.
    - simpl. lia. }
  simpl. case_if.
  - right. right. split; [done|]. destruct Hend as [?|Hend]; [lia|]. by rewrite <-Hend, <-Hp.
  - exists (kg_attempts s). split_and!; [lia|lia|done|lia|lia|lia].
Qed.

(** Key generation returns the first [count] distinct primes of the drawn
    sequence, in drawing order, all inside the requested range; it refuses a bad
    count, an empty range, and a sequence whose whole draw budget holds fewer
    than [count] distinct primes; it always terminates and never panics. *)
Theorem generate_prime_numbers_correct `{Gate} draws count min_val max_val :
  gate_open → 0 ≤ count → 0 ≤ min_val → max_val < 2 ^ 64 →
  (∀ i, min_val ≤ draws i ≤ max_val) →
  match generate_prime_numbers draws count min_val max_val with
  | Ok ps => Z.of_nat (length ps) = count ∧ NoDup ps ∧
      Forall (λ k, min_val ≤ k ≤ max_val ∧ Z.prime k) ps ∧
      ∃ a, 0 ≤ a ≤ keygen_budget count ∧ ps = distinct_primes (drawn draws a)
  | Err e =>
      e = KeygenBadCount count ∧ ¬ (1 ≤ count ≤ MAX_KEY_ELEMENTS) ∨
      e = KeygenEmptyRange min_val max_val ∧ max_val ≤ min_val ∨
      e = KeygenExhausted count min_val max_val (keygen_budget count) ∧
        Z.of_nat (length (distinct_primes (drawn draws (keygen_budget count)))) < count
  | Panic _ => False
  end.
Proof.
  intros Hg Hc Hmin Hmax Hdraws.
  pose proof (generate_prime_numbers_cases draws count min_val max_val Hg Hc Hmin Hmax Hdraws) as Hx.
  destruct (generate_prime_numbers _ _ _ _) as [ps|e|p]; [|done..].
  destruct Hx as (a & Ha & -> & Hlen & _).
  destruct (distinct_primes_spec (drawn draws a)) as [Hnd Hall].
  split_and!; [done|done| |by exists a].
  eapply Forall_impl; [exact Hall|]. intros k [Hk Hp]. split; [|done].
  apply list_elem_of_fmap in Hk as (i & -> & _). apply Hdraws.
Qed.

Lemma generate_prime_numbers_correct_witness :
  let _ := default_build in
  let draws := λ i, 10 + i mod 10 in
  gate_open ∧ 0 ≤ 4 ∧ 0 ≤ 10 ∧ 19 < 2 ^ 64 ∧ (∀ i, 10 ≤ draws i ≤ 19) ∧
  generate_prime_numbers draws 4 10 19 = Ok [11; 13; 17; 19] ∧
  match generate_prime_numbers draws 4 10 19 with
  | Ok ps => Z.of_nat (length ps) = 4 ∧ NoDup ps ∧
      Forall (λ k, 10 ≤ k ≤ 19 ∧ Z.prime k) ps ∧
      ∃ a, 0 ≤ a ≤ keygen_budget 4 ∧ ps = distinct_primes (drawn draws a)
  | Err e =>
      e = KeygenBadCount 4 ∧ ¬ (1 ≤ 4 ≤ MAX_KEY_ELEMENTS) ∨
      e = KeygenEmptyRange 10 19 ∧ 19 ≤ 10 ∨
      e = KeygenExhausted 4 10 19 (keygen_budget 4) ∧
        Z.of_nat (length (distinct_primes (drawn draws (keygen_budget 4)))) < 4
  | Panic _ => False
  end.
Proof.
  intros G draws.
  assert (H : ∀ i, 10 ≤ draws i ≤ 19).
  { intros i. subst draws. simpl. pose proof (Z.mod_pos_bound i 10). lia. }
  split_and!; [done|lia|lia|lia|exact H|vm_compute; reflexivity|].
  apply (generate_prime_numbers_correct draws 4 10 19); [done|lia|lia|lia|exact H].
Defined.

(** [NapqesKey::generate] draws from the normative interval, so the key it
    builds always passes validation: it returns 13 distinct normative primes
    with the drawn [sk], or reports an exhausted draw budget; no other error,
    in particular no validation error, and no panic can occur. *)
Theorem NapqesKey_generate_valid `{Gate} draws fill :
  gate_open → (∀ i, MIN_KEY_PRIME ≤ draws i ≤ MAX_KEY_PRIME) →
  match NapqesKey_generate draws fill with
  | Ok key => valid_key (primes key) ∧ NapqesKey_k key = 13%nat ∧ sk key = fill
  | Err e => e = KeygenExhausted 13 MIN_KEY_PRIME MAX_KEY_PRIME (13 * 4096) ∧
      (length (distinct_primes (drawn draws (13 * 4096))) < 13)%nat
  | Panic _ => False
  end.
Proof.
  intros Hg Hdraws. unfold NapqesKey_generate, generate_v8_key. rewrite Hg.
  cbn [mbind outcome_bind]. rewrite !Z.leb_refl. cbn [andb negb].
  unfold DEFAULT_KEY_COUNT.
  pose proof (generate_prime_numbers_cases draws 13 MIN_KEY_PRIME MAX_KEY_PRIME Hg) as Hx.
  specialize (Hx ltac:(lia) ltac:(unfold MIN_KEY_PRIME; lia) ltac:(unfold MAX_KEY_PRIME; lia) Hdraws).
  rewrite keygen_budget_bounds in Hx by (unfold MAX_KEY_ELEMENTS; lia).
  destruct (generate_prime_numbers _ _ _ _) as [ps|e|p]; [| |destruct Hx].
  - destruct Hx as (a & _ & -> & Hlen & _). cbn [mbind outcome_bind fst snd].
    destruct (distinct_primes_spec (drawn draws a)) as [Hnd Hall].
    assert (valid_key (distinct_primes (drawn draws a))) as Hv.
    { split_and!; [by intros Hnil; rewrite Hnil in Hlen|unfold MAX_KEY_ELEMENTS; lia| |done].
      eapply Forall_impl; [exact Hall|]. intros k [Hk Hp]. split; [|done].
      apply list_elem_of_fmap in Hk as (i & -> & _). apply Hdraws. }
    unfold NapqesKey_new. rewrite validate_key_valid by done. simpl.
    unfold NapqesKey_k. simpl. split_and!; [done|lia|done].
  - destruct Hx as [[_ Hx]|[[_ Hx]|[-> Hx]]];
      [unfold MAX_KEY_ELEMENTS in Hx; lia|unfold MIN_KEY_PRIME, MAX_KEY_PRIME in Hx; lia|].
    cbn [mbind outcome_bind]. split; [reflexivity|]. apply Nat2Z.inj_lt. exact Hx.
Qed.

Definition counting_draws (i : Z) : Z := Z.min MAX_KEY_PRIME (1000003 + Z.max 0 i).

Lemma counting_draws_range i : MIN_KEY_PRIME ≤ counting_draws i ≤ MAX_KEY_PRIME.
Proof. unfold counting_draws, MIN_KEY_PRIME, MAX_KEY_PRIME. lia. Qed.

Lemma NapqesKey_generate_valid_witness :
  @gate_open default_build ∧
  is_ok (@NapqesKey_generate default_build counting_draws []) = true ∧
  match @NapqesKey_generate default_build counting_draws [] with
  | Ok key => valid_key (primes key) ∧ NapqesKey_k key = 13%nat ∧ sk key = []
  | Err e => e = KeygenExhausted 13 MIN_KEY_PRIME MAX_KEY_PRIME (13 * 4096) ∧
      (length (distinct_primes (drawn counting_draws (13 * 4096))) < 13)%nat
  | Panic _ => False
  end.
Proof.
  split; [reflexivity|split; [vm_compute; reflexivity|]].
  exact (@NapqesKey_generate_valid default_build counting_draws [] eq_refl counting_draws_range).
Defined.
