(* ===== verification/Derive.v ===== *)
(** * Keyed derivations ([lib.rs], "HMAC helpers")

    Every pseudo-random value of the cipher is [HMAC(key, d || nonce || ctx)]
    for a one-byte domain [d]. This file holds those derivations, with the
    bounds the token arithmetic relies on and the injectivity of the HMAC
    inputs. *)
From stdpp Require Import base tactics list option numbers.
From Stdlib Require Import ZArith Lia Strings.Byte Floats.SpecFloat.
From S2P Require Import Prelude Machine Errors Crates Primes Keys.

#[local] Open Scope Z_scope.
#[local] Open Scope napqes_scope.

(** ** Constants *)

Definition AAD_LEN_WIDTH_V8 : nat := 8.
Definition AAD_LEN_WIDTH_V7 : nat := 4.
Definition NOISE_ALPHABET : Z := 96.
Definition PAD_ALPHABET : Z := 95.
Definition ASCII_PRINTABLE_BASE : Z := 32.

(** [((75u128 << 64) / 100) as u64] and [((99u128 << 64) / 100) as u64]. *)
Definition THETA_MIN : Z := (Z.shiftl 75 64 / 100) mod 2 ^ 64.
Definition THETA_MAX : Z := (Z.shiftl 99 64 / 100) mod 2 ^ 64.

(** ** Serialisation helpers *)

(** [b[3..8]] of [n.to_be_bytes()]: the low five bytes. *)
Definition be5 (n : Z) : list byte := slice 3 8 (to_be_bytes 8 n).

Definition key_bytes (key : list Z) : list byte :=
  concat ((λ k, slice 3 8 (to_be_bytes 8 k)) <$> key).

Definition u64_from_be8 (b : list byte) : Z := from_be_bytes (take 8 b).
Definition u32_from_be4 (b : list byte) : Z := from_be_bytes (take 4 b).

(** The assertion is compiled for narrow prefixes only. *)
Definition be_len_prefix (n : Z) (width : nat) : outcome error (list byte) :=
  _ ← (if bool_decide (width < 8)%nat
       then assert_that (n <? Z.shiftl 1 (8 * Z.of_nat width)) else Ok tt);
  if bool_decide (8 < width)%nat then Panic PanicOverflow
  else Ok (drop (8 - width) (to_be_bytes 8 n)).

Definition check_v7_aad_len (aad_len : Z) : outcome error unit :=
  if 2 ^ 32 - 1 <? aad_len then Err (V7AadTooLong aad_len) else Ok tt.

(** ** Derivations *)

(** The buffer every derivation builds: domain byte, nonce, context. *)
Definition hmac_input (d : byte) (nonce ctx : list byte) : list byte := d :: nonce ++ ctx.

Section derive.
Context `{Crypto}.

Definition hmac_digest (kb data : list byte) : list byte := hmac_sha256 kb data.

(** Two given inputs collide: they differ and have the same digest under the key. *)
Definition collides (kb x x' : list byte) : Prop := x ≠ x' ∧ hmac_digest kb x = hmac_digest kb x'.

(** One of the given inputs [xs] collides with one of the given inputs [xs']. *)
Definition coincide (kb : list byte) (xs xs' : list (list byte)) : Prop :=
  ∃ x x', x ∈ xs ∧ x' ∈ xs' ∧ collides kb x x'.

Definition derive_addend (kb nonce : list byte) (real_idx key_element : Z) : outcome error Z :=
  let d := hmac_digest kb (hmac_input x01 nonce (be5 real_idx)) in
  m ← key_element -! 1;
  r ← u32_from_be4 d %! m;
  r +64 1.

Definition derive_noise_char (kb nonce : list byte) (ct_pos : Z) : Z :=
  let d := hmac_digest kb (hmac_input x04 nonce (be5 ct_pos)) in
  u32_from_be4 d mod NOISE_ALPHABET + ASCII_PRINTABLE_BASE.

Definition derive_noise_token_addend (kb nonce : list byte) (ct_pos key_element : Z)
    : outcome error Z :=
  let d := hmac_digest kb (hmac_input x05 nonce (be5 ct_pos)) in
  m ← key_element -! 1;
  r ← u32_from_be4 d %! m;
  r +64 1.

(** The integer noise threshold of v8 and its test. *)
Definition derive_noise_threshold_v8 (kb nonce : list byte) : outcome error Z :=
  let d := hmac_digest kb (hmac_input x02 nonce []) in
  let tau := u64_from_be8 (take 8 d) in
  THETA_MIN +64 (Z.shiftr (tau * (THETA_MAX - THETA_MIN)) 64 mod 2 ^ 64).

Definition is_noise_pos_v8 (kb nonce : list byte) (ct_pos theta : Z) : bool :=
  let d := hmac_digest kb (hmac_input x00 nonce (be5 ct_pos)) in
  u64_from_be8 (take 8 d) <? theta.

(** The IEEE-754 forms of v7, on the executable binary64 of the Standard
    Library: [0.75], [0.99] and [2^64] are the nearest doubles. *)
Definition TWO_POW_64 : spec_float := binary_normalize 53 1024 1 64 false.
Definition THETA_MIN_F64 : spec_float := binary_normalize 53 1024 3 (-2) false.
Definition THETA_MAX_F64 : spec_float := binary_normalize 53 1024 8917127262193582 (-53) false.

Definition is_noise_pos (kb nonce : list byte) (ct_pos : Z) (noise_p : spec_float) : bool :=
  let d := hmac_digest kb (hmac_input x00 nonce (be5 ct_pos)) in
  let v := SFdiv 53 1024 (f64_of_u64 (u64_from_be8 (take 8 d))) TWO_POW_64 in
  SFltb v noise_p.

Definition derive_noise_p (kb nonce : list byte) : spec_float :=
  let d := hmac_digest kb (hmac_input x02 nonce []) in
  let t := SFdiv 53 1024 (f64_of_u64 (u64_from_be8 (take 8 d))) TWO_POW_64 in
  SFadd 53 1024 THETA_MIN_F64
    (SFmul 53 1024 t (SFsub 53 1024 THETA_MAX_F64 THETA_MIN_F64)).

(** [payload.split_at(NONCE_SIZE)] panics on a shorter payload. *)
Definition compute_auth_tag (kb aad payload : list byte) (aad_len_width : nat)
    : outcome error (list byte) :=
  nonce ← index_range 0 NONCE_SIZE payload;
  masked_blob ← index_range NONCE_SIZE (length payload) payload;
  prefix ← be_len_prefix (Z.of_nat (length aad)) aad_len_width;
  Ok (hmac_digest kb (hmac_input x03 nonce (prefix ++ aad ++ masked_blob))).

Definition FORMAT_BLOCK_V8 : byte := x01.
Definition FORMAT_STREAM_AE_V8 : byte := x02.

Definition derive_format_subkey (sk : list byte) (format_id : byte) : list byte :=
  hmac_digest sk [x0b; format_id].

Definition synthetic_nonce (sk_fmt aad message : list byte) : outcome error (list byte) :=
  prefix ← be_len_prefix (Z.of_nat (length aad)) AAD_LEN_WIDTH_V8;
  Ok (take NONCE_SIZE (hmac_digest sk_fmt (x0a :: prefix ++ aad ++ message))).
End derive.

(** ** Serialisation lemmas *)

Lemma length_be5 n : length (be5 n) = 5%nat.
Proof. unfold be5. by rewrite length_slice by (rewrite ?length_to_be_bytes; lia). Qed.

Lemma be5_low n : be5 n = to_be_bytes 5 n.
Proof.
  unfold be5, slice. change 8%nat with (3 + 5)%nat at 2.
  assert (Hs : ∀ a b z, ∃ l, length l = a ∧ to_be_bytes (a + b) z = l ++ to_be_bytes b z).
  { intros a b. induction b as [|b IH]; intros z.
    - exists (to_be_bytes a z). rewrite Nat.add_0_r. simpl. by rewrite length_to_be_bytes, app_nil_r.
    - destruct (IH (z / 256)) as (l & Hl & Hz). exists l. split; [done|].
      rewrite Nat.add_succ_r. simpl. by rewrite Hz, app_assoc. }
  destruct (Hs 3%nat 5%nat n) as (l & Hl & ->).
  rewrite drop_app_length' by done. apply firstn_all2. rewrite length_to_be_bytes. simpl. lia.
Qed.

Lemma be5_inj a b : 0 ≤ a < 2 ^ 40 → 0 ≤ b < 2 ^ 40 → be5 a = be5 b → a = b.
Proof. rewrite !be5_low. intros ??. by apply to_be_bytes_inj. Qed.

Lemma u64_from_be8_range b : fits 64 (u64_from_be8 b).
Proof.
  unfold u64_from_be8, fits. pose proof (from_be_bytes_range (take 8 b)) as H.
  rewrite length_take in H. split; [lia|]. eapply Z.lt_le_trans; [apply H|].
  change (2 ^ 64) with (256 ^ 8). apply Z.pow_le_mono_r; lia.
Qed.

Lemma u32_from_be4_range b : fits 32 (u32_from_be4 b).
Proof.
  unfold u32_from_be4, fits. pose proof (from_be_bytes_range (take 4 b)) as H.
  rewrite length_take in H. split; [lia|]. eapply Z.lt_le_trans; [apply H|].
  change (2 ^ 32) with (256 ^ 4). apply Z.pow_le_mono_r; lia.
Qed.

Lemma be_len_prefix_v8 n : be_len_prefix n AAD_LEN_WIDTH_V8 = Ok (to_be_bytes 8 n).
Proof. done. Qed.

Lemma be_len_prefix_v7 n :
  0 ≤ n < 2 ^ 32 → be_len_prefix n AAD_LEN_WIDTH_V7 = Ok (to_be_bytes 4 n).
Proof.
  intros Hn. unfold be_len_prefix, AAD_LEN_WIDTH_V7.
  rewrite (bool_decide_eq_true_2 (4 < 8)%nat) by lia. unfold assert_that.
  change (Z.shiftl 1 (8 * Z.of_nat 4)) with (2 ^ 32).
  rewrite (proj2 (Z.ltb_lt _ _)) by lia. cbn [mbind outcome_bind].
  by rewrite bool_decide_eq_false_2 by lia.
Qed.

(** Reading the low five bytes back one element at a time. *)
Lemma key_bytes_cons k key : key_bytes (k :: key) = be5 k ++ key_bytes key.
Proof. done. Qed.

(** The v7 HMAC key determines the prime tuple: archived tuples never share
    their derived values by a serialisation accident. *)
Lemma key_bytes_inj key1 key2 :
  Forall (fits 40) key1 → Forall (fits 40) key2 → key_bytes key1 = key_bytes key2 → key1 = key2.
Proof.
  intros H1. revert key2. induction H1 as [|k1 key1 Hk1 _ IH]; intros key2 H2.
  - destruct H2 as [|k2 key2]; [done|]. rewrite key_bytes_cons. intros Heq.
    apply (f_equal length) in Heq. rewrite length_app, length_be5 in Heq. done.
  - destruct H2 as [|k2 key2 Hk2 H2]; rewrite !key_bytes_cons; intros Heq.
    + apply (f_equal length) in Heq. rewrite length_app, length_be5 in Heq. done.
    + apply app_inj_1 in Heq as [Hk Heq]; [|by rewrite !length_be5].
      f_equal; [by apply be5_inj|by apply IH].
Qed.

Lemma hmac_input_inj d1 d2 n1 n2 c1 c2 :
  length n1 = length n2 → hmac_input d1 n1 c1 = hmac_input d2 n2 c2 →
  d1 = d2 ∧ n1 = n2 ∧ c1 = c2.
Proof. unfold hmac_input. intros Hl [= -> H]. by apply app_inj_1 in H as [-> ->]. Qed.

(** ** Bounds of the derived values *)

Section bounds.
Context `{Crypto}.

Lemma length_hmac_digest kb data : length (hmac_digest kb data) = 32%nat.
Proof. apply length_hmac_sha256. Qed.

Lemma cons_eq {A} (x y : A) l l' : x :: l = y :: l' → x = y ∧ l = l'.
Proof. by intros [= -> ->]. Qed.

(** Equal digests come from equal inputs, or these inputs collide. *)
Lemma equal_digests kb x x' : hmac_digest kb x = hmac_digest kb x' → x = x' ∨ collides kb x x'.
Proof. intros Heq. by destruct (decide (x = x')) as [|Hne]; [left|right]. Qed.

Lemma collides_sym kb x x' : collides kb x x' → collides kb x' x.
Proof. intros [Hne Heq]. by split. Qed.

Lemma coincide_sym kb xs xs' : coincide kb xs xs' → coincide kb xs' xs.
Proof. intros (x & x' & Hx & Hx' & Hc). exists x', x. split_and!; [done..|by apply collides_sym]. Qed.

Lemma addend_cases v k :
  fits 32 v → 2 ≤ k →
  (m ← k -! 1; r ← v %! m; r +64 1) =@{outcome error Z} Ok (v mod (k - 1) + 1) ∧
  1 ≤ v mod (k - 1) + 1 ≤ k - 1 ∧ v mod (k - 1) + 1 ≤ 2 ^ 32.
Proof.
  intros [Hv0 Hv] Hk. rewrite checked_sub_Ok by lia. cbn [mbind outcome_bind].
  rewrite checked_rem_Ok by lia. cbn [mbind outcome_bind].
  pose proof (Z.mod_pos_bound v (k - 1) ltac:(lia)).
  pose proof (Z.mod_le v (k - 1) ltac:(lia) ltac:(lia)).
  rewrite checked_add_Ok by lia. split_and!; try done; lia.
Qed.

Lemma derive_addend_cases kb nonce i k :
  2 ≤ k → ∃ a, derive_addend kb nonce i k = Ok a ∧ 1 ≤ a ≤ k - 1 ∧ a ≤ 2 ^ 32.
Proof.
  intros Hk. destruct (addend_cases _ k (u32_from_be4_range
    (hmac_digest kb (hmac_input x01 nonce (be5 i)))) Hk) as [Ha Hb]. eauto.
Qed.

Lemma derive_noise_token_addend_cases kb nonce pos k :
  2 ≤ k → ∃ a, derive_noise_token_addend kb nonce pos k = Ok a ∧ 1 ≤ a ≤ k - 1 ∧ a ≤ 2 ^ 32.
Proof.
  intros Hk. destruct (addend_cases _ k (u32_from_be4_range
    (hmac_digest kb (hmac_input x05 nonce (be5 pos)))) Hk) as [Ha Hb]. eauto.
Qed.

Lemma derive_noise_char_range kb nonce pos : 32 ≤ derive_noise_char kb nonce pos ≤ 127.
Proof.
  unfold derive_noise_char, NOISE_ALPHABET, ASCII_PRINTABLE_BASE.
  pose proof (Z.mod_pos_bound (u32_from_be4
    (hmac_digest kb (hmac_input x04 nonce (be5 pos)))) 96). lia.
Qed.

Lemma theta_cases kb nonce :
  ∃ theta, derive_noise_threshold_v8 kb nonce = Ok theta ∧
    THETA_MIN ≤ theta < THETA_MAX ∧
    theta = THETA_MIN + u64_from_be8 (hmac_digest kb (hmac_input x02 nonce [])) * (THETA_MAX - THETA_MIN) / 2 ^ 64.
Proof.
  unfold derive_noise_threshold_v8. set (d := hmac_digest _ _).
  assert (u64_from_be8 (take 8 d) = u64_from_be8 d) as ->.
  { unfold u64_from_be8. by rewrite take_take, Nat.min_id. }
  destruct (u64_from_be8_range d) as [Ht0 Ht]. set (tau := u64_from_be8 d) in *.
  rewrite Z.shiftr_div_pow2 by lia.
  assert (0 ≤ tau * (THETA_MAX - THETA_MIN) / 2 ^ 64 < THETA_MAX - THETA_MIN) as Hr.
  { unfold THETA_MAX, THETA_MIN. split; [apply Z.div_pos; [|lia]|apply Z.div_lt_upper_bound; [lia|]].
    - apply Z.mul_nonneg_nonneg; [lia|]. vm_compute. discriminate.
    - rewrite (Z.mul_comm (2 ^ 64)), (Z.mul_comm tau). apply Z.mul_lt_mono_pos_l; [|lia].
      vm_compute. reflexivity. }
  assert (THETA_MAX < 2 ^ 64 ∧ 0 ≤ THETA_MIN) as [??].
  { split; [vm_compute; reflexivity|vm_compute; discriminate]. }
  rewrite Z.mod_small by lia.
  rewrite checked_add_Ok by lia. eexists. split; [done|]. split; [lia|done].
Qed.

Lemma compute_auth_tag_eq kb aad nonce blob width prefix :
  length nonce = NONCE_SIZE → be_len_prefix (Z.of_nat (length aad)) width = Ok prefix →
  compute_auth_tag kb aad (nonce ++ blob) width
  = Ok (hmac_digest kb (hmac_input x03 nonce (prefix ++ aad ++ blob))).
Proof.
  intros Hn Hp. unfold compute_auth_tag.
  rewrite index_range_Ok by (rewrite ?length_app; lia). cbn [mbind outcome_bind].
  rewrite index_range_Ok by (rewrite ?length_app; lia). cbn [mbind outcome_bind].
  rewrite Hp. cbn [mbind outcome_bind]. do 3 f_equal.
  - unfold slice. by rewrite Nat.sub_0_r, drop_0, take_app_length' by done.
  - unfold slice. rewrite drop_app_length' by done. rewrite firstn_all2; [done|].
    rewrite length_app. lia.
Qed.

Lemma derive_format_subkey_length sk f : length (derive_format_subkey sk f) = 32%nat.
Proof. apply length_hmac_digest. Qed.

Lemma synthetic_nonce_cases sk aad msg :
  ∃ n, synthetic_nonce sk aad msg = Ok n ∧ length n = NONCE_SIZE.
Proof.
  unfold synthetic_nonce. rewrite be_len_prefix_v8. cbn [mbind outcome_bind].
  eexists. split; [done|]. by rewrite length_take, length_hmac_digest.
Qed.
End bounds.

#[export] Hint Resolve derive_format_subkey_length length_hmac_digest : napqes.

(** ** Properties *)

(** C36: the v8 noise threshold is the exact integer
    [theta_min + floor(tau * (theta_max - theta_min) / 2^64)] of the
    specification and lies in [[THETA_MIN, THETA_MAX)] for every key and nonce:
    the derivation neither overflows nor depends on rounding. *)
Theorem derive_noise_threshold_v8_correct `{Crypto} kb nonce :
  ∃ theta, derive_noise_threshold_v8 kb nonce = Ok theta ∧
    THETA_MIN ≤ theta < THETA_MAX ∧
    theta = THETA_MIN +
      u64_from_be8 (hmac_digest kb (hmac_input x02 nonce [])) * (THETA_MAX - THETA_MIN) / 2 ^ 64.
Proof. apply theta_cases. Qed.

(** The authentication tag binds nonce, associated data and masked blob
    unambiguously: with the 8-byte length prefix the tag of every payload that
    carries a nonce is HMAC over an encoding from which all three can be read
    back, and the encoding shares no input with the other domains. *)
Theorem compute_auth_tag_injective `{Crypto} :
  ∃ encode : list byte → list byte → list byte → list byte,
    (∀ kb aad nonce blob, length nonce = NONCE_SIZE →
      compute_auth_tag kb aad (nonce ++ blob) AAD_LEN_WIDTH_V8
      = Ok (hmac_digest kb (encode nonce aad blob))) ∧
    (∀ n1 n2 a1 a2 b1 b2,
      length n1 = NONCE_SIZE → length n2 = NONCE_SIZE →
      fits 64 (Z.of_nat (length a1)) → fits 64 (Z.of_nat (length a2)) →
      encode n1 a1 b1 = encode n2 a2 b2 → n1 = n2 ∧ a1 = a2 ∧ b1 = b2) ∧
    (∀ n a b d nonce ctx, d ≠ x03 → encode n a b ≠ hmac_input d nonce ctx).
Proof.
  exists (λ nonce aad blob,
    hmac_input x03 nonce (to_be_bytes 8 (Z.of_nat (length aad)) ++ aad ++ blob)).
  split_and!.
  - intros kb aad nonce blob Hn. by apply compute_auth_tag_eq.
  - intros n1 n2 a1 a2 b1 b2 Hn1 Hn2 Ha1 Ha2 Heq.
    apply hmac_input_inj in Heq as (_ & -> & Heq); [|congruence].
    apply app_inj_1 in Heq as [Hl Heq]; [|by rewrite !length_to_be_bytes].
    apply to_be_bytes_inj in Hl; [|exact Ha1|exact Ha2].
    apply app_inj_1 in Heq as [-> ->]; [done|lia].
  - intros n a b d nonce ctx Hd [= Hx]. by destruct Hd.
Qed.
