(* ===== verification/Padding.v ===== *)
(** * Padding and keystream ([lib.rs], "Padding")

    Padding profiles, the length-prefixed padded block, its inverse, and the
    HMAC-CTR keystream that masks the serialised tokens. *)
From stdpp Require Import base tactics list option numbers.
From Stdlib Require Import ZArith Lia Strings.Byte Zdivisibility.
From S2P Require Import Prelude Machine Errors Crates Primes Keys Derive.

#[local] Open Scope Z_scope.
#[local] Open Scope napqes_scope.

Definition PAD_MIN_EXP : Z := 4.
Definition PAD_MAX_EXP : Z := 16.
Definition MAX_PLAINTEXT_CODEPOINTS : Z := 0xFFFF.

Inductive PadProfile :=
| Bucket
| Coarse (g : Z)
| Frame (f : Z).

(** [1usize << e]: a shift by the width or more panics. *)
Definition checked_shl (w a e : Z) : outcome error Z :=
  if e <? w then Ok (Z.shiftl a e mod 2 ^ w) else Panic PanicOverflow.

(** [usize::BITS - n.leading_zeros()]. *)
Definition bit_length (n : Z) : Z := if n =? 0 then 0 else Z.log2 n + 1.

(** [z.is_power_of_two()] and [z.trailing_zeros()] of a [w]-bit integer. *)
Definition is_power_of_two (z : Z) : bool := (0 <? z) && (2 ^ Z.log2 z =? z).
Fixpoint trailing_zeros (w : nat) (z : Z) : Z :=
  match w with
  | O => 0
  | S w' => if Z.odd z then 0 else 1 + trailing_zeros w' (z / 2)
  end.

Definition bucket_block_size (n : Z) : outcome error Z :=
  checked_shl 64 1 (Z.max (bit_length n) PAD_MIN_EXP).

Definition block_size (profile : PadProfile) (n : Z) : outcome error Z :=
  if Z.shiftl 1 PAD_MAX_EXP <=? n then Err (ExceedsMaximumBucket n)
  else
    let e := Z.max (bit_length n) PAD_MIN_EXP in
    match profile with
    | Bucket => bucket_block_size n
    | Coarse g =>
        let span := PAD_MAX_EXP - PAD_MIN_EXP in
        if (g =? 0) || negb (span mod g =? 0) then Err (BadCoarseStride g)
        else
          over ← e -! PAD_MIN_EXP;
          sum ← checked_add 32 over g;
          sum1 ← sum -! 1;
          steps ← sum1 /! g;
          rise ← checked_mul 32 g steps;
          e' ← checked_add 32 PAD_MIN_EXP rise;
          checked_shl 64 1 e'
    | Frame f =>
        if negb (is_power_of_two f) || (trailing_zeros 32 f <? PAD_MIN_EXP)
           || (PAD_MAX_EXP <? trailing_zeros 32 f)
        then Err (BadFrameSize f)
        else if f <=? n then Err (FrameTooSmall f n)
        else Ok f
    end.

Section padding.
Context `{Crypto}.

(** One padding codepoint; [i as u32] is what [to_be_bytes 4] keeps. *)
Definition pad_codepoint (kb nonce : list byte) (i : Z) : Z :=
  let d := hmac_digest kb (hmac_input x06 nonce (to_be_bytes 4 i)) in
  u32_from_be4 d mod PAD_ALPHABET + ASCII_PRINTABLE_BASE.

Definition pad_to_block (msg : list Z) (kb nonce : list byte) (block_size : Z)
    : outcome error (list Z) :=
  let n := Z.of_nat (length msg) in
  _ ← assert_that (n <? block_size);
  pad_len ← block_size -! n;
  Ok (Z.land (Z.shiftr n 8) 0xFF :: Z.land n 0xFF :: msg
      ++ (pad_codepoint kb nonce <$> seqZ 0 pad_len)).

Definition pad_message (msg : list Z) (kb nonce : list byte) : outcome error (list Z) :=
  let n := Z.of_nat (length msg) in
  _ ← assert_that (n <=? MAX_PLAINTEXT_CODEPOINTS);
  b ← bucket_block_size n;
  pad_to_block msg kb nonce b.

Definition keystream_block (kb nonce : list byte) (block : Z) : list byte :=
  hmac_digest kb (hmac_input x07 nonce (to_be_bytes 4 block)).

(** [while out.len() < length { ...; block += 1 }] over [(out, block)]. *)
Definition keystream_step (kb nonce : list byte) (len : nat) (s : list byte * Z)
    : (list byte * Z) + outcome error (list byte * Z) :=
  let '(out, block) := s in
  if bool_decide (length out < len)%nat then
    continue_with (block' ← checked_add 32 block 1;
                   Ok (out ++ keystream_block kb nonce block, block'))
  else inr (Ok s).

Definition varint_keystream (kb nonce : list byte) (len : nat) : outcome error (list byte) :=
  s ← while_loop 33 (keystream_step kb nonce len) ([], 0);
  Ok (take len s.1).
End padding.

(** Out-of-range indices cannot occur after the length guard, so the prefix is
    read by pattern matching. *)
Definition unpad_message (padded : list Z) : outcome error (list Z) :=
  match padded with
  | hi :: lo :: rest =>
      if (0xFF <? hi) || (0xFF <? lo) then Err (PrefixNotByteValued hi lo)
      else
        let n := Z.lor (Z.shiftl hi 8) lo in
        if Z.of_nat (length padded) <? 2 + n
        then Err (PrefixExceedsData n (Z.of_nat (length padded) - 2))
        else Ok (take (Z.to_nat n) rest)
  | _ => Err PaddedTooShort
  end.

(** ** Exponents *)

Lemma checked_shl_Ok e : 0 ≤ e < 64 → checked_shl 64 1 e = Ok (2 ^ e).
Proof.
  intros He. unfold checked_shl. rewrite (proj2 (Z.ltb_lt _ _)) by lia.
  rewrite Z.shiftl_mul_pow2, Z.mul_1_l by lia. rewrite Z.mod_small; [done|].
  split; [lia|]. apply Z.pow_lt_mono_r; lia.
Qed.

Lemma bit_length_spec n : 0 ≤ n → 0 ≤ bit_length n ∧ n < 2 ^ bit_length n ∧
  (0 < n → 2 ^ (bit_length n - 1) ≤ n).
Proof.
  intros Hn. unfold bit_length. case_if; [subst; simpl; lia|].
  pose proof (Z.log2_spec n ltac:(lia)) as [H1 H2]. pose proof (Z.log2_nonneg n).
  split_and!; [lia|by rewrite Z.add_1_r|intros _]. by rewrite Z.add_simpl_r.
Qed.

Lemma bit_length_le n e : 0 ≤ n → 0 ≤ e → n < 2 ^ e → bit_length n ≤ e.
Proof.
  intros Hn He Hlt. pose proof (bit_length_spec n Hn) as (Hb & _ & Hl).
  destruct (decide (n = 0)) as [->|]; [done|]. specialize (Hl ltac:(lia)).
  assert (bit_length n - 1 < e); [|lia].
  apply (Z.pow_lt_mono_r_iff 2); lia.
Qed.

Lemma is_power_of_two_spec z : is_power_of_two z = true → z = 2 ^ Z.log2 z.
Proof. unfold is_power_of_two. intros. by reflect_bools. Qed.

Lemma is_power_of_two_pow e : 0 ≤ e → is_power_of_two (2 ^ e) = true.
Proof.
  intros He. unfold is_power_of_two. rewrite Z.log2_pow2 by done.
  apply andb_true_intro. split; [apply Z.ltb_lt; lia|apply Z.eqb_refl].
Qed.

Lemma power_of_two_exp f :
  f < 2 ^ 32 → negb (is_power_of_two f) = false → ∃ e, 0 ≤ e < 32 ∧ f = 2 ^ e.
Proof.
  intros Hf Hp%negb_false_iff. exists (Z.log2 f). split; [|by apply is_power_of_two_spec].
  unfold is_power_of_two in Hp. reflect_bools. pose proof (Z.log2_nonneg f).
  split; [done|]. apply Z.log2_lt_pow2; lia.
Qed.

Lemma trailing_zeros_pow w e : 0 ≤ e < Z.of_nat w → trailing_zeros w (2 ^ e) = e.
Proof.
  revert e. induction w as [|w IH]; intros e He; [lia|]. simpl.
  destruct (decide (e = 0)) as [->|]; [done|].
  rewrite <-Z.negb_even, Z.even_pow by lia. simpl.
  replace (2 ^ e / 2) with (2 ^ (e - 1)).
  - rewrite IH by lia. lia.
  - replace e with (Z.succ (e - 1)) at 2 by lia.
    rewrite Z.pow_succ_r, Z.mul_comm, Z.div_mul by lia. done.
Qed.

(** ** Padding profiles *)

(** The exponents a profile may use, and the profiles with a legal parameter. *)
Definition profile_exp (p : PadProfile) (e : Z) : Prop :=
  match p with Bucket => True | Coarse g => (g | e - 4) | Frame f => f = 2 ^ e end.

Definition profile_ok (p : PadProfile) : Prop :=
  match p with
  | Bucket => True
  | Coarse g => g ≠ 0 ∧ (g | 12)
  | Frame f => ∃ e, 4 ≤ e ≤ 16 ∧ f = 2 ^ e
  end.

Definition profile_fits (p : PadProfile) : Prop :=
  match p with Bucket => True | Coarse g => fits 32 g | Frame f => fits 32 f end.

(** [e] is the least admissible exponent above the length. *)
Definition least_exp (p : PadProfile) (n e : Z) : Prop :=
  4 ≤ e ≤ 16 ∧ profile_exp p e ∧ n < 2 ^ e ∧
  ∀ e', 4 ≤ e' ≤ 16 → profile_exp p e' → n < 2 ^ e' → e ≤ e'.

Lemma bucket_exp_spec n : 0 ≤ n < 2 ^ 16 →
  let e := Z.max (bit_length n) 4 in
  4 ≤ e ≤ 16 ∧ n < 2 ^ e ∧ ∀ e', 4 ≤ e' → n < 2 ^ e' → e ≤ e'.
Proof.
  intros Hn e. pose proof (bit_length_spec n ltac:(lia)) as (H0 & H1 & _).
  pose proof (bit_length_le n 16 ltac:(lia) ltac:(lia) ltac:(lia)).
  split_and!; [lia|lia| |].
  - eapply Z.lt_le_trans; [exact H1|]. apply Z.pow_le_mono_r; lia.
  - intros e' He' Hlt. pose proof (bit_length_le n e' ltac:(lia) ltac:(lia) Hlt). lia.
Qed.

Lemma coarse_exp_spec n g : 0 ≤ n < 2 ^ 16 → 0 < g → (g | 12) →
  let e := Z.max (bit_length n) 4 in
  least_exp (Coarse g) n (4 + g * ((e - 4 + g - 1) / g)).
Proof.
  intros Hn Hg [q Hq] e. destruct (bucket_exp_spec n Hn) as (He & Hlt & Hleast).
  fold e in He, Hlt, Hleast. set (s := (e - 4 + g - 1) / g).
  assert (e - 4 ≤ g * s) as Hs.
  { pose proof (Z.mul_succ_div_gt (e - 4 + g - 1) g Hg). fold s in H. lia. }
  assert (Hub : ∀ j, e - 4 ≤ g * j → s ≤ j).
  { intros j Hj. enough (s < j + 1) by lia. apply Z.div_lt_upper_bound; lia. }
  assert (0 ≤ s) by (apply Z.div_pos; lia).
  split_and!.
  - nia.
  - pose proof (Hub q ltac:(lia)). nia.
  - exists s. lia.
  - eapply Z.lt_le_trans; [exact Hlt|]. apply Z.pow_le_mono_r; lia.
  - intros e' He' [j Hj] Hlt'. simpl in Hj. pose proof (Hleast e' ltac:(lia) Hlt').
    pose proof (Hub j ltac:(lia)). nia.
Qed.

Lemma block_size_cases p n :
  fits 64 n → profile_fits p →
  match block_size p n with
  | Ok B => ∃ e, B = 2 ^ e ∧ least_exp p n e
  | Err _ => 2 ^ 16 ≤ n ∨ ¬ profile_ok p ∨ ∃ f, p = Frame f ∧ f ≤ n
  | Panic _ => False
  end.
Proof.
  intros [Hn0 Hn] Hp. unfold block_size, bucket_block_size, PAD_MAX_EXP, PAD_MIN_EXP.
  change (Z.shiftl 1 16) with (2 ^ 16). case_if; [by left|].
  destruct (bucket_exp_spec n ltac:(lia)) as (He & Hlt & Hleast).
  destruct p as [|g|f]; simpl in Hp.
  - rewrite checked_shl_Ok by lia. eexists. split; [done|]. split_and!; try done; try lia.
    intros e' ? _ ?. apply Hleast; [lia|done].
  - change (16 - 4) with 12. case_if_as Hbad.
    { right. left. intros [Hg [q Hq]]. destruct Hbad as [Hbad|Hbad]; reflect_bools; [done|].
      apply Hbad. by rewrite Hq, Z.mod_mul. }
    destruct Hp as [Hg0 Hg]. assert (g | 12) as Hd by (apply Z.mod_divide; lia).
    assert (g ≤ 12) by (apply Z.divide_pos_le; [lia|done]).
    pose proof (coarse_exp_spec n g ltac:(lia) ltac:(lia) Hd) as Hx. simpl in Hx.
    set (e := Z.max (bit_length n) 4) in *. set (s := (e - 4 + g - 1) / g) in *.
    pose proof Hx as ((Hx1 & Hx2) & _).
    rewrite checked_sub_Ok by lia. cbn [mbind outcome_bind].
    rewrite checked_add_Ok by lia. cbn [mbind outcome_bind].
    rewrite checked_sub_Ok by lia. cbn [mbind outcome_bind].
    rewrite checked_div_Ok by lia. cbn [mbind outcome_bind]. fold s.
    rewrite checked_mul_Ok by lia. cbn [mbind outcome_bind].
    rewrite checked_add_Ok by lia. cbn [mbind outcome_bind].
    rewrite checked_shl_Ok by lia. eauto.
  - destruct (negb (is_power_of_two f) || _ || _) eqn:Hbad.
    { right. left. intros (e & He' & ->). rewrite is_power_of_two_pow in Hbad by lia.
      rewrite trailing_zeros_pow in Hbad by (simpl; lia). simpl in Hbad.
      reflect_bools. destruct Hbad as [Hbad|Hbad]; reflect_bools; lia. }
    assert (∃ e, 0 ≤ e < 32 ∧ f = 2 ^ e) as (e & He32 & ->).
    { destruct Hp as [_ Hf32]. apply orb_false_iff in Hbad as [[Hbad _]%orb_false_iff _].
      by apply power_of_two_exp. }
    apply orb_false_iff in Hbad as [[_ Hlo]%orb_false_iff Hhi].
    rewrite trailing_zeros_pow in Hlo, Hhi by (simpl; lia).
    case_if; [right; right; by eauto|].
    eexists. split; [done|]. split_and!; [lia|lia|done|lia|].
    intros e' He' Hfe _. simpl in Hfe. apply (Z.pow_inj_r 2) in Hfe; lia.
Qed.

(** For every profile [block_size] returns the least admissible power of
    two above the message length, always one of the 13 sizes 2^4 to 2^16; it
    refuses exactly an over-long message, an ill-formed profile parameter, or a
    message that does not fit its frame, and no length or parameter makes the
    shift or the stride arithmetic overflow. *)
Theorem block_size_correct p n :
  fits 64 n → profile_fits p →
  match block_size p n with
  | Ok B => ∃ e, B = 2 ^ e ∧ least_exp p n e
  | Err _ => 2 ^ 16 ≤ n ∨ ¬ profile_ok p ∨ ∃ f, p = Frame f ∧ f ≤ n
  | Panic _ => False
  end.
Proof. apply block_size_cases. Qed.

Lemma block_size_correct_witness :
  block_size (Coarse 4) 17 = Ok (2 ^ 8) ∧
  match block_size (Coarse 4) 17 with
  | Ok B => ∃ e, B = 2 ^ e ∧ least_exp (Coarse 4) 17 e
  | Err _ => 2 ^ 16 ≤ 17 ∨ ¬ profile_ok (Coarse 4) ∨ ∃ f, Coarse 4 = Frame f ∧ f ≤ 17
  | Panic _ => False
  end.
Proof.
  split; [reflexivity|]. apply (block_size_correct (Coarse 4) 17); unfold fits; simpl; unfold fits; lia.
Defined.

(** ** Padded blocks *)

Lemma land_FF z : Z.land z 0xFF = z mod 256.
Proof. change 0xFF with (Z.ones 8). by rewrite Z.land_ones by lia. Qed.

Lemma lor_shiftl_8 hi lo : 0 ≤ lo < 256 → Z.lor (Z.shiftl hi 8) lo = hi * 256 + lo.
Proof.
  intros Hlo. rewrite Z.shiftl_mul_pow2 by lia. change (2 ^ 8) with 256.
  symmetry. rewrite Z.add_nocarry_lxor.
  - rewrite Z.lxor_lor; [done|]. rewrite <-(Z.mod_small lo 256), <-land_FF by done.
    apply Z.bits_inj'. intros i Hi. rewrite !Z.land_spec, Z.bits_0.
    destruct (decide (i < 8)).
    + change 256 with (2 ^ 8). rewrite Z.mul_pow2_bits_low by lia. done.
    + change 0xFF with (Z.ones 8). rewrite Z.ones_spec_high by lia. by rewrite !andb_false_r.
  - rewrite <-(Z.mod_small lo 256), <-land_FF by done.
    apply Z.bits_inj'. intros i Hi. rewrite !Z.land_spec, Z.bits_0.
    destruct (decide (i < 8)).
    + change 256 with (2 ^ 8). rewrite Z.mul_pow2_bits_low by lia. done.
    + change 0xFF with (Z.ones 8). rewrite Z.ones_spec_high by lia. by rewrite !andb_false_r.
Qed.

Section padded.
Context `{Crypto}.

(** The padded block of a message that fits it. *)
Definition padded_block (msg : list Z) (kb nonce : list byte) (B : Z) : list Z :=
  let n := Z.of_nat (length msg) in
  n / 256 mod 256 :: n mod 256 :: msg ++ (pad_codepoint kb nonce <$> seqZ 0 (B - n)).

Lemma pad_to_block_Ok msg kb nonce B :
  Z.of_nat (length msg) < B → pad_to_block msg kb nonce B = Ok (padded_block msg kb nonce B).
Proof.
  intros HB. unfold pad_to_block, padded_block, assert_that.
  rewrite (proj2 (Z.ltb_lt _ _)) by done. cbn [mbind outcome_bind].
  rewrite checked_sub_Ok by lia. cbn [mbind outcome_bind].
  rewrite !land_FF, Z.shiftr_div_pow2 by lia. done.
Qed.

Lemma pad_to_block_short msg kb nonce B :
  B ≤ Z.of_nat (length msg) → pad_to_block msg kb nonce B = Panic PanicAssert.
Proof.
  intros HB. unfold pad_to_block, assert_that. by rewrite (proj2 (Z.ltb_ge _ _)) by done.
Qed.

Lemma length_padded_block msg kb nonce B :
  Z.of_nat (length msg) ≤ B → Z.of_nat (length (padded_block msg kb nonce B)) = B + 2.
Proof.
  intros HB. unfold padded_block. cbn [length].
  rewrite length_app, length_fmap, length_seqZ. lia.
Qed.

Lemma pad_codepoint_range kb nonce i : 32 ≤ pad_codepoint kb nonce i ≤ 126.
Proof.
  unfold pad_codepoint, PAD_ALPHABET, ASCII_PRINTABLE_BASE.
  pose proof (Z.mod_pos_bound (u32_from_be4
    (hmac_digest kb (hmac_input x06 nonce (to_be_bytes 4 i)))) 95). lia.
Qed.

Lemma padded_block_scalar msg kb nonce B :
  str_ok msg → str_ok (padded_block msg kb nonce B).
Proof.
  intros Hmsg. unfold padded_block. set (n := Z.of_nat (length msg)).
  repeat apply Forall_cons_2; [| |apply Forall_app_2].
  - pose proof (Z.mod_pos_bound (n / 256) 256). apply is_scalar_byte. lia.
  - pose proof (Z.mod_pos_bound n 256). apply is_scalar_byte. lia.
  - exact Hmsg.
  - apply Forall_fmap, Forall_forall. intros i _. simpl.
    pose proof (pad_codepoint_range kb nonce i). apply is_scalar_byte. lia.
Qed.

Lemma unpad_prefix hi lo rest :
  0 ≤ hi < 256 → 0 ≤ lo < 256 →
  unpad_message (hi :: lo :: rest) =
    let n := hi * 256 + lo in
    if Z.of_nat (length rest) <? n then Err (PrefixExceedsData n (Z.of_nat (length rest)))
    else Ok (take (Z.to_nat n) rest).
Proof.
  intros Hhi Hlo. unfold unpad_message.
  rewrite (proj2 (Z.ltb_ge _ hi)), (proj2 (Z.ltb_ge _ lo)) by lia. cbn [orb].
  rewrite lor_shiftl_8 by done. cbn [length].
  replace (Z.of_nat (S (S (length rest)))) with (Z.of_nat (length rest) + 2) by lia.
  rewrite Z.add_simpl_r. simpl.
  destruct (Z.ltb_spec (Z.of_nat (length rest) + 2) (2 + (hi * 256 + lo)));
    destruct (Z.ltb_spec (Z.of_nat (length rest)) (hi * 256 + lo)); (done || lia).
Qed.

Lemma unpad_padded_block msg kb nonce B :
  Z.of_nat (length msg) < 2 ^ 16 →
  unpad_message (padded_block msg kb nonce B) = Ok msg.
Proof.
  intros Hn. unfold padded_block. set (n := Z.of_nat (length msg)) in *.
  assert (0 ≤ n / 256 < 256).
  { split; [apply Z.div_pos; lia|apply Z.div_lt_upper_bound; lia]. }
  rewrite (Z.mod_small (n / 256)) by done. pose proof (Z.mod_pos_bound n 256).
  rewrite unpad_prefix by lia.
  assert (n / 256 * 256 + n mod 256 = n) as -> by (rewrite (Z.div_mod n 256) at 3; lia).
  cbn zeta. rewrite length_app, (proj2 (Z.ltb_ge _ _)) by lia.
  by rewrite take_app_length' by lia.
Qed.

Lemma block_size_bound p n B :
  0 ≤ n → profile_fits p → block_size p n = Ok B → n < B ≤ 2 ^ 16 ∧ n < 2 ^ 16 ∧ 16 ≤ B.
Proof.
  intros Hn Hp HB. assert (n < 2 ^ 16) as Hn16.
  { destruct (decide (n < 2 ^ 16)); [done|]. unfold block_size, PAD_MAX_EXP in HB.
    change (Z.shiftl 1 16) with (2 ^ 16) in HB.
    by rewrite (proj2 (Z.leb_le _ _)) in HB by lia. }
  pose proof (block_size_cases p n ltac:(unfold fits; lia) Hp) as Hc. rewrite HB in Hc.
  destruct Hc as (e & -> & He & _ & Hlt & _).
  split_and!; [done| |done|change 16 with (2 ^ 4) at 1];
    apply Z.pow_le_mono_r; lia.
Qed.

Lemma pad_message_Ok msg kb nonce :
  Z.of_nat (length msg) ≤ MAX_PLAINTEXT_CODEPOINTS →
  ∃ B, block_size Bucket (Z.of_nat (length msg)) = Ok B ∧
    pad_message msg kb nonce = Ok (padded_block msg kb nonce B).
Proof.
  unfold MAX_PLAINTEXT_CODEPOINTS. intros Hn. unfold pad_message, assert_that.
  rewrite (proj2 (Z.leb_le _ _)) by done. cbn [mbind outcome_bind].
  assert (block_size Bucket (Z.of_nat (length msg)) = bucket_block_size (Z.of_nat (length msg))) as Hb.
  { unfold block_size. change (Z.shiftl 1 PAD_MAX_EXP) with 65536. by rewrite (proj2 (Z.leb_gt _ _)) by lia. }
  pose proof (block_size_cases Bucket (Z.of_nat (length msg)) ltac:(unfold fits; lia) I) as Hc.
  rewrite Hb in *. destruct (bucket_block_size _) as [B|e|p]; [|naive_solver lia|done].
  exists B. split; [done|]. destruct Hc as (e & -> & _ & _ & Hlt & _). cbn [mbind outcome_bind].
  by apply pad_to_block_Ok.
Qed.
End padded.

(** Padding is lossless and length-hiding: a message whose profile gives
    block size B is padded without panicking to exactly B + 2 codepoints, all of
    them Unicode scalar values when the message's are, and unpadding returns the
    message; the padded length reveals nothing but the block size. *)
Theorem unpad_pad_roundtrip `{Crypto} p msg kb nonce B :
  profile_fits p → block_size p (Z.of_nat (length msg)) = Ok B →
  ∃ padded, pad_to_block msg kb nonce B = Ok padded ∧
    unpad_message padded = Ok msg ∧
    Z.of_nat (length padded) = B + 2 ∧
    (str_ok msg → str_ok padded).
Proof.
  intros Hp HB. apply block_size_bound in HB as (HnB & Hn & _); [|lia|done].
  exists (padded_block msg kb nonce B). split_and!.
  - apply pad_to_block_Ok. lia.
  - apply unpad_padded_block. lia.
  - apply length_padded_block. lia.
  - apply padded_block_scalar.
Qed.

Lemma unpad_pad_roundtrip_witness :
  let _ := Toy.crypto in
  block_size (Frame 16) 2 = Ok 16 ∧
  ∃ padded, pad_to_block [72; 105] [x01] (replicate 16 x00) 16 = Ok padded ∧
    unpad_message padded = Ok [72; 105] ∧
    Z.of_nat (length padded) = 16 + 2 ∧
    (str_ok [72; 105] → str_ok padded).
Proof.
  intros C. split; [reflexivity|].
  apply (unpad_pad_roundtrip (Frame 16) [72; 105]); [simpl; unfold fits; lia|reflexivity].
Defined.

(** [unpad_message] is total on any decrypted codepoint buffer, including
    adversarial ones: it never indexes out of range, and it returns a message
    exactly when the buffer starts with a byte-valued big-endian length prefix
    followed by that many codepoints, which are the message. *)
Theorem unpad_message_correct padded :
  no_panic (unpad_message padded) ∧
  (Forall (λ c, 0 ≤ c) padded → ∀ msg,
    unpad_message padded = Ok msg ↔
    ∃ hi lo rest, padded = hi :: lo :: msg ++ rest ∧
      hi ≤ 0xFF ∧ lo ≤ 0xFF ∧ Z.of_nat (length msg) = hi * 256 + lo).
Proof.
  split.
  { unfold unpad_message. destruct padded as [|hi [|lo rest]]; try done. by repeat case_if. }
  intros Hpos msg. split.
  - destruct padded as [|hi [|lo rest]]; [done..|]. intros Hu.
    apply Forall_cons_1 in Hpos as [Hhi Hpos]. apply Forall_cons_1 in Hpos as [Hlo _].
    assert (hi ≤ 255 ∧ lo ≤ 255) as [??].
    { unfold unpad_message in Hu. case_if_in Hu; [done|]. lia. }
    rewrite unpad_prefix in Hu by lia. simpl in Hu. case_if_in Hu; [done|]. simplify_eq.
    exists hi, lo, (drop (Z.to_nat (hi * 256 + lo)) rest).
    rewrite (take_drop (Z.to_nat (hi * 256 + lo)) rest), length_take. split_and!; [done|done|done|lia].
  - intros (hi & lo & rest & -> & Hhi & Hlo & Hn).
    apply Forall_cons_1 in Hpos as [Hhi0 Hpos]. apply Forall_cons_1 in Hpos as [Hlo0 _].
    rewrite unpad_prefix by lia. simpl. rewrite length_app, <-Hn.
    rewrite (proj2 (Z.ltb_ge _ _)) by lia. by rewrite Nat2Z.id, take_app_length.
Qed.

(** ** The keystream *)

Section keystream.
Context `{Crypto}.
Context (kb nonce : list byte).

(** The first [b] blocks, and the keystream as a function of its length. *)
Definition keystream_blocks (b : Z) : list byte :=
  concat (keystream_block kb nonce <$> seqZ 0 b).
Definition keystream (len : nat) : list byte :=
  take len (keystream_blocks ((Z.of_nat len + 31) / 32)).

Lemma keystream_blocks_succ b :
  0 ≤ b → keystream_blocks (b + 1) = keystream_blocks b ++ keystream_block kb nonce b.
Proof using Type.
  intros Hb. unfold keystream_blocks. rewrite seqZ_app by lia.
  rewrite fmap_app, concat_app. simpl. by rewrite app_nil_r, Z.add_0_l.
Qed.

Lemma length_keystream_blocks b :
  0 ≤ b → Z.of_nat (length (keystream_blocks b)) = 32 * b.
Proof using Type.
  intros Hb. pattern b. apply Zlt_0_ind; [clear b Hb|done]. intros b IH Hb.
  destruct (decide (b = 0)) as [->|]; [done|].
  replace b with (b - 1 + 1) at 1 by lia.
  rewrite keystream_blocks_succ, length_app, Nat2Z.inj_add, IH by lia.
  unfold keystream_block. rewrite length_hmac_digest. lia.
Qed.

Lemma keystream_length len : length (keystream len) = len.
Proof using Type.
  unfold keystream. rewrite length_take.
  pose proof (Z.div_pos (Z.of_nat len + 31) 32 ltac:(lia) ltac:(lia)) as Hb.
  pose proof (length_keystream_blocks _ Hb).
  pose proof (Z.mul_succ_div_gt (Z.of_nat len + 31) 32 ltac:(lia)). lia.
Qed.

Lemma varint_keystream_Ok len :
  Z.of_nat len ≤ 32 * (2 ^ 32 - 1) → varint_keystream kb nonce len = Ok (keystream len).
Proof using Type.
  intros Hlen. unfold varint_keystream.
  set (b1 := (Z.of_nat len + 31) / 32).
  assert (while_loop 33 (keystream_step kb nonce len) ([], 0)
          = Ok (keystream_blocks b1, b1)) as ->; [|done].
  apply (while_loop_total 33 _
    (λ s, 0 ≤ s.2 ≤ 2 ^ 32 - 1 ∧ s.1 = keystream_blocks s.2 ∧
          (s.2 = 0 ∨ 32 * (s.2 - 1) < Z.of_nat len))
    (λ s, 2 ^ 32 - s.2) (λ r, r = Ok (keystream_blocks b1, b1)));
    [|split_and!; [simpl; lia..|done|by left]|intros [out b] [? _]; simpl in *; lia|simpl; lia].
  intros [out b] (Hb & Hout & Hex). cbn [fst snd] in *. subst out. unfold keystream_step.
  pose proof (length_keystream_blocks b ltac:(lia)) as Hlb.
  case_bool_decide as Hlt.
  - rewrite checked_add_Ok by lia. cbn [mbind outcome_bind continue_with fst snd].
    split_and!; [lia..| |right; lia|lia].
    symmetry; apply keystream_blocks_succ. lia.
  - assert (b1 = b) as ->; [|done]. subst b1.
    destruct Hex as [->|Hex].
    + apply Z.div_small. lia.
    + symmetry. apply Z.div_unique with (Z.of_nat len + 31 - 32 * b); lia.
Qed.

(** A longer keystream extends a shorter one. *)
Lemma keystream_prefix len1 len2 :
  (len1 ≤ len2)%nat → take len1 (keystream len2) = keystream len1.
Proof using Type.
  intros Hle. unfold keystream. rewrite take_take, Nat.min_l by done.
  set (b1 := (Z.of_nat len1 + 31) / 32). set (b2 := (Z.of_nat len2 + 31) / 32).
  assert (0 ≤ b1) by (apply Z.div_pos; lia).
  assert (b1 ≤ b2) by (apply Z.div_le_mono; lia).
  pose proof (length_keystream_blocks b1 ltac:(done)).
  assert (Z.of_nat len1 ≤ 32 * b1).
  { pose proof (Z.mul_succ_div_gt (Z.of_nat len1 + 31) 32 ltac:(lia)). fold b1 in H2. lia. }
  unfold keystream_blocks at 1. replace b2 with (b1 + (b2 - b1)) by lia.
  rewrite seqZ_app, fmap_app, concat_app by lia.
  apply take_app_le. unfold keystream_blocks in *. lia.
Qed.

Definition mask (data : list byte) : list byte := xor_bytes data (keystream (length data)).

Lemma length_mask data : length (mask data) = length data.
Proof using Type. unfold mask. rewrite length_xor_bytes, keystream_length. lia. Qed.

Lemma mask_involutive data : mask (mask data) = data.
Proof using Type.
  unfold mask at 1. rewrite length_mask. unfold mask.
  apply xor_bytes_involutive. by rewrite keystream_length.
Qed.
End keystream.

(** The keystream loop ends, without its 32-bit block counter overflowing,
    for every length up to 32 * (2^32 - 1) bytes, with exactly that many bytes; a
    shorter keystream is a prefix of a longer one; and masking twice with it
    gives the data back. *)
Theorem varint_keystream_correct `{Crypto} kb nonce len :
  Z.of_nat len ≤ 32 * (2 ^ 32 - 1) →
  ∃ ks, varint_keystream kb nonce len = Ok ks ∧ length ks = len ∧
    (∀ len', (len' ≤ len)%nat → varint_keystream kb nonce len' = Ok (take len' ks)) ∧
    (∀ data, length data = len → xor_bytes (xor_bytes data ks) ks = data).
Proof.
  intros Hlen. exists (keystream kb nonce len). split_and!.
  - by apply varint_keystream_Ok.
  - apply keystream_length.
  - intros len' Hle. rewrite keystream_prefix by done. apply varint_keystream_Ok. lia.
  - intros data Hd. apply xor_bytes_involutive. rewrite keystream_length. lia.
Qed.

Lemma varint_keystream_correct_witness :
  let _ := Toy.crypto in
  Z.of_nat 70 ≤ 32 * (2 ^ 32 - 1) ∧
  ∃ ks, varint_keystream [x01] [x02] 70 = Ok ks ∧ length ks = 70%nat ∧
    (∀ len', (len' ≤ 70)%nat → varint_keystream [x01] [x02] len' = Ok (take len' ks)) ∧
    (∀ data, length data = 70%nat → xor_bytes (xor_bytes data ks) ks = data).
Proof. intros C. split; [lia|]. apply varint_keystream_correct. lia. Defined.
