(* ===== verification/Tokens.v ===== *)
(** * Token streams ([lib.rs], "Core encrypt / decrypt")

    The fixed-width token encoding, the v7 and v8 emission loops and their
    decoders. A real token is [codepoint * k + addend]; noise tokens hide the
    positions of the real ones. *)
From stdpp Require Import base tactics list option numbers.
From Stdlib Require Import ZArith Lia Strings.Byte Zdivisibility Floats.SpecFloat.
From S2P Require Import Prelude Machine Errors Crates Post Primes Keys Derive Padding.

#[local] Open Scope Z_scope.
#[local] Open Scope napqes_scope.

Definition TOKEN_WIDTH : nat := 8.
Definition MAX_NOISE_RUN : Z := 19.
Definition V7_NOISE_RUN_GUARD : Z := 4096.

(** ** Fixed-width encoding *)

Definition fixed_encode_tokens (tokens : list Z) : list byte :=
  concat (to_be_bytes 8 <$> tokens).

Definition fixed_decode_tokens (data : list byte) : outcome error (list Z) :=
  if bool_decide (length data mod TOKEN_WIDTH ≠ 0)%nat
  then Err (BlobNotMultiple (Z.of_nat (length data)))
  else Ok (from_be_bytes <$> chunks_exact TOKEN_WIDTH data).

(** ** Emission *)

(** The three mutable variables of the emission loops. *)
Record emit_state := EmitState { cypher : list Z; real_idx : Z; ct_pos : Z }.

Section tokens.
Context `{Crypto}.

Definition noise_token (kb nonce : list byte) (ct_pos k : Z) : outcome error Z :=
  product ← derive_noise_char kb nonce ct_pos *64 k;
  addend ← derive_noise_token_addend kb nonce ct_pos k;
  product +64 addend.

(** [c as u64 * k + derive_addend(kb, nonce, real_idx, k)]. *)
Definition real_token (kb nonce : list byte) (real_idx c k : Z) : outcome error Z :=
  product ← c *64 k;
  addend ← derive_addend kb nonce real_idx k;
  product +64 addend.

(** [key[(real_idx % kk) as usize]] with [kk = key.len() as u64]. *)
Definition key_at (key : list Z) (real_idx : Z) : outcome error Z :=
  i ← real_idx %! Z.of_nat (length key);
  expect PanicBounds (key !! Z.to_nat i).

(** The inner [loop] of the v8 emission, for one codepoint [c]. *)
Fixpoint emit_codepoint_v8 (fuel : nat) (primes : list Z) (sk_fmt nonce : list byte)
    (theta c noise_run : Z) (st : emit_state) : outcome error emit_state :=
  match fuel with
  | O => Panic OutOfFuel
  | S fuel =>
      k ← key_at primes (real_idx st);
      let is_noise := (noise_run <? MAX_NOISE_RUN) && is_noise_pos_v8 sk_fmt nonce (ct_pos st) theta in
      token ← (if is_noise then noise_token sk_fmt nonce (ct_pos st) k
               else real_token sk_fmt nonce (real_idx st) c k);
      let cypher' := cypher st ++ [token] in
      ct_pos' ← ct_pos st +64 1;
      if negb is_noise then
        real_idx' ← real_idx st +64 1;
        Ok (EmitState cypher' real_idx' ct_pos')
      else
        noise_run' ← noise_run +64 1;
        emit_codepoint_v8 fuel primes sk_fmt nonce theta c noise_run'
          (EmitState cypher' (real_idx st) ct_pos')
  end.

(** [for &c in padded { ... }]; a noise run has at most [MAX_NOISE_RUN] tokens,
    so [MAX_NOISE_RUN + 1] rounds of the inner loop are enough. *)
Fixpoint emit_body_v8 (primes : list Z) (sk_fmt nonce : list byte) (theta : Z)
    (padded : list Z) (st : emit_state) : outcome error emit_state :=
  match padded with
  | [] => Ok st
  | c :: padded' =>
      st' ← emit_codepoint_v8 (Z.to_nat (MAX_NOISE_RUN + 1)) primes sk_fmt nonce theta c 0 st;
      emit_body_v8 primes sk_fmt nonce theta padded' st'
  end.

(** [while (cypher.len() as u64) < ceiling { ... }]. *)
Definition emit_filler_step (primes : list Z) (sk_fmt nonce : list byte) (ceiling : Z)
    (st : emit_state) : emit_state + outcome error emit_state :=
  if Z.of_nat (length (cypher st)) <? ceiling then
    continue_with (
      k ← key_at primes (real_idx st);
      token ← noise_token sk_fmt nonce (ct_pos st) k;
      ct_pos' ← ct_pos st +64 1;
      Ok (EmitState (cypher st ++ [token]) (real_idx st) ct_pos'))
  else inr (Ok st).

Definition emit_tokens_v8 (padded primes : list Z) (sk_fmt nonce : list byte)
    : outcome error (list Z) :=
  noise_theta ← derive_noise_threshold_v8 sk_fmt nonce;
  unit ← MAX_NOISE_RUN +64 1;
  ceiling ← Z.of_nat (length padded) *64 unit;
  st ← emit_body_v8 primes sk_fmt nonce noise_theta padded (EmitState [] 0 0);
  st' ← while_loop 64 (emit_filler_step primes sk_fmt nonce ceiling) st;
  Ok (cypher st').

(** v7: uncapped runs, with the robustness guard. *)
Fixpoint emit_codepoint_v7 (fuel : nat) (key : list Z) (kb nonce : list byte)
    (noise_p : spec_float) (c run : Z) (st : emit_state) : outcome error emit_state :=
  match fuel with
  | O => Panic OutOfFuel
  | S fuel =>
      k ← key_at key (real_idx st);
      let is_noise := is_noise_pos kb nonce (ct_pos st) noise_p in
      token ← (if is_noise then noise_token kb nonce (ct_pos st) k
               else real_token kb nonce (real_idx st) c k);
      let cypher' := cypher st ++ [token] in
      ct_pos' ← ct_pos st +64 1;
      if negb is_noise then
        real_idx' ← real_idx st +64 1;
        Ok (EmitState cypher' real_idx' ct_pos')
      else
        run' ← run +64 1;
        if V7_NOISE_RUN_GUARD <? run' then Err NoiseRunAborted
        else emit_codepoint_v7 fuel key kb nonce noise_p c run'
               (EmitState cypher' (real_idx st) ct_pos')
  end.

Fixpoint emit_body_v7 (key : list Z) (kb nonce : list byte) (noise_p : spec_float)
    (padded : list Z) (st : emit_state) : outcome error emit_state :=
  match padded with
  | [] => Ok st
  | c :: padded' =>
      st' ← emit_codepoint_v7 (Z.to_nat (V7_NOISE_RUN_GUARD + 1)) key kb nonce noise_p c 0 st;
      emit_body_v7 key kb nonce noise_p padded' st'
  end.

Definition emit_tokens_v7 (padded : list Z) (kb nonce : list byte) (noise_p : spec_float)
    (key : list Z) : outcome error (list Z) :=
  st ← emit_body_v7 key kb nonce noise_p padded (EmitState [] 0 0);
  Ok (cypher st).

(** ** Decoding *)

(** The checks every decoder makes on a real token; the two error values carry
    the message of the calling decoder. *)
Definition recover_codepoint (malformed : error) (not_scalar : Z → error)
    (token addend k : Z) : outcome error Z :=
  r ← (if token <? addend then Ok true
       else (d ← token -! addend; m ← d %! k; Ok (negb (m =? 0))));
  if (r : bool) then Err malformed
  else
    d ← token -! addend;
    cp ← d /! k;
    if (0x10FFFF <? cp) || negb (is_scalar cp) then Err (not_scalar cp) else Ok cp.

(** The loop of [decrypt_core] over [cypher.iter().enumerate()]. *)
Fixpoint decrypt_loop_v7 (key : list Z) (kb nonce : list byte) (noise_p : spec_float)
    (ct_pos real_idx : Z) (cypher padded : list Z) : outcome error (list Z) :=
  match cypher with
  | [] => Ok padded
  | token :: cypher' =>
      if negb (is_noise_pos kb nonce ct_pos noise_p) then
        k ← key_at key real_idx;
        addend ← derive_addend kb nonce real_idx k;
        cp ← recover_codepoint (V7MalformedToken ct_pos k) (λ cp, V7NotScalar cp ct_pos) token addend k;
        real_idx' ← real_idx +64 1;
        decrypt_loop_v7 key kb nonce noise_p (ct_pos + 1) real_idx' cypher' (padded ++ [cp])
      else decrypt_loop_v7 key kb nonce noise_p (ct_pos + 1) real_idx cypher' padded
  end.

Definition decrypt_core (nonce : list byte) (cypher key : list Z) (kb : list byte)
    : outcome error (list Z) :=
  let noise_p := derive_noise_p kb nonce in
  padded ← decrypt_loop_v7 key kb nonce noise_p 0 0 cypher [];
  unpad_message padded.

(** [real_count.checked_sub(2).map(..).unwrap_or(false)]. *)
Definition legal_real_count (real_count : Z) : bool :=
  if real_count <? 2 then false
  else
    let b := real_count - 2 in
    is_power_of_two b && (PAD_MIN_EXP <=? trailing_zeros 64 b)
      && (trailing_zeros 64 b <=? PAD_MAX_EXP).

(** The inner [while] over [(ct_pos, noise_run)]. *)
Definition skip_noise_step (sk_fmt nonce : list byte) (theta n_tokens : Z) (s : Z * Z)
    : (Z * Z) + outcome error (Z * Z) :=
  let '(ct_pos, noise_run) := s in
  if (noise_run <? MAX_NOISE_RUN) && (ct_pos <? n_tokens)
     && is_noise_pos_v8 sk_fmt nonce ct_pos theta then
    continue_with (ct_pos' ← ct_pos +64 1; noise_run' ← noise_run +64 1; Ok (ct_pos', noise_run'))
  else inr (Ok s).

Definition skip_noise (sk_fmt nonce : list byte) (theta n_tokens ct_pos : Z)
    : outcome error (Z * Z) :=
  while_loop 5 (skip_noise_step sk_fmt nonce theta n_tokens) (ct_pos, 0).

(** The outer [while real_idx < real_count] over [(padded, real_idx, ct_pos)]. *)
Definition decrypt_step_v8 (key : list Z) (kb nonce : list byte) (theta real_count : Z)
    (tokens : list Z) (s : list Z * Z * Z) : (list Z * Z * Z) + outcome error (list Z) :=
  let '(padded, real_idx, ct_pos) := s in
  let n_tokens := Z.of_nat (length tokens) in
  if real_idx <? real_count then
    continue_with (
      r ← skip_noise kb nonce theta n_tokens ct_pos;
      let '(ct_pos, noise_run) := r in
      if n_tokens <=? ct_pos
      then Err (V8Truncated ct_pos n_tokens real_idx real_count noise_run)
      else
        k ← key_at key real_idx;
        addend ← derive_addend kb nonce real_idx k;
        token ← expect PanicBounds (tokens !! Z.to_nat ct_pos);
        cp ← recover_codepoint (V8MalformedToken ct_pos k) (λ cp, V8NotScalar cp ct_pos) token addend k;
        ct_pos' ← ct_pos +64 1;
        real_idx' ← real_idx +64 1;
        Ok (padded ++ [cp], real_idx', ct_pos'))
  else inr (Ok padded).

Definition decrypt_core_v8 (nonce : list byte) (tokens key : list Z) (kb : list byte)
    : outcome error (list Z) :=
  ceiling_unit ← MAX_NOISE_RUN +64 1;
  let n_tokens := Z.of_nat (length tokens) in
  if negb (n_tokens mod ceiling_unit =? 0) then Err V8NotCeilingMultiple
  else
    real_count ← n_tokens /! ceiling_unit;
    if negb (legal_real_count real_count) then Err (V8IllegalRealCount real_count)
    else
      noise_theta ← derive_noise_threshold_v8 kb nonce;
      padded ← while_loop 64 (decrypt_step_v8 key kb nonce noise_theta real_count tokens) ([], 0, 0);
      unpad_message padded.
End tokens.

(** ** The encoding is a bijection onto the blobs of whole tokens *)

Lemma fixed_encode_tokens_cons t ts :
  fixed_encode_tokens (t :: ts) = to_be_bytes 8 t ++ fixed_encode_tokens ts.
Proof. done. Qed.

Lemma length_fixed_encode_tokens ts : length (fixed_encode_tokens ts) = (8 * length ts)%nat.
Proof.
  induction ts as [|t ts IH]; [done|].
  rewrite fixed_encode_tokens_cons, length_app, length_to_be_bytes, IH. simpl. lia.
Qed.

Lemma fixed_decode_encode ts :
  Forall (fits 64) ts → fixed_decode_tokens (fixed_encode_tokens ts) = Ok ts.
Proof.
  intros Hts. unfold fixed_decode_tokens. rewrite bool_decide_eq_false_2.
  2: { intros H. apply H. rewrite length_fixed_encode_tokens. unfold TOKEN_WIDTH.
       rewrite Nat.mul_comm. apply Nat.Div0.mod_mul. }
  f_equal. induction Hts as [|t ts Ht _ IH]; [done|].
  rewrite fixed_encode_tokens_cons, chunks_exact_cons by (rewrite ?length_to_be_bytes; unfold TOKEN_WIDTH; lia).
  rewrite fmap_cons, IH. f_equal. apply from_to_be_bytes. exact Ht.
Qed.

Lemma fixed_decode_cases data :
  match fixed_decode_tokens data with
  | Ok ts => data = fixed_encode_tokens ts ∧ Forall (fits 64) ts
  | Err e => e = BlobNotMultiple (Z.of_nat (length data)) ∧ (length data mod 8 ≠ 0)%nat
  | Panic _ => False
  end.
Proof.
  unfold fixed_decode_tokens, TOKEN_WIDTH. case_bool_decide as Hm; [done|].
  apply Nat.Div0.mod_divides in Hm as [n Hn]. revert data Hn.
  induction n as [|n IH]; intros data Hn.
  { apply nil_length_inv in Hn as ->. split; [done|constructor]. }
  rewrite <-(take_drop 8 data).
  assert (length (take 8 data) = 8%nat) as H8 by (rewrite length_take; lia).
  rewrite chunks_exact_cons by (lia || done).
  destruct (IH (drop 8 data)) as [Heq Hf]; [rewrite length_drop; lia|]. split.
  - rewrite fmap_cons, fixed_encode_tokens_cons, <-Heq. by rewrite to_from_be_bytes'.
  - rewrite fmap_cons. constructor; [|done]. pose proof (from_be_bytes_range (take 8 data)) as Hr.
    by rewrite H8 in Hr.
Qed.

(** ** Noise runs *)

(** The length of the run of noise positions at [p], at most [cap]. *)
Fixpoint run (noise : Z → bool) (cap : nat) (p : Z) : nat :=
  match cap with
  | O => O
  | S cap => if noise p then S (run noise cap (p + 1)) else O
  end.

Lemma run_le noise cap p : (run noise cap p ≤ cap)%nat.
Proof.
  revert p. induction cap as [|cap IH]; intros p; simpl; [lia|].
  destruct (noise p); [|lia]. specialize (IH (p + 1)). lia.
Qed.

Lemma run_noise noise cap p j :
  p ≤ j < p + Z.of_nat (run noise cap p) → noise j = true.
Proof.
  revert p. induction cap as [|cap IH]; intros p; simpl; [lia|].
  destruct (noise p) eqn:Hp; [|lia]. intros Hj.
  destruct (decide (j = p)) as [->|]; [done|]. apply (IH (p + 1)). lia.
Qed.

Lemma run_stop noise cap p :
  (run noise cap p < cap)%nat → noise (p + Z.of_nat (run noise cap p)) = false.
Proof.
  revert p. induction cap as [|cap IH]; intros p; simpl; [lia|].
  destruct (noise p) eqn:Hp; intros Hlt; [|by rewrite Z.add_0_r].
  specialize (IH (p + 1) ltac:(lia)).
  by replace (p + Z.of_nat (S (run noise cap (p + 1))))
    with (p + 1 + Z.of_nat (run noise cap (p + 1))) by lia.
Qed.

(** Bounding the positions by a stream that holds the run changes nothing. *)
Lemma run_bounded noise cap p n :
  p + Z.of_nat (run noise cap p) < n →
  run (λ x, (x <? n) && noise x) cap p = run noise cap p.
Proof.
  revert p. induction cap as [|cap IH]; intros p; simpl; [done|].
  destruct (noise p) eqn:Hp; intros Hn; [|by rewrite andb_false_r].
  rewrite (proj2 (Z.ltb_lt _ _)) by lia. simpl. f_equal. apply IH. lia.
Qed.

(** ** Keys that the token arithmetic accepts *)

Definition arith_key (key : list Z) : Prop :=
  key ≠ [] ∧ Forall (λ k, 2 ≤ k < 2 ^ 40) key.

Lemma valid_key_arith key : valid_key key → arith_key key.
Proof.
  intros (Hne & _ & Hall & _). split; [done|]. eapply List.Forall_impl; [|exact Hall].
  unfold MIN_KEY_PRIME, MAX_KEY_PRIME. intros k [? _]. lia.
Qed.

Lemma valid_key_v7_arith key : valid_key_v7 key → arith_key key.
Proof.
  intros (Hne & _ & Hall & _). split; [done|]. eapply List.Forall_impl; [|exact Hall].
  unfold MAX_SERIALISABLE_KEY_PRIME. simpl. intros k ?. lia.
Qed.

(** [key[i mod kk]]. *)
Definition key_elem (key : list Z) (i : Z) : Z :=
  default 2 (key !! Z.to_nat (i mod Z.of_nat (length key))).

Lemma key_at_Ok key i :
  arith_key key → 0 ≤ i → key_at key i = Ok (key_elem key i) ∧ 2 ≤ key_elem key i < 2 ^ 40.
Proof.
  intros [Hne Hall] Hi. assert (0 < Z.of_nat (length key)) by (destruct key; simpl; [done|lia]).
  unfold key_at, key_elem. rewrite checked_rem_Ok by lia. cbn [mbind outcome_bind].
  pose proof (Z.mod_pos_bound i (Z.of_nat (length key)) ltac:(lia)) as Hm.
  destruct (lookup_lt_is_Some_2 key (Z.to_nat (i mod Z.of_nat (length key)))) as [k Hk]; [lia|].
  rewrite Hk. split; [done|]. rewrite Forall_lookup in Hall. by apply (Hall _ _ Hk).
Qed.

Lemma recover_codepoint_real e1 e2 c k a :
  is_scalar c = true → 1 ≤ a ≤ k - 1 → recover_codepoint e1 e2 (c * k + a) a k = Ok c.
Proof.
  intros Hc Ha. pose proof (is_scalar_range c Hc). unfold recover_codepoint.
  rewrite (proj2 (Z.ltb_ge _ _)) by nia.
  rewrite checked_sub_Ok by nia. cbn [mbind outcome_bind].
  rewrite checked_rem_Ok by lia. cbn [mbind outcome_bind].
  replace (c * k + a - a) with (c * k) by lia. rewrite Z.mod_mul by lia. simpl negb. cbn iota.
  rewrite checked_div_Ok, Z.div_mul by lia. cbn [mbind outcome_bind].
  rewrite (proj2 (Z.ltb_ge _ _)) by lia. by rewrite Hc.
Qed.

Lemma recover_codepoint_cases e1 e2 token a k :
  0 ≤ token → 2 ≤ k →
  match recover_codepoint e1 e2 token a k with
  | Ok c => is_scalar c = true ∧ token = c * k + a
  | Err e => e = e1 ∨ ∃ cp, e = e2 cp ∧ is_scalar cp = false
  | Panic _ => False
  end.
Proof.
  intros Ht Hk. unfold recover_codepoint. destruct (Z.ltb_spec token a) as [|Hge]; [by left|].
  rewrite checked_sub_Ok by lia. cbn [mbind outcome_bind].
  rewrite checked_rem_Ok by lia. cbn [mbind outcome_bind].
  destruct (Z.eqb_spec ((token - a) mod k) 0) as [Hm|]; [|by left]. cbn [negb].
  rewrite checked_div_Ok by lia. cbn [mbind outcome_bind].
  destruct ((0x10FFFF <? (token - a) / k) || negb (is_scalar ((token - a) / k))) eqn:Hs.
  - right. exists ((token - a) / k). split; [done|].
    destruct (is_scalar ((token - a) / k)) eqn:Hc; [|done].
    pose proof (is_scalar_range _ Hc). simpl in Hs. rewrite orb_false_r in Hs. reflect_bools. lia.
  - apply orb_false_iff in Hs as [_ Hs%negb_false_iff]. split; [done|].
    rewrite (Z.mul_comm _ k).
    pose proof (Z.div_mod (token - a) k ltac:(lia)). lia.
Qed.

(** ** What the emission loops produce

    A real token is preceded by its run of noise; [noise] is the predicate of
    the format ([is_noise_pos_v8] or [is_noise_pos]) and [cap] its bound. *)
Section emission.
Context `{Crypto} (key : list Z) (kb nonce : list byte).

Definition noise_tok (i p : Z) : Z := from_ok 0 (noise_token kb nonce p (key_elem key i)).
Definition real_tok (i c : Z) : Z := from_ok 0 (real_token kb nonce i c (key_elem key i)).

Definition group (noise : Z → bool) (cap : nat) (i p c : Z) : list Z :=
  (noise_tok i <$> seqZ p (Z.of_nat (run noise cap p))) ++ [real_tok i c].

Fixpoint body (noise : Z → bool) (cap : nat) (i p : Z) (padded : list Z) : list Z :=
  match padded with
  | [] => []
  | c :: padded' =>
      group noise cap i p c ++ body noise cap (i + 1) (p + Z.of_nat (run noise cap p) + 1) padded'
  end.

Lemma length_group noise cap i p c : length (group noise cap i p c) = S (run noise cap p).
Proof using Type. unfold group. rewrite length_app, length_fmap, length_seqZ. simpl. lia. Qed.

Lemma length_body noise cap i p padded :
  (length padded ≤ length (body noise cap i p padded) ≤ S cap * length padded)%nat.
Proof using Type.
  revert i p. induction padded as [|c padded IH]; intros i p; simpl body; [simpl; lia|].
  rewrite length_app, length_group. pose proof (run_le noise cap p).
  specialize (IH (i + 1) (p + Z.of_nat (run noise cap p) + 1)). simpl length. lia.
Qed.

Context (Hkey : arith_key key).

Lemma noise_token_Ok i p :
  0 ≤ i → noise_token kb nonce p (key_elem key i) = Ok (noise_tok i p) ∧ fits 64 (noise_tok i p).
Proof using Hkey.
  intros Hi. destruct (key_at_Ok key i Hkey Hi) as [_ Hk].
  unfold noise_tok, noise_token. pose proof (derive_noise_char_range kb nonce p).
  rewrite checked_mul_Ok by nia. cbn [mbind outcome_bind].
  destruct (derive_noise_token_addend_cases kb nonce p (key_elem key i)) as (a & -> & Ha & _); [lia|].
  cbn [mbind outcome_bind]. rewrite checked_add_Ok by nia. split; [done|].
  unfold fits. simpl from_ok. nia.
Qed.

Lemma real_token_Ok i c :
  0 ≤ i → is_scalar c = true →
  real_token kb nonce i c (key_elem key i) = Ok (real_tok i c) ∧ fits 64 (real_tok i c) ∧
  ∃ a, derive_addend kb nonce i (key_elem key i) = Ok a ∧
    ∀ e1 e2, recover_codepoint e1 e2 (real_tok i c) a (key_elem key i) = Ok c.
Proof using Hkey.
  intros Hi Hc. destruct (key_at_Ok key i Hkey Hi) as [_ Hk].
  pose proof (is_scalar_range c Hc). unfold real_tok, real_token.
  rewrite checked_mul_Ok by nia. cbn [mbind outcome_bind].
  destruct (derive_addend_cases kb nonce i (key_elem key i)) as (a & Heq & Ha & _); [lia|].
  rewrite Heq. cbn [mbind outcome_bind]. rewrite checked_add_Ok by nia.
  split_and!; [done|unfold fits; simpl from_ok; nia|].
  exists a. split; [done|]. intros e1 e2. simpl. by apply recover_codepoint_real.
Qed.

Lemma noise_toks_fits i ps : 0 ≤ i → Forall (fits 64) (noise_tok i <$> ps).
Proof using Hkey.
  intros Hi. apply Forall_fmap, Forall_forall. intros p _. by apply noise_token_Ok.
Qed.

Lemma body_fits noise cap i p padded :
  0 ≤ i → str_ok padded → Forall (fits 64) (body noise cap i p padded).
Proof using Hkey.
  intros Hi Hp. revert i p Hi. induction Hp as [|c padded Hc _ IH]; intros i p Hi; [constructor|].
  simpl. apply Forall_app_2; [apply Forall_app_2|apply IH; lia].
  - by apply noise_toks_fits.
  - constructor; [by apply real_token_Ok|constructor].
Qed.

Lemma seqZ_run_cons f p n :
  0 ≤ n → f <$> seqZ p (Z.of_nat (S (Z.to_nat n))) = f p :: (f <$> seqZ (p + 1) n : list Z).
Proof using Type.
  intros Hn. rewrite Nat2Z.inj_succ, Z2Nat.id by done.
  rewrite seqZ_cons by lia. by rewrite Z.pred_succ.
Qed.

Lemma emit_codepoint_v8_spec theta c cap nr st :
  is_scalar c = true → Z.of_nat cap + nr = MAX_NOISE_RUN → 0 ≤ nr →
  0 ≤ real_idx st → real_idx st + 1 < 2 ^ 64 → ct_pos st + Z.of_nat cap + 1 < 2 ^ 64 →
  let noise := λ p, is_noise_pos_v8 kb nonce p theta in
  emit_codepoint_v8 (S cap) key kb nonce theta c nr st
  = Ok (EmitState (cypher st ++ group noise cap (real_idx st) (ct_pos st) c)
          (real_idx st + 1) (ct_pos st + Z.of_nat (run noise cap (ct_pos st)) + 1)).
Proof using Hkey.
  intros Hc Hcap Hnr Hi Hi' Hp noise. revert nr st Hcap Hnr Hi Hi' Hp.
  induction cap as [|cap IH]; intros nr st Hcap Hnr Hi Hi' Hp;
    [|remember (S cap) as fuel eqn:Hfuel]; cbn [emit_codepoint_v8];
    [|subst fuel]; destruct (key_at_Ok key (real_idx st) Hkey Hi) as [-> _];
    cbn [mbind outcome_bind]; fold (noise (ct_pos st));
    destruct (real_token_Ok (real_idx st) c Hi Hc) as (Hreal & _).
  - rewrite (proj2 (Z.ltb_ge _ _)) by lia. cbn [andb]. rewrite Hreal. cbn [mbind outcome_bind].
    rewrite checked_add_Ok by lia. cbn [mbind outcome_bind negb].
    rewrite checked_add_Ok by lia. cbn [mbind outcome_bind].
    unfold group. simpl. by rewrite Z.add_0_r.
  - rewrite (proj2 (Z.ltb_lt _ _)) by (unfold MAX_NOISE_RUN in *; lia). cbn [andb].
    destruct (noise (ct_pos st)) eqn:Hn; simpl run; rewrite Hn.
    + destruct (noise_token_Ok (real_idx st) (ct_pos st) Hi) as [-> _]. cbn [mbind outcome_bind].
      rewrite (checked_add_Ok 64 (ct_pos st)) by lia. cbn [mbind outcome_bind negb].
      rewrite checked_add_Ok by (unfold MAX_NOISE_RUN in *; lia). cbn [mbind outcome_bind].
      rewrite IH by (simpl; lia). cbn [real_idx ct_pos cypher]. do 2 f_equal; [|lia].
      rewrite <-app_assoc. f_equal. unfold group. simpl run. rewrite Hn.
      set (r := run noise cap (ct_pos st + 1)).
      rewrite <-(Nat2Z.id r) at 2. rewrite seqZ_run_cons by lia. done.
    + rewrite Hreal. cbn [mbind outcome_bind].
      rewrite checked_add_Ok by lia. cbn [mbind outcome_bind negb].
      rewrite checked_add_Ok by lia. cbn [mbind outcome_bind].
      unfold group. simpl run. rewrite Hn. simpl. by rewrite Z.add_0_r.
Qed.

Lemma emit_body_v8_spec theta padded st :
  str_ok padded → 0 ≤ real_idx st → 0 ≤ ct_pos st →
  real_idx st + Z.of_nat (length padded) < 2 ^ 64 →
  ct_pos st + 20 * Z.of_nat (length padded) < 2 ^ 64 →
  let noise := λ p, is_noise_pos_v8 kb nonce p theta in
  let b := body noise 19 (real_idx st) (ct_pos st) padded in
  emit_body_v8 key kb nonce theta padded st
  = Ok (EmitState (cypher st ++ b) (real_idx st + Z.of_nat (length padded))
          (ct_pos st + Z.of_nat (length b))).
Proof using Hkey.
  intros Hp. revert st. induction Hp as [|c padded Hc _ IH]; intros st Hi Hpos Hi' Hpos';
    cbn [emit_body_v8 body].
  - simpl. rewrite app_nil_r, !Z.add_0_r. by destruct st.
  - cbn [length] in *. set (noise := λ p, is_noise_pos_v8 kb nonce p theta).
    pose proof (run_le noise 19 (ct_pos st)).
    change (Z.to_nat (MAX_NOISE_RUN + 1)) with (S 19).
    rewrite emit_codepoint_v8_spec by (unfold MAX_NOISE_RUN in *; simpl; lia || done).
    fold noise. cbn [mbind outcome_bind].
    rewrite IH by (cbn [real_idx ct_pos]; lia). cbn [real_idx ct_pos cypher]. fold noise.
    rewrite <-app_assoc, length_app, length_group. do 2 f_equal; lia.
Qed.
(** The tail that brings the stream to its ceiling. *)
Definition filler (i p n : Z) : list Z := noise_tok i <$> seqZ p n.

Lemma emit_filler_spec ceiling st :
  0 ≤ real_idx st → Z.of_nat (length (cypher st)) ≤ ceiling < 2 ^ 60 →
  0 ≤ ct_pos st ≤ 2 ^ 60 →
  ∃ st', while_loop 64 (emit_filler_step key kb nonce ceiling) st = Ok st' ∧
    cypher st' = cypher st ++
      filler (real_idx st) (ct_pos st) (ceiling - Z.of_nat (length (cypher st))).
Proof using Hkey.
  intros Hi Hlen Hpos. set (n := ceiling - Z.of_nat (length (cypher st))).
  set (tail := λ m, filler (real_idx st) (ct_pos st) m).
  assert (Hl : ∀ m, 0 ≤ m → Z.of_nat (length (cypher st ++ tail m)) = Z.of_nat (length (cypher st)) + m).
  { intros m Hm. unfold tail, filler. rewrite length_app, length_fmap, length_seqZ. lia. }
  apply (while_loop_total 64 _
    (λ s, ∃ m, 0 ≤ m ≤ n ∧ s = EmitState (cypher st ++ tail m) (real_idx st) (ct_pos st + m))
    (λ s, ceiling - Z.of_nat (length (cypher s)))
    (λ r, ∃ st', r = Ok st' ∧ cypher st' = cypher st ++ tail n)).
  - intros s (m & Hm & ->). unfold emit_filler_step. cbn [cypher real_idx ct_pos].
    destruct (Z.ltb_spec (Z.of_nat (length (cypher st ++ tail m))) ceiling) as [Hlt|Hge];
      rewrite Hl in * by lia.
    + destruct (key_at_Ok key (real_idx st) Hkey Hi) as [-> _]. cbn [mbind outcome_bind].
      destruct (noise_token_Ok (real_idx st) (ct_pos st + m) Hi) as [-> _]. cbn [mbind outcome_bind].
      rewrite checked_add_Ok by lia. cbn [mbind outcome_bind continue_with cypher].
      split; [|rewrite length_app, Nat2Z.inj_add, Hl by lia; simpl; lia].
      exists (m + 1). split; [lia|]. f_equal; [|lia]. rewrite <-app_assoc. f_equal.
      unfold tail, filler. rewrite seqZ_app, fmap_app by lia. done.
    + eexists. split; [done|]. simpl. do 2 f_equal. lia.
  - exists 0. split; [lia|]. unfold tail, filler. simpl.
    rewrite app_nil_r, Z.add_0_r. by destruct st.
  - intros s (m & Hm & ->). simpl. rewrite Hl by lia. lia.
  - lia.
Qed.

(** The whole v8 stream: the tokens of the codepoints, then noise up to exactly
    [MAX_NOISE_RUN + 1] tokens per codepoint. *)
Lemma emit_tokens_v8_spec padded :
  str_ok padded → Z.of_nat (length padded) < 2 ^ 32 →
  ∃ theta b tail,
    derive_noise_threshold_v8 kb nonce = Ok theta ∧
    b = body (λ p, is_noise_pos_v8 kb nonce p theta) 19 0 0 padded ∧
    emit_tokens_v8 padded key kb nonce = Ok (b ++ tail) ∧
    Z.of_nat (length (b ++ tail)) = 20 * Z.of_nat (length padded) ∧
    Forall (fits 64) (b ++ tail).
Proof using Hkey.
  intros Hp Hlen. destruct (theta_cases kb nonce) as (theta & Htheta & _).
  set (b := body (λ p, is_noise_pos_v8 kb nonce p theta) 19 0 0 padded).
  pose proof (length_body (λ p, is_noise_pos_v8 kb nonce p theta) 19 0 0 padded) as Hb. fold b in Hb.
  unfold emit_tokens_v8. rewrite Htheta. cbn [mbind outcome_bind].
  unfold MAX_NOISE_RUN. rewrite checked_add_Ok by lia. cbn [mbind outcome_bind].
  rewrite checked_mul_Ok by lia. cbn [mbind outcome_bind].
  set (st := EmitState b (Z.of_nat (length padded)) (Z.of_nat (length b))).
  assert (emit_body_v8 key kb nonce theta padded (EmitState [] 0 0) = Ok st) as Hbody.
  { rewrite emit_body_v8_spec by (simpl; done || lia). done. }
  rewrite Hbody, bind_Ok.
  destruct (emit_filler_spec (Z.of_nat (length padded) * (19 + 1)) st) as (st' & Hst & Hc);
    [simpl; lia|simpl; lia|simpl; lia|].
  rewrite Hst, bind_Ok, Hc.
  exists theta, b. eexists. split_and!; [done|done|done| |].
  - unfold filler. rewrite length_app, length_fmap, length_seqZ. simpl. lia.
  - apply Forall_app_2; [apply body_fits; [lia|done]|]. unfold filler.
    apply noise_toks_fits. simpl. lia.
Qed.

(** ** Decoding a v8 stream *)

Lemma skip_noise_spec theta n p :
  0 ≤ p < 2 ^ 62 →
  let noise := λ x, (x <? n) && is_noise_pos_v8 kb nonce x theta in
  let r := Z.of_nat (run noise 19 p) in
  skip_noise kb nonce theta n p = Ok (p + r, r).
Proof using Type.
  intros Hp noise r. unfold skip_noise.
  assert (Hno : ∀ x, (x <? n) && is_noise_pos_v8 kb nonce x theta = noise x) by done.
  clearbody noise. subst r. generalize (eq_refl (run noise 19 p)).
  generalize (run noise 19 p) at 1 3 4. intros R HR.
  apply (while_loop_total 5 _
    (λ s, ∃ j : nat, (j ≤ 19)%nat ∧ s = (p + Z.of_nat j, Z.of_nat j) ∧
       R = (j + run noise (19 - j) (p + Z.of_nat j))%nat)
    (λ s, 19 - s.2) (λ res, res = Ok (p + Z.of_nat R, Z.of_nat R))).
  - intros s (j & Hj & -> & Hr). unfold skip_noise_step.
    rewrite <-andb_assoc, Hno. unfold MAX_NOISE_RUN.
    destruct (Z.ltb_spec (Z.of_nat j) 19) as [Hlt|Hge].
    + destruct (19 - j)%nat as [|cap] eqn:Hcap; [lia|]. cbn [run] in Hr.
      destruct (noise (p + Z.of_nat j)) eqn:Hn; cbn [andb].
      * rewrite (checked_add_Ok 64 (p + Z.of_nat j)) by lia. cbn [mbind outcome_bind].
        rewrite checked_add_Ok by lia. cbn [mbind outcome_bind continue_with snd].
        split; [|lia]. exists (S j). replace (19 - S j)%nat with cap by lia.
        rewrite Nat2Z.inj_succ, <-Z.add_1_r, Z.add_assoc. split_and!; [lia|done|lia].
      * by rewrite Hr, Nat.add_0_r.
    + cbn [andb]. replace (19 - j)%nat with 0%nat in Hr by lia. cbn [run] in Hr.
      by rewrite Hr, Nat.add_0_r.
  - exists 0%nat. simpl Z.of_nat. rewrite Z.add_0_r. split_and!; [lia|done|done].
  - intros s (j & Hj & -> & _). simpl. lia.
  - simpl. lia.
Qed.

Lemma decrypt_step_v8_body theta padded tokens rest s :
  str_ok padded → Z.of_nat (length tokens) < 2 ^ 61 → Z.of_nat (length padded) < 2 ^ 61 →
  let noise := λ p, is_noise_pos_v8 kb nonce p theta in
  let inv := λ s : list Z * Z * Z, ∃ l todo pre,
    padded = l ++ todo ∧
    tokens = pre ++ body noise 19 (Z.of_nat (length l)) (Z.of_nat (length pre)) todo ++ rest ∧
    s = (l, Z.of_nat (length l), Z.of_nat (length pre)) in
  inv s →
  match decrypt_step_v8 key kb nonce theta (Z.of_nat (length padded)) tokens s with
  | inl s' => inv s' ∧ Z.of_nat (length padded) - s'.1.2 < Z.of_nat (length padded) - s.1.2
  | inr r => r = Ok padded
  end.
Proof using Hkey.
  intros Hp Hn Hpl noise inv (l & todo & pre & Hl & Ht & ->). unfold decrypt_step_v8.
  destruct todo as [|c todo].
  { rewrite app_nil_r in Hl. subst l. by rewrite Z.ltb_irrefl. }
  assert (length padded = (length l + S (length todo))%nat) as Hlen by (rewrite Hl, length_app; done).
  rewrite (proj2 (Z.ltb_lt _ _)) by lia.
  assert (is_scalar c = true) as Hc by (rewrite Hl in Hp; by apply Forall_app in Hp as [_ Hp%Forall_cons_1]; destruct Hp).
  set (p := Z.of_nat (length pre)) in *. set (i := Z.of_nat (length l)) in *. cbn [body] in Ht.
  set (r := run noise 19 p) in *. fold (run noise 19 p) in Ht. fold r in Ht.
  set (tl := body _ _ _ _ _) in Ht. unfold group in Ht. fold r in Ht.
  assert (Z.of_nat (length tokens) = p + Z.of_nat r + 1 + Z.of_nat (length tl + length rest)) as Hlt.
  { rewrite Ht, !length_app, length_fmap, length_seqZ. simpl length. lia. }
  rewrite skip_noise_spec by lia.
  rewrite (run_bounded noise) by (fold r; lia). fold r. cbn [mbind outcome_bind].
  rewrite (proj2 (Z.leb_gt _ _)) by lia.
  destruct (key_at_Ok key i Hkey ltac:(lia)) as [-> _]. cbn [mbind outcome_bind].
  destruct (real_token_Ok i c ltac:(lia) Hc) as (_ & _ & a & -> & Hrec). cbn [mbind outcome_bind].
  assert (tokens !! Z.to_nat (p + Z.of_nat r) = Some (real_tok i c)) as Htok.
  { rewrite Ht, lookup_app_r by lia. rewrite <-!app_assoc.
    rewrite lookup_app_r by (rewrite length_fmap, length_seqZ; lia).
    rewrite length_fmap, length_seqZ.
    by replace (Z.to_nat (p + Z.of_nat r) - length pre - Z.to_nat (Z.of_nat r))%nat with 0%nat by lia. }
  rewrite Htok. cbn [expect mbind outcome_bind]. rewrite Hrec. cbn [mbind outcome_bind].
  rewrite (checked_add_Ok 64 (p + Z.of_nat r)) by lia. cbn [mbind outcome_bind].
  rewrite checked_add_Ok by lia. cbn [mbind outcome_bind continue_with fst snd].
  split; [|lia].
  exists (l ++ [c]), todo, (pre ++ (noise_tok i <$> seqZ p (Z.of_nat r)) ++ [real_tok i c]).
  assert (Z.of_nat (length (l ++ [c])) = i + 1) as -> by (rewrite length_app; simpl; lia).
  assert (Z.of_nat (length (pre ++ (noise_tok i <$> seqZ p (Z.of_nat r)) ++ [real_tok i c]))
          = p + Z.of_nat r + 1) as ->.
  { rewrite !length_app, length_fmap, length_seqZ. simpl length. lia. }
  split_and!; [by rewrite <-app_assoc| |done]. rewrite Ht, <-!app_assoc. done.
Qed.

Lemma decrypt_body_v8 theta padded rest :
  let noise := λ p, is_noise_pos_v8 kb nonce p theta in
  let tokens := body noise 19 0 0 padded ++ rest in
  str_ok padded → Z.of_nat (length tokens) < 2 ^ 61 →
  while_loop 64 (decrypt_step_v8 key kb nonce theta (Z.of_nat (length padded)) tokens) ([], 0, 0)
  = Ok padded.
Proof using Hkey.
  intros noise tokens Hp Hn. pose proof (length_body noise 19 0 0 padded) as Hb.
  assert (Z.of_nat (length padded) < 2 ^ 61) as Hpl by (subst tokens; rewrite length_app in Hn; lia).
  eapply (while_loop_total 64 _ _ (λ s, Z.of_nat (length padded) - s.1.2) (λ r, r = Ok padded)).
  - intros s. by apply (decrypt_step_v8_body theta padded tokens rest s Hp Hn Hpl).
  - by exists [], padded, [].
  - intros s (l & todo & pre & -> & _ & ->). simpl. rewrite length_app. lia.
  - simpl. lia.
Qed.

(** Decoding never fails abnormally, whatever the tokens are. *)
Lemma decrypt_step_v8_safe theta real_count tokens s :
  Forall (fits 64) tokens → Z.of_nat (length tokens) < 2 ^ 61 → 0 ≤ real_count < 2 ^ 61 →
  let inv := λ s : list Z * Z * Z,
    s.1.2 = Z.of_nat (length s.1.1) ∧ s.1.2 ≤ real_count ∧ str_ok s.1.1 ∧
    0 ≤ s.2 ≤ Z.of_nat (length tokens) in
  inv s →
  match decrypt_step_v8 key kb nonce theta real_count tokens s with
  | inl s' => inv s' ∧ real_count - s'.1.2 < real_count - s.1.2
  | inr r => match r with
             | Ok l => str_ok l ∧ Z.of_nat (length l) = real_count
             | Err _ => True
             | Panic _ => False
             end
  end.
Proof using Hkey.
  destruct s as [[padded i] p]. intros Hts Hn Hrc inv (Hi & Hle & Hp & Hpos).
  cbn [fst snd] in *. unfold decrypt_step_v8.
  destruct (Z.ltb_spec i real_count) as [Hlt|Hge]; [|split; [done|lia]].
  rewrite skip_noise_spec by lia. set (r := run _ _ _). cbn [mbind outcome_bind].
  pose proof (run_le (λ x, (x <? Z.of_nat (length tokens)) && is_noise_pos_v8 kb nonce x theta) 19 p)
    as Hr. fold r in Hr.
  destruct (Z.leb_spec (Z.of_nat (length tokens)) (p + Z.of_nat r)); [done|].
  destruct (key_at_Ok key i Hkey ltac:(lia)) as [-> Hk]. cbn [mbind outcome_bind].
  destruct (derive_addend_cases kb nonce i (key_elem key i)) as (a & -> & _); [lia|].
  cbn [mbind outcome_bind].
  destruct (lookup_lt_is_Some_2 tokens (Z.to_nat (p + Z.of_nat r))) as [t Ht]; [lia|].
  rewrite Ht. cbn [expect mbind outcome_bind].
  assert (0 ≤ t) as Ht0 by (rewrite Forall_lookup in Hts; apply (Hts _ _ Ht)).
  pose proof (recover_codepoint_cases (V8MalformedToken (p + Z.of_nat r) (key_elem key i))
    (λ cp, V8NotScalar cp (p + Z.of_nat r)) t a (key_elem key i) Ht0 ltac:(lia)) as Hrec.
  destruct (recover_codepoint _ _ _ _ _) as [c|e|]; [|done..]. destruct Hrec as [Hc _].
  cbn [mbind outcome_bind].
  rewrite (checked_add_Ok 64 (p + Z.of_nat r)) by lia. cbn [mbind outcome_bind].
  rewrite checked_add_Ok by lia. cbn [mbind outcome_bind continue_with]. unfold inv. cbn [fst snd].
  rewrite length_app. simpl length.
  split; [split_and!; [lia|lia| |lia|lia]|lia]. apply Forall_app_2; [done|by constructor].
Qed.

Lemma decrypt_loop_v8_safe theta real_count tokens :
  Forall (fits 64) tokens → Z.of_nat (length tokens) < 2 ^ 61 → 0 ≤ real_count < 2 ^ 61 →
  match while_loop 64 (decrypt_step_v8 key kb nonce theta real_count tokens) ([], 0, 0) with
  | Ok l => str_ok l ∧ Z.of_nat (length l) = real_count
  | Err _ => True
  | Panic _ => False
  end.
Proof using Hkey.
  intros Hts Hn Hrc.
  apply (while_loop_total 64 _ _ (λ s, real_count - s.1.2)
    (λ r, match r with Ok l => str_ok l ∧ Z.of_nat (length l) = real_count
          | Err _ => True | Panic _ => False end)
    _ (λ s, decrypt_step_v8_safe theta real_count tokens s Hts Hn Hrc)).
  - split_and!; [done|simpl; lia|constructor|simpl; lia|simpl; lia].
  - intros s (_ & Hle & _). lia.
  - simpl. lia.
Qed.

(** ** The v7 stream *)

(** Every run of the stream ends before the guard. *)
Fixpoint runs_end (noise : Z → bool) (cap : nat) (p : Z) (padded : list Z) : Prop :=
  match padded with
  | [] => True
  | _ :: padded' =>
      (run noise cap p < cap)%nat ∧ runs_end noise cap (p + Z.of_nat (run noise cap p) + 1) padded'
  end.

Definition v7_cap : nat := Z.to_nat (V7_NOISE_RUN_GUARD + 1).

Lemma v7_cap_eq : Z.of_nat v7_cap = V7_NOISE_RUN_GUARD + 1.
Proof using Type. unfold v7_cap. rewrite Z2Nat.id; [done|]. unfold V7_NOISE_RUN_GUARD. lia. Qed.

Lemma emit_codepoint_v7_spec noise_p c cap rn st :
  is_scalar c = true → Z.of_nat cap + 1 + rn = V7_NOISE_RUN_GUARD + 1 → 0 ≤ rn →
  0 ≤ real_idx st → real_idx st + 1 < 2 ^ 64 → ct_pos st + Z.of_nat cap + 1 < 2 ^ 64 →
  let noise := λ p, is_noise_pos kb nonce p noise_p in
  let r := run noise (S cap) (ct_pos st) in
  emit_codepoint_v7 (S cap) key kb nonce noise_p c rn st
  = if bool_decide (r < S cap)%nat
    then Ok (EmitState (cypher st ++ group noise (S cap) (real_idx st) (ct_pos st) c)
               (real_idx st + 1) (ct_pos st + Z.of_nat r + 1))
    else Err NoiseRunAborted.
Proof using Hkey.
  intros Hc Hcap Hrn Hi Hi' Hp noise. revert rn st Hcap Hrn Hi Hi' Hp.
  induction cap as [|cap IH]; intros rn st Hcap Hrn Hi Hi' Hp;
    [|remember (S cap) as fuel eqn:Hfuel]; cbn [emit_codepoint_v7];
    [|subst fuel]; destruct (key_at_Ok key (real_idx st) Hkey Hi) as [-> _];
    cbn [mbind outcome_bind]; fold (noise (ct_pos st));
    destruct (real_token_Ok (real_idx st) c Hi Hc) as (Hreal & _);
    destruct (noise_token_Ok (real_idx st) (ct_pos st) Hi) as [Hnoise _];
    unfold group; cbn [run]; destruct (noise (ct_pos st)) eqn:Hn; cbn [negb];
    rewrite ?Hreal, ?Hnoise; cbn [mbind outcome_bind];
    rewrite (checked_add_Ok 64 (ct_pos st)) by lia; cbn [mbind outcome_bind];
    rewrite checked_add_Ok by (unfold V7_NOISE_RUN_GUARD in *; lia); cbn [mbind outcome_bind].
  - rewrite (proj2 (Z.ltb_lt _ _)) by lia. done.
  - rewrite bool_decide_eq_true_2 by lia. simpl. by rewrite Z.add_0_r.
  - rewrite (proj2 (Z.ltb_ge _ _)) by lia. rewrite IH by (cbn [real_idx ct_pos]; lia).
    cbn [real_idx ct_pos cypher]. unfold group. cbn [run]. set (r := run noise (S cap) (ct_pos st + 1)).
    change (if noise (ct_pos st + 1) then S (run noise cap (ct_pos st + 1 + 1)) else 0%nat) with r.
    assert (bool_decide (S r < S (S cap))%nat = bool_decide (r < S cap)%nat) as ->
      by (apply bool_decide_ext; lia).
    case_bool_decide; [|done]. do 2 f_equal; [|lia]. rewrite <-app_assoc. f_equal.
    rewrite <-(Nat2Z.id r) at 2. rewrite seqZ_run_cons by lia. done.
  - rewrite bool_decide_eq_true_2 by lia. simpl. by rewrite Z.add_0_r.
Qed.

Lemma emit_body_v7_spec noise_p padded st :
  str_ok padded → 0 ≤ real_idx st → 0 ≤ ct_pos st →
  real_idx st + Z.of_nat (length padded) < 2 ^ 64 →
  ct_pos st + 4097 * Z.of_nat (length padded) < 2 ^ 64 →
  let noise := λ p, is_noise_pos kb nonce p noise_p in
  match emit_body_v7 key kb nonce noise_p padded st with
  | Ok st' => cypher st' = cypher st ++ body noise v7_cap (real_idx st) (ct_pos st) padded ∧
      runs_end noise v7_cap (ct_pos st) padded
  | Err e => e = NoiseRunAborted ∧ ¬ runs_end noise v7_cap (ct_pos st) padded
  | Panic _ => False
  end.
Proof using Hkey.
  pose proof v7_cap_eq as Hcap. unfold V7_NOISE_RUN_GUARD in Hcap.
  intros Hp. revert st. induction Hp as [|c padded Hc _ IH]; intros st Hi Hpos Hi' Hpos';
    cbn [emit_body_v7 body runs_end].
  - by rewrite app_nil_r.
  - cbn [length] in *. set (noise := λ p, is_noise_pos kb nonce p noise_p). fold v7_cap.
    pose proof (run_le noise v7_cap (ct_pos st)) as Hle.
    destruct v7_cap as [|cap]; [lia|].
    rewrite emit_codepoint_v7_spec by (unfold V7_NOISE_RUN_GUARD; lia || done).
    fold noise. case_bool_decide as Hr; cbn [mbind outcome_bind]; [|split; [done|tauto]].
    specialize (IH (EmitState (cypher st ++ group noise (S cap) (real_idx st) (ct_pos st) c)
      (real_idx st + 1) (ct_pos st + Z.of_nat (run noise (S cap) (ct_pos st)) + 1))).
    cbn [real_idx ct_pos cypher] in IH. specialize (IH ltac:(lia) ltac:(lia) ltac:(lia) ltac:(lia)).
    destruct (emit_body_v7 _ _ _ _ _ _) as [st'|e|]; [|tauto|done].
    destruct IH as [-> Hend]. by rewrite <-app_assoc.
Qed.

Lemma decrypt_loop_v7_noise noise_p p i n ts acc f :
  (∀ j, p ≤ j < p + Z.of_nat n → is_noise_pos kb nonce j noise_p = true) →
  decrypt_loop_v7 key kb nonce noise_p p i ((f <$> seqZ p (Z.of_nat n)) ++ ts) acc
  = decrypt_loop_v7 key kb nonce noise_p (p + Z.of_nat n) i ts acc.
Proof using Type.
  revert p. induction n as [|n IH]; intros p Hj; [simpl; by rewrite Z.add_0_r|].
  rewrite Nat2Z.inj_succ, seqZ_cons, Z.pred_succ by lia. simpl.
  rewrite Hj by lia. simpl. rewrite <-!Z.add_1_r. rewrite IH by (intros; apply Hj; lia).
  f_equal. lia.
Qed.

Lemma decrypt_loop_v7_body noise_p i p padded acc :
  let noise := λ p, is_noise_pos kb nonce p noise_p in
  str_ok padded → 0 ≤ i → i + Z.of_nat (length padded) < 2 ^ 64 →
  runs_end noise v7_cap p padded →
  decrypt_loop_v7 key kb nonce noise_p p i (body noise v7_cap i p padded) acc = Ok (acc ++ padded).
Proof using Hkey.
  intros noise Hp. revert i p acc.
  induction Hp as [|c padded Hc _ IH]; intros i p acc Hi Hi' Hend;
    cbn [body runs_end length] in *; [by rewrite app_nil_r|].
  destruct Hend as [Hr Hend]. unfold group.
  pose proof (run_stop noise v7_cap p Hr) as Hstop.
  pose proof (run_noise noise v7_cap p) as Hnoise.
  set (r := run noise v7_cap p) in *.
  rewrite <-app_assoc, decrypt_loop_v7_noise by exact Hnoise.
  cbn [app decrypt_loop_v7]. unfold noise in Hstop. rewrite Hstop. cbn [negb].
  destruct (key_at_Ok key i Hkey ltac:(lia)) as [-> _]. cbn [mbind outcome_bind].
  destruct (real_token_Ok i c ltac:(lia) Hc) as (_ & _ & a & -> & Hrec). cbn [mbind outcome_bind].
  rewrite Hrec. cbn [mbind outcome_bind]. rewrite checked_add_Ok by lia. cbn [mbind outcome_bind].
  rewrite IH by (done || lia). by rewrite <-app_assoc.
Qed.

Lemma decrypt_loop_v7_safe noise_p p i ts acc :
  Forall (fits 64) ts → str_ok acc → 0 ≤ i → i + Z.of_nat (length ts) < 2 ^ 64 →
  match decrypt_loop_v7 key kb nonce noise_p p i ts acc with
  | Ok l => str_ok l
  | Err _ => True
  | Panic _ => False
  end.
Proof using Hkey.
  intros Hts. revert p i acc. induction Hts as [|t ts [Ht _] _ IH]; intros p i acc Hacc Hi Hi';
    [done|]. cbn [decrypt_loop_v7 length] in *.
  destruct (is_noise_pos kb nonce p noise_p); cbn [negb]; [apply IH; (done || lia)|].
  destruct (key_at_Ok key i Hkey ltac:(lia)) as [-> Hk]. cbn [mbind outcome_bind].
  destruct (derive_addend_cases kb nonce i (key_elem key i)) as (a & -> & _); [lia|].
  cbn [mbind outcome_bind].
  pose proof (recover_codepoint_cases (V7MalformedToken p (key_elem key i))
    (λ cp, V7NotScalar cp p) t a (key_elem key i) Ht ltac:(lia)) as Hrec.
  destruct (recover_codepoint _ _ _ _ _) as [c|e|]; [|done..]. destruct Hrec as [Hc _].
  cbn [mbind outcome_bind]. rewrite checked_add_Ok by lia. cbn [mbind outcome_bind].
  apply IH; [|lia..]. apply Forall_app_2; [done|by constructor].
Qed.

End emission.

(** ** Token counts *)

Lemma legal_real_count_spec n :
  0 ≤ n < 2 ^ 64 → legal_real_count n = true ↔ ∃ e, 4 ≤ e ≤ 16 ∧ n = 2 ^ e + 2.
Proof.
  intros Hn. unfold legal_real_count, PAD_MIN_EXP, PAD_MAX_EXP. split.
  - destruct (Z.ltb_spec n 2); [done|]. intros Hl. reflect_bools.
    assert (n - 2 = 2 ^ Z.log2 (n - 2)) as Hp by (by apply is_power_of_two_spec).
    assert (0 < n - 2) by (unfold is_power_of_two in *; reflect_bools; lia).
    pose proof (Z.log2_nonneg (n - 2)).
    assert (Z.log2 (n - 2) < 64) by (apply Z.log2_lt_pow2; lia).
    assert (trailing_zeros 64 (n - 2) = Z.log2 (n - 2)) as Htz.
    { rewrite Hp at 1. apply trailing_zeros_pow. lia. }
    exists (Z.log2 (n - 2)). lia.
  - intros (e & He & ->). rewrite (proj2 (Z.ltb_ge _ _)) by lia. rewrite Z.add_simpl_r.
    rewrite is_power_of_two_pow, trailing_zeros_pow by lia.
    rewrite (proj2 (Z.leb_le 4 e)), (proj2 (Z.leb_le e 16)) by lia. done.
Qed.

Section cores.
Context `{Crypto} (key : list Z) (kb nonce : list byte) (Hkey : arith_key key).

Lemma decrypt_emit_v8_spec padded e :
  str_ok padded → 4 ≤ e ≤ 16 → Z.of_nat (length padded) = 2 ^ e + 2 →
  ∃ tokens, emit_tokens_v8 padded key kb nonce = Ok tokens ∧
    Z.of_nat (length tokens) = 20 * (2 ^ e + 2) ∧ Forall (fits 64) tokens ∧
    decrypt_core_v8 nonce tokens key kb = unpad_message padded.
Proof using Hkey.
  intros Hp He Hlen.
  assert (2 ^ e ≤ 2 ^ 16) by (apply Z.pow_le_mono_r; lia).
  destruct (emit_tokens_v8_spec key kb nonce Hkey padded Hp) as (theta & b & tail & Ht & Hb & Hemit & Hl & Hf);
    [lia|].
  exists (b ++ tail). split_and!; [done|by rewrite Hl, Hlen|done|].
  unfold decrypt_core_v8, MAX_NOISE_RUN. rewrite checked_add_Ok by lia. rewrite bind_Ok.
  rewrite Hl. change (19 + 1) with 20.
  replace (20 * Z.of_nat (length padded)) with (Z.of_nat (length padded) * 20) by lia.
  rewrite Z.mod_mul by lia. cbn [Z.eqb negb].
  rewrite checked_div_Ok, bind_Ok by lia. rewrite Z.div_mul by lia.
  rewrite (proj2 (legal_real_count_spec (Z.of_nat (length padded)) ltac:(lia))) by eauto.
  cbn [negb]. rewrite Ht, bind_Ok. subst b.
  rewrite decrypt_body_v8 by (done || lia). by rewrite bind_Ok.
Qed.

Lemma no_panic_unpad padded : no_panic (unpad_message padded).
Proof using Type.
  unfold unpad_message. destruct padded as [|hi [|lo rest]]; try done. by repeat case_if.
Qed.

Lemma unpad_message_scalar padded msg :
  str_ok padded → unpad_message padded = Ok msg → str_ok msg.
Proof using Type.
  unfold unpad_message. destruct padded as [|hi [|lo rest]]; try done. intros Hp.
  apply Forall_cons_1 in Hp as [_ Hp]. apply Forall_cons_1 in Hp as [_ Hp].
  repeat case_if; try done. intros [= <-]. by apply Forall_take.
Qed.

Lemma decrypt_core_v8_cases tokens :
  Forall (fits 64) tokens → Z.of_nat (length tokens) < 2 ^ 61 →
  match decrypt_core_v8 nonce tokens key kb with
  | Ok msg => str_ok msg ∧ ∃ e, 4 ≤ e ≤ 16 ∧ Z.of_nat (length tokens) = 20 * (2 ^ e + 2)
  | Err _ => True
  | Panic _ => False
  end.
Proof using Hkey.
  intros Hts Hn. unfold decrypt_core_v8, MAX_NOISE_RUN. rewrite checked_add_Ok by lia. rewrite bind_Ok.
  change (19 + 1) with 20. set (n := Z.of_nat (length tokens)) in *.
  destruct (Z.eqb_spec (n mod 20) 0) as [Hm|]; [|done]. cbn [negb].
  rewrite checked_div_Ok, bind_Ok by lia.
  pose proof (Z.div_mod n 20 ltac:(lia)) as Hdiv. rewrite Hm, Z.add_0_r in Hdiv.
  destruct (legal_real_count (n / 20)) eqn:Hl; [|done]. cbn [negb].
  apply legal_real_count_spec in Hl as (e & He & Hc); [|lia].
  destruct (theta_cases kb nonce) as (theta & -> & _). rewrite bind_Ok.
  pose proof (decrypt_loop_v8_safe key kb nonce Hkey theta (n / 20) tokens Hts Hn ltac:(lia)) as Hsafe.
  destruct (while_loop _ _ _) as [padded|err|]; [|done|done]. destruct Hsafe as [Hok _].
  rewrite bind_Ok. pose proof (no_panic_unpad padded) as Hnp.
  destruct (unpad_message padded) as [msg|err|] eqn:Hu; [|done|done].
  split; [by eapply unpad_message_scalar|]. exists e. split; [done|]. by rewrite Hdiv, Hc.
Qed.

Lemma decrypt_emit_v7_spec padded :
  str_ok padded → Z.of_nat (length padded) < 2 ^ 32 →
  match emit_tokens_v7 padded kb nonce (derive_noise_p kb nonce) key with
  | Ok tokens => Forall (fits 64) tokens ∧
      (length padded ≤ length tokens ≤ 4098 * length padded)%nat ∧
      decrypt_core nonce tokens key kb = unpad_message padded
  | Err e => e = NoiseRunAborted
  | Panic _ => False
  end.
Proof using Hkey.
  intros Hp Hlen. unfold emit_tokens_v7, decrypt_core.
  set (noise_p := derive_noise_p kb nonce).
  pose proof (emit_body_v7_spec key kb nonce Hkey noise_p padded (EmitState [] 0 0) Hp) as Hs.
  cbn [real_idx ct_pos cypher app] in Hs. specialize (Hs ltac:(lia) ltac:(lia) ltac:(lia) ltac:(lia)).
  destruct (emit_body_v7 _ _ _ _ _ _) as [st|e|]; [|tauto|done].
  cbn [mbind outcome_bind]. destruct Hs as [-> Hend]. split_and!.
  - by apply body_fits.
  - apply length_body.
  - pose proof (length_body key kb nonce (λ p, is_noise_pos kb nonce p noise_p) v7_cap 0 0 padded) as Hb.
    pose proof v7_cap_eq as Hc. unfold V7_NOISE_RUN_GUARD in Hc.
    change (4098 * length padded)%nat with (S 4097 * length padded)%nat.
    assert (v7_cap = 4097%nat) as Hc' by lia. rewrite <-Hc'. apply Hb.
  - rewrite decrypt_loop_v7_body by (done || lia). done.
Qed.

Lemma decrypt_core_v7_cases tokens :
  Forall (fits 64) tokens → Z.of_nat (length tokens) < 2 ^ 64 →
  match decrypt_core nonce tokens key kb with
  | Ok msg => str_ok msg
  | Err _ => True
  | Panic _ => False
  end.
Proof using Hkey.
  intros Hts Hn. unfold decrypt_core.
  pose proof (decrypt_loop_v7_safe key kb nonce Hkey (derive_noise_p kb nonce) 0 0 tokens [] Hts) as Hs.
  specialize (Hs ltac:(constructor) ltac:(lia) ltac:(lia)).
  destruct (decrypt_loop_v7 _ _ _ _ _ _ _ _) as [padded|e|]; [|done|done].
  cbn [mbind outcome_bind]. pose proof (no_panic_unpad padded) as Hnp.
  destruct (unpad_message padded) as [msg|err|] eqn:Hu; [|done|done].
  by eapply unpad_message_scalar.
Qed.
End cores.

(** ** Properties *)

(** A valid key for worked examples. *)
Definition sample_key : list Z := [1000003; 1000033; 1000037; 1000039].

Lemma sample_key_valid : valid_key sample_key.
Proof.
  pose proof (validate_key_cases sample_key ltac:(repeat constructor; lia)) as H.
  assert (validate_key sample_key = Ok tt) as Heq by (vm_compute; reflexivity).
  by rewrite Heq in H.
Qed.

Lemma sample_key_arith : arith_key sample_key.
Proof. apply valid_key_arith, sample_key_valid. Qed.

(** The fixed-width token encoding is a bijection between lists of 64-bit
    tokens and blobs whose length is a multiple of 8: decoding inverts encoding,
    every blob decodes to the only token list that encodes to it, any other
    length is refused, and the encoded length is 8 bytes per token whatever the
    values. *)
Theorem fixed_encode_tokens_bijective :
  (∀ ts, Forall (fits 64) ts → fixed_decode_tokens (fixed_encode_tokens ts) = Ok ts) ∧
  (∀ ts, length (fixed_encode_tokens ts) = (8 * length ts)%nat) ∧
  (∀ data, match fixed_decode_tokens data with
    | Ok ts => data = fixed_encode_tokens ts ∧ Forall (fits 64) ts
    | Err e => e = BlobNotMultiple (Z.of_nat (length data)) ∧ (length data mod 8 ≠ 0)%nat
    | Panic _ => False
    end).
Proof.
  split_and!; [exact fixed_decode_encode|exact length_fixed_encode_tokens|exact fixed_decode_cases].
Qed.

(** On a valid key and a padded block of a legal size the v8 emission
    succeeds without overflow or out-of-range access, emits exactly
    [MAX_NOISE_RUN + 1] tokens per padded codepoint independently of the message,
    key, nonce and noise, each a 64-bit value; and the v8 decoder run on that
    stream recovers the padded block exactly, then unpads it. *)
Theorem decrypt_core_v8_emit_roundtrip `{Crypto} key kb nonce padded e :
  valid_key key → str_ok padded → 4 ≤ e ≤ 16 → Z.of_nat (length padded) = 2 ^ e + 2 →
  ∃ tokens, emit_tokens_v8 padded key kb nonce = Ok tokens ∧
    Z.of_nat (length tokens) = (MAX_NOISE_RUN + 1) * (2 ^ e + 2) ∧ Forall (fits 64) tokens ∧
    decrypt_core_v8 nonce tokens key kb = unpad_message padded.
Proof. intros Hkey ? He Hl. by apply (decrypt_emit_v8_spec key kb nonce (valid_key_arith _ Hkey) padded e). Qed.

Lemma decrypt_core_v8_emit_roundtrip_witness :
  let _ := Toy.crypto in
  let padded := [0; 1] ++ [65] ++ replicate 15 32 in
  valid_key sample_key ∧ 4 ≤ 4 ≤ 16 ∧
  ∃ tokens, emit_tokens_v8 padded sample_key [x01] [x02] = Ok tokens ∧
    Z.of_nat (length tokens) = (MAX_NOISE_RUN + 1) * (2 ^ 4 + 2) ∧ Forall (fits 64) tokens ∧
    decrypt_core_v8 [x02] tokens sample_key [x01] = unpad_message padded.
Proof.
  intros C padded. split; [apply sample_key_valid|split; [lia|]].
  apply (decrypt_core_v8_emit_roundtrip sample_key [x01] [x02] padded 4);
    [apply sample_key_valid|repeat constructor|lia|reflexivity].
Defined.

(** The v8 decoder is total: on any list of 64-bit tokens, however
    malformed, it ends without overflow, division by zero or out-of-range
    access, with an error or with a list of Unicode scalar values, and it
    returns a message only for one of the 13 legal token counts. *)
Theorem decrypt_core_v8_total `{Crypto} key kb nonce tokens :
  valid_key key → Forall (fits 64) tokens → Z.of_nat (length tokens) < 2 ^ 61 →
  match decrypt_core_v8 nonce tokens key kb with
  | Ok msg => str_ok msg ∧
      ∃ e, PAD_MIN_EXP ≤ e ≤ PAD_MAX_EXP ∧
        Z.of_nat (length tokens) = (MAX_NOISE_RUN + 1) * (2 ^ e + 2)
  | Err _ => True
  | Panic _ => False
  end.
Proof. intros Hkey. apply (decrypt_core_v8_cases key kb nonce (valid_key_arith _ Hkey)). Qed.

Lemma decrypt_core_v8_total_witness :
  let _ := Toy.crypto in
  valid_key sample_key ∧ Forall (fits 64) (replicate 360 5) ∧
  match decrypt_core_v8 [x02] (replicate 360 5) sample_key [x01] with
  | Ok msg => str_ok msg ∧
      ∃ e, PAD_MIN_EXP ≤ e ≤ PAD_MAX_EXP ∧
        Z.of_nat (length (replicate 360 5)) = (MAX_NOISE_RUN + 1) * (2 ^ e + 2)
  | Err _ => True
  | Panic _ => False
  end.
Proof.
  intros C.
  assert (Forall (fits 64) (replicate 360 5)) as Hf
    by (apply Forall_replicate; unfold fits; lia).
  split; [apply sample_key_valid|split; [exact Hf|]].
  apply decrypt_core_v8_total;
    [apply sample_key_valid|exact Hf|rewrite length_replicate; lia].
Defined.

(** The v7 emission, under every key the v7 decryptors accept, either
    refuses a noise run longer than its guard or produces 64-bit tokens from
    which the v7 decoder recovers exactly the padded block; it never overflows
    and the guard bounds the stream length. *)
Theorem decrypt_core_emit_v7_roundtrip `{Crypto} key kb nonce padded :
  valid_key_v7 key → str_ok padded → Z.of_nat (length padded) < 2 ^ 32 →
  match emit_tokens_v7 padded kb nonce (derive_noise_p kb nonce) key with
  | Ok tokens => Forall (fits 64) tokens ∧
      (length padded ≤ length tokens ≤ 4098 * length padded)%nat ∧
      decrypt_core nonce tokens key kb = unpad_message padded
  | Err e => e = NoiseRunAborted
  | Panic _ => False
  end.
Proof. intros Hkey. apply (decrypt_emit_v7_spec key kb nonce (valid_key_v7_arith _ Hkey)). Qed.

Lemma decrypt_core_emit_v7_roundtrip_witness :
  let _ := Toy.crypto in
  let key := [7; 12] in
  valid_key_v7 key ∧ str_ok [0; 1; 65] ∧
  match emit_tokens_v7 [0; 1; 65] [x01] [x02] (derive_noise_p [x01] [x02]) key with
  | Ok tokens => Forall (fits 64) tokens ∧
      (length [0; 1; 65] ≤ length tokens ≤ 4098 * length [0; 1; 65])%nat ∧
      decrypt_core [x02] tokens key [x01] = unpad_message [0; 1; 65]
  | Err e => e = NoiseRunAborted
  | Panic _ => False
  end.
Proof.
  intros C key.
  assert (valid_key_v7 key) as Hk.
  { split_and!; [done|simpl; unfold MAX_KEY_ELEMENTS; lia| |].
    - repeat constructor; unfold MAX_SERIALISABLE_KEY_PRIME; lia.
    - by apply (bool_decide_unpack _). }
  split; [exact Hk|split; [repeat constructor|]].
  apply (decrypt_core_emit_v7_roundtrip key [x01] [x02] [0; 1; 65]);
    [exact Hk|repeat constructor|simpl; lia].
Defined.
