(* ===== verification/BlockV8.v ===== *)
(** * The v8 block format ([lib.rs], [key.rs])

    [nonce (16) || masked tokens || tag (32)]: encryption with a synthetic nonce,
    authenticated decryption, and the public entry points over them. *)
From Stdlib Require Import ZArith Lia Strings.Byte.
From stdpp Require Import base tactics option numbers list.
From S2P Require Import Prelude Machine Errors Crates Post Primes Keys Derive Padding Tokens.

#[local] Open Scope Z_scope.
#[local] Open Scope napqes_scope.

Section block.
Context `{Crypto}.

Definition ct_eq_bytes (a b : list byte) : bool := ct_eq a b.

(** ** Encryption *)

Definition encrypt_bytes_v8_core_inner (sk_fmt : list byte) (message primes : list Z)
    (aad : list byte) (pad_profile : PadProfile) : outcome error (list byte) :=
  nonce ← synthetic_nonce sk_fmt aad (as_bytes message);
  let codepoints := message in
  let n := Z.of_nat (length codepoints) in
  if MAX_PLAINTEXT_CODEPOINTS <? n then Err (MessageTooLong n)
  else
    b ← block_size pad_profile n;
    padded ← pad_to_block codepoints sk_fmt nonce b;
    cypher ← emit_tokens_v8 padded primes sk_fmt nonce;
    let blob := fixed_encode_tokens cypher in
    ks ← varint_keystream sk_fmt nonce (length blob);
    let masked := xor_bytes blob ks in
    let payload := nonce ++ masked in
    tag ← compute_auth_tag sk_fmt aad payload AAD_LEN_WIDTH_V8;
    Ok (payload ++ tag).

Definition encrypt_bytes_v8_core (message primes : list Z) (sk aad : list byte)
    (pad_profile : PadProfile) : outcome error (list byte) :=
  encrypt_bytes_v8_core_inner (derive_format_subkey sk FORMAT_BLOCK_V8) message primes aad pad_profile.

(** ** Decryption *)

Definition decrypt_bytes_v8_core_inner (sk_fmt ciphertext : list byte) (primes : list Z)
    (aad : list byte) : outcome error (list Z) :=
  split ← Z.of_nat (length ciphertext) -! Z.of_nat TAG_SIZE;
  payload ← index_range 0 (Z.to_nat split) ciphertext;
  recv_tag ← index_range (Z.to_nat split) (length ciphertext) ciphertext;
  calc_tag ← compute_auth_tag sk_fmt aad payload AAD_LEN_WIDTH_V8;
  if negb (ct_eq_bytes recv_tag calc_tag) then Err AuthenticationFailed
  else
    nonce ← index_range 0 NONCE_SIZE payload;
    masked ← index_range NONCE_SIZE (length payload) payload;
    ks ← varint_keystream sk_fmt nonce (length masked);
    let blob := xor_bytes masked ks in
    tokens ← map_err VarintDecode (fixed_decode_tokens blob);
    codepoints ← decrypt_core_v8 nonce tokens primes sk_fmt;
    collect (λ c, opt_or (char_from_u32 c) (V8PlaintextNotScalar c)) codepoints.

Definition decrypt_bytes_v8_core (ciphertext : list byte) (primes : list Z) (sk aad : list byte)
    : outcome error (list Z) :=
  let len := Z.of_nat (length ciphertext) in
  if len <? Z.of_nat NONCE_SIZE + Z.of_nat TAG_SIZE then Err (CiphertextTooShort len)
  else
    l1 ← len -! Z.of_nat NONCE_SIZE;
    blob_len ← l1 -! Z.of_nat TAG_SIZE;
    unit ← MAX_NOISE_RUN +64 1;
    stride ← Z.of_nat TOKEN_WIDTH *64 unit;
    r ← blob_len %! stride;
    if negb (r =? 0) then Err V8NotCeilingMultiple
    else decrypt_bytes_v8_core_inner (derive_format_subkey sk FORMAT_BLOCK_V8) ciphertext primes aad.

(** The tag of a payload under [sk] (KAT-6). *)
Definition retag_block_v8 (payload sk aad : list byte) : outcome error (list byte) :=
  compute_auth_tag (derive_format_subkey sk FORMAT_BLOCK_V8) aad payload AAD_LEN_WIDTH_V8.

(** ** Entry points *)

Context `{Gate}.

Definition encrypt_bytes_v8_with_profile (message primes : list Z) (sk aad : list byte)
    (pad_profile : PadProfile) : outcome error (list byte) :=
  _ ← gated;
  _ ← validate_key primes;
  encrypt_bytes_v8_core message primes sk aad pad_profile.

Definition encrypt_bytes_v8 (message primes : list Z) (sk aad : list byte)
    : outcome error (list byte) :=
  encrypt_bytes_v8_with_profile message primes sk aad Bucket.

Definition decrypt_bytes_v8 (ciphertext : list byte) (primes : list Z) (sk aad : list byte)
    : outcome error (list Z) :=
  _ ← gated;
  _ ← validate_key primes;
  decrypt_bytes_v8_core ciphertext primes sk aad.

Definition encrypt_bytes_v8_key (message : list Z) (key : NapqesKey) (aad : list byte)
    : outcome error (list byte) :=
  _ ← gated;
  encrypt_bytes_v8_core message (primes key) (sk key) aad Bucket.

Definition decrypt_bytes_v8_key (ciphertext : list byte) (key : NapqesKey) (aad : list byte)
    : outcome error (list Z) :=
  _ ← gated;
  decrypt_bytes_v8_core ciphertext (primes key) (sk key) aad.

Definition encrypt_bytes_v8_with_profile_key (message : list Z) (key : NapqesKey) (aad : list byte)
    (pad_profile : PadProfile) : outcome error (list byte) :=
  _ ← gated;
  encrypt_bytes_v8_core message (primes key) (sk key) aad pad_profile.
End block.

(** ** The layout of a block ciphertext *)

(** [ciphertext = nonce ++ masked ++ tag]. *)
Lemma block_layout (c : list byte) :
  (48 ≤ length c)%nat →
  ∃ nonce masked tag, c = (nonce ++ masked) ++ tag ∧ length nonce = 16%nat ∧ length tag = 32%nat ∧
    length masked = (length c - 48)%nat.
Proof.
  intros Hl. exists (take 16 c), (take (length c - 48) (drop 16 c)), (drop (length c - 32) c).
  split_and!; rewrite ?length_take, ?length_drop; try lia.
  rewrite <-(take_drop (length c - 32) c) at 1. f_equal.
  replace (length c - 32)%nat with (16 + (length c - 48))%nat by lia. by rewrite take_take_drop.
Qed.

(** What the tag of a block ciphertext covers: the domain byte, the nonce, the associated
    data behind its length, and the masked tokens. *)
Definition block_covered (c aad : list byte) : list byte :=
  let payload := take (length c - TAG_SIZE) c in
  x03 :: take NONCE_SIZE payload ++ to_be_bytes 8 (Z.of_nat (length aad)) ++ aad ++ drop NONCE_SIZE payload.

(** Equal coverings are of equal payloads and equal associated data. *)
Lemma block_covered_inj payload payload' tag tag' aad aad' :
  length tag = TAG_SIZE → length tag' = TAG_SIZE →
  (NONCE_SIZE ≤ length payload)%nat → (NONCE_SIZE ≤ length payload')%nat →
  fits 64 (Z.of_nat (length aad)) → fits 64 (Z.of_nat (length aad')) →
  block_covered (payload ++ tag) aad = block_covered (payload' ++ tag') aad' → payload = payload' ∧ aad = aad'.
Proof.
  unfold block_covered. intros Ht Ht' Hn Hn' Ha Ha' Heq.
  rewrite !length_app, Ht, Ht', !Nat.add_sub, !take_app_length in Heq. apply cons_eq in Heq as [_ Heq].
  apply app_inj_1 in Heq as [Hnonce Heq]; [|rewrite !length_take; lia].
  apply app_inj_1 in Heq as [Hl Heq]; [|by rewrite !length_to_be_bytes].
  apply to_be_bytes_inj in Hl; [|exact Ha|exact Ha'].
  apply app_inj_1 in Heq as [-> Hm]; [|lia]. split; [|done].
  by rewrite <-(take_drop NONCE_SIZE payload), <-(take_drop NONCE_SIZE payload'), Hnonce, Hm.
Qed.

Section inner.
Context `{Crypto} (sk_fmt : list byte) (primes : list Z) (aad : list byte).

Definition auth_input (nonce aad masked : list byte) : list byte :=
  hmac_input x03 nonce (to_be_bytes 8 (Z.of_nat (length aad)) ++ aad ++ masked).

Lemma block_covered_layout nonce masked tag :
  length nonce = NONCE_SIZE → length tag = TAG_SIZE →
  block_covered ((nonce ++ masked) ++ tag) aad = auth_input nonce aad masked.
Proof using Type.
  intros Hn Ht. unfold block_covered. rewrite (length_app (nonce ++ masked)), Ht, Nat.add_sub, take_app_length.
  by rewrite take_app_length', drop_app_length' by done.
Qed.

Lemma compute_auth_tag_v8 nonce masked :
  length nonce = NONCE_SIZE →
  compute_auth_tag sk_fmt aad (nonce ++ masked) AAD_LEN_WIDTH_V8
  = Ok (hmac_digest sk_fmt (auth_input nonce aad masked)).
Proof using Type. intros Hn. by apply compute_auth_tag_eq. Qed.

Lemma decrypt_inner_layout nonce masked tag :
  length nonce = NONCE_SIZE → length tag = TAG_SIZE →
  Z.of_nat (length masked) ≤ 2 ^ 36 →
  decrypt_bytes_v8_core_inner sk_fmt ((nonce ++ masked) ++ tag) primes aad
  = if bool_decide (tag = hmac_digest sk_fmt (auth_input nonce aad masked))
    then tokens ← map_err VarintDecode (fixed_decode_tokens (mask sk_fmt nonce masked));
         codepoints ← decrypt_core_v8 nonce tokens primes sk_fmt;
         collect (λ c, opt_or (char_from_u32 c) (V8PlaintextNotScalar c)) codepoints
    else Err AuthenticationFailed.
Proof using Type.
  intros Hn Ht Hm. unfold NONCE_SIZE, TAG_SIZE in *. unfold decrypt_bytes_v8_core_inner.
  assert (Z.of_nat (length ((nonce ++ masked) ++ tag)) - Z.of_nat TAG_SIZE
          = Z.of_nat (length (nonce ++ masked))) as Hlen
    by (rewrite length_app; unfold TAG_SIZE; lia).
  rewrite checked_sub_Ok, bind_Ok by (unfold TAG_SIZE; rewrite length_app; lia).
  rewrite Hlen, Nat2Z.id.
  bind_ok (apply index_range_Ok; rewrite ?length_app; lia).
  bind_ok (apply index_range_Ok; rewrite ?length_app; lia).
  assert (slice 0 (length (nonce ++ masked)) ((nonce ++ masked) ++ tag) = nonce ++ masked) as ->
    by (unfold slice; by rewrite Nat.sub_0_r, drop_0, take_app_length).
  assert (slice (length (nonce ++ masked)) (length ((nonce ++ masked) ++ tag)) ((nonce ++ masked) ++ tag)
          = tag) as ->.
  { unfold slice. rewrite drop_app_length, length_app. apply firstn_all2. lia. }
  rewrite compute_auth_tag_v8, bind_Ok by done. unfold ct_eq_bytes.
  destruct (ct_eq tag _) eqn:Heq.
  - apply ct_eq_spec in Heq. rewrite bool_decide_eq_true_2 by done. cbn [negb].
    bind_ok (apply index_range_Ok; unfold NONCE_SIZE; rewrite ?length_app; lia).
    bind_ok (apply index_range_Ok; unfold NONCE_SIZE; rewrite ?length_app; lia).
    assert (slice 0 NONCE_SIZE (nonce ++ masked) = nonce) as ->
      by (unfold slice; by rewrite Nat.sub_0_r, drop_0, take_app_length').
    assert (slice NONCE_SIZE (length (nonce ++ masked)) (nonce ++ masked) = masked) as ->.
    { unfold slice. rewrite drop_app_length' by done. apply firstn_all2. rewrite length_app; unfold NONCE_SIZE; lia. }
    rewrite varint_keystream_Ok, bind_Ok by lia. done.
  - rewrite bool_decide_eq_false_2; [done|]. intros Htag.
    apply (proj2 (ct_eq_spec _ _)) in Htag. congruence.
Qed.

Lemma collect_scalars codepoints :
  str_ok codepoints →
  collect (λ c, opt_or (char_from_u32 c) (V8PlaintextNotScalar c)) codepoints
  = Ok codepoints.
Proof using Type.
  intros Hc. rewrite (collect_Ok _ (λ c, c)); [by rewrite list_fmap_id|].
  intros c Hin. unfold char_from_u32. unfold str_ok in Hc. rewrite Forall_forall in Hc.
  by rewrite (Hc c Hin).
Qed.
End inner.

Section format.
Context `{Crypto} (primes : list Z) (Hkey : arith_key primes).

(** What a successful encryption is made of. *)
Lemma encrypt_inner_Ok sk_fmt message aad p B :
  str_ok message → profile_fits p → block_size p (Z.of_nat (length message)) = Ok B →
  ∃ nonce masked,
    encrypt_bytes_v8_core_inner sk_fmt message primes aad p
    = Ok ((nonce ++ masked) ++ hmac_digest sk_fmt (auth_input nonce aad masked)) ∧
    length nonce = NONCE_SIZE ∧ Z.of_nat (length masked) = 160 * (B + 2) ∧ B ≤ 2 ^ 16 ∧
    decrypt_bytes_v8_core_inner sk_fmt
      ((nonce ++ masked) ++ hmac_digest sk_fmt (auth_input nonce aad masked)) primes aad = Ok message.
Proof using Hkey.
  intros Hmsg Hp HB.
  destruct (block_size_bound p (Z.of_nat (length message)) B ltac:(lia) Hp HB) as ([HnB HB16] & Hn & _).
  assert (∃ e, 4 ≤ e ≤ 16 ∧ B = 2 ^ e) as (e & He & HBe).
  { pose proof (block_size_cases p (Z.of_nat (length message)) ltac:(unfold fits; lia) Hp) as Hc.
    rewrite HB in Hc. destruct Hc as (e & -> & He & _). eauto. }
  destruct (synthetic_nonce_cases sk_fmt aad (as_bytes message)) as (nonce & Hnonce & Hnl).
  set (padded := padded_block message sk_fmt nonce B).
  assert (Z.of_nat (length padded) = B + 2) as Hpl by (apply length_padded_block; lia).
  destruct (decrypt_emit_v8_spec primes sk_fmt nonce Hkey padded e) as (tokens & Hemit & Htl & Hf & Hdec);
    [by apply padded_block_scalar|done|by rewrite Hpl, HBe|].
  set (masked := mask sk_fmt nonce (fixed_encode_tokens tokens)).
  assert (Z.of_nat (length masked) = 160 * (B + 2)) as Hml.
  { unfold masked. rewrite length_mask, length_fixed_encode_tokens. lia. }
  exists nonce, masked. split_and!; [|done|done|done|].
  - unfold encrypt_bytes_v8_core_inner. rewrite Hnonce, bind_Ok.
    rewrite (proj2 (Z.ltb_ge _ _)) by (unfold MAX_PLAINTEXT_CODEPOINTS; lia).
    rewrite HB, bind_Ok. rewrite pad_to_block_Ok, bind_Ok by done. fold padded.
    rewrite Hemit, bind_Ok. rewrite varint_keystream_Ok, bind_Ok.
    + fold (mask sk_fmt nonce (fixed_encode_tokens tokens)). fold masked.
      rewrite compute_auth_tag_v8, bind_Ok by done. done.
    + rewrite length_fixed_encode_tokens. lia.
  - rewrite decrypt_inner_layout by (rewrite ?length_hmac_digest; done || lia).
    rewrite bool_decide_eq_true_2 by done. unfold masked. rewrite mask_involutive.
    rewrite fixed_decode_encode by done. cbn [map_err]. rewrite bind_Ok, Hdec.
    unfold padded. rewrite unpad_padded_block by lia. rewrite bind_Ok. by apply collect_scalars.
Qed.

Lemma encrypt_inner_refused sk_fmt message aad p :
  (∀ B, block_size p (Z.of_nat (length message)) ≠ Ok B) →
  encrypt_bytes_v8_core_inner sk_fmt message primes aad p
  = if MAX_PLAINTEXT_CODEPOINTS <? Z.of_nat (length message)
    then Err (MessageTooLong (Z.of_nat (length message)))
    else _ ← block_size p (Z.of_nat (length message)); Ok [].
Proof using Type.
  intros HB. unfold encrypt_bytes_v8_core_inner.
  destruct (synthetic_nonce_cases sk_fmt aad (as_bytes message)) as (nonce & -> & _).
  rewrite bind_Ok. case_if; [done|].
  destruct (block_size p (Z.of_nat (length message))) as [B|err|]; [by destruct (HB B)|done..].
Qed.

(** A message of [2 ^ 16] codepoints or more is refused before its block size is looked up. *)
Lemma encrypt_core_long sk message aad p :
  profile_fits p → 2 ^ 16 ≤ Z.of_nat (length message) →
  encrypt_bytes_v8_core message primes sk aad p = Err (MessageTooLong (Z.of_nat (length message))).
Proof using Type.
  intros Hp Hn. unfold encrypt_bytes_v8_core. rewrite encrypt_inner_refused.
  - by rewrite (proj2 (Z.ltb_lt _ _)) by (unfold MAX_PLAINTEXT_CODEPOINTS; lia).
  - intros B HB. destruct (block_size_bound p (Z.of_nat (length message)) B ltac:(lia) Hp HB) as (_ & Hlt & _). lia.
Qed.

Lemma encrypt_core_cases sk message aad p :
  str_ok message → profile_fits p →
  let n := Z.of_nat (length message) in
  match encrypt_bytes_v8_core message primes sk aad p with
  | Ok c => ∃ B, block_size p n = Ok B ∧ Z.of_nat (length c) = 48 + 160 * (B + 2) ∧
      decrypt_bytes_v8_core c primes sk aad = Ok message
  | Err e => (e = MessageTooLong n ∧ MAX_PLAINTEXT_CODEPOINTS < n) ∨ block_size p n = Err e
  | Panic _ => False
  end.
Proof using Hkey.
  intros Hmsg Hp n. unfold encrypt_bytes_v8_core.
  set (sk_fmt := derive_format_subkey sk FORMAT_BLOCK_V8).
  destruct (block_size p n) as [B|err|pc] eqn:HB.
  - destruct (encrypt_inner_Ok sk_fmt message aad p B Hmsg Hp HB) as
      (nonce & masked & -> & Hn & Hm & HB16 & Hdec).
    assert (Z.of_nat (length ((nonce ++ masked) ++ hmac_digest sk_fmt (auth_input nonce aad masked)))
            = 48 + 160 * (B + 2)) as Hlen.
    { rewrite !length_app, Hn, length_hmac_digest. unfold NONCE_SIZE. lia. }
    exists B. split_and!; [done|done|].
    unfold decrypt_bytes_v8_core, NONCE_SIZE, TAG_SIZE, TOKEN_WIDTH, MAX_NOISE_RUN. rewrite Hlen.
    destruct (block_size_bound p n B ltac:(lia) Hp HB) as ([HnB _] & _).
    rewrite (proj2 (Z.ltb_ge _ _)) by lia.
    bind_ok (apply checked_sub_Ok; lia). bind_ok (apply checked_sub_Ok; lia).
    bind_ok (apply checked_add_Ok; lia). bind_ok (apply checked_mul_Ok; lia).
    bind_ok (apply checked_rem_Ok; lia).
    replace ((48 + 160 * (B + 2) - Z.of_nat 16 - Z.of_nat 32) mod (Z.of_nat 8 * (19 + 1))) with 0; [done|].
    replace (48 + 160 * (B + 2) - Z.of_nat 16 - Z.of_nat 32) with ((B + 2) * (Z.of_nat 8 * (19 + 1))) by lia.
    by rewrite Z.mod_mul.
  - rewrite encrypt_inner_refused by (fold n; rewrite HB; done). fold n. rewrite HB.
    case_if; [left; split; [done|lia]|by right].
  - destruct (decide (n < 2 ^ 64)).
    + pose proof (block_size_cases p n ltac:(unfold fits; lia) Hp) as Hc. by rewrite HB in Hc.
    + unfold block_size, PAD_MAX_EXP in HB. change (Z.shiftl 1 16) with (2 ^ 16) in HB.
      by rewrite (proj2 (Z.leb_le _ _)) in HB by lia.
Qed.

(** ** Decryption of arbitrary bytes *)

(** The three outcomes, in the order of the checks. *)
Lemma decrypt_core_layout sk aad c :
  Z.of_nat (length c) ≤ 2 ^ 36 →
  let sk_fmt := derive_format_subkey sk FORMAT_BLOCK_V8 in
  let len := Z.of_nat (length c) in
  match decrypt_bytes_v8_core c primes sk aad with
  | Panic _ => False
  | res =>
      (len < 48 ∧ res = Err (CiphertextTooShort len)) ∨
      (48 ≤ len ∧ (len - 48) mod 160 ≠ 0 ∧ res = Err V8NotCeilingMultiple) ∨
      (48 ≤ len ∧ (len - 48) mod 160 = 0 ∧ ∃ nonce masked tag,
         c = (nonce ++ masked) ++ tag ∧ length nonce = NONCE_SIZE ∧ length tag = TAG_SIZE ∧
         if bool_decide (tag = hmac_digest sk_fmt (auth_input nonce aad masked))
         then ∃ tokens, mask sk_fmt nonce masked = fixed_encode_tokens tokens ∧
              Forall (fits 64) tokens ∧
              res = decrypt_core_v8 nonce tokens primes sk_fmt ∧
              (∀ m, res = Ok m → str_ok m ∧ ∃ e, 4 ≤ e ≤ 16 ∧ len = 48 + 160 * (2 ^ e + 2))
         else res = Err AuthenticationFailed)
  end.
Proof using Hkey.
  intros Hlen sk_fmt len. unfold decrypt_bytes_v8_core. fold sk_fmt. fold len.
  unfold NONCE_SIZE, TAG_SIZE, TOKEN_WIDTH, MAX_NOISE_RUN.
  change (Z.of_nat 16 + Z.of_nat 32) with 48.
  destruct (Z.ltb_spec len 48); [by left|].
  bind_ok (apply checked_sub_Ok; lia). bind_ok (apply checked_sub_Ok; lia).
  bind_ok (apply checked_add_Ok; lia). bind_ok (apply checked_mul_Ok; lia).
  bind_ok (apply checked_rem_Ok; lia).
  change (Z.of_nat 8 * (19 + 1)) with 160.
  replace (len - Z.of_nat 16 - Z.of_nat 32) with (len - 48) by lia.
  destruct (Z.eqb_spec ((len - 48) mod 160) 0) as [Hm|Hm]; cbn [negb]; [|right; left; done].
  destruct (block_layout c ltac:(lia)) as (nonce & masked & tag & Hc & Hn & Ht & Hml).
  assert (Hdec := decrypt_inner_layout sk_fmt primes aad nonce masked tag Hn Ht ltac:(lia)).
  rewrite <-Hc in Hdec. rewrite Hdec. clear Hdec.
  case_bool_decide as Htag.
  2: { right; right. split_and!; [done|done|]. exists nonce, masked, tag.
       split_and!; [done..|]. by rewrite bool_decide_eq_false_2. }
  pose proof (fixed_decode_cases (mask sk_fmt nonce masked)) as Hd.
  assert (length (mask sk_fmt nonce masked) = length c - 48)%nat as Hmk
    by (rewrite length_mask; lia).
  destruct (fixed_decode_tokens _) as [tokens|err|].
  2: { exfalso. destruct Hd as [_ Hd]. apply Hd. rewrite Hmk.
       apply Z.mod_divide in Hm as [q Hq]; [|lia]. apply Nat.Div0.mod_divides.
       exists (Z.to_nat (20 * q)). lia. }
  2: done.
  cbn [map_err]. rewrite bind_Ok. destruct Hd as [Henc Hf].
  assert (length tokens * 8 = length c - 48)%nat as Htl.
  { rewrite <-Hmk, Henc, length_fixed_encode_tokens. lia. }
  pose proof (decrypt_core_v8_cases primes sk_fmt nonce Hkey tokens Hf ltac:(lia)) as Hcore.
  assert ((codepoints ← decrypt_core_v8 nonce tokens primes sk_fmt;
           collect (λ c, opt_or (char_from_u32 c) (V8PlaintextNotScalar c)) codepoints)
          = decrypt_core_v8 nonce tokens primes sk_fmt) as Hcol.
  { destruct (decrypt_core_v8 nonce tokens primes sk_fmt); [|done..]. rewrite bind_Ok.
    apply collect_scalars. tauto. }
  rewrite Hcol. clear Hcol.
  assert (Hres : ∀ m, decrypt_core_v8 nonce tokens primes sk_fmt = Ok m →
    str_ok m ∧ ∃ e, 4 ≤ e ≤ 16 ∧ len = 48 + 160 * (2 ^ e + 2)).
  { intros m Hok. rewrite Hok in Hcore. destruct Hcore as [? (e & He & Hte)]. split; [done|].
    exists e. split; [done|]. lia. }
  destruct (decrypt_core_v8 nonce tokens primes sk_fmt) as [m|err|] eqn:Hd2; [| |done];
    right; right; (split_and!; [done|done|]); exists nonce, masked, tag;
    (split_and!; [done..|]); rewrite bool_decide_eq_true_2 by done; exists tokens; done.
Qed.
End format.

(** ** Properties *)

Section bounds.
Context `{Crypto} (primes : list Z) (sk aad : list byte) (Hkey : arith_key primes).

(** An accepted ciphertext carries the HMAC of its own authenticated input. *)
Lemma decrypt_core_accept payload tag m :
  length tag = TAG_SIZE → Z.of_nat (length (payload ++ tag)) ≤ 2 ^ 36 →
  decrypt_bytes_v8_core (payload ++ tag) primes sk aad = Ok m →
  ∃ nonce masked, payload = nonce ++ masked ∧ length nonce = NONCE_SIZE ∧
    tag = hmac_digest (derive_format_subkey sk FORMAT_BLOCK_V8) (auth_input nonce aad masked).
Proof using Hkey.
  intros Ht Hlen Hdec.
  pose proof (decrypt_core_layout primes Hkey sk aad (payload ++ tag) Hlen) as Hl.
  cbn zeta in Hl. rewrite Hdec in Hl.
  destruct Hl as [[_ ?]|[(_ & _ & ?)|(_ & _ & nonce & masked & tag' & Heq & Hn & Ht' & Hx)]]; [done..|].
  assert (payload = nonce ++ masked ∧ tag = tag') as [-> ->].
  { apply app_inj_2 in Heq; [done|congruence]. }
  case_bool_decide as Htag; [|done]. by exists nonce, masked.
Qed.

(** The same, on the bytes of the ciphertext. *)
Lemma decrypt_core_covered payload tag m :
  length tag = TAG_SIZE → Z.of_nat (length (payload ++ tag)) ≤ 2 ^ 36 →
  decrypt_bytes_v8_core (payload ++ tag) primes sk aad = Ok m →
  (NONCE_SIZE ≤ length payload)%nat ∧
  tag = hmac_digest (derive_format_subkey sk FORMAT_BLOCK_V8) (block_covered (payload ++ tag) aad).
Proof using Hkey.
  intros Ht Hlen Hdec. destruct (decrypt_core_accept payload tag m Ht Hlen Hdec) as (nonce & masked & -> & Hn & Htag).
  split; [rewrite length_app; lia|]. by rewrite block_covered_layout.
Qed.

Lemma decrypt_core_reject nonce masked tag :
  length nonce = NONCE_SIZE → length tag = TAG_SIZE →
  Z.of_nat (length ((nonce ++ masked) ++ tag)) ≤ 2 ^ 36 →
  Z.of_nat (length masked) mod 160 = 0 →
  tag ≠ hmac_digest (derive_format_subkey sk FORMAT_BLOCK_V8) (auth_input nonce aad masked) →
  decrypt_bytes_v8_core ((nonce ++ masked) ++ tag) primes sk aad = Err AuthenticationFailed.
Proof using Hkey.
  intros Hn Ht Hlen Hm Htag.
  pose proof (decrypt_core_layout primes Hkey sk aad ((nonce ++ masked) ++ tag) Hlen) as Hl.
  cbn zeta in Hl. unfold NONCE_SIZE, TAG_SIZE in *.
  assert (Z.of_nat (length ((nonce ++ masked) ++ tag)) - 48 = Z.of_nat (length masked)) as Hlm
    by (rewrite !length_app; lia).
  destruct (decrypt_bytes_v8_core ((nonce ++ masked) ++ tag) primes sk aad) as [m|e|] eqn:Hd; [| |done];
    rewrite Hlm in Hl;
    (destruct Hl as [[? _]|[(_ & ? & _)|(_ & _ & n' & m' & t' & Heq & Hn' & Ht' & Hx)]];
      [lia|lia|]);
    apply app_inj_2 in Heq as [Heq ->]; try congruence;
    apply app_inj_1 in Heq as [-> ->]; try congruence;
    rewrite bool_decide_eq_false_2 in Hx by done; done.
Qed.

(** Past the tag, the outcome is that of the token decoder. *)
Lemma decrypt_core_authentic nonce masked :
  length nonce = NONCE_SIZE → Z.of_nat (length masked) < 2 ^ 35 →
  Z.of_nat (length masked) mod 160 = 0 →
  let sk_fmt := derive_format_subkey sk FORMAT_BLOCK_V8 in
  ∃ tokens, (8 * length tokens)%nat = length masked ∧
    decrypt_bytes_v8_core ((nonce ++ masked) ++ hmac_digest sk_fmt (auth_input nonce aad masked)) primes sk aad
    = decrypt_core_v8 nonce tokens primes sk_fmt.
Proof using Hkey.
  intros Hn Hlen Hm sk_fmt. set (tag := hmac_digest sk_fmt _).
  assert (length tag = TAG_SIZE) as Ht by apply length_hmac_digest.
  assert (Z.of_nat (length ((nonce ++ masked) ++ tag)) = 48 + Z.of_nat (length masked)) as Hl
    by (rewrite !length_app, Hn, Ht; unfold NONCE_SIZE, TAG_SIZE; lia).
  pose proof (decrypt_core_layout primes Hkey sk aad ((nonce ++ masked) ++ tag) ltac:(lia)) as Hc.
  cbv zeta in Hc. rewrite Hl in Hc. fold sk_fmt in Hc.
  replace (48 + Z.of_nat (length masked) - 48) with (Z.of_nat (length masked)) in Hc by lia.
  destruct (decrypt_bytes_v8_core ((nonce ++ masked) ++ tag) primes sk aad) as [m|e|]; [| |done];
    (destruct Hc as [[? _]|[(_ & ? & _)|(_ & _ & n' & m' & t' & Heq & Hn' & Ht' & Hx)]];
      [lia|lia|]);
    apply app_inj_2 in Heq as [Heq <-]; try congruence;
    apply app_inj_1 in Heq as [<- <-]; try congruence;
    rewrite bool_decide_eq_true_2 in Hx by done;
    destruct Hx as (tokens & Hmask & _ & Hres & _); exists tokens; (split; [|done]);
    apply (f_equal length) in Hmask; rewrite length_mask, length_fixed_encode_tokens in Hmask; lia.
Qed.
End bounds.

(** One tag accepted for two payloads, or for two values of the associated data: what it
    covers in the two collides. *)
Lemma decrypt_core_collision `{Crypto} primes sk payload payload' aad aad' tag m m' : arith_key primes →
  length tag = TAG_SIZE → Z.of_nat (length (payload ++ tag)) ≤ 2 ^ 36 → Z.of_nat (length (payload' ++ tag)) ≤ 2 ^ 36 →
  fits 64 (Z.of_nat (length aad)) → fits 64 (Z.of_nat (length aad')) → (payload', aad') ≠ (payload, aad) →
  decrypt_bytes_v8_core (payload ++ tag) primes sk aad = Ok m →
  decrypt_bytes_v8_core (payload' ++ tag) primes sk aad' = Ok m' →
  collides (derive_format_subkey sk FORMAT_BLOCK_V8)
    (block_covered (payload ++ tag) aad) (block_covered (payload' ++ tag) aad').
Proof.
  intros Hkey Ht Hlen Hlen' Haad Haad' Hne Hdec Hdec'.
  destruct (decrypt_core_covered primes sk aad Hkey payload tag m Ht Hlen Hdec) as [Hn Htag].
  destruct (decrypt_core_covered primes sk aad' Hkey payload' tag m' Ht Hlen' Hdec') as [Hn' Htag'].
  split; [|congruence]. intros Heq. apply Hne. by apply block_covered_inj in Heq as [-> ->].
Qed.

(** A short message always encrypts, to a payload and a non-empty tag. *)
Lemma sample_block `{Crypto} sk message aad :
  str_ok message → Z.of_nat (length message) < 16 →
  ∃ payload t tag, length (t :: tag) = TAG_SIZE ∧
    Z.of_nat (length (payload ++ t :: tag)) ≤ 2 ^ 36 ∧
    decrypt_bytes_v8_core (payload ++ t :: tag) sample_key sk aad = Ok message.
Proof.
  intros Hm Hn.
  assert (block_size Bucket (Z.of_nat (length message)) = Ok 16) as HB.
  { do 16 (destruct message as [|? message]; [reflexivity|]). simpl length in Hn. lia. }
  pose proof (encrypt_core_cases sample_key sample_key_arith sk message aad Bucket Hm I) as Hc.
  cbn zeta in Hc. rewrite HB in Hc.
  destruct (encrypt_bytes_v8_core _ _ _ _ _) as [c|e|]; [| |done].
  - destruct Hc as (B & [= <-] & Hlen & Hd).
    destruct (block_layout c ltac:(lia)) as (nonce & masked & tag & -> & Hn' & Ht & Hl).
    destruct tag as [|t tag]; [done|]. exists (nonce ++ masked), t, tag.
    split_and!; [done|lia|done].
  - unfold MAX_PLAINTEXT_CODEPOINTS in Hc. destruct Hc as [[_ ?]|?]; [lia|done].
Qed.

(** C1: v8 block encryption round-trips: with the gate open, under every
    validated key, profile and associated data, encrypting a string either
    succeeds with a ciphertext of exactly [48 + 160 (B + 2)] bytes, where B is the
    profile's block size, which decrypts to the same string under the same key
    and associated data, or fails because the message is longer than 65535
    codepoints or its profile refuses it; nothing panics. *)
Theorem encrypt_decrypt_bytes_v8_roundtrip `{Crypto} `{Gate} key message aad p :
  gate_open → valid_key (primes key) → str_ok message → profile_fits p →
  let n := Z.of_nat (length message) in
  match encrypt_bytes_v8_with_profile_key message key aad p with
  | Ok c => ∃ B, block_size p n = Ok B ∧ Z.of_nat (length c) = 48 + 160 * (B + 2) ∧
      decrypt_bytes_v8_key c key aad = Ok message
  | Err e => (e = MessageTooLong n ∧ MAX_PLAINTEXT_CODEPOINTS < n) ∨ block_size p n = Err e
  | Panic _ => False
  end.
Proof.
  intros Hg Hkey Hm Hp n. unfold encrypt_bytes_v8_with_profile_key, decrypt_bytes_v8_key.
  rewrite Hg, !bind_Ok.
  pose proof (encrypt_core_cases (primes key) (valid_key_arith _ Hkey) (sk key) message aad p Hm Hp) as Hc.
  cbn zeta in Hc. fold n in Hc. destruct (encrypt_bytes_v8_core _ _ _ _ _) as [c|e|]; [|done|done].
  destruct Hc as (B & HB & Hl & Hd). exists B. by rewrite bind_Ok.
Qed.

Lemma encrypt_decrypt_bytes_v8_roundtrip_witness :
  let _ := Toy.crypto in let _ := default_build in
  let key := MkNapqesKey sample_key (replicate 32 x07) in
  gate_open ∧ valid_key (primes key) ∧ str_ok [72; 0x1F600] ∧ profile_fits (Frame 32) ∧
  block_size (Frame 32) 2 = Ok 32 ∧
  match encrypt_bytes_v8_with_profile_key [72; 0x1F600] key [x01] (Frame 32) with
  | Ok c => ∃ B, block_size (Frame 32) 2 = Ok B ∧ Z.of_nat (length c) = 48 + 160 * (B + 2) ∧
      decrypt_bytes_v8_key c key [x01] = Ok [72; 0x1F600]
  | Err e => (e = MessageTooLong 2 ∧ MAX_PLAINTEXT_CODEPOINTS < 2) ∨ block_size (Frame 32) 2 = Err e
  | Panic _ => False
  end.
Proof.
  intros C G key.
  assert (str_ok [72; 0x1F600]) as Hs by (repeat constructor).
  assert (profile_fits (Frame 32)) as Hp by (simpl; unfold fits; lia).
  split_and!; [done|apply sample_key_valid|exact Hs|exact Hp|reflexivity|].
  apply (encrypt_decrypt_bytes_v8_roundtrip key [72; 0x1F600] [x01] (Frame 32));
    [reflexivity|apply sample_key_valid|exact Hs|exact Hp].
Defined.

(** V8 block decryption is total on arbitrary bytes and checks in the
    documented order: a ciphertext below 48 bytes, then a token count that is not
    a multiple of the ceiling, are refused before any key is used; then the tag
    is compared over the nonce, the associated data and the masked tokens; only
    under a matching tag are tokens decoded, and an accepted ciphertext has one of
    the 13 legal lengths and yields a well-formed string. *)
Theorem decrypt_bytes_v8_total `{Crypto} primes sk aad c :
  valid_key primes → Z.of_nat (length c) ≤ 2 ^ 36 →
  let sk_fmt := derive_format_subkey sk FORMAT_BLOCK_V8 in
  let len := Z.of_nat (length c) in
  match decrypt_bytes_v8_core c primes sk aad with
  | Panic _ => False
  | res =>
      (len < 48 ∧ res = Err (CiphertextTooShort len)) ∨
      (48 ≤ len ∧ (len - 48) mod 160 ≠ 0 ∧ res = Err V8NotCeilingMultiple) ∨
      (48 ≤ len ∧ (len - 48) mod 160 = 0 ∧ ∃ nonce masked tag,
         c = (nonce ++ masked) ++ tag ∧ length nonce = NONCE_SIZE ∧ length tag = TAG_SIZE ∧
         if bool_decide (tag = hmac_digest sk_fmt (auth_input nonce aad masked))
         then ∃ tokens, mask sk_fmt nonce masked = fixed_encode_tokens tokens ∧
              Forall (fits 64) tokens ∧
              res = decrypt_core_v8 nonce tokens primes sk_fmt ∧
              (∀ m, res = Ok m → str_ok m ∧ ∃ e, 4 ≤ e ≤ 16 ∧ len = 48 + 160 * (2 ^ e + 2))
         else res = Err AuthenticationFailed)
  end.
Proof. intros Hkey. by apply (decrypt_core_layout primes (valid_key_arith _ Hkey)). Qed.

Lemma decrypt_bytes_v8_total_witness :
  let _ := Toy.crypto in
  valid_key sample_key ∧
  no_panic (decrypt_bytes_v8_core (replicate 208 x00) sample_key (replicate 32 x07) []).
Proof.
  intros C. split; [apply sample_key_valid|].
  assert (Z.of_nat (length (replicate 208 x00)) ≤ 2 ^ 36) as Hl by (rewrite length_replicate; lia).
  pose proof (decrypt_bytes_v8_total sample_key (replicate 32 x07) [] (replicate 208 x00)
    sample_key_valid Hl) as Ht.
  cbn zeta in Ht. destruct (decrypt_bytes_v8_core _ _ _ _); [exact I|exact I|exact Ht].
Defined.

(** C2: an accepted ciphertext cannot be modified: its tag is the HMAC under the format
    subkey of the domain byte, its nonce, the associated data behind its length and its
    masked tokens; the same payload and associated data under any other tag are refused;
    and if a different payload or different associated data were accepted under the same
    tag, the two inputs this tag covers, which are read off the two ciphertexts and their
    associated data, would be distinct with equal HMACs. *)
Theorem decrypt_bytes_v8_tamper `{Crypto} primes sk payload tag aad m :
  valid_key primes → length tag = TAG_SIZE → Z.of_nat (length (payload ++ tag)) ≤ 2 ^ 36 →
  fits 64 (Z.of_nat (length aad)) →
  decrypt_bytes_v8_core (payload ++ tag) primes sk aad = Ok m →
  let sk_fmt := derive_format_subkey sk FORMAT_BLOCK_V8 in
  tag = hmac_digest sk_fmt (block_covered (payload ++ tag) aad) ∧
  (∀ tag', length tag' = TAG_SIZE → tag' ≠ tag →
     decrypt_bytes_v8_core (payload ++ tag') primes sk aad = Err AuthenticationFailed) ∧
  (∀ payload' aad' m', (payload', aad') ≠ (payload, aad) →
     Z.of_nat (length (payload' ++ tag)) ≤ 2 ^ 36 → fits 64 (Z.of_nat (length aad')) →
     decrypt_bytes_v8_core (payload' ++ tag) primes sk aad' = Ok m' →
     collides sk_fmt (block_covered (payload ++ tag) aad) (block_covered (payload' ++ tag) aad')).
Proof.
  intros Hkey Ht Hlen Haad Hdec sk_fmt. apply valid_key_arith in Hkey.
  destruct (decrypt_core_accept primes sk aad Hkey payload tag m Ht Hlen Hdec)
    as (nonce & masked & -> & Hn & Htag). split_and!.
  - by rewrite block_covered_layout.
  - intros tag' Ht' Hne.
    assert (length ((nonce ++ masked) ++ tag') = length ((nonce ++ masked) ++ tag)) as Hl
      by (rewrite !(length_app (nonce ++ masked)); congruence).
    apply decrypt_core_reject; [done|done|done|by rewrite Hl| |congruence].
    pose proof (decrypt_core_layout primes Hkey sk aad _ Hlen) as Hl'. cbn zeta in Hl'.
    rewrite Hdec in Hl'. destruct Hl' as [[_ ?]|[(_ & _ & ?)|(_ & Hm & _)]]; [done..|].
    replace (Z.of_nat (length masked))
      with (Z.of_nat (length ((nonce ++ masked) ++ tag)) - 48); [done|].
    rewrite !length_app. unfold NONCE_SIZE, TAG_SIZE in *. lia.
  - intros payload' aad' m' Hne Hlen' Haad' Hdec'.
    by apply (decrypt_core_collision primes sk (nonce ++ masked) payload' aad aad' tag m m').
Qed.

Lemma decrypt_bytes_v8_tamper_witness :
  let _ := Toy.crypto in
  let sk := replicate 32 x07 in
  ∃ payload tag tag',
    length tag = TAG_SIZE ∧ length tag' = TAG_SIZE ∧ tag' ≠ tag ∧
    decrypt_bytes_v8_core (payload ++ tag) sample_key sk [x01] = Ok [72; 105] ∧
    decrypt_bytes_v8_core (payload ++ tag') sample_key sk [x01] = Err AuthenticationFailed.
Proof.
  intros C s.
  destruct (sample_block s [72; 105] [x01] ltac:(repeat constructor) ltac:(simpl; lia))
    as (payload & t & tag & Hl & Hlen & Hd).
  assert (length (t :: tag) = TAG_SIZE) as Ht by exact Hl.
  exists payload, (t :: tag), (xor_byte t x01 :: tag).
  assert (xor_byte t x01 :: tag ≠ t :: tag) as Hne by (destruct t; discriminate).
  split; [exact Ht|split; [exact Hl|split; [exact Hne|split; [exact Hd|]]]].
  apply (proj1 (proj2 (decrypt_bytes_v8_tamper sample_key s payload (t :: tag) [x01] [72; 105]
    sample_key_valid Ht Hlen ltac:(unfold fits; simpl; lia) Hd))); [exact Hl|exact Hne].
Defined.

(** The bare-slice and the validated-key entry points agree: under a key
    [NapqesKey::new] accepts they return the same result for every input, with the
    gate open or closed; and with the gate closed every entry point refuses with
    the same error before looking at key, message or ciphertext. *)
Theorem v8_entry_points_agree `{Crypto} `{Gate} ps s key message ciphertext aad p :
  Forall (fits 64) ps → NapqesKey_new ps s = Ok key →
  encrypt_bytes_v8_with_profile message ps s aad p
    = encrypt_bytes_v8_with_profile_key message key aad p ∧
  encrypt_bytes_v8 message ps s aad = encrypt_bytes_v8_key message key aad ∧
  decrypt_bytes_v8 ciphertext ps s aad = decrypt_bytes_v8_key ciphertext key aad ∧
  (¬ gate_open →
    encrypt_bytes_v8_with_profile_key message key aad p = Err NotOperational ∧
    encrypt_bytes_v8_key message key aad = Err NotOperational ∧
    decrypt_bytes_v8_key ciphertext key aad = Err NotOperational).
Proof.
  intros Hps Hnew. unfold NapqesKey_new in Hnew.
  destruct (validate_key ps) as [[]|e|] eqn:Hv; [|done|done]. rewrite bind_Ok in Hnew. simplify_eq.
  unfold encrypt_bytes_v8, encrypt_bytes_v8_with_profile, decrypt_bytes_v8, encrypt_bytes_v8_key,
    encrypt_bytes_v8_with_profile_key, decrypt_bytes_v8_key.
  split_and!; [by destruct gated_cases as [-> | ->]; rewrite ?bind_Ok, ?Hv ..|].
  intros Hg. by rewrite (gated_closed Hg).
Qed.

Lemma v8_entry_points_agree_witness :
  let _ := Toy.crypto in let _ := default_build in
  let sk := replicate 32 x07 in
  let key := MkNapqesKey sample_key sk in
  NapqesKey_new sample_key sk = Ok key ∧
  encrypt_bytes_v8 [65] sample_key sk [] = encrypt_bytes_v8_key [65] key [].
Proof.
  intros C G s key.
  assert (NapqesKey_new sample_key s = Ok key) as Hn by (vm_compute; reflexivity).
  split; [exact Hn|].
  destruct (v8_entry_points_agree sample_key s key [65] [] [] Bucket
    (valid_key_fits _ sample_key_valid) Hn) as (_ & Heq & _). exact Heq.
Defined.
