(* ===== verification/LegacyV7.v ===== *)
(** * The legacy v7 format ([lib.rs])

    The token-level [encrypt]/[decrypt], the authenticated byte, string and raw
    wrappers, and the continuous RNG test that guards nonce generation. The
    process-global state a v7 encryption touches is threaded explicitly. *)
From Stdlib Require Import ZArith Lia Strings.Byte.
From stdpp Require Import base tactics option numbers list.
From S2P Require Import Prelude Machine Errors Crates Post Primes Keys Derive Padding Tokens BlockV8.

#[local] Open Scope Z_scope.
#[local] Open Scope napqes_scope.

(** [PREV_NONCE] and the POST latch that [enter_error_state] moves. *)
Record crng_state := MkCrng { prev_nonce : option (list byte); module_state : Z }.

Section v7.
Context `{Crypto} `{Gate}.

(** [draw] is what the RNG fills the nonce with. *)
Definition generate_nonce_with_crng_check (draw : list byte) (s : crng_state)
    : outcome error (list byte) * crng_state :=
  match prev_nonce s with
  | Some prev =>
      if ct_eq_bytes draw prev then (Err CrngStuck, MkCrng (prev_nonce s) POST_FAILED)
      else (Ok draw, MkCrng (Some draw) (module_state s))
  | None => (Ok draw, MkCrng (Some draw) (module_state s))
  end.

(** Run [k] on the fresh nonce when the checks of an entry point pass. *)
Definition with_nonce {A} (checks : outcome error unit) (draw : list byte) (s : crng_state)
    (k : list byte → outcome error A) : outcome error A * crng_state :=
  match checks with
  | Ok _ =>
      let '(r, s') := generate_nonce_with_crng_check draw s in
      (nonce ← r; k nonce, s')
  | Err e => (Err e, s)
  | Panic p => (Panic p, s)
  end.

(** ** Token level *)

Definition check_length (n : Z) : outcome error unit :=
  if MAX_PLAINTEXT_CODEPOINTS <? n then Err (MessageTooLong n) else Ok tt.

Definition encrypt (message key : list Z) (draw : list byte) (s : crng_state)
    : outcome error (list byte * list Z) * crng_state :=
  with_nonce (
    _ ← gated;
    _ ← check_length (Z.of_nat (length message));
    _ ← for_each (λ i c, if is_scalar c then Ok tt else Err (InputNotScalar c i)) 0 message;
    validate_key key) draw s (λ nonce,
    let kb := key_bytes key in
    let noise_p := derive_noise_p kb nonce in
    padded ← pad_message message kb nonce;
    cypher ← emit_tokens_v7 padded kb nonce noise_p key;
    Ok (nonce, cypher)).

Definition decrypt (nonce : list byte) (cypher key : list Z) : outcome error (list Z) :=
  _ ← gated;
  _ ← validate_key_v7_decrypt key;
  decrypt_core nonce cypher key (key_bytes key).

(** ** Authenticated wrappers *)

Definition seal_v7 (codepoints key : list Z) (nonce aad : list byte) : outcome error (list byte) :=
  let kb := key_bytes key in
  let noise_p := derive_noise_p kb nonce in
  padded ← pad_message codepoints kb nonce;
  cypher ← emit_tokens_v7 padded kb nonce noise_p key;
  let blob := fixed_encode_tokens cypher in
  ks ← varint_keystream kb nonce (length blob);
  let payload := nonce ++ xor_bytes blob ks in
  tag ← compute_auth_tag kb aad payload AAD_LEN_WIDTH_V7;
  Ok (payload ++ tag).

Definition open_v7 (ciphertext : list byte) (key : list Z) (aad : list byte) : outcome error (list Z) :=
  _ ← check_v7_aad_len (Z.of_nat (length aad));
  let len := Z.of_nat (length ciphertext) in
  if len <? Z.of_nat NONCE_SIZE + Z.of_nat TAG_SIZE then Err (CiphertextTooShort len)
  else
    let kb := key_bytes key in
    split ← len -! Z.of_nat TAG_SIZE;
    payload ← index_range 0 (Z.to_nat split) ciphertext;
    recv_tag ← index_range (Z.to_nat split) (length ciphertext) ciphertext;
    calc_tag ← compute_auth_tag kb aad payload AAD_LEN_WIDTH_V7;
    if negb (ct_eq_bytes recv_tag calc_tag) then Err AuthenticationFailed
    else
      _ ← validate_key_v7_decrypt key;
      nonce ← index_range 0 NONCE_SIZE payload;
      masked ← index_range NONCE_SIZE (length payload) payload;
      ks ← varint_keystream kb nonce (length masked);
      let blob := xor_bytes masked ks in
      tokens ← map_err VarintDecode (fixed_decode_tokens blob);
      decrypt_core nonce tokens key kb.

Definition encrypt_bytes (message key : list Z) (aad draw : list byte) (s : crng_state)
    : outcome error (list byte) * crng_state :=
  with_nonce (
    _ ← gated;
    _ ← validate_key key;
    _ ← check_v7_aad_len (Z.of_nat (length aad));
    check_length (Z.of_nat (length message))) draw s (λ nonce, seal_v7 message key nonce aad).

(** The KAT helper has no error channel: it panics instead. *)
Definition encrypt_bytes_with_nonce (message key : list Z) (nonce aad : list byte)
    : outcome error (list byte) :=
  match validate_key key with
  | Ok _ =>
      match seal_v7 message key nonce aad with
      | Err _ => Panic PanicExpect
      | r => r
      end
  | Err _ => Panic PanicExpect
  | Panic p => Panic p
  end.

Fixpoint map_indexed {A B} (f : Z → A → outcome error B) (i : Z) (l : list A)
    : outcome error (list B) :=
  match l with
  | [] => Ok []
  | x :: l' => y ← f i x; ys ← map_indexed f (i + 1) l'; Ok (y :: ys)
  end.

Definition decrypt_bytes (ciphertext : list byte) (key : list Z) (aad : list byte)
    : outcome error (list Z) :=
  _ ← gated;
  codepoints ← open_v7 ciphertext key aad;
  map_indexed (λ i c, opt_or (char_from_u32 c) (V7PlaintextNotScalar c i)) 0 codepoints.

Definition encrypt_raw (data : list byte) (key : list Z) (aad draw : list byte) (s : crng_state)
    : outcome error (list byte) * crng_state :=
  with_nonce (
    _ ← gated;
    _ ← validate_key key;
    _ ← check_v7_aad_len (Z.of_nat (length aad));
    check_length (Z.of_nat (length data))) draw s
    (λ nonce, seal_v7 (byte_to_Z <$> data) key nonce aad).

Definition decrypt_raw (ciphertext : list byte) (key : list Z) (aad : list byte)
    : outcome error (list byte) :=
  _ ← gated;
  codepoints ← open_v7 ciphertext key aad;
  map_indexed (λ i c, if 0xFF <? c then Err (V7NotByte c i) else Ok (byte_of_Z c)) 0 codepoints.

Context `{Base64}.

Definition encrypt_str (message key : list Z) (aad draw : list byte) (s : crng_state)
    : outcome error (list Z) * crng_state :=
  match (_ ← gated; validate_key key) with
  | Ok _ =>
      let '(r, s') := encrypt_bytes message key aad draw s in
      (c ← r; Ok (b64_encode c), s')
  | Err e => (Err e, s)
  | Panic p => (Panic p, s)
  end.

Definition decrypt_str (cypher key : list Z) (aad : list byte) : outcome error (list Z) :=
  _ ← gated;
  bytes ← opt_or (b64_decode (as_bytes cypher)) Base64DecodeError;
  decrypt_bytes bytes key aad.
End v7.

(** ** Lemmas *)

Section map_indexed_lemmas.
Context {A B : Type} (f : Z → A → outcome error B).

Lemma map_indexed_Ok (g : A → B) i l :
  (∀ j x, x ∈ l → f j x = Ok (g x)) → map_indexed f i l = Ok (g <$> l).
Proof using Type.
  revert i. induction l as [|x l IH]; intros i Hf; [done|]. cbn [map_indexed].
  rewrite (Hf i x) by left. rewrite bind_Ok, IH, bind_Ok; [done|]. intros; apply Hf. by right.
Qed.

Lemma no_panic_map_indexed i l :
  (∀ j x, x ∈ l → no_panic (f j x)) → no_panic (map_indexed f i l).
Proof using Type.
  revert i. induction l as [|x l IH]; intros i Hf; [done|]. cbn [map_indexed].
  apply no_panic_bind; [apply Hf; left|intros y _].
  apply no_panic_bind; [|done]. apply IH. intros. apply Hf. by right.
Qed.

(** The first element refused decides the error. *)
Lemma map_indexed_Err i pre x post e (g : A → B) :
  (∀ j y, y ∈ pre → f j y = Ok (g y)) → f (i + Z.of_nat (length pre)) x = Err e →
  map_indexed f i (pre ++ x :: post) = Err e.
Proof using Type.
  revert i. induction pre as [|y pre IH]; intros i Hf Hx; cbn [app map_indexed].
  - simpl length in Hx. rewrite Z.add_0_r in Hx. by rewrite Hx.
  - rewrite (Hf i y) by left. rewrite bind_Ok, (IH (i + 1)); [done| |].
    + intros; apply Hf. by right.
    + rewrite <-Hx. f_equal. simpl. lia.
Qed.
End map_indexed_lemmas.

Section v7_lemmas.
Context `{Crypto} (key : list Z) (aad : list byte).
Context (Haad : Z.of_nat (length aad) < 2 ^ 32).

Definition v7_tag (nonce masked : list byte) : list byte :=
  hmac_digest (key_bytes key)
    (hmac_input x03 nonce (to_be_bytes 4 (Z.of_nat (length aad)) ++ aad ++ masked)).

Lemma compute_auth_tag_v7 nonce masked :
  length nonce = NONCE_SIZE →
  compute_auth_tag (key_bytes key) aad (nonce ++ masked) AAD_LEN_WIDTH_V7 = Ok (v7_tag nonce masked).
Proof using Haad. intros Hn. apply compute_auth_tag_eq; [done|]. apply be_len_prefix_v7. lia. Qed.

Lemma check_v7_aad_len_Ok : check_v7_aad_len (Z.of_nat (length aad)) = Ok tt.
Proof using Haad. unfold check_v7_aad_len. by rewrite (proj2 (Z.ltb_ge _ _)) by lia. Qed.

Lemma open_v7_layout nonce masked tag :
  length nonce = NONCE_SIZE → length tag = TAG_SIZE → Z.of_nat (length masked) ≤ 2 ^ 36 →
  open_v7 ((nonce ++ masked) ++ tag) key aad
  = if bool_decide (tag = v7_tag nonce masked)
    then _ ← validate_key_v7_decrypt key;
         tokens ← map_err VarintDecode (fixed_decode_tokens (mask (key_bytes key) nonce masked));
         decrypt_core nonce tokens key (key_bytes key)
    else Err AuthenticationFailed.
Proof using Haad.
  intros Hn Ht Hm. unfold open_v7. rewrite check_v7_aad_len_Ok, bind_Ok.
  assert (length ((nonce ++ masked) ++ tag) = length (nonce ++ masked) + 32)%nat as Hlen
    by (rewrite length_app, Ht; done).
  assert (length (nonce ++ masked) = 16 + length masked)%nat as Hl2 by (rewrite length_app, Hn; done).
  unfold NONCE_SIZE, TAG_SIZE. rewrite (proj2 (Z.ltb_ge _ _)) by lia.
  bind_ok (apply checked_sub_Ok; lia).
  replace (Z.to_nat (Z.of_nat (length ((nonce ++ masked) ++ tag)) - Z.of_nat 32))
    with (length (nonce ++ masked)) by lia.
  bind_ok (apply index_range_Ok; lia). bind_ok (apply index_range_Ok; lia).
  assert (slice 0 (length (nonce ++ masked)) ((nonce ++ masked) ++ tag) = nonce ++ masked) as ->
    by (unfold slice; by rewrite Nat.sub_0_r, drop_0, take_app_length).
  assert (slice (length (nonce ++ masked)) (length ((nonce ++ masked) ++ tag)) ((nonce ++ masked) ++ tag)
          = tag) as ->.
  { unfold slice. rewrite drop_app_length, Hlen. apply firstn_all2. rewrite Ht. unfold TAG_SIZE. lia. }
  rewrite compute_auth_tag_v7, bind_Ok by done. unfold ct_eq_bytes.
  destruct (ct_eq tag _) eqn:Heq.
  - apply ct_eq_spec in Heq. rewrite bool_decide_eq_true_2 by done. cbn [negb].
    destruct (validate_key_v7_decrypt key); [|done..]. rewrite !bind_Ok.
    bind_ok (apply index_range_Ok; lia). bind_ok (apply index_range_Ok; lia).
    assert (slice 0 16 (nonce ++ masked) = nonce) as ->
      by (unfold slice; by rewrite Nat.sub_0_r, drop_0, take_app_length').
    assert (slice 16 (length (nonce ++ masked)) (nonce ++ masked) = masked) as ->.
    { unfold slice. rewrite drop_app_length' by done. apply firstn_all2. lia. }
    rewrite varint_keystream_Ok, bind_Ok by lia. done.
  - rewrite bool_decide_eq_false_2; [done|]. intros Htag.
    apply (proj2 (ct_eq_spec _ _)) in Htag. congruence.
Qed.

(** Sealing under a key the decryptors accept, then opening. *)
Lemma seal_open_v7 codepoints nonce :
  valid_key_v7 key → validate_key_v7_decrypt key = Ok tt → str_ok codepoints →
  Z.of_nat (length codepoints) ≤ MAX_PLAINTEXT_CODEPOINTS → length nonce = NONCE_SIZE →
  match seal_v7 codepoints key nonce aad with
  | Ok c => open_v7 c key aad = Ok codepoints
  | Err e => e = NoiseRunAborted
  | Panic _ => False
  end.
Proof using Haad.
  intros Hkey Hval Hc Hlen Hn. unfold seal_v7.
  destruct (pad_message_Ok codepoints (key_bytes key) nonce Hlen) as (B & HB & Hpad).
  rewrite Hpad, bind_Ok.
  destruct (block_size_bound Bucket (Z.of_nat (length codepoints)) B ltac:(lia) I HB) as ([HnB HB16] & Hn16 & _).
  set (padded := padded_block codepoints (key_bytes key) nonce B).
  assert (Z.of_nat (length padded) = B + 2) as Hpl by (apply length_padded_block; lia).
  pose proof (decrypt_emit_v7_spec key (key_bytes key) nonce (valid_key_v7_arith _ Hkey) padded
    ltac:(by apply padded_block_scalar) ltac:(lia)) as He.
  destruct (emit_tokens_v7 _ _ _ _ _) as [tokens|e|]; [|done|done].
  destruct He as (Hf & [_ Htl] & Hdec). rewrite bind_Ok.
  assert (Z.of_nat (length (fixed_encode_tokens tokens)) ≤ 2 ^ 36) as Hbl
    by (rewrite length_fixed_encode_tokens; lia).
  rewrite varint_keystream_Ok, bind_Ok by lia.
  fold (mask (key_bytes key) nonce (fixed_encode_tokens tokens)).
  rewrite compute_auth_tag_v7, bind_Ok by done.
  rewrite open_v7_layout; [|done|apply length_hmac_digest|by rewrite length_mask].
  rewrite bool_decide_eq_true_2 by done. rewrite Hval, bind_Ok, mask_involutive.
  rewrite fixed_decode_encode by done. cbn [map_err]. rewrite bind_Ok, Hdec.
  apply unpad_padded_block. lia.
Qed.
End v7_lemmas.

Lemma valid_key_v7_checked key : valid_key key → valid_key_v7 key ∧ validate_key_v7_decrypt key = Ok tt.
Proof.
  intros Hk. destruct (validate_key_v7_cases key) as (_ & Hiff & Himp). split; [by apply Himp|].
  by apply Hiff, Himp.
Qed.

(** ** Nonces *)

Lemma nonce_cases `{Crypto} draw s :
  match generate_nonce_with_crng_check draw s with
  | (Ok n, s') => n = draw ∧ prev_nonce s ≠ Some draw ∧
      s' = MkCrng (Some draw) (module_state s)
  | (Err e, s') => e = CrngStuck ∧ prev_nonce s = Some draw ∧
      s' = MkCrng (prev_nonce s) POST_FAILED
  | (Panic _, _) => False
  end.
Proof.
  unfold generate_nonce_with_crng_check, ct_eq_bytes.
  destruct (prev_nonce s) as [prev|] eqn:Hp; [|done].
  destruct (ct_eq draw prev) eqn:Heq.
  - apply ct_eq_spec in Heq as ->. done.
  - split_and!; [done| |done]. intros [= ->].
    assert (ct_eq draw draw = true) by (by apply ct_eq_spec). congruence.
Qed.

(** The nonces a process accepts from a sequence of draws. *)
Fixpoint nonces `{Crypto} (draws : list (list byte)) (s : crng_state)
    : list (list byte) * crng_state :=
  match draws with
  | [] => ([], s)
  | d :: draws' =>
      let '(r, s') := generate_nonce_with_crng_check d s in
      let '(ns, s'') := nonces draws' s' in
      (match r with Ok n => n :: ns | _ => ns end, s'')
  end.

(** Neighbours in a list differ. *)
Fixpoint consecutive_distinct (prev : option (list byte)) (l : list (list byte)) : Prop :=
  match l with
  | [] => True
  | x :: l' => prev ≠ Some x ∧ consecutive_distinct (Some x) l'
  end.

Lemma nonces_cases `{Crypto} draws s :
  let '(ns, s') := nonces draws s in
  consecutive_distinct (prev_nonce s) ns ∧
  (module_state s' = POST_FAILED ∨
   (module_state s' = module_state s ∧ consecutive_distinct (prev_nonce s) draws)) ∧
  (module_state s = POST_FAILED → module_state s' = POST_FAILED).
Proof.
  revert s. induction draws as [|d draws IH]; intros s; cbn [nonces]; [split_and!; [done|by right|done]|].
  pose proof (nonce_cases d s) as Hc.
  destruct (generate_nonce_with_crng_check d s) as [[n|e|] s1]; [| |done].
  - destruct Hc as (-> & Hne & ->). specialize (IH (MkCrng (Some d) (module_state s))).
    destruct (nonces draws _) as [ns s'] eqn:Hns. cbn [prev_nonce module_state] in IH.
    destruct IH as (Hcd & Hst & Hsticky). cbn [consecutive_distinct]. split_and!; [done..| |done].
    destruct Hst as [?|[? ?]]; [by left|by right].
  - destruct Hc as (-> & Heq & ->). specialize (IH (MkCrng (prev_nonce s) POST_FAILED)).
    destruct (nonces draws _) as [ns s'] eqn:Hns. cbn [prev_nonce module_state] in IH.
    destruct IH as (Hcd & Hst & Hsticky). split_and!; [done|left; by apply Hsticky|].
    intros _. by apply Hsticky.
Qed.

(** ** Properties *)

(** What can make a v7 encryption fail under a valid key. *)
Definition v7_refusal (n aad_len : Z) (draw : list byte) (s : crng_state) (e : error) : Prop :=
  (e = V7AadTooLong aad_len ∧ 2 ^ 32 ≤ aad_len) ∨
  (e = MessageTooLong n ∧ MAX_PLAINTEXT_CODEPOINTS < n) ∨
  (e = CrngStuck ∧ prev_nonce s = Some draw) ∨
  e = NoiseRunAborted.

Section seal.
Context `{Crypto} `{Gate} (key : list Z) (aad draw : list byte).
Context (Hg : gate_open) (Hkey : valid_key key) (Hdraw : length draw = NONCE_SIZE).

(** The common body of [encrypt_bytes] and [encrypt_raw]. *)
Lemma sealed_cases codepoints s :
  str_ok codepoints →
  match with_nonce (_ ← gated; _ ← validate_key key;
          _ ← check_v7_aad_len (Z.of_nat (length aad));
          check_length (Z.of_nat (length codepoints))) draw s
        (λ nonce, seal_v7 codepoints key nonce aad) with
  | (Ok c, _) => open_v7 c key aad = Ok codepoints
  | (Err e, _) => v7_refusal (Z.of_nat (length codepoints)) (Z.of_nat (length aad)) draw s e
  | (Panic _, _) => False
  end.
Proof using Hg Hkey Hdraw.
  intros Hc. unfold with_nonce. rewrite Hg, bind_Ok, validate_key_valid, bind_Ok by done.
  unfold check_v7_aad_len.
  destruct (Z.ltb_spec (2 ^ 32 - 1) (Z.of_nat (length aad))) as [Hl|Hl].
  { left. split; [done|]. lia. }
  rewrite bind_Ok. unfold check_length.
  destruct (Z.ltb_spec MAX_PLAINTEXT_CODEPOINTS (Z.of_nat (length codepoints))) as [Hn|Hn].
  { right; left. done. }
  pose proof (nonce_cases draw s) as Hd.
  destruct (generate_nonce_with_crng_check draw s) as [[n|e|] s']; [| |done].
  - destruct Hd as (-> & _ & _). rewrite bind_Ok.
    destruct (valid_key_v7_checked key Hkey) as [Hk7 Hv7].
    pose proof (seal_open_v7 key aad ltac:(lia) codepoints draw Hk7 Hv7 Hc ltac:(done) Hdraw) as Hs.
    destruct (seal_v7 _ _ _ _) as [c|e|]; [done| |done]. by right; right; right.
  - destruct Hd as (-> & Hp & _). right; right; left. done.
Qed.

Lemma decrypt_bytes_of_open c message :
  open_v7 c key aad = Ok message → str_ok message → decrypt_bytes c key aad = Ok message.
Proof using Hg.
  intros Ho Hm. unfold decrypt_bytes. rewrite Hg, bind_Ok, Ho, bind_Ok.
  rewrite (map_indexed_Ok _ (λ c, c)); [by rewrite list_fmap_id|].
  intros j x Hx. unfold str_ok in Hm. rewrite Forall_forall in Hm. unfold char_from_u32.
  by rewrite (Hm x Hx).
Qed.

Lemma decrypt_raw_of_open c pre x post :
  open_v7 c key aad = Ok ((byte_to_Z <$> pre) ++ x :: post) → 0xFF < x →
  decrypt_raw c key aad = Err (V7NotByte x (Z.of_nat (length pre))).
Proof using Hg.
  clear Hkey Hdraw. intros Ho Hx. unfold decrypt_raw. rewrite Hg, bind_Ok, Ho, bind_Ok.
  apply (map_indexed_Err _ _ _ _ _ _ byte_of_Z).
  - intros j y Hy. apply list_elem_of_fmap in Hy as (b & -> & _).
    pose proof (byte_to_Z_range b). by rewrite (proj2 (Z.ltb_ge _ _)) by lia.
  - rewrite length_fmap, Z.add_0_l. by rewrite (proj2 (Z.ltb_lt _ _)) by done.
Qed.

Lemma decrypt_raw_bytes c data :
  open_v7 c key aad = Ok (byte_to_Z <$> data) → decrypt_raw c key aad = Ok data.
Proof using Hg.
  clear Hkey Hdraw. intros Ho. unfold decrypt_raw. rewrite Hg, bind_Ok, Ho, bind_Ok.
  rewrite (map_indexed_Ok _ byte_of_Z).
  - rewrite <-list_fmap_compose. rewrite <-(list_fmap_id data) at 2. f_equal.
    apply list_fmap_ext. intros i b _. apply byte_of_to_Z.
  - intros j y Hy. apply list_elem_of_fmap in Hy as (b & -> & _).
    pose proof (byte_to_Z_range b). by rewrite (proj2 (Z.ltb_ge _ _)) by lia.
Qed.
End seal.

Lemma open_v7_cases `{Crypto} ciphertext key aad :
  Z.of_nat (length ciphertext) ≤ 2 ^ 36 →
  match open_v7 ciphertext key aad with
  | Ok msg => str_ok msg ∧ valid_key_v7 key ∧ ∃ nonce masked,
      ciphertext = (nonce ++ masked) ++ v7_tag key aad nonce masked ∧ length nonce = NONCE_SIZE
  | Err _ => True
  | Panic _ => False
  end.
Proof.
  intros Hlen. destruct (decide (Z.of_nat (length aad) < 2 ^ 32)) as [Haad|Haad].
  2: { unfold open_v7, check_v7_aad_len. by rewrite (proj2 (Z.ltb_lt (2 ^ 32 - 1) (Z.of_nat (length aad)))) by lia. }
  destruct (decide (48 ≤ length ciphertext)%nat) as [Hl|Hl].
  2: { unfold open_v7. rewrite check_v7_aad_len_Ok, bind_Ok by done.
       unfold NONCE_SIZE, TAG_SIZE. by rewrite (proj2 (Z.ltb_lt _ _)) by lia. }
  destruct (block_layout ciphertext Hl) as (nonce & masked & tag & -> & Hn & Ht & Hm).
  rewrite open_v7_layout by (done || lia). case_bool_decide as Htag; [|done].
  destruct (validate_key_v7_cases key) as (Hnp & Hiff & _).
  destruct (validate_key_v7_decrypt key) as [[]|e|]; [|done|done].
  assert (valid_key_v7 key) as Hk by (by apply Hiff). rewrite bind_Ok.
  pose proof (fixed_decode_cases (mask (key_bytes key) nonce masked)) as Hd.
  destruct (fixed_decode_tokens _) as [tokens|e|]; [|done|done]. cbn [map_err]. rewrite bind_Ok.
  destruct Hd as [Henc Hf]. apply (f_equal length) in Henc.
  rewrite length_mask, length_fixed_encode_tokens in Henc.
  pose proof (decrypt_core_v7_cases key (key_bytes key) nonce (valid_key_v7_arith _ Hk) tokens Hf ltac:(lia)) as Hc.
  destruct (decrypt_core _ _ _ _) as [msg|e|]; [|done|done]. split_and!; [done|done|].
  exists nonce, masked. split; [by rewrite <-Htag|done].
Qed.

(** The decryptors are total on arbitrary bytes and keys. *)
Lemma decrypt_v7_no_panic `{Crypto} `{Gate} key aad c :
  Z.of_nat (length c) ≤ 2 ^ 36 → no_panic (decrypt_bytes c key aad) ∧ no_panic (decrypt_raw c key aad).
Proof.
  intros Hc. pose proof (open_v7_cases c key aad Hc) as Ho. unfold decrypt_bytes, decrypt_raw.
  destruct gated_cases as [-> | ->]; [rewrite !bind_Ok|done].
  destruct (open_v7 c key aad) as [m|e|]; [|done|done]. rewrite !bind_Ok.
  split; apply no_panic_map_indexed; intros j x _; [apply no_panic_opt_or|by case_if].
Qed.

(** C37: the v7 wrappers round-trip under every validated key: what
    [encrypt_bytes] seals, [decrypt_bytes] opens to the same string; what
    [encrypt_raw] seals, [decrypt_raw] opens to the same bytes; through base64
    likewise; sealing otherwise fails only for an over-long AAD or message, a stuck
    generator or an over-long noise run, and never panics. *)
Theorem v7_wrappers_roundtrip `{Crypto} `{Gate} `{Base64} key aad draw message data s :
  gate_open → valid_key key → length draw = NONCE_SIZE → str_ok message →
  let refused n e := v7_refusal n (Z.of_nat (length aad)) draw s e in
  (match encrypt_bytes message key aad draw s with
   | (Ok c, _) => decrypt_bytes c key aad = Ok message
   | (Err e, _) => refused (Z.of_nat (length message)) e
   | (Panic _, _) => False
   end) ∧
  (match encrypt_raw data key aad draw s with
   | (Ok c, _) => decrypt_raw c key aad = Ok data
   | (Err e, _) => refused (Z.of_nat (length data)) e
   | (Panic _, _) => False
   end) ∧
  (match encrypt_str message key aad draw s with
   | (Ok c, _) => decrypt_str c key aad = Ok message
   | (Err e, _) => refused (Z.of_nat (length message)) e
   | (Panic _, _) => False
   end).
Proof.
  intros Hg Hkey Hd Hm refused.
  assert (match encrypt_bytes message key aad draw s with
   | (Ok c, _) => decrypt_bytes c key aad = Ok message
   | (Err e, _) => refused (Z.of_nat (length message)) e
   | (Panic _, _) => False end) as Hb.
  { pose proof (sealed_cases key aad draw Hg Hkey Hd message s Hm) as Hc. unfold encrypt_bytes.
    destruct (with_nonce _ _ _ _) as [[c|e|] s']; [|done|done]. by apply decrypt_bytes_of_open. }
  split_and!; [exact Hb| |].
  - assert (str_ok (byte_to_Z <$> data)) as Hl.
    { apply Forall_fmap, Forall_forall. intros b _. simpl. apply is_scalar_byte.
      pose proof (byte_to_Z_range b). lia. }
    pose proof (sealed_cases key aad draw Hg Hkey Hd (byte_to_Z <$> data) s Hl) as Hc.
    rewrite length_fmap in Hc. unfold encrypt_raw.
    destruct (with_nonce _ _ _ _) as [[c|e|] s']; [|done|done]. by apply decrypt_raw_bytes.
  - unfold encrypt_str. rewrite Hg, bind_Ok, validate_key_valid by done.
    destruct (encrypt_bytes message key aad draw s) as [[c|e|] s']; [|done|done]. rewrite bind_Ok.
    unfold decrypt_str. rewrite Hg, bind_Ok, b64_roundtrip. cbn [opt_or]. by rewrite bind_Ok.
Qed.

Lemma v7_wrappers_roundtrip_witness :
  let _ := Toy.crypto in let _ := default_build in let _ := Toy.base64 in
  let s := MkCrng None POST_PASSED in
  let draw := replicate 16 x2a in
  valid_key sample_key ∧ length draw = NONCE_SIZE ∧
  match encrypt_str [72; 105] sample_key [] draw s with
  | (Ok c, _) => decrypt_str c sample_key [] = Ok [72; 105]
  | (Err e, _) => v7_refusal 2 0 draw s e
  | (Panic _, _) => False
  end.
Proof.
  intros C G B s draw. split; [exact sample_key_valid|split; [reflexivity|]].
  assert gate_open as Hg by reflexivity.
  destruct (v7_wrappers_roundtrip sample_key [] draw [72; 105] [] s Hg sample_key_valid
    eq_refl ltac:(repeat constructor)) as (_ & _ & Hstr). exact Hstr.
Defined.

(** The v7 conventions are not confused silently: a string with a
    character above U+00FF that was sealed by [encrypt_bytes] is refused by
    [decrypt_raw], naming the first such character and its position; a string of
    characters up to U+00FF opens as its bytes; and on arbitrary ciphertexts and
    keys the decryptors never panic and accept only under a correct tag and a key
    of the v7 policy. *)
Theorem v7_decrypt_safe `{Crypto} `{Gate} key aad :
  (gate_open → valid_key key → ∀ draw s c s' pre x post,
     length draw = NONCE_SIZE → str_ok ((byte_to_Z <$> pre) ++ x :: post) → 0xFF < x →
     encrypt_bytes ((byte_to_Z <$> pre) ++ x :: post) key aad draw s = (Ok c, s') →
     decrypt_raw c key aad = Err (V7NotByte x (Z.of_nat (length pre)))) ∧
  (gate_open → valid_key key → ∀ draw s c s' data,
     length draw = NONCE_SIZE →
     encrypt_bytes (byte_to_Z <$> data) key aad draw s = (Ok c, s') →
     decrypt_raw c key aad = Ok data) ∧
  (∀ c, Z.of_nat (length c) ≤ 2 ^ 36 →
     no_panic (decrypt_bytes c key aad) ∧ no_panic (decrypt_raw c key aad) ∧
     ∀ m, decrypt_bytes c key aad = Ok m → str_ok m ∧ valid_key_v7 key ∧
       ∃ nonce masked, c = (nonce ++ masked) ++ v7_tag key aad nonce masked).
Proof.
  split_and!.
  - intros Hg Hkey draw s c s' pre x post Hd Hm Hx He.
    pose proof (sealed_cases key aad draw Hg Hkey Hd _ s Hm) as Hc.
    unfold encrypt_bytes in He. rewrite He in Hc. by apply (decrypt_raw_of_open key aad Hg c pre x post).
  - intros Hg Hkey draw s c s' data Hd He.
    assert (str_ok (byte_to_Z <$> data)) as Hm.
    { apply Forall_fmap, Forall_forall. intros b _. simpl. apply is_scalar_byte.
      pose proof (byte_to_Z_range b). lia. }
    pose proof (sealed_cases key aad draw Hg Hkey Hd _ s Hm) as Hc.
    unfold encrypt_bytes in He. rewrite He in Hc. by apply decrypt_raw_bytes.
  - intros c Hc. destruct (decrypt_v7_no_panic key aad c Hc) as [Hnb Hnr]. split; [done|]. split; [done|].
    pose proof (open_v7_cases c key aad Hc) as Ho. unfold decrypt_bytes.
    destruct gated_cases as [-> | ->]; [rewrite !bind_Ok|done].
    destruct (open_v7 c key aad) as [m|e|]; [|done|done]. rewrite !bind_Ok.
    destruct Ho as (Hm & Hk & nonce & masked & -> & _).
    rewrite (map_indexed_Ok _ (λ c, c)).
      * rewrite list_fmap_id. intros m' [= <-]. split_and!; eauto.
      * intros j x Hx. unfold str_ok in Hm. rewrite Forall_forall in Hm. unfold char_from_u32.
        by rewrite (Hm x Hx).
Qed.

(** The continuous RNG test: no two consecutive accepted nonces are equal,
    a draw equal to the previous one is refused and latches the sticky error state,
    which no later draw clears; without such a repeat the latch is untouched. *)
Theorem crng_check_correct `{Crypto} draws s :
  let '(ns, s') := nonces draws s in
  consecutive_distinct (prev_nonce s) ns ∧
  (module_state s' = POST_FAILED ∨
   (module_state s' = module_state s ∧ consecutive_distinct (prev_nonce s) draws)) ∧
  (module_state s = POST_FAILED → module_state s' = POST_FAILED) ∧
  (∀ in_post, module_state s' = POST_FAILED → gate_admit (module_state s') in_post = Err ModuleNotOperational).
Proof.
  pose proof (nonces_cases draws s) as Hc. destruct (nonces draws s) as [ns s'].
  destruct Hc as (H1 & H2 & H3). split_and!; [done..|]. intros b ->. done.
Qed.
