(* ===== verification/StreamV8.v ===== *)
(** * The v8 streaming format ([lib.rs], "Streaming AE v8")

    [header (21) || chunk frame * C || sentinel (44)], with [F] codepoints in
    every chunk: the all-at-once encryptor, the chunk-at-a-time
    [StreamV8Encryptor], and the decryptor that releases nothing before the
    sentinel has verified. *)
From Stdlib Require Import ZArith Lia Strings.Byte.
From stdpp Require Import base tactics option numbers list.
From S2P Require Import Prelude Machine Errors Crates Post Primes Keys Derive Padding Tokens BlockV8 LegacyV7.

#[local] Open Scope Z_scope.
#[local] Open Scope napqes_scope.

Definition STREAM_AE_V8_DEFAULT_FRAME : Z := 128.
Definition STREAM_AE_V8_MAX_FRAME : Z := 16384.

Definition stream_v8_header (f : Z) (nonce : list byte) : list byte :=
  FORMAT_STREAM_AE_V8 :: to_be_bytes 4 f ++ nonce.

Definition validate_stream_v8_frame (f : Z) : outcome error unit :=
  if (f <? 1) || (STREAM_AE_V8_MAX_FRAME <? f) then Err (StreamBadFrame f) else Ok tt.

(** [chunk_idx.checked_add(1).ok_or(..)]. *)
Definition next_stream_chunk_idx (chunk_idx : Z) : outcome error Z :=
  if chunk_idx + 1 <? 2 ^ 32 then Ok (chunk_idx + 1) else Err StreamChunkLimit.

(** A wiped buffer is empty. *)
Definition zeroize_codepoints (buf : list Z) : list Z := [].

(** The variables of [encrypt_stream_ae_v8_inner]. *)
Record stream_state := StreamState
  { st_stream : list byte; st_cp_buf : list Z; st_total : Z; st_chunk_idx : Z }.

Record StreamV8Encryptor := MkEncryptor {
  se_primes : list Z; se_sk_fmt : list byte; se_aad : list byte; se_nonce : list byte;
  se_f : Z; se_chunk_idx : Z; se_total_real_cps : Z; se_cp_buf : list Z; se_finished : bool }.

Section stream.
Context `{Crypto}.

(** ** Derivations of the stream *)

Definition stream_v8_count_mask (sk_fmt : list byte) (f : Z) (nonce : list byte) (chunk_count : Z) : Z :=
  let buf := x0f :: stream_v8_header f nonce ++ to_be_bytes 4 chunk_count in
  u64_from_be8 (take 8 (hmac_digest sk_fmt buf)).

Definition derive_stream_v8_sub_nonce (sk_fmt nonce : list byte) (chunk_idx : Z) : list byte :=
  let d := hmac_digest sk_fmt (hmac_input x0e nonce (to_be_bytes 4 chunk_idx)) in
  take NONCE_SIZE d.

Definition derive_stream_v8_filler_cp (sk_fmt sub_nonce : list byte) (fill_idx : Z) : Z :=
  let d := hmac_digest sk_fmt (hmac_input x06 sub_nonce (to_be_bytes 4 fill_idx)) in
  let n := u32_from_be4 d in
  n mod PAD_ALPHABET + ASCII_PRINTABLE_BASE.

Definition compute_stream_v8_chunk_tag (sk_fmt : list byte) (f : Z) (nonce : list byte)
    (chunk_idx : Z) (aad masked_chunk : list byte) : outcome error (list byte) :=
  prefix ← be_len_prefix (Z.of_nat (length aad)) AAD_LEN_WIDTH_V8;
  Ok (hmac_digest sk_fmt (x0c :: stream_v8_header f nonce ++ to_be_bytes 4 chunk_idx
                              ++ prefix ++ aad ++ masked_chunk)).

Definition compute_stream_v8_sentinel_tag (sk_fmt : list byte) (f : Z) (nonce : list byte)
    (chunk_count : Z) (aad : list byte) (total_real_cps : Z) : outcome error (list byte) :=
  prefix ← be_len_prefix (Z.of_nat (length aad)) AAD_LEN_WIDTH_V8;
  Ok (hmac_digest sk_fmt (x0d :: stream_v8_header f nonce ++ to_be_bytes 4 chunk_count
                              ++ prefix ++ aad ++ to_be_bytes 8 total_real_cps)).

(** ** Encryption *)

Definition encrypt_v8_stream_chunk_core (chunk_cps primes : list Z) (sk_fmt sub_nonce : list byte)
    : outcome error (list Z) :=
  emit_tokens_v8 chunk_cps primes sk_fmt sub_nonce.

Definition emit_stream_v8_chunk (codepoints_f : list Z) (idx : Z) (primes : list Z)
    (sk_fmt nonce aad : list byte) : outcome error (list byte) :=
  let sub_nonce := derive_stream_v8_sub_nonce sk_fmt nonce idx in
  tokens ← encrypt_v8_stream_chunk_core codepoints_f primes sk_fmt sub_nonce;
  let blob := fixed_encode_tokens tokens in
  ks ← varint_keystream sk_fmt sub_nonce (length blob);
  let masked := xor_bytes blob ks in
  tag ← compute_stream_v8_chunk_tag sk_fmt (Z.of_nat (length codepoints_f) mod 2 ^ 32) nonce idx aad masked;
  Ok (to_be_bytes 4 (Z.of_nat (length masked)) ++ masked ++ tag).

(** The body of [for ch in plaintext.chars()]. *)
Definition encrypt_stream_char (primes : list Z) (sk_fmt nonce aad : list byte) (f : nat)
    (ch : Z) (s : stream_state) : outcome error stream_state :=
  let cp_buf := st_cp_buf s ++ [ch] in
  total ← st_total s +64 1;
  if bool_decide (f ≤ length cp_buf)%nat then
    next ← next_stream_chunk_idx (st_chunk_idx s);
    chunk ← index_range 0 f cp_buf;
    frame ← emit_stream_v8_chunk chunk (st_chunk_idx s) primes sk_fmt nonce aad;
    Ok (StreamState (st_stream s ++ frame) (drop f cp_buf) total next)
  else Ok (StreamState (st_stream s) cp_buf total (st_chunk_idx s)).

Fixpoint encrypt_stream_chars (primes : list Z) (sk_fmt nonce aad : list byte) (f : nat)
    (plaintext : list Z) (s : stream_state) : outcome error stream_state :=
  match plaintext with
  | [] => Ok s
  | ch :: rest =>
      s' ← encrypt_stream_char primes sk_fmt nonce aad f ch s;
      encrypt_stream_chars primes sk_fmt nonce aad f rest s'
  end.

(** The final partial chunk, topped up with filler to [F] codepoints. *)
Definition fill_chunk (sk_fmt nonce : list byte) (f : nat) (chunk_idx : Z) (cp_buf : list Z)
    : outcome error (list Z) :=
  let sub_nonce_last := derive_stream_v8_sub_nonce sk_fmt nonce chunk_idx in
  fill_needed ← Z.of_nat f -! Z.of_nat (length cp_buf);
  Ok (cp_buf ++ (derive_stream_v8_filler_cp sk_fmt sub_nonce_last <$> seqZ 0 fill_needed)).

Definition stream_v8_sentinel (sk_fmt : list byte) (f : Z) (nonce : list byte) (chunk_idx : Z)
    (aad : list byte) (total_real_cps : Z) : outcome error (list byte) :=
  tag ← compute_stream_v8_sentinel_tag sk_fmt f nonce chunk_idx aad total_real_cps;
  let mask := stream_v8_count_mask sk_fmt f nonce chunk_idx in
  Ok (to_be_bytes 4 0 ++ to_be_bytes 8 (Z.lxor total_real_cps mask) ++ tag).

(** What follows the character loop: the partial chunk and the sentinel. *)
Definition finish_stream (primes : list Z) (sk_fmt nonce aad : list byte) (frame_codepoints : Z)
    (s : stream_state) : outcome error (list byte) :=
  let f := Z.to_nat frame_codepoints in
  s' ← (if bool_decide (st_cp_buf s = []) then Ok s
        else
          next ← next_stream_chunk_idx (st_chunk_idx s);
          cp_buf ← fill_chunk sk_fmt nonce f (st_chunk_idx s) (st_cp_buf s);
          frame ← emit_stream_v8_chunk cp_buf (st_chunk_idx s) primes sk_fmt nonce aad;
          Ok (StreamState (st_stream s ++ frame) cp_buf (st_total s) next));
  sentinel ← stream_v8_sentinel sk_fmt frame_codepoints nonce (st_chunk_idx s') aad (st_total s');
  Ok (st_stream s' ++ sentinel).

Definition encrypt_stream_ae_v8_inner (plaintext primes : list Z) (sk_fmt nonce aad : list byte)
    (frame_codepoints : Z) : outcome error (list byte) :=
  let f := Z.to_nat frame_codepoints in
  let header := FORMAT_STREAM_AE_V8 :: to_be_bytes 4 frame_codepoints ++ nonce in
  s ← encrypt_stream_chars primes sk_fmt nonce aad f plaintext (StreamState header [] 0 0);
  finish_stream primes sk_fmt nonce aad frame_codepoints s.

Definition encrypt_stream_ae_v8_with_nonce (plaintext primes : list Z) (sk nonce aad : list byte)
    (frame_codepoints : Z) : outcome error (list byte) :=
  _ ← validate_key primes;
  _ ← validate_stream_v8_frame frame_codepoints;
  let sk_fmt := derive_format_subkey sk FORMAT_STREAM_AE_V8 in
  encrypt_stream_ae_v8_inner plaintext primes sk_fmt nonce aad frame_codepoints.

(** ** Decryption *)

(** The outer [while (real_idx as u32) < f] over [(codepoints, real_idx, ct_pos)]. *)
Definition decrypt_chunk_step (primes : list Z) (sk_fmt sub_nonce : list byte) (theta f : Z)
    (chunk_tokens : list Z) (s : list Z * Z * Z) : (list Z * Z * Z) + outcome error (list Z) :=
  let '(codepoints, real_idx, ct_pos) := s in
  let n := Z.of_nat (length chunk_tokens) in
  if real_idx mod 2 ^ 32 <? f then
    continue_with (
      r ← skip_noise sk_fmt sub_nonce theta n ct_pos;
      let '(ct_pos, _) := r in
      if n <=? ct_pos then Err StreamChunkTruncated
      else
        k ← key_at primes real_idx;
        addend ← derive_addend sk_fmt sub_nonce real_idx k;
        token ← expect PanicBounds (chunk_tokens !! Z.to_nat ct_pos);
        cp ← recover_codepoint (StreamChunkMalformed ct_pos) StreamChunkNotScalar token addend k;
        ct_pos' ← ct_pos +64 1;
        real_idx' ← real_idx +64 1;
        Ok (codepoints ++ [cp], real_idx', ct_pos'))
  else inr (Ok codepoints).

Definition decrypt_v8_stream_chunk_core (chunk_tokens primes : list Z) (sk_fmt sub_nonce : list byte)
    (f : Z) : outcome error (list Z) :=
  noise_theta ← derive_noise_threshold_v8 sk_fmt sub_nonce;
  while_loop 64 (decrypt_chunk_step primes sk_fmt sub_nonce noise_theta f chunk_tokens) ([], 0, 0).

(** The sentinel branch of the frame loop. *)
Definition open_sentinel (stream sk_fmt aad : list byte) (f : Z) (nonce : list byte) (pos : nat)
    (chunk_idx : Z) (delivered : list Z) (pending : option (list Z)) : outcome error (list Z) :=
  if bool_decide (length stream < pos + 8 + TAG_SIZE)%nat then Err StreamNoSentinelBody
  else
    let total_real_cps := Z.lxor (u64_from_be8 (slice pos (pos + 8) stream))
                                 (stream_v8_count_mask sk_fmt f nonce chunk_idx) in
    let recv_tag := slice (pos + 8) (pos + 8 + TAG_SIZE) stream in
    calc ← compute_stream_v8_sentinel_tag sk_fmt f nonce chunk_idx aad total_real_cps;
    if negb (ct_eq_bytes recv_tag calc) then Err StreamSentinelTag
    else
      let pos := (pos + 8 + TAG_SIZE)%nat in
      let pending_len := Z.of_nat (length (default [] pending)) in
      let delivered_len := Z.of_nat (length delivered) in
      available ← delivered_len +64 pending_len;
      let consistent := match pending with
        | Some _ => (delivered_len <? total_real_cps) && (total_real_cps <=? available)
        | None => total_real_cps =? delivered_len
        end in
      if negb consistent then Err (StreamSentinelCount total_real_cps delivered_len pending_len)
      else
        delivered ← match pending with
          | Some p =>
              keep ← total_real_cps -! delivered_len;
              Ok (delivered ++ take (Z.to_nat keep) p)
          | None => Ok delivered
          end;
        if bool_decide (pos ≠ length stream)
        then Err (StreamTrailingBytes (Z.of_nat (length stream) - Z.of_nat pos))
        else collect (λ c, opt_or (char_from_u32 c) (StreamNotScalar c)) delivered.

(** One iteration of the frame loop over [(pos, chunk_idx, delivered, pending)]. *)
Definition decrypt_stream_step (stream : list byte) (primes : list Z) (sk_fmt aad : list byte)
    (f : Z) (nonce : list byte) (expected_chunk_body_len : Z)
    (s : nat * Z * list Z * option (list Z))
    : (nat * Z * list Z * option (list Z)) + outcome error (list Z) :=
  let '(pos, chunk_idx, delivered, pending) := s in
  if bool_decide (length stream < pos + 4)%nat then inr (Err StreamNoLengthPrefix)
  else
    let chunk_len := from_be_bytes (slice pos (pos + 4) stream) in
    let pos := (pos + 4)%nat in
    if chunk_len =? 0 then
      inr (open_sentinel stream sk_fmt aad f nonce pos chunk_idx delivered pending)
    else if negb (chunk_len =? expected_chunk_body_len) then
      inr (Err (StreamChunkLength chunk_len expected_chunk_body_len))
    else
      let len := Z.to_nat chunk_len in
      if bool_decide (length stream < pos + len + TAG_SIZE)%nat then inr (Err StreamTruncatedFrame)
      else
        let masked := slice pos (pos + len) stream in
        let recv_tag := slice (pos + len) (pos + len + TAG_SIZE) stream in
        continue_with (
          calc ← compute_stream_v8_chunk_tag sk_fmt f nonce chunk_idx aad masked;
          if negb (ct_eq_bytes recv_tag calc) then Err (StreamChunkTag chunk_idx)
          else
            let pos := (pos + len + TAG_SIZE)%nat in
            next ← next_stream_chunk_idx chunk_idx;
            let sub_nonce := derive_stream_v8_sub_nonce sk_fmt nonce chunk_idx in
            ks ← varint_keystream sk_fmt sub_nonce len;
            let blob := xor_bytes masked ks in
            tokens ← fixed_decode_tokens blob;
            cps ← decrypt_v8_stream_chunk_core tokens primes sk_fmt sub_nonce f;
            let delivered := match pending with Some p => delivered ++ p | None => delivered end in
            Ok (pos, next, delivered, Some cps)).

Definition decrypt_stream_ae_v8_inner (stream : list byte) (primes : list Z) (sk_fmt aad : list byte)
    : outcome error (list Z) :=
  if bool_decide (length stream < 1 + 4 + NONCE_SIZE)%nat
  then Err (StreamHeaderTruncated (Z.of_nat (length stream)))
  else
    id ← expect PanicBounds (stream !! 0%nat);
    if negb (bool_decide (id = FORMAT_STREAM_AE_V8)) then Err (StreamBadFormat (byte_to_Z id))
    else
      let f := from_be_bytes (slice 1 5 stream) in
      if (f <? 1) || (STREAM_AE_V8_MAX_FRAME <? f) then Err (StreamHeaderBadFrame f)
      else
        let nonce := slice 5 (5 + NONCE_SIZE) stream in
        unit ← MAX_NOISE_RUN +64 1;
        bytes ← f *64 Z.of_nat TOKEN_WIDTH;
        expected_chunk_body_len ← bytes *64 unit;
        while_loop 64 (decrypt_stream_step stream primes sk_fmt aad f nonce expected_chunk_body_len)
          ((1 + 4 + NONCE_SIZE)%nat, 0, [], None).

Context `{Gate}.

(** ** Entry points *)

Definition encrypt_stream_ae_v8 (plaintext primes : list Z) (sk aad : list byte)
    (frame_codepoints : Z) (draw : list byte) (s : crng_state)
    : outcome error (list byte) * crng_state :=
  with_nonce gated draw s (λ nonce,
    encrypt_stream_ae_v8_with_nonce plaintext primes sk nonce aad frame_codepoints).

Definition encrypt_stream_ae_v8_key (plaintext : list Z) (key : NapqesKey) (aad : list byte)
    (frame_codepoints : Z) (draw : list byte) (s : crng_state)
    : outcome error (list byte) * crng_state :=
  with_nonce (_ ← gated; validate_stream_v8_frame frame_codepoints) draw s (λ nonce,
    let sk_fmt := derive_format_subkey (sk key) FORMAT_STREAM_AE_V8 in
    encrypt_stream_ae_v8_inner plaintext (primes key) sk_fmt nonce aad frame_codepoints).

Definition decrypt_stream_ae_v8 (stream : list byte) (primes : list Z) (sk aad : list byte)
    : outcome error (list Z) :=
  _ ← gated;
  _ ← validate_key primes;
  let sk_fmt := derive_format_subkey sk FORMAT_STREAM_AE_V8 in
  decrypt_stream_ae_v8_inner stream primes sk_fmt aad.

Definition decrypt_stream_ae_v8_key (stream : list byte) (key : NapqesKey) (aad : list byte)
    : outcome error (list Z) :=
  _ ← gated;
  let sk_fmt := derive_format_subkey (sk key) FORMAT_STREAM_AE_V8 in
  decrypt_stream_ae_v8_inner stream (primes key) sk_fmt aad.

(** ** The incremental encryptor *)

Definition new_validated (primes : list Z) (sk aad : list byte) (frame_codepoints : Z)
    (checks : outcome error unit) (draw : list byte) (s : crng_state)
    : outcome error (StreamV8Encryptor * list byte) * crng_state :=
  with_nonce (_ ← checks; validate_stream_v8_frame frame_codepoints) draw s (λ nonce,
    let sk_fmt := derive_format_subkey sk FORMAT_STREAM_AE_V8 in
    let header := FORMAT_STREAM_AE_V8 :: to_be_bytes 4 frame_codepoints ++ nonce in
    Ok (MkEncryptor primes sk_fmt aad nonce frame_codepoints 0 0 [] false, header)).

Definition encryptor_new (primes : list Z) (sk aad : list byte) (frame_codepoints : Z)
    (draw : list byte) (s : crng_state)
    : outcome error (StreamV8Encryptor * list byte) * crng_state :=
  new_validated primes sk aad frame_codepoints (_ ← gated; validate_key primes) draw s.

Definition encryptor_new_key (key : NapqesKey) (aad : list byte) (frame_codepoints : Z)
    (draw : list byte) (s : crng_state)
    : outcome error (StreamV8Encryptor * list byte) * crng_state :=
  new_validated (primes key) (sk key) aad frame_codepoints gated draw s.

(** [&mut self]: an early return leaves the encryptor as it was. *)
Definition push (ch : Z) (e : StreamV8Encryptor)
    : outcome error (option (list byte)) * StreamV8Encryptor :=
  if se_finished e then (Err StreamPushAfterFinish, e)
  else match gated with
  | Err err => (Err err, e)
  | Panic p => (Panic p, e)
  | Ok _ =>
    if se_chunk_idx e =? 2 ^ 32 - 1 then (Err StreamChunkLimit, e)
    else
      let cp_buf := se_cp_buf e ++ [ch] in
      let e1 total := MkEncryptor (se_primes e) (se_sk_fmt e) (se_aad e) (se_nonce e) (se_f e)
                        (se_chunk_idx e) total cp_buf (se_finished e) in
      match se_total_real_cps e +64 1 with
      | Ok total =>
        if bool_decide (Z.to_nat (se_f e) ≤ length cp_buf)%nat then
          let r :=
            chunk ← index_range 0 (Z.to_nat (se_f e)) cp_buf;
            frame ← emit_stream_v8_chunk chunk (se_chunk_idx e) (se_primes e) (se_sk_fmt e)
                      (se_nonce e) (se_aad e);
            next ← checked_add 32 (se_chunk_idx e) 1;
            Ok (frame, next) in
          match r with
          | Ok (frame, next) =>
              (Ok (Some frame),
               MkEncryptor (se_primes e) (se_sk_fmt e) (se_aad e) (se_nonce e) (se_f e)
                 next total (zeroize_codepoints cp_buf) (se_finished e))
          | Err err => (Err err, e1 total)
          | Panic p => (Panic p, e1 total)
          end
        else (Ok None, e1 total)
      | Err err => (Err err, e)
      | Panic p => (Panic p, e)
      end
  end.

(** [finish(mut self)] consumes the encryptor. *)
Definition finish (e : StreamV8Encryptor) : outcome error (list byte) :=
  if se_finished e then Err StreamFinishTwice
  else
    _ ← gated;
    r ← (if bool_decide (se_cp_buf e = []) then Ok ([], se_chunk_idx e)
         else
           cp_buf ← fill_chunk (se_sk_fmt e) (se_nonce e) (Z.to_nat (se_f e)) (se_chunk_idx e)
                      (se_cp_buf e);
           frame ← emit_stream_v8_chunk cp_buf (se_chunk_idx e) (se_primes e) (se_sk_fmt e)
                     (se_nonce e) (se_aad e);
           next ← checked_add 32 (se_chunk_idx e) 1;
           Ok (frame, next));
    sentinel ← stream_v8_sentinel (se_sk_fmt e) (se_f e) (se_nonce e) r.2 (se_aad e)
                 (se_total_real_cps e);
    Ok (r.1 ++ sentinel).

(** The caller's loop: push every character, concatenating what comes out, and
    stop at the first refusal. *)
Fixpoint push_all (plaintext : list Z) (e : StreamV8Encryptor)
    : outcome error (list byte * StreamV8Encryptor) :=
  match plaintext with
  | [] => Ok ([], e)
  | ch :: rest =>
      let '(r, e') := push ch e in
      o ← r;
      r' ← push_all rest e';
      Ok (default [] o ++ r'.1, r'.2)
  end.
End stream.

(** ** Chunks

    A chunk decodes as the block decoder would decode it, without the padding
    prefix and under its own error messages. *)

Lemma recover_codepoint_same e1 e2 f1 f2 token a k :
  same_outcome (recover_codepoint e1 f1 token a k) (recover_codepoint e2 f2 token a k).
Proof.
  unfold recover_codepoint. apply same_outcome_bind; [apply same_outcome_refl|].
  intros [] _; [done|]. apply same_outcome_bind; [apply same_outcome_refl|]. intros d _.
  apply same_outcome_bind; [apply same_outcome_refl|]. intros cp _. by case_if.
Qed.

Lemma continue_with_same {E S A} (m1 m2 : outcome E S) :
  same_outcome m1 m2 → same_step (A:=A) (continue_with m1) (continue_with m2).
Proof. by destruct m1, m2. Qed.

Section chunk.
Context `{Crypto} (primes : list Z) (sk_fmt sub_nonce : list byte) (f : Z).
Context (Hkey : arith_key primes) (Hf : 1 ≤ f ≤ STREAM_AE_V8_MAX_FRAME).

Lemma decrypt_chunk_step_same theta tokens s :
  0 ≤ s.1.2 ≤ f →
  same_step (decrypt_chunk_step primes sk_fmt sub_nonce theta f tokens s)
    (decrypt_step_v8 primes sk_fmt sub_nonce theta f tokens s) ∧
  ∀ s', decrypt_chunk_step primes sk_fmt sub_nonce theta f tokens s = inl s' → 0 ≤ s'.1.2 ≤ f.
Proof using Hf.
  destruct s as [[cps i] p]. unfold STREAM_AE_V8_MAX_FRAME in Hf. cbn [fst snd].
  intros Hi. unfold decrypt_chunk_step, decrypt_step_v8.
  rewrite Z.mod_small by lia. destruct (Z.ltb_spec i f); [|done]. split.
  - apply continue_with_same. apply same_outcome_bind; [apply same_outcome_refl|].
    intros [pos nr] _. case_if; [done|].
    do 3 (apply same_outcome_bind; [apply same_outcome_refl|intros ? _]).
    apply same_outcome_bind; [apply recover_codepoint_same|]. intros. apply same_outcome_refl.
  - intros s' Hs. destruct (_ ≫= _) as [s''| |] eqn:Hr in Hs; cbn [continue_with] in Hs; [|done|done].
    injection Hs as ->. apply bind_Ok_inv in Hr as ([pos nr] & _ & Hr).
    revert Hr. case_if; [done|]. intros Hr. inv_ok. unfold checked_add in *.
    repeat case_if_in Hv3; repeat case_if_in Hv4; try done. inv_ok. cbn. lia.
Qed.

Lemma decrypt_chunk_same tokens :
  same_outcome (decrypt_v8_stream_chunk_core tokens primes sk_fmt sub_nonce f)
    (theta ← derive_noise_threshold_v8 sk_fmt sub_nonce;
     while_loop 64 (decrypt_step_v8 primes sk_fmt sub_nonce theta f tokens) ([], 0, 0)).
Proof using Hf.
  unfold decrypt_v8_stream_chunk_core. apply same_outcome_bind; [apply same_outcome_refl|].
  intros theta _. apply (while_loop_same 64 _ _ (λ s, 0 ≤ s.1.2 ≤ f)); [|simpl; lia].
  apply decrypt_chunk_step_same.
Qed.

Lemma decrypt_chunk_cases tokens :
  Forall (fits 64) tokens → Z.of_nat (length tokens) < 2 ^ 61 →
  match decrypt_v8_stream_chunk_core tokens primes sk_fmt sub_nonce f with
  | Ok l => str_ok l ∧ Z.of_nat (length l) = f
  | Err _ => True
  | Panic _ => False
  end.
Proof using Hf Hkey.
  intros Ht Hn. pose proof (decrypt_chunk_same tokens) as Hs. unfold STREAM_AE_V8_MAX_FRAME in Hf.
  destruct (theta_cases sk_fmt sub_nonce) as (theta & Htheta & _). rewrite Htheta, bind_Ok in Hs.
  pose proof (decrypt_loop_v8_safe primes sk_fmt sub_nonce Hkey theta f tokens Ht Hn ltac:(lia)) as Hd.
  destruct (decrypt_v8_stream_chunk_core _ _ _ _ _), (while_loop _ _ _); try done.
  cbn [same_outcome] in Hs. by subst.
Qed.

Lemma decrypt_encrypt_chunk cps :
  str_ok cps → Z.of_nat (length cps) = f →
  ∃ tokens, encrypt_v8_stream_chunk_core cps primes sk_fmt sub_nonce = Ok tokens ∧
    Z.of_nat (length tokens) = 20 * f ∧ Forall (fits 64) tokens ∧
    decrypt_v8_stream_chunk_core tokens primes sk_fmt sub_nonce f = Ok cps.
Proof using Hf Hkey.
  intros Hcps Hlen. unfold STREAM_AE_V8_MAX_FRAME in Hf.
  destruct (emit_tokens_v8_spec primes sk_fmt sub_nonce Hkey cps Hcps ltac:(lia))
    as (theta & b & tail & Htheta & -> & Hemit & Hlt & Hfits).
  eexists. split_and!; [exact Hemit|lia|done|].
  set (tokens := body _ _ _ _ _ _ _ _ ++ tail) in *.
  pose proof (decrypt_chunk_same tokens) as Hs. rewrite Htheta, bind_Ok in Hs.
  assert (Z.of_nat (length tokens) < 2 ^ 61) as Hn by lia.
  pose proof (decrypt_body_v8 primes sk_fmt sub_nonce Hkey theta cps tail Hcps Hn) as Hd.
  cbv zeta in Hd. fold tokens in Hd. rewrite Hlen in Hd. rewrite Hd in Hs.
  destruct (decrypt_v8_stream_chunk_core _ _ _ _ _); try done. cbn [same_outcome] in Hs. by subst.
Qed.
End chunk.

(** ** The format

    An abstract description of the streams the decryptor accepts: sealed chunk
    bodies in order, then the sentinel over their number and the exact count. *)
Section format.
Context `{Crypto} (primes : list Z) (sk_fmt aad : list byte) (f : Z) (nonce : list byte).

(** What the tag of a chunk and the tag of the sentinel cover. *)
Definition chunk_covered (i : Z) (body : list byte) : list byte :=
  x0c :: stream_v8_header f nonce ++ to_be_bytes 4 i
    ++ to_be_bytes 8 (Z.of_nat (length aad)) ++ aad ++ body.

Definition sentinel_covered (count total : Z) : list byte :=
  x0d :: stream_v8_header f nonce ++ to_be_bytes 4 count
    ++ to_be_bytes 8 (Z.of_nat (length aad)) ++ aad ++ to_be_bytes 8 total.

Definition chunk_auth (i : Z) (body : list byte) : list byte := hmac_digest sk_fmt (chunk_covered i body).

Definition sealed (i : Z) (body : list byte) : list byte :=
  to_be_bytes 4 (160 * f) ++ body ++ chunk_auth i body.

Fixpoint sealed_from (i : Z) (bodies : list (list byte)) : list byte :=
  match bodies with
  | [] => []
  | body :: bodies' => sealed i body ++ sealed_from (i + 1) bodies'
  end.

Definition sentinel_auth (count total : Z) : list byte := hmac_digest sk_fmt (sentinel_covered count total).

Definition sentinel (count total : Z) : list byte :=
  to_be_bytes 4 0 ++ to_be_bytes 8 (Z.lxor total (stream_v8_count_mask sk_fmt f nonce count))
  ++ sentinel_auth count total.

(** The number of codepoints read off the sentinel's eight bytes behind [count] chunks. *)
Definition sentinel_total (count : Z) (masked : list byte) : Z :=
  Z.lxor (u64_from_be8 masked) (stream_v8_count_mask sk_fmt f nonce count).

(** What chunk [i] carries. *)
Definition open_body (i : Z) (body : list byte) : outcome error (list Z) :=
  let sub_nonce := derive_stream_v8_sub_nonce sk_fmt nonce i in
  tokens ← fixed_decode_tokens (mask sk_fmt sub_nonce body);
  decrypt_v8_stream_chunk_core tokens primes sk_fmt sub_nonce f.

Fixpoint opened_from (i : Z) (bodies : list (list byte)) (chunks : list (list Z)) : Prop :=
  match bodies, chunks with
  | [], [] => True
  | body :: bodies', chunk :: chunks' =>
      Z.of_nat (length body) = 160 * f ∧ open_body i body = Ok chunk ∧
      opened_from (i + 1) bodies' chunks'
  | _, _ => False
  end.

(** The last chunk carries at least one real codepoint. *)
Definition canonical_count (count total : Z) : Prop :=
  (count = 0 ∧ total = 0) ∨ (0 < count ∧ (count - 1) * f < total ≤ count * f).

#[export] Instance canonical_count_dec count total : Decision (canonical_count count total).
Proof. unfold canonical_count. apply _. Defined.

Definition stream_spec (stream : list byte) (m : list Z) : Prop :=
  ∃ bodies chunks total,
    stream = stream_v8_header f nonce ++ sealed_from 0 bodies
             ++ sentinel (Z.of_nat (length bodies)) total ∧
    opened_from 0 bodies chunks ∧ Z.of_nat (length bodies) < 2 ^ 32 ∧
    canonical_count (Z.of_nat (length bodies)) total ∧
    m = take (Z.to_nat total) (concat chunks).
End format.

Lemma sealed_from_snoc `{Crypto} sk_fmt aad f nonce i bodies body :
  sealed_from sk_fmt aad f nonce i (bodies ++ [body])
  = sealed_from sk_fmt aad f nonce i bodies
    ++ sealed sk_fmt aad f nonce (i + Z.of_nat (length bodies)) body.
Proof.
  revert i. induction bodies as [|b bodies IH]; intros i; cbn [app sealed_from].
  - by rewrite app_nil_r, Z.add_0_r.
  - rewrite IH, <-app_assoc. do 3 f_equal. simpl. lia.
Qed.

Lemma opened_from_snoc `{Crypto} primes sk_fmt f nonce i bodies chunks body chunk :
  opened_from primes sk_fmt f nonce i bodies chunks →
  Z.of_nat (length body) = 160 * f →
  open_body primes sk_fmt f nonce (i + Z.of_nat (length bodies)) body = Ok chunk →
  opened_from primes sk_fmt f nonce i (bodies ++ [body]) (chunks ++ [chunk]).
Proof.
  revert i chunks. induction bodies as [|b bodies IH]; intros i [|c chunks]; try done; cbn [app opened_from].
  - intros _ Hb Ho. by rewrite Z.add_0_r in Ho.
  - intros (? & ? & Hrest) Hb Ho. split_and!; [done..|]. apply IH; [done..|].
    rewrite <-Ho. f_equal. simpl. lia.
Qed.

Lemma concat_snoc {A} (ls : list (list A)) l : concat (ls ++ [l]) = concat ls ++ l.
Proof. rewrite concat_app. simpl. by rewrite app_nil_r. Qed.

(** ** One iteration of the frame loop *)

Section step.
Context `{Crypto} (primes : list Z) (sk_fmt aad : list byte) (f : Z) (nonce : list byte).
Context (Hkey : arith_key primes) (Hf : 1 ≤ f ≤ STREAM_AE_V8_MAX_FRAME).

Lemma open_body_cases i body :
  Z.of_nat (length body) = 160 * f →
  match open_body primes sk_fmt f nonce i body with
  | Ok l => str_ok l ∧ Z.of_nat (length l) = f
  | Err _ => True
  | Panic _ => False
  end.
Proof using Hkey Hf.
  intros Hb. unfold open_body. unfold STREAM_AE_V8_MAX_FRAME in Hf.
  set (sub := derive_stream_v8_sub_nonce _ _ _).
  pose proof (fixed_decode_cases (mask sk_fmt sub body)) as Hd.
  destruct (fixed_decode_tokens _) as [tokens| |]; [|done..]. rewrite bind_Ok.
  destruct Hd as [Heq Hfits]. apply (f_equal length) in Heq.
  rewrite length_mask, length_fixed_encode_tokens in Heq.
  apply (decrypt_chunk_cases primes sk_fmt sub f Hkey); [done|done|lia].
Qed.

Lemma opened_lengths i bodies chunks :
  opened_from primes sk_fmt f nonce i bodies chunks →
  length chunks = length bodies ∧ str_ok (concat chunks) ∧
  Z.of_nat (length (concat chunks)) = f * Z.of_nat (length bodies) ∧
  Z.of_nat (length (sealed_from sk_fmt aad f nonce i bodies)) = (160 * f + 36) * Z.of_nat (length bodies).
Proof using Hkey Hf.
  revert i chunks. induction bodies as [|b bodies IH]; intros i [|c chunks]; try done.
  { intros _. cbn [length concat sealed_from]. split_and!; [done|constructor|lia|lia]. }
  intros (Hb & Ho & Hrest). destruct (IH _ _ Hrest) as (Hl & Hs & Hc & Hse).
  pose proof (open_body_cases i b Hb) as Hcases. rewrite Ho in Hcases. destruct Hcases as [Hsc Hlc].
  cbn [length concat sealed_from]. split_and!.
  - lia.
  - by apply Forall_app_2.
  - rewrite length_app. lia.
  - unfold sealed, chunk_auth. rewrite !length_app, length_to_be_bytes, length_hmac_digest. lia.
Qed.

(** The state between two frames. *)
Definition frame_state (stream : list byte) (s : nat * Z * list Z * option (list Z)) : Prop :=
  let '(pos, idx, delivered, pending) := s in
  (21 ≤ pos ≤ length stream)%nat ∧ 0 ≤ idx < 2 ^ 32 ∧
  str_ok (delivered ++ default [] pending) ∧
  match pending with
  | Some p => 1 ≤ idx ∧ Z.of_nat (length p) = f ∧ Z.of_nat (length delivered) = f * (idx - 1)
  | None => idx = 0 ∧ delivered = []
  end.

Lemma chunk_tag_Ok i body :
  compute_stream_v8_chunk_tag sk_fmt f nonce i aad body = Ok (chunk_auth sk_fmt aad f nonce i body).
Proof using Type. unfold compute_stream_v8_chunk_tag. by rewrite be_len_prefix_v8. Qed.

Lemma sentinel_tag_Ok count total :
  compute_stream_v8_sentinel_tag sk_fmt f nonce count aad total
  = Ok (sentinel_auth sk_fmt aad f nonce count total).
Proof using Type. unfold compute_stream_v8_sentinel_tag. by rewrite be_len_prefix_v8. Qed.

Lemma u64_xor_mask v count : fits 64 v → fits 64 (Z.lxor v (stream_v8_count_mask sk_fmt f nonce count)).
Proof using Type.
  intros Hv. pose proof (u64_from_be8_range (take 8 (hmac_digest sk_fmt
    (x0f :: stream_v8_header f nonce ++ to_be_bytes 4 count)))) as Hm.
  fold (stream_v8_count_mask sk_fmt f nonce count) in Hm.
  by apply (lxor_bound 64).
Qed.

Lemma lxor_cancel a b : Z.lxor (Z.lxor a b) b = a.
Proof using Type. by rewrite Z.lxor_assoc, Z.lxor_nilpotent, Z.lxor_0_r. Qed.

(** The sentinel's eight bytes read back as the total they were made from. *)
Lemma sentinel_total_mask count total : fits 64 total →
  sentinel_total sk_fmt f nonce count (to_be_bytes 8 (Z.lxor total (stream_v8_count_mask sk_fmt f nonce count))) = total.
Proof using Type.
  intros Ht. unfold sentinel_total, u64_from_be8. rewrite firstn_all2 by (by rewrite length_to_be_bytes).
  rewrite from_to_be_bytes by (by apply u64_xor_mask). apply lxor_cancel.
Qed.

Lemma slice_at {A} pos i j (l : list A) : slice (pos + i) (pos + j) l = slice i j (drop pos l).
Proof using Type. unfold slice. rewrite drop_drop. f_equal. lia. Qed.

Lemma take_total (delivered : list Z) (pending : option (list Z)) idx total :
  match pending with
  | Some p => 1 ≤ idx ∧ Z.of_nat (length p) = f ∧ Z.of_nat (length delivered) = f * (idx - 1)
  | None => idx = 0 ∧ delivered = []
  end →
  canonical_count f idx total →
  match pending with
  | Some p => keep ← total -! Z.of_nat (length delivered); Ok (delivered ++ take (Z.to_nat keep) p)
  | None => Ok delivered
  end = Ok (E:=error) (take (Z.to_nat total) (delivered ++ default [] pending)).
Proof using Hf.
  unfold STREAM_AE_V8_MAX_FRAME in Hf. unfold canonical_count.
  destruct pending as [p|]; cbn [default from_option id].
  - intros (Hi & Hp & Hd) Hc. rewrite checked_sub_Ok, bind_Ok by nia.
    rewrite take_app_ge by nia. do 3 f_equal. lia.
  - intros [-> ->] [[_ ->]|[? _]]; [done|lia].
Qed.

(** Whether the decryptor finds the count canonical. *)
Lemma consistent_canonical (delivered : list Z) (pending : option (list Z)) idx total :
  match pending with
  | Some p => 1 ≤ idx ∧ Z.of_nat (length p) = f ∧ Z.of_nat (length delivered) = f * (idx - 1)
  | None => idx = 0 ∧ delivered = []
  end →
  match pending with
  | Some _ => (Z.of_nat (length delivered) <? total)
      && (total <=? Z.of_nat (length delivered) + Z.of_nat (length (default [] pending)))
  | None => total =? Z.of_nat (length delivered)
  end = true ↔ canonical_count f idx total.
Proof using Hf.
  unfold canonical_count. destruct pending as [p|]; cbn [default from_option id].
  - intros (Hi & Hp & Hd). rewrite andb_true_iff, Z.ltb_lt, Z.leb_le, Hd, Hp. lia.
  - intros [-> ->]. rewrite Z.eqb_eq. simpl. lia.
Qed.

Lemma open_sentinel_cases stream pos idx delivered pending :
  frame_state stream (pos, idx, delivered, pending) → Z.of_nat (length stream) < 2 ^ 60 →
  (pos + 4 ≤ length stream)%nat →
  match open_sentinel stream sk_fmt aad f nonce (pos + 4) idx delivered pending with
  | Ok m => ∃ total, fits 64 total ∧
      drop (pos + 4) stream = to_be_bytes 8 (Z.lxor total (stream_v8_count_mask sk_fmt f nonce idx))
        ++ sentinel_auth sk_fmt aad f nonce idx total ∧
      canonical_count f idx total ∧ m = take (Z.to_nat total) (delivered ++ default [] pending)
  | Err _ => True
  | Panic _ => False
  end.
Proof using Hf.
  intros ((Hpos & Hle) & Hidx & Hstr & Hpend) Hn Hp4. unfold open_sentinel.
  unfold STREAM_AE_V8_MAX_FRAME in Hf.
  replace (slice (pos + 4) (pos + 4 + 8) stream) with (take 8 (drop (pos + 4) stream))
    by (unfold slice; f_equal; lia).
  replace (slice (pos + 4 + 8) (pos + 4 + 8 + TAG_SIZE) stream)
    with (take 32 (drop 8 (drop (pos + 4) stream)))
    by (unfold slice; rewrite drop_drop; f_equal; unfold TAG_SIZE; lia).
  case_bool_decide as Hshort; [done|]. unfold TAG_SIZE in Hshort.
  set (rest := drop (pos + 4) stream).
  assert (length rest = length stream - (pos + 4))%nat as Hrl by apply length_drop.
  set (v := u64_from_be8 (take 8 rest)). set (mk := stream_v8_count_mask _ _ _ _).
  set (total := Z.lxor v mk).
  rewrite sentinel_tag_Ok, bind_Ok. unfold ct_eq_bytes.
  destruct (ct_eq _ _) eqn:Htag; cbn [negb]; [|done]. apply ct_eq_spec in Htag.
  assert (Z.of_nat (length delivered) + Z.of_nat (length (default [] pending)) < 2 ^ 64) as Hav.
  { destruct pending as [p|]; cbn [default from_option id]; [nia|]. destruct Hpend as [_ ->]. simpl. lia. }
  rewrite checked_add_Ok, bind_Ok by exact Hav.
  pose proof (consistent_canonical delivered pending idx total Hpend) as Hcons.
  destruct (match pending with Some _ => _ | None => _ end) eqn:Hcc; cbn [negb]; [|done].
  clear Hcc. pose proof (proj1 Hcons eq_refl) as Hcc. rewrite (take_total delivered pending idx total Hpend Hcc), bind_Ok.
  case_bool_decide as Htrail; [done|].
  assert (str_ok (take (Z.to_nat total) (delivered ++ default [] pending))) as Hm by by apply Forall_take.
  unfold char_from_u32.
  rewrite (collect_Ok _ (λ c, c)).
  2: { intros c Hc. unfold str_ok in Hm. rewrite Forall_forall in Hm. by rewrite (Hm c Hc). }
  rewrite list_fmap_id. exists total. split_and!; [| |done|done].
  - apply (u64_xor_mask v idx). apply u64_from_be8_range.
  - assert (length rest = 40)%nat as Hr40 by (unfold TAG_SIZE in *; lia).
    rewrite <-(take_drop 8 rest) at 1. f_equal.
    + unfold total. rewrite lxor_cancel. unfold v, u64_from_be8.
      rewrite take_take, Nat.min_id. symmetry. apply to_from_be_bytes'. rewrite length_take. lia.
    + rewrite <-Htag. symmetry. apply firstn_all2. rewrite length_drop. lia.
Qed.

(** The sentinel branch on a count under the mask and any tag. *)
Lemma open_sentinel_eq stream pos idx delivered pending total tag :
  frame_state stream (pos, idx, delivered, pending) → Z.of_nat (length stream) < 2 ^ 60 →
  fits 64 total → length tag = TAG_SIZE →
  drop (pos + 4) stream = to_be_bytes 8 (Z.lxor total (stream_v8_count_mask sk_fmt f nonce idx)) ++ tag →
  open_sentinel stream sk_fmt aad f nonce (pos + 4) idx delivered pending
  = if bool_decide (tag = sentinel_auth sk_fmt aad f nonce idx total) then
      if bool_decide (canonical_count f idx total) then Ok (take (Z.to_nat total) (delivered ++ default [] pending))
      else Err (StreamSentinelCount total (Z.of_nat (length delivered)) (Z.of_nat (length (default [] pending))))
    else Err StreamSentinelTag.
Proof using Hf.
  intros ((Hpos & Hle) & Hidx & Hstr & Hpend) Hn Htot Htag Hrest. unfold open_sentinel.
  pose proof (f_equal length Hrest) as Hrl. unfold TAG_SIZE in Htag.
  rewrite length_drop, length_app, length_to_be_bytes, Htag in Hrl.
  replace (slice (pos + 4) (pos + 4 + 8) stream) with (take 8 (drop (pos + 4) stream))
    by (unfold slice; f_equal; lia).
  replace (slice (pos + 4 + 8) (pos + 4 + 8 + TAG_SIZE) stream)
    with (take 32 (drop 8 (drop (pos + 4) stream)))
    by (unfold slice; rewrite drop_drop; f_equal; unfold TAG_SIZE; lia).
  rewrite bool_decide_eq_false_2 by (unfold TAG_SIZE; lia).
  rewrite Hrest. rewrite take_app_length', drop_app_length' by (by rewrite length_to_be_bytes).
  rewrite (firstn_all2 (n:=32)) by lia.
  assert (u64_from_be8 (to_be_bytes 8 (Z.lxor total (stream_v8_count_mask sk_fmt f nonce idx)))
          = Z.lxor total (stream_v8_count_mask sk_fmt f nonce idx)) as ->.
  { unfold u64_from_be8. rewrite firstn_all2 by (by rewrite length_to_be_bytes).
    apply from_to_be_bytes. by apply u64_xor_mask. }
  rewrite lxor_cancel, sentinel_tag_Ok, bind_Ok. unfold ct_eq_bytes.
  destruct (decide (tag = sentinel_auth sk_fmt aad f nonce idx total)) as [Heq|Heq].
  2: { rewrite (bool_decide_eq_false_2 (tag = _)) by done. destruct (ct_eq _ _) eqn:Hct; [|done]. by apply ct_eq_spec in Hct. }
  rewrite (bool_decide_eq_true_2 (tag = _)), (proj2 (ct_eq_spec _ _)) by done. cbn [negb]. unfold STREAM_AE_V8_MAX_FRAME in Hf.
  assert (Z.of_nat (length delivered) + Z.of_nat (length (default [] pending)) < 2 ^ 64) as Hav.
  { destruct pending as [p|]; cbn [default from_option id]; [nia|]. destruct Hpend as [_ ->]. simpl. lia. }
  rewrite checked_add_Ok, bind_Ok by exact Hav.
  pose proof (consistent_canonical delivered pending idx total Hpend) as Hcons.
  destruct (decide (canonical_count f idx total)) as [Hcc|Hcc].
  2: { rewrite (bool_decide_eq_false_2 (canonical_count _ _ _)) by done.
       destruct (match pending with Some _ => _ | None => _ end); [by destruct Hcc; apply Hcons|done]. }
  rewrite (bool_decide_eq_true_2 (canonical_count _ _ _)), (proj2 Hcons) by done. cbn [negb].
  rewrite (take_total delivered pending idx total Hpend Hcc), bind_Ok.
  rewrite bool_decide_eq_false_2 by (unfold TAG_SIZE; lia).
  assert (str_ok (take (Z.to_nat total) (delivered ++ default [] pending))) as Hm by by apply Forall_take.
  unfold char_from_u32. rewrite (collect_Ok _ (λ c, c)); [by rewrite list_fmap_id|].
  intros c Hc. unfold str_ok in Hm. rewrite Forall_forall in Hm. by rewrite (Hm c Hc).
Qed.

Lemma slice_rest {A} pos i j (l : list A) : slice (pos + i) (pos + j) l = take (j - i) (drop i (drop pos l)).
Proof using Type. rewrite slice_at. done. Qed.

(** The authenticated part of an iteration. *)
Lemma open_frame_eq i body :
  Z.of_nat (length body) = 160 * f →
  (ks ← varint_keystream sk_fmt (derive_stream_v8_sub_nonce sk_fmt nonce i) (Z.to_nat (160 * f));
   tokens ← fixed_decode_tokens (xor_bytes body ks);
   decrypt_v8_stream_chunk_core tokens primes sk_fmt (derive_stream_v8_sub_nonce sk_fmt nonce i) f)
  = open_body primes sk_fmt f nonce i body.
Proof using Hf.
  intros Hb. unfold STREAM_AE_V8_MAX_FRAME in Hf.
  rewrite varint_keystream_Ok, bind_Ok by lia. unfold open_body, mask.
  by replace (Z.to_nat (160 * f)) with (length body) by lia.
Qed.

Lemma decrypt_stream_step_frame stream pos idx delivered pending body rest :
  frame_state stream (pos, idx, delivered, pending) →
  Z.of_nat (length body) = 160 * f → drop pos stream = sealed sk_fmt aad f nonce idx body ++ rest →
  decrypt_stream_step stream primes sk_fmt aad f nonce (160 * f) (pos, idx, delivered, pending)
  = continue_with (
      next ← next_stream_chunk_idx idx;
      cps ← open_body primes sk_fmt f nonce idx body;
      Ok ((pos + Z.to_nat (160 * f + 36))%nat, next, delivered ++ default [] pending, Some cps)).
Proof using Hf.
  intros ((Hpos & Hle) & Hidx & Hstr & Hpend) Hb Hrest. unfold STREAM_AE_V8_MAX_FRAME in Hf.
  pose proof (f_equal length Hrest) as Hrl. unfold sealed, chunk_auth in Hrl.
  rewrite length_drop, !length_app, length_to_be_bytes, length_hmac_digest in Hrl.
  unfold decrypt_stream_step. rewrite bool_decide_eq_false_2 by lia.
  assert (slice pos (pos + 4) stream = to_be_bytes 4 (160 * f)) as ->.
  { rewrite <-(Nat.add_0_r pos) at 1. rewrite slice_rest, drop_0, Hrest. unfold sealed.
    rewrite <-!app_assoc. by rewrite take_app_length' by (by rewrite length_to_be_bytes). }
  rewrite from_to_be_bytes by lia. rewrite (proj2 (Z.eqb_neq _ _)) by lia.
  rewrite Z.eqb_refl. cbn [negb]. unfold TAG_SIZE.
  rewrite bool_decide_eq_false_2 by lia. unfold ct_eq_bytes.
  assert (slice (pos + 4) (pos + 4 + Z.to_nat (160 * f)) stream = body) as ->.
  { rewrite <-Nat.add_assoc, slice_rest, Hrest. unfold sealed. rewrite <-!app_assoc.
    rewrite drop_app_length' by (by rewrite length_to_be_bytes).
    by rewrite take_app_length' by lia. }
  assert (slice (pos + 4 + Z.to_nat (160 * f)) (pos + 4 + Z.to_nat (160 * f) + 32) stream
          = chunk_auth sk_fmt aad f nonce idx body) as ->.
  { rewrite <-!Nat.add_assoc, slice_rest, Hrest. unfold sealed. rewrite (app_assoc (to_be_bytes 4 _)).
    rewrite <-app_assoc. rewrite drop_app_length' by (rewrite length_app, length_to_be_bytes; lia).
    rewrite take_app_length' by (unfold chunk_auth; rewrite length_hmac_digest; lia). done. }
  rewrite chunk_tag_Ok, bind_Ok, (proj2 (ct_eq_spec _ _)) by done. cbn [negb].
  f_equal. destruct (next_stream_chunk_idx idx) as [next| |]; [|done..]. rewrite !bind_Ok.
  rewrite <-open_frame_eq by done.
  destruct (varint_keystream _ _ _) as [ks| |]; [|done..]. rewrite !bind_Ok.
  destruct (fixed_decode_tokens _) as [tokens| |]; [|done..]. rewrite !bind_Ok.
  destruct (decrypt_v8_stream_chunk_core _ _ _ _ _) as [cps| |]; [|done..]. rewrite !bind_Ok.
  replace (pos + 4 + Z.to_nat (160 * f) + 32)%nat with (pos + Z.to_nat (160 * f + 36))%nat by lia.
  destruct pending; cbn [default from_option id]; [done|by rewrite app_nil_r].
Qed.

(** What an iteration did, read back from its result. *)
Lemma decrypt_stream_step_cases stream pos idx delivered pending :
  frame_state stream (pos, idx, delivered, pending) → Z.of_nat (length stream) < 2 ^ 60 →
  match decrypt_stream_step stream primes sk_fmt aad f nonce (160 * f) (pos, idx, delivered, pending) with
  | inl s' => ∃ body cps, Z.of_nat (length body) = 160 * f ∧
      drop pos stream = sealed sk_fmt aad f nonce idx body ++ drop s'.1.1.1 stream ∧
      open_body primes sk_fmt f nonce idx body = Ok cps ∧
      s' = ((pos + Z.to_nat (160 * f + 36))%nat, idx + 1, delivered ++ default [] pending, Some cps) ∧
      frame_state stream s'
  | inr (Ok m) => ∃ total, fits 64 total ∧
      drop pos stream = sentinel sk_fmt aad f nonce idx total ∧
      canonical_count f idx total ∧ m = take (Z.to_nat total) (delivered ++ default [] pending)
  | inr (Err _) => True
  | inr (Panic _) => False
  end.
Proof using Hf Hkey.
  intros Hst Hn. pose proof Hst as ((Hpos & Hle) & Hidx & Hstr & Hpend).
  pose proof Hf as Hf'. unfold STREAM_AE_V8_MAX_FRAME in Hf'.
  pose proof (length_drop stream pos) as Hrl.
  destruct (decide (length stream < pos + 4)%nat) as [Hs4|Hs4].
  { unfold decrypt_stream_step. by rewrite bool_decide_eq_true_2. }
  set (cl := from_be_bytes (slice pos (pos + 4) stream)).
  assert (drop pos stream = to_be_bytes 4 cl ++ drop (pos + 4) stream) as Hsplit.
  { rewrite <-(take_drop 4 (drop pos stream)) at 1. rewrite drop_drop. f_equal.
    unfold cl, slice. replace (pos + 4 - pos)%nat with 4%nat by lia.
    symmetry. apply to_from_be_bytes'. rewrite length_take. lia. }
  destruct (decide (cl = 0)) as [Hz|Hz].
  { unfold decrypt_stream_step. rewrite bool_decide_eq_false_2 by lia. fold cl.
    rewrite (proj2 (Z.eqb_eq _ _)) by done.
    pose proof (open_sentinel_cases stream pos idx delivered pending Hst Hn ltac:(lia)) as Ho.
    destruct (open_sentinel _ _ _ _ _ _ _ _ _) as [m| |]; [|done..].
    destruct Ho as (total & Ht & Hd & Hc & Hm). exists total. split_and!; [done| |done|done].
    by rewrite Hsplit, Hz, Hd. }
  destruct (decide (cl = 160 * f)) as [Hcl|Hcl].
  2: { unfold decrypt_stream_step. rewrite bool_decide_eq_false_2 by lia. fold cl.
       rewrite (proj2 (Z.eqb_neq _ _)) by done. by rewrite (proj2 (Z.eqb_neq cl _)) by done. }
  destruct (decide (length stream < pos + 4 + Z.to_nat (160 * f) + 32)%nat) as [Hs|Hs].
  { unfold decrypt_stream_step. rewrite bool_decide_eq_false_2 by lia. fold cl.
    rewrite (proj2 (Z.eqb_neq _ _)) by done. rewrite Hcl, Z.eqb_refl. cbn [negb].
    by rewrite bool_decide_eq_true_2. }
  set (body := slice (pos + 4) (pos + 4 + Z.to_nat (160 * f)) stream).
  set (tag := slice (pos + 4 + Z.to_nat (160 * f)) (pos + 4 + Z.to_nat (160 * f) + 32) stream).
  assert (Z.of_nat (length body) = 160 * f) as Hb by (unfold body; rewrite length_slice; lia).
  destruct (ct_eq tag (chunk_auth sk_fmt aad f nonce idx body)) eqn:Htag.
  2: { unfold decrypt_stream_step. rewrite bool_decide_eq_false_2 by lia. fold cl.
       rewrite (proj2 (Z.eqb_neq _ _)) by done. rewrite Hcl, Z.eqb_refl. cbn [negb].
       unfold TAG_SIZE. rewrite bool_decide_eq_false_2 by done.
       fold body. fold tag. rewrite chunk_tag_Ok, bind_Ok. unfold ct_eq_bytes. by rewrite Htag. }
  apply ct_eq_spec in Htag.
  set (pos' := (pos + Z.to_nat (160 * f + 36))%nat).
  assert (drop pos stream = sealed sk_fmt aad f nonce idx body ++ drop pos' stream) as Hrest.
  { rewrite Hsplit, Hcl. unfold sealed. rewrite <-!app_assoc. f_equal.
    rewrite <-(take_drop (Z.to_nat (160 * f)) (drop (pos + 4) stream)). f_equal.
    { unfold body, slice. f_equal. lia. }
    rewrite drop_drop, <-Htag. rewrite <-(take_drop 32 (drop _ stream)) at 1. f_equal.
    - unfold tag, slice. f_equal. lia.
    - rewrite drop_drop. f_equal. unfold pos'. lia. }
  rewrite (decrypt_stream_step_frame stream pos idx delivered pending body _ Hst Hb Hrest).
  unfold next_stream_chunk_idx. destruct (Z.ltb_spec (idx + 1) (2 ^ 32)); [|done]. rewrite bind_Ok.
  pose proof (open_body_cases idx body Hb) as Ho.
  destruct (open_body _ _ _ _ _ _) as [cps| |] eqn:Hob; [|done..]. rewrite bind_Ok. cbn [continue_with].
  destruct Ho as [Hsc Hlc]. exists body, cps. fold pos'. split_and!; [done..|].
  unfold frame_state. cbn [default from_option id]. split_and!; try lia.
  - apply Forall_app_2; [done|exact Hsc].
  - rewrite length_app. destruct pending as [p|]; cbn [default from_option id]; [lia|].
    destruct Hpend as [-> ->]. simpl. lia.
Qed.

(** ** The frame loop *)

Lemma canonical_fits count total :
  0 ≤ count < 2 ^ 32 → canonical_count f count total → fits 64 total.
Proof using Hf.
  unfold canonical_count, fits. unfold STREAM_AE_V8_MAX_FRAME in Hf. intros Hc [[_ ->]|Ht]; [lia|nia].
Qed.

Lemma decrypt_frames_sound stream :
  (21 ≤ length stream)%nat → Z.of_nat (length stream) < 2 ^ 60 →
  match while_loop 64 (decrypt_stream_step stream primes sk_fmt aad f nonce (160 * f)) (21%nat, 0, [], None) with
  | Ok m => ∃ bodies chunks total,
      drop 21 stream = sealed_from sk_fmt aad f nonce 0 bodies
                       ++ sentinel sk_fmt aad f nonce (Z.of_nat (length bodies)) total ∧
      opened_from primes sk_fmt f nonce 0 bodies chunks ∧ Z.of_nat (length bodies) < 2 ^ 32 ∧
      canonical_count f (Z.of_nat (length bodies)) total ∧
      m = take (Z.to_nat total) (concat chunks)
  | Err _ => True
  | Panic _ => False
  end.
Proof using Hf Hkey.
  intros Hl Hn. pose proof Hf as Hf'. unfold STREAM_AE_V8_MAX_FRAME in Hf'.
  apply (while_loop_total 64 _
    (λ s, frame_state stream s ∧ ∃ bodies chunks,
      opened_from primes sk_fmt f nonce 0 bodies chunks ∧ s.1.1.2 = Z.of_nat (length bodies) ∧
      drop 21 stream = sealed_from sk_fmt aad f nonce 0 bodies ++ drop s.1.1.1 stream ∧
      concat chunks = s.1.2 ++ default [] s.2)
    (λ s, Z.of_nat (length stream) - Z.of_nat s.1.1.1)).
  - intros [[[pos idx] delivered] pending] (Hst & bodies & chunks & Ho & Hi & Hd & Hc).
    cbn [fst snd] in *.
    pose proof (decrypt_stream_step_cases stream pos idx delivered pending Hst Hn) as Hstep.
    destruct (decrypt_stream_step _ _ _ _ _ _ _ _) as [s'|[m| |]]; [|..|done|done].
    + destruct Hstep as (body & cps & Hb & Hrest & Hob & -> & Hst'). cbn [fst snd] in *.
      split; [|lia]. split; [done|]. exists (bodies ++ [body]), (chunks ++ [cps]).
      rewrite length_app, sealed_from_snoc, concat_snoc. cbn [length default from_option id]. split_and!.
      * subst idx. by apply opened_from_snoc.
      * lia.
      * rewrite <-app_assoc, Z.add_0_l, <-Hi, <-Hrest. done.
      * by rewrite Hc.
    + destruct Hstep as (total & Ht & Hs & Hcc & ->). exists bodies, chunks, total.
      rewrite <-Hi, Hc, <-Hs. destruct Hst as (_ & Hidx & _). split_and!; [done|done|lia|done|done].
  - split; [|by exists [], []]. unfold frame_state. cbn [default from_option id app].
    split_and!; [lia|lia|lia|lia|constructor|done|done].
  - intros [[[pos idx] delivered] pending] [((_ & Hle) & _) _]. cbn [fst snd]. lia.
  - cbn [fst snd]. lia.
Qed.

Lemma opened_from_app_inv i l bodies chunks :
  opened_from primes sk_fmt f nonce i (l :: bodies) chunks →
  ∃ c cs, chunks = c :: cs ∧ Z.of_nat (length l) = 160 * f ∧
    open_body primes sk_fmt f nonce i l = Ok c ∧ opened_from primes sk_fmt f nonce (i + 1) bodies cs.
Proof using Type. destruct chunks as [|c cs]; [done|]. intros (? & ? & ?). eauto 6. Qed.

(** Genuine frames are consumed up to the sentinel. *)
Lemma decrypt_frames_reach stream bodies chunks rest :
  (21 ≤ length stream)%nat → Z.of_nat (length stream) < 2 ^ 60 →
  drop 21 stream = sealed_from sk_fmt aad f nonce 0 bodies ++ to_be_bytes 4 0 ++ rest →
  opened_from primes sk_fmt f nonce 0 bodies chunks → Z.of_nat (length bodies) < 2 ^ 32 →
  ∃ pos delivered pending,
    frame_state stream (pos, Z.of_nat (length bodies), delivered, pending) ∧
    drop (pos + 4) stream = rest ∧ concat chunks = delivered ++ default [] pending ∧
    while_loop 64 (decrypt_stream_step stream primes sk_fmt aad f nonce (160 * f)) (21%nat, 0, [], None)
    = open_sentinel stream sk_fmt aad f nonce (pos + 4) (Z.of_nat (length bodies)) delivered pending.
Proof using Hf Hkey.
  intros Hl Hn Hd Ho Hc. pose proof Hf as Hf'. unfold STREAM_AE_V8_MAX_FRAME in Hf'.
  apply (while_loop_total 64 _
    (λ s, frame_state stream s ∧ ∃ todo cdone ctodo,
      chunks = cdone ++ ctodo ∧ opened_from primes sk_fmt f nonce s.1.1.2 todo ctodo ∧
      s.1.1.2 + Z.of_nat (length todo) = Z.of_nat (length bodies) ∧
      drop s.1.1.1 stream = sealed_from sk_fmt aad f nonce s.1.1.2 todo ++ to_be_bytes 4 0 ++ rest ∧
      concat cdone = s.1.2 ++ default [] s.2)
    (λ s, Z.of_nat (length stream) - Z.of_nat s.1.1.1)
    (λ r, ∃ pos delivered pending, frame_state stream (pos, Z.of_nat (length bodies), delivered, pending) ∧
      drop (pos + 4) stream = rest ∧ concat chunks = delivered ++ default [] pending ∧
      r = open_sentinel stream sk_fmt aad f nonce (pos + 4) (Z.of_nat (length bodies)) delivered pending)).
  - intros [[[pos idx] delivered] pending] (Hst & todo & cdone & ctodo & -> & Hot & Hi & Hrest & Hcd).
    cbn [fst snd] in *. destruct todo as [|body todo].
    + destruct ctodo; [|done]. rewrite app_nil_r. cbn [sealed_from app length] in Hrest, Hi.
      rewrite Z.add_0_r in Hi. rewrite <-Hi in *.
      pose proof (f_equal length Hrest) as Hrl. rewrite length_drop, length_app, length_to_be_bytes in Hrl.
      unfold decrypt_stream_step. rewrite bool_decide_eq_false_2 by lia.
      assert (slice pos (pos + 4) stream = to_be_bytes 4 0) as ->.
      { unfold slice. replace (pos + 4 - pos)%nat with 4%nat by lia. rewrite Hrest.
        by rewrite take_app_length' by (by rewrite length_to_be_bytes). }
      rewrite from_to_be_bytes, Z.eqb_refl by lia. exists pos, delivered, pending. split_and!; [done| |done|done].
      rewrite <-drop_drop, Hrest. by rewrite drop_app_length' by (by rewrite length_to_be_bytes).
    + apply opened_from_app_inv in Hot as (c & cs & -> & Hb & Hob & Hot).
      cbn [sealed_from] in Hrest. rewrite <-app_assoc in Hrest.
      rewrite (decrypt_stream_step_frame stream pos idx delivered pending body _ Hst Hb Hrest).
      pose proof Hst as (Hpos & Hidx & Hstr & Hpend).
      unfold next_stream_chunk_idx. cbn [length] in Hi. rewrite (proj2 (Z.ltb_lt (idx + 1) _)) by lia.
      rewrite bind_Ok, Hob, bind_Ok. cbn [continue_with fst snd default from_option id].
      pose proof (open_body_cases idx body Hb) as Hcases. rewrite Hob in Hcases. destruct Hcases as [Hsc Hlc].
      pose proof (f_equal length Hrest) as Hrl. unfold sealed, chunk_auth in Hrl.
      rewrite length_drop, !length_app, length_to_be_bytes, length_hmac_digest in Hrl.
      split; [|lia]. split.
      * split_and!; [lia|lia|lia|lia|by apply Forall_app_2|lia|lia|].
        rewrite length_app. destruct pending as [p|]; cbn [default from_option id]; [lia|].
        destruct Hpend as [-> ->]. simpl. lia.
      * exists todo, (cdone ++ [c]), cs. split_and!; [by rewrite <-app_assoc|done|lia| |].
        -- rewrite <-drop_drop, Hrest. rewrite drop_app_length'; [done|].
           unfold sealed, chunk_auth. rewrite !length_app, length_to_be_bytes, length_hmac_digest. lia.
        -- by rewrite concat_snoc, Hcd.
  - split; [|by exists bodies, [], chunks]. unfold frame_state. cbn [default from_option id app].
    split_and!; [lia|lia|lia|lia|constructor|done|done].
  - intros [[[pos idx] delivered] pending] [((_ & Hle) & _) _]. cbn [fst snd]. lia.
  - cbn [fst snd]. lia.
Qed.

(** The result on genuine frames under a count and a tag. *)
Lemma decrypt_frames_eq stream bodies chunks total tag :
  (21 ≤ length stream)%nat → Z.of_nat (length stream) < 2 ^ 60 → fits 64 total → length tag = TAG_SIZE →
  let count := Z.of_nat (length bodies) in
  drop 21 stream = sealed_from sk_fmt aad f nonce 0 bodies ++ to_be_bytes 4 0
    ++ to_be_bytes 8 (Z.lxor total (stream_v8_count_mask sk_fmt f nonce count)) ++ tag →
  opened_from primes sk_fmt f nonce 0 bodies chunks → count < 2 ^ 32 →
  ∃ delivered pending,
  while_loop 64 (decrypt_stream_step stream primes sk_fmt aad f nonce (160 * f)) (21%nat, 0, [], None)
  = if bool_decide (tag = sentinel_auth sk_fmt aad f nonce count total) then
      if bool_decide (canonical_count f count total) then Ok (take (Z.to_nat total) (concat chunks))
      else Err (StreamSentinelCount total delivered pending)
    else Err StreamSentinelTag.
Proof using Hf Hkey.
  intros Hl Hn Ht Htag count Hd Ho Hc.
  destruct (decrypt_frames_reach stream bodies chunks _ Hl Hn Hd Ho Hc) as (pos & delivered & pending & Hst & Hrest & Hcd & ->).
  exists (Z.of_nat (length delivered)), (Z.of_nat (length (default [] pending))). rewrite Hcd. by apply open_sentinel_eq.
Qed.

Lemma decrypt_frames_complete stream bodies chunks total :
  (21 ≤ length stream)%nat → Z.of_nat (length stream) < 2 ^ 60 →
  drop 21 stream = sealed_from sk_fmt aad f nonce 0 bodies
                   ++ sentinel sk_fmt aad f nonce (Z.of_nat (length bodies)) total →
  opened_from primes sk_fmt f nonce 0 bodies chunks → Z.of_nat (length bodies) < 2 ^ 32 →
  canonical_count f (Z.of_nat (length bodies)) total →
  while_loop 64 (decrypt_stream_step stream primes sk_fmt aad f nonce (160 * f)) (21%nat, 0, [], None)
  = Ok (take (Z.to_nat total) (concat chunks)).
Proof using Hf Hkey.
  intros Hl Hn Hd Ho Hc Hcc.
  destruct (decrypt_frames_eq stream bodies chunks total (sentinel_auth sk_fmt aad f nonce (Z.of_nat (length bodies)) total))
    as (delivered & pending & ->); try done; [eapply canonical_fits; [|exact Hcc]; lia|apply length_hmac_digest|].
  by rewrite !bool_decide_eq_true_2.
Qed.
End step.

(** ** The decryptor meets its specification *)

Lemma decrypt_stream_inner_spec `{Crypto} primes sk_fmt aad stream :
  arith_key primes → Z.of_nat (length stream) < 2 ^ 60 →
  no_panic (decrypt_stream_ae_v8_inner stream primes sk_fmt aad) ∧
  ∀ m, decrypt_stream_ae_v8_inner stream primes sk_fmt aad = Ok m ↔
    ∃ f nonce, 1 ≤ f ≤ STREAM_AE_V8_MAX_FRAME ∧ length nonce = NONCE_SIZE ∧
      stream_spec primes sk_fmt aad f nonce stream m.
Proof.
  intros Hkey Hn. unfold decrypt_stream_ae_v8_inner.
  change (1 + 4 + NONCE_SIZE)%nat with 21%nat. change (5 + NONCE_SIZE)%nat with 21%nat.
  assert (Hsplit : ∀ f nonce m, length nonce = NONCE_SIZE →
    stream_spec primes sk_fmt aad f nonce stream m →
    take 21 stream = stream_v8_header f nonce ∧ (21 ≤ length stream)%nat).
  { intros f nonce m Hnl (bodies & chunks & total & -> & _).
    assert (length (stream_v8_header f nonce) = 21)%nat as Hh.
    { unfold stream_v8_header. cbn [length]. rewrite length_app, length_to_be_bytes, Hnl. done. }
    rewrite length_app, take_app_length' by done. split; [done|lia]. }
  case_bool_decide as Hs.
  { split; [done|]. intros m. split; [done|]. intros (f & nonce & _ & Hnl & Hsp).
    destruct (Hsplit f nonce m Hnl Hsp). lia. }
  destruct stream as [|id rest] eqn:Heq; [simpl in Hs; lia|]. rewrite <-Heq in *.
  assert (stream !! 0%nat = Some id) as -> by by subst.
  cbn [expect]. rewrite bind_Ok. case_bool_decide as Hid; cbn [negb].
  2: { split; [done|]. intros m. split; [done|]. intros (f & nonce & _ & Hnl & Hsp).
       destruct (Hsplit f nonce m Hnl Hsp) as [Ht _]. rewrite Heq in Ht.
       unfold stream_v8_header in Ht. cbn [take] in Ht. by injection Ht. }
  set (f := from_be_bytes (slice 1 5 stream)). set (nonce := slice 5 21 stream).
  assert (take 21 stream = stream_v8_header f nonce) as Hhd.
  { unfold stream_v8_header. rewrite <-(slice_full 21 (take 21 stream)) by (rewrite length_take; lia).
    assert (Hsl : ∀ i, (i ≤ 21)%nat → slice i 21 (take 21 stream) = slice i 21 stream).
    { intros i Hi. unfold slice. rewrite skipn_firstn_comm, take_take, Nat.min_id. done. }
    rewrite Hsl by lia. rewrite <-(slice_split 0 1 21) by lia. rewrite <-(slice_split 1 5 21) by lia.
    subst f nonce. rewrite to_from_be_bytes' by (rewrite length_slice; lia).
    f_equal. rewrite Heq, Hid. done. }
  assert (length nonce = NONCE_SIZE) as Hnl by (unfold nonce; rewrite length_slice; unfold NONCE_SIZE; lia).
  assert (0 ≤ f < 2 ^ 32) as Hf32.
  { pose proof (from_be_bytes_range (slice 1 5 stream)) as Hr. rewrite length_slice in Hr by lia. exact Hr. }
  assert (Huniq : ∀ f' nonce' m, 1 ≤ f' ≤ STREAM_AE_V8_MAX_FRAME → length nonce' = NONCE_SIZE →
    stream_spec primes sk_fmt aad f' nonce' stream m → f' = f ∧ nonce' = nonce).
  { intros f' nonce' m Hf' Hn' Hsp. destruct (Hsplit f' nonce' m Hn' Hsp) as [Ht _].
    rewrite Hhd in Ht. unfold stream_v8_header in Ht. apply (f_equal (drop 1)) in Ht.
    rewrite !skipn_cons, !drop_0 in Ht. unfold STREAM_AE_V8_MAX_FRAME in Hf'.
    apply app_inj_1 in Ht as [Hf4 ->]; [|by rewrite !length_to_be_bytes].
    apply to_be_bytes_inj in Hf4; [done|done|]. change (256 ^ Z.of_nat 4) with (2 ^ 32). lia. }
  destruct ((f <? 1) || (STREAM_AE_V8_MAX_FRAME <? f)) eqn:Hb.
  { split; [done|]. intros m. split; [done|]. intros (f' & nonce' & Hf' & Hn' & Hsp).
    destruct (Huniq f' nonce' m Hf' Hn' Hsp) as [-> _]. apply orb_true_iff in Hb. reflect_bools. lia. }
  apply orb_false_iff in Hb as [Hf1 Hf2]. reflect_bools.
  assert (1 ≤ f ≤ STREAM_AE_V8_MAX_FRAME) as Hf by lia.
  unfold MAX_NOISE_RUN, TOKEN_WIDTH. rewrite checked_add_Ok, bind_Ok by lia.
  rewrite checked_mul_Ok, bind_Ok by lia. rewrite checked_mul_Ok, bind_Ok by lia.
  replace (f * Z.of_nat 8 * (19 + 1)) with (160 * f) by lia.
  assert (stream = stream_v8_header f nonce ++ drop 21 stream) as Hstream
    by (rewrite <-Hhd; by rewrite take_drop).
  pose proof (decrypt_frames_sound primes sk_fmt aad f nonce Hkey Hf stream ltac:(lia) Hn) as Hsound.
  split.
  { destruct (while_loop _ _ _); done. }
  intros m. split.
  - intros Hm. rewrite Hm in Hsound. exists f, nonce. split_and!; [lia|lia|done|].
    destruct Hsound as (bodies & chunks & total & Hd & Hrest). exists bodies, chunks, total.
    split; [|done]. by rewrite <-Hd.
  - intros (f' & nonce' & Hf' & Hn' & Hsp).
    destruct (Huniq f' nonce' m Hf' Hn' Hsp) as [-> ->].
    destruct Hsp as (bodies & chunks & total & Hst & Ho & Hc & Hcc & ->).
    apply (decrypt_frames_complete primes sk_fmt aad f nonce Hkey Hf stream bodies); try done; [lia|].
    rewrite Hst at 1. apply drop_app_length'. unfold stream_v8_header. cbn [length].
    by rewrite length_app, length_to_be_bytes, Hnl.
Qed.

(** ** The encryptor produces what the specification describes *)

Section encryptor.
Context `{Crypto} (primes : list Z) (sk_fmt aad : list byte) (f : Z) (nonce : list byte).
Context (Hkey : arith_key primes) (Hf : 1 ≤ f ≤ STREAM_AE_V8_MAX_FRAME).

Lemma emit_chunk_Ok idx cps :
  str_ok cps → Z.of_nat (length cps) = f →
  ∃ body, emit_stream_v8_chunk cps idx primes sk_fmt nonce aad = Ok (sealed sk_fmt aad f nonce idx body) ∧
    Z.of_nat (length body) = 160 * f ∧ open_body primes sk_fmt f nonce idx body = Ok cps.
Proof using Hkey Hf.
  intros Hs Hl. set (sub := derive_stream_v8_sub_nonce sk_fmt nonce idx).
  destruct (decrypt_encrypt_chunk primes sk_fmt sub f Hkey Hf cps Hs Hl) as (tokens & He & Ht & Hfits & Hd).
  unfold STREAM_AE_V8_MAX_FRAME in Hf. exists (mask sk_fmt sub (fixed_encode_tokens tokens)).
  assert (Z.of_nat (length (mask sk_fmt sub (fixed_encode_tokens tokens))) = 160 * f) as Hb
    by (rewrite length_mask, length_fixed_encode_tokens; lia).
  split_and!; [|done|].
  - unfold emit_stream_v8_chunk. fold sub. rewrite He, bind_Ok.
    rewrite varint_keystream_Ok, bind_Ok by (rewrite length_fixed_encode_tokens; lia).
    fold (mask sk_fmt sub (fixed_encode_tokens tokens)).
    rewrite Hl, Z.mod_small, chunk_tag_Ok, bind_Ok by lia. by rewrite Hb.
  - unfold open_body. fold sub. rewrite mask_involutive, fixed_decode_encode, bind_Ok by done. done.
Qed.

Lemma filler_scalar sub i : is_scalar (derive_stream_v8_filler_cp sk_fmt sub i) = true.
Proof using Type.
  apply is_scalar_byte. pose proof (pad_codepoint_range sk_fmt sub i).
  change (derive_stream_v8_filler_cp sk_fmt sub i) with (pad_codepoint sk_fmt sub i). lia.
Qed.

Lemma fill_chunk_Ok idx buf :
  Z.of_nat (length buf) ≤ f → str_ok buf →
  ∃ filler, fill_chunk sk_fmt nonce (Z.to_nat f) idx buf = Ok (buf ++ filler) ∧
    str_ok (buf ++ filler) ∧ Z.of_nat (length (buf ++ filler)) = f.
Proof using Hf.
  intros Hl Hs. unfold fill_chunk. rewrite checked_sub_Ok, bind_Ok by lia.
  eexists. split_and!; [done| |].
  - apply Forall_app_2; [done|]. apply Forall_fmap, Forall_forall. intros i _. apply filler_scalar.
  - rewrite length_app, length_fmap, length_seqZ. lia.
Qed.

Lemma sealed_from_app i l1 l2 :
  sealed_from sk_fmt aad f nonce i (l1 ++ l2)
  = sealed_from sk_fmt aad f nonce i l1 ++ sealed_from sk_fmt aad f nonce (i + Z.of_nat (length l1)) l2.
Proof using Type.
  revert i. induction l1 as [|b l1 IH]; intros i; cbn [app sealed_from length].
  - by rewrite Z.add_0_r.
  - rewrite IH, <-app_assoc. do 3 f_equal. lia.
Qed.

Lemma encrypt_chars_cases plaintext s :
  str_ok (st_cp_buf s ++ plaintext) → Z.of_nat (length (st_cp_buf s)) < f →
  0 ≤ st_chunk_idx s < 2 ^ 32 → 0 ≤ st_total s → st_total s + Z.of_nat (length plaintext) < 2 ^ 64 →
  match encrypt_stream_chars primes sk_fmt nonce aad (Z.to_nat f) plaintext s with
  | Ok s' => ∃ bodies chunks,
      opened_from primes sk_fmt f nonce (st_chunk_idx s) bodies chunks ∧
      st_stream s' = st_stream s ++ sealed_from sk_fmt aad f nonce (st_chunk_idx s) bodies ∧
      concat chunks ++ st_cp_buf s' = st_cp_buf s ++ plaintext ∧
      Z.of_nat (length (st_cp_buf s')) < f ∧ st_total s' = st_total s + Z.of_nat (length plaintext) ∧
      st_chunk_idx s' = st_chunk_idx s + Z.of_nat (length bodies) ∧ st_chunk_idx s' < 2 ^ 32
  | Err e => e = StreamChunkLimit ∧
      (2 ^ 32 - st_chunk_idx s) * f ≤ Z.of_nat (length (st_cp_buf s ++ plaintext))
  | Panic _ => False
  end.
Proof using Hkey Hf.
  pose proof Hf as Hf'. unfold STREAM_AE_V8_MAX_FRAME in Hf'.
  revert s. induction plaintext as [|ch rest IH]; intros [out buf total idx];
    cbn [st_stream st_cp_buf st_total st_chunk_idx]; intros Hs Hl Hi Ht0 Ht.
  { cbn [encrypt_stream_chars]. exists [], []. cbn. split_and!; rewrite ?app_nil_r; try done; lia. }
  cbn [encrypt_stream_chars]. unfold encrypt_stream_char. cbn [st_stream st_cp_buf st_total st_chunk_idx].
  cbn [length] in Ht. rewrite checked_add_Ok, bind_Ok by lia.
  assert (Z.of_nat (length (buf ++ [ch])) = Z.of_nat (length buf) + 1) as Hl1 by (rewrite length_app; simpl; lia).
  assert (buf ++ ch :: rest = (buf ++ [ch]) ++ rest) as Heq by by rewrite <-app_assoc.
  rewrite Heq in Hs. case_bool_decide as Hfull.
  2: { rewrite bind_Ok. specialize (IH (StreamState out (buf ++ [ch]) (total + 1) idx)).
       cbn [st_stream st_cp_buf st_total st_chunk_idx] in IH. specialize (IH Hs ltac:(lia) Hi ltac:(lia) ltac:(lia)).
       rewrite Heq. destruct (encrypt_stream_chars _ _ _ _ _ _ _) as [s'| |]; [|done..].
       destruct IH as (bodies & chunks & ? & ? & ? & ? & ? & ? & ?). exists bodies, chunks.
       cbn [length]. split_and!; try done. lia. }
  assert (Z.of_nat (length (buf ++ [ch])) = f) as Hlf by lia.
  unfold next_stream_chunk_idx. destruct (Z.ltb_spec (idx + 1) (2 ^ 32)) as [Hlt|Hge].
  2: { split; [done|]. rewrite Heq, length_app. nia. }
  rewrite bind_Ok, index_range_Ok, bind_Ok by lia. rewrite slice_full by lia.
  pose proof (proj1 (proj1 (Forall_app _ _ _) Hs)) as Hbs.
  destruct (emit_chunk_Ok idx (buf ++ [ch]) Hbs Hlf) as (body & -> & Hb & Ho). rewrite !bind_Ok.
  rewrite drop_ge by lia.
  specialize (IH (StreamState (out ++ sealed sk_fmt aad f nonce idx body) [] (total + 1) (idx + 1))).
  cbn [st_stream st_cp_buf st_total st_chunk_idx app] in IH.
  specialize (IH (proj2 (proj1 (Forall_app _ _ _) Hs)) ltac:(simpl; lia) ltac:(lia) ltac:(lia) ltac:(lia)).
  destruct (encrypt_stream_chars _ _ _ _ _ _ _) as [s'|e|]; [| |done].
  - destruct IH as (bodies & chunks & Hop & Hst & Hc & Hl' & Ht' & Hi' & Hi2).
    exists (body :: bodies), ((buf ++ [ch]) :: chunks). cbn [opened_from sealed_from concat length].
    split_and!; try done; try lia.
    + by rewrite Hst, <-app_assoc.
    + by rewrite <-app_assoc, Hc.
  - destruct IH as [-> Hle]. split; [done|]. rewrite Heq, length_app. nia.
Qed.

Lemma stream_v8_sentinel_Ok count total :
  stream_v8_sentinel sk_fmt f nonce count aad total = Ok (sentinel sk_fmt aad f nonce count total).
Proof using Type. unfold stream_v8_sentinel. by rewrite sentinel_tag_Ok, bind_Ok. Qed.

Lemma encrypt_stream_inner_cases plaintext :
  length nonce = NONCE_SIZE → str_ok plaintext → Z.of_nat (length plaintext) < 2 ^ 64 →
  let n := Z.of_nat (length plaintext) in
  match encrypt_stream_ae_v8_inner plaintext primes sk_fmt nonce aad f with
  | Ok stream => stream_spec primes sk_fmt aad f nonce stream plaintext ∧ n ≤ (2 ^ 32 - 1) * f ∧
      ∃ C, canonical_count f C n ∧ Z.of_nat (length stream) = 65 + (160 * f + 36) * C
  | Err e => e = StreamChunkLimit ∧ (2 ^ 32 - 1) * f < n
  | Panic _ => False
  end.
Proof using Hkey Hf.
  pose proof Hf as Hf'. unfold STREAM_AE_V8_MAX_FRAME in Hf'.
  intros Hnl Hs Hn n. unfold encrypt_stream_ae_v8_inner, finish_stream.
  fold (stream_v8_header f nonce). set (hd := stream_v8_header f nonce).
  assert (length hd = 21)%nat as Hhd
    by (unfold hd, stream_v8_header; cbn [length]; by rewrite length_app, length_to_be_bytes, Hnl).
  pose proof (encrypt_chars_cases plaintext (StreamState hd [] 0 0)) as Hc.
  cbn [st_stream st_cp_buf st_total st_chunk_idx app] in Hc.
  specialize (Hc Hs ltac:(simpl; lia) ltac:(lia) ltac:(lia) ltac:(lia)). fold n in Hc.
  destruct (encrypt_stream_chars _ _ _ _ _ _ _) as [s|e|]; [|cbn; split; [tauto|nia]|done].
  rewrite bind_Ok. destruct Hc as (bodies & chunks & Ho & Hst & Hcat & Hl & Ht & Hi & Hi32).
  rewrite Z.add_0_l in Hi, Ht. unfold n in *. clear n.
  destruct (opened_lengths primes sk_fmt aad f nonce Hkey Hf 0 bodies chunks Ho) as (Hlc & _ & Hlcat & Hlse).
  assert (Z.of_nat (length plaintext) = f * st_chunk_idx s + Z.of_nat (length (st_cp_buf s))) as Hnn
    by (rewrite <-Hcat, length_app; lia).
  assert (Hfin : ∀ bodies chunks C total, opened_from primes sk_fmt f nonce 0 bodies chunks →
    C = Z.of_nat (length bodies) → C < 2 ^ 32 → total = Z.of_nat (length plaintext) →
    canonical_count f C total → plaintext = take (Z.to_nat total) (concat chunks) →
    let stream := (hd ++ sealed_from sk_fmt aad f nonce 0 bodies) ++ sentinel sk_fmt aad f nonce C total in
    stream_spec primes sk_fmt aad f nonce stream plaintext ∧
    Z.of_nat (length plaintext) ≤ (2 ^ 32 - 1) * f ∧
    ∃ C, canonical_count f C (Z.of_nat (length plaintext)) ∧ Z.of_nat (length stream) = 65 + (160 * f + 36) * C).
  { clear -Hf' Hhd Hkey Hf. intros bodies chunks C total Ho -> HC -> Hcc Hp stream. split_and!.
    - exists bodies, chunks, (Z.of_nat (length plaintext)). split_and!; try done.
      unfold stream. by rewrite <-app_assoc.
    - unfold canonical_count in Hcc. nia.
    - exists (Z.of_nat (length bodies)). split; [done|]. unfold stream, sentinel, sentinel_auth.
      destruct (opened_lengths primes sk_fmt aad f nonce Hkey Hf 0 bodies chunks Ho) as (_ & _ & _ & Hlse).
      rewrite !length_app, !length_to_be_bytes, length_hmac_digest, Hhd. lia. }
  case_bool_decide as Hbuf.
  - rewrite bind_Ok, stream_v8_sentinel_Ok, bind_Ok, Hst.
    rewrite Hbuf, app_nil_r in Hcat. rewrite Hbuf in Hnn. cbn [length] in Hnn.
    apply (Hfin bodies chunks); try done.
    + unfold canonical_count. nia.
    + rewrite Ht, <-Hcat. symmetry. apply firstn_all2. lia.
  - unfold next_stream_chunk_idx. assert (0 < length (st_cp_buf s))%nat by (destruct (st_cp_buf s); simpl; [done|lia]).
    destruct (Z.ltb_spec (st_chunk_idx s + 1) (2 ^ 32)) as [Hlt|Hge]; [|cbn; split; [done|nia]].
    rewrite bind_Ok. assert (str_ok (st_cp_buf s)) as Hsb.
    { rewrite <-Hcat in Hs. by apply Forall_app in Hs as [_ Hs]. }
    destruct (fill_chunk_Ok (st_chunk_idx s) (st_cp_buf s) ltac:(lia) Hsb) as (filler & -> & Hfs & Hfl).
    rewrite bind_Ok. destruct (emit_chunk_Ok (st_chunk_idx s) _ Hfs Hfl) as (body & -> & Hb & Hob).
    rewrite !bind_Ok. cbn [st_stream st_chunk_idx st_total]. rewrite stream_v8_sentinel_Ok, bind_Ok, Hst.
    assert (sealed_from sk_fmt aad f nonce 0 (bodies ++ [body])
            = sealed_from sk_fmt aad f nonce 0 bodies ++ sealed sk_fmt aad f nonce (st_chunk_idx s) body) as Hse
      by (rewrite sealed_from_snoc, Z.add_0_l, <-Hi; done).
    rewrite <-(app_assoc hd), <-Hse.
    apply (Hfin (bodies ++ [body]) (chunks ++ [st_cp_buf s ++ filler])); try done.
    + apply opened_from_snoc; [done..|]. by rewrite Z.add_0_l, <-Hi.
    + rewrite length_app. simpl. lia.
    + unfold canonical_count. right. nia.
    + rewrite concat_snoc, app_assoc, Hcat, Ht. symmetry. apply take_app_length'. lia.
Qed.
End encryptor.

(** ** The incremental encryptor simulates the all-at-once one *)

Section incremental.
Context `{Crypto} `{Gate} (primes : list Z) (sk_fmt aad : list byte) (f : Z) (nonce : list byte).
Context (Hf : 1 ≤ f) (Hgate : gate_open).

Definition encryptor (buf : list Z) (total idx : Z) : StreamV8Encryptor :=
  MkEncryptor primes sk_fmt aad nonce f idx total buf false.

(** With every chunk index used up, any further character is refused. *)
Lemma chars_at_limit plaintext out buf total :
  Z.of_nat (length buf) < f → buf ++ plaintext ≠ [] →
  0 ≤ total → total + Z.of_nat (length plaintext) < 2 ^ 64 →
  (s ← encrypt_stream_chars primes sk_fmt nonce aad (Z.to_nat f) plaintext
         (StreamState out buf total (2 ^ 32 - 1));
   finish_stream primes sk_fmt nonce aad f s) = Err StreamChunkLimit.
Proof using Hf.
  revert buf total. induction plaintext as [|ch rest IH]; intros buf total Hl Hne Ht0 Ht.
  - cbn [encrypt_stream_chars]. rewrite bind_Ok. unfold finish_stream. cbn [st_cp_buf].
    rewrite app_nil_r in Hne. by rewrite bool_decide_eq_false_2.
  - cbn [encrypt_stream_chars length] in *. unfold encrypt_stream_char at 1.
    cbn [st_stream st_cp_buf st_total st_chunk_idx]. rewrite checked_add_Ok, bind_Ok by lia.
    case_bool_decide as Hfull; [done|]. rewrite bind_Ok. apply IH; [|by destruct buf|lia|lia].
    rewrite length_app in *. simpl in *. lia.
Qed.

Lemma push_all_sim plaintext out buf total idx :
  Z.of_nat (length buf) < f → 0 ≤ idx < 2 ^ 32 → (idx = 2 ^ 32 - 1 → buf = []) →
  0 ≤ total → total + Z.of_nat (length plaintext) < 2 ^ 64 →
  (s ← encrypt_stream_chars primes sk_fmt nonce aad (Z.to_nat f) plaintext (StreamState out buf total idx);
   finish_stream primes sk_fmt nonce aad f s)
  = (r ← push_all plaintext (encryptor buf total idx); last ← finish r.2; Ok (out ++ r.1 ++ last)).
Proof using Hf Hgate.
  unfold gate_open in Hgate. revert out buf total idx.
  induction plaintext as [|ch rest IH]; intros out buf total idx Hl Hi Hlim Ht0 Ht.
  { cbn [encrypt_stream_chars push_all]. rewrite !bind_Ok. unfold finish_stream, finish.
    cbn [encryptor se_primes se_sk_fmt se_aad se_nonce se_f se_chunk_idx se_total_real_cps se_cp_buf
         se_finished fst snd st_stream st_cp_buf st_total st_chunk_idx app]. rewrite Hgate, bind_Ok.
    case_bool_decide as Hb.
    - rewrite !bind_Ok. cbn [st_stream st_total st_chunk_idx fst snd].
      destruct (stream_v8_sentinel _ _ _ _ _ _) as [sen| |]; done.
    - assert (idx + 1 < 2 ^ 32) as Hi1.
      { destruct (decide (idx = 2 ^ 32 - 1)) as [Hx|]; [by rewrite (Hlim Hx) in Hb|lia]. }
      unfold next_stream_chunk_idx. rewrite (proj2 (Z.ltb_lt (idx + 1) _)), bind_Ok by done.
      destruct (fill_chunk _ _ _ _ _) as [cps| |]; [|done..]. rewrite !bind_Ok.
      destruct (emit_stream_v8_chunk _ _ _ _ _ _) as [fr| |]; [|done..]. rewrite !bind_Ok.
      rewrite checked_add_Ok, !bind_Ok by lia. cbn [st_stream st_total st_chunk_idx fst snd].
      destruct (stream_v8_sentinel _ _ _ _ _ _) as [sen| |]; [|done..]. rewrite !bind_Ok.
      by rewrite app_assoc. }
  cbn [push_all length] in *. unfold push.
  cbn [encryptor se_primes se_sk_fmt se_aad se_nonce se_f se_chunk_idx se_total_real_cps se_cp_buf se_finished].
  rewrite Hgate. destruct (Z.eqb_spec idx (2 ^ 32 - 1)) as [->|Hne].
  { rewrite (Hlim eq_refl) in *. rewrite chars_at_limit by (done || lia || (simpl; lia)). done. }
  cbn [encrypt_stream_chars]. unfold encrypt_stream_char at 1.
  cbn [st_stream st_cp_buf st_total st_chunk_idx]. rewrite checked_add_Ok, bind_Ok by lia.
  assert (Z.of_nat (length (buf ++ [ch])) = Z.of_nat (length buf) + 1) as Hl1 by (rewrite length_app; simpl; lia).
  case_bool_decide as Hfull.
  - unfold next_stream_chunk_idx. rewrite (proj2 (Z.ltb_lt (idx + 1) _)), bind_Ok by lia.
    rewrite index_range_Ok, !bind_Ok by lia.
    destruct (emit_stream_v8_chunk _ _ _ _ _ _) as [fr| |]; [|done..]. rewrite !bind_Ok.
    rewrite checked_add_Ok, !bind_Ok by lia. rewrite drop_ge by lia.
    unfold zeroize_codepoints. fold (encryptor [] (total + 1) (idx + 1)).
    rewrite IH by (done || lia || (simpl; lia)).
    destruct (push_all rest _) as [[o e']| |]; [|done..]. rewrite !bind_Ok. cbn [fst snd default from_option id].
    destruct (finish e') as [last| |]; [|done..]. rewrite !bind_Ok. by rewrite <-!app_assoc.
  - rewrite !bind_Ok. fold (encryptor (buf ++ [ch]) (total + 1) idx).
    rewrite IH by (done || lia).
    destruct (push_all rest _) as [[o e']| |]; [|done..]. rewrite !bind_Ok. cbn [fst snd default from_option id app].
    destruct (finish e') as [last| |]; [|done..]. by rewrite !bind_Ok.
Qed.
End incremental.

(** ** Order and length are bound *)

Lemma stream_v8_header_length f nonce : length nonce = NONCE_SIZE → length (stream_v8_header f nonce) = 21%nat.
Proof.
  intros Hn. unfold stream_v8_header. cbn [length]. by rewrite length_app, length_to_be_bytes, Hn.
Qed.

(** Behind a well-formed header the frame loop runs. *)
Lemma decrypt_stream_inner_open `{Crypto} primes sk_fmt aad f nonce rest :
  1 ≤ f ≤ STREAM_AE_V8_MAX_FRAME → length nonce = NONCE_SIZE →
  let stream := stream_v8_header f nonce ++ rest in
  decrypt_stream_ae_v8_inner stream primes sk_fmt aad
  = while_loop 64 (decrypt_stream_step stream primes sk_fmt aad f nonce (160 * f)) (21%nat, 0, [], None).
Proof.
  intros Hf Hn stream. unfold STREAM_AE_V8_MAX_FRAME in Hf. unfold decrypt_stream_ae_v8_inner.
  pose proof (stream_v8_header_length f nonce Hn) as Hh.
  change (1 + 4 + NONCE_SIZE)%nat with 21%nat. change (5 + NONCE_SIZE)%nat with 21%nat.
  rewrite bool_decide_eq_false_2 by (unfold stream; rewrite length_app; lia).
  assert (slice 1 5 stream = to_be_bytes 4 f) as ->.
  { unfold slice, stream, stream_v8_header. cbn [app drop Nat.sub]. rewrite <-app_assoc. by apply take_app_length'. }
  assert (slice 5 21 stream = nonce) as ->.
  { unfold slice, stream, stream_v8_header. cbn [app]. rewrite <-app_assoc, app_comm_cons, drop_app_length'
      by (cbn [length]; by rewrite length_to_be_bytes). by apply take_app_length'. }
  change (stream !! 0%nat) with (Some FORMAT_STREAM_AE_V8). cbn [expect]. rewrite bind_Ok, bool_decide_eq_true_2 by done. cbn [negb].
  rewrite from_to_be_bytes by lia. rewrite (proj2 (Z.ltb_ge f 1)), (proj2 (Z.ltb_ge _ f)) by (unfold STREAM_AE_V8_MAX_FRAME; lia).
  cbn [orb]. unfold MAX_NOISE_RUN, TOKEN_WIDTH. rewrite checked_add_Ok, bind_Ok by lia.
  rewrite checked_mul_Ok, bind_Ok by lia. rewrite checked_mul_Ok, bind_Ok by lia.
  by replace (f * Z.of_nat 8 * (19 + 1)) with (160 * f) by lia.
Qed.

Lemma stream_v8_header_inj f1 f2 n1 n2 r1 r2 :
  fits 32 f1 → fits 32 f2 → length n1 = NONCE_SIZE → length n2 = NONCE_SIZE →
  stream_v8_header f1 n1 ++ r1 = stream_v8_header f2 n2 ++ r2 → f1 = f2 ∧ n1 = n2 ∧ r1 = r2.
Proof.
  intros Hf1 Hf2 Hn1 Hn2 Heq. apply app_inj_1 in Heq as [Hh ->];
    [|by rewrite !stream_v8_header_length].
  apply (f_equal (drop 1)) in Hh. unfold stream_v8_header in Hh. rewrite !skipn_cons, !drop_0 in Hh.
  apply app_inj_1 in Hh as [Hf ->]; [|by rewrite !length_to_be_bytes].
  by apply to_be_bytes_inj in Hf as ->; [|exact Hf1|exact Hf2].
Qed.

Section binding.
Context `{Crypto} (sk_fmt aad : list byte) (f : Z) (nonce : list byte).
Context (Hf : 1 ≤ f ≤ STREAM_AE_V8_MAX_FRAME).

Lemma sealed_not_sentinel i body r1 count total r2 :
  sealed sk_fmt aad f nonce i body ++ r1 ≠ sentinel sk_fmt aad f nonce count total ++ r2.
Proof using Hf.
  unfold STREAM_AE_V8_MAX_FRAME in Hf. unfold sealed, sentinel. rewrite <-!app_assoc. intros Heq.
  apply app_inj_1 in Heq as [Heq _]; [|by rewrite !length_to_be_bytes].
  apply to_be_bytes_inj in Heq; change (256 ^ Z.of_nat 4) with (2 ^ 32); lia.
Qed.

(** A chunk sealed at one index opened at another: what its tag covers at the two collides. *)
Lemma sealed_inj i1 b1 r1 i2 b2 r2 :
  fits 32 i1 → fits 32 i2 → Z.of_nat (length b1) = 160 * f → Z.of_nat (length b2) = 160 * f →
  sealed sk_fmt aad f nonce i1 b1 ++ r1 = sealed sk_fmt aad f nonce i2 b2 ++ r2 →
  b1 = b2 ∧ r1 = r2 ∧
  (i1 = i2 ∨ collides sk_fmt (chunk_covered aad f nonce i1 b1) (chunk_covered aad f nonce i2 b1)).
Proof using Type.
  intros Hi1 Hi2 Hb1 Hb2. unfold sealed. rewrite <-!app_assoc. intros Heq.
  apply app_inv_head in Heq. apply app_inj_1 in Heq as [-> Heq]; [|lia].
  apply app_inj_1 in Heq as [Hauth ->]; [|unfold chunk_auth; by rewrite !length_hmac_digest].
  split_and!; [done..|]. apply equal_digests in Hauth as [[_ Heq]%cons_eq|?]; [left|by right].
  apply app_inv_head in Heq. apply app_inj_1 in Heq as [Hx _]; [|by rewrite !length_to_be_bytes].
  by apply to_be_bytes_inj in Hx.
Qed.

Lemma sentinel_inj c1 t1 c2 t2 :
  fits 32 c1 → fits 32 c2 → fits 64 t2 →
  sentinel sk_fmt aad f nonce c1 t1 = sentinel sk_fmt aad f nonce c2 t2 →
  c1 = c2 ∨ collides sk_fmt (sentinel_covered aad f nonce c1 t1)
    (sentinel_covered aad f nonce c2
       (sentinel_total sk_fmt f nonce c2 (to_be_bytes 8 (Z.lxor t1 (stream_v8_count_mask sk_fmt f nonce c1))))).
Proof using Type.
  intros Hc1 Hc2 Ht2. unfold sentinel. intros Heq. apply app_inv_head in Heq.
  apply app_inj_1 in Heq as [Hmask Hauth]; [|by rewrite !length_to_be_bytes].
  assert (sentinel_total sk_fmt f nonce c2
    (to_be_bytes 8 (Z.lxor t1 (stream_v8_count_mask sk_fmt f nonce c1))) = t2) as ->.
  { rewrite Hmask. by apply sentinel_total_mask. }
  apply equal_digests in Hauth as [[_ Heq]%cons_eq|?]; [left|by right].
  apply app_inv_head in Heq. apply app_inj_1 in Heq as [Hx _]; [|by rewrite !length_to_be_bytes].
  by apply to_be_bytes_inj in Hx.
Qed.

Definition frames (ps : list (Z * list byte)) : list byte :=
  concat ((λ p, sealed sk_fmt aad f nonce p.1 p.2) <$> ps).

Definition frame_ok (p : Z * list byte) : Prop := fits 32 p.1 ∧ Z.of_nat (length p.2) = 160 * f.

(** The frame at position [k] was sealed at another index and its tag covers, at the two, inputs
    that collide. *)
Definition misplaced (i : Z) (ps : list (Z * list byte)) : Prop :=
  ∃ k j body, ps !! k = Some (j, body) ∧
    collides sk_fmt (chunk_covered aad f nonce j body) (chunk_covered aad f nonce (i + Z.of_nat k) body).

(** The sentinel was sealed for [c] chunks and stands behind [c'], and its tag covers, for the
    two, inputs that collide. *)
Definition miscounted (c total c' : Z) : Prop :=
  collides sk_fmt (sentinel_covered aad f nonce c total)
    (sentinel_covered aad f nonce c'
       (sentinel_total sk_fmt f nonce c' (to_be_bytes 8 (Z.lxor total (stream_v8_count_mask sk_fmt f nonce c))))).

Lemma frames_align primes ps i bodies chunks c total c' total' :
  Forall frame_ok ps → opened_from primes sk_fmt f nonce i bodies chunks →
  0 ≤ i → c' = i + Z.of_nat (length bodies) → c' < 2 ^ 32 → fits 32 c → fits 64 total' →
  frames ps ++ sentinel sk_fmt aad f nonce c total
  = sealed_from sk_fmt aad f nonce i bodies ++ sentinel sk_fmt aad f nonce c' total' →
  (ps.*1 = seqZ i (Z.of_nat (length ps)) ∧ c = i + Z.of_nat (length ps)) ∨
  misplaced i ps ∨ miscounted c total (i + Z.of_nat (length ps)).
Proof using Hf.
  intros Hps. revert i bodies chunks. induction Hps as [|[j b] ps [Hj Hb] Hps IH];
    intros i [|b' bodies] chunks Ho Hi Hc' Hc32 Hc Ht Heq; cbn [sealed_from app length] in *.
  - cbn [frames fmap list_fmap concat app] in Heq. replace c' with (i + Z.of_nat 0) in Heq by lia.
    apply sentinel_inj in Heq as [->|?]; [|by right; right|done|unfold fits; lia|done].
    left. cbn. split; [done|lia].
  - exfalso. rewrite <-app_assoc in Heq. symmetry in Heq. rewrite <-(app_nil_r (sentinel _ _ _ _ c _)) in Heq.
    cbn [frames fmap list_fmap concat app] in Heq. by apply sealed_not_sentinel in Heq.
  - exfalso. unfold frames in Heq. cbn [fmap list_fmap concat] in Heq. rewrite <-app_assoc in Heq.
    rewrite <-(app_nil_r (sentinel _ _ _ _ c' _)) in Heq. by apply sealed_not_sentinel in Heq.
  - destruct chunks as [|ch chunks]; [done|]. destruct Ho as (Hb' & _ & Ho).
    unfold frames in Heq. cbn [fmap list_fmap concat fst snd] in Heq. rewrite <-!app_assoc in Heq.
    apply sealed_inj in Heq as (-> & Heq & Hat); [|exact Hj|unfold fits; lia|exact Hb|exact Hb'].
    destruct Hat as [->|Hat].
    2: { right; left. exists 0%nat, j, b'. by replace (i + Z.of_nat 0) with i by lia. }
    replace (i + Z.of_nat (S (length ps))) with (i + 1 + Z.of_nat (length ps)) by lia.
    destruct (IH (i + 1) bodies chunks) as [[Hseq ->]|[(k & j & body & Hk & Hcol)|?]]; try done; try lia.
    + left. cbn [fmap list_fmap fst length]. rewrite seqZ_cons by lia. split; [|lia].
      f_equal. rewrite <-Z.add_1_r. replace (Z.pred (Z.of_nat (S (length ps)))) with (Z.of_nat (length ps)) by lia.
      exact Hseq.
    + right; left. exists (S k), j, body. split; [done|].
      by replace (i + Z.of_nat (S k)) with (i + 1 + Z.of_nat k) by lia.
    + by right; right.
Qed.

(** No accepted frame sequence is a proper prefix of another. *)
Lemma frames_prefix_free sk' aad' i b1 count1 total1 b2 count2 total2 ext :
  Forall (λ b, Z.of_nat (length b) = 160 * f) b1 → Forall (λ b, Z.of_nat (length b) = 160 * f) b2 →
  (sealed_from sk_fmt aad f nonce i b1 ++ sentinel sk_fmt aad f nonce count1 total1) ++ ext
  = sealed_from sk' aad' f nonce i b2 ++ sentinel sk' aad' f nonce count2 total2 → ext = [].
Proof using Hf.
  unfold STREAM_AE_V8_MAX_FRAME in Hf.
  assert (Hprefix : ∀ r1 r2 : list byte, to_be_bytes 4 0 ++ r1 ≠ to_be_bytes 4 (160 * f) ++ r2).
  { intros r1 r2 Heq. apply app_inj_1 in Heq as [Heq _]; [|by rewrite !length_to_be_bytes].
    apply to_be_bytes_inj in Heq; change (256 ^ Z.of_nat 4) with (2 ^ 32); lia. }
  intros H1. revert i b2. induction H1 as [|x1 b1 Hx1 _ IH]; intros i b2 [|x2 b2' Hx2 H2];
    cbn [sealed_from app].
  - intros Heq. apply (f_equal length) in Heq. unfold sentinel, sentinel_auth in Heq.
    rewrite !length_app, !length_to_be_bytes, !length_hmac_digest in Heq.
    destruct ext; [done|]. cbn [length] in Heq. lia.
  - unfold sentinel, sealed. rewrite <-!app_assoc. intros Heq. by apply Hprefix in Heq.
  - unfold sentinel, sealed. rewrite <-!app_assoc. intros Heq. symmetry in Heq. by apply Hprefix in Heq.
  - unfold sealed. rewrite <-!app_assoc.
    intros Heq. apply app_inv_head in Heq. apply app_inj_1 in Heq as [_ Heq]; [|lia].
    apply app_inj_1 in Heq as [_ Heq]; [|unfold chunk_auth; by rewrite !length_hmac_digest].
    rewrite app_assoc in Heq. by apply (IH (i + 1) b2' H2).
Qed.
End binding.

Lemma opened_bodies `{Crypto} primes sk_fmt f nonce i bodies chunks :
  opened_from primes sk_fmt f nonce i bodies chunks → Forall (λ b, Z.of_nat (length b) = 160 * f) bodies.
Proof.
  revert i chunks. induction bodies as [|b bodies IH]; intros i [|c chunks]; try done.
  intros (Hb & _ & Ho). constructor; eauto.
Qed.

(** ** Properties *)

Lemma valid_frame_bounds f : 1 ≤ f ≤ STREAM_AE_V8_MAX_FRAME → validate_stream_v8_frame f = Ok tt.
Proof.
  intros Hf. unfold validate_stream_v8_frame.
  rewrite (proj2 (Z.ltb_ge f 1)) by lia. by rewrite (proj2 (Z.ltb_ge _ f)) by lia.
Qed.

Lemma stream_encrypt_decrypt_cases `{Crypto} `{Gate} plaintext primes sk nonce aad f :
  gate_open → valid_key primes → 1 ≤ f ≤ STREAM_AE_V8_MAX_FRAME → length nonce = NONCE_SIZE →
  str_ok plaintext → Z.of_nat (length plaintext) < 2 ^ 64 →
  let n := Z.of_nat (length plaintext) in
  match encrypt_stream_ae_v8_with_nonce plaintext primes sk nonce aad f with
  | Ok stream => decrypt_stream_ae_v8 stream primes sk aad = Ok plaintext ∧
      n ≤ (2 ^ 32 - 1) * f ∧
      ∃ C, canonical_count f C n ∧ Z.of_nat (length stream) = 65 + (160 * f + 36) * C
  | Err e => e = StreamChunkLimit ∧ (2 ^ 32 - 1) * f < n
  | Panic _ => False
  end.
Proof.
  intros Hg Hkey Hf Hnl Hs Hn n. unfold encrypt_stream_ae_v8_with_nonce, decrypt_stream_ae_v8.
  rewrite Hg, validate_key_valid, valid_frame_bounds, !bind_Ok by done.
  set (sk_fmt := derive_format_subkey sk FORMAT_STREAM_AE_V8).
  pose proof (encrypt_stream_inner_cases primes sk_fmt aad f nonce (valid_key_arith _ Hkey) Hf
    plaintext Hnl Hs Hn) as Hc. cbv zeta in Hc. fold n in Hc.
  destruct (encrypt_stream_ae_v8_inner _ _ _ _ _ _) as [stream|e|]; [|done|done].
  destruct Hc as (Hspec & Hle & C & HC & Hlen). rewrite !bind_Ok. split_and!; [|done|by exists C].
  apply (decrypt_stream_inner_spec primes sk_fmt aad stream (valid_key_arith _ Hkey)); [|by exists f, nonce].
  unfold STREAM_AE_V8_MAX_FRAME, canonical_count in *. nia.
Qed.

(** C21: the v8 stream round-trips: under a validated key, a frame size in
    [[1, 16384]] and a 16-byte nonce, encryption of any string either yields a
    stream that decrypts to that string under the same key and associated data,
    of exactly [65 + (160 F + 36) C] bytes for the number C of chunks its length
    needs, or refuses because the string needs more than [2^32 - 1] chunks. *)
Theorem stream_encrypt_decrypt_roundtrip `{Crypto} `{Gate} plaintext primes sk nonce aad f :
  gate_open → valid_key primes → 1 ≤ f ≤ STREAM_AE_V8_MAX_FRAME → length nonce = NONCE_SIZE →
  str_ok plaintext → Z.of_nat (length plaintext) < 2 ^ 64 →
  let n := Z.of_nat (length plaintext) in
  match encrypt_stream_ae_v8_with_nonce plaintext primes sk nonce aad f with
  | Ok stream => decrypt_stream_ae_v8 stream primes sk aad = Ok plaintext ∧
      n ≤ (2 ^ 32 - 1) * f ∧
      ∃ C, canonical_count f C n ∧ Z.of_nat (length stream) = 65 + (160 * f + 36) * C
  | Err e => e = StreamChunkLimit ∧ (2 ^ 32 - 1) * f < n
  | Panic _ => False
  end.
Proof. apply stream_encrypt_decrypt_cases. Qed.

Lemma stream_encrypt_decrypt_roundtrip_witness :
  let _ := Toy.crypto in let _ := default_build in
  let sk := replicate 32 x07 in let nonce := replicate 16 x05 in
  valid_key sample_key ∧ str_ok [72; 105; 33] ∧
  match encrypt_stream_ae_v8_with_nonce [72; 105; 33] sample_key sk nonce [x01] 2 with
  | Ok stream => decrypt_stream_ae_v8 stream sample_key sk [x01] = Ok [72; 105; 33] ∧
      3 ≤ (2 ^ 32 - 1) * 2 ∧
      ∃ C, canonical_count 2 C 3 ∧ Z.of_nat (length stream) = 65 + (160 * 2 + 36) * C
  | Err e => e = StreamChunkLimit ∧ (2 ^ 32 - 1) * 2 < 3
  | Panic _ => False
  end.
Proof.
  intros C G s n. assert (str_ok [72; 105; 33]) as Hs by (repeat constructor).
  assert (gate_open) as Hg by reflexivity.
  split; [apply sample_key_valid|split; [exact Hs|]].
  apply (stream_encrypt_decrypt_roundtrip [72; 105; 33] sample_key s n [x01] 2 Hg sample_key_valid);
    [unfold STREAM_AE_V8_MAX_FRAME; lia|reflexivity|exact Hs|simpl; lia].
Defined.

(** C22: the stream decryptor refines its specification: on arbitrary bytes it
    never panics, and it accepts exactly the byte strings [header || C chunk
    frames || sentinel] in which every frame carries the tag of its own body at
    its own index, every body decodes to F codepoints, and the sentinel carries
    the tag of C and a count that ends inside the last chunk; what it returns is
    that many codepoints of the concatenated chunks. *)
Theorem decrypt_stream_refines `{Crypto} `{Gate} stream key aad :
  gate_open → valid_key (primes key) → Z.of_nat (length stream) < 2 ^ 60 →
  let sk_fmt := derive_format_subkey (sk key) FORMAT_STREAM_AE_V8 in
  no_panic (decrypt_stream_ae_v8_key stream key aad) ∧
  ∀ m, decrypt_stream_ae_v8_key stream key aad = Ok m ↔
    ∃ f nonce, 1 ≤ f ≤ STREAM_AE_V8_MAX_FRAME ∧ length nonce = NONCE_SIZE ∧
      stream_spec (primes key) sk_fmt aad f nonce stream m.
Proof.
  intros Hg Hkey Hn sk_fmt. unfold decrypt_stream_ae_v8_key. rewrite Hg, bind_Ok.
  by apply decrypt_stream_inner_spec; [apply valid_key_arith|].
Qed.

Lemma decrypt_stream_refines_witness :
  let _ := Toy.crypto in let _ := default_build in
  let key := MkNapqesKey sample_key (replicate 32 x07) in
  no_panic (decrypt_stream_ae_v8_key (replicate 100 x02) key []).
Proof.
  intros C G key. assert (gate_open) as Hg by reflexivity.
  apply (proj1 (decrypt_stream_refines (replicate 100 x02) key [] Hg sample_key_valid
    ltac:(rewrite length_replicate; lia))).
Defined.

(** The incremental encryptor, whatever its constructor checked. *)
Lemma new_validated_sim `{Crypto} `{Gate} plaintext primes sk aad f checks draw s :
  gate_open → 0 ≤ f → Z.of_nat (length plaintext) < 2 ^ 64 →
  let '(r, s') := new_validated primes sk aad f checks draw s in
  (new ← r; out ← push_all plaintext new.1; last ← finish out.2; Ok (new.2 ++ out.1 ++ last), s')
  = with_nonce (_ ← checks; validate_stream_v8_frame f) draw s (λ nonce,
      encrypt_stream_ae_v8_inner plaintext primes (derive_format_subkey sk FORMAT_STREAM_AE_V8) nonce aad f).
Proof.
  intros Hg Hf0 Hn. unfold new_validated, with_nonce.
  destruct checks as [[]|e|p]; [|done..]. rewrite bind_Ok. unfold validate_stream_v8_frame.
  destruct ((f <? 1) || (STREAM_AE_V8_MAX_FRAME <? f)) eqn:Hb; [done|].
  apply orb_false_iff in Hb as [Hf1 _]. reflect_bools.
  destruct (generate_nonce_with_crng_check draw s) as [[nonce|e|] s']; [|done|done]. rewrite !bind_Ok.
  f_equal. cbn [fst snd]. unfold encrypt_stream_ae_v8_inner. symmetry.
  by apply push_all_sim; [lia|done|simpl; lia|lia|lia|lia|lia].
Qed.

(** C38: the incremental encryptor is the all-at-once one: for every key, frame
    size, nonce draw and gate state, creating a [StreamV8Encryptor], pushing the
    characters one by one and finishing outputs the same bytes, or the same error,
    as [encrypt_stream_ae_v8_key], and leaves the same RNG state. *)
Theorem stream_incremental_equivalent `{Crypto} `{Gate} plaintext key aad f draw s :
  0 ≤ f → Z.of_nat (length plaintext) < 2 ^ 64 →
  let '(r, s') := encryptor_new_key key aad f draw s in
  (new ← r; out ← push_all plaintext new.1; last ← finish out.2; Ok (new.2 ++ out.1 ++ last), s')
  = encrypt_stream_ae_v8_key plaintext key aad f draw s.
Proof.
  intros Hf0 Hn. unfold encryptor_new_key, encrypt_stream_ae_v8_key. destruct (decide gate_open) as [Hg|Hg].
  - by apply new_validated_sim.
  - unfold new_validated, with_nonce. by rewrite (gated_closed Hg).
Qed.

Lemma stream_incremental_equivalent_witness :
  let _ := Toy.crypto in let _ := default_build in
  let key := MkNapqesKey sample_key (replicate 32 x07) in
  let s := MkCrng None POST_NOT_RUN in
  let '(r, s') := encryptor_new_key key [] 2 (replicate 16 x05) s in
  (new ← r; out ← push_all [72; 105; 33] new.1; last ← finish out.2; Ok (new.2 ++ out.1 ++ last), s')
  = encrypt_stream_ae_v8_key [72; 105; 33] key [] 2 (replicate 16 x05) s.
Proof.
  intros C G key s.
  apply (stream_incremental_equivalent [72; 105; 33] key [] 2 (replicate 16 x05) s); [lia|simpl; lia].
Defined.

(** No accepted stream is a proper prefix of another one. *)
Lemma accepted_prefix_free `{Crypto} primes sk_fmt aad primes' sk_fmt' aad' stream ext m m' :
  arith_key primes → arith_key primes' → Z.of_nat (length (stream ++ ext)) < 2 ^ 60 →
  decrypt_stream_ae_v8_inner stream primes sk_fmt aad = Ok m →
  decrypt_stream_ae_v8_inner (stream ++ ext) primes' sk_fmt' aad' = Ok m' → ext = [].
Proof.
  intros Hkey Hkey' Hn Hd1 Hd2.
  assert (Z.of_nat (length stream) < 2 ^ 60) as Hn1 by (rewrite length_app in Hn; lia).
  apply (decrypt_stream_inner_spec _ _ _ _ Hkey Hn1) in Hd1. apply (decrypt_stream_inner_spec _ _ _ _ Hkey' Hn) in Hd2.
  destruct Hd1 as (f & nonce & Hf & Hnl & bodies & chunks & total & -> & Ho & _).
  destruct Hd2 as (f' & nonce' & Hf' & Hnl' & bodies' & chunks' & total' & Heq & Ho' & _).
  unfold STREAM_AE_V8_MAX_FRAME in *. rewrite <-app_assoc in Heq.
  apply stream_v8_header_inj in Heq as (<- & <- & Heq); [|unfold fits; lia|unfold fits; lia|done|done].
  apply frames_prefix_free in Heq; [done|exact Hf|by eapply opened_bodies|by eapply opened_bodies].
Qed.

(** C8: the stream is safe against truncation and reordering: no accepted stream
    is a proper prefix of another, under any keys and associated data; and a stream
    assembled from frames genuinely sealed at some indices, followed by a sentinel
    genuinely sealed for some count, is accepted only if the indices are
    [0, 1, ..., count - 1] in this order, unless a frame sealed at one index stands at
    another and the HMACs of its body with the two indices are equal, or the sentinel
    stands behind another number of frames and the HMACs of the sentinel with the two
    numbers are equal: in each case two inputs that the positions of the frames name. *)
Theorem stream_order_binding `{Crypto} `{Gate} key aad :
  gate_open → valid_key (primes key) →
  let sk_fmt := derive_format_subkey (sk key) FORMAT_STREAM_AE_V8 in
  (∀ key' aad' stream ext m m',
     valid_key (primes key') → Z.of_nat (length (stream ++ ext)) < 2 ^ 60 →
     decrypt_stream_ae_v8_key stream key aad = Ok m →
     decrypt_stream_ae_v8_key (stream ++ ext) key' aad' = Ok m' → ext = []) ∧
  (∀ f nonce ps count total m,
     1 ≤ f ≤ STREAM_AE_V8_MAX_FRAME → length nonce = NONCE_SIZE → Forall (frame_ok f) ps →
     fits 32 count →
     let stream := stream_v8_header f nonce ++ frames sk_fmt aad f nonce ps
                   ++ sentinel sk_fmt aad f nonce count total in
     Z.of_nat (length stream) < 2 ^ 60 →
     decrypt_stream_ae_v8_key stream key aad = Ok m →
     ps.*1 = seqZ 0 count ∨
     (∃ k i body, ps !! k = Some (i, body) ∧
        collides sk_fmt (chunk_covered aad f nonce i body) (chunk_covered aad f nonce (Z.of_nat k) body)) ∨
     collides sk_fmt (sentinel_covered aad f nonce count total)
       (sentinel_covered aad f nonce (Z.of_nat (length ps)) (sentinel_total sk_fmt f nonce (Z.of_nat (length ps))
          (to_be_bytes 8 (Z.lxor total (stream_v8_count_mask sk_fmt f nonce count)))))).
Proof.
  intros Hg Hkey sk_fmt.
  assert (Hopen : ∀ stream key aad, decrypt_stream_ae_v8_key stream key aad
    = decrypt_stream_ae_v8_inner stream (primes key) (derive_format_subkey (Keys.sk key) FORMAT_STREAM_AE_V8) aad)
    by (intros; unfold decrypt_stream_ae_v8_key; by rewrite Hg, bind_Ok).
  split.
  - intros key' aad' stream ext m m' Hkey' Hn Hd1 Hd2. rewrite Hopen in Hd1, Hd2.
    by eapply accepted_prefix_free; [apply valid_key_arith, Hkey|apply valid_key_arith, Hkey'|exact Hn|exact Hd1|exact Hd2].
  - intros f nonce ps count total m Hf Hnl Hps Hc stream Hn Hd. rewrite Hopen in Hd.
    apply (decrypt_stream_inner_spec _ _ _ _ (valid_key_arith _ Hkey) Hn) in Hd.
    destruct Hd as (f' & nonce' & Hf' & Hnl' & bodies & chunks & total' & Heq & Ho & Hlen & Hcan & _).
    assert (Hb := conj Hlen Hcan). unfold stream, STREAM_AE_V8_MAX_FRAME in *.
    apply stream_v8_header_inj in Heq as (<- & <- & Heq); [|unfold fits; lia|unfold fits; lia|done|done].
    assert (fits 64 total') as Ht by (eapply (canonical_fits f Hf); [|apply Hb]; lia).
    by pose proof (frames_align sk_fmt aad f nonce Hf (primes key) ps 0 bodies chunks count total
      (Z.of_nat (length bodies)) total' Hps Ho (Z.le_refl 0) eq_refl (proj1 Hb) Hc Ht Heq) as [[-> ->]|[?|?]];
      [left|right; left|right; right].
Qed.

Lemma stream_order_binding_witness :
  let _ := Toy.crypto in let _ := default_build in
  let key := MkNapqesKey sample_key (replicate 32 x07) in
  let sk_fmt := derive_format_subkey (sk key) FORMAT_STREAM_AE_V8 in
  let nonce := replicate 16 x05 in
  ∃ body,
    decrypt_stream_ae_v8_key (stream_v8_header 1 nonce ++ frames sk_fmt [] 1 nonce [(0, body)]
      ++ sentinel sk_fmt [] 1 nonce 1 1) key [] = Ok [72] ∧
    ([(0, body)].*1 = seqZ 0 1 ∨
     (∃ k i body', [(0, body)] !! k = Some (i, body') ∧
        collides sk_fmt (chunk_covered [] 1 nonce i body') (chunk_covered [] 1 nonce (Z.of_nat k) body')) ∨
     collides sk_fmt (sentinel_covered [] 1 nonce 1 1)
       (sentinel_covered [] 1 nonce 1 (sentinel_total sk_fmt 1 nonce 1
          (to_be_bytes 8 (Z.lxor 1 (stream_v8_count_mask sk_fmt 1 nonce 1)))))).
Proof.
  intros C G key sk_fmt nonce. assert (gate_open) as Hg by reflexivity.
  assert (1 ≤ 1 ≤ STREAM_AE_V8_MAX_FRAME) as Hf by (unfold STREAM_AE_V8_MAX_FRAME; lia).
  destruct (emit_chunk_Ok sample_key sk_fmt [] 1 nonce sample_key_arith Hf 0 [72]
    ltac:(repeat constructor) eq_refl) as (body & _ & Hb & Ho).
  exists body. set (stream := stream_v8_header 1 nonce ++ _).
  assert (Z.of_nat (length stream) < 2 ^ 60) as Hn.
  { subst stream. cbn [frames fmap list_fmap concat]. unfold sealed, sentinel, chunk_auth, sentinel_auth.
    rewrite !length_app, !length_to_be_bytes, !length_hmac_digest. simpl length. lia. }
  assert (decrypt_stream_ae_v8_key stream key [] = Ok [72]) as Hd.
  { apply (proj2 (decrypt_stream_inner_spec sample_key sk_fmt [] stream sample_key_arith Hn)).
    exists 1, nonce. split_and!; [lia|exact (proj2 Hf)|reflexivity|].
    exists [body], [[72]], 1. split_and!; try done; try lia.
    right. simpl. lia. }
  split; [exact Hd|].
  apply (proj2 (stream_order_binding key [] Hg sample_key_valid) 1 nonce [(0, body)] 1 1 [72] Hf eq_refl);
    [|split; lia|exact Hn|exact Hd].
  repeat constructor; simpl; lia.
Defined.
