(* ===== verification/StreamIntegrity.v ===== *)
(** * Ciphertext integrity of the v8 stream ([lib.rs])

    A stream that decrypts is one that was sealed under the key, whatever was done to the
    streams sealed: unless it carries a tag no sealing produced, or one of the inputs its tags
    cover collides under HMAC with one of the inputs the tags of a sealed stream cover. Both
    lists of inputs are computed from the bytes of the streams. Tampering, reordering, splicing
    of several streams and a change of the associated data are instances. *)
From Stdlib Require Import ZArith Lia Strings.Byte.
From stdpp Require Import base tactics option numbers list.
From S2P Require Import Prelude Machine Errors Crates Post Primes Keys Derive Padding Tokens BlockV8 LegacyV7 StreamV8.

#[local] Open Scope Z_scope.
#[local] Open Scope napqes_scope.

(** ** The tags a stream carries *)

(** The tag of every frame in order: a frame starts with the length of its body, and the
    sentinel with zero and eight bytes of count. *)
Fixpoint frame_tags (fuel : nat) (rest : list byte) : list (list byte) :=
  match fuel with
  | O => []
  | S fuel =>
      let len := from_be_bytes (take 4 rest) in
      if len =? 0 then [take TAG_SIZE (drop 12 rest)]
      else
        let body_end := (4 + Z.to_nat len)%nat in
        take TAG_SIZE (drop body_end rest) :: frame_tags fuel (drop (body_end + TAG_SIZE) rest)
  end.

Definition stream_tags (stream : list byte) : list (list byte) := frame_tags (length stream) (drop 21 stream).

(** What the tags of a stream cover under the given associated data, in the same order. *)
Fixpoint frame_covered `{Crypto} (sk_fmt aad : list byte) (f : Z) (nonce : list byte) (fuel : nat) (i : Z)
    (rest : list byte) : list (list byte) :=
  match fuel with
  | O => []
  | S fuel =>
      let len := from_be_bytes (take 4 rest) in
      if len =? 0 then [sentinel_covered aad f nonce i (sentinel_total sk_fmt f nonce i (take 8 (drop 4 rest)))]
      else
        let body := take (Z.to_nat len) (drop 4 rest) in
        chunk_covered aad f nonce i body
        :: frame_covered sk_fmt aad f nonce fuel (i + 1) (drop (4 + Z.to_nat len + TAG_SIZE) rest)
  end.

Definition stream_covered `{Crypto} (sk_fmt aad stream : list byte) : list (list byte) :=
  frame_covered sk_fmt aad (from_be_bytes (take 4 (drop 1 stream))) (take NONCE_SIZE (drop 5 stream))
    (length stream) 0 (drop 21 stream).

(** One call of the encryptor: its inputs and its result. *)
Record sealing := Sealing {
  sl_plaintext : list Z; sl_nonce : list byte; sl_aad : list byte; sl_frame : Z; sl_stream : list byte }.

Definition genuine `{Crypto} (key : NapqesKey) (g : sealing) : Prop :=
  encrypt_stream_ae_v8_with_nonce (sl_plaintext g) (primes key) (sk key) (sl_nonce g) (sl_aad g) (sl_frame g)
    = Ok (sl_stream g) ∧
  str_ok (sl_plaintext g) ∧ Z.of_nat (length (sl_plaintext g)) < 2 ^ 63 ∧ length (sl_nonce g) = NONCE_SIZE ∧
  fits 64 (Z.of_nat (length (sl_aad g))).

(** ** Layouts *)

(** What the frames of a stream are made of. *)
Record layout := Layout {
  ly_aad : list byte; ly_f : Z; ly_nonce : list byte; ly_bodies : list (list byte); ly_total : Z }.

Section layouts.
Context `{Crypto} (sk_fmt : list byte).

Definition layout_count (y : layout) : Z := Z.of_nat (length (ly_bodies y)).

Definition layout_stream (y : layout) : list byte :=
  stream_v8_header (ly_f y) (ly_nonce y) ++ sealed_from sk_fmt (ly_aad y) (ly_f y) (ly_nonce y) 0 (ly_bodies y)
  ++ sentinel sk_fmt (ly_aad y) (ly_f y) (ly_nonce y) (layout_count y) (ly_total y).

Definition layout_ok (y : layout) : Prop :=
  1 ≤ ly_f y ≤ STREAM_AE_V8_MAX_FRAME ∧ length (ly_nonce y) = NONCE_SIZE ∧
  Forall (λ b, Z.of_nat (length b) = 160 * ly_f y) (ly_bodies y) ∧ layout_count y < 2 ^ 32 ∧
  fits 64 (ly_total y) ∧ fits 64 (Z.of_nat (length (ly_aad y))).

Definition body_input (y : layout) (i : Z) (body : list byte) : list byte :=
  chunk_covered (ly_aad y) (ly_f y) (ly_nonce y) i body.
Definition last_input (y : layout) : list byte :=
  sentinel_covered (ly_aad y) (ly_f y) (ly_nonce y) (layout_count y) (ly_total y).

Fixpoint body_inputs (y : layout) (i : Z) (bodies : list (list byte)) : list (list byte) :=
  match bodies with [] => [] | b :: bodies => body_input y i b :: body_inputs y (i + 1) bodies end.
Definition layout_inputs (y : layout) : list (list byte) := body_inputs y 0 (ly_bodies y) ++ [last_input y].

Lemma body_inputs_elem y i bodies x :
  x ∈ body_inputs y i bodies ↔ ∃ k b, bodies !! k = Some b ∧ x = body_input y (i + Z.of_nat k) b.
Proof using Type.
  revert i. induction bodies as [|b bodies IH]; intros i; cbn [body_inputs].
  - rewrite elem_of_nil. split; [done|by intros (k & b & Hb & _)].
  - rewrite elem_of_cons, IH. split.
    + intros [->|(k & b' & Hk & ->)]; [exists 0%nat, b|exists (S k), b']; (split; [done|f_equal; lia]).
    + intros ([|k] & b' & Hk & ->); [left|right; exists k, b']; cbn in Hk.
      * injection Hk as ->. f_equal. lia.
      * split; [done|]. f_equal. lia.
Qed.

Lemma last_input_elem y : last_input y ∈ layout_inputs y.
Proof using Type. apply elem_of_app. right. by apply list_elem_of_singleton. Qed.

(** Reading the tags off a stream of this form. *)
Lemma frame_tags_frame fuel body tag rest :
  0 < Z.of_nat (length body) < 2 ^ 32 → length tag = TAG_SIZE →
  frame_tags (S fuel) (to_be_bytes 4 (Z.of_nat (length body)) ++ body ++ tag ++ rest) = tag :: frame_tags fuel rest.
Proof using Type.
  intros Hb Ht. cbn [frame_tags]. rewrite take_app_length' by (by rewrite length_to_be_bytes).
  rewrite from_to_be_bytes by lia. rewrite (proj2 (Z.eqb_neq _ _)), Nat2Z.id by lia. f_equal.
  - rewrite app_assoc, drop_app_length' by (by rewrite length_app, length_to_be_bytes). by rewrite take_app_length'.
  - rewrite (app_assoc (to_be_bytes 4 _)), (app_assoc (to_be_bytes 4 _ ++ body)), drop_app_length'
      by (rewrite !length_app, length_to_be_bytes; lia). done.
Qed.

Lemma frame_covered_frame aad f nonce fuel i body tag rest :
  0 < Z.of_nat (length body) < 2 ^ 32 → length tag = TAG_SIZE →
  frame_covered sk_fmt aad f nonce (S fuel) i (to_be_bytes 4 (Z.of_nat (length body)) ++ body ++ tag ++ rest)
  = chunk_covered aad f nonce i body :: frame_covered sk_fmt aad f nonce fuel (i + 1) rest.
Proof using Type.
  intros Hb Ht. cbn [frame_covered]. rewrite take_app_length' by (by rewrite length_to_be_bytes).
  rewrite from_to_be_bytes by lia. rewrite (proj2 (Z.eqb_neq _ _)), Nat2Z.id by lia. f_equal.
  - rewrite drop_app_length' by (by rewrite length_to_be_bytes). by rewrite take_app_length'.
  - rewrite (app_assoc (to_be_bytes 4 _)), (app_assoc (to_be_bytes 4 _ ++ body)), drop_app_length'
      by (rewrite !length_app, length_to_be_bytes; lia). done.
Qed.

Lemma frame_tags_layout y fuel i bodies :
  layout_ok y → Forall (λ b, Z.of_nat (length b) = 160 * ly_f y) bodies → (length bodies < fuel)%nat →
  i + Z.of_nat (length bodies) = layout_count y →
  let rest := sealed_from sk_fmt (ly_aad y) (ly_f y) (ly_nonce y) i bodies
    ++ sentinel sk_fmt (ly_aad y) (ly_f y) (ly_nonce y) (layout_count y) (ly_total y) in
  frame_tags fuel rest = hmac_digest sk_fmt <$> (body_inputs y i bodies ++ [last_input y]) ∧
  ∀ aad, frame_covered sk_fmt aad (ly_f y) (ly_nonce y) fuel i rest
    = let y' := Layout aad (ly_f y) (ly_nonce y) (ly_bodies y) (ly_total y) in
      body_inputs y' i bodies ++ [last_input y'].
Proof using Type.
  intros (Hf & _ & _ & _ & Htotal & _). unfold STREAM_AE_V8_MAX_FRAME in Hf. revert fuel i.
  induction bodies as [|b bodies IH]; intros [|fuel] i Hb Hfuel Hcount; cbn [length] in Hfuel; try lia; cbv zeta.
  - cbn [length] in Hcount. replace i with (layout_count y) by lia.
    cbn [frame_tags frame_covered sealed_from app body_inputs fmap list_fmap]. unfold sentinel.
    rewrite take_app_length', from_to_be_bytes by (rewrite ?length_to_be_bytes; done || lia). cbn [Z.eqb].
    split; [|intros aad]; do 2 f_equal.
    + rewrite app_assoc, drop_app_length' by (by rewrite length_app, !length_to_be_bytes).
      apply take_ge. unfold sentinel_auth. by rewrite length_hmac_digest.
    + rewrite drop_app_length', take_app_length' by (by rewrite length_to_be_bytes).
      by rewrite sentinel_total_mask.
  - apply Forall_cons in Hb as [Hl Hb]. cbn [sealed_from length] in *. unfold sealed. rewrite <-!app_assoc, <-Hl.
    destruct (IH fuel (i + 1) Hb ltac:(lia) ltac:(lia)) as [IHt IHc].
    rewrite frame_tags_frame; [|lia|apply length_hmac_digest]. split; [by rewrite IHt|intros aad].
    rewrite frame_covered_frame; [|lia|apply length_hmac_digest]. by rewrite IHc.
Qed.

Lemma stream_layout y : layout_ok y →
  stream_tags (layout_stream y) = hmac_digest sk_fmt <$> layout_inputs y ∧
  stream_covered sk_fmt (ly_aad y) (layout_stream y) = layout_inputs y.
Proof using Type.
  intros Hy. pose proof Hy as (Hf & Hn & Hb & _).
  assert (∀ i bodies, (length bodies ≤ length (sealed_from sk_fmt (ly_aad y) (ly_f y) (ly_nonce y) i bodies))%nat) as Hlen.
  { intros i bodies. revert i. induction bodies as [|b bodies IH]; intros i; cbn [length sealed_from]; [lia|].
    unfold sealed. rewrite !length_app, length_to_be_bytes. specialize (IH (i + 1)). lia. }
  specialize (Hlen 0 (ly_bodies y)).
  destruct (frame_tags_layout y (length (layout_stream y)) 0 (ly_bodies y) Hy Hb) as [Ht Hc]; [|done|].
  { unfold layout_stream. rewrite !length_app, stream_v8_header_length by done. lia. }
  assert (∀ r : list byte, drop 21 (stream_v8_header (ly_f y) (ly_nonce y) ++ r) = r) as Hdrop
    by (intros r; by rewrite drop_app_length' by (by rewrite stream_v8_header_length)).
  unfold stream_tags, stream_covered, layout_inputs. split; [|specialize (Hc (ly_aad y))].
  - rewrite <-Ht. unfold layout_stream at 2. by rewrite Hdrop.
  - assert (from_be_bytes (take 4 (drop 1 (layout_stream y))) = ly_f y) as ->.
    { unfold layout_stream, stream_v8_header. cbn [app]. rewrite skipn_cons, drop_0, <-!app_assoc.
      rewrite take_app_length' by (by rewrite length_to_be_bytes). apply from_to_be_bytes.
      unfold STREAM_AE_V8_MAX_FRAME in Hf. lia. }
    assert (take NONCE_SIZE (drop 5 (layout_stream y)) = ly_nonce y) as ->.
    { unfold layout_stream, stream_v8_header. cbn [app]. rewrite skipn_cons, <-!app_assoc.
      rewrite drop_app_length' by (by rewrite length_to_be_bytes). by apply take_app_length'. }
    replace (drop 21 (layout_stream y)) with (sealed_from sk_fmt (ly_aad y) (ly_f y) (ly_nonce y) 0 (ly_bodies y)
      ++ sentinel sk_fmt (ly_aad y) (ly_f y) (ly_nonce y) (layout_count y) (ly_total y))
      by (unfold layout_stream at 1; by rewrite Hdrop).
    rewrite Hc. by destruct y.
Qed.

(** ** Tags bind what they cover *)

(** What follows the domain byte of a chunk tag and of a sentinel tag. *)
Lemma covered_inj f f' n n' i i' aad aad' r r' :
  fits 32 f → fits 32 f' → length n = NONCE_SIZE → length n' = NONCE_SIZE → fits 32 i → fits 32 i' →
  fits 64 (Z.of_nat (length aad)) → fits 64 (Z.of_nat (length aad')) →
  stream_v8_header f n ++ to_be_bytes 4 i ++ to_be_bytes 8 (Z.of_nat (length aad)) ++ aad ++ r
  = stream_v8_header f' n' ++ to_be_bytes 4 i' ++ to_be_bytes 8 (Z.of_nat (length aad')) ++ aad' ++ r' →
  f = f' ∧ n = n' ∧ i = i' ∧ aad = aad' ∧ r = r'.
Proof using Type.
  intros Hf Hf' Hn Hn' Hi Hi' Ha Ha' (-> & -> & Heq)%stream_v8_header_inj; try done.
  apply app_inj_1 in Heq as [Hx Heq]; [|by rewrite !length_to_be_bytes]. apply to_be_bytes_inj in Hx as ->; [|done..].
  apply app_inj_1 in Heq as [Hx Heq]; [|by rewrite !length_to_be_bytes]. apply to_be_bytes_inj in Hx; [|done..].
  by apply app_inj_1 in Heq as [-> ->]; [|lia].
Qed.

Lemma layout_fits y : layout_ok y → fits 32 (ly_f y) ∧ fits 32 (layout_count y).
Proof using Type. intros (Hf & _ & _ & Hc & _). unfold STREAM_AE_V8_MAX_FRAME, fits, layout_count in *. lia. Qed.

Lemma body_input_same y y' i i' b b' :
  layout_ok y → layout_ok y' → fits 32 i → fits 32 i' → body_input y i b = body_input y' i' b' →
  ly_nonce y = ly_nonce y' ∧ i = i' ∧ b = b'.
Proof using Type.
  intros Hy Hy' Hi Hi' Heq. destruct (layout_fits y Hy) as [Hf _], (layout_fits y' Hy') as [Hf' _].
  destruct Hy as (_ & Hn & _ & _ & _ & Ha), Hy' as (_ & Hn' & _ & _ & _ & Ha').
  apply cons_eq in Heq as [_ Heq]. by apply covered_inj in Heq as (_ & -> & -> & _ & ->).
Qed.

Lemma last_input_same y y' : layout_ok y → layout_ok y' → last_input y = last_input y' →
  ly_f y = ly_f y' ∧ ly_nonce y = ly_nonce y' ∧ layout_count y = layout_count y' ∧ ly_aad y = ly_aad y' ∧
  ly_total y = ly_total y'.
Proof using Type.
  intros Hy Hy' Heq. destruct (layout_fits y Hy) as [Hf Hc], (layout_fits y' Hy') as [Hf' Hc'].
  destruct Hy as (_ & Hn & _ & _ & Ht & Ha), Hy' as (_ & Hn' & _ & _ & Ht' & Ha').
  apply cons_eq in Heq as [_ Heq]. apply covered_inj in Heq as (-> & -> & -> & -> & Heq); try done.
  by apply to_be_bytes_inj in Heq.
Qed.

(** ** A stream whose tags cover what genuine streams' tags cover is one of them *)

Lemma body_of_input y i b ys :
  layout_ok y → Forall layout_ok ys → NoDup (ly_nonce <$> ys) → fits 32 i →
  (∃ y', y' ∈ ys ∧ body_input y i b ∈ layout_inputs y') →
  ∀ y0, y0 ∈ ys → ly_nonce y = ly_nonce y0 → ly_bodies y0 !! Z.to_nat i = Some b.
Proof using Type.
  intros Hy Hys Hnd Hi (y' & Hin & Hx) y0 Hin0 Hn0. rewrite Forall_forall in Hys.
  apply elem_of_app in Hx as [Hx|Hx]; [|by apply list_elem_of_singleton in Hx].
  apply body_inputs_elem in Hx as (k & b' & Hk & Heq).
  pose proof (Hys y' Hin) as Hy'. destruct (layout_fits y' Hy') as [_ Hc'].
  apply lookup_lt_Some in Hk as Hlt. unfold layout_count, fits in *.
  apply (body_input_same y y' i (0 + Z.of_nat k)) in Heq as (Hn & -> & ->); [|done|done|done|unfold fits; lia].
  replace (Z.to_nat (0 + Z.of_nat k)) with k by lia.
  assert (y' = y0) as <-; [|done].
  apply list_elem_of_lookup in Hin as [j Hj], Hin0 as [j0 Hj0].
  assert (j = j0) as <-; [|congruence].
  eapply NoDup_lookup; [exact Hnd|rewrite list_lookup_fmap, Hj; reflexivity|rewrite list_lookup_fmap, Hj0; cbn; congruence].
Qed.

Lemma genuine_inputs_layout y ys :
  layout_ok y → Forall layout_ok ys → NoDup (ly_nonce <$> ys) →
  (∀ x, x ∈ layout_inputs y → ∃ y', y' ∈ ys ∧ x ∈ layout_inputs y') → y ∈ ys.
Proof using Type.
  intros Hy Hys Hnd Hall. pose proof Hys as Hok. rewrite Forall_forall in Hok.
  destruct (Hall (last_input y) (last_input_elem y)) as (y0 & Hin & Hlast).
  apply elem_of_app in Hlast as [(k & b & _ & Heq)%body_inputs_elem|Hlast]; [done|].
  apply list_elem_of_singleton in Hlast.
  apply last_input_same in Hlast as (Hf & Hn & Hc & Ha & Ht); [|done|by apply Hok].
  assert (ly_bodies y = ly_bodies y0) as Hb.
  { apply list_eq_same_length with (length (ly_bodies y0)); unfold layout_count in Hc; [done|lia|].
    intros k b b0 Hlt Hk Hk0. destruct (layout_fits y Hy) as [_ Hcount]. unfold layout_count, fits in Hcount.
    assert (fits 32 (Z.of_nat k)) as Hfk by (unfold fits; lia).
    assert (∃ y', y' ∈ ys ∧ body_input y (Z.of_nat k) b ∈ layout_inputs y') as Hex.
    { apply Hall, elem_of_app. left. apply body_inputs_elem. by exists k, b. }
    pose proof (body_of_input y (Z.of_nat k) b ys Hy Hys Hnd Hfk Hex y0 Hin Hn) as Hbody.
    rewrite Nat2Z.id in Hbody. congruence. }
  destruct y, y0. cbn in *. by subst.
Qed.

(** Tags from given inputs come from these, or two of them collide. *)
Lemma tags_inputs xs (groups : list (list (list byte))) :
  (∀ tag, tag ∈ hmac_digest sk_fmt <$> xs → ∃ g, g ∈ groups ∧ tag ∈ hmac_digest sk_fmt <$> g) →
  (∀ x, x ∈ xs → ∃ g, g ∈ groups ∧ x ∈ g) ∨ ∃ g, g ∈ groups ∧ coincide sk_fmt xs g.
Proof using Type.
  assert (∀ x, (∃ g, g ∈ groups ∧ hmac_digest sk_fmt x ∈ hmac_digest sk_fmt <$> g) →
    (∃ g, g ∈ groups ∧ x ∈ g) ∨ ∃ g x', g ∈ groups ∧ x' ∈ g ∧ collides sk_fmt x x') as Hone.
  { intros x (g & Hg & Htag). apply list_elem_of_fmap in Htag as (x' & Heq & Hx').
    apply equal_digests in Heq as [->|?]; [left; by exists g|right; by exists g, x']. }
  induction xs as [|x xs IH]; intros Htags; [left; intros x Hx; by apply elem_of_nil in Hx|].
  rewrite fmap_cons in Htags.
  destruct (Hone x) as [Hx|(g & x' & Hg & Hx' & Hcol)]; [by apply Htags, list_elem_of_here| |].
  - destruct IH as [Hxs|(g & Hg & x1 & x' & Hx1 & Hx' & Hcol)]; [intros tag Ht; by apply Htags, list_elem_of_further|left|right].
    + intros z [->|Hz]%elem_of_cons; [done|by apply Hxs].
    + exists g. split; [done|]. exists x1, x'. split_and!; [by apply list_elem_of_further|done..].
  - right. exists g. split; [done|]. exists x, x'. split_and!; [by apply list_elem_of_here|done..].
Qed.
End layouts.

(** ** Sealings as layouts *)

Section sealings.
Context `{Crypto} (key : NapqesKey) (Hkey : valid_key (primes key)).
#[local] Abbreviation sk_fmt := (derive_format_subkey (sk key) FORMAT_STREAM_AE_V8).

(** The layout of a stream of the format. *)
Lemma spec_layout aad f nonce stream m :
  1 ≤ f ≤ STREAM_AE_V8_MAX_FRAME → length nonce = NONCE_SIZE → fits 64 (Z.of_nat (length aad)) →
  stream_spec (primes key) sk_fmt aad f nonce stream m →
  ∃ y, stream = layout_stream sk_fmt y ∧ layout_ok y ∧ ly_nonce y = nonce ∧ ly_aad y = aad ∧ ly_f y = f.
Proof using Type.
  intros Hf Hn Ha (bodies & chunks & total & -> & Ho & Hc & Hcan & _).
  exists (Layout aad f nonce bodies total). split; [done|]. split; [|done].
  unfold layout_ok, layout_count. cbn [ly_aad ly_f ly_nonce ly_bodies ly_total].
  assert (fits 64 total) as Ht by (eapply (canonical_fits f Hf); [|exact Hcan]; lia).
  exact (conj Hf (conj Hn (conj (opened_bodies _ _ _ _ _ _ _ Ho) (conj Hc (conj Ht Ha))))).
Qed.

Definition sealed_as (g : sealing) (y : layout) : Prop :=
  sl_stream g = layout_stream sk_fmt y ∧ layout_ok y ∧ ly_nonce y = sl_nonce g ∧ ly_aad y = sl_aad g.

Lemma genuine_cases g : genuine key g →
  (∃ y, sealed_as g y) ∧ 1 ≤ sl_frame g ≤ STREAM_AE_V8_MAX_FRAME ∧
  stream_spec (primes key) sk_fmt (sl_aad g) (sl_frame g) (sl_nonce g) (sl_stream g) (sl_plaintext g).
Proof using Hkey.
  intros (He & Hs & Hl & Hn & Ha). unfold encrypt_stream_ae_v8_with_nonce in He. rewrite validate_key_valid, bind_Ok in He by done.
  apply bind_Ok_inv in He as (u & Hv & He). cbv zeta in He.
  assert (1 ≤ sl_frame g ≤ STREAM_AE_V8_MAX_FRAME) as Hf.
  { unfold validate_stream_v8_frame in Hv. destruct (_ || _) eqn:Hb; [done|]. apply orb_false_iff in Hb as [H1 H2]. lia. }
  pose proof (encrypt_stream_inner_cases (primes key) sk_fmt (sl_aad g) (sl_frame g) (sl_nonce g) (valid_key_arith _ Hkey) Hf
    (sl_plaintext g) Hn Hs ltac:(lia)) as Hc. cbv zeta in Hc. rewrite He in Hc. destruct Hc as (Hspec & _).
  split; [|done]. destruct (spec_layout (sl_aad g) (sl_frame g) (sl_nonce g) _ _ Hf Hn Ha Hspec) as (y & Hst & Hok & Hny & Hay & _).
  exists y. exact (conj Hst (conj Hok (conj Hny Hay))).
Qed.

Lemma layouts_of sealings : Forall (genuine key) sealings → ∃ ys, Forall2 sealed_as sealings ys.
Proof using Hkey.
  induction 1 as [|g gs Hg _ [ys IH]]; [by exists []|]. destruct (genuine_cases g Hg) as ([y Hy] & _).
  exists (y :: ys). by constructor.
Qed.

(** The layouts carry the tags of the streams. *)
Lemma genuine_stream sealings aad f nonce stream m :
  Forall (genuine key) sealings → NoDup (sl_nonce <$> sealings) →
  1 ≤ f ≤ STREAM_AE_V8_MAX_FRAME → length nonce = NONCE_SIZE → fits 64 (Z.of_nat (length aad)) →
  stream_spec (primes key) sk_fmt aad f nonce stream m →
  (∀ tag, tag ∈ stream_tags stream → ∃ g, g ∈ sealings ∧ tag ∈ stream_tags (sl_stream g)) →
  (∃ g, g ∈ sealings ∧ stream = sl_stream g ∧ aad = sl_aad g) ∨
  (∃ g, g ∈ sealings ∧
     coincide sk_fmt (stream_covered sk_fmt aad stream) (stream_covered sk_fmt (sl_aad g) (sl_stream g))).
Proof using Hkey.
  intros Hgen Hnd Hf Hn Ha Hspec Htags. destruct (layouts_of _ Hgen) as [ys Hys].
  destruct (spec_layout aad f nonce stream m Hf Hn Ha Hspec) as (y & -> & Hy & _ & <- & _).
  assert (Forall layout_ok ys) as Hok.
  { apply Forall_forall. intros y' [i Hi]%list_elem_of_lookup. destruct (Forall2_lookup_r _ _ _ _ _ Hys Hi) as (g & _ & Hg). apply Hg. }
  assert (ly_nonce <$> ys = sl_nonce <$> sealings) as Hnonces
    by (clear -Hys; induction Hys as [|g y' gs ys' Hg _ IH]; [done|]; rewrite !fmap_cons, IH; f_equal; apply Hg).
  assert (Hback : ∀ y', y' ∈ ys → ∃ g, g ∈ sealings ∧ sealed_as g y').
  { intros y' [i Hi]%list_elem_of_lookup. destruct (Forall2_lookup_r _ _ _ _ _ Hys Hi) as (g & Hg & Hsa).
    exists g. split; [by eapply list_elem_of_lookup_2|done]. }
  destruct (stream_layout sk_fmt y Hy) as [Hty Hcy].
  destruct (tags_inputs sk_fmt (layout_inputs y) (layout_inputs <$> ys)) as [Hall|(xs & Hxs & Hcol)].
  - intros tag Ht. rewrite <-Hty in Ht. destruct (Htags tag Ht) as (g & Hg & Htg).
    apply list_elem_of_lookup in Hg as [i Hi]. destruct (Forall2_lookup_l _ _ _ _ _ Hys Hi) as (y' & Hy' & Hsa & Hoky & _).
    exists (layout_inputs y'). split; [by eapply list_elem_of_fmap_2, list_elem_of_lookup_2|].
    by rewrite <-(proj1 (stream_layout sk_fmt y' Hoky)), <-Hsa.
  - left. destruct (Hback y) as (g & Hg & Hsa & _ & _ & Haad); [|by exists g].
    apply genuine_inputs_layout; [done|done|by rewrite Hnonces|].
    intros x Hx. destruct (Hall x Hx) as (g & Hg & Hxg). apply list_elem_of_fmap in Hg as (y' & -> & Hy'). by exists y'.
  - right. apply list_elem_of_fmap in Hxs as (y' & -> & Hy'). destruct (Hback y' Hy') as (g & Hg & Hsa & Hoky & _ & Haad).
    exists g. split; [done|]. by rewrite Hcy, Hsa, <-Haad, (proj2 (stream_layout sk_fmt y' Hoky)).
Qed.
End sealings.

(** ** Properties *)

(** C7: ciphertext integrity of the stream: whatever was done with the streams sealed under
    a key, each under its own nonce, a byte string all of whose tags some sealing produced is
    accepted only if it is one of these streams with its own associated data, and then it
    decrypts to what was sealed; otherwise, among the inputs the tags of the byte string cover
    and the inputs the tags of one of the sealed streams cover, computed from their bytes and
    their associated data, two different ones have the same HMAC under the format subkey. *)
Theorem stream_integrity `{Crypto} `{Gate} key sealings stream aad m :
  gate_open → valid_key (primes key) → Z.of_nat (length stream) < 2 ^ 60 → fits 64 (Z.of_nat (length aad)) →
  Forall (genuine key) sealings → NoDup (sl_nonce <$> sealings) →
  let sk_fmt := derive_format_subkey (sk key) FORMAT_STREAM_AE_V8 in
  decrypt_stream_ae_v8_key stream key aad = Ok m →
  (∀ tag, tag ∈ stream_tags stream → ∃ g, g ∈ sealings ∧ tag ∈ stream_tags (sl_stream g)) →
  (∃ g, g ∈ sealings ∧ stream = sl_stream g ∧ aad = sl_aad g ∧ m = sl_plaintext g) ∨
  (∃ g, g ∈ sealings ∧
     coincide sk_fmt (stream_covered sk_fmt aad stream) (stream_covered sk_fmt (sl_aad g) (sl_stream g))).
Proof.
  intros Hg Hkey Hn Ha Hgen Hnd sk_fmt Hd Htags. unfold decrypt_stream_ae_v8_key in Hd. rewrite Hg, bind_Ok in Hd.
  pose proof (decrypt_stream_inner_spec (primes key) (derive_format_subkey (sk key) FORMAT_STREAM_AE_V8) aad stream
    (valid_key_arith _ Hkey) Hn) as [_ Hiff].
  destruct (proj1 (Hiff m) Hd) as (f & nonce & Hf & Hnl & Hspec).
  destruct (genuine_stream key Hkey sealings aad f nonce stream m Hgen Hnd Hf Hnl Ha Hspec Htags)
    as [(g & Hin & -> & ->)|?]; [left|by right].
  exists g. split_and!; [done..|]. rewrite Forall_forall in Hgen.
  destruct (genuine_cases key Hkey g (Hgen g Hin)) as (_ & Hf' & Hspec').
  assert (decrypt_stream_ae_v8_inner (sl_stream g) (primes key) (derive_format_subkey (sk key) FORMAT_STREAM_AE_V8) (sl_aad g)
    = Ok (sl_plaintext g)) as Hd'.
  { apply Hiff. exists (sl_frame g), (sl_nonce g). split_and!; [apply Hf'|apply Hf'|apply (Hgen g Hin)|exact Hspec']. }
  rewrite Hd in Hd'. by injection Hd'.
Qed.

Lemma stream_integrity_witness :
  let _ := Toy.crypto in let _ := default_build in
  let key := MkNapqesKey sample_key (replicate 32 x07) in
  ∃ stream, let g := Sealing [72; 105; 33] (replicate 16 x05) [x01] 2 stream in
    genuine key g ∧ decrypt_stream_ae_v8_key stream key [x01] = Ok [72; 105; 33] ∧
    ((∃ g', g' ∈ [g] ∧ stream = sl_stream g' ∧ [x01] = sl_aad g' ∧ [72; 105; 33] = sl_plaintext g') ∨
     (∃ g', g' ∈ [g] ∧ let sk_fmt := derive_format_subkey (sk key) FORMAT_STREAM_AE_V8 in
        coincide sk_fmt (stream_covered sk_fmt [x01] stream) (stream_covered sk_fmt (sl_aad g') (sl_stream g')))).
Proof.
  intros C G key. assert (gate_open) as Hg by reflexivity. assert (str_ok [72; 105; 33]) as Hs by (repeat constructor).
  pose proof (stream_encrypt_decrypt_cases [72; 105; 33] sample_key (replicate 32 x07) (replicate 16 x05) [x01] 2 Hg
    sample_key_valid ltac:(unfold STREAM_AE_V8_MAX_FRAME; lia) eq_refl Hs ltac:(simpl; lia)) as Hc. cbv zeta in Hc.
  destruct (encrypt_stream_ae_v8_with_nonce _ _ _ _ _ _) as [stream|e|] eqn:He;
    [|destruct Hc as [_ Hc]; cbn in Hc; exfalso; lia|destruct Hc].
  destruct Hc as (Hd & _ & c & Hcount & Hlen). exists stream. cbv zeta.
  assert (genuine key (Sealing [72; 105; 33] (replicate 16 x05) [x01] 2 stream)) as Hgen
    by exact (conj He (conj Hs (conj eq_refl (conj eq_refl (conj (Z.le_0_1) eq_refl))))).
  assert (decrypt_stream_ae_v8_key stream key [x01] = Ok [72; 105; 33]) as Hdk.
  { unfold decrypt_stream_ae_v8 in Hd. unfold decrypt_stream_ae_v8_key. rewrite Hg, bind_Ok in Hd |- *.
    by rewrite validate_key_valid, bind_Ok in Hd by apply sample_key_valid. }
  split; [exact Hgen|split; [exact Hdk|]].
  apply (stream_integrity key [Sealing [72; 105; 33] (replicate 16 x05) [x01] 2 stream] stream [x01] [72; 105; 33] Hg).
  - apply sample_key_valid.
  - unfold canonical_count in Hcount. cbn in Hcount. lia.
  - unfold fits. cbn. lia.
  - by repeat constructor.
  - cbn. apply NoDup_singleton.
  - exact Hdk.
  - intros tag Ht. eexists. split; [apply list_elem_of_singleton; reflexivity|exact Ht].
Defined.
