(* ===== verification/Modbus.v ===== *)
(** * Modbus TCP framing ([protocols/modbus.rs]) *)
From Stdlib Require Import ZArith Lia Strings.Byte.
From stdpp Require Import base tactics option numbers list.
From S2P Require Import Prelude Machine.

#[local] Open Scope Z_scope.

Definition MBAP_HEADER_SIZE : Z := 7.
Definition MODBUS_PROTOCOL_ID : Z := 0.

Record MbapHeader := MkMbap { transaction_id : Z; mbap_length : Z; unit_id : Z }.

Inductive ModbusError :=
| TooShort (have need : Z)
| BadProtocolId (pid : Z)
| LengthMismatch (declared available : Z).

(** The indices below 7 are in range after the length guard; the slice is
    checked. *)
Definition extract_pdu (buf : list byte) : outcome ModbusError (MbapHeader * list byte) :=
  let have := Z.of_nat (length buf) in
  if have <? MBAP_HEADER_SIZE then Err (TooShort have MBAP_HEADER_SIZE)
  else
    let tid := from_be_bytes (slice 0 2 buf) in
    let protocol_id := from_be_bytes (slice 2 4 buf) in
    let len := from_be_bytes (slice 4 6 buf) in
    let unit := from_be_bytes (slice 6 7 buf) in
    if negb (protocol_id =? MODBUS_PROTOCOL_ID) then Err (BadProtocolId protocol_id)
    else
      available ← checked_sub have 6;
      if available <? len then Err (LengthMismatch len available)
      else
        pdu ← index_range 6 (6 + Z.to_nat len) buf;
        Ok (MkMbap tid len unit, pdu).

(** [pdu.len() as u16] keeps the low 16 bits, which [to_be_bytes 2] does. *)
Definition reconstruct (header : MbapHeader) (pdu : list byte) : list byte :=
  to_be_bytes 2 (transaction_id header) ++ to_be_bytes 2 MODBUS_PROTOCOL_ID
    ++ to_be_bytes 2 (Z.of_nat (length pdu) mod 2 ^ 16) ++ pdu.

(** ** Lemmas *)

Lemma slice_field {A} (a b c : list A) i j :
  length a = i → j = (i + length b)%nat → slice i j (a ++ b ++ c) = b.
Proof. apply slice_app_exact. Qed.

Lemma extract_pdu_fields (tid pid len : list byte) (rest : list byte) :
  length tid = 2%nat → length pid = 2%nat → length len = 2%nat → rest ≠ [] →
  extract_pdu (tid ++ pid ++ len ++ rest)
  = if negb (from_be_bytes pid =? 0) then Err (BadProtocolId (from_be_bytes pid))
    else if Z.of_nat (length rest) <? from_be_bytes len
    then Err (LengthMismatch (from_be_bytes len) (Z.of_nat (length rest)))
    else Ok (MkMbap (from_be_bytes tid) (from_be_bytes len) (from_be_bytes (take 1 rest)),
             take (Z.to_nat (from_be_bytes len)) rest).
Proof.
  intros Ht Hp Hl Hr. set (buf := tid ++ pid ++ len ++ rest).
  assert (length buf = 6 + length rest)%nat as Hlen
    by (unfold buf; rewrite !length_app; lia).
  assert (0 < length rest)%nat by (destruct rest; simpl; [done|lia]).
  unfold extract_pdu, MBAP_HEADER_SIZE, MODBUS_PROTOCOL_ID.
  rewrite (proj2 (Z.ltb_ge _ _)) by lia.
  assert (slice 0 2 buf = tid) as -> by (apply (slice_field [] tid); simpl; lia).
  assert (slice 2 4 buf = pid) as -> by (apply (slice_field tid pid); lia).
  assert (slice 4 6 buf = len) as ->
    by (unfold buf; rewrite (app_assoc tid); apply (slice_field (tid ++ pid) len); rewrite ?length_app; lia).
  assert (drop 6 buf = rest) as Hd.
  { unfold buf. rewrite !app_assoc. apply drop_app_length'. rewrite !length_app. lia. }
  unfold slice. rewrite Hd. change (7 - 6)%nat with 1%nat.
  case_if; [done|]. bind_ok (apply checked_sub_Ok; lia).
  replace (Z.of_nat (length buf) - 6) with (Z.of_nat (length rest)) by lia.
  case_if; [done|]. pose proof (from_be_bytes_range len) as Hr0. rewrite Hl in Hr0.
  bind_ok (apply index_range_Ok; lia). unfold slice. rewrite Hd. by rewrite Nat.add_comm, Nat.add_sub.
Qed.

(** A buffer long enough to be parsed is four fields. *)
Lemma modbus_layout (buf : list byte) :
  7 ≤ Z.of_nat (length buf) →
  ∃ tid pid len rest, buf = tid ++ pid ++ len ++ rest ∧ length tid = 2%nat ∧
    length pid = 2%nat ∧ length len = 2%nat ∧ rest ≠ [].
Proof.
  intros Hb. exists (take 2 buf), (take 2 (drop 2 buf)), (take 2 (drop 4 buf)), (drop 6 buf).
  split_and!; rewrite ?length_take, ?length_drop; try lia.
  - replace (drop 6 buf) with (drop 2 (drop 4 buf)) by (by rewrite drop_drop).
    rewrite take_drop. replace (drop 4 buf) with (drop 2 (drop 2 buf)) by (by rewrite drop_drop).
    by rewrite !take_drop.
  - intros Hn. apply (f_equal length) in Hn. rewrite length_drop in Hn. simpl in Hn. lia.
Qed.

Lemma extract_pdu_total buf : no_panic (extract_pdu buf).
Proof.
  destruct (decide (7 ≤ Z.of_nat (length buf))) as [Hb|Hb].
  - destruct (modbus_layout buf Hb) as (tid & pid & len & rest & -> & Ht & Hp & Hl & Hr).
    rewrite extract_pdu_fields by done. by repeat case_if.
  - unfold extract_pdu, MBAP_HEADER_SIZE. by rewrite (proj2 (Z.ltb_lt _ _)) by lia.
Qed.

(** ** Properties *)

(** Modbus framing is faithful in both directions and total: parsing never
    indexes out of range on any buffer; a PDU of 1 to 65535 bytes framed by
    [reconstruct] parses back to itself with the header's transaction id; and
    reconstructing from a parsed frame gives back exactly the bytes the length
    field declares. *)
Theorem modbus_extract_reconstruct :
  (∀ buf, no_panic (extract_pdu buf)) ∧
  (∀ hdr pdu, fits 16 (transaction_id hdr) → 1 ≤ Z.of_nat (length pdu) < 2 ^ 16 →
     ∃ hdr', extract_pdu (reconstruct hdr pdu) = Ok (hdr', pdu) ∧
       transaction_id hdr' = transaction_id hdr ∧
       mbap_length hdr' = Z.of_nat (length pdu) ∧
       unit_id hdr' = from_be_bytes (take 1 pdu)) ∧
  (∀ buf hdr pdu, extract_pdu buf = Ok (hdr, pdu) →
     reconstruct hdr pdu = take (6 + Z.to_nat (mbap_length hdr)) buf ∧
     Z.of_nat (length pdu) = mbap_length hdr).
Proof.
  split_and!.
  - apply extract_pdu_total.
  - intros hdr pdu Ht Hn. unfold reconstruct.
    rewrite extract_pdu_fields; [|apply length_to_be_bytes..|intros ->; simpl in Hn; lia].
    rewrite (Z.mod_small (Z.of_nat (length pdu))) by lia.
    rewrite !from_to_be_bytes by (unfold fits, MODBUS_PROTOCOL_ID in *; simpl; lia).
    simpl. rewrite Z.ltb_irrefl. rewrite Nat2Z.id, firstn_all. eauto.
  - intros buf hdr pdu Hx. assert (7 ≤ Z.of_nat (length buf)) as Hb.
    { unfold extract_pdu, MBAP_HEADER_SIZE in Hx. case_if_in Hx; [done|lia]. }
    destruct (modbus_layout buf Hb) as (tid & pid & len & rest & -> & Ht & Hp & Hl & Hr).
    rewrite extract_pdu_fields in Hx by done. repeat case_if_in Hx; try done. simplify_eq.
    pose proof (from_be_bytes_range len) as Hr0. rewrite Hl in Hr0. cbn [mbap_length].
    assert (length (take (Z.to_nat (from_be_bytes len)) rest) = Z.to_nat (from_be_bytes len)) as Hlen
      by (rewrite length_take; lia).
    split; [|lia]. unfold reconstruct. rewrite Hlen, Z2Nat.id by lia.
    cbn [transaction_id]. rewrite Z.mod_small by exact Hr0.
    rewrite !to_from_be_bytes' by done.
    assert (to_be_bytes 2 MODBUS_PROTOCOL_ID = pid) as ->.
    { rewrite <-(to_from_be_bytes' 2 pid) by done. f_equal. symmetry. done. }
    rewrite !app_assoc. rewrite take_app_add'; [done|].
    rewrite !length_app. lia.
Qed.
