(* ===== verification/Dnp3.v ===== *)
(** * DNP3 data-link framing ([protocols/dnp3.rs]) *)
From Stdlib Require Import ZArith Lia Strings.Byte.
From stdpp Require Import base tactics option numbers list.
From S2P Require Import Prelude Machine.

#[local] Open Scope Z_scope.

Definition DNP3_START_BYTES : list byte := [x05; x64].
Definition DLL_HEADER_SIZE : nat := 10.

(** ** CRC-16/DNP *)

Definition poly : Z := 0xA6BC.

(** One round of the inner loop of [precompute_crc_table]. *)
Definition crc_bit (crc : Z) : Z :=
  if negb (Z.land crc 1 =? 0) then Z.lxor (Z.shiftr crc 1) poly else Z.shiftr crc 1.

Definition precompute_crc_table : list Z := (λ i, Nat.iter 8 crc_bit i) <$> seqZ 0 256.
Definition CRC_TABLE : list Z := precompute_crc_table.

(** The index is masked to 8 bits, so the lookup is always in range. *)
Definition crc_update (crc : Z) (b : byte) : Z :=
  let idx := Z.land (Z.lxor crc (byte_to_Z b)) 0xFF in
  Z.lxor (Z.shiftr crc 8) (default 0 (CRC_TABLE !! Z.to_nat idx)).

Definition crc16_dnp (data : list byte) : Z := Z.lxor (foldl crc_update 0 data) 0xFFFF.

(** ** Frames *)

Record DnpHeader := MkDnp {
  dnp_length : Z; control : Z; destination : Z; source : Z; crc_header : Z
}.

Inductive DnpError :=
| DnpTooShort (have need : Z)
| BadStartBytes (b : list byte)
| HeaderCrcMismatch (expected got : Z)
| InsufficientPayload (declared available : Z).

Definition total_frame_len (length_field : Z) : Z := length_field + 5.

Definition extract_payload (buf : list byte) : outcome DnpError (DnpHeader * list byte) :=
  let have := Z.of_nat (length buf) in
  if have <? Z.of_nat DLL_HEADER_SIZE then Err (DnpTooShort have (Z.of_nat DLL_HEADER_SIZE))
  else if negb (bool_decide (slice 0 2 buf = DNP3_START_BYTES)) then Err (BadStartBytes (slice 0 2 buf))
  else
    let len := from_be_bytes (slice 2 3 buf) in
    let ctrl := from_be_bytes (slice 3 4 buf) in
    let dest := from_le_bytes (slice 4 6 buf) in
    let src := from_le_bytes (slice 6 8 buf) in
    let crc := from_le_bytes (slice 8 10 buf) in
    let expected_crc := crc16_dnp (slice 2 8 buf) in
    if negb (expected_crc =? crc) then Err (HeaderCrcMismatch expected_crc crc)
    else
      let frame_len := total_frame_len len in
      if have <? frame_len then Err (InsufficientPayload frame_len have)
      else
        payload ← index_range DLL_HEADER_SIZE (Z.to_nat frame_len) buf;
        Ok (MkDnp len ctrl dest src crc, payload).

(** [(payload.len() + 5) as u8]. *)
Definition reconstruct (header : DnpHeader) (payload : list byte) : list byte :=
  let len := (Z.of_nat (length payload) + 5) mod 2 ^ 8 in
  let header_body := to_be_bytes 1 len ++ to_be_bytes 1 (control header)
    ++ to_le_bytes 2 (destination header) ++ to_le_bytes 2 (source header) in
  let crc := crc16_dnp header_body in
  DNP3_START_BYTES ++ header_body ++ to_le_bytes 2 crc ++ payload.

(** ** The table computes the bitwise polynomial division *)

Definition crc_update_bitwise (crc : Z) (b : byte) : Z :=
  Nat.iter 8 crc_bit (Z.lxor crc (byte_to_Z b)).

Lemma crc_bit_alt z : crc_bit z = Z.lxor (Z.shiftr z 1) (if Z.testbit z 0 then poly else 0).
Proof.
  unfold crc_bit. assert (negb (Z.land z 1 =? 0) = Z.testbit z 0) as ->.
  { change 1 with (Z.ones 1). rewrite Z.land_ones by lia.
    change (2 ^ 1) with 2. pose proof (Z.mod_pos_bound z 2 ltac:(lia)).
    rewrite Z.bit0_odd, Zmod_odd. by destruct (Z.odd z). }
  destruct (Z.testbit z 0); [done|by rewrite Z.lxor_0_r].
Qed.

Lemma crc_bit_lxor a b : crc_bit (Z.lxor a b) = Z.lxor (crc_bit a) (crc_bit b).
Proof.
  rewrite !crc_bit_alt, Z.shiftr_lxor, Z.lxor_spec.
  apply Z.bits_inj'. intros i Hi.
  destruct (Z.testbit a 0), (Z.testbit b 0); cbn [xorb];
    rewrite !Z.lxor_spec, ?Z.bits_0; btauto.Btauto.btauto.
Qed.

Lemma crc_iter_lxor n a b :
  Nat.iter n crc_bit (Z.lxor a b) = Z.lxor (Nat.iter n crc_bit a) (Nat.iter n crc_bit b).
Proof. induction n as [|n IH]; [done|]. simpl. by rewrite IH, crc_bit_lxor. Qed.

Lemma crc_iter_shiftl n h : Nat.iter n crc_bit (Z.shiftl h (Z.of_nat n)) = h.
Proof.
  revert h. induction n as [|n IH]; intros h; [apply Z.shiftl_0_r|].
  rewrite Nat.iter_succ_r, crc_bit_alt.
  rewrite Z.shiftl_spec_low by lia. rewrite Z.lxor_0_r, Z.shiftr_shiftl_l by lia.
  replace (Z.of_nat (S n) - 1) with (Z.of_nat n) by lia. apply IH.
Qed.

Lemma crc_split x : x = Z.lxor (Z.land x 0xFF) (Z.shiftl (Z.shiftr x 8) 8).
Proof.
  apply Z.bits_inj'. intros i Hi. rewrite Z.lxor_spec, Z.land_spec.
  change 0xFF with (Z.ones 8). destruct (decide (i < 8)).
  - rewrite Z.ones_spec_low, Z.shiftl_spec_low by lia. by rewrite andb_true_r, xorb_false_r.
  - rewrite Z.ones_spec_high, Z.shiftl_spec_high by lia.
    rewrite Z.shiftr_spec by lia. rewrite andb_false_r. simpl. f_equal. lia.
Qed.

Lemma crc_update_eq crc b : 0 ≤ crc → crc_update crc b = crc_update_bitwise crc b.
Proof.
  intros Hc. unfold crc_update, crc_update_bitwise. set (x := Z.lxor crc (byte_to_Z b)).
  pose proof (byte_to_Z_range b) as Hb.
  assert (0 ≤ Z.land x 0xFF < 256) as Hx.
  { change 0xFF with (Z.ones 8). rewrite Z.land_ones by lia. apply Z.mod_pos_bound. lia. }
  assert (CRC_TABLE !! Z.to_nat (Z.land x 0xFF) = Some (Nat.iter 8 crc_bit (Z.land x 0xFF))) as ->.
  { unfold CRC_TABLE, precompute_crc_table. rewrite list_lookup_fmap.
    rewrite lookup_seqZ_lt by lia. cbn [fmap option_fmap option_map]. do 2 f_equal. lia. }
  cbn [default from_option]. rewrite (crc_split x) at 2. rewrite crc_iter_lxor.
  rewrite (crc_iter_shiftl 8). unfold id. rewrite Z.lxor_comm. f_equal.
  unfold x. rewrite Z.shiftr_lxor. rewrite (Z.shiftr_div_pow2 (byte_to_Z b)) by lia.
  rewrite (Z.div_small (byte_to_Z b)) by (simpl; lia). by rewrite Z.lxor_0_r.
Qed.

(** ** 16-bit range and injectivity *)

Lemma crc_bit_fits z : fits 16 z → fits 16 (crc_bit z).
Proof.
  intros [H0 H1]. rewrite crc_bit_alt. apply lxor_bound; [lia| |].
  - rewrite Z.shiftr_div_pow2 by lia. change (2 ^ 1) with 2.
    split; [apply Z.div_pos; lia|apply Z.div_lt_upper_bound; lia].
  - destruct (Z.testbit z 0); [unfold poly; simpl; lia|simpl; lia].
Qed.

Lemma crc_bit_zero z : fits 16 z → crc_bit z = 0 → z = 0.
Proof.
  intros [H0 H1]. rewrite crc_bit_alt. intros Hz%Z.lxor_eq.
  rewrite Z.shiftr_div_pow2 in Hz by lia. change (2 ^ 1) with 2 in Hz.
  assert (z / 2 < 2 ^ 15) by (apply Z.div_lt_upper_bound; lia).
  destruct (Z.testbit z 0) eqn:Ht; [unfold poly in Hz; lia|].
  rewrite Z.bit0_odd in Ht. pose proof (Zmod_odd z) as Hm. rewrite Ht in Hm.
  pose proof (Z.div_mod z 2 ltac:(lia)). lia.
Qed.

Lemma crc_iter_fits n z : fits 16 z → fits 16 (Nat.iter n crc_bit z).
Proof. intros Hz. induction n as [|n IH]; [done|]. simpl. by apply crc_bit_fits. Qed.

Lemma crc_iter_inj n a b :
  fits 16 a → fits 16 b → Nat.iter n crc_bit a = Nat.iter n crc_bit b → a = b.
Proof.
  intros Ha Hb Heq. apply Z.lxor_eq.
  assert (fits 16 (Z.lxor a b)) as Hf by (apply lxor_bound; [lia|done|done]).
  assert (Nat.iter n crc_bit (Z.lxor a b) = 0) as Hz
    by (rewrite crc_iter_lxor, Heq; apply Z.lxor_nilpotent).
  revert Hz. generalize (Z.lxor a b) Hf. clear. intros z Hf.
  induction n as [|n IH]; [done|]. simpl. intros Hz%crc_bit_zero; [by apply IH|].
  by apply crc_iter_fits.
Qed.

Lemma byte_fits16 b : fits 16 (byte_to_Z b).
Proof. pose proof (byte_to_Z_range b). unfold fits. lia. Qed.

Lemma crc_update_fits crc b : fits 16 crc → fits 16 (crc_update crc b).
Proof.
  intros Hc. rewrite crc_update_eq by apply Hc. apply crc_iter_fits.
  apply lxor_bound; [lia|done|apply byte_fits16].
Qed.

Lemma crc_fold_fits data crc : fits 16 crc → fits 16 (foldl crc_update crc data).
Proof. revert crc. induction data; intros crc Hc; simpl; [done|]. eauto using crc_update_fits. Qed.

Lemma crc_update_inj c1 c2 b1 b2 :
  fits 16 c1 → fits 16 c2 → crc_update c1 b1 = crc_update c2 b2 →
  Z.lxor c1 (byte_to_Z b1) = Z.lxor c2 (byte_to_Z b2).
Proof.
  intros H1 H2. rewrite !crc_update_eq by (apply H1 || apply H2). apply crc_iter_inj;
    (apply lxor_bound; [lia|done|apply byte_fits16]).
Qed.

Lemma lxor_cancel_r a b c : Z.lxor a c = Z.lxor b c → a = b.
Proof.
  intros Heq. apply (f_equal (λ z, Z.lxor z c)) in Heq.
  by rewrite !Z.lxor_assoc, Z.lxor_nilpotent, !Z.lxor_0_r in Heq.
Qed.

Lemma crc_fold_inj data c1 c2 :
  fits 16 c1 → fits 16 c2 → foldl crc_update c1 data = foldl crc_update c2 data → c1 = c2.
Proof.
  revert c1 c2. induction data as [|b data IH]; intros c1 c2 H1 H2; simpl; [done|].
  intros Heq%IH; [|by apply crc_update_fits..].
  apply crc_update_inj in Heq; [|done..]. by apply lxor_cancel_r in Heq.
Qed.

Lemma crc16_fits data : fits 16 (crc16_dnp data).
Proof.
  apply lxor_bound; [lia|apply crc_fold_fits; unfold fits; lia|simpl; lia].
Qed.

Lemma crc16_one_byte p s x y :
  crc16_dnp (p ++ x :: s) = crc16_dnp (p ++ y :: s) → x = y.
Proof.
  unfold crc16_dnp. intros Heq%lxor_cancel_r. rewrite !foldl_app in Heq. simpl in Heq.
  assert (fits 16 (foldl crc_update 0 p)) as Hp by (apply crc_fold_fits; unfold fits; lia).
  apply crc_fold_inj in Heq; [|by apply crc_update_fits..].
  apply crc_update_inj in Heq; [|done..]. rewrite !(Z.lxor_comm (foldl crc_update 0 p)) in Heq.
  apply lxor_cancel_r in Heq. by apply byte_to_Z_inj.
Qed.

(** C19: the table-driven CRC equals bit-by-bit division by the DNP
    polynomial, stays within 16 bits, and detects every corruption confined to
    one byte, wherever it is. *)
Theorem crc16_dnp_correct :
  (∀ data, crc16_dnp data = Z.lxor (foldl crc_update_bitwise 0 data) 0xFFFF) ∧
  (∀ data, fits 16 (crc16_dnp data)) ∧
  (∀ p s x y, x ≠ y → crc16_dnp (p ++ x :: s) ≠ crc16_dnp (p ++ y :: s)).
Proof.
  split_and!.
  - intros data. unfold crc16_dnp. f_equal.
    assert (∀ crc, fits 16 crc → foldl crc_update crc data = foldl crc_update_bitwise crc data) as Hf.
    { induction data as [|b data IH]; intros crc Hc; [done|]. simpl.
      rewrite crc_update_eq by apply Hc. apply IH. rewrite <-crc_update_eq by apply Hc.
      by apply crc_update_fits. }
    apply Hf. unfold fits. lia.
  - apply crc16_fits.
  - intros p s x y Hne Heq. by apply Hne, (crc16_one_byte p s).
Qed.

(** ** Parsing and rebuilding frames *)

Lemma extract_payload_fields s0 s1 l c d0 d1 a0 a1 k0 k1 rest :
  extract_payload (s0 :: s1 :: l :: c :: d0 :: d1 :: a0 :: a1 :: k0 :: k1 :: rest)
  = let crc := from_le_bytes [k0; k1] in
    let expected := crc16_dnp [l; c; d0; d1; a0; a1] in
    let frame_len := byte_to_Z l + 5 in
    let have := 10 + Z.of_nat (length rest) in
    if negb (bool_decide ([s0; s1] = DNP3_START_BYTES)) then Err (BadStartBytes [s0; s1])
    else if negb (expected =? crc) then Err (HeaderCrcMismatch expected crc)
    else if have <? frame_len then Err (InsufficientPayload frame_len have)
    else if frame_len <? 10 then Panic PanicBounds
    else Ok (MkDnp (byte_to_Z l) (byte_to_Z c) (from_le_bytes [d0; d1]) (from_le_bytes [a0; a1]) crc,
             take (Z.to_nat (frame_len - 10)) rest).
Proof.
  set (buf := s0 :: _). unfold extract_payload, DLL_HEADER_SIZE, total_frame_len.
  assert (Z.of_nat (length buf) = 10 + Z.of_nat (length rest)) as -> by (unfold buf; simpl length; lia).
  rewrite (proj2 (Z.ltb_ge _ _)) by lia.
  assert (slice 0 2 buf = [s0; s1] ∧ slice 2 3 buf = [l] ∧ slice 3 4 buf = [c] ∧
    slice 4 6 buf = [d0; d1] ∧ slice 6 8 buf = [a0; a1] ∧ slice 8 10 buf = [k0; k1] ∧
    slice 2 8 buf = [l; c; d0; d1; a0; a1]) as (-> & -> & -> & -> & -> & -> & ->) by done.
  cbv zeta. change (from_be_bytes [l]) with (byte_to_Z l). change (from_be_bytes [c]) with (byte_to_Z c).
  case_if; [done|]. case_if; [done|]. case_if; [done|]. unfold index_range.
  pose proof (byte_to_Z_range l). destruct (Z.ltb_spec (byte_to_Z l + 5) 10).
  - rewrite bool_decide_eq_false_2 by lia. done.
  - rewrite bool_decide_eq_true_2 by (unfold buf; simpl length; lia). rewrite bind_Ok.
    do 2 f_equal. unfold slice. change (drop 10 buf) with rest. f_equal. lia.
Qed.

(** The header fields [reconstruct] writes. *)
Definition rebuilt_header (hdr : DnpHeader) (payload : list byte) : DnpHeader :=
  let l := byte_of_Z ((Z.of_nat (length payload) + 5) mod 2 ^ 8) in
  let d := to_le_bytes 2 (destination hdr) in
  let a := to_le_bytes 2 (source hdr) in
  MkDnp (Z.of_nat (length payload) + 5) (control hdr) (destination hdr) (source hdr)
    (crc16_dnp (l :: byte_of_Z (control hdr) :: d ++ a)).

Lemma extract_reconstruct hdr payload :
  Z.of_nat (length payload) ≤ 250 → fits 8 (control hdr) →
  fits 16 (destination hdr) → fits 16 (source hdr) →
  extract_payload (reconstruct hdr payload) = Ok (rebuilt_header hdr payload, payload).
Proof.
  intros Hp Hc Hd Hs. unfold reconstruct, rebuilt_header.
  set (l := (Z.of_nat (length payload) + 5) mod 2 ^ 8).
  assert (l = Z.of_nat (length payload) + 5) as Hl by (apply Z.mod_small; lia).
  set (crc := crc16_dnp (to_be_bytes 1 l ++ _)).
  change (to_be_bytes 1 l) with [byte_of_Z l]. change (to_be_bytes 1 (control hdr)) with [byte_of_Z (control hdr)].
  change (to_le_bytes 2 (destination hdr))
    with [byte_of_Z (destination hdr); byte_of_Z (destination hdr / 256)].
  change (to_le_bytes 2 (source hdr)) with [byte_of_Z (source hdr); byte_of_Z (source hdr / 256)].
  change (to_le_bytes 2 crc) with [byte_of_Z crc; byte_of_Z (crc / 256)].
  cbn [app DNP3_START_BYTES]. unfold DNP3_START_BYTES. cbn [app].
  rewrite extract_payload_fields. cbv zeta.
  assert (Hle : ∀ z, fits 16 z → from_le_bytes [byte_of_Z z; byte_of_Z (z / 256)] = z)
    by (intros z Hz; apply (from_to_le_bytes 2 z Hz)).
  rewrite (Hle crc) by apply crc16_fits. rewrite !Hle by done.
  rewrite !byte_to_of_Z_small by (unfold fits in *; lia).
  rewrite bool_decide_eq_true_2 by done. cbn [negb].
  assert (crc = crc16_dnp [byte_of_Z l; byte_of_Z (control hdr); byte_of_Z (destination hdr);
    byte_of_Z (destination hdr / 256); byte_of_Z (source hdr); byte_of_Z (source hdr / 256)]) as Hcrc by done.
  rewrite <-Hcrc, Z.eqb_refl. cbn [negb].
  rewrite (proj2 (Z.ltb_ge _ _)) by lia. rewrite (proj2 (Z.ltb_ge _ _)) by lia.
  rewrite Hl. do 2 f_equal. rewrite firstn_all2 by lia. done.
Qed.

Lemma reconstruct_extract buf hdr payload :
  extract_payload buf = Ok (hdr, payload) →
  reconstruct hdr payload = take (Z.to_nat (total_frame_len (dnp_length hdr))) buf ∧
  Z.of_nat (length payload) + 5 = dnp_length hdr.
Proof.
  intros Hx. do 10 (destruct buf as [|? buf]; [discriminate|]).
  rewrite extract_payload_fields in Hx. cbv zeta in Hx.
  destruct (bool_decide _) eqn:Hst; [|done]. apply bool_decide_eq_true in Hst.
  cbn [negb] in Hx. unfold DNP3_START_BYTES in Hst. injection Hst as -> ->.
  case_if_in Hx; [discriminate|]. case_if_in Hx; [discriminate|].
  case_if_in Hx; [discriminate|]. injection Hx as <- <-. cbn [dnp_length].
  pose proof (byte_to_Z_range b1) as Hb. unfold total_frame_len.
  assert (Z.of_nat (length (take (Z.to_nat (byte_to_Z b1 + 5 - 10)) buf)) = byte_to_Z b1 - 5) as Hlen
    by (rewrite length_take; lia).
  rewrite Hlen. split; [|lia]. unfold reconstruct. cbn [control destination source]. rewrite Hlen.
  replace (byte_to_Z b1 - 5 + 5) with (byte_to_Z b1) by lia.
  rewrite (Z.mod_small (byte_to_Z b1)) by (simpl; lia).
  rewrite !(to_from_le_bytes 2) by done.
  change (to_be_bytes 1 (byte_to_Z b1)) with [byte_of_Z (byte_to_Z b1)].
  change (to_be_bytes 1 (byte_to_Z b2)) with [byte_of_Z (byte_to_Z b2)].
  rewrite !byte_of_to_Z. unfold DNP3_START_BYTES. cbn [app].
  match goal with H : crc16_dnp _ = _ |- _ => rewrite H end.
  rewrite (to_from_le_bytes 2) by done. cbn [app].
  replace (Z.to_nat (byte_to_Z b1 + 5)) with (10 + Z.to_nat (byte_to_Z b1 + 5 - 10))%nat by lia.
  done.
Qed.

(** C39: DNP3 framing round-trips: a payload of at most 250 bytes rebuilt under
    any header parses back to the same payload, control, addresses and the
    recomputed length and CRC; and rebuilding a frame that parsed gives back
    exactly the bytes its length field covers. *)
Theorem dnp3_extract_reconstruct :
  (∀ hdr payload, Z.of_nat (length payload) ≤ 250 → fits 8 (control hdr) →
     fits 16 (destination hdr) → fits 16 (source hdr) →
     extract_payload (reconstruct hdr payload) = Ok (rebuilt_header hdr payload, payload)) ∧
  (∀ buf hdr payload, extract_payload buf = Ok (hdr, payload) →
     reconstruct hdr payload = take (Z.to_nat (total_frame_len (dnp_length hdr))) buf ∧
     Z.of_nat (length payload) + 5 = dnp_length hdr).
Proof. split; [exact extract_reconstruct|exact reconstruct_extract]. Qed.

(** Parsing a DNP3 frame panics on exactly one class of inputs, which a
    peer can send: a buffer of at least 10 bytes with the start bytes and a valid
    header CRC whose length field is below 5, so that the payload slice
    [buf[10..length + 5]] is reversed. Every other buffer returns or is refused. *)
Theorem extract_payload_panics buf :
  (¬ no_panic (extract_payload buf)) ↔
  (10 ≤ length buf)%nat ∧ slice 0 2 buf = DNP3_START_BYTES ∧
  crc16_dnp (slice 2 8 buf) = from_le_bytes (slice 8 10 buf) ∧
  from_be_bytes (slice 2 3 buf) < 5.
Proof.
  destruct (decide (10 ≤ length buf)%nat) as [Hl|Hl].
  - do 10 (destruct buf as [|? buf]; [simpl in Hl; lia|]).
    rewrite extract_payload_fields. cbv zeta. unfold slice. cbn [take drop Nat.sub].
    change (from_be_bytes [b1]) with (byte_to_Z b1).
    destruct (bool_decide _) eqn:Hst; cbn [negb].
    2: { apply bool_decide_eq_false in Hst. simpl. tauto. }
    apply bool_decide_eq_true in Hst. destruct (Z.eqb_spec (crc16_dnp [b1; b2; b3; b4; b5; b6]) (from_le_bytes [b7; b8]));
      cbn [negb]; [|simpl; tauto].
    destruct (Z.ltb_spec (10 + Z.of_nat (length buf)) (byte_to_Z b1 + 5)).
    + simpl. split; [tauto|]. intros (_ & _ & _ & ?). lia.
    + destruct (Z.ltb_spec (byte_to_Z b1 + 5) 10); simpl.
      * split; [|tauto]. intros _. split_and!; [lia|done|done|lia].
      * split; [tauto|]. intros (_ & _ & _ & ?). lia.
  - assert (extract_payload buf = Err (DnpTooShort (Z.of_nat (length buf)) 10)) as ->.
    { unfold extract_payload, DLL_HEADER_SIZE. by rewrite (proj2 (Z.ltb_lt _ _)) by lia. }
    simpl. split; [tauto|]. intros [? _]. lia.
Qed.

(** A ten-byte frame that triggers it. *)
Example extract_payload_panic_example :
  extract_payload [x05; x64; x00; xc4; x01; x00; x0a; x00; xb0; x94] = Panic PanicBounds.
Proof. vm_compute. reflexivity. Qed.

(** The CRC the code checks covers bytes 2 to 7 of the header. A header whose CRC
    was computed over bytes 0 to 7, start bytes included, such as the link-status
    request below, is refused. *)
Example extract_payload_start_bytes_crc :
  crc16_dnp [x05; x64; x05; xc0; x01; x00; x00; x04] = from_le_bytes [xe9; x21] ∧
  is_ok (extract_payload [x05; x64; x05; xc0; x01; x00; x00; x04; xe9; x21]) = false.
Proof. vm_compute. done. Qed.
