(* ===== verification/OtFrame.v ===== *)
(** * The OT framing layer ([ot_frame.rs])

    Envelopes around sealed PDUs, sequence numbers and anti-replay, and the key
    stores behind the [KeyStore] trait. *)
From Stdlib Require Import ZArith Lia Strings.Byte Sorting.Sorted.
From stdpp Require Import base tactics option numbers countable gmap list.
From S2P Require Import Prelude Machine Errors Crates Post Primes Keys Derive Padding Tokens BlockV8.

#[local] Open Scope Z_scope.
#[local] Open Scope napqes_scope.

(** ** Protocols and associated data *)

Inductive ProtocolId := ModbusTcp | Dnp3.

#[export] Instance ProtocolId_eq_dec : EqDecision ProtocolId.
Proof. solve_decision. Defined.

(** [self as u8]. *)
Definition protocol_u8 (p : ProtocolId) : byte :=
  match p with ModbusTcp => x01 | Dnp3 => x02 end.

Definition from_u8 (v : byte) : option ProtocolId :=
  match v with x01 => Some ModbusTcp | x02 => Some Dnp3 | _ => None end.

#[export] Program Instance ProtocolId_countable : Countable ProtocolId :=
  inj_countable' (λ p, match p with ModbusTcp => true | Dnp3 => false end)
    (λ b : bool, if b then ModbusTcp else Dnp3) _.
Next Obligation. by intros []. Qed.

Record OtAad := MkOtAad { protocol : ProtocolId; device_id : Z; seq : Z }.

Definition to_bytes (aad : OtAad) : list byte :=
  protocol_u8 (protocol aad) :: to_be_bytes 8 (device_id aad) ++ to_be_bytes 8 (seq aad).

Definition ENVELOPE_MAGIC : list byte := [x4e; x51].
Definition ENVELOPE_HEADER_SIZE : nat := 23.

(** ** Errors *)

Inductive envelope_defect :=
| BufferTooShort (have need : Z)
| BadMagic (b : list byte)
| UnknownProtocol (v : byte)
| TruncatedBlob (have want : Z).

Inductive FrameError :=
| FrameAuthenticationFailed (device_id : Z) (protocol : ProtocolId) (seq : Z)
| ReplayDetected (device_id : Z) (protocol : ProtocolId) (seq last_seen : Z)
| MalformedEnvelope (d : envelope_defect)
| CryptoError (e : error).

(** ** Sequence counters *)

Abbreviation DeviceKey := (ProtocolId * Z)%type.

Record SequenceCounter := MkCounter {
  send_state : gmap DeviceKey Z;
  recv_state : gmap DeviceKey Z
}.

Definition SequenceCounter_new : SequenceCounter := MkCounter ∅ ∅.

(** [entry(key).or_insert(0)]. *)
Definition or_insert (key : DeviceKey) (m : gmap DeviceKey Z) : gmap DeviceKey Z * Z :=
  match m !! key with Some v => (m, v) | None => (<[key := 0]> m, 0) end.

Definition next_seq (p : ProtocolId) (d : Z) (s : SequenceCounter)
    : outcome FrameError (Z * SequenceCounter) :=
  let '(m, v) := or_insert (p, d) (send_state s) in
  v' ← v +64 1;
  Ok (v', MkCounter (<[(p, d) := v']> m) (recv_state s)).

(** Both the answer and the new state: a refused number still creates the
    entry of its device. *)
Definition validate_recv (p : ProtocolId) (d sq : Z) (s : SequenceCounter)
    : outcome FrameError unit * SequenceCounter :=
  let '(m, last) := or_insert (p, d) (recv_state s) in
  if sq <=? last then (Err (ReplayDetected d p sq last), MkCounter (send_state s) m)
  else (Ok tt, MkCounter (send_state s) (<[(p, d) := sq]> m)).

(** ** Key stores *)

Inductive key_store_error :=
| SkHexLength | SkHexInvalid | DeviceIdInvalid | KeyRejected (d : Z) (e : error)
| NoKey (d : Z) | NoSessionKey (d : Z).

(** The [KeyStore] trait. *)
Class KeyStore (store : Type) := load : store → Z → outcome key_store_error NapqesKey.

(** One hexadecimal digit, and [u8::from_str_radix(pair, 16)] on two ASCII
    characters; the standard library accepts a leading [+]. *)
Definition hex_digit (c : Z) : option Z :=
  if (48 <=? c) && (c <=? 57) then Some (c - 48)
  else if (65 <=? c) && (c <=? 70) then Some (c - 55)
  else if (97 <=? c) && (c <=? 102) then Some (c - 87)
  else None.

Definition u8_from_hex_pair (a b : Z) : option Z :=
  if a =? 43 then hex_digit b
  else hi ← hex_digit a; lo ← hex_digit b; Some (hi * 16 + lo).

Fixpoint parse_hex_pairs (hex : list Z) : outcome key_store_error (list byte) :=
  match hex with
  | a :: b :: hex' =>
      v ← opt_or (u8_from_hex_pair a b) SkHexInvalid;
      rest ← parse_hex_pairs hex';
      Ok (byte_of_Z v :: rest)
  | _ => Ok []
  end.

(** [hex.len()] counts bytes; after the ASCII test bytes and characters agree,
    so the two-byte slices are the pairs of characters. *)
Definition parse_sk_hex (hex : list Z) : outcome key_store_error (list byte) :=
  if negb (bool_decide (length (as_bytes hex) = 2 * SK_SIZE)%nat)
     || negb (forallb (λ c, c <? 128) hex)
  then Err SkHexLength
  else parse_hex_pairs hex.

(** [str::parse::<u64>]: decimal digits after an optional [+], refused when
    empty or above [u64::MAX]. *)
Definition parse_u64_step (acc : option Z) (c : Z) : option Z :=
  v ← acc;
  if (48 <=? c) && (c <=? 57)
  then let v' := v * 10 + (c - 48) in if v' <? 2 ^ 64 then Some v' else None
  else None.

Definition parse_u64 (s : list Z) : option Z :=
  let digits := match s with 43 :: s' => s' | _ => s end in
  if bool_decide (digits = []) then None else foldl parse_u64_step (Some 0) digits.

(** An entry of the JSON file after [serde_json]: device id, primes, [sk_hex]. *)
Record FileKeyEntry := MkEntry { entry_id : list Z; entry_primes : list Z; entry_sk_hex : list Z }.

Definition load_entry (data : gmap Z NapqesKey) (v : FileKeyEntry)
    : outcome key_store_error (gmap Z NapqesKey) :=
  id ← opt_or (parse_u64 (entry_id v)) DeviceIdInvalid;
  sk ← parse_sk_hex (entry_sk_hex v);
  key ← map_err (KeyRejected id) (NapqesKey_new (entry_primes v) sk);
  Ok (<[id := key]> data).

(** The loop of [FileKeyStore::load_from_file]; the map's iteration order is the
    order of the list. *)
Fixpoint load_entries (data : gmap Z NapqesKey) (raw : list FileKeyEntry)
    : outcome key_store_error (gmap Z NapqesKey) :=
  match raw with
  | [] => Ok data
  | v :: raw' => data' ← load_entry data v; load_entries data' raw'
  end.

Record FileKeyStore := MkFileStore { data : gmap Z NapqesKey }.

Definition load_from_entries (raw : list FileKeyEntry) : outcome key_store_error FileKeyStore :=
  d ← load_entries ∅ raw; Ok (MkFileStore d).

#[export] Instance FileKeyStore_load : KeyStore FileKeyStore := λ s d,
  opt_or (data s !! d) (NoKey d).

Record SessionKeyStore := MkSessionStore { inner : gmap Z NapqesKey }.

Definition WILDCARD_DEVICE_ID : Z := 2 ^ 64 - 1.
Definition SessionKeyStore_new : SessionKeyStore := MkSessionStore ∅.
Definition session_insert (d : Z) (key : NapqesKey) (s : SessionKeyStore) : SessionKeyStore :=
  MkSessionStore (<[d := key]> (inner s)).
Definition is_ready (s : SessionKeyStore) : bool := negb (bool_decide (inner s = ∅)).

#[export] Instance SessionKeyStore_load : KeyStore SessionKeyStore := λ s d,
  match inner s !! d with
  | Some k => Ok k
  | None => opt_or (inner s !! WILDCARD_DEVICE_ID) (NoSessionKey d)
  end.

(** ** Sealing and opening PDUs *)

Section frames.
Context `{Crypto} `{Gate}.

Definition wrap_pdu (pdu : list byte) (aad : OtAad) (key : NapqesKey)
    : outcome FrameError (list byte) :=
  let latin1 := byte_to_Z <$> pdu in
  napqes_blob ← map_err CryptoError (encrypt_bytes_v8_key latin1 key (to_bytes aad));
  Ok (ENVELOPE_MAGIC ++ [protocol_u8 (protocol aad)] ++ to_be_bytes 8 (device_id aad)
      ++ to_be_bytes 8 (seq aad)
      ++ to_be_bytes 4 (Z.of_nat (length napqes_blob) mod 2 ^ 32) ++ napqes_blob).

Definition parse_envelope_header (buf : list byte)
    : outcome FrameError (ProtocolId * Z * Z * nat * nat) :=
  let have := Z.of_nat (length buf) in
  let hs := Z.of_nat ENVELOPE_HEADER_SIZE in
  if have <? hs then Err (MalformedEnvelope (BufferTooShort have hs))
  else if negb (bool_decide (slice 0 2 buf = ENVELOPE_MAGIC))
  then Err (MalformedEnvelope (BadMagic (slice 0 2 buf)))
  else
    v ← expect PanicBounds (buf !! 2%nat);
    proto ← opt_or (from_u8 v) (MalformedEnvelope (UnknownProtocol v));
    let dev := from_be_bytes (slice 3 11 buf) in
    let sq := from_be_bytes (slice 11 19 buf) in
    let blob_len := from_be_bytes (slice 19 23 buf) in
    want ← hs +64 blob_len;
    if have <? want
    then rest ← have -! hs; Err (MalformedEnvelope (TruncatedBlob rest blob_len))
    else Ok (proto, dev, sq, ENVELOPE_HEADER_SIZE, Z.to_nat blob_len).

(** Opening threads the counters: only an authenticated number reaches
    [validate_recv]. *)
Definition open_envelope (buf : list byte) (key : NapqesKey)
    : outcome FrameError (ProtocolId * Z * Z * list byte) :=
  hdr ← parse_envelope_header buf;
  let '(proto, dev, sq, blob_start, blob_len) := hdr in
  napqes_blob ← index_range blob_start (blob_start + blob_len) buf;
  let auth_failed := FrameAuthenticationFailed dev proto sq in
  latin1 ← map_err (λ _, auth_failed)
             (decrypt_bytes_v8_key napqes_blob key (to_bytes (MkOtAad proto dev sq)));
  pdu ← collect (λ c, if c <=? 0xFF then Ok (byte_of_Z c) else Err auth_failed) latin1;
  Ok (proto, dev, sq, pdu).

Definition unwrap_pdu (buf : list byte) (key : NapqesKey) (counters : SequenceCounter)
    : outcome FrameError (list byte) * SequenceCounter :=
  match open_envelope buf key with
  | Ok (proto, dev, sq, pdu) =>
      let '(r, counters') := validate_recv proto dev sq counters in
      (_ ← r; Ok pdu, counters')
  | Err e => (Err e, counters)
  | Panic p => (Panic p, counters)
  end.
End frames.

(** ** Envelope layout *)

Lemma from_u8_protocol p : from_u8 (protocol_u8 p) = Some p.
Proof. by destruct p. Qed.

Lemma from_u8_Some v p : from_u8 v = Some p → v = protocol_u8 p.
Proof. unfold from_u8. destruct v; intros [= <-]; done. Qed.

Lemma to_bytes_inj a b :
  fits 64 (device_id a) → fits 64 (seq a) → fits 64 (device_id b) → fits 64 (seq b) →
  to_bytes a = to_bytes b → a = b.
Proof.
  destruct a as [p d s], b as [p' d' s']. unfold to_bytes. cbn [protocol device_id seq].
  intros Hd Hs Hd' Hs' Hall. pose proof (f_equal (hd x00) Hall) as Hp.
  pose proof (f_equal (@tail byte) Hall) as Heq. cbn [hd tail] in Hp, Heq.
  apply app_inj_1 in Heq as [Heq1 Heq2]; [|by rewrite !length_to_be_bytes].
  apply to_be_bytes_inj in Heq1; [|done..]. apply to_be_bytes_inj in Heq2; [|done..].
  subst. f_equal. by destruct p, p'.
Qed.

Section layout.
Context (v : byte) (dv sv lv rest : list byte).
Context (Hd : length dv = 8%nat) (Hs : length sv = 8%nat) (Hl : length lv = 4%nat).

Definition envelope : list byte := ENVELOPE_MAGIC ++ [v] ++ dv ++ sv ++ lv ++ rest.

Lemma envelope_slices :
  length envelope = (23 + length rest)%nat ∧
  slice 0 2 envelope = ENVELOPE_MAGIC ∧ envelope !! 2%nat = Some v ∧
  slice 3 11 envelope = dv ∧ slice 11 19 envelope = sv ∧ slice 19 23 envelope = lv ∧
  drop 23 envelope = rest.
Proof using Hd Hs Hl.
  unfold envelope. split_and!.
  - rewrite !length_app. simpl. lia.
  - done.
  - done.
  - apply (slice_app_exact (ENVELOPE_MAGIC ++ [v])); simpl; lia.
  - replace (ENVELOPE_MAGIC ++ [v] ++ dv ++ sv ++ lv ++ rest)
      with ((ENVELOPE_MAGIC ++ [v] ++ dv) ++ sv ++ lv ++ rest) by (by rewrite <-!app_assoc).
    apply slice_app_exact; rewrite ?length_app; simpl; lia.
  - replace (ENVELOPE_MAGIC ++ [v] ++ dv ++ sv ++ lv ++ rest)
      with ((ENVELOPE_MAGIC ++ [v] ++ dv ++ sv) ++ lv ++ rest) by (by rewrite <-!app_assoc).
    apply slice_app_exact; rewrite ?length_app; simpl; lia.
  - rewrite !app_assoc. apply drop_app_length'. rewrite !length_app. simpl. lia.
Qed.

Lemma parse_envelope :
  parse_envelope_header envelope
  = match from_u8 v with
    | None => Err (MalformedEnvelope (UnknownProtocol v))
    | Some p =>
        if Z.of_nat (length rest) <? from_be_bytes lv
        then Err (MalformedEnvelope (TruncatedBlob (Z.of_nat (length rest)) (from_be_bytes lv)))
        else Ok (p, from_be_bytes dv, from_be_bytes sv, 23%nat, Z.to_nat (from_be_bytes lv))
    end.
Proof using Hd Hs Hl.
  destruct envelope_slices as (Hlen & H0 & H2 & H3 & H11 & H19 & _).
  unfold parse_envelope_header, ENVELOPE_HEADER_SIZE. rewrite Hlen, H0, H2, H3, H11, H19.
  rewrite (proj2 (Z.ltb_ge _ _)) by lia. rewrite bool_decide_eq_true_2 by done. cbn [negb expect].
  rewrite bind_Ok. destruct (from_u8 v) as [p|]; [|done]. cbn [opt_or]. rewrite bind_Ok.
  pose proof (from_be_bytes_range lv) as Hr. rewrite Hl in Hr.
  bind_ok (apply checked_add_Ok; lia).
  destruct (Z.ltb_spec (Z.of_nat (23 + length rest)) (Z.of_nat 23 + from_be_bytes lv));
    destruct (Z.ltb_spec (Z.of_nat (length rest)) (from_be_bytes lv)); try lia; [|done].
  bind_ok (apply checked_sub_Ok; lia). do 3 f_equal. lia.
Qed.
End layout.

(** A buffer that passes the magic test is an envelope. *)
Lemma envelope_layout buf :
  (23 ≤ length buf)%nat → slice 0 2 buf = ENVELOPE_MAGIC →
  ∃ v dv sv lv rest, buf = envelope v dv sv lv rest ∧
    length dv = 8%nat ∧ length sv = 8%nat ∧ length lv = 4%nat.
Proof.
  intros Hl Hm. do 3 (destruct buf as [|? buf]; [simpl in Hl; lia|]).
  unfold slice in Hm. simpl in Hm. injection Hm as -> ->. simpl in Hl.
  exists b1, (take 8 buf), (take 8 (drop 8 buf)), (take 4 (drop 16 buf)), (drop 20 buf).
  split_and!; rewrite ?length_take, ?length_drop; try lia.
  unfold envelope, ENVELOPE_MAGIC. simpl app. do 3 f_equal.
  replace (drop 20 buf) with (drop 4 (drop 16 buf)) by (by rewrite drop_drop).
  rewrite take_drop. replace (drop 16 buf) with (drop 8 (drop 8 buf)) by (by rewrite drop_drop).
  by rewrite !take_drop.
Qed.

Section frame_lemmas.
Context `{Crypto} `{Gate}.

Lemma latin1_ok pdu : str_ok (byte_to_Z <$> pdu).
Proof using Type.
  apply Forall_fmap, Forall_forall. intros b _. simpl. apply is_scalar_byte.
  pose proof (byte_to_Z_range b). lia.
Qed.

Lemma collect_latin1 (e : FrameError) pdu :
  collect (λ c, if c <=? 0xFF then Ok (byte_of_Z c) else Err e) (byte_to_Z <$> pdu) = Ok pdu.
Proof using Type.
  induction pdu as [|b pdu IH]; [done|]. rewrite fmap_cons. cbn [collect].
  pose proof (byte_to_Z_range b). rewrite (proj2 (Z.leb_le _ _)) by lia.
  rewrite bind_Ok, IH, bind_Ok. by rewrite byte_of_to_Z.
Qed.

(** Opening a well-formed envelope opens its blob. *)
Lemma open_envelope_eq p dv sv lv blob tail key :
  length dv = 8%nat → length sv = 8%nat → length lv = 4%nat →
  from_be_bytes lv = Z.of_nat (length blob) →
  open_envelope (envelope (protocol_u8 p) dv sv lv (blob ++ tail)) key
  = let d := from_be_bytes dv in
    let s := from_be_bytes sv in
    latin1 ← map_err (λ _, FrameAuthenticationFailed d p s)
               (decrypt_bytes_v8_key blob key (to_bytes (MkOtAad p d s)));
    pdu ← collect (λ c, if c <=? 0xFF then Ok (byte_of_Z c)
                        else Err (FrameAuthenticationFailed d p s)) latin1;
    Ok (p, d, s, pdu).
Proof using Type.
  intros Hd Hs Hl Hb. unfold open_envelope.
  rewrite parse_envelope, from_u8_protocol by done.
  rewrite (proj2 (Z.ltb_ge _ _)) by (rewrite length_app; lia). rewrite bind_Ok. cbv zeta iota beta.
  rewrite Hb, Nat2Z.id.
  destruct (envelope_slices (protocol_u8 p) dv sv lv (blob ++ tail) Hd Hs Hl)
    as (Hlen & _ & _ & _ & _ & _ & Hdrop).
  bind_ok (apply index_range_Ok; [lia|rewrite Hlen, length_app; lia]).
  unfold slice. rewrite Hdrop. replace (23 + length blob - 23)%nat with (length blob) by lia.
  by rewrite take_app_length.
Qed.

Lemma wrap_pdu_cases key pdu aad :
  gate_open → valid_key (primes key) →
  match wrap_pdu pdu aad key with
  | Ok env => ∃ blob, decrypt_bytes_v8_key blob key (to_bytes aad) = Ok (byte_to_Z <$> pdu) ∧
      Z.of_nat (length blob) < 2 ^ 32 ∧
      env = envelope (protocol_u8 (protocol aad)) (to_be_bytes 8 (device_id aad))
              (to_be_bytes 8 (seq aad)) (to_be_bytes 4 (Z.of_nat (length blob))) blob
  | Err e => 2 ^ 16 ≤ Z.of_nat (length pdu) ∧ ∃ e', e = CryptoError e'
  | Panic _ => False
  end.
Proof using Type.
  intros Hg Hkey. unfold wrap_pdu, encrypt_bytes_v8_key, decrypt_bytes_v8_key. rewrite Hg, bind_Ok.
  pose proof (encrypt_core_cases (primes key) (valid_key_arith _ Hkey) (sk key) (byte_to_Z <$> pdu)
    (to_bytes aad) Bucket (latin1_ok pdu) I) as Hc.
  cbn zeta in Hc. rewrite length_fmap in Hc.
  destruct (encrypt_bytes_v8_core _ _ _ _ _) as [blob|e|]; [| |done].
  - destruct Hc as (B & HB & Hlen & Hdec). cbn [map_err]. rewrite bind_Ok.
    destruct (block_size_bound Bucket (Z.of_nat (length pdu)) B ltac:(lia) I HB) as ([_ HB16] & _).
    exists blob. rewrite bind_Ok. split_and!; [done|lia|].
    rewrite Z.mod_small by lia. done.
  - cbn [map_err mbind outcome_bind]. split; [|eauto]. destruct Hc as [[_ Hc]|Hc].
    + unfold MAX_PLAINTEXT_CODEPOINTS in Hc. lia.
    + destruct (decide (Z.of_nat (length pdu) < 2 ^ 16)); [|lia].
      pose proof (block_size_cases Bucket (Z.of_nat (length pdu)) ltac:(unfold fits; lia) I) as Hb.
      rewrite Hc in Hb. destruct Hb as [?|[?|(f & ? & _)]]; [lia|done|done].
Qed.

(** A PDU of [2 ^ 16] bytes or more is never wrapped. *)
Lemma wrap_pdu_long key pdu aad :
  gate_open → 2 ^ 16 ≤ Z.of_nat (length pdu) →
  wrap_pdu pdu aad key = Err (CryptoError (MessageTooLong (Z.of_nat (length pdu)))).
Proof using Type.
  intros Hg Hn. unfold wrap_pdu, encrypt_bytes_v8_key. rewrite Hg, bind_Ok.
  by rewrite encrypt_core_long, length_fmap by (rewrite ?length_fmap; done).
Qed.

(** What an opened envelope's header says is what its blob's tag covers. *)
Lemma open_envelope_authentic key v dv sv lv blob p d sq pdu :
  valid_key (primes key) → Z.of_nat (length blob) ≤ 2 ^ 32 →
  length dv = 8%nat → length sv = 8%nat → length lv = 4%nat → from_be_bytes lv = Z.of_nat (length blob) →
  open_envelope (envelope v dv sv lv blob) key = Ok (p, d, sq, pdu) →
  (v = protocol_u8 p ∧ d = from_be_bytes dv ∧ sq = from_be_bytes sv ∧ fits 64 d ∧ fits 64 sq) ∧
  ∃ payload tag m, blob = payload ++ tag ∧ length tag = TAG_SIZE ∧
    decrypt_bytes_v8_core (payload ++ tag) (primes key) (sk key) (to_bytes (MkOtAad p d sq)) = Ok m.
Proof using Type.
  intros Hkey Hbl Hd Hs Hl Hb Hop. destruct (from_u8 v) as [p'|] eqn:Hp.
  2: { unfold open_envelope in Hop. by rewrite parse_envelope, Hp in Hop. }
  apply from_u8_Some in Hp as ->.
  rewrite <-(app_nil_r blob) in Hop at 1. rewrite open_envelope_eq in Hop by done. cbv zeta in Hop.
  apply bind_Ok_inv in Hop as (l & Hdec & Hop). apply bind_Ok_inv in Hop as (pdu' & _ & Hop).
  injection Hop as <- <- <- <-. unfold decrypt_bytes_v8_key in Hdec.
  destruct gated_cases as [Hg|Hg]; rewrite Hg in Hdec; [|done]. rewrite bind_Ok in Hdec.
  destruct (decrypt_bytes_v8_core _ _ _ _) as [m|e|] eqn:Hm; [|done|done].
  assert (Hf : ∀ l : list byte, length l = 8%nat → fits 64 (from_be_bytes l)).
  { intros l8 Hl8. pose proof (from_be_bytes_range l8) as Hr. by rewrite Hl8 in Hr. }
  split; [split_and!; by try apply Hf|].
  assert (48 ≤ length blob)%nat as H48.
  { unfold decrypt_bytes_v8_core, NONCE_SIZE, TAG_SIZE in Hm. case_if_in Hm; [done|lia]. }
  destruct (block_layout blob H48) as (n & b & t & -> & _ & Ht & _). by exists (n ++ b), t, m.
Qed.

Lemma collect_latin1_inv (e : FrameError) l pdu :
  (∀ c, c ∈ l → 0 ≤ c) →
  collect (λ c, if c <=? 0xFF then Ok (byte_of_Z c) else Err e) l = Ok pdu →
  l = byte_to_Z <$> pdu.
Proof using Type.
  revert pdu. induction l as [|c l IH]; intros pdu Hpos; simpl.
  - by intros [= <-].
  - intros (b & Hb & (pdu' & Hl & [= <-])%bind_Ok_inv)%bind_Ok_inv.
    destruct (Z.leb_spec c 255); [|done]. simplify_eq. rewrite fmap_cons.
    rewrite byte_to_of_Z_small by (pose proof (Hpos c ltac:(left)); lia).
    f_equal. apply IH; [|done]. intros c' Hc'. apply Hpos. by right.
Qed.

Lemma collect_latin1_cases (e : FrameError) l :
  (∃ pdu, collect (λ c, if c <=? 0xFF then Ok (byte_of_Z c) else Err e) l = Ok pdu) ∨
  collect (λ c, if c <=? 0xFF then Ok (byte_of_Z c) else Err e) l = Err e.
Proof using Type.
  induction l as [|c l IH]; [left; by eexists|]. simpl.
  destruct (c <=? 255); [|by right]. rewrite bind_Ok.
  destruct IH as [[pdu ->]| ->]; [left; by eexists|by right].
Qed.

(** Opening any buffer under a valid key. *)
Lemma open_envelope_cases buf key :
  valid_key (primes key) → Z.of_nat (length buf) ≤ 2 ^ 36 →
  match open_envelope buf key with
  | Ok (p, d, s, pdu) => ∃ dv sv lv blob tail,
      buf = envelope (protocol_u8 p) dv sv lv (blob ++ tail) ∧
      length dv = 8%nat ∧ length sv = 8%nat ∧ length lv = 4%nat ∧
      from_be_bytes lv = Z.of_nat (length blob) ∧ d = from_be_bytes dv ∧ s = from_be_bytes sv ∧
      decrypt_bytes_v8_key blob key (to_bytes (MkOtAad p d s)) = Ok (byte_to_Z <$> pdu)
  | Err (MalformedEnvelope _) | Err (FrameAuthenticationFailed _ _ _) => True
  | _ => False
  end.
Proof using Type.
  intros Hkey Hlen. destruct (decide (23 ≤ length buf)%nat) as [Hl|Hl].
  2: { unfold open_envelope, parse_envelope_header, ENVELOPE_HEADER_SIZE.
       by rewrite (proj2 (Z.ltb_lt _ _)) by lia. }
  destruct (decide (slice 0 2 buf = ENVELOPE_MAGIC)) as [Hm|Hm].
  2: { unfold open_envelope, parse_envelope_header, ENVELOPE_HEADER_SIZE.
       rewrite (proj2 (Z.ltb_ge _ _)) by lia. by rewrite bool_decide_eq_false_2. }
  destruct (envelope_layout buf Hl Hm) as (v & dv & sv & lv & rest & -> & Hd & Hs & Hlv).
  destruct (from_u8 v) as [p|] eqn:Hp.
  2: { unfold open_envelope. by rewrite parse_envelope, Hp. }
  apply from_u8_Some in Hp as ->.
  destruct (Z.ltb_spec (Z.of_nat (length rest)) (from_be_bytes lv)) as [Hlt|Hge].
  { unfold open_envelope. rewrite parse_envelope, from_u8_protocol by done.
    by rewrite (proj2 (Z.ltb_lt _ _)) by done. }
  pose proof (from_be_bytes_range lv) as Hr.
  set (blob := take (Z.to_nat (from_be_bytes lv)) rest).
  set (tail := drop (Z.to_nat (from_be_bytes lv)) rest).
  assert (rest = blob ++ tail) as Hrest by (unfold blob, tail; by rewrite take_drop).
  assert (from_be_bytes lv = Z.of_nat (length blob)) as Hb
    by (unfold blob; rewrite length_take; lia).
  destruct (envelope_slices (protocol_u8 p) dv sv lv rest Hd Hs Hlv) as (Hel & _).
  rewrite Hrest, open_envelope_eq by done. cbv zeta.
  set (d := from_be_bytes dv). set (sq := from_be_bytes sv).
  unfold decrypt_bytes_v8_key.
  destruct gated_cases as [Hg|Hg]; rewrite Hg; [rewrite bind_Ok|done].
  assert (Z.of_nat (length blob) ≤ 2 ^ 36) as Hbl.
  { rewrite Hel, Hrest, length_app in Hlen. lia. }
  pose proof (decrypt_core_layout (primes key) (valid_key_arith _ Hkey) (sk key)
    (to_bytes (MkOtAad p d sq)) blob Hbl) as Hdec. cbn zeta in Hdec.
  destruct (decrypt_bytes_v8_core _ _ _ _) as [l|e|] eqn:Heq; [|done|done].
  cbn [map_err]. rewrite bind_Ok.
  destruct (collect_latin1_cases (FrameAuthenticationFailed d p sq) l) as [[pdu Hc]|Hc];
    rewrite Hc; [|done]. rewrite bind_Ok.
  exists dv, sv, lv, blob, tail. split_and!; try done. rewrite bind_Ok, Heq. f_equal.
  apply (collect_latin1_inv (FrameAuthenticationFailed d p sq)); [|done].
  destruct Hdec as [[_ ?]|[(_ & _ & ?)|(_ & _ & n & m & t & _ & _ & _ & Hx)]]; [done|done|].
  case_bool_decide; [|done]. destruct Hx as (tokens & _ & _ & _ & Hx).
  destruct (Hx l eq_refl) as [Hok _]. intros c Hc'. unfold str_ok in Hok.
  rewrite Forall_forall in Hok. by apply is_scalar_range, Hok.
Qed.

(** ** Counters *)

Definition last_seen (s : SequenceCounter) (k : DeviceKey) : Z := default 0 (recv_state s !! k).

Lemma validate_recv_cases p d sq s :
  match validate_recv p d sq s with
  | (Ok _, s') => last_seen s (p, d) < sq ∧ last_seen s' (p, d) = sq ∧
      (∀ k, k ≠ (p, d) → last_seen s' k = last_seen s k) ∧ send_state s' = send_state s
  | (Err e, s') => e = ReplayDetected d p sq (last_seen s (p, d)) ∧ sq ≤ last_seen s (p, d) ∧
      (∀ k, last_seen s' k = last_seen s k) ∧ send_state s' = send_state s
  | (Panic _, _) => False
  end.
Proof using Type.
  unfold validate_recv, or_insert, last_seen.
  destruct (recv_state s !! (p, d)) as [last|] eqn:Hl; cbn [default from_option id];
    case_if; cbn [recv_state send_state]; split_and!; try done.
  - by rewrite lookup_insert_eq.
  - intros k Hk. by rewrite lookup_insert_ne.
  - intros k. destruct (decide (k = (p, d))) as [->|Hk].
    + by rewrite lookup_insert_eq, Hl.
    + by rewrite lookup_insert_ne.
  - by rewrite lookup_insert_eq.
  - intros k Hk. rewrite !lookup_insert_ne by done. done.
Qed.

(** What a receiver accepts from a sequence of buffers, in order. *)
Fixpoint accepted (frames : list (list byte * NapqesKey)) (s : SequenceCounter)
    : list (DeviceKey * Z) :=
  match frames with
  | [] => []
  | (buf, key) :: frames' =>
      let '(r, s') := unwrap_pdu buf key s in
      match r, open_envelope buf key with
      | Ok _, Ok (p, d, sq, _) => ((p, d), sq) :: accepted frames' s'
      | _, _ => accepted frames' s'
      end
  end.

Lemma accepted_above frames s x :
  x ∈ accepted frames s → last_seen s x.1 < x.2.
Proof using Type.
  revert s. induction frames as [|[buf key] frames IH]; intros s; cbn [accepted];
    [by intros ?%not_elem_of_nil|].
  unfold unwrap_pdu. destruct (open_envelope buf key) as [[[[p d] sq] pdu]|e|]; [|apply IH..].
  pose proof (validate_recv_cases p d sq s) as Hv.
  destruct (validate_recv p d sq s) as [[[]|e|] s']; cbn [mbind outcome_bind]; [| |done].
  - destruct Hv as (Hlt & Hnew & Hoth & _). intros [->|Hin]%elem_of_cons; [done|].
    specialize (IH s' Hin). destruct (decide (x.1 = (p, d))) as [Heq|Hne].
    + rewrite Heq in *. lia.
    + by rewrite <-Hoth.
  - destruct Hv as (_ & _ & Hoth & _). intros Hin. specialize (IH s' Hin). by rewrite <-Hoth.
Qed.

Definition seq_increasing (x y : DeviceKey * Z) : Prop := x.1 = y.1 → x.2 < y.2.

Lemma accepted_sorted frames s : StronglySorted seq_increasing (accepted frames s).
Proof using Type.
  revert s. induction frames as [|[buf key] frames IH]; intros s; cbn [accepted]; [constructor|].
  unfold unwrap_pdu. destruct (open_envelope buf key) as [[[[p d] sq] pdu]|e|]; [|apply IH..].
  pose proof (validate_recv_cases p d sq s) as Hv.
  destruct (validate_recv p d sq s) as [[[]|e|] s']; cbn [mbind outcome_bind]; [|apply IH|done].
  destruct Hv as (_ & Hnew & _). constructor; [apply IH|]. apply Forall_forall.
  intros x Hin. apply accepted_above in Hin. intros Heq. cbn [fst snd] in *.
  rewrite <-Heq in Hin. lia.
Qed.
End frame_lemmas.

(** ** Sending *)

Definition last_sent (s : SequenceCounter) (k : DeviceKey) : Z := default 0 (send_state s !! k).

Lemma next_seq_cases p d s :
  match next_seq p d s with
  | Ok (v, s') => v = last_sent s (p, d) + 1 ∧ v < 2 ^ 64 ∧ last_sent s' (p, d) = v ∧
      (∀ k, k ≠ (p, d) → last_sent s' k = last_sent s k) ∧ recv_state s' = recv_state s
  | Err _ => False
  | Panic _ => 2 ^ 64 ≤ last_sent s (p, d) + 1
  end.
Proof.
  unfold next_seq, or_insert, last_sent, checked_add.
  destruct (send_state s !! (p, d)) as [v|] eqn:Hv; cbn [default from_option id];
    case_if; cbn [mbind outcome_bind recv_state send_state]; try lia; split_and!; try done; try lia.
  - by rewrite lookup_insert_eq.
  - intros k Hk. by rewrite lookup_insert_ne.
  - by rewrite lookup_insert_eq.
  - intros k Hk. rewrite !lookup_insert_ne by done. done.
Qed.

(** The associated data of a sequence of sends, in order; a sender that would
    overflow its counter stops. *)
Fixpoint sent (reqs : list DeviceKey) (s : SequenceCounter) : list OtAad :=
  match reqs with
  | [] => []
  | (p, d) :: reqs' =>
      match next_seq p d s with
      | Ok (v, s') => MkOtAad p d v :: sent reqs' s'
      | _ => []
      end
  end.

Lemma sent_above reqs s a :
  (∀ k, 0 ≤ last_sent s k) → a ∈ sent reqs s →
  last_sent s (protocol a, device_id a) < seq a < 2 ^ 64 ∧ (protocol a, device_id a) ∈ reqs.
Proof.
  revert s. induction reqs as [|[p d] reqs IH]; intros s Hs; cbn [sent];
    [by intros ?%not_elem_of_nil|].
  pose proof (next_seq_cases p d s) as Hc. destruct (next_seq p d s) as [[v s']|e|];
    [|by intros ?%not_elem_of_nil..].
  destruct Hc as (Hv & Hlt & Hnew & Hoth & _). intros [->|Hin]%elem_of_cons.
  - cbn [protocol device_id seq]. split; [lia|left].
  - assert (∀ k, 0 ≤ last_sent s' k) as Hs'.
    { intros k. destruct (decide (k = (p, d))) as [->|Hk]; [specialize (Hs (p, d)); lia|].
      by rewrite Hoth. }
    specialize (IH s' Hs' Hin) as [[IH1 IH2] IH3]. split; [|by right].
    destruct (decide ((protocol a, device_id a) = (p, d))) as [Heq|Hne].
    + rewrite Heq in *. lia.
    + rewrite <-Hoth by done. lia.
Qed.

Lemma sent_NoDup reqs s : (∀ k, 0 ≤ last_sent s k) → NoDup (sent reqs s).
Proof.
  revert s. induction reqs as [|[p d] reqs IH]; intros s Hs; cbn [sent]; [constructor|].
  pose proof (next_seq_cases p d s) as Hc. destruct (next_seq p d s) as [[v s']|e|];
    [|constructor..].
  destruct Hc as (Hv & Hlt & Hnew & Hoth & _).
  assert (∀ k, 0 ≤ last_sent s' k) as Hs'.
  { intros k. destruct (decide (k = (p, d))) as [->|Hk]; [specialize (Hs (p, d)); lia|].
    by rewrite Hoth. }
  constructor; [|by apply IH]. intros Hin. apply sent_above in Hin as [[Hlo _] _]; [|done].
  cbn [protocol device_id seq] in Hlo. lia.
Qed.

(** ** Key stores only hold valid keys *)

Lemma load_entries_valid raw m m' :
  Forall (λ v, Forall (fits 64) (entry_primes v)) raw →
  (∀ d k, m !! d = Some k → valid_key (primes k)) →
  load_entries m raw = Ok m' → ∀ d k, m' !! d = Some k → valid_key (primes k).
Proof.
  intros Hraw. revert m. induction Hraw as [|v raw Hv _ IH]; intros m Hm; cbn [load_entries].
  { by intros [= <-]. }
  intros (m1 & Hl & Hrest)%bind_Ok_inv. apply (IH m1); [|done]. unfold load_entry in Hl.
  apply bind_Ok_inv in Hl as (id & _ & Hl). apply bind_Ok_inv in Hl as (s & _ & Hl).
  apply bind_Ok_inv in Hl as (key & Hk & [= <-]).
  intros d k Hd. destruct (decide (d = id)) as [->|Hne].
  - rewrite lookup_insert_eq in Hd. injection Hd as <-. unfold NapqesKey_new in Hk.
    pose proof (validate_key_cases (entry_primes v) Hv) as Hvk.
    destruct (validate_key (entry_primes v)) as [[]|e|]; [|done|done]. cbn in Hk.
    injection Hk as <-. exact Hvk.
  - rewrite lookup_insert_ne in Hd by done. by apply (Hm d).
Qed.

(** A lower-case hexadecimal rendering, and a leading plus sign, both parse. *)
Definition hex_char (v : Z) : Z := if v <? 10 then 48 + v else 87 + v.
Definition to_hex (bs : list byte) : list Z :=
  concat ((λ b, [hex_char (byte_to_Z b / 16); hex_char (byte_to_Z b mod 16)]) <$> bs).

Lemma hex_digit_char v : 0 ≤ v < 16 → hex_digit (hex_char v) = Some v.
Proof.
  intros Hv. unfold hex_digit, hex_char. destruct (Z.ltb_spec v 10).
  - rewrite (proj2 (Z.leb_le _ _)), (proj2 (Z.leb_le _ _)) by lia. simpl. f_equal. lia.
  - rewrite (proj2 (Z.leb_gt (87 + v) 57)) by lia. rewrite andb_false_r.
    rewrite (proj2 (Z.leb_gt (87 + v) 70)) by lia. rewrite andb_false_r.
    rewrite (proj2 (Z.leb_le _ _)), (proj2 (Z.leb_le _ _)) by lia. simpl. f_equal. lia.
Qed.

Lemma hex_char_range v : 0 ≤ v < 16 → 48 ≤ hex_char v < 128 ∧ hex_char v ≠ 43.
Proof. intros Hv. unfold hex_char. case_if; lia. Qed.

Lemma parse_hex_pairs_to_hex bs : parse_hex_pairs (to_hex bs) = Ok bs.
Proof.
  unfold to_hex. induction bs as [|b bs IH]; [done|]. rewrite fmap_cons. cbn [concat app parse_hex_pairs].
  pose proof (byte_to_Z_range b). pose proof (Z.mod_pos_bound (byte_to_Z b) 16 ltac:(lia)).
  assert (0 ≤ byte_to_Z b / 16 < 16)
    by (split; [apply Z.div_pos; lia|apply Z.div_lt_upper_bound; lia]).
  unfold u8_from_hex_pair.
  rewrite (proj2 (Z.eqb_neq _ _)) by (by apply hex_char_range).
  rewrite !hex_digit_char by done. cbn [mbind option_bind outcome_bind opt_or].
  rewrite IH. cbn [mbind outcome_bind].
  do 2 f_equal. rewrite (Z.mul_comm _ 16), <-Z.div_mod by lia. apply byte_of_to_Z.
Qed.

Lemma utf8_char_ascii c : 0 ≤ c < 128 → utf8_char c = [byte_of_Z c].
Proof. intros. unfold utf8_char. by rewrite (proj2 (Z.ltb_lt _ _)) by lia. Qed.

Lemma to_hex_ascii bs :
  Forall (λ c, 0 ≤ c < 128) (to_hex bs) ∧ length (to_hex bs) = (2 * length bs)%nat.
Proof.
  unfold to_hex. induction bs as [|b bs [IH1 IH2]]; [done|]. rewrite fmap_cons. cbn [concat app length].
  pose proof (byte_to_Z_range b). pose proof (Z.mod_pos_bound (byte_to_Z b) 16 ltac:(lia)).
  assert (0 ≤ byte_to_Z b / 16 < 16)
    by (split; [apply Z.div_pos; lia|apply Z.div_lt_upper_bound; lia]).
  split; [|lia]. repeat constructor; try (apply hex_char_range; lia); try done;
    pose proof (hex_char_range (byte_to_Z b / 16)); pose proof (hex_char_range (byte_to_Z b mod 16)); lia.
Qed.

Lemma as_bytes_ascii s : Forall (λ c, 0 ≤ c < 128) s → length (as_bytes s) = length s.
Proof.
  unfold as_bytes. induction 1 as [|c s Hc _ IH]; [done|]. rewrite fmap_cons. cbn [concat].
  rewrite length_app, utf8_char_ascii by done. simpl. by rewrite IH.
Qed.

Lemma parse_sk_hex_roundtrip bs : length bs = SK_SIZE → parse_sk_hex (to_hex bs) = Ok bs.
Proof.
  intros Hl. unfold parse_sk_hex. destruct (to_hex_ascii bs) as [Ha Hlen].
  rewrite as_bytes_ascii by done. rewrite bool_decide_eq_true_2 by lia.
  assert (forallb (λ c, c <? 128) (to_hex bs) = true) as ->; [|apply parse_hex_pairs_to_hex].
  apply forallb_forall. intros c Hin. apply list_elem_of_In in Hin.
  rewrite Forall_forall in Ha. apply Z.ltb_lt. by apply Ha.
Qed.

Example parse_sk_hex_plus :
  parse_sk_hex (concat (replicate 32 [43; 102])) = Ok (replicate 32 x0f).
Proof. vm_compute. reflexivity. Qed.

(** ** Properties *)

(** C23: sealing then opening a PDU over the envelope is the identity: with the
    gate open, under a valid key, every PDU below 65536 bytes is wrapped, and the
    envelope, whatever bytes follow it, is unwrapped to the same PDU by a receiver
    that has not yet seen a sequence number as high; the receiver then remembers
    exactly that number for exactly that device. A PDU of 65536 bytes or more is
    refused, with an error that names its length: nothing is truncated. *)
Theorem wrap_unwrap_pdu_roundtrip `{Crypto} `{Gate} key pdu aad tail s :
  gate_open → valid_key (primes key) → fits 64 (device_id aad) → fits 64 (seq aad) →
  let k := (protocol aad, device_id aad) in
  let n := Z.of_nat (length pdu) in
  match wrap_pdu pdu aad key with
  | Ok env => n < 2 ^ 16 ∧
      (last_seen s k < seq aad →
       ∃ s', unwrap_pdu (env ++ tail) key s = (Ok pdu, s') ∧
         last_seen s' k = seq aad ∧ ∀ k', k' ≠ k → last_seen s' k' = last_seen s k')
  | Err e => 2 ^ 16 ≤ n ∧ e = CryptoError (MessageTooLong n)
  | Panic _ => False
  end.
Proof.
  intros Hg Hkey Hd Hs k n. destruct (decide (2 ^ 16 ≤ n)) as [Hlong|Hshort]; [by rewrite wrap_pdu_long|].
  pose proof (wrap_pdu_cases key pdu aad Hg Hkey) as Hw.
  destruct (wrap_pdu pdu aad key) as [env|e|]; [|by destruct Hw|done].
  destruct Hw as (blob & Hdec & Hbl & ->). split; [lia|]. intros Hseq.
  assert (open_envelope (envelope (protocol_u8 (protocol aad)) (to_be_bytes 8 (device_id aad))
    (to_be_bytes 8 (seq aad)) (to_be_bytes 4 (Z.of_nat (length blob))) blob ++ tail) key
    = Ok (protocol aad, device_id aad, seq aad, pdu)) as Hopen.
  { unfold envelope. rewrite <-!app_assoc.
    pose proof (open_envelope_eq (protocol aad) (to_be_bytes 8 (device_id aad))
      (to_be_bytes 8 (seq aad)) (to_be_bytes 4 (Z.of_nat (length blob))) blob tail key) as Ho.
    unfold envelope in Ho. rewrite Ho; [|apply length_to_be_bytes..|apply from_to_be_bytes; lia].
    cbv zeta. rewrite !from_to_be_bytes by done.
    assert (MkOtAad (protocol aad) (device_id aad) (seq aad) = aad) as -> by (by destruct aad).
    rewrite Hdec. cbn [map_err]. rewrite bind_Ok, collect_latin1, bind_Ok. done. }
  unfold unwrap_pdu. rewrite Hopen.
  pose proof (validate_recv_cases (protocol aad) (device_id aad) (seq aad) s) as Hv.
  destruct (validate_recv _ _ _ _) as [[[]|e|] s']; [| |done].
  - destruct Hv as (_ & Hnew & Hoth & _). by exists s'.
  - destruct Hv as (_ & Hle & _). unfold k in Hseq. lia.
Qed.

Lemma wrap_unwrap_pdu_roundtrip_witness :
  let _ := Toy.crypto in let _ := default_build in
  let key := MkNapqesKey sample_key (replicate 32 x07) in
  let aad := MkOtAad ModbusTcp 9 1 in
  ∃ env s', wrap_pdu [x11; xff] aad key = Ok env ∧
    unwrap_pdu env key SequenceCounter_new = (Ok [x11; xff], s') ∧
    last_seen s' (ModbusTcp, 9) = 1.
Proof.
  intros C G key aad.
  assert (fits 64 (device_id aad) ∧ fits 64 (seq aad)) as [Hd Hs] by (unfold fits; simpl; lia).
  pose proof (wrap_unwrap_pdu_roundtrip key [x11; xff] aad [] SequenceCounter_new
    eq_refl sample_key_valid Hd Hs) as Hr. cbn zeta in Hr.
  destruct (wrap_pdu [x11; xff] aad key) as [env|e|] eqn:Hw.
  - destruct (proj2 Hr ltac:(vm_compute; reflexivity)) as (s' & Hu & Hl & _).
    rewrite app_nil_r in Hu. exists env, s'. split; [reflexivity|]. split; [exact Hu|exact Hl].
  - destruct Hr as [Hr _]. exfalso. simpl in Hr. lia.
  - destruct Hr.
Defined.

(** C3: anti-replay: whatever buffers and keys reach a receiver, in any order
    and from any counter state, the sequence numbers it accepts for one protocol
    and device strictly increase and exceed the last one seen, so no envelope is
    ever accepted twice. *)
Theorem unwrap_pdu_replay_safe `{Crypto} `{Gate} frames s :
  StronglySorted seq_increasing (accepted frames s) ∧
  NoDup (accepted frames s) ∧
  (∀ x, x ∈ accepted frames s → last_seen s x.1 < x.2).
Proof.
  split_and!; [apply accepted_sorted| |apply accepted_above].
  pose proof (accepted_sorted frames s) as Hs. induction Hs as [|x l _ IH Hx]; [constructor|].
  constructor; [|done]. intros Hin. rewrite Forall_forall in Hx.
  specialize (Hx x Hin eq_refl). lia.
Qed.

(** C24: opening a buffer is total and only authenticated frames move the
    replay window: on any bytes [unwrap_pdu] neither panics nor changes a last-seen
    number unless it returns the PDU; a refusal is a malformed envelope, an
    authentication failure, or a replay of an authenticated frame. *)
Theorem unwrap_pdu_total `{Crypto} `{Gate} buf key s :
  valid_key (primes key) → Z.of_nat (length buf) ≤ 2 ^ 36 →
  match unwrap_pdu buf key s with
  | (Ok pdu, s') => ∃ p d sq, open_envelope buf key = Ok (p, d, sq, pdu) ∧
      last_seen s (p, d) < sq ∧ last_seen s' (p, d) = sq
  | (Err (CryptoError _), _) => False
  | (Err (ReplayDetected d p sq last), s') => (∀ k, last_seen s' k = last_seen s k) ∧
      last = last_seen s (p, d) ∧ sq ≤ last ∧
      ∃ pdu, open_envelope buf key = Ok (p, d, sq, pdu)
  | (Err _, s') => s' = s
  | (Panic _, _) => False
  end.
Proof.
  intros Hkey Hlen. unfold unwrap_pdu.
  pose proof (open_envelope_cases buf key Hkey Hlen) as Ho.
  destruct (open_envelope buf key) as [[[[p d] sq] pdu]|e|]; [|by destruct e|done].
  pose proof (validate_recv_cases p d sq s) as Hv.
  destruct (validate_recv p d sq s) as [[[]|e|] s']; cbn [mbind outcome_bind]; [| |done].
  - destruct Hv as (Hlt & Hnew & _). by exists p, d, sq.
  - destruct Hv as (-> & Hle & Hoth & _). split_and!; try done. by exists pdu.
Qed.

Lemma unwrap_pdu_total_witness :
  let _ := Toy.crypto in let _ := default_build in
  let key := MkNapqesKey sample_key (replicate 32 x07) in
  valid_key (primes key) ∧ (unwrap_pdu [x4e; x51; x00] key SequenceCounter_new).2 = SequenceCounter_new.
Proof.
  intros C G key. split; [exact sample_key_valid|].
  pose proof (unwrap_pdu_total [x4e; x51; x00] key SequenceCounter_new
    sample_key_valid ltac:(simpl; lia)) as Ht.
  destruct (unwrap_pdu [x4e; x51; x00] key SequenceCounter_new) as [[pdu|[| | |]|] s'] eqn:Hu;
    cbn [snd]; try exact Ht; vm_compute in Hu; discriminate.
Defined.

(** C40: the plain envelope header is authenticated: when an envelope opens, the protocol,
    device and sequence number it is opened as are the ones in its header, and the tag of the
    sealed blob is the HMAC of the blob's nonce and tokens together with exactly these three
    values; and if the same blob opens under the same key inside an envelope that differs in one
    of the three, the two inputs the tag covers with the two headers are distinct and have the
    same HMAC. *)
Theorem envelope_header_authenticated `{Crypto} `{Gate} key v dv sv lv blob p d sq pdu :
  valid_key (primes key) → Z.of_nat (length blob) ≤ 2 ^ 32 →
  length dv = 8%nat → length sv = 8%nat → length lv = 4%nat → from_be_bytes lv = Z.of_nat (length blob) →
  open_envelope (envelope v dv sv lv blob) key = Ok (p, d, sq, pdu) →
  let sk_fmt := derive_format_subkey (sk key) FORMAT_BLOCK_V8 in
  let covered p d sq := block_covered blob (to_bytes (MkOtAad p d sq)) in
  v = protocol_u8 p ∧ d = from_be_bytes dv ∧ sq = from_be_bytes sv ∧
  drop (length blob - TAG_SIZE) blob = hmac_digest sk_fmt (covered p d sq) ∧
  ∀ v' dv' sv' p' d' sq' pdu', length dv' = 8%nat → length sv' = 8%nat → (v', dv', sv') ≠ (v, dv, sv) →
    open_envelope (envelope v' dv' sv' lv blob) key = Ok (p', d', sq', pdu') →
    collides sk_fmt (covered p d sq) (covered p' d' sq').
Proof.
  intros Hkey Hbl Hd Hs Hl Hb Ho sk_fmt covered. pose proof (valid_key_arith _ Hkey) as Hak.
  assert (Haad : ∀ a, fits 64 (Z.of_nat (length (to_bytes a)))).
  { intros a. unfold to_bytes. rewrite length_cons, length_app, !length_to_be_bytes. unfold fits. lia. }
  destruct (open_envelope_authentic key v dv sv lv blob p d sq pdu) as ((-> & Hdd & Hsq & Hfd & Hfs) & payload & tag & m & Heq & Ht & Hm); try done.
  destruct (decrypt_core_covered (primes key) (sk key) _ Hak payload tag m Ht ltac:(rewrite <-Heq; lia) Hm) as [_ Htag].
  split_and!; [done..| |].
  - unfold covered, TAG_SIZE in *. rewrite Heq, length_app, Ht, Nat.add_sub, drop_app_length. exact Htag.
  - intros v' dv' sv' p' d' sq' pdu' Hd' Hs' Hne Ho'.
    destruct (open_envelope_authentic key v' dv' sv' lv blob p' d' sq' pdu') as ((-> & Hdd' & Hsq' & Hfd' & Hfs') & payload' & tag' & m' & Heq' & Ht' & Hm'); try done.
    rewrite Heq in Heq'. apply app_inj_2 in Heq' as [<- <-]; [|congruence]. unfold covered. rewrite Heq.
    apply (decrypt_core_collision (primes key) (sk key) payload payload _ _ tag m m'); try done; try (rewrite <-Heq; lia).
    intros Hpair. apply Hne. assert (Hb' := f_equal snd Hpair). cbn [snd] in Hb'. apply to_bytes_inj in Hb'; [|done..]. injection Hb' as -> Hdx Hsx.
    subst d d' sq sq'. apply from_be_bytes_inj in Hdx; [|congruence]. apply from_be_bytes_inj in Hsx; [|congruence].
    by subst.
Qed.

(** Under a keyed function that always collides, associated data is ignored. *)
Lemma constant_decrypt_aad blob primes sk aad aad' :
  @decrypt_bytes_v8_core Toy.constant_crypto blob primes sk aad
  = @decrypt_bytes_v8_core Toy.constant_crypto blob primes sk aad'.
Proof.
  unfold decrypt_bytes_v8_core, decrypt_bytes_v8_core_inner.
  assert (Ht : ∀ payload,
    @compute_auth_tag Toy.constant_crypto (@derive_format_subkey Toy.constant_crypto sk FORMAT_BLOCK_V8) aad payload AAD_LEN_WIDTH_V8
    = @compute_auth_tag Toy.constant_crypto (@derive_format_subkey Toy.constant_crypto sk FORMAT_BLOCK_V8) aad' payload AAD_LEN_WIDTH_V8).
  { intros payload. unfold compute_auth_tag.
    destruct (index_range 0 NONCE_SIZE payload); [|done..]. rewrite !bind_Ok.
    destruct (index_range NONCE_SIZE (length payload) payload); [|done..]. by rewrite !bind_Ok. }
  repeat (case_if; [done|]).
  repeat match goal with |- ?m ≫= _ = ?m ≫= _ => destruct m; [rewrite !bind_Ok|done..] end.
  case_if; [done|].
  repeat match goal with |- ?m ≫= _ = ?m ≫= _ => destruct m; [rewrite !bind_Ok|done..] end.
  by rewrite Ht.
Qed.

Lemma constant_open_envelope key p d sq sq' blob :
  let _ := Toy.constant_crypto in let _ := default_build in
  fits 64 d → fits 64 sq → fits 64 sq' → Z.of_nat (length blob) < 2 ^ 32 →
  ∀ pdu, decrypt_bytes_v8_key blob key (to_bytes (MkOtAad p d sq)) = Ok (byte_to_Z <$> pdu) →
  open_envelope (envelope (protocol_u8 p) (to_be_bytes 8 d) (to_be_bytes 8 sq')
    (to_be_bytes 4 (Z.of_nat (length blob))) blob) key = Ok (p, d, sq', pdu).
Proof.
  intros C G Hd Hs Hs' Hl pdu Hdec. rewrite <-(app_nil_r blob) at 2.
  rewrite open_envelope_eq; [|apply length_to_be_bytes..|apply from_to_be_bytes; lia].
  cbv zeta. rewrite !from_to_be_bytes by done.
  assert (decrypt_bytes_v8_key blob key (to_bytes (MkOtAad p d sq')) = Ok (byte_to_Z <$> pdu)) as ->.
  { rewrite <-Hdec. subst C. unfold decrypt_bytes_v8_key. destruct gated; [|reflexivity..].
    rewrite !bind_Ok. apply constant_decrypt_aad. }
  cbn [map_err]. by rewrite bind_Ok, collect_latin1, bind_Ok.
Qed.

Lemma envelope_header_authenticated_witness :
  let _ := Toy.constant_crypto in let _ := default_build in
  let key := MkNapqesKey sample_key (replicate 32 x07) in
  let d := to_be_bytes 8 9 in
  ∃ blob,
    let lv := to_be_bytes 4 (Z.of_nat (length blob)) in
    open_envelope (envelope x01 d (to_be_bytes 8 1) lv blob) key = Ok (ModbusTcp, 9, 1, [x41]) ∧
    open_envelope (envelope x01 d (to_be_bytes 8 2) lv blob) key = Ok (ModbusTcp, 9, 2, [x41]) ∧
    collides (derive_format_subkey (sk key) FORMAT_BLOCK_V8)
      (block_covered blob (to_bytes (MkOtAad ModbusTcp 9 1))) (block_covered blob (to_bytes (MkOtAad ModbusTcp 9 2))).
Proof.
  intros C G key d.
  pose proof (wrap_pdu_cases key [x41] (MkOtAad ModbusTcp 9 1) eq_refl sample_key_valid) as Hw.
  destruct (wrap_pdu [x41] (MkOtAad ModbusTcp 9 1) key) as [env|e|];
    [|destruct Hw as [Hw _]; simpl in Hw; lia|destruct Hw].
  destruct Hw as (blob & Hdec & Hl & _).
  assert (∀ z, 0 ≤ z ≤ 9 → fits 64 z) as Hf by (unfold fits; lia).
  pose proof (constant_open_envelope key ModbusTcp 9 1 1 blob
    ltac:(apply Hf; lia) ltac:(apply Hf; lia) ltac:(apply Hf; lia) Hl [x41] Hdec) as H1.
  pose proof (constant_open_envelope key ModbusTcp 9 1 2 blob
    ltac:(apply Hf; lia) ltac:(apply Hf; lia) ltac:(apply Hf; lia) Hl [x41] Hdec) as H2.
  exists blob. split; [exact H1|split; [exact H2|]].
  apply (envelope_header_authenticated key x01 d (to_be_bytes 8 1)
    (to_be_bytes 4 (Z.of_nat (length blob))) blob ModbusTcp 9 1 [x41])
    with (v' := x01) (dv' := d) (sv' := to_be_bytes 8 2) (pdu' := [x41]);
    [exact sample_key_valid|lia|apply length_to_be_bytes..|apply from_to_be_bytes; lia|exact H1|
     apply length_to_be_bytes|apply length_to_be_bytes| |exact H2].
  intros Heq. injection Heq as Heq. vm_compute in Heq. discriminate Heq.
Defined.

(** A sender never repeats associated data: from any reachable counter
    state the AADs it attaches to any sequence of sends are pairwise distinct as
    byte strings, each sequence number is above every earlier one of its device and
    fits 64 bits, and a counter at its maximum stops instead of wrapping. *)
Theorem next_seq_unique_aad reqs s :
  (∀ k, 0 ≤ last_sent s k) → Forall (λ k, fits 64 k.2) reqs →
  NoDup (to_bytes <$> sent reqs s) ∧
  Forall (λ a, last_sent s (protocol a, device_id a) < seq a < 2 ^ 64) (sent reqs s).
Proof.
  intros Hs Hreqs. rewrite Forall_forall in Hreqs. split.
  - apply NoDup_fmap_2_strong; [|by apply sent_NoDup].
    intros a b Ha Hb Heq. apply sent_above in Ha as [Ha Ha']; [|done].
    apply sent_above in Hb as [Hb Hb']; [|done]. apply Hreqs in Ha', Hb'. cbn [snd] in *.
    pose proof (Hs (protocol a, device_id a)). pose proof (Hs (protocol b, device_id b)).
    apply to_bytes_inj; unfold fits in *; (lia || done).
  - apply Forall_forall. intros a Ha. by apply sent_above in Ha as [Ha _].
Qed.

Lemma next_seq_unique_aad_witness :
  let reqs := [(ModbusTcp, 1); (ModbusTcp, 1); (Dnp3, 1)] in
  (∀ k, 0 ≤ last_sent SequenceCounter_new k) ∧ length (sent reqs SequenceCounter_new) = 3%nat ∧
  NoDup (to_bytes <$> sent reqs SequenceCounter_new).
Proof.
  intros reqs.
  assert (∀ k, 0 ≤ last_sent SequenceCounter_new k) as Hs
    by (intros k; unfold last_sent; simpl; rewrite lookup_empty; simpl; lia).
  split; [exact Hs|split; [vm_compute; reflexivity|]].
  apply (next_seq_unique_aad reqs SequenceCounter_new Hs).
  repeat constructor; unfold fits; simpl; lia.
Defined.
