(* ===== verification/Kem.v ===== *)
(** * KEM key establishment ([kem.rs])

    FrodoKEM-640-AES, alone or hybridised with X25519, and the deterministic
    expansion of a shared secret into a validated key: HKDF to a seed, then
    counter-mode HMAC filtered for distinct primes. *)
From Stdlib Require Import ZArith Lia Strings.Byte Strings.String Sorting.Sorted.
From stdpp Require Import base tactics option numbers gmap list.
From S2P Require Import Prelude Machine Errors Crates Post Primes Keys Derive.

#[local] Open Scope Z_scope.
#[local] Open Scope napqes_scope.

Definition NAPQES_KEY_COUNT : Z := 13.
Definition MIN_PRIME : Z := 1000000.
Definition MAX_PRIME : Z := 15000000.

Definition HKDF_SALT : list byte := list_byte_of_string "NAPQES-v6-FrodoKEM-640-prime-key".
Definition HKDF_INFO : list byte := list_byte_of_string "v1".
Definition HKDF_INFO_V8_SK : list byte := list_byte_of_string "v1-sk-v8".
Definition HYBRID_HKDF_SALT : list byte :=
  list_byte_of_string "NAPQES-hybrid-FrodoKEM640AES-X25519-prime-key".
Definition HYBRID_HKDF_INFO_PREFIX : list byte := list_byte_of_string "v2".

Definition FRODO_PUBLIC_KEY_SIZE : Z := 9616.
Definition FRODO_SECRET_KEY_SIZE : Z := 19888.
Definition FRODO_CIPHERTEXT_SIZE : Z := 9720.
Definition X25519_KEY_SIZE : Z := 32.
Definition HYBRID_PUBLIC_KEY_SIZE : Z := FRODO_PUBLIC_KEY_SIZE + X25519_KEY_SIZE.
Definition HYBRID_SECRET_KEY_SIZE : Z :=
  FRODO_SECRET_KEY_SIZE + X25519_KEY_SIZE + FRODO_PUBLIC_KEY_SIZE.
Definition HYBRID_CIPHERTEXT_SIZE : Z := FRODO_CIPHERTEXT_SIZE + X25519_KEY_SIZE.

(** The variables of the expansion loop. *)
Record expand_state := ExpandState { ex_primes : list Z; ex_seen : gset Z; ex_counter : Z }.

Section kem.
Context `{Crypto} `{Hkdf} `{Gate}.

(** ** Expansion of a seed *)

(** [u64::from_be_bytes(digest[..8]) % prime_range + MIN_PRIME]. *)
Definition expand_draw (seed : list byte) (counter : Z) : Z :=
  let digest := hmac_sha256 seed (to_be_bytes 4 counter) in
  from_be_bytes (take 8 digest) mod (MAX_PRIME - MIN_PRIME) + MIN_PRIME.

Definition expand_step (seed : list byte) (s : expand_state)
    : expand_state + outcome error (list Z) :=
  if Z.of_nat (length (ex_primes s)) <? NAPQES_KEY_COUNT then
    let raw := expand_draw seed (ex_counter s) in
    continue_with (
      counter ← checked_add 32 (ex_counter s) 1;
      take_it ← (if bool_decide (raw ∈ ex_seen s) then Ok false else is_prime raw);
      Ok (if (take_it : bool)
          then ExpandState (ex_primes s ++ [raw]) ({[raw]} ∪ ex_seen s) counter
          else ExpandState (ex_primes s) (ex_seen s) counter))
  else inr (Ok (ex_primes s)).

(** The counter is a [u32]: it overflows before [2^33] rounds. *)
Definition expand_seed_to_primes (seed : list byte) : outcome error (list Z) :=
  while_loop 33 (expand_step seed) (ExpandState [] ∅ 0).

Definition derive_napqes_key (shared_secret : list byte) : outcome error (list Z) :=
  let seed := hkdf_sha256 HKDF_SALT shared_secret HKDF_INFO in
  expand_seed_to_primes seed.

Definition derive_v8_sk (shared_secret : list byte) : list byte :=
  hkdf_sha256 HKDF_SALT shared_secret HKDF_INFO_V8_SK.

Definition derive_v8_key (shared_secret : list byte) : outcome error NapqesKey :=
  ps ← derive_napqes_key shared_secret;
  NapqesKey_new ps (derive_v8_sk shared_secret).

(** ** FrodoKEM alone *)

Context `{Frodo}.

(** [T::from_bytes(..).map_err(..)]: only the length is examined. *)
Definition from_bytes (len : Z) (e : error) (bytes : list byte) : outcome error (list byte) :=
  if Z.of_nat (length bytes) =? len then Ok bytes else Err e.

Definition keygen (seed : list byte) : list byte * list byte := frodo_keypair seed.

Definition encapsulate (public_key seed : list byte) : outcome error (list byte * list Z) :=
  _ ← gated;
  pk ← from_bytes frodo_pk_len InvalidPublicKey public_key;
  let '(ss, ct) := frodo_encapsulate pk seed in
  key ← derive_napqes_key ss;
  Ok (ct, key).

Definition decapsulate (ciphertext secret_key : list byte) : outcome error (list Z) :=
  _ ← gated;
  ct ← from_bytes frodo_ct_len InvalidKemCiphertext ciphertext;
  sk ← from_bytes frodo_sk_len InvalidSecretKey secret_key;
  let ss := frodo_decapsulate ct sk in
  derive_napqes_key ss.

Definition encapsulate_v8 (public_key seed : list byte) : outcome error (list byte * NapqesKey) :=
  _ ← gated;
  pk ← from_bytes frodo_pk_len InvalidPublicKey public_key;
  let '(ss, ct) := frodo_encapsulate pk seed in
  key ← derive_v8_key ss;
  Ok (ct, key).

Definition decapsulate_v8 (ciphertext secret_key : list byte) : outcome error NapqesKey :=
  _ ← gated;
  ct ← from_bytes frodo_ct_len InvalidKemCiphertext ciphertext;
  sk ← from_bytes frodo_sk_len InvalidSecretKey secret_key;
  let ss := frodo_decapsulate ct sk in
  derive_v8_key ss.

(** ** FrodoKEM and X25519 *)

Context `{X25519}.

Definition transcript_part (part : list byte) : list byte :=
  to_be_bytes 4 (Z.of_nat (length part)) ++ part.

Definition hybrid_transcript (pk_pq ct_pq pk_ec_static pk_ec_ephemeral : list byte) : list byte :=
  HYBRID_HKDF_INFO_PREFIX
  ++ concat (transcript_part <$> [pk_pq; ct_pq; pk_ec_static; pk_ec_ephemeral]).

Definition derive_napqes_key_hybrid (ss_pq ss_ec transcript : list byte) : outcome error (list Z) :=
  if negb (Z.of_nat (length ss_ec) =? X25519_KEY_SIZE)
  then Err (X25519SecretSize (Z.of_nat (length ss_ec)))
  else if forallb (λ b, byte_to_Z b =? 0) ss_ec then Err X25519AllZero
  else
    let ikm := ss_pq ++ ss_ec in
    let seed := hkdf_sha256 HYBRID_HKDF_SALT ikm transcript in
    expand_seed_to_primes seed.

Definition keygen_hybrid (seed sk_ec : list byte) : list byte * list byte :=
  let '(pk_pq, sk_pq) := frodo_keypair seed in
  let pk_ec := x25519_public sk_ec in
  (pk_pq ++ pk_ec, sk_pq ++ sk_ec ++ pk_pq).

(** [bytes.split_at(mid)]: out of range panics. *)
Definition split_at (mid : Z) (bytes : list byte) : outcome error (list byte * list byte) :=
  if Z.of_nat (length bytes) <? mid then Panic PanicBounds
  else Ok (take (Z.to_nat mid) bytes, drop (Z.to_nat mid) bytes).

Definition encapsulate_hybrid (public_key seed eph : list byte) : outcome error (list byte * list Z) :=
  _ ← gated;
  if negb (Z.of_nat (length public_key) =? HYBRID_PUBLIC_KEY_SIZE)
  then Err (HybridPublicKeySize (Z.of_nat (length public_key)))
  else
    parts ← split_at FRODO_PUBLIC_KEY_SIZE public_key;
    let '(pk_pq_bytes, pk_ec_static) := parts in
    pk_pq ← from_bytes frodo_pk_len InvalidPublicKey pk_pq_bytes;
    let '(ss_pq, ct_pq) := frodo_encapsulate pk_pq seed in
    let pk_ec_ephemeral := x25519_public eph in
    let ss_ec := x25519_dh eph pk_ec_static in
    let transcript := hybrid_transcript pk_pq_bytes ct_pq pk_ec_static pk_ec_ephemeral in
    key ← derive_napqes_key_hybrid ss_pq ss_ec transcript;
    Ok (ct_pq ++ pk_ec_ephemeral, key).

Definition decapsulate_hybrid (ciphertext secret_key : list byte) : outcome error (list Z) :=
  _ ← gated;
  if negb (Z.of_nat (length ciphertext) =? HYBRID_CIPHERTEXT_SIZE)
  then Err (HybridCiphertextSize (Z.of_nat (length ciphertext)))
  else if negb (Z.of_nat (length secret_key) =? HYBRID_SECRET_KEY_SIZE)
  then Err (HybridSecretKeySize (Z.of_nat (length secret_key)))
  else
    parts ← split_at FRODO_CIPHERTEXT_SIZE ciphertext;
    let '(ct_pq_bytes, pk_ec_ephemeral) := parts in
    sk_parts ← split_at FRODO_SECRET_KEY_SIZE secret_key;
    let '(sk_pq_bytes, rest) := sk_parts in
    ec_parts ← split_at X25519_KEY_SIZE rest;
    let '(sk_ec, pk_pq_bytes) := ec_parts in
    ct_pq ← from_bytes frodo_ct_len InvalidKemCiphertext ct_pq_bytes;
    sk_pq ← from_bytes frodo_sk_len InvalidSecretKey sk_pq_bytes;
    let ss_pq := frodo_decapsulate ct_pq sk_pq in
    let pk_ec_static := x25519_public sk_ec in
    let ss_ec := x25519_dh sk_ec pk_ec_ephemeral in
    let transcript := hybrid_transcript pk_pq_bytes ct_pq_bytes pk_ec_static pk_ec_ephemeral in
    derive_napqes_key_hybrid ss_pq ss_ec transcript.
End kem.

(** ** The expansion *)

Section expansion.
Context `{Crypto} (seed : list byte).

Lemma expand_draw_range i : MIN_PRIME ≤ expand_draw seed i < MAX_PRIME.
Proof using Type.
  unfold expand_draw. pose proof (Z.mod_pos_bound
    (from_be_bytes (take 8 (hmac_sha256 seed (to_be_bytes 4 i)))) (MAX_PRIME - MIN_PRIME)) as Hm.
  unfold MAX_PRIME, MIN_PRIME in *. lia.
Qed.

Definition expand_inv (s : expand_state) : Prop :=
  0 ≤ ex_counter s < 2 ^ 32 ∧ Z.of_nat (length (ex_primes s)) ≤ NAPQES_KEY_COUNT ∧
  ex_primes s = distinct_primes (drawn (expand_draw seed) (ex_counter s)) ∧
  ex_seen s = list_to_set (ex_primes s).

Lemma drawn_succ draws i : 0 ≤ i → drawn draws (i + 1) = drawn draws i ++ [draws i].
Proof using Type.
  intros Hi. unfold drawn. rewrite seqZ_app by lia. rewrite fmap_app. simpl. by rewrite Z.add_0_l.
Qed.

Lemma expand_step_ok s :
  expand_inv s →
  match expand_step seed s with
  | inl s' => expand_inv s' ∧ 2 ^ 32 - ex_counter s' < 2 ^ 32 - ex_counter s
  | inr r =>
      (r = Ok (ex_primes s) ∧ Z.of_nat (length (ex_primes s)) = NAPQES_KEY_COUNT) ∨
      (r = Panic PanicOverflow ∧ ex_counter s = 2 ^ 32 - 1 ∧
       Z.of_nat (length (ex_primes s)) < NAPQES_KEY_COUNT)
  end.
Proof using Type.
  intros (Hc & Hl & Hp & Hs). unfold expand_step.
  destruct (Z.ltb_spec (Z.of_nat (length (ex_primes s))) NAPQES_KEY_COUNT); [|left; split; [done|lia]].
  destruct (decide (ex_counter s = 2 ^ 32 - 1)) as [Hlast|Hlast].
  { unfold checked_add. rewrite (proj2 (Z.ltb_ge (ex_counter s + 1) _)) by lia.
    right. by split_and!. }
  rewrite checked_add_Ok, bind_Ok by lia.
  pose proof (expand_draw_range (ex_counter s)) as Hr. set (raw := expand_draw _ _) in *.
  assert (fits 64 raw) as Hf by (unfold fits, MIN_PRIME, MAX_PRIME in *; lia).
  assert (Hdrawn := drawn_succ (expand_draw seed) (ex_counter s) ltac:(lia)). fold raw in Hdrawn.
  assert (raw ∈ ex_seen s ↔ raw ∈ ex_primes s) as Hseen by (rewrite Hs; apply elem_of_list_to_set).
  assert (∃ b, (if bool_decide (raw ∈ ex_seen s) then Ok false else is_prime raw) = Ok (E:=error) b ∧
    (b = true ↔ Z.prime raw ∧ raw ∉ ex_primes s)) as (b & -> & Hb).
  { case_bool_decide as Hin.
    - exists false. split; [done|]. split; [done|]. tauto.
    - rewrite is_prime_spec by done. eexists. split; [done|]. rewrite bool_decide_eq_true. tauto. }
  rewrite bind_Ok. cbn [continue_with].
  assert (distinct_primes (drawn (expand_draw seed) (ex_counter s + 1))
          = if b then ex_primes s ++ [raw] else ex_primes s) as Hnext.
  { rewrite Hdrawn, distinct_primes_snoc, <-Hp. unfold accept_prime.
    destruct b; [by rewrite bool_decide_eq_true_2 by tauto|].
    rewrite bool_decide_eq_false_2; [done|]. intros Hx. by apply Hb in Hx. }
  unfold expand_inv. destruct b; cbn [ex_counter ex_primes ex_seen]; rewrite Hnext.
  - split; [split_and!; try lia; [rewrite length_app; simpl; lia|done|]|lia].
    rewrite list_to_set_app_L, Hs. simpl. set_solver.
  - split; [split_and!; try lia; done|lia].
Qed.

(** The expansion terminates whatever HMAC returns. *)
Lemma expand_seed_cases :
  match expand_seed_to_primes seed with
  | Ok ps => valid_key ps ∧ length ps = 13%nat ∧ Forall (λ k, k < MAX_PRIME) ps ∧
      ∃ a, 0 ≤ a < 2 ^ 32 ∧ ps = distinct_primes (drawn (expand_draw seed) a)
  | Err _ => False
  | Panic p => p = PanicOverflow ∧
      (length (distinct_primes (drawn (expand_draw seed) (2 ^ 32 - 1))) < 13)%nat
  end.
Proof using Type.
  unfold expand_seed_to_primes.
  apply (while_loop_total 33 _ expand_inv (λ s, 2 ^ 32 - ex_counter s)).
  - intros s Hs. pose proof (expand_step_ok s Hs) as Hstep.
    destruct (expand_step seed s); [done|]. destruct Hs as (Hc & Hl & Hp & _).
    unfold NAPQES_KEY_COUNT in Hstep.
    destruct Hstep as [[-> Hlen]|(-> & Hlast & Hlen)].
    + destruct (distinct_primes_spec (drawn (expand_draw seed) (ex_counter s))) as [Hnd Hall].
      rewrite <-Hp in Hnd, Hall.
      assert (Forall (λ k, MIN_PRIME ≤ k < MAX_PRIME ∧ Z.prime k) (ex_primes s)) as Hin.
      { eapply Forall_impl; [exact Hall|]. intros k [Hk Hpk]. split; [|done].
        apply list_elem_of_fmap in Hk as (i & -> & _). apply expand_draw_range. }
      split_and!; [|lia| |by exists (ex_counter s)].
      * split_and!; [by intros Hnil; rewrite Hnil in Hlen|unfold MAX_KEY_ELEMENTS; lia| |done].
        eapply Forall_impl; [exact Hin|]. unfold MIN_PRIME, MAX_PRIME, MIN_KEY_PRIME, MAX_KEY_PRIME.
        intros k [? ?]. split; [lia|done].
      * eapply Forall_impl; [exact Hin|]. intros k [? ?]. simpl. lia.
    + split; [done|]. rewrite <-Hlast, <-Hp. lia.
  - unfold expand_inv. cbn [ex_counter ex_primes ex_seen length]. unfold NAPQES_KEY_COUNT.
    split_and!; try done; lia.
  - intros s (Hc & _). lia.
  - cbn [ex_counter]. lia.
Qed.
End expansion.

Section roundtrip.
Context `{Crypto} `{Hkdf} `{Gate} `{Frodo} (Hgate : gate_open).

Lemma derive_napqes_key_cases ss :
  match derive_napqes_key ss with
  | Ok ps => valid_key ps ∧ length ps = 13%nat
  | Err _ => False
  | Panic p => p = PanicOverflow
  end.
Proof using Type.
  unfold derive_napqes_key. set (seed := hkdf_sha256 _ _ _). pose proof (expand_seed_cases seed) as He.
  destruct (expand_seed_to_primes seed); tauto.
Qed.

Lemma derive_v8_key_cases ss :
  match derive_v8_key ss with
  | Ok key => derive_napqes_key ss = Ok (primes key) ∧ valid_key (primes key) ∧
      NapqesKey_k key = 13%nat ∧ sk key = derive_v8_sk ss ∧ length (sk key) = SK_SIZE
  | Err _ => False
  | Panic p => p = PanicOverflow
  end.
Proof using Type.
  unfold derive_v8_key. pose proof (derive_napqes_key_cases ss) as He.
  destruct (derive_napqes_key ss) as [ps| |]; [|done..]. rewrite bind_Ok.
  destruct He as (Hv & Hl). unfold NapqesKey_new. rewrite validate_key_valid, bind_Ok by done.
  split_and!; [done|done|exact Hl|done|apply length_hkdf_sha256].
Qed.

Lemma from_bytes_Ok len e bytes : Z.of_nat (length bytes) = len → from_bytes len e bytes = Ok bytes.
Proof using Type. intros Hl. unfold from_bytes. by rewrite (proj2 (Z.eqb_eq _ _)). Qed.

Lemma encapsulate_v8_cases s1 s2 :
  match encapsulate_v8 (keygen s1).1 s2 with
  | Ok (ct, key) => decapsulate_v8 ct (keygen s1).2 = Ok key ∧ valid_key (primes key) ∧
      NapqesKey_k key = 13%nat ∧ length (sk key) = SK_SIZE ∧ Z.of_nat (length ct) = frodo_ct_len
  | Err _ => False
  | Panic p => p = PanicOverflow
  end.
Proof using Hgate.
  unfold gate_open in Hgate. unfold encapsulate_v8, keygen. rewrite Hgate, bind_Ok.
  destruct (length_frodo_keypair s1) as [Hpk Hsk]. rewrite (from_bytes_Ok _ _ _ Hpk), bind_Ok.
  pose proof (length_frodo_ct (frodo_keypair s1).1 s2) as Hct.
  pose proof (frodo_correct s1 s2) as Hcorrect.
  destruct (frodo_encapsulate (frodo_keypair s1).1 s2) as [ss ct]. cbn [fst snd] in *.
  pose proof (derive_v8_key_cases ss) as Hd. destruct (derive_v8_key ss) as [key| |] eqn:Hkey; [|done..].
  rewrite bind_Ok. unfold decapsulate_v8. rewrite Hgate, bind_Ok, (from_bytes_Ok _ _ _ Hct), bind_Ok, (from_bytes_Ok _ _ _ Hsk), bind_Ok.
  cbv zeta. rewrite Hcorrect, Hkey. tauto.
Qed.

Lemma encapsulate_cases s1 s2 :
  match encapsulate (keygen s1).1 s2 with
  | Ok (ct, key) => decapsulate ct (keygen s1).2 = Ok key ∧ valid_key key ∧
      Z.of_nat (length ct) = frodo_ct_len ∧ length key = 13%nat
  | Err _ => False
  | Panic p => p = PanicOverflow
  end.
Proof using Hgate.
  unfold gate_open in Hgate. unfold encapsulate, keygen. rewrite Hgate, bind_Ok.
  destruct (length_frodo_keypair s1) as [Hpk Hsk]. rewrite (from_bytes_Ok _ _ _ Hpk), bind_Ok.
  pose proof (length_frodo_ct (frodo_keypair s1).1 s2) as Hct.
  pose proof (frodo_correct s1 s2) as Hcorrect.
  destruct (frodo_encapsulate (frodo_keypair s1).1 s2) as [ss ct]. cbn [fst snd] in *.
  pose proof (derive_napqes_key_cases ss) as Hd.
  destruct (derive_napqes_key ss) as [key| |] eqn:Hkey; [|done|tauto].
  rewrite bind_Ok. unfold decapsulate. rewrite Hgate, bind_Ok, (from_bytes_Ok _ _ _ Hct), bind_Ok, (from_bytes_Ok _ _ _ Hsk), bind_Ok.
  cbv zeta. rewrite Hcorrect, Hkey. tauto.
Qed.
End roundtrip.

(** ** The hybrid exchange *)

Lemma transcript_part_inj p q r s :
  fits 32 (Z.of_nat (length p)) → fits 32 (Z.of_nat (length q)) →
  transcript_part p ++ r = transcript_part q ++ s → p = q ∧ r = s.
Proof.
  intros Hp Hq. unfold transcript_part. rewrite <-!app_assoc. intros Heq.
  apply app_inj_1 in Heq as [Hl Heq]; [|by rewrite !length_to_be_bytes].
  apply to_be_bytes_inj in Hl; [|exact Hp|exact Hq]. apply app_inj_1 in Heq; [done|lia].
Qed.

(** The transcript determines its four public values. *)
Lemma hybrid_transcript_inj a1 b1 c1 d1 a2 b2 c2 d2 :
  Forall (λ p, fits 32 (Z.of_nat (length p))) [a1; b1; c1; d1; a2; b2; c2; d2] →
  hybrid_transcript a1 b1 c1 d1 = hybrid_transcript a2 b2 c2 d2 →
  a1 = a2 ∧ b1 = b2 ∧ c1 = c2 ∧ d1 = d2.
Proof.
  intros Hl Heq. rewrite !Forall_cons in Hl. destruct Hl as (? & ? & ? & ? & ? & ? & ? & ? & _).
  unfold hybrid_transcript in Heq. apply app_inv_head in Heq.
  cbn [fmap list_fmap concat] in Heq.
  apply transcript_part_inj in Heq as [-> Heq]; [|done..].
  apply transcript_part_inj in Heq as [-> Heq]; [|done..].
  apply transcript_part_inj in Heq as [-> Heq]; [|done..].
  by apply transcript_part_inj in Heq as [-> _]; [|done..].
Qed.

Section hybrid.
Context `{Crypto} `{Hkdf} `{Gate} `{Frodo} `{X25519} (Hgate : gate_open).

(** The sizes FrodoKEM-640-AES fixes. *)
Definition frodo640_sizes : Prop :=
  frodo_pk_len = FRODO_PUBLIC_KEY_SIZE ∧ frodo_sk_len = FRODO_SECRET_KEY_SIZE ∧
  frodo_ct_len = FRODO_CIPHERTEXT_SIZE.

Lemma split_at_app n a b : Z.of_nat (length a) = n → split_at n (a ++ b) = Ok (a, b).
Proof using Type.
  intros Hl. unfold split_at. rewrite length_app, (proj2 (Z.ltb_ge _ _)) by lia.
  by rewrite take_app_length', drop_app_length' by lia.
Qed.

Lemma derive_hybrid_cases ss_pq ss_ec t :
  Z.of_nat (length ss_ec) = X25519_KEY_SIZE →
  match derive_napqes_key_hybrid ss_pq ss_ec t with
  | Ok key => valid_key key ∧ length key = 13%nat
  | Err e => e = X25519AllZero ∧ ss_ec = replicate 32 x00
  | Panic p => p = PanicOverflow
  end.
Proof using Type.
  intros Hl. unfold derive_napqes_key_hybrid. rewrite Hl, Z.eqb_refl. cbn [negb].
  destruct (forallb _ ss_ec) eqn:Hz.
  - split; [done|]. unfold X25519_KEY_SIZE in Hl. replace 32%nat with (length ss_ec) by lia.
    clear Hl. induction ss_ec as [|b ss IH]; [done|]. cbn [forallb] in Hz.
    apply andb_true_iff in Hz as [Hb Hz]. apply Z.eqb_eq in Hb. cbn [length replicate].
    rewrite <-IH by done. f_equal. apply (inj byte_to_Z). by rewrite Hb.
  - pose proof (expand_seed_cases (hkdf_sha256 HYBRID_HKDF_SALT (ss_pq ++ ss_ec) t)) as He.
    destruct (expand_seed_to_primes _); tauto.
Qed.

Lemma encapsulate_hybrid_cases s1 sk_ec s2 eph :
  frodo640_sizes → Z.of_nat (length sk_ec) = X25519_KEY_SIZE →
  match encapsulate_hybrid (keygen_hybrid s1 sk_ec).1 s2 eph with
  | Ok (ct, key) => decapsulate_hybrid ct (keygen_hybrid s1 sk_ec).2 = Ok key ∧ valid_key key ∧
      Z.of_nat (length ct) = HYBRID_CIPHERTEXT_SIZE ∧ length key = 13%nat
  | Err e => e = X25519AllZero ∧ x25519_dh eph (x25519_public sk_ec) = replicate 32 x00
  | Panic p => p = PanicOverflow
  end.
Proof using Hgate.
  intros (Hpkl & Hskl & Hctl) Hec. unfold gate_open in Hgate.
  unfold encapsulate_hybrid, keygen_hybrid. rewrite Hgate, bind_Ok.
  destruct (length_frodo_keypair s1) as [Hpk Hsk].
  pose proof (length_frodo_ct (frodo_keypair s1).1 s2) as Hct.
  pose proof (frodo_correct s1 s2) as Hcorrect.
  destruct (frodo_keypair s1) as [pk_pq sk_pq]. cbn [fst snd] in *.
  pose proof (length_x25519_public sk_ec) as Hlp. pose proof (length_x25519_public eph) as Hle.
  pose proof (length_x25519_dh eph (x25519_public sk_ec)) as Hld.
  unfold HYBRID_PUBLIC_KEY_SIZE, HYBRID_CIPHERTEXT_SIZE, HYBRID_SECRET_KEY_SIZE in *.
  rewrite (proj2 (Z.eqb_eq (Z.of_nat (length (pk_pq ++ _))) _))
    by (rewrite length_app; unfold X25519_KEY_SIZE; lia). cbn [negb].
  rewrite split_at_app, bind_Ok by lia. rewrite from_bytes_Ok, bind_Ok by done.
  destruct (frodo_encapsulate pk_pq s2) as [ss_pq ct_pq]. cbn [fst snd] in *.
  assert (Z.of_nat (length (x25519_dh eph (x25519_public sk_ec))) = X25519_KEY_SIZE) as Hld'
    by (rewrite Hld; done).
  pose proof (derive_hybrid_cases ss_pq (x25519_dh eph (x25519_public sk_ec))
    (hybrid_transcript pk_pq ct_pq (x25519_public sk_ec) (x25519_public eph)) Hld') as Hd.
  destruct (derive_napqes_key_hybrid _ _ _) as [key|e|] eqn:Hkey; [|done..]. rewrite bind_Ok.
  assert (Z.of_nat (length (ct_pq ++ x25519_public eph)) = FRODO_CIPHERTEXT_SIZE + X25519_KEY_SIZE) as Hctx
    by (rewrite length_app; unfold X25519_KEY_SIZE; lia).
  destruct Hd as [Hv Hlen]. split_and!; [|done..].
  unfold decapsulate_hybrid. rewrite Hgate, bind_Ok. unfold HYBRID_CIPHERTEXT_SIZE, HYBRID_SECRET_KEY_SIZE.
  rewrite Hctx, Z.eqb_refl. cbn [negb].
  rewrite (proj2 (Z.eqb_eq (Z.of_nat (length (sk_pq ++ _))) _)) by (rewrite !length_app; lia). cbn [negb].
  rewrite (split_at_app _ ct_pq), bind_Ok by lia. rewrite (split_at_app _ sk_pq), bind_Ok by lia.
  rewrite (split_at_app _ sk_ec), bind_Ok by lia.
  rewrite (from_bytes_Ok _ _ ct_pq), bind_Ok by done. rewrite (from_bytes_Ok _ _ sk_pq), bind_Ok by done.
  cbv zeta. by rewrite Hcorrect, <-x25519_comm.
Qed.
End hybrid.

(** ** Properties *)

(** C18: the expansion of a seed terminates for every behaviour of HMAC: it returns
    the first 13 distinct primes of the drawn sequence, in drawing order, and this
    tuple is a valid key whose elements lie in [[1 000 000, 15 000 000)]; the only
    way not to return is the overflow check of the 32-bit counter, reached when
    [2^32 - 1] draws hold fewer than 13 distinct primes. *)
Theorem expand_seed_to_primes_correct `{Crypto} seed :
  match expand_seed_to_primes seed with
  | Ok ps => valid_key ps ∧ length ps = 13%nat ∧ Forall (λ k, k < MAX_PRIME) ps ∧
      ∃ a, 0 ≤ a < 2 ^ 32 ∧ ps = distinct_primes (drawn (expand_draw seed) a)
  | Err _ => False
  | Panic p => p = PanicOverflow ∧
      (length (distinct_primes (drawn (expand_draw seed) (2 ^ 32 - 1))) < 13)%nat
  end.
Proof. apply expand_seed_cases. Qed.

(** C9: both ends of a key establishment derive the same validated key: for a
    genuine key pair, decapsulating what [encapsulate], [encapsulate_v8] or
    [encapsulate_hybrid] produced returns the encapsulator's key; encapsulation to a
    genuine key never fails, except that the hybrid refuses an all-zero X25519
    secret (and the counter overflow of the expansion). *)
Theorem kem_roundtrip `{Crypto} `{Hkdf} `{Gate} `{Frodo} `{X25519} s1 s2 sk_ec eph :
  gate_open → frodo640_sizes → Z.of_nat (length sk_ec) = X25519_KEY_SIZE →
  match encapsulate (keygen s1).1 s2 with
  | Ok (ct, key) => decapsulate ct (keygen s1).2 = Ok key ∧ valid_key key
  | Err _ => False
  | Panic p => p = PanicOverflow
  end ∧
  match encapsulate_v8 (keygen s1).1 s2 with
  | Ok (ct, key) => decapsulate_v8 ct (keygen s1).2 = Ok key ∧ valid_key (primes key) ∧
      NapqesKey_k key = 13%nat ∧ length (sk key) = SK_SIZE
  | Err _ => False
  | Panic p => p = PanicOverflow
  end ∧
  match encapsulate_hybrid (keygen_hybrid s1 sk_ec).1 s2 eph with
  | Ok (ct, key) => decapsulate_hybrid ct (keygen_hybrid s1 sk_ec).2 = Ok key ∧ valid_key key
  | Err e => e = X25519AllZero ∧ x25519_dh eph (x25519_public sk_ec) = replicate 32 x00
  | Panic p => p = PanicOverflow
  end.
Proof.
  intros Hg Hsz Hec.
  pose proof (encapsulate_cases Hg s1 s2). pose proof (encapsulate_v8_cases Hg s1 s2).
  pose proof (encapsulate_hybrid_cases Hg s1 sk_ec s2 eph Hsz Hec).
  split_and!; repeat case_match; tauto.
Qed.

Lemma kem_roundtrip_witness :
  let _ := Toy.crypto in let _ := Toy.hkdf in let _ := Toy.frodo in let _ := Toy.x25519 in
  let _ := default_build in
  frodo640_sizes ∧
  match encapsulate_v8 (keygen [x01]).1 [x02] with
  | Ok (ct, key) => decapsulate_v8 ct (keygen [x01]).2 = Ok key ∧ valid_key (primes key) ∧
      NapqesKey_k key = 13%nat ∧ length (sk key) = SK_SIZE
  | Err _ => False
  | Panic p => p = PanicOverflow
  end.
Proof.
  intros C HK F X G. assert (gate_open) as Hg by reflexivity.
  assert frodo640_sizes as Hs by (split_and!; reflexivity). split; [exact Hs|].
  assert (Z.of_nat (length (replicate 32 x03)) = X25519_KEY_SIZE) as Hec by reflexivity.
  destruct (kem_roundtrip [x01] [x02] (replicate 32 x03) (replicate 32 x04) Hg Hs Hec) as (_ & Hv & _).
  exact Hv.
Defined.
