(* ===== verification/KemExchange.v ===== *)
(** * The key-establishment protocol of the gateways ([kem_exchange.rs])

    One round trip over a byte stream: the responder sends its public key, the
    initiator answers with a ciphertext, the responder acknowledges. Each party
    is a function of its random seed and of the bytes it receives; a connection
    ties the two together. Connection set-up, write failures and timers belong to
    the runtime and are not modelled. *)
From Stdlib Require Import ZArith Lia Strings.Byte.
From stdpp Require Import base tactics option numbers gmap list.
From S2P Require Import Prelude Machine Errors Crates Post Primes Keys Derive OtFrame Kem.

#[local] Open Scope Z_scope.
#[local] Open Scope napqes_scope.

Definition ACK : byte := x01.

(** The formatted errors of the two parties. *)
Inductive exchange_error :=
| RecvLength | FrameTooLarge (len : Z) | RecvPayload (len : Z)
| DecapsulateFailed (e : error) | EncapsulateFailed (e : error)
| AckRecv | UnexpectedAck (b : byte).

(** [read_exact]: the bytes read and what is left, or an end-of-file error. *)
Definition read_exact {E} (n : nat) (e : E) (input : list byte) : outcome E (list byte * list byte) :=
  if bool_decide (length input < n)%nat then Err e else Ok (take n input, drop n input).

Definition recv_framed (input : list byte) : outcome exchange_error (list byte * list byte) :=
  r ← read_exact 4 RecvLength input;
  let len := from_be_bytes r.1 in
  if 64 * 1024 <? len then Err (FrameTooLarge len)
  else read_exact (Z.to_nat len) (RecvPayload len) r.2.

Definition send_framed (data : list byte) : list byte :=
  to_be_bytes 4 (Z.of_nat (length data) mod 2 ^ 32) ++ data.

Section exchange.
Context `{Crypto} `{Hkdf} `{Gate} `{Frodo}.

(** What a party writes, and what it returns. *)
Definition run_responder_once (seed input : list byte)
    : list byte * outcome exchange_error NapqesKey :=
  let '(pk, sk) := keygen seed in
  let hello := send_framed pk in
  match (ct ← recv_framed input; map_err DecapsulateFailed (decapsulate_v8 ct.1 sk)) with
  | Ok session_key => (hello ++ [ACK], Ok session_key)
  | Err e => (hello, Err e)
  | Panic p => (hello, Panic p)
  end.

Definition run_initiator_once (seed input : list byte)
    : list byte * outcome exchange_error NapqesKey :=
  match (pk ← recv_framed input;
         r ← map_err EncapsulateFailed (encapsulate_v8 pk.1 seed); Ok (r, pk.2)) with
  | Ok (ct, session_key, input') =>
      (send_framed ct,
       ack ← read_exact 1 AckRecv input';
       if bool_decide (ack.1 = [ACK]) then Ok session_key
       else Err (UnexpectedAck (hd x00 ack.1)))
  | Err e => ([], Err e)
  | Panic p => ([], Panic p)
  end.

(** A connection between the two: each party reads what the other writes. *)
Definition connected (s1 s2 : list byte) (rk ik : outcome exchange_error NapqesKey) : Prop :=
  ∃ to_initiator to_responder,
    run_responder_once s1 to_responder = (to_initiator, rk) ∧
    run_initiator_once s2 to_initiator = (to_responder, ik).

(** The re-keying loops: install the key of a successful exchange, keep the store
    otherwise. *)
Definition rekey_step (r : outcome exchange_error NapqesKey) (store : SessionKeyStore)
    : SessionKeyStore :=
  match r with Ok key => session_insert WILDCARD_DEVICE_ID key store | _ => store end.

Definition run_rekey_loop (rs : list (outcome exchange_error NapqesKey)) (store : SessionKeyStore)
    : SessionKeyStore := foldl (λ s r, rekey_step r s) store rs.
End exchange.

(** ** Framing *)

Lemma recv_send_framed data rest :
  Z.of_nat (length data) ≤ 64 * 1024 → recv_framed (send_framed data ++ rest) = Ok (data, rest).
Proof.
  intros Hl. unfold recv_framed, send_framed, read_exact. rewrite <-app_assoc.
  rewrite bool_decide_eq_false_2 by (rewrite !length_app, length_to_be_bytes; lia). rewrite bind_Ok.
  rewrite take_app_length', drop_app_length' by (by rewrite length_to_be_bytes). cbn [fst snd].
  rewrite Z.mod_small by lia. rewrite from_to_be_bytes by lia.
  rewrite (proj2 (Z.ltb_ge _ _)) by lia. rewrite Nat2Z.id.
  rewrite bool_decide_eq_false_2 by (rewrite length_app; lia).
  by rewrite take_app_length, drop_app_length.
Qed.

Lemma recv_framed_cases input :
  match recv_framed input with
  | Ok (data, rest) => Z.of_nat (length data) ≤ 64 * 1024 ∧ input = send_framed data ++ rest
  | Err _ => True
  | Panic _ => False
  end.
Proof.
  unfold recv_framed, read_exact. case_bool_decide as H4; [done|]. rewrite bind_Ok. cbn [fst snd].
  pose proof (from_be_bytes_range (take 4 input)) as Hr. rewrite length_take in Hr.
  set (len := from_be_bytes (take 4 input)) in *.
  case_if; [done|]. case_bool_decide as Hn; [done|].
  assert (length (take (Z.to_nat len) (drop 4 input)) = Z.to_nat len) as Hl by (rewrite length_take; lia).
  split; [lia|]. unfold send_framed. rewrite Hl.
  rewrite Z.mod_small by lia. rewrite Z2Nat.id by lia. unfold len.
  rewrite to_from_be_bytes' by (rewrite length_take; lia).
  by rewrite <-app_assoc, !take_drop.
Qed.

(** ** The exchange *)

Section agreement.
Context `{Crypto} `{Hkdf} `{Gate} `{Frodo}.
Context (Hgate : gate_open) (Hsizes : frodo640_sizes).

(** The initiator's first message depends only on the responder's greeting. *)
Lemma initiator_after_hello s1 s2 rest :
  match encapsulate_v8 (keygen s1).1 s2 with
  | Ok (ct, key) =>
      run_initiator_once s2 (send_framed (keygen s1).1 ++ rest)
      = (send_framed ct,
         ack ← read_exact 1 AckRecv rest;
         if bool_decide (ack.1 = [ACK]) then Ok key else Err (UnexpectedAck (hd x00 ack.1)))
  | Err _ => False
  | Panic p => run_initiator_once s2 (send_framed (keygen s1).1 ++ rest) = ([], Panic p)
  end.
Proof using Hgate Hsizes.
  pose proof (encapsulate_v8_cases Hgate s1 s2) as Hc.
  destruct (length_frodo_keypair s1) as [Hpk _]. destruct Hsizes as (Hpkl & _ & _).
  unfold run_initiator_once. unfold FRODO_PUBLIC_KEY_SIZE in Hpkl.
  rewrite recv_send_framed, bind_Ok by (unfold keygen; lia). cbn [fst snd].
  destruct (encapsulate_v8 (keygen s1).1 s2) as [[ct key]|e|p]; [done|done|done].
Qed.

(** Every run of a connection is the intended one: the responder's greeting, the
    initiator's ciphertext, the acknowledgement. *)
Lemma connected_cases s1 s2 rk ik :
  connected s1 s2 rk ik →
  match encapsulate_v8 (keygen s1).1 s2 with
  | Ok (_, key) => rk = Ok key ∧ ik = Ok key
  | Err _ => False
  | Panic p => ik = Panic p ∧ rk = Err RecvLength
  end.
Proof using Hgate Hsizes.
  intros (ti & tr & Hr & Hi).
  pose proof (encapsulate_v8_cases Hgate s1 s2) as Hc. destruct Hsizes as (_ & _ & Hctl).
  unfold FRODO_CIPHERTEXT_SIZE in Hctl.
  assert (∃ rest, ti = send_framed (keygen s1).1 ++ rest) as [rest Hti].
  { unfold run_responder_once in Hr. destruct (keygen s1) as [pk sk]. cbn [fst snd].
    destruct (_ ≫= _); injection Hr as <- _; [by eexists|exists []; by rewrite app_nil_r..]. }
  pose proof (initiator_after_hello s1 s2 rest) as Hini. rewrite <-Hti, Hi in Hini.
  unfold run_responder_once in Hr. destruct (keygen s1) as [pk sk] eqn:Hk. cbn [fst snd] in *.
  destruct (encapsulate_v8 pk s2) as [[ct key]|e|p]; [|done|].
  - injection Hini as -> Hik. destruct Hc as (Hd & _ & _ & _ & Hlct).
    rewrite <-(app_nil_r (send_framed ct)) in Hr. rewrite recv_send_framed, bind_Ok in Hr by lia.
    cbn [fst snd] in Hr. rewrite Hd in Hr. cbn [map_err] in Hr. apply pair_equal_spec in Hr as [<- <-].
    split; [done|]. apply app_inv_head in Hti. subst rest ik. done.
  - injection Hini as -> ->. split; [done|]. cbn in Hr. by injection Hr as _ <-.
Qed.

Lemma connected_exists s1 s2 : ∃ rk ik, connected s1 s2 rk ik.
Proof using Hgate Hsizes.
  pose proof (encapsulate_v8_cases Hgate s1 s2) as Hc.
  pose proof (initiator_after_hello s1 s2) as Hini. destruct Hsizes as (_ & _ & Hctl).
  unfold FRODO_CIPHERTEXT_SIZE in Hctl.
  destruct (encapsulate_v8 (keygen s1).1 s2) as [[ct key]|e|p] eqn:He; [|done|].
  - destruct Hc as (Hd & _ & _ & _ & Hlct).
    exists (Ok key), (Ok key), (send_framed (keygen s1).1 ++ [ACK]), (send_framed ct). split.
    + unfold run_responder_once. destruct (keygen s1) as [pk sk]. cbn [fst snd] in *.
      rewrite <-(app_nil_r (send_framed ct)). rewrite recv_send_framed, bind_Ok by lia.
      cbn [fst snd]. by rewrite Hd.
    + by rewrite Hini.
  - exists (Err RecvLength), (Panic p), (send_framed (keygen s1).1), []. split.
    + unfold run_responder_once. by destruct (keygen s1).
    + specialize (Hini []). by rewrite app_nil_r in Hini.
Qed.

Lemma run_rekey_loop_snoc rs r store :
  run_rekey_loop (rs ++ [r]) store = rekey_step r (run_rekey_loop rs store).
Proof using Type. unfold run_rekey_loop. by rewrite foldl_app. Qed.
End agreement.

(** ** Properties *)

(** C10: the exchange establishes one key: on a connection between the two
    parties there is a run, and every run in which the derivation does not
    overflow its counter ends with both sides holding the same validated 13-prime
    key with a 32-byte [sk]; no party reports success without the other. *)
Theorem exchange_agrees `{Crypto} `{Hkdf} `{Gate} `{Frodo} s1 s2 :
  gate_open → frodo640_sizes →
  (∃ rk ik, connected s1 s2 rk ik) ∧
  (∀ rk ik, connected s1 s2 rk ik →
    (∃ key, rk = Ok key ∧ ik = Ok key ∧ valid_key (primes key) ∧ NapqesKey_k key = 13%nat ∧
       length (sk key) = SK_SIZE) ∨
    (ik = Panic PanicOverflow ∧ rk = Err RecvLength)).
Proof.
  intros Hg Hs. split; [by apply connected_exists|]. intros rk ik Hc.
  apply (connected_cases Hg Hs) in Hc. pose proof (encapsulate_v8_cases Hg s1 s2) as He.
  destruct (encapsulate_v8 (keygen s1).1 s2) as [[ct key]|e|p]; [|done|].
  - left. exists key. tauto.
  - right. destruct Hc as [-> ->]. by rewrite He.
Qed.

Lemma exchange_agrees_witness :
  let _ := Toy.crypto in let _ := Toy.hkdf in let _ := Toy.frodo in let _ := default_build in
  frodo640_sizes ∧ ∃ rk ik, connected [x01] [x02] rk ik.
Proof.
  intros C HK F G. assert (gate_open) as Hg by reflexivity.
  assert frodo640_sizes as Hs by (split_and!; reflexivity). split; [exact Hs|].
  destruct (exchange_agrees [x01] [x02] Hg Hs) as [Hex _]. exact Hex.
Defined.
