(* ===== verification/Gateway.v ===== *)
(** * The Legacy Shield gateway ([bin/ls_gateway.rs])

    The handlers of the bump-in-the-wire proxy: ingress wraps the PDUs of legacy
    frames, egress opens envelopes and forwards what they carry. A handler is a
    function of the bytes it reads and of the shared sequence counters; what it
    sends out, to the forward address or to the SIEM, is its list of effects.
    Sockets, timers and logging belong to the runtime. *)
From Stdlib Require Import ZArith Lia Strings.Byte Sorting.Sorted.
From stdpp Require Import base tactics option numbers countable gmap list.
From S2P Require Import Prelude Machine Errors Crates Post Primes Keys Derive Padding Tokens BlockV8.
From S2P Require Modbus Dnp3.
From S2P Require Import OtFrame.

#[local] Open Scope Z_scope.
#[local] Open Scope napqes_scope.

(** ** Effects *)

Inductive siem_event := PARSE_ERR | KEY_MISSING (d : Z) | AUTH_FAIL (d sq : Z).

Inductive effect :=
| Siem (e : siem_event) (severity : Z)
| Forward (data : list byte).

(** The part of the shared state a handler reads; [siem] is false when no SIEM
    address is configured. *)
Record GatewayState (store : Type) := MkGateway { key_store : store; siem : bool }.
Arguments MkGateway {store} _ _.
Arguments key_store {store} _.
Arguments siem {store} _.

(** What a handler did: its effects, the counters after it, and the panic that
    ended its task, if one did. *)
Abbreviation handled := (list effect * SequenceCounter * option panic)%type.

(** The bytes written to a fresh connection to the forward address. *)
Definition forward_envelope (data : list byte) : list byte :=
  to_be_bytes 4 (Z.of_nat (length data) mod 2 ^ 32) ++ data.

(** ** Helpers *)

Definition peek_device_id (buf : list byte) : option Z :=
  if bool_decide (length buf < ENVELOPE_HEADER_SIZE)%nat then None
  else if negb (bool_decide (slice 0 2 buf = ENVELOPE_MAGIC)) then None
  else Some (from_be_bytes (slice 3 11 buf)).

Definition peek_seq (buf : list byte) : option Z :=
  if bool_decide (length buf < ENVELOPE_HEADER_SIZE)%nat then None
  else Some (from_be_bytes (slice 11 19 buf)).

Definition reassemble_modbus (pdu : list byte) : list byte :=
  let hdr := Modbus.MkMbap 0 (Z.of_nat (length pdu) mod 2 ^ 16)
               (match pdu with [] => 0 | b :: _ => byte_to_Z b end) in
  Modbus.reconstruct hdr pdu.

(** What egress forwards for an opened PDU. *)
Definition forward_frame (protocol : ProtocolId) (pdu : list byte) : list byte :=
  match protocol with
  | ModbusTcp => reassemble_modbus pdu
  | Dnp3 => pdu
  end.

(** The largest v8 bucket ciphertext. *)
Definition MAX_BLOB : Z := 48 + 160 * (Z.shiftl 1 16 + 2).

Section gateway.
Context `{Crypto} `{Gate} {store : Type} `{KeyStore store} (state : GatewayState store).

Definition emit_siem (e : siem_event) (severity : Z) : list effect :=
  if siem state then [Siem e severity] else [].

(** ** Ingress *)

(** From a parsed PDU on, the two ingress handlers do the same. *)
Definition ingress_pdu (protocol : ProtocolId) (device_id : Z) (pdu : list byte)
    (counters : SequenceCounter) : handled :=
  match next_seq protocol device_id counters with
  | Ok (sq, counters) =>
      match load (key_store state) device_id with
      | Ok key =>
          match wrap_pdu pdu (MkOtAad protocol device_id sq) key with
          | Ok envelope => ([Forward (forward_envelope envelope)], counters, None)
          | Err _ => ([], counters, None)
          | Panic p => ([], counters, Some p)
          end
      | Err _ => (emit_siem (KEY_MISSING device_id) 7, counters, None)
      | Panic p => ([], counters, Some p)
      end
  | Err _ => ([], counters, None)
  | Panic p => ([], counters, Some p)
  end.

(** One iteration of [handle_ingress_modbus], and of [handle_ingress_dnp3], on the
    bytes one read returned. *)
Definition ingress_modbus (frame : list byte) (counters : SequenceCounter) : handled :=
  match Modbus.extract_pdu frame with
  | Ok (hdr, pdu) => ingress_pdu ModbusTcp (Modbus.unit_id hdr) pdu counters
  | Err _ => (emit_siem PARSE_ERR 5, counters, None)
  | Panic p => ([], counters, Some p)
  end.

Definition ingress_dnp3 (frame : list byte) (counters : SequenceCounter) : handled :=
  match Dnp3.extract_payload frame with
  | Ok (hdr, payload) => ingress_pdu Dnp3 (Dnp3.source hdr) payload counters
  | Err _ => (emit_siem PARSE_ERR 5, counters, None)
  | Panic p => ([], counters, Some p)
  end.

(** Run [handler] on each item, stopping at a panic. *)
Fixpoint run_handler {A} (handler : A → SequenceCounter → handled) (items : list A)
    (counters : SequenceCounter) : handled :=
  match items with
  | [] => ([], counters, None)
  | x :: items' =>
      match handler x counters with
      | (log, counters', Some p) => (log, counters', Some p)
      | (log, counters', None) =>
          let '(log', counters'', p) := run_handler handler items' counters' in
          (log ++ log', counters'', p)
      end
  end.

(** The loop over [stream.read(&mut buf)]: a read of no bytes, or a read error,
    ends it, so the reads of a connection are a list of non-empty chunks. *)
Definition handle_ingress_modbus (reads : list (list byte)) (counters : SequenceCounter) : handled :=
  run_handler ingress_modbus reads counters.
Definition handle_ingress_dnp3 (reads : list (list byte)) (counters : SequenceCounter) : handled :=
  run_handler ingress_dnp3 reads counters.

(** ** Egress *)

(** The body of the egress loop, once an envelope has been read. *)
Definition egress_envelope (protocol : ProtocolId) (envelope : list byte)
    (counters : SequenceCounter) : handled :=
  match peek_device_id envelope with
  | None => (emit_siem PARSE_ERR 5, counters, None)
  | Some device_id =>
      match load (key_store state) device_id with
      | Err _ => (emit_siem (KEY_MISSING device_id) 7, counters, None)
      | Panic p => ([], counters, Some p)
      | Ok key =>
          let seq_from_env := default 0 (peek_seq envelope) in
          match unwrap_pdu envelope key counters with
          | (Ok pdu, counters') =>
              ([Forward (forward_envelope (forward_frame protocol pdu))], counters', None)
          | (Err _, counters') => (emit_siem (AUTH_FAIL device_id seq_from_env) 7, counters', None)
          | (Panic p, counters') => ([], counters', Some p)
          end
      end
  end.

(** One iteration over [(unread input, counters, log)]: read a header, the
    declared number of bytes, then handle the envelope. *)
Definition egress_step (protocol : ProtocolId) (s : list byte * SequenceCounter * list effect)
    : (list byte * SequenceCounter * list effect) + handled :=
  let '(input, counters, log) := s in
  if bool_decide (length input < ENVELOPE_HEADER_SIZE)%nat then inr (log, counters, None)
  else
    let header := take ENVELOPE_HEADER_SIZE input in
    let input := drop ENVELOPE_HEADER_SIZE input in
    let blob_len := from_be_bytes (slice 19 23 header) in
    if MAX_BLOB <? blob_len then inr (log ++ emit_siem PARSE_ERR 5, counters, None)
    else if Z.of_nat (length input) <? blob_len then inr (log, counters, None)
    else
      let envelope := header ++ take (Z.to_nat blob_len) input in
      match egress_envelope protocol envelope counters with
      | (l, counters', Some p) => inr (log ++ l, counters', Some p)
      | (l, counters', None) => inl (drop (Z.to_nat blob_len) input, counters', log ++ l)
      end.

(** Every iteration consumes a header, so [2^64] rounds are never reached. *)
Definition handle_egress (protocol : ProtocolId) (input : list byte) (counters : SequenceCounter)
    : handled :=
  match loop (egress_step protocol) 64 (input, counters, []) with
  | inr r => r
  | inl (_, counters', log) => (log, counters', Some OutOfFuel)
  end.

(** Envelopes of any number of connections, in the order in which their handlers
    run: each handler touches the shared counters once, under their lock. *)
Definition egress_run (envelopes : list (ProtocolId * list byte)) (counters : SequenceCounter)
    : handled :=
  run_handler (λ e, egress_envelope e.1 e.2) envelopes counters.
End gateway.

(** The data a handler forwards. *)
Definition forwards (log : list effect) : list (list byte) :=
  omap (λ e, match e with Forward d => Some d | Siem _ _ => None end) log.

(** ** Key stores *)

(** What a handler relies on: a store answers or refuses, and only hands out valid
    keys. *)
Definition store_ok {store} `{KeyStore store} (s : store) : Prop :=
  ∀ d, match load s d with
       | Ok key => valid_key (primes key)
       | Err _ => True
       | Panic _ => False
       end.

Lemma session_store_ok s :
  store_ok s ↔ ∀ d key, inner s !! d = Some key → valid_key (primes key).
Proof.
  unfold store_ok, load, SessionKeyStore_load. split.
  - intros Hs d key Hd. specialize (Hs d). by rewrite Hd in Hs.
  - intros Hs d. destruct (inner s !! d) as [key|] eqn:Hd; [by eapply Hs|].
    destruct (inner s !! WILDCARD_DEVICE_ID) as [key|] eqn:Hw; [by eapply Hs|done].
Qed.

Lemma session_insert_ok d key s :
  valid_key (primes key) → store_ok s → store_ok (session_insert d key s).
Proof.
  rewrite !session_store_ok. intros Hk Hs d' key'. unfold session_insert. cbn [inner].
  destruct (decide (d' = d)) as [->|Hne].
  - rewrite lookup_insert_eq. by intros [= <-].
  - rewrite lookup_insert_ne by done. apply Hs.
Qed.

Lemma file_store_ok raw s :
  Forall (λ v, Forall (fits 64) (entry_primes v)) raw → load_from_entries raw = Ok s → store_ok s.
Proof.
  intros Hraw Hl d. unfold load_from_entries in Hl.
  apply bind_Ok_inv in Hl as (m & Hm & [= <-]). unfold load, FileKeyStore_load. cbn [data].
  destruct (m !! d) as [key|] eqn:Hd; [|done]. cbn [opt_or].
  by apply (load_entries_valid raw ∅ m Hraw ltac:(by intros ??; rewrite lookup_empty) Hm d).
Qed.

(** ** Egress *)

Lemma forwards_app l1 l2 : forwards (l1 ++ l2) = forwards l1 ++ forwards l2.
Proof. apply omap_app. Qed.

Lemma run_handler_app {A} (handler : A → SequenceCounter → handled) l1 l2 c :
  run_handler handler (l1 ++ l2) c
  = let '(log1, c1, p1) := run_handler handler l1 c in
    match p1 with
    | Some p => (log1, c1, Some p)
    | None => let '(log2, c2, p2) := run_handler handler l2 c1 in (log1 ++ log2, c2, p2)
    end.
Proof.
  revert c. induction l1 as [|x l1 IH]; intros c; cbn [app run_handler].
  - by destruct (run_handler handler l2 c) as [[log2 c2] p2].
  - destruct (handler x c) as [[log c'] [p|]]; [done|]. rewrite IH.
    destruct (run_handler handler l1 c') as [[log1 c1] [p1|]]; [done|].
    destruct (run_handler handler l2 c1) as [[log2 c2] p2]. by rewrite app_assoc.
Qed.

(** What reached the forward address: through which listener, from which device,
    under which number. *)
Record delivery := MkDelivery
  { via : ProtocolId; sender : DeviceKey; number : Z; body : list byte }.

Section egress_lemmas.
Context `{Crypto} `{Gate} {store : Type} `{KeyStore store} (state : GatewayState store).
Context (Hstore : store_ok (key_store state)).

Lemma forwards_siem e sev : forwards (emit_siem state e sev) = [].
Proof using Type. unfold emit_siem. by destruct (siem state). Qed.

Lemma peek_envelope v dv sv lv rest :
  length dv = 8%nat → length sv = 8%nat → length lv = 4%nat →
  peek_device_id (envelope v dv sv lv rest) = Some (from_be_bytes dv) ∧
  peek_seq (envelope v dv sv lv rest) = Some (from_be_bytes sv).
Proof using Type.
  intros Hd Hs Hl. destruct (envelope_slices v dv sv lv rest Hd Hs Hl) as (Hlen & Hmagic & _ & H3 & H11 & _).
  unfold peek_device_id, peek_seq, ENVELOPE_HEADER_SIZE. rewrite Hmagic, H3, H11.
  rewrite bool_decide_eq_false_2 by lia. by rewrite bool_decide_eq_true_2 by done.
Qed.

(** An accepted envelope, in terms of the receiver's own checks. *)
Definition opens (env : list byte) (a : delivery) : Prop :=
  ∃ key, load (key_store state) (sender a).2 = Ok key ∧
    open_envelope env key = Ok ((sender a).1, (sender a).2, number a, body a).

Lemma egress_envelope_cases protocol env c :
  Z.of_nat (length env) ≤ 2 ^ 36 →
  match egress_envelope state protocol env c with
  | (log, c', p) => p = None ∧
      ((∃ a, via a = protocol ∧ opens env a ∧
          log = [Forward (forward_envelope (forward_frame protocol (body a)))] ∧
          last_seen c (sender a) < number a ∧ last_seen c' (sender a) = number a ∧
          ∀ k, k ≠ sender a → last_seen c' k = last_seen c k) ∨
       (forwards log = [] ∧ ∀ k, last_seen c' k = last_seen c k))
  end.
Proof using Hstore.
  intros Hlen. unfold egress_envelope. destruct (peek_device_id env) as [d|] eqn:Hpeek.
  2: { split; [done|right]. split; [apply forwards_siem|done]. }
  pose proof (Hstore d) as Hload. destruct (load (key_store state) d) as [key|e|] eqn:Hk; [| |done].
  2: { split; [done|right]. split; [apply forwards_siem|done]. }
  unfold unwrap_pdu. pose proof (open_envelope_cases env key Hload Hlen) as Ho.
  destruct (open_envelope env key) as [[[[p d'] sq] pdu]|e|pa] eqn:Hopen; [| |done].
  2: { split; [done|right]. split; [apply forwards_siem|done]. }
  destruct Ho as (dv & sv & lv & blob & tail & Henv & Hd & Hs & Hl & _ & Hdd & _).
  assert (d' = d) as ->.
  { destruct (peek_envelope (protocol_u8 p) dv sv lv (blob ++ tail) Hd Hs Hl) as [Hp _].
    rewrite <-Henv, Hpeek in Hp. by injection Hp as ->. }
  pose proof (validate_recv_cases p d sq c) as Hv.
  destruct (validate_recv p d sq c) as [[[]|e|pa] c']; [| |done]; cbn [mbind outcome_bind].
  - split; [done|left]. destruct Hv as (Hlt & Hnew & Hoth & _).
    exists (MkDelivery protocol (p, d) sq pdu). cbn [via sender number body fst snd].
    split_and!; try done. by exists key.
  - split; [done|right]. destruct Hv as (_ & _ & Hoth & _). split; [apply forwards_siem|done].
Qed.

Definition later (a b : delivery) : Prop := sender a = sender b → number a < number b.

Lemma egress_run_cases l c :
  Forall (λ e, Z.of_nat (length e.2) ≤ 2 ^ 36) l →
  match egress_run state l c with
  | (log, c', p) => p = None ∧ ∃ acc,
      forwards log = (λ a, forward_envelope (forward_frame (via a) (body a))) <$> acc ∧
      StronglySorted later acc ∧ Forall (λ a, last_seen c (sender a) < number a) acc ∧
      Forall (λ a, ∃ env, (via a, env) ∈ l ∧ opens env a) acc
  end.
Proof using Hstore.
  intros Hl. revert c. induction Hl as [|[proto env] l Hlen _ IH]; intros c.
  { cbn. split; [done|]. exists []. split_and!; constructor. }
  unfold egress_run in *. cbn [run_handler fst snd] in *.
  pose proof (egress_envelope_cases proto env c Hlen) as He.
  destruct (egress_envelope state proto env c) as [[log c'] p]. destruct He as [-> He].
  specialize (IH c'). destruct (run_handler _ l c') as [[log' c''] p].
  destruct IH as [-> (acc & Hf & Hsort & Habove & Hopen)]. split; [done|].
  assert (Forall (λ a, ∃ env0, (via a, env0) ∈ (proto, env) :: l ∧ opens env0 a) acc) as Hopen'.
  { eapply Forall_impl; [exact Hopen|]. intros a (e & He' & Hoe). exists e. split; [by right|done]. }
  destruct He as [(a & Hvia & Hop & -> & Hlt & Hnew & Hoth)|[Hnil Hsame]].
  - exists (a :: acc). rewrite forwards_app, Hf, fmap_cons, Hvia. split_and!.
    + done.
    + constructor; [done|]. eapply Forall_impl; [exact Habove|].
      intros b Hb Heq. simpl in Hb. rewrite <-Heq, Hnew in Hb. done.
    + constructor; [done|]. eapply Forall_impl; [exact Habove|].
      intros b Hb. simpl in Hb. destruct (decide (sender b = sender a)) as [Heq|Hne].
      * rewrite Heq, Hnew in Hb. rewrite Heq. lia.
      * by rewrite <-Hoth.
    + constructor; [|done]. exists env. split; [rewrite Hvia; left|done].
  - exists acc. rewrite forwards_app, Hnil, Hf. split_and!; try done.
    eapply Forall_impl; [exact Habove|]. intros b Hb. simpl in Hb. by rewrite <-Hsame.
Qed.

(** ** The egress handler, envelope by envelope *)

(** What is logged before a result. *)
Definition logged (l : list effect) (r : handled) : handled := let '(l', c, p) := r in (l ++ l', c, p).

Lemma logged_nil r : logged [] r = r.
Proof using Type. by destruct r as [[l c] p]. Qed.

Lemma logged_app l1 l2 r : logged (l1 ++ l2) r = logged l1 (logged l2 r).
Proof using Type. destruct r as [[l c] p]. unfold logged. by rewrite app_assoc. Qed.

(** A step adds to the log, and a step that goes on consumes a header. *)
Lemma egress_step_log protocol input c log :
  egress_step state protocol (input, c, log)
  = match egress_step state protocol (input, c, []) with
    | inl (rest, c', l) => inl (rest, c', log ++ l)
    | inr r => inr (logged log r)
    end.
Proof using Type.
  unfold egress_step. repeat (case_match; simplify_eq; try done); unfold logged; by rewrite ?app_nil_r.
Qed.

Lemma egress_step_consumes protocol input c log rest c' log' :
  egress_step state protocol (input, c, log) = inl (rest, c', log') → (length rest < length input)%nat.
Proof using Type.
  unfold egress_step, ENVELOPE_HEADER_SIZE. case_bool_decide; [done|]. intros Hs.
  repeat case_match; simplify_eq. rewrite !length_drop. lia.
Qed.

(** The rounds of the loop by recursion on a bound of the unread bytes. *)
Fixpoint egress_rounds (n : nat) (protocol : ProtocolId) (input : list byte) (c : SequenceCounter) : handled :=
  match n with
  | O => ([], c, None)
  | S n =>
      match egress_step state protocol (input, c, []) with
      | inl (rest, c', l) => logged l (egress_rounds n protocol rest c')
      | inr r => r
      end
  end.

Lemma egress_rounds_bound n m protocol input c :
  (length input < n)%nat → (length input < m)%nat → egress_rounds n protocol input c = egress_rounds m protocol input c.
Proof using Type.
  revert m input c. induction n as [|n IH]; intros [|m] input c Hn Hm; try lia. cbn [egress_rounds].
  destruct (egress_step state protocol (input, c, [])) as [[[rest c'] l]|r] eqn:Hs; [|done].
  apply egress_step_consumes in Hs. f_equal. apply IH; lia.
Qed.

Lemma handle_egress_rounds protocol input c : Z.of_nat (length input) < 2 ^ 60 →
  handle_egress state protocol input c = egress_rounds (S (length input)) protocol input c.
Proof using Type.
  intros Hin. unfold handle_egress.
  destruct (loop_total (egress_step state protocol)
    (λ s, logged s.2 (egress_rounds (S (length s.1.1)) protocol s.1.1 s.1.2) = egress_rounds (S (length input)) protocol input c)
    (λ s, Z.of_nat (length s.1.1)) (λ r, r = egress_rounds (S (length input)) protocol input c)) with (k := 64%nat) (s := (input, c, @nil effect))
    as (r & -> & ->); [|apply logged_nil|intros; lia|cbn [fst]; lia|done].
  intros [[rest c1] log] Heq. cbn [fst snd] in *. rewrite egress_step_log. rewrite <-Heq. cbn [egress_rounds].
  destruct (egress_step state protocol (rest, c1, [])) as [[[rest' c'] l]|r] eqn:Hs; [|done].
  apply egress_step_consumes in Hs. cbn [fst snd]. split; [|lia]. rewrite logged_app. do 2 f_equal.
  apply (egress_rounds_bound (S (length rest')) (length rest)); lia.
Qed.

(** The loop, one envelope at a time. *)
Lemma handle_egress_unfold protocol input c : Z.of_nat (length input) < 2 ^ 60 →
  handle_egress state protocol input c
  = match egress_step state protocol (input, c, []) with
    | inl (rest, c', l) => logged l (handle_egress state protocol rest c')
    | inr r => r
    end.
Proof using Type.
  intros Hin. rewrite handle_egress_rounds by done. cbn [egress_rounds].
  destruct (egress_step state protocol (input, c, [])) as [[[rest c'] l]|r] eqn:Hs; [|done].
  apply egress_step_consumes in Hs. rewrite handle_egress_rounds by lia. f_equal. apply egress_rounds_bound; lia.
Qed.

(** A connection is a run over the envelopes its bytes spell. *)
Lemma handle_egress_run protocol input c :
  Z.of_nat (length input) < 2 ^ 60 →
  ∃ envs leftover tail, input = concat envs ++ leftover ∧
    Forall (λ e, Z.of_nat (length e) ≤ 23 + MAX_BLOB) envs ∧ forwards tail = [] ∧
    handle_egress state protocol input c
    = let '(log, c', p) := egress_run state (pair protocol <$> envs) c in (log ++ tail, c', p).
Proof using Hstore.
  intros Hin.
  assert (∃ r, loop (egress_step state protocol) 64 (input, c, []) = inr r ∧
    ∃ envs leftover tail, input = concat envs ++ leftover ∧
      Forall (λ e, Z.of_nat (length e) ≤ 23 + MAX_BLOB) envs ∧ forwards tail = [] ∧
      r = let '(log, c', p) := egress_run state (pair protocol <$> envs) c in (log ++ tail, c', p))
    as (r & Hr & Hex).
  2: { destruct Hex as (envs & left & tail & ? & ? & ? & ->). exists envs, left, tail.
       unfold handle_egress. by rewrite Hr. }
  apply (loop_total (egress_step state protocol)
    (λ s, ∃ envs, input = concat envs ++ s.1.1 ∧
       Forall (λ e, Z.of_nat (length e) ≤ 23 + MAX_BLOB) envs ∧
       egress_run state (pair protocol <$> envs) c = (s.2, s.1.2, None))
    (λ s, Z.of_nat (length s.1.1))).
  - intros [[rest c1] log] (envs & Hinp & Henvs & Hrun). cbn [fst snd] in *.
    assert (Hstop : ∀ tail, forwards tail = [] → ∃ envs leftover tail0,
      input = concat envs ++ leftover ∧
      Forall (λ e, Z.of_nat (length e) ≤ 23 + MAX_BLOB) envs ∧ forwards tail0 = [] ∧
      (log ++ tail, c1, @None panic)
      = let '(log, c', p) := egress_run state (pair protocol <$> envs) c in (log ++ tail0, c', p)).
    { intros tail Ht. exists envs, rest, tail. by rewrite Hrun. }
    unfold egress_step, ENVELOPE_HEADER_SIZE. case_bool_decide as H23.
    { specialize (Hstop [] eq_refl). by rewrite app_nil_r in Hstop. }
    set (blob_len := from_be_bytes (slice 19 23 (take 23 rest))).
    pose proof (from_be_bytes_range (slice 19 23 (take 23 rest))) as Hb. fold blob_len in Hb.
    destruct (Z.ltb_spec MAX_BLOB blob_len); [apply Hstop, forwards_siem|].
    destruct (Z.ltb_spec (Z.of_nat (length (drop 23 rest))) blob_len).
    { specialize (Hstop [] eq_refl). by rewrite app_nil_r in Hstop. }
    set (env := take 23 rest ++ take (Z.to_nat blob_len) (drop 23 rest)).
    assert (Z.of_nat (length env) = 23 + blob_len) as Hel.
    { unfold env. rewrite length_app, !length_take. lia. }
    assert (Z.of_nat (length env) ≤ 2 ^ 36) as Hel36.
    { unfold MAX_BLOB in *. change (Z.shiftl 1 16) with (2 ^ 16) in *. lia. }
    assert (input = concat (envs ++ [env]) ++ drop (Z.to_nat blob_len) (drop 23 rest)) as Hinp'.
    { rewrite concat_app. cbn [concat]. rewrite app_nil_r, Hinp, <-!app_assoc. f_equal.
      unfold env. by rewrite <-app_assoc, !take_drop. }
    assert (Forall (λ e, Z.of_nat (length e) ≤ 23 + MAX_BLOB) (envs ++ [env])) as Henvs'.
    { apply Forall_app_2; [done|]. constructor; [simpl; lia|constructor]. }
    pose proof (egress_envelope_cases protocol env c1 Hel36) as He.
    assert (egress_run state (pair protocol <$> (envs ++ [env])) c
            = let '(l, c2, p) := egress_envelope state protocol env c1 in (log ++ l, c2, p)) as Hrun'.
    { rewrite fmap_app. unfold egress_run in *. rewrite run_handler_app, Hrun. cbn [fmap list_fmap run_handler fst snd].
      destruct (egress_envelope state protocol env c1) as [[l c2] [p|]]; by rewrite ?app_nil_r. }
    destruct (egress_envelope state protocol env c1) as [[l c2] p]. destruct He as [-> _].
    cbn [fst snd]. split; [|rewrite !length_drop; lia]. exists (envs ++ [env]). done.
  - exists []. cbn [fst snd]. split_and!; [done|constructor|done].
  - intros s' _. lia.
  - cbn [fst]. lia.
Qed.
End egress_lemmas.

(** ** From ingress to egress *)

Section end_to_end.
Context `{Crypto} `{Gate} {store : Type} `{KeyStore store} (state : GatewayState store).
Context (Hgate : gate_open).

Lemma wrap_pdu_size key pdu aad env :
  valid_key (primes key) → wrap_pdu pdu aad key = Ok env → Z.of_nat (length env) ≤ 23 + MAX_BLOB.
Proof using Hgate.
  intros Hkey Hw. unfold gate_open in Hgate. unfold wrap_pdu, encrypt_bytes_v8_key in Hw.
  rewrite Hgate, bind_Ok in Hw.
  pose proof (encrypt_core_cases (primes key) (valid_key_arith _ Hkey) (sk key) (byte_to_Z <$> pdu)
    (to_bytes aad) Bucket (latin1_ok pdu) I) as Hc. cbn zeta in Hc.
  destruct (encrypt_bytes_v8_core _ _ _ _ _) as [blob|e|]; [|done|done].
  destruct Hc as (B & HB & Hlen & _).
  destruct (block_size_bound Bucket (Z.of_nat (length (byte_to_Z <$> pdu))) B ltac:(lia) I HB) as ([_ HB16] & _).
  cbn [map_err] in Hw. rewrite bind_Ok in Hw. apply (f_equal (from_ok [])) in Hw. cbn [from_ok] in Hw.
  rewrite <-Hw, !length_app, !length_to_be_bytes. cbn [ENVELOPE_MAGIC length].
  unfold MAX_BLOB. change (Z.shiftl 1 16) with (2 ^ 16). lia.
Qed.

Lemma ingress_pdu_Ok protocol d pdu c key :
  load (key_store state) d = Ok key → valid_key (primes key) → Z.of_nat (length pdu) < 2 ^ 16 →
  fits 64 d → 0 ≤ last_sent c (protocol, d) < 2 ^ 64 - 1 →
  let sq := last_sent c (protocol, d) + 1 in
  ∃ env c', ingress_pdu state protocol d pdu c = ([Forward (forward_envelope env)], c', None) ∧
    wrap_pdu pdu (MkOtAad protocol d sq) key = Ok env ∧
    open_envelope env key = Ok (protocol, d, sq, pdu) ∧
    last_sent c' (protocol, d) = sq ∧ recv_state c' = recv_state c.
Proof using Hgate.
  intros Hload Hkey Hlen Hd Hc sq. unfold ingress_pdu.
  pose proof (next_seq_cases protocol d c) as Hn.
  destruct (next_seq protocol d c) as [[v c']|e|p]; [|done|lia].
  destruct Hn as (-> & Hlt & Hnew & _ & Hrecv). fold sq in Hnew |- *.
  rewrite Hload. pose proof (wrap_pdu_cases key pdu (MkOtAad protocol d sq) Hgate Hkey) as Hw.
  destruct (wrap_pdu pdu (MkOtAad protocol d sq) key) as [env|e|] eqn:Hwrap; [|lia|done].
  exists env, c'. split_and!; try done. destruct Hw as (blob & Hdec & Hbl & ->).
  cbn [OtFrame.protocol device_id seq] in *. rewrite <-(app_nil_r blob) at 2.
  rewrite open_envelope_eq; [|apply length_to_be_bytes..|apply from_to_be_bytes; lia].
  assert (fits 64 sq) as Hsq by (unfold fits, sq; lia).
  cbv zeta. rewrite !from_to_be_bytes by done. rewrite Hdec. cbn [map_err].
  by rewrite bind_Ok, collect_latin1, bind_Ok.
Qed.

Lemma first_byte_small L : 0 ≤ L < 2 ^ 24 → ∃ b c d, to_be_bytes 4 L = [x00; b; c; d].
Proof using Type.
  intros HL. cbn [to_be_bytes app]. exists (byte_of_Z (L / 256 / 256)), (byte_of_Z (L / 256)), (byte_of_Z L).
  rewrite !Z.div_div by lia. rewrite (Z.div_small L) by lia. done.
Qed.

(** Egress reads the length prefix of a forwarded envelope as the start of a
    header: the low half of the sequence number stands where it expects the length of the
    sealed bytes. *)
Lemma egress_step_prefixed protocol v d sq lv blob c :
  let env := envelope v (to_be_bytes 8 d) (to_be_bytes 8 sq) lv blob in
  let n := sq mod 2 ^ 32 in
  length lv = 4%nat → Z.of_nat (length env) ≤ 23 + MAX_BLOB →
  egress_step state protocol (forward_envelope env, c, [])
  = if MAX_BLOB <? n then inr (emit_siem state PARSE_ERR 5, c, None)
    else if Z.of_nat (length env) - 19 <? n then inr ([], c, None)
    else inl (drop (19 + Z.to_nat n) env, c, emit_siem state PARSE_ERR 5).
Proof using Type.
  intros env n Hl Hlen.
  assert (length env = 23 + length blob)%nat as Hel by (by apply envelope_slices; rewrite ?length_to_be_bytes).
  unfold MAX_BLOB in Hlen. change (Z.shiftl 1 16) with (2 ^ 16) in Hlen.
  unfold forward_envelope. rewrite Z.mod_small by lia.
  destruct (first_byte_small (Z.of_nat (length env)) ltac:(lia)) as (b1 & b2 & b3 & Hlb). rewrite Hlb.
  set (front := [x00; b1; b2; b3] ++ ENVELOPE_MAGIC ++ [v] ++ to_be_bytes 8 d ++ to_be_bytes 4 (sq / 256 ^ Z.of_nat 4)).
  assert (length front = 19%nat) as Hf by (unfold front; rewrite !length_app, !length_to_be_bytes; done).
  assert ([x00; b1; b2; b3] ++ env = (front ++ to_be_bytes 4 sq) ++ lv ++ blob) as Hsplit.
  { unfold env, envelope, front. change (to_be_bytes 8 sq) with (to_be_bytes (4 + 4) sq).
    rewrite to_be_bytes_app. by rewrite <-!app_assoc. }
  assert (length (front ++ to_be_bytes 4 sq) = 23%nat) as Hh by (by rewrite length_app, Hf, length_to_be_bytes).
  unfold egress_step, ENVELOPE_HEADER_SIZE. rewrite bool_decide_eq_false_2 by (rewrite Hsplit, length_app; lia).
  assert (take 23 ([x00; b1; b2; b3] ++ env) = front ++ to_be_bytes 4 sq) as -> by (rewrite Hsplit; by apply take_app_length').
  replace (drop 23 ([x00; b1; b2; b3] ++ env)) with (drop 19 env) by done.
  assert (from_be_bytes (slice 19 23 (front ++ to_be_bytes 4 sq)) = n) as ->.
  { unfold slice. rewrite drop_app_length' by done. rewrite firstn_all2 by (by rewrite length_to_be_bytes).
    apply from_to_be_bytes_mod. }
  cbn [app]. destruct (MAX_BLOB <? n); [done|].
  replace (Z.of_nat (length (drop 19 env))) with (Z.of_nat (length env) - 19) by (rewrite length_drop; lia).
  destruct (_ <? n); [done|]. unfold egress_envelope.
  assert (peek_device_id ((front ++ to_be_bytes 4 sq) ++ take (Z.to_nat n) (drop 19 env)) = None) as ->.
  { unfold peek_device_id. case_bool_decide; [done|].
    rewrite bool_decide_eq_false_2; [done|]. unfold front, slice. cbn. discriminate. }
  by rewrite drop_drop.
Qed.

(** Without the prefix the envelope is delivered. *)
Lemma egress_step_plain protocol key env p d sq pdu rest c log :
  load (key_store state) d = Ok key → valid_key (primes key) →
  Z.of_nat (length env) ≤ 23 + MAX_BLOB →
  open_envelope env key = Ok (p, d, sq, pdu) →
  (∃ lv blob dv sv, env = envelope (protocol_u8 p) dv sv lv blob ∧ length dv = 8%nat ∧
     length sv = 8%nat ∧ length lv = 4%nat ∧ from_be_bytes lv = Z.of_nat (length blob)) →
  last_seen c (p, d) < sq →
  ∃ c', egress_step state protocol (env ++ rest, c, log)
        = inl (rest, c', log ++ [Forward (forward_envelope (forward_frame protocol pdu))]) ∧
    last_seen c' (p, d) = sq.
Proof using Type.
  intros Hload Hkey Hlen Hopen (lv & blob & dv & sv & Henv & Hdl & Hsl & Hll & Hlv) Hlast.
  destruct (envelope_slices (protocol_u8 p) dv sv lv blob Hdl Hsl Hll) as (Hel & _ & _ & _ & _ & H19 & Hdrop).
  destruct (peek_envelope (protocol_u8 p) dv sv lv blob Hdl Hsl Hll) as [Hpeek _].
  rewrite <-Henv in *.
  assert (Z.of_nat (length env) ≤ 2 ^ 36) as Hl36.
  { unfold MAX_BLOB in *. change (Z.shiftl 1 16) with (2 ^ 16) in *. lia. }
  pose proof (open_envelope_cases env key Hkey Hl36) as Ho. rewrite Hopen in Ho.
  destruct Ho as (dv' & sv' & lv' & blob' & tail & Henv' & Hdl' & Hsl' & Hll' & _ & Hd & Hs & _).
  assert (from_be_bytes dv = d) as Hdv.
  { destruct (peek_envelope (protocol_u8 p) dv' sv' lv' (blob' ++ tail) Hdl' Hsl' Hll') as [Hp' _].
    rewrite <-Henv', Hpeek in Hp'. injection Hp' as ->. done. }
  unfold egress_step, ENVELOPE_HEADER_SIZE. rewrite bool_decide_eq_false_2 by (rewrite length_app; lia).
  rewrite take_app_le by lia. rewrite drop_app_le by lia.
  assert (slice 19 23 (take 23 env) = lv) as ->.
  { unfold slice. rewrite skipn_firstn_comm, take_take, Nat.min_id. exact H19. }
  rewrite Hdrop, Hlv. rewrite (proj2 (Z.ltb_ge MAX_BLOB _)) by lia.
  rewrite (proj2 (Z.ltb_ge (Z.of_nat (length (blob ++ rest))) _)) by (rewrite length_app; lia).
  rewrite Nat2Z.id, take_app_length, drop_app_length. rewrite <-Hdrop, take_drop.
  unfold egress_envelope. rewrite Hpeek, Hdv, Hload. unfold unwrap_pdu. rewrite Hopen.
  pose proof (validate_recv_cases p d sq c) as Hv.
  destruct (validate_recv p d sq c) as [[[]|e|pa] c']; [|lia|done]; cbn [mbind outcome_bind].
  destruct Hv as (_ & Hnew & _). by exists c'.
Qed.
(** An envelope a sender made, for a receiver that has seen no number as high. *)
Definition sent_envelope (key : NapqesKey) (p : ProtocolId) (d : Z) (env : list byte) (sq : Z) (pdu : list byte) : Prop :=
  Z.of_nat (length env) ≤ 23 + MAX_BLOB ∧ open_envelope env key = Ok (p, d, sq, pdu) ∧
  ∃ lv blob, env = envelope (protocol_u8 p) (to_be_bytes 8 d) (to_be_bytes 8 sq) lv blob ∧ length lv = 4%nat ∧
    from_be_bytes lv = Z.of_nat (length blob).

(** The envelopes of consecutive numbers, each with its PDU. *)
Fixpoint sent_from (key : NapqesKey) (p : ProtocolId) (d sq : Z) (envs pdus : list (list byte)) : Prop :=
  match envs, pdus with
  | [], [] => True
  | env :: envs, pdu :: pdus => sent_envelope key p d env sq pdu ∧ sent_from key p d (sq + 1) envs pdus
  | _, _ => False
  end.

(** Ingress seals the PDUs of a device under consecutive numbers. *)
Lemma ingress_run_sent protocol d key pdus cs :
  load (key_store state) d = Ok key → valid_key (primes key) → fits 64 d →
  Forall (λ pdu, Z.of_nat (length pdu) < 2 ^ 16) pdus →
  0 ≤ last_sent cs (protocol, d) → last_sent cs (protocol, d) + Z.of_nat (length pdus) < 2 ^ 64 →
  ∃ envs cs', run_handler (ingress_pdu state protocol d) pdus cs
      = ((λ env, Forward (forward_envelope env)) <$> envs, cs', None) ∧
    last_sent cs' (protocol, d) = last_sent cs (protocol, d) + Z.of_nat (length pdus) ∧
    sent_from key protocol d (last_sent cs (protocol, d) + 1) envs pdus.
Proof using Hgate.
  intros Hload Hkey Hd Hpdus. revert cs. induction Hpdus as [|pdu pdus Hlen _ IH]; intros cs Hpos Hsent; cbn [length] in Hsent.
  { exists [], cs. cbn. split_and!; [done|lia|done]. }
  destruct (ingress_pdu_Ok protocol d pdu cs key Hload Hkey Hlen Hd ltac:(lia)) as (env & cs1 & Hin & Hwrap & Hopen & Hnew & _).
  destruct (IH cs1 ltac:(lia) ltac:(lia)) as (envs & cs' & Hrun & Hlast & Hfrom).
  exists (env :: envs), cs'. cbn [run_handler]. rewrite Hin, Hrun. split_and!; [done|cbn [length]; lia|].
  cbn [sent_from]. rewrite Hnew in Hfrom. split; [|done]. split; [by eapply wrap_pdu_size|]. split; [done|].
  pose proof (wrap_pdu_cases key pdu (MkOtAad protocol d (last_sent cs (protocol, d) + 1)) Hgate Hkey) as Hw.
  rewrite Hwrap in Hw. destruct Hw as (blob & _ & Hbl & ->). cbn [OtFrame.protocol device_id seq].
  eexists _, blob. split_and!; [done|apply length_to_be_bytes|apply from_to_be_bytes; lia].
Qed.

(** Egress forwards the PDUs of bare envelopes in their order, then goes on. *)
Lemma handle_egress_sent protocol d key envs pdus sq rest c :
  load (key_store state) d = Ok key → valid_key (primes key) → sent_from key protocol d sq envs pdus →
  last_seen c (protocol, d) < sq → Z.of_nat (length (concat envs ++ rest)) < 2 ^ 60 →
  ∃ c', handle_egress state protocol (concat envs ++ rest) c
      = logged ((λ pdu, Forward (forward_envelope (forward_frame protocol pdu))) <$> pdus) (handle_egress state protocol rest c') ∧
    (pdus = [] → c' = c) ∧ (pdus ≠ [] → last_seen c' (protocol, d) = sq + Z.of_nat (length pdus) - 1).
Proof using Type.
  intros Hload Hkey. revert pdus sq c. induction envs as [|env envs IH]; intros [|pdu pdus] sq c Hfrom Hlast Hn; try done.
  { exists c. cbn [concat app fmap list_fmap]. by rewrite logged_nil. }
  destruct Hfrom as [(Hlen & Hopen & lv & blob & Henv & Hlv & Hb) Hfrom]. cbn [concat] in Hn |- *. rewrite <-app_assoc in Hn |- *.
  destruct (egress_step_plain protocol key env protocol d sq pdu (concat envs ++ rest) c [] Hload Hkey Hlen Hopen) as (c1 & Hstep & Hseen);
    [|done|].
  { exists lv, blob, (to_be_bytes 8 d), (to_be_bytes 8 sq). by rewrite !length_to_be_bytes. }
  rewrite handle_egress_unfold, Hstep by done. rewrite length_app in Hn.
  destruct (IH pdus (sq + 1) c1 Hfrom ltac:(lia) ltac:(lia)) as (c' & -> & Hnil & Hcons). exists c'.
  split; [by rewrite fmap_cons, <-logged_app|]. split; [done|]. intros _. cbn [length].
  destruct pdus as [|pdu' pdus]; [rewrite Hnil, Hseen by done; cbn [length]; lia|]. rewrite Hcons by done. cbn [length]. lia.
Qed.

Lemma sent_from_lookup key p d sq envs pdus k env :
  sent_from key p d sq envs pdus → envs !! k = Some env → ∃ pdu, sent_envelope key p d env (sq + Z.of_nat k) pdu.
Proof using Type.
  revert sq pdus k. induction envs as [|e envs IH]; intros sq [|pdu pdus] [|k] Hfrom Hk; try done.
  - injection Hk as <-. exists pdu. rewrite Z.add_0_r. apply Hfrom.
  - destruct (IH (sq + 1) pdus k (proj2 Hfrom) Hk) as [pdu' Hs]. exists pdu'.
    by replace (sq + Z.of_nat (S k)) with (sq + 1 + Z.of_nat k) by lia.
Qed.

Lemma sent_from_length key p d sq envs pdus : sent_from key p d sq envs pdus → length envs = length pdus.
Proof using Type.
  revert sq pdus. induction envs as [|e envs IH]; intros sq [|pdu pdus] Hfrom; try done.
  cbn [length]. f_equal. apply (IH (sq + 1)), Hfrom.
Qed.

(** The connection an ingress gateway opens for one envelope. *)
Lemma handle_egress_prefixed protocol key d env sq pdu c : sent_envelope key protocol d env sq pdu →
  let n := sq mod 2 ^ 32 in
  handle_egress state protocol (forward_envelope env) c
  = if MAX_BLOB <? n then (emit_siem state PARSE_ERR 5, c, None)
    else if Z.of_nat (length env) - 19 <? n then ([], c, None)
    else logged (emit_siem state PARSE_ERR 5) (handle_egress state protocol (drop (19 + Z.to_nat n) env) c).
Proof using Type.
  intros (Hlen & _ & lv & blob & Henv & Hlv & _) n.
  assert (Z.of_nat (length (forward_envelope env)) < 2 ^ 60) as Hn.
  { unfold forward_envelope, MAX_BLOB in *. change (Z.shiftl 1 16) with (2 ^ 16) in Hlen.
    rewrite length_app, length_to_be_bytes. lia. }
  rewrite handle_egress_unfold by done. rewrite Henv in Hlen |- *. rewrite egress_step_prefixed by done. fold n.
  destruct (MAX_BLOB <? n); [done|]. by destruct (_ <? n).
Qed.
End end_to_end.

(** ** Properties *)

(** Egress forwards authenticated, fresh PDUs and nothing else: however the
    envelopes of any number of connections interleave, no handler panics, and what
    reaches the forward address is, in order, one frame per delivery, where each
    delivery is an envelope of the run that opens under the key the store holds for
    its device, and the sequence numbers of a device strictly increase, above every
    number seen before; a connection's bytes are handled as the run of envelopes
    they spell. *)
Theorem egress_forwards_authenticated `{Crypto} `{Gate} {store} `{KeyStore store}
    (state : GatewayState store) envelopes c :
  store_ok (key_store state) → Forall (λ e, Z.of_nat (length e.2) ≤ 2 ^ 36) envelopes →
  (let '(log, c', p) := egress_run state envelopes c in
   p = None ∧ ∃ acc,
     forwards log = (λ a, forward_envelope (forward_frame (via a) (body a))) <$> acc ∧
     StronglySorted later acc ∧ Forall (λ a, last_seen c (sender a) < number a) acc ∧
     Forall (λ a, ∃ env, (via a, env) ∈ envelopes ∧ opens state env a) acc) ∧
  (∀ protocol input, Z.of_nat (length input) < 2 ^ 60 →
     ∃ envs leftover tail, input = concat envs ++ leftover ∧ forwards tail = [] ∧
       handle_egress state protocol input c
       = let '(log, c', p) := egress_run state (pair protocol <$> envs) c in (log ++ tail, c', p)).
Proof.
  intros Hs Hl. split; [by apply egress_run_cases|]. intros protocol input Hin.
  destruct (handle_egress_run state Hs protocol input c Hin) as (envs & left & tail & ? & _ & ? & ?).
  by exists envs, left, tail.
Qed.

Lemma egress_forwards_authenticated_witness :
  let _ := Toy.crypto in let _ := default_build in
  let state := MkGateway (MkSessionStore {[ 9 := MkNapqesKey sample_key (replicate 32 x07) ]}) true in
  let envelopes := [(ModbusTcp, envelope x01 (to_be_bytes 8 9) (to_be_bytes 8 1) (to_be_bytes 4 3) [x00; x00; x00])] in
  store_ok (key_store state) ∧
  (egress_run state envelopes SequenceCounter_new).2 = None.
Proof.
  intros C G state envelopes.
  assert (store_ok (key_store state)) as Hs.
  { apply session_store_ok. intros d key. unfold state. cbn [key_store inner].
    intros [<- <-]%lookup_singleton_Some. apply sample_key_valid. }
  split; [exact Hs|].
  assert (Forall (λ e : ProtocolId * list byte, Z.of_nat (length e.2) ≤ 2 ^ 36) envelopes) as Hl
    by (repeat constructor; simpl; lia).
  destruct (egress_forwards_authenticated state envelopes SequenceCounter_new Hs Hl) as [Hr _].
  destruct (egress_run state envelopes SequenceCounter_new) as [[log c'] p]. exact (proj1 Hr).
Defined.

(** C20: end to end, ingress and egress agree on envelopes but not on framing. For the
    PDUs, each below 65536 bytes, of a device both sides hold a key for, ingress sends one
    envelope each, in order, behind a 4-byte length. An egress handler that reads the bare
    envelopes, and then whatever follows, forwards exactly these PDUs in this order before
    it handles the rest, and has then seen the last number sent. But an egress handler that
    reads the bytes of a connection as they were sent takes the length for the start of a
    header: the low 32 bits of the sequence number are then the length of the sealed bytes;
    a number above the largest ciphertext is reported as a parse error and ends the
    connection, one above what is left ends it without a report, and any other costs a
    parse error and that many bytes of the envelope, after which the handler goes on in the
    middle of it; the counters it leaves these bytes with are the ones it had. *)
Theorem gateway_end_to_end `{Crypto} `{Gate} {store store'} `{KeyStore store} `{KeyStore store'}
    (sender : GatewayState store) (receiver : GatewayState store') protocol d pdus key cs cr :
  gate_open → load (key_store sender) d = Ok key → load (key_store receiver) d = Ok key →
  valid_key (primes key) → fits 64 d → Forall (λ pdu, Z.of_nat (length pdu) < 2 ^ 16) pdus →
  let sent := last_sent cs (protocol, d) in
  0 ≤ sent → sent + Z.of_nat (length pdus) < 2 ^ 64 → last_seen cr (protocol, d) ≤ sent →
  ∃ envs cs', run_handler (ingress_pdu sender protocol d) pdus cs
      = ((λ env, Forward (forward_envelope env)) <$> envs, cs', None) ∧
    length envs = length pdus ∧ last_sent cs' (protocol, d) = sent + Z.of_nat (length pdus) ∧
    (∀ rest, Z.of_nat (length (concat envs ++ rest)) < 2 ^ 60 →
       ∃ cr', handle_egress receiver protocol (concat envs ++ rest) cr
           = logged ((λ pdu, Forward (forward_envelope (forward_frame protocol pdu))) <$> pdus)
               (handle_egress receiver protocol rest cr') ∧
         (pdus ≠ [] → last_seen cr' (protocol, d) = last_sent cs' (protocol, d))) ∧
    (∀ k env c, envs !! k = Some env →
       let n := (sent + 1 + Z.of_nat k) mod 2 ^ 32 in
       handle_egress receiver protocol (forward_envelope env) c
       = if MAX_BLOB <? n then (emit_siem receiver PARSE_ERR 5, c, None)
         else if Z.of_nat (length env) - 19 <? n then ([], c, None)
         else logged (emit_siem receiver PARSE_ERR 5)
                (handle_egress receiver protocol (drop (19 + Z.to_nat n) env) c)).
Proof.
  intros Hg Hload Hload' Hkey Hd Hpdus sent Hpos Hsent Hseen.
  destruct (ingress_run_sent sender Hg protocol d key pdus cs Hload Hkey Hd Hpdus Hpos Hsent)
    as (envs & cs' & Hrun & Hlast & Hfrom). fold sent in Hlast, Hfrom.
  exists envs, cs'. split_and!; [done|by eapply sent_from_length|done| |].
  - intros rest Hn.
    destruct (handle_egress_sent receiver protocol d key envs pdus (sent + 1) rest cr Hload' Hkey Hfrom ltac:(lia) Hn)
      as (cr' & Heq & _ & Hcr). exists cr'. split; [done|]. intros Hne. rewrite Hcr by done. lia.
  - intros k env c Hk n. destruct (sent_from_lookup key protocol d (sent + 1) envs pdus k env Hfrom Hk) as [pdu Henv].
    by apply (handle_egress_prefixed receiver protocol key d env _ pdu c).
Qed.

Lemma gateway_end_to_end_witness :
  let _ := Toy.crypto in let _ := default_build in
  let key := MkNapqesKey sample_key (replicate 32 x07) in
  let state := MkGateway (MkSessionStore {[ WILDCARD_DEVICE_ID := key ]}) true in
  let c := SequenceCounter_new in
  load (key_store state) 9 = Ok key ∧
  ∃ e1 e2 cs', run_handler (ingress_pdu state ModbusTcp 9) [[x09; x03]; [x09; x06; x01]] c
      = ([Forward (forward_envelope e1); Forward (forward_envelope e2)], cs', None) ∧
    last_sent cs' (ModbusTcp, 9) = 2 ∧
    (Z.of_nat (length (concat [e1; e2] ++ [])) < 2 ^ 60 →
     ∃ cr', handle_egress state ModbusTcp (concat [e1; e2] ++ []) c
         = logged ((λ pdu, Forward (forward_envelope (forward_frame ModbusTcp pdu))) <$> [[x09; x03]; [x09; x06; x01]])
             (handle_egress state ModbusTcp [] cr') ∧
       last_seen cr' (ModbusTcp, 9) = 2).
Proof.
  intros C G key state c. assert (gate_open) as Hg by reflexivity.
  assert (load (key_store state) 9 = Ok key) as Hl by (vm_compute; reflexivity).
  split; [exact Hl|].
  assert (last_sent c (ModbusTcp, 9) = 0) as Hz by reflexivity.
  assert (last_seen c (ModbusTcp, 9) = 0) as Hy by reflexivity.
  destruct (gateway_end_to_end state state ModbusTcp 9 [[x09; x03]; [x09; x06; x01]] key c c Hg Hl Hl sample_key_valid)
    as (envs & cs' & Hrun & Hlen & Hlast & Hrest & _);
    [unfold fits; lia|repeat constructor; simpl; lia|lia|simpl; lia|lia|].
  destruct envs as [|e1 [|e2 [|e3 envs]]]; try discriminate Hlen. rewrite Hz in Hlast.
  exists e1, e2, cs'. split; [exact Hrun|]. split; [exact Hlast|]. intros Hn.
  destruct (Hrest [] Hn) as (cr' & Heq & Hseen). exists cr'. split; [exact Heq|].
  rewrite Hseen by discriminate. exact Hlast.
Defined.
