(* ===== verification/KatVectors.v ===== *)
(** * Known-answer vectors ([self_test.rs])

    The constants the power-on self-tests compare against, transcribed from the
    source; hexadecimal constants stay text, as there. *)
From Stdlib Require Import ZArith Strings.Byte Strings.String Strings.Ascii.
From stdpp Require Import base list.
From S2P Require Import Prelude Machine.

#[local] Open Scope Z_scope.

(** A string literal as the list of its codepoints. *)
Definition str (s : string) : list Z :=
  (λ a, Z.of_nat (nat_of_ascii a)) <$> list_ascii_of_string s.

(** [concat!(..)]. *)
Definition concat_str (parts : list string) : list Z := concat (str <$> parts).

Definition KAT_KEY : list Z := [1000003; 1000033; 1000037; 1000039].
Definition KAT_NONCE : list byte := [
   x9c; x6c; x0b; x92; x1a; x83; x84; x9c; xdb; xf2; xfe; x7e; xfb; x74; x3f; xe9].
Definition KAT_MESSAGE : list Z := str "A".

Definition KAT_CIPHERTEXT_HEX : list Z := concat_str [
  "9c6c0b921a83849cdbf2fe7efb743fe9";
  "5efad555806a09d8b58011b313a2ab94";
  "1c5b12617b85734abbfcb2eaa4f3dfdc";
  "98e2b91011e1fccc7bfe2e0341e7cb27";
  "3ae8accaf44ad4ada405449698107797";
  "b350fc41b84f9a5ecf580896d17c7479";
  "913b3156469c3a26e3b0df3776826a0e";
  "26cae67e44c551ec8f242ff08dd2a359";
  "9454c647da23779bf0760ea0a394bf92";
  "767a4a48a993372acd0a8caf89216422";
  "4ba6b63afcba8052357528c429941b27";
  "158ba14e5f4667212dc37b43abb9736c";
  "3c5a179a51587ce04ac8436e50f5de86";
  "99505880b4c2f015e5c3447897c15dcc";
  "318d1515baf606b3efd46b83e88943bf";
  "f987cf74ba1545226b5574db799dc452";
  "7bbbbc0c8821f58387469c20ee704822";
  "d61aa6cecf91c47638b23d0f8f2f17c7";
  "8a947ef3702524566223bdcd5b44f242";
  "9b9a3cfe5877cc61a01296ebe7b1f074";
  "b1cf3eca6edb4df857250018f8f71a19";
  "2549c7be79f5b2807c8324010d9e6b91";
  "2933fec5e401f11e27bc67700ae21db2";
  "98f3b6f8cd8ee95406bf4a675254a85d";
  "d052402ae033166f123150eac92a4065";
  "e583d6e180bec7b2f2138308bdfbe004";
  "5ff77c510d79cddc1db1baa8d80194fb";
  "585ecb2ac6451e152fbc090a08a4220f";
  "554a46805ed9c2d069f37b03755528fe";
  "3954e1a6a09dcfb191037e0aa3062d45";
  "191b0c4f92e1e0f74486e0c357bd73fa";
  "56446fb255adea9a1f76dfa895a8ecc5";
  "922e171c92282ca16767e944790b5ec2";
  "d227077d4164c2afe97ab6ec5a42d1f7";
  "1203fa9edb9db2d3077b4e90e890a004";
  "fc59654e3b25e0ad2f6a8637fdf082f5";
  "d143e3679bcfa59c165323e4bc7b0461";
  "b05f5939722b1eeb2cce5f571f3c4b3e";
  "a80e772f7654a0517ed70f46809ff38b";
  "3a83820a45da1dc413dff0e911d87506";
  "f4607424c981dda769ec6f0110594076";
  "96bee5f7a8fb81f350ed8b7c2854a2ef";
  "a642ae1b69e5ccd10b8e030c53db135d";
  "dfe08fb4da670864d0b39142a5834e37";
  "56d2b77b49b28d65e3b0b86489ca1eab";
  "7bdfd6a46f2150758c3721a82877bf9a";
  "d3571b9eb0891fa6060fe6246f95a407";
  "e1732f6151525d68654e16044f8c0618";
  "c73a0b2bd24b8c2ec18469b6b2ecb3e9";
  "1bc9f67a9e6540fad234a3f9dbd6f26b";
  "b354013a5032f3a9752aedff7976f705";
  "11e75f6bff6be12641e7bce0f55bc2bf";
  "ae80809966cc6546540902e258012722";
  "3ccd4bf648b2d2a7175cd9bf20c92287";
  "34df862aa6938512335d775d5745f29a";
  "ed2c66556739620e21ace64ce25fc8b3";
  "02fbfa283f52b5f7a28be8f09fe0d2c5";
  "4995f40936c1e225c57e7f5307ceb515";
  "ce9e0a1de509ca8ee6a2ff43daa2d7e4";
  "4166a0edabfe3b9f30a35043e81ffe0c";
  "1ac982c4ee4ef6cab522c5039a4fe552";
  "f59a9bd90947ad03e1dbd81ec9dce4bf";
  "4b1b2d75eba581dbddae8c65d3ad5f83";
  "06101c8af95f38bb162a9917e155887d";
  "682ea3356ea92c4f146dee150f4083cc";
  "434d13e932d45291118655e870394a46";
  "3e7b4edfad360992590bf90376d17f0a";
  "132c012758df3b6993586665af49b8bc";
  "bfc638f9737a30b8b32a21f49d7792fc";
  "15efaf8bf8d43cd4a447e0197ce9b6a8";
  "11cc2b23f6fb9e0d96f9460388b0fd5b";
  "8e4d363e4ab1fb971afd317227e409d7";
  "65976a30d21d084ae24bbcac18b323d5";
  "c0de487749cd9349a5b9d9890a43f513";
  "49c42852c957c05cfbc4ad3c3fbae7f7";
  "19f5202806dcbcce3126d3a9b72eab85";
  "b862697b4b142886f3372f0e132e8baa";
  "92b04c5c684368933855782f6d30a6ed";
  "cff9abc7e0743106768c5501e9856625";
  "16e766ee9b75197b107a0316c76b1178";
  "8381fb6280bf4f5c3868dcbfc6b47c73";
  "cd974d8da8f191edd665f1780939a30d";
  "0741caca6c1f19ae9a0ef3eac468e065";
  "b2da0af065ec3bfeeb22545666db386a";
  "11bd16b738619675b79d1e866d2b251f";
  "ee98f26ccf14fc34e5bff529e84729ac";
  "ef479730ae3822f8cca7b5b44d845047";
  "570e32128eb4ac556a45a73293dfc4a1";
  "198895891187da92e1686e695c78b7b6";
  "945cc71ab37ee5c0915e69fccc61d917";
  "83a83c0b03214c71d9a0571c57137baf";
  "cc9725eafb1ad3d0128628ec13f27b89";
  "13cdfadf1292ab1b33ec2e92a32d2fa2";
  "53dee091c59a8f98c1c2703264c43a13";
  "58a991ae92360a0f32f559bb4ccf492c";
  "5cb22558af9f1db96695a3f7a2f51494";
  "d220a0cb176fb2019a6fe02b5b0c6c57";
  "f04a61d92cbc53d046357e4a07a76486";
  "85063c6694d04689c334ac4a093aa41f";
  "690ede11279069ac8a7007da2c8bf322";
  "d9b59c522e193edb8b77ada0ad84f6c6";
  "a9edca3658b363f62a423ab08a0719e3";
  "49508a1bc75b3287dc7c9d147c9a7f4f";
  "2523efb4d5f7636f5c850b7856157e24";
  "7823fc84cef0ab0afdc964c57360c541";
  "d04ee81cb911c5993e0e4ce2f5e070a0";
  "259a2b61ea9232d10031ac3b8313eddd";
  "5c54067e3c9e6f63aa40133ee912a4f7";
  "df1fda6473cbd0623797ec242d3100c1";
  "a5d00c1210d1db4669141ec0feff677c";
  "87bdce9ea0ce4757aefff862c861e707";
  "698878b6c18c705650079f87886a52c4";
  "2d135aaef44cc7944124a9d594c41183";
  "5ae7fe92deb23f7d7772abf21aa29610";
  "9ecc75fb2cc81d326432f430c1be1146";
  "ec968a30b7faaa975abdb18141ed4d61";
  "7f5a02446f5a7b2501f887927688dadb";
  "071f3ad59150e0e5467d9534bdc1ed45";
  "1385a199ddb82a79046fefbc8106537a";
  "7f7585761972fc520115be4efbc2073f";
  "2b4852a2709832bd069d83971b23d9d7";
  "fd382c87832c1dc3530bbd72c1e56110";
  "12803c405daecf403921b34487919f05";
  "702c03a2cd0971e334c0602b25c6adde";
  "fb43e8d2059c35bbbe7fc1485f2cf8ad";
  "020820b0475ef7b209a85949ad4c92c9";
  "01e6bce5df09f0bedd062d8ff4a0a17a";
  "eeaaa9db88a5c3444bae88469c18c629";
  "2d02872b61c87ce563f35050af3af839";
  "cc5a2cebcb0e3b0642279e3db21624f5";
  "86532119f77a1d75bee680dda245b076";
  "0cd2d48b34e848364e4de20411018c67";
  "983f1a26ce7e50047431bdbd4fd4f046";
  "0d1e36fa9a772e6efa052121beb33ec9";
  "09057cb15599dd554c421772018d7cb2";
  "0b0659dbcc0bb8a7caf842b7e5c24d21";
  "5129c58f7b50e798ad285f2269ddbd02";
  "5d93a169b577094366579e54e033468f";
  "c4c6436abad4cd5b2415dc92c1a86f8b";
  "091f332423362635e38856eec8dc6094";
  "644203047035cfd2d0b4dfd1bcefdc8d";
  "3661782b93ff4288da422eb9beaab449";
  "c574b43db670bac611cb4eb5fa423636";
  "03b16f5f6a3fb25798a29953d6012024";
  "adac6e91840706241566b2981204ae04";
  "6b9fe9dcc79851a501164a37ad82531e";
  "9d7956d17950f7a972a3aee8a1dd38a3";
  "3c66e03895ec5685d7d137705065b370";
  "797bcaa0f574c958ecb800fb5b32498b";
  "d8b0cf67e1e270d6a24484f94b1c52f3";
  "4bc78b17f13e247b5d3722243e3210a6";
  "cf4d0f4e5da420c17377f1067ccad293";
  "42995b76006b4b9b9b29045fc018b8e9";
  "fef87eeeb1b0886f2186a4ee365e3002";
  "87f5fb93049b6c49c96a3698292a2abd";
  "e7a90dd9b092e9f117b1059c11f08d04";
  "c1d157435062b331d69c4b973edc0548";
  "21403a1c27a36eef6700269c549a702e";
  "591d3ccac21d545291839e4881461584";
  "1efa13975fdf4765265f7dcb2762489d";
  "a8bccb7e75eb1f6317c451904a337a40";
  "e4b9683887a59d544b80fbd5f9f0e1ee";
  "add3237857ed78007c78ac75e58865a2";
  "681083ad52320ceb4508fa7fa6ef480a";
  "9ad1a3c010d5352d83c6384e192d2cc0";
  "cc74c0d788423fc59b73eadff1453825";
  "5ee49303ad207c7daa0fa62ef8f9ed99";
  "62dfec14148b57db4d10c019102ce704";
  "f2c3bf16f6f32aa1ef3f59e2ab2a9d6a";
  "ec690585c0ff97e0801c782a690ba0db";
  "824d9183929dc115afeb8f4b2ddcd1f6";
  "8b538f6b8a46fd8cfb8f6754d036e201";
  "2468a5f9e20d971a62336cf7105e608f";
  "557b22db71580884ce19b794cf6a2931";
  "afa4c1d4a44b75e73575b5ae2531183e";
  "17ec6bdfbafca2f0afebd0eae70a7084";
  "7b5128a046494204e689be3caf4e021a";
  "4ef742d5331fccaf6a1d71fe5e6fa98e";
  "069045c45c516ac5381e725da2d98c99";
  "6d5127f52b649463502abbc7d1929bf4";
  "746f73eae1d2e30b1eb3abd9473f4913";
  "0c1dde4819f0bf593cb277eab93c9273";
  "1549b5061cdce7305d9b40ab9336e971";
  "ef542517c1c3a33978d5caf6a84c548d";
  "bd9f1788b0b9502de1a26977a493d710";
  "682904f96107c1a3a1c7862d46d74c13";
  "000fe9d87806ebf3db3571d5bdeef3fb";
  "4a2006bac5c17c8d52d536672ec876a6";
  "0ad7516068fa8f0fac553bd58de02511";
  "fb7dce90ce55157d2b90e45af1c6f863";
  "e197dc5b71657cd7ff01c54937e47c6c";
  "0eefbaa4d078a111a30a1ff22924a5ed";
  "9aac86b1582a9a9fa21f5df3124b8128";
  "632e090345fd781ad7bc70c974109d58";
  "c50522e907c22af0f973adc594f40884";
  "62a147c2d201e8e67313c4a6a9e635b5";
  "30c4da1b70bbbf20d4df791b16184738";
  "67f660755a50e5e85d74d92b9b148320";
  "8419be99386c0df5b9333ae36117814e";
  "3c6a596d794f75163837e0d504bca33f";
  "378affe2addebc1104eba62450e69ad2";
  "7b995d808503a3355198fde6d0585aed";
  "fdc54ccc1d934ebe4ae53b6cdcfc1c34";
  "473cab56eb743fbff35a8d53aba0b787";
  "89f762e7d6ec0e1d2697a011d574796b";
  "d26651e4c148d3f1efaee0f2f77cad4c";
  "17cce257e53081fc365326b33da0637b";
  "55a41d170cf62c60fa053e946ebf899f";
  "c72f14bb18add030638413c3627aa9d8";
  "1428943152bdf658746abe4f0b3b7434";
  "a108363d4f734502e81d5818f83b3be3";
  "d129b3d8fcd829bd95efb8f1c438bf80";
  "b06e29b782c4fdc561a3bfe3b6779d2c";
  "49e6f6eda9ff856a5b2593887e8f405f";
  "b17f210cc3f00e26666af7b85846e90b";
  "428fecba2d313cd9ecc7566e12769b06";
  "0628d5eb906513fde9d3434c8d66d5f7";
  "559e92949a6ea4959b0b960ccc4662d9";
  "2747f0d4104db1f13441ac330e5de815";
  "b96bfae631ca92cd5495759bf0c84c8b";
  "cd704368c3c98156c7feb99a3a6f3d82";
  "3dc8c7b2416193a38fae3db310b3ac14";
  "b37b21eaa5343e1bcd658e4a36d4319b";
  "97036987170a9e57a28457369fb70939";
  "0ed463cdfc424bd6959fa733c172c7d6";
  "74132188349590caa2eb56843a495834";
  "49b426cb6620dd082cc7962b6217f8ea";
  "7f2b53df3d511f43b6e0c50ca6f88ca9";
  "39987461af96900e2fd811421968b8d9";
  "e3f5bf3978cb028729786451b977f0e2";
  "a58d9c5974ccbc601f1540f2bfef4de7";
  "53465545376d140b6be39fe329e5cf2d";
  "2fd853a412adc7edf92f88cad40cb88a";
  "3f536b0c1b307a2d2f91eb5a356024e4";
  "756710e556399b6b7396bb96073a730d";
  "87ffaf88cfc818eca48e646cb4a6a4f0";
  "35d7dad38fe2cb97dca7200781ef0ae8";
  "3480b4780df36c42eda24607e1a98b3e";
  "e8918ba21510b1434e5a3a8263343b83";
  "de2cc78339d0bf63a24f71b6c301bebd";
  "bd8618dd4d9da3fd7a6cf7d10d012636";
  "5a08ac30d121397f0dfacc9c0b3e9c5e";
  "c04570aec8cda7b4f2a72ffbd76f20ab";
  "a26b8c33e219b1cecbe918cf23abba75";
  "4359f45990c1de26613cc284006bc0a2";
  "6da70a73e0e371955f31132fe11ba8e1";
  "cfa4d69f8c55ef6f6d153a07d2fa0324";
  "7f9df08ec171f581adcee4120c28b663";
  "793fffc1d8915433aac0e002867ee4ee";
  "347aa0502a99f8e1e61307c3246e2715";
  "58e0a01cf54aec5b4c7e3c57c159b7fe";
  "6812b765e8fd01816e1dd49627caf807";
  "670e73c70955eaecb6e028513fb04647";
  "73d61f79546371ae0a70f94f748dd823";
  "9faaca8fec3c53ed1821d8dd284c174f";
  "3a73b85ba3692e15ae31dc26a4d39065";
  "0703b760c4fc3bc75aa89a31a5712149";
  "b226f93c70bf29eebf9519baa4cd0880";
  "d3ccfd0f0764eef1495ba9dcd44d2923";
  "b4316a6709d176a4ad7eb53ddb03d92b";
  "269598cb1e79e1cb2503d0859ad8c188";
  "30e62e05548c30e237dad461f706c5e1";
  "699a347a1921f04be2cb8dffe559ad5c";
  "d924706f13a29d115611a2d0372ce49f";
  "9331eb60f793de015272d5a7ab77bd79";
  "824a9a525c2a2cc5f4d2054c9c3593c5";
  "33ec2721c6abda6a574a9a503fa11a46";
  "96c69396292e350baaa8bd95b9d4c25e";
  "97d2009ec947b30be772314dba4d44c8";
  "1dc97049d7e0f60f9ca1e173555a2f34";
  "b1a14ca6c7b85e9bd426432474d24908";
  "f2f652e40a39d2e37cf0f4d31c86a5ed";
  "990716f6d7f40e8cff69c78341e0da23";
  "e8b515a6f7ce196ff65331d2ee307d65";
  "8c2e08c890dff18a3cb0187ad889bd52";
  "70386ec89175afcac4a0eb40295aa489";
  "077b0222d30257f0c127ab9ae290699d";
  "7a023dde4d9e13dba18e27902657712f";
  "e544b63ef566fe6e54b7bc02e1ceebca";
  "16076fe0245d3419107297afcf5d59d1";
  "4fd4687cc809f344668bbca822dfbe59";
  "e2c939092a38fa943591f3a3224b431f";
  "7998e74c49db04f0e6cb09448b0b0f7c";
  "31bc7c4be8f07a16741499fdd5bafb71";
  "aba04cc2f6c5b7e110350acb50c94778";
  "a6a8381b5aab8c59c99e921b9021c6a1";
  "6b9d5edbe9738322097c1f3f1f98f534";
  "ce525dbf89c89bae8a10dfdba13686f1";
  "5f17f6ec9ea3f49d0722c5c60e1db62c";
  "76a9688b27bd05bced20685312e68a74";
  "097a0aa4d6e12c626eb82f75a4de560c";
  "feb6fc9f02769b22397ac176f165f81b";
  "cbb53059bbfd8263ca5cb252e2b25e8c";
  "f57c3b966c96f379ff99ed654be61e71";
  "bbfb43045b60b963ecd08726b83d1ced";
  "cb85cd12c0a1a950da73fcecab8f2bc8";
  "e77cbdb380b82a9e77cbb749ee276b29";
  "5f6b9d2d38496dabad2ee00499d0298d";
  "cab91bea96276d63f8de53e2606ee070"
]%string.

(** ** v8 *)

Definition KAT_V8_PRIMES : list Z := [1000003; 1000033; 1000037; 1000039].
Definition KAT_V8_SK : list byte := [
   x4e; x1b; x30; xf2; xd4; x07; xea; xce; x36; xf8; x80; xa2; x34; x35; x18; xf2;
   x9d; x71; xb4; x9b; xbf; x07; x6d; xd7; x77; x44; x63; x4a; xc0; xd3; x8f; x57].
Definition KAT_V8_MESSAGE : list Z := str "A".
Definition KAT_V8_AAD : list byte := [].
Definition KAT_V8_EXPECTED_LEN : Z := 2928.
Definition KAT_V8_EXPECTED_SHA256 : list byte := [
   xba; x1c; x3f; x66; x4c; x62; xe9; x34; x56; x83; x32; x74; xb5; x5f; x70; x3e;
   xa8; x26; xf1; x28; x24; xa3; x90; x88; x5d; x8e; x7f; x1e; xb3; x99; x4c; xed].

(** ** v8 streaming *)

Module stream_kat.
Definition PRIMES : list Z := [1000003; 1000033; 1000037; 1000039].
Definition SK : list byte := [
   x3b; x49; xe3; x04; x32; x9a; x9d; x92; x6c; x29; x10; x78; xde; x46; xbd; x4d;
   xce; x30; x86; xae; xe5; xac; xe7; xa6; x10; x8d; x55; x2b; xbb; x4e; x4b; xef].
Definition NONCE : list byte := [
   x45; xa7; xf8; xfa; xcb; xc1; x09; x2d; x59; x97; x50; x2d; x05; x4a; x87; xc7].
Definition MESSAGE : list Z := str "A".
Definition FRAME : Z := 8.
Definition EXPECTED_LEN : Z := 1381.
Definition EXPECTED_SHA256 : list byte := [
   xa4; xbd; x2e; xf9; x4b; xc4; xca; x24; xcd; xe4; x32; xc1; x86; x8e; xc9; x80;
   x83; x15; xfb; xbd; xd1; xcb; xe5; x66; x73; xf5; xfc; x4b; x0f; xa2; x02; xb4].
End stream_kat.

(** ** KEM *)

Definition KAT_FRODO_EXPECTED_KEY : list Z := [5767087; 9638897; 6364217; 9305771; 14328571; 9326249; 14992633;
   4658327; 5481323; 4521743; 1356431; 7343653; 12284017].
Definition KAT_X25519_ALICE_SK : list byte := [
   x77; x07; x6d; x0a; x73; x18; xa5; x7d; x3c; x16; xc1; x72; x51; xb2; x66; x45;
   xdf; x4c; x2f; x87; xeb; xc0; x99; x2a; xb1; x77; xfb; xa5; x1d; xb9; x2c; x2a].
Definition KAT_X25519_BOB_PK : list byte := [
   xde; x9e; xdb; x7d; x7b; x7d; xc1; xb4; xd3; x5b; x61; xc2; xec; xe4; x35; x37;
   x3f; x83; x43; xc8; x5b; x78; x67; x4d; xad; xfc; x7e; x14; x6f; x88; x2b; x4f].
Definition KAT_X25519_SHARED : list byte := [
   x4a; x5d; x9d; x5b; xa4; xce; x2d; xe1; x72; x8e; x3b; xf4; x80; x35; x0f; x25;
   xe0; x7e; x21; xc9; x47; xd1; x9e; x33; x76; xf0; x9b; x3c; x1e; x16; x17; x42].
Definition KAT_HYBRID_TRANSCRIPT_HEX : list Z := concat_str [
  "763200000005504b2d50510000000543542d50510000000c";
  "504b2d45432d53544154494300000009504b2d45432d455048"
]%string.
Definition KAT_HYBRID_EXPECTED_KEY : list Z := [2992559; 2913523; 2740301; 1977709; 5330359; 13077137; 6210319;
   11896091; 14291593; 8698397; 12129883; 1604143; 10450267].
Definition KAT_KEM_SHARED_SECRET : list byte := [
   x00; x01; x02; x03; x04; x05; x06; x07; x08; x09; x0a; x0b; x0c; x0d; x0e; x0f].
Definition KAT_KEM_EXPECTED_KEY : list Z := [9983011; 10152529; 7834763; 10632887; 2925119; 10279739; 14182411;
   11926879; 5090131; 7862971; 11050261; 11123929; 3865637].
