(* ===== verification/SelfTest.v ===== *)
(** * Power-on self-tests ([self_test.rs], [bin/napqes_integrity.rs])

    The known-answer tests and the two integrity checks, in the order
    [run_power_on_self_tests] runs them. The files a check reads and the random
    bytes a KEM test draws are arguments. [PostLatch] is the state machine around
    them. *)
From Stdlib Require Import ZArith Lia Strings.Byte Strings.String.
From stdpp Require Import base tactics option numbers gmap list.
From S2P Require Import Prelude Machine Errors Crates Post Primes Keys Derive Padding Tokens BlockV8.
From S2P Require Import LegacyV7 StreamV8 OtFrame Kem KatVectors.

#[local] Open Scope Z_scope.
#[local] Open Scope napqes_scope.

(** ** Hexadecimal *)

(** [str::is_char_boundary]: no string slice may start at such a byte. *)
Definition is_continuation (b : byte) : bool :=
  let v := byte_to_Z b in (0x80 <=? v) && (v <? 0xC0).

(** The loop over [s[2 * i..2 * i + 2]] on the bytes of [s]. *)
Fixpoint decode_hex_pairs (s : list byte) : outcome SelfTestError (list byte) :=
  match s with
  | a :: b :: s' =>
      if match s' with c :: _ => is_continuation c | [] => false end
      then Panic PanicBounds
      else
        v ← opt_or (u8_from_hex_pair (byte_to_Z a) (byte_to_Z b)) (InternalError InvalidHexDigit);
        rest ← decode_hex_pairs s';
        Ok (byte_of_Z v :: rest)
  | _ => Ok []
  end.

Definition decode_hex (s : list Z) : outcome SelfTestError (list byte) :=
  let s := as_bytes (filter (λ c, c ≠ 10 ∧ c ≠ 32) s) in
  if negb (Z.of_nat (length s) mod 2 =? 0) then Err (InternalError OddHexLength)
  else decode_hex_pairs s.

(** [char::is_whitespace] and [str::trim]. *)
Definition is_whitespace (c : Z) : bool :=
  ((9 <=? c) && (c <=? 13)) || (c =? 32) || (c =? 0x85) || (c =? 0xA0) || (c =? 0x1680)
  || ((0x2000 <=? c) && (c <=? 0x200A)) || (c =? 0x2028) || (c =? 0x2029) || (c =? 0x202F)
  || (c =? 0x205F) || (c =? 0x3000).

Fixpoint trim_start (s : list Z) : list Z :=
  match s with
  | c :: s' => if is_whitespace c then trim_start s' else s
  | [] => []
  end.

Definition trim (s : list Z) : list Z := reverse (trim_start (reverse (trim_start s))).

(** ** Software integrity *)

(** What reading a file gives. *)
Inductive read_result (A : Type) := ReadOk (a : A) | ReadNotFound | ReadFailed.
Arguments ReadOk {A} a.
Arguments ReadNotFound {A}.
Arguments ReadFailed {A}.

Definition INTEGRITY_KEY : list byte := list_byte_of_string "NAPQES module software integrity v1".

Section self_test.
Context `{Crypto}.

Definition integrity_tag (module_image : list byte) : list byte :=
  hmac_digest INTEGRITY_KEY module_image.

(** [sidecar] is the text of [<module>.hmac], [module] the module's bytes. *)
Definition verify_module_integrity (sidecar : read_result (list Z)) (module : read_result (list byte))
    : outcome SelfTestError bool :=
  match sidecar with
  | ReadNotFound => Ok false
  | ReadFailed => Err IntegrityCheckFailed
  | ReadOk reference =>
      expected ← map_err (λ _, IntegrityCheckFailed) (decode_hex (trim reference));
      match module with
      | ReadOk image =>
          if bool_decide (length expected = 32%nat) && ct_eq_bytes expected (integrity_tag image)
          then Ok true else Err IntegrityCheckFailed
      | _ => Err IntegrityCheckFailed
      end
  end.

(** The text [napqes_integrity] writes next to an executable. *)
Definition napqes_integrity (image : list byte) : list Z := to_hex (integrity_tag image) ++ [10].

(** What the checks read from the outside: cargo features and build metadata, the
    executable and its sidecar, and the draws of the two pairwise KEM tests. *)
Record post_env := PostEnv {
  fail_next_post : bool;
  experimental_stream : bool;
  fips_integrity : bool;
  CARGO_PKG_VERSION : list Z;
  NAPQES_ATTESTED_VERSION : option (list Z);
  current_exe : bool;
  exe_sidecar : read_result (list Z);
  exe_image : read_result (list byte);
  frodo_seeds : list byte * list byte;
  hybrid_seeds : list byte * list byte;
  hybrid_ec : list byte * list byte;
}.

Definition software_integrity_check (e : post_env) : outcome SelfTestError unit :=
  if negb (current_exe e) then Err IntegrityCheckFailed
  else
    present ← verify_module_integrity (exe_sidecar e) (exe_image e);
    if present : bool then Ok tt
    else if fips_integrity e then Err IntegrityCheckFailed
    else Ok tt.

Definition build_provenance_check (e : post_env) : outcome SelfTestError unit :=
  match NAPQES_ATTESTED_VERSION e with
  | Some attested =>
      if bool_decide (attested = CARGO_PKG_VERSION e) then Ok tt else Err BuildProvenanceMismatch
  | None => Ok tt
  end.

(** ** Known-answer tests *)

Context `{Gate}.

(** [match r { Ok(a) if p(a) => Ok(()), _ => Err(e) }] *)
Definition expect_ok {A} (e : SelfTestError) (p : A → bool) (r : outcome error A)
    : outcome SelfTestError unit :=
  match r with
  | Ok a => if p a then Ok tt else Err e
  | Err _ => Err e
  | Panic q => Panic q
  end.

(** [match r { Err(x) if p(x) => Ok(()), _ => Err(e) }] *)
Definition expect_err {A} (e : SelfTestError) (p : error → bool) (r : outcome error A)
    : outcome SelfTestError unit :=
  match r with
  | Ok _ => Err e
  | Err x => if p x then Ok tt else Err e
  | Panic q => Panic q
  end.

(** [ciphertext[last] ^= 0xFF] with [last = ciphertext.len() - 1]. *)
Definition flip_last (ciphertext : list byte) : outcome SelfTestError (list byte) :=
  last ← Z.of_nat (length ciphertext) -! 1;
  b ← expect PanicBounds (ciphertext !! Z.to_nat last);
  Ok (<[Z.to_nat last := xor_byte b xff]> ciphertext).

Definition kat_encrypt : outcome SelfTestError unit :=
  expected ← decode_hex KAT_CIPHERTEXT_HEX;
  expect_ok KatEncryptMismatch (λ got, bool_decide (got = expected))
    (encrypt_bytes_with_nonce KAT_MESSAGE KAT_KEY KAT_NONCE []).

Definition kat_decrypt : outcome SelfTestError unit :=
  ciphertext ← decode_hex KAT_CIPHERTEXT_HEX;
  expect_ok KatDecryptMismatch (λ pt, bool_decide (pt = KAT_MESSAGE))
    (decrypt_bytes ciphertext KAT_KEY []).

Definition kat_tamper_rejection : outcome SelfTestError unit :=
  ciphertext ← decode_hex KAT_CIPHERTEXT_HEX;
  ciphertext ← flip_last ciphertext;
  expect_err KatTamperNotRejected (λ _, true) (decrypt_bytes ciphertext KAT_KEY []).

Context `{Sha256}.

Definition kat_v8_encrypt : outcome SelfTestError unit :=
  ct ← map_err (λ _, KatV8EncryptFailed) (encrypt_bytes_v8 KAT_V8_MESSAGE KAT_V8_PRIMES KAT_V8_SK KAT_V8_AAD);
  if negb (Z.of_nat (length ct) =? KAT_V8_EXPECTED_LEN) then Err KatV8EncryptFailed
  else if negb (ct_eq_bytes (sha256 ct) KAT_V8_EXPECTED_SHA256) then Err KatV8EncryptFailed
  else Ok tt.

Definition kat_v8_decrypt : outcome SelfTestError unit :=
  ct ← map_err (λ _, KatV8DecryptFailed) (encrypt_bytes_v8 KAT_V8_MESSAGE KAT_V8_PRIMES KAT_V8_SK KAT_V8_AAD);
  expect_ok KatV8DecryptFailed (λ pt, bool_decide (pt = KAT_V8_MESSAGE))
    (decrypt_bytes_v8 ct KAT_V8_PRIMES KAT_V8_SK KAT_V8_AAD).

(** [e.contains("is not B + 2")] and [e.contains("Authentication failed")]. *)
Definition is_structural_reject (e : error) : bool :=
  match e with V8IllegalRealCount _ => true | _ => false end.
Definition is_authentication_failed (e : error) : bool :=
  match e with AuthenticationFailed => true | _ => false end.

Definition kat_v8_structural_reject : outcome SelfTestError unit :=
  ct ← map_err (λ _, KatV8StructuralAccept) (encrypt_bytes_v8 KAT_V8_MESSAGE KAT_V8_PRIMES KAT_V8_SK KAT_V8_AAD);
  unit ← MAX_NOISE_RUN +64 1;
  drop ← Z.of_nat TOKEN_WIDTH *64 unit;
  end1 ← Z.of_nat (length ct) -! Z.of_nat TAG_SIZE;
  end2 ← end1 -! drop;
  forged ← index_range 0 (Z.to_nat end2) ct;
  match retag_block_v8 forged KAT_V8_SK KAT_V8_AAD with
  | Ok tag =>
      expect_err KatV8StructuralAccept is_structural_reject
        (decrypt_bytes_v8 (forged ++ tag) KAT_V8_PRIMES KAT_V8_SK KAT_V8_AAD)
  | Err _ => Err KatV8StructuralAccept
  | Panic p => Panic p
  end.

Definition kat_v8_tamper_rejection : outcome SelfTestError unit :=
  ct ← map_err (λ _, KatV8TamperNotRejected) (encrypt_bytes_v8 KAT_V8_MESSAGE KAT_V8_PRIMES KAT_V8_SK KAT_V8_AAD);
  ct ← flip_last ct;
  expect_err KatV8TamperNotRejected is_authentication_failed
    (decrypt_bytes_v8 ct KAT_V8_PRIMES KAT_V8_SK KAT_V8_AAD).

Definition kat_stream : outcome SelfTestError unit :=
  ct ← map_err (λ _, KatStreamFailed)
    (encrypt_stream_ae_v8_with_nonce stream_kat.MESSAGE stream_kat.PRIMES stream_kat.SK stream_kat.NONCE []
       stream_kat.FRAME);
  if negb (Z.of_nat (length ct) =? stream_kat.EXPECTED_LEN)
     || negb (bool_decide (sha256 ct = stream_kat.EXPECTED_SHA256))
  then Err KatStreamFailed
  else
    _ ← expect_ok KatStreamFailed (λ pt, bool_decide (pt = stream_kat.MESSAGE))
      (decrypt_stream_ae_v8 ct stream_kat.PRIMES stream_kat.SK []);
    body ← stream_kat.FRAME *64 160;
    l ← 4 +64 body;
    frame_len ← l +64 Z.of_nat TAG_SIZE;
    header ← index_range 0 21 ct;
    start ← 21 +64 frame_len;
    rest ← index_range (Z.to_nat start) (length ct) ct;
    expect_err KatStreamFailed (λ _, true)
      (decrypt_stream_ae_v8 (header ++ rest) stream_kat.PRIMES stream_kat.SK []).

Context `{Hkdf} `{Frodo} `{X25519}.

(** [include_bytes!("kat/frodo640aes_decap_kat.bin")]: a secret key followed by a
    ciphertext. *)
Context (KAT_FRODO_DECAP : list byte).

Definition kat_kem (e : post_env) : outcome SelfTestError unit :=
  let fail {A} := map_err (A:=A) (λ _ : error, KatKemFailed) in
  _ ← expect_ok KatKemFailed (λ key, bool_decide (key = KAT_KEM_EXPECTED_KEY))
    (derive_napqes_key KAT_KEM_SHARED_SECRET);
  parts ← fail (split_at FRODO_SECRET_KEY_SIZE KAT_FRODO_DECAP);
  let '(sk_frodo, ct_frodo) := parts in
  _ ← expect_ok KatKemFailed (λ key, bool_decide (key = KAT_FRODO_EXPECTED_KEY))
    (decapsulate ct_frodo sk_frodo);
  if negb (bool_decide (x25519_dh KAT_X25519_ALICE_SK KAT_X25519_BOB_PK = KAT_X25519_SHARED))
  then Err KatKemFailed
  else
    transcript ← decode_hex KAT_HYBRID_TRANSCRIPT_HEX;
    let ss_ec := byte_of_Z <$> seqZ 1 32 in
    _ ← expect_ok KatKemFailed (λ key, bool_decide (key = KAT_HYBRID_EXPECTED_KEY))
      (derive_napqes_key_hybrid (replicate 16 x00) ss_ec transcript);
    let '(pk, sk) := keygen (frodo_seeds e).1 in
    r ← fail (encapsulate pk (frodo_seeds e).2);
    _ ← expect_ok KatKemFailed (λ key_b, bool_decide (key_b = r.2)) (decapsulate r.1 sk);
    let '(pk, sk) := keygen_hybrid (hybrid_seeds e).1 (hybrid_ec e).1 in
    r ← fail (encapsulate_hybrid pk (hybrid_seeds e).2 (hybrid_ec e).2);
    expect_ok KatKemFailed (λ key_b, bool_decide (key_b = r.2)) (decapsulate_hybrid r.1 sk).

(** The closure inside [run_power_on_self_tests]. *)
Definition post_checks (e : post_env) : outcome SelfTestError unit :=
  if fail_next_post e then Err (InternalError FaultInjected)
  else
    _ ← kat_encrypt;
    _ ← kat_decrypt;
    _ ← kat_tamper_rejection;
    _ ← kat_v8_encrypt;
    _ ← kat_v8_decrypt;
    _ ← kat_v8_structural_reject;
    _ ← kat_v8_tamper_rejection;
    _ ← kat_kem e;
    _ ← (if experimental_stream e then kat_stream else Ok tt);
    _ ← build_provenance_check e;
    software_integrity_check e.
End self_test.

(** ** The fixed inputs *)

Lemma kat_key_valid : valid_key KAT_KEY.
Proof. apply sample_key_valid. Qed.

Lemma kat_ciphertext_decodes :
  ∃ c, decode_hex KAT_CIPHERTEXT_HEX = Ok c ∧ length c = 4784%nat.
Proof.
  exists (from_ok [] (decode_hex KAT_CIPHERTEXT_HEX)). split; vm_compute; reflexivity.
Qed.

Lemma kat_transcript_decodes :
  decode_hex KAT_HYBRID_TRANSCRIPT_HEX
  = Ok (hybrid_transcript (list_byte_of_string "PK-PQ") (list_byte_of_string "CT-PQ")
          (list_byte_of_string "PK-EC-STATIC") (list_byte_of_string "PK-EC-EPH")).
Proof. vm_compute. reflexivity. Qed.

(** ** Hexadecimal *)

Lemma is_continuation_ascii c : 0 ≤ c < 128 → is_continuation (byte_of_Z c) = false.
Proof.
  intros Hc. unfold is_continuation. rewrite byte_to_of_Z_small by lia.
  by rewrite (proj2 (Z.leb_gt _ _)) by lia.
Qed.

(** On ASCII text the byte loop is the pairwise parser. *)
Lemma decode_hex_pairs_to_hex bs : decode_hex_pairs (as_bytes (to_hex bs)) = Ok bs.
Proof.
  induction bs as [|b bs IH]; [done|].
  pose proof (byte_to_Z_range b). pose proof (Z.mod_pos_bound (byte_to_Z b) 16 ltac:(lia)).
  assert (0 ≤ byte_to_Z b / 16 < 16) as Hq
    by (split; [apply Z.div_pos; lia|apply Z.div_lt_upper_bound; lia]).
  pose proof (hex_char_range _ Hq). pose proof (hex_char_range (byte_to_Z b mod 16) ltac:(lia)).
  unfold to_hex. rewrite fmap_cons. cbn [concat app]. fold (to_hex bs). unfold as_bytes.
  rewrite !fmap_cons. cbn [concat]. rewrite !utf8_char_ascii by lia. cbn [app].
  fold (as_bytes (to_hex bs)). cbn [decode_hex_pairs]. rewrite IH.
  assert (match as_bytes (to_hex bs) with c :: _ => is_continuation c | [] => false end = false) as ->.
  { destruct (to_hex_ascii bs) as [Ha _]. destruct (to_hex bs) as [|c s]; [done|].
    apply Forall_cons in Ha as [Hc _]. unfold as_bytes. rewrite fmap_cons. cbn [concat].
    rewrite utf8_char_ascii by done. cbn [app]. by apply is_continuation_ascii. }
  rewrite !byte_to_of_Z_small by lia.
  assert (u8_from_hex_pair (hex_char (byte_to_Z b / 16)) (hex_char (byte_to_Z b mod 16))
          = Some (byte_to_Z b)) as ->.
  { unfold u8_from_hex_pair. rewrite (proj2 (Z.eqb_neq _ _)), !hex_digit_char by lia.
    cbn. f_equal. rewrite (Z.mul_comm _ 16), <-Z.div_mod by lia. done. }
  cbn [opt_or]. rewrite !bind_Ok. by rewrite byte_of_to_Z.
Qed.

Lemma to_hex_printable bs : Forall (λ c, 48 ≤ c < 128) (to_hex bs).
Proof.
  unfold to_hex. induction bs as [|b bs IH]; [constructor|]. rewrite fmap_cons. cbn [concat app].
  pose proof (byte_to_Z_range b). pose proof (Z.mod_pos_bound (byte_to_Z b) 16 ltac:(lia)).
  assert (0 ≤ byte_to_Z b / 16 < 16)
    by (split; [apply Z.div_pos; lia|apply Z.div_lt_upper_bound; lia]).
  pose proof (hex_char_range (byte_to_Z b / 16)). pose proof (hex_char_range (byte_to_Z b mod 16)).
  repeat constructor; try done; lia.
Qed.

Lemma decode_hex_to_hex bs : decode_hex (to_hex bs) = Ok bs.
Proof.
  unfold decode_hex. pose proof (to_hex_printable bs) as Hp.
  assert (filter (λ c, c ≠ 10 ∧ c ≠ 32) (to_hex bs) = to_hex bs) as ->.
  { induction Hp as [|c s Hc _ IH]; [done|]. rewrite filter_cons_True by lia. by rewrite IH. }
  destruct (to_hex_ascii bs) as [Ha Hl].
  assert (Z.of_nat (length (as_bytes (to_hex bs))) mod 2 = 0) as ->.
  { rewrite as_bytes_ascii, Hl, Nat2Z.inj_mul, Z.mul_comm by done. by apply Z.mod_mul. }
  cbn [Z.eqb negb]. apply decode_hex_pairs_to_hex.
Qed.

Lemma is_whitespace_printable c : 48 ≤ c < 128 → is_whitespace c = false.
Proof.
  intros Hc. unfold is_whitespace.
  repeat match goal with |- context [?a <=? c] => first
    [rewrite (proj2 (Z.leb_gt a c)) by lia | rewrite (proj2 (Z.leb_le a c)) by lia] end.
  rewrite (proj2 (Z.leb_gt c 13)) by lia.
  by rewrite !(proj2 (Z.eqb_neq c _)) by lia.
Qed.

Lemma trim_start_printable s rest :
  s ≠ [] → Forall (λ c, 48 ≤ c < 128) s → trim_start (s ++ rest) = s ++ rest.
Proof. intros Hne Hs. destruct Hs as [|c s Hc _]; [done|]. cbn. by rewrite is_whitespace_printable. Qed.

(** A trailing newline is trimmed. *)
Lemma trim_line s : s ≠ [] → Forall (λ c, 48 ≤ c < 128) s → trim (s ++ [10]) = s.
Proof.
  intros Hne Hs. unfold trim. rewrite trim_start_printable, reverse_snoc by done.
  cbn [trim_start]. change (is_whitespace 10) with true. cbn iota.
  rewrite <-(app_nil_r (reverse s)). rewrite trim_start_printable, app_nil_r; [apply reverse_involutive| |].
  - intros Hr. apply Hne. by rewrite <-(reverse_involutive s), Hr.
  - by apply Forall_reverse.
Qed.

(** A reference value cut inside a character: the process panics instead of
    reporting [IntegrityCheckFailed]. *)
Example decode_hex_panics : decode_hex [97; 233; 98] = Panic PanicBounds.
Proof. vm_compute. reflexivity. Qed.

(** ** The known-answer tests *)

Section kats.
Context `{Crypto} `{Gate} (Hgate : gate_open).

Lemma flip_last_snoc l b : flip_last (l ++ [b]) = Ok (l ++ [xor_byte b xff]).
Proof using Type.
  unfold flip_last. rewrite length_app. cbn [length].
  rewrite checked_sub_Ok, bind_Ok by lia.
  replace (Z.to_nat (Z.of_nat (length l + 1) - 1)) with (length l + 0)%nat by lia.
  rewrite lookup_app_r by lia. replace (length l + 0 - length l)%nat with 0%nat by lia.
  cbn [lookup list_lookup expect]. rewrite bind_Ok. f_equal. rewrite insert_app_r. done.
Qed.

Lemma xor_ff_ne b : xor_byte b xff ≠ b.
Proof using Type. destruct b; vm_compute; discriminate. Qed.

Lemma last_byte {A} (l : list A) : l ≠ [] → ∃ l' b, l = l' ++ [b].
Proof using Type. intros Hl. destruct l as [|b l' _] using rev_ind; [done|]. by exists l', b. Qed.

(** KAT-1 determines KAT-2 and KAT-3. *)
Lemma kat_v7_cases c :
  decode_hex KAT_CIPHERTEXT_HEX = Ok c →
  encrypt_bytes_with_nonce KAT_MESSAGE KAT_KEY KAT_NONCE [] = Ok c →
  decrypt_bytes c KAT_KEY [] = Ok KAT_MESSAGE.
Proof using Hgate.
  intros _ He. unfold encrypt_bytes_with_nonce in He.
  rewrite (validate_key_valid _ kat_key_valid) in He.
  destruct (valid_key_v7_checked _ kat_key_valid) as [Hk7 Hv7].
  assert (str_ok KAT_MESSAGE) as Hm by (repeat constructor).
  pose proof (seal_open_v7 KAT_KEY [] ltac:(done) KAT_MESSAGE KAT_NONCE Hk7 Hv7 Hm ltac:(done) eq_refl) as Hs.
  destruct (seal_v7 _ _ _ _) as [c'|e|]; [|done..].
  assert (c' = c) as -> by (by apply (f_equal (from_ok [])) in He).
  by apply decrypt_bytes_of_open.
Qed.

(** A v7 ciphertext that opens no longer opens with its last byte flipped. *)
Lemma flip_last_v7 key c m :
  Z.of_nat (length c) ≤ 2 ^ 36 → open_v7 c key [] = Ok m →
  ∃ c', flip_last c = Ok c' ∧ decrypt_bytes c' key [] = Err AuthenticationFailed.
Proof using Hgate.
  intros Hlen Hd. pose proof (open_v7_cases c key [] Hlen) as Ho. rewrite Hd in Ho.
  destruct Ho as (_ & _ & nonce & masked & Heq & Hn).
  assert (length (v7_tag key [] nonce masked) = TAG_SIZE) as Htl by apply length_hmac_digest.
  destruct (last_byte (v7_tag key [] nonce masked)) as (t & b & Ht); [by intros Hnil; rewrite Hnil in Htl|].
  rewrite Ht in Heq, Htl. rewrite app_assoc in Heq. rewrite Heq, flip_last_snoc.
  eexists. split; [done|]. rewrite <-app_assoc. unfold decrypt_bytes. rewrite Hgate, bind_Ok.
  rewrite length_app in Htl. simpl in Htl.
  rewrite open_v7_layout; [|done|done|by rewrite length_app; simpl|].
  - rewrite bool_decide_eq_false_2; [done|]. rewrite Ht. intros Hx. apply app_inv_head in Hx.
    injection Hx as Hx. by apply (xor_ff_ne b).
  - apply (f_equal length) in Heq. rewrite !length_app in Heq. lia.
Qed.

Lemma decrypt_bytes_open c key m : decrypt_bytes c key [] = Ok m → ∃ cps, open_v7 c key [] = Ok cps.
Proof using Hgate.
  unfold decrypt_bytes. rewrite Hgate, bind_Ok. intros (cps & Ho & _)%bind_Ok_inv. by exists cps.
Qed.

Lemma kat_tamper_follows c m :
  decode_hex KAT_CIPHERTEXT_HEX = Ok c → decrypt_bytes c KAT_KEY [] = Ok m →
  kat_tamper_rejection = Ok tt.
Proof using Hgate.
  intros Hc Hd. destruct kat_ciphertext_decodes as (c' & Hc' & Hlen).
  assert (c' = c) as -> by (rewrite Hc in Hc'; by injection Hc').
  destruct (decrypt_bytes_open _ _ _ Hd) as [cps Ho].
  destruct (flip_last_v7 KAT_KEY c cps ltac:(lia) Ho) as (c'' & Hf & He).
  unfold kat_tamper_rejection. by rewrite Hc, bind_Ok, Hf, bind_Ok, He.
Qed.

(** The v8 tests all start from this encryption. *)
Lemma kat_v8_ciphertext :
  ∃ nonce masked, let sk_fmt := derive_format_subkey KAT_V8_SK FORMAT_BLOCK_V8 in
    let ct := (nonce ++ masked) ++ hmac_digest sk_fmt (auth_input nonce [] masked) in
    encrypt_bytes_v8 KAT_V8_MESSAGE KAT_V8_PRIMES KAT_V8_SK KAT_V8_AAD = Ok ct ∧
    length nonce = NONCE_SIZE ∧ length masked = 2880%nat ∧
    decrypt_bytes_v8 ct KAT_V8_PRIMES KAT_V8_SK KAT_V8_AAD = Ok KAT_V8_MESSAGE.
Proof using Hgate.
  assert (str_ok KAT_V8_MESSAGE) as Hm by (repeat constructor).
  pose proof (encrypt_core_cases sample_key sample_key_arith KAT_V8_SK KAT_V8_MESSAGE [] Bucket Hm I) as Hc.
  cbn zeta in Hc.
  unfold encrypt_bytes_v8, encrypt_bytes_v8_with_profile, decrypt_bytes_v8. rewrite Hgate, !bind_Ok.
  change KAT_V8_PRIMES with sample_key. rewrite (validate_key_valid _ sample_key_valid), !bind_Ok.
  destruct (encrypt_bytes_v8_core _ _ _ _ _) as [c|e|]; [|vm_compute in Hc; naive_solver|done].
  destruct Hc as (B & HB & Hlen & Hd). change (block_size _ _) with (Ok (E:=error) 16) in HB.
  assert (B = 16) as -> by (by apply (f_equal (from_ok 0)) in HB).
  destruct (block_layout c ltac:(lia)) as (nonce & masked & tag & -> & Hn & Ht & Hl).
  destruct (decrypt_core_accept sample_key KAT_V8_SK [] sample_key_arith (nonce ++ masked) tag KAT_V8_MESSAGE
    Ht ltac:(lia) Hd) as (n' & m' & Heq & Hn' & Htag).
  apply app_inj_1 in Heq as [<- <-]; [|by rewrite Hn, Hn'].
  exists nonce, masked. cbv zeta. rewrite <-Htag. split_and!; [done|done|lia|done].
Qed.

Lemma kat_v8_decrypt_Ok : kat_v8_decrypt = Ok tt.
Proof using Hgate.
  destruct kat_v8_ciphertext as (nonce & masked & He & _ & _ & Hd). cbv zeta in *.
  unfold kat_v8_decrypt. rewrite He. cbn [map_err]. rewrite bind_Ok, Hd. cbn [expect_ok].
  by rewrite bool_decide_eq_true_2.
Qed.

Lemma decrypt_bytes_v8_open c :
  decrypt_bytes_v8 c KAT_V8_PRIMES KAT_V8_SK KAT_V8_AAD = decrypt_bytes_v8_core c sample_key KAT_V8_SK [].
Proof using Hgate.
  unfold decrypt_bytes_v8. rewrite Hgate, bind_Ok. change KAT_V8_PRIMES with sample_key.
  by rewrite (validate_key_valid _ sample_key_valid), bind_Ok.
Qed.

Lemma kat_v8_tamper_Ok : kat_v8_tamper_rejection = Ok tt.
Proof using Hgate.
  destruct kat_v8_ciphertext as (nonce & masked & He & Hn & Hm & _). cbv zeta in *.
  unfold kat_v8_tamper_rejection. rewrite He. cbn [map_err]. rewrite bind_Ok.
  pose proof (length_hmac_digest (derive_format_subkey KAT_V8_SK FORMAT_BLOCK_V8) (auth_input nonce [] masked)) as Htl.
  destruct (last_byte (hmac_digest (derive_format_subkey KAT_V8_SK FORMAT_BLOCK_V8) (auth_input nonce [] masked)))
    as (t & b & Ht); [by intros Hnil; rewrite Hnil in Htl|].
  rewrite Ht in Htl. rewrite Ht, app_assoc, flip_last_snoc, bind_Ok, <-app_assoc, decrypt_bytes_v8_open.
  rewrite decrypt_core_reject; [done|apply sample_key_arith|done| | | |].
  - rewrite length_app in *. cbn [length] in *. done.
  - rewrite !length_app in *. unfold NONCE_SIZE in Hn. cbn [length] in *. lia.
  - by rewrite Hm.
  - rewrite Ht. intros Hx. apply app_inv_head in Hx. injection Hx as Hx. by apply (xor_ff_ne b).
Qed.

Lemma kat_v8_structural_Ok : kat_v8_structural_reject = Ok tt.
Proof using Hgate.
  destruct kat_v8_ciphertext as (nonce & masked & He & Hn & Hm & _). cbv zeta in *.
  set (sk_fmt := derive_format_subkey KAT_V8_SK FORMAT_BLOCK_V8) in *.
  pose proof (length_hmac_digest sk_fmt (auth_input nonce [] masked)) as Htl.
  unfold kat_v8_structural_reject. rewrite He. cbn [map_err]. rewrite bind_Ok.
  unfold MAX_NOISE_RUN, TOKEN_WIDTH, NONCE_SIZE in *. 
  bind_ok (apply checked_add_Ok; lia). bind_ok (apply checked_mul_Ok; lia).
  set (ct := (nonce ++ masked) ++ hmac_digest sk_fmt _) in *.
  assert (length ct = 2928)%nat as Hct by (unfold ct; rewrite !length_app; lia).
  unfold TAG_SIZE. bind_ok (apply checked_sub_Ok; lia). bind_ok (apply checked_sub_Ok; lia).
  replace (Z.to_nat (Z.of_nat (length ct) - Z.of_nat 32 - Z.of_nat 8 * (19 + 1))) with 2736%nat by lia.
  bind_ok (apply index_range_Ok; lia).
  assert (slice 0 2736 ct = nonce ++ take 2720 masked) as ->.
  { unfold slice, ct. rewrite drop_0. rewrite take_app_le by (rewrite length_app; lia).
    rewrite take_app_ge by lia. by rewrite Hn. }
  assert (length (take 2720 masked) = 2720%nat) as Hml by (rewrite length_take; lia).
  unfold retag_block_v8. fold sk_fmt.
  rewrite (compute_auth_tag_v8 sk_fmt KAT_V8_AAD nonce (take 2720 masked)) by done.
  rewrite decrypt_bytes_v8_open.
  destruct (decrypt_core_authentic sample_key KAT_V8_SK [] sample_key_arith nonce (take 2720 masked))
    as (tokens & Htk & Hdec); [done|lia|by rewrite Hml|].
  cbv zeta in Hdec. fold sk_fmt in Hdec. change KAT_V8_AAD with (@nil byte). rewrite Hdec.
  rewrite Hml in Htk. assert (length tokens = 340%nat) as Htk' by lia.
  unfold decrypt_core_v8, MAX_NOISE_RUN. bind_ok (apply checked_add_Ok; lia).
  rewrite Htk'. change (Z.of_nat 340 mod (19 + 1) =? 0) with true. cbn [negb].
  bind_ok (apply checked_div_Ok; lia). change (Z.of_nat 340 / (19 + 1)) with 17.
  by change (legal_real_count 17) with false.
Qed.
End kats.

(** ** What a passing run certifies *)

Section certify.
Context `{Crypto} `{Gate} `{Sha256} `{Hkdf} `{Frodo} `{X25519} (KAT_FRODO_DECAP : list byte).

(** The stream of KAT-11: the only chunk frame removed. *)
Definition truncated_stream (ct : list byte) : list byte := take 21 ct ++ drop 1337 ct.

Definition kem_answers (e : post_env) : Prop :=
  derive_napqes_key KAT_KEM_SHARED_SECRET = Ok KAT_KEM_EXPECTED_KEY ∧
  decapsulate (drop (Z.to_nat FRODO_SECRET_KEY_SIZE) KAT_FRODO_DECAP)
    (take (Z.to_nat FRODO_SECRET_KEY_SIZE) KAT_FRODO_DECAP) = Ok KAT_FRODO_EXPECTED_KEY ∧
  x25519_dh KAT_X25519_ALICE_SK KAT_X25519_BOB_PK = KAT_X25519_SHARED ∧
  derive_napqes_key_hybrid (replicate 16 x00) (byte_of_Z <$> seqZ 1 32)
    (hybrid_transcript (list_byte_of_string "PK-PQ") (list_byte_of_string "CT-PQ")
       (list_byte_of_string "PK-EC-STATIC") (list_byte_of_string "PK-EC-EPH"))
    = Ok KAT_HYBRID_EXPECTED_KEY ∧
  is_ok (encapsulate (keygen (frodo_seeds e).1).1 (frodo_seeds e).2) = true ∧
  is_ok (encapsulate_hybrid (keygen_hybrid (hybrid_seeds e).1 (hybrid_ec e).1).1
           (hybrid_seeds e).2 (hybrid_ec e).2) = true.

Definition stream_answers : Prop :=
  ∃ ct, encrypt_stream_ae_v8_with_nonce stream_kat.MESSAGE stream_kat.PRIMES stream_kat.SK stream_kat.NONCE []
          stream_kat.FRAME = Ok ct ∧
    sha256 ct = stream_kat.EXPECTED_SHA256 ∧
    ∀ m, decrypt_stream_ae_v8 (truncated_stream ct) stream_kat.PRIMES stream_kat.SK [] ≠ Ok m.

(** The installed reference value, if there is one, is the HMAC of the image. *)
Definition integrity_holds (e : post_env) : Prop :=
  current_exe e = true ∧
  match exe_sidecar e with
  | ReadOk reference => ∃ image, exe_image e = ReadOk image ∧
      decode_hex (trim reference) = Ok (integrity_tag image)
  | ReadNotFound => fips_integrity e = false
  | ReadFailed => False
  end.

Definition post_passes (e : post_env) : Prop :=
  fail_next_post e = false ∧
  (∃ c, decode_hex KAT_CIPHERTEXT_HEX = Ok c ∧
        encrypt_bytes_with_nonce KAT_MESSAGE KAT_KEY KAT_NONCE [] = Ok c) ∧
  (∃ ct, encrypt_bytes_v8 KAT_V8_MESSAGE KAT_V8_PRIMES KAT_V8_SK KAT_V8_AAD = Ok ct ∧
         sha256 ct = KAT_V8_EXPECTED_SHA256) ∧
  kem_answers e ∧
  (experimental_stream e = true → stream_answers) ∧
  (∀ v, NAPQES_ATTESTED_VERSION e = Some v → v = CARGO_PKG_VERSION e) ∧
  integrity_holds e.

(** [?] on a test: it passes and the rest passes. *)
Lemma then_Ok {E} (m k : outcome E unit) : (_ ← m; k) = Ok tt ↔ m = Ok tt ∧ k = Ok tt.
Proof using Type. rewrite bind_Ok_iff. split; [intros ([] & ? & ?); done|intros [? ?]; by exists tt]. Qed.

Lemma expect_ok_Ok {A} e (p : A → bool) r : expect_ok e p r = Ok tt ↔ ∃ a, r = Ok a ∧ p a = true.
Proof using Type.
  destruct r as [a| |]; cbn [expect_ok]; [|split; [done|by intros (? & ? & _)]..].
  split.
  - intros Hp. exists a. split; [done|]. by destruct (p a).
  - by intros (a' & [= ->] & ->).
Qed.

Lemma expect_eq_Ok {A} `{EqDecision A} e (x : A) r :
  expect_ok e (λ a, bool_decide (a = x)) r = Ok tt ↔ r = Ok x.
Proof using Type.
  rewrite expect_ok_Ok. split; [intros (a & -> & ->%bool_decide_eq_true); done|].
  intros ->. exists x. by rewrite bool_decide_eq_true_2.
Qed.

Lemma kat_encrypt_Ok :
  kat_encrypt = Ok tt ↔ ∃ c, decode_hex KAT_CIPHERTEXT_HEX = Ok c ∧
    encrypt_bytes_with_nonce KAT_MESSAGE KAT_KEY KAT_NONCE [] = Ok c.
Proof using Type.
  unfold kat_encrypt. rewrite bind_Ok_iff. split; intros (c & Hc & He); exists c; (split; [done|]).
  - by apply expect_eq_Ok in He.
  - by apply expect_eq_Ok.
Qed.

Lemma sha_eq (c expected : list byte) : negb (ct_eq_bytes (sha256 c) expected) = false ↔ sha256 c = expected.
Proof using Type. rewrite negb_false_iff. apply ct_eq_spec. Qed.

Lemma build_provenance_Ok e :
  build_provenance_check e = Ok tt ↔ ∀ v, NAPQES_ATTESTED_VERSION e = Some v → v = CARGO_PKG_VERSION e.
Proof using Type.
  unfold build_provenance_check. destruct (NAPQES_ATTESTED_VERSION e) as [v|]; [|naive_solver].
  case_bool_decide; naive_solver.
Qed.

Lemma verify_module_integrity_Ok reference image :
  verify_module_integrity (ReadOk reference) (ReadOk image) = Ok true ↔
  decode_hex (trim reference) = Ok (integrity_tag image).
Proof using Type.
  unfold verify_module_integrity. rewrite bind_Ok_iff. split.
  - intros (expected & Hd & Heq). destruct (decode_hex (trim reference)) as [x| |]; [|done..].
    injection Hd as ->. case_if_in Heq; [|done].
    match goal with Hx : ct_eq_bytes _ _ = true |- _ => apply ct_eq_spec in Hx as -> end. done.
  - intros ->. eexists. split; [done|]. rewrite bool_decide_eq_true_2 by apply length_hmac_digest.
    unfold ct_eq_bytes. by rewrite (proj2 (ct_eq_spec _ _) eq_refl).
Qed.

Lemma verify_module_integrity_cases sidecar module :
  match verify_module_integrity sidecar module with
  | Ok true => ∃ reference image, sidecar = ReadOk reference ∧ module = ReadOk image
  | Ok false => sidecar = ReadNotFound
  | Err e => e = IntegrityCheckFailed
  | Panic p => ∃ reference, sidecar = ReadOk reference ∧ decode_hex (trim reference) = Panic p
  end.
Proof using Type.
  unfold verify_module_integrity. destruct sidecar as [reference| |]; [|done..].
  destruct (decode_hex (trim reference)) as [x| |p] eqn:Hd; cbn [map_err]; [|done|by exists reference].
  rewrite bind_Ok. destruct module as [image| |]; [|done..]. case_if; [by exists reference, image|done].
Qed.

Lemma software_integrity_Ok e : software_integrity_check e = Ok tt ↔ integrity_holds e.
Proof using Type.
  unfold software_integrity_check, integrity_holds. destruct (current_exe e); cbn [negb]; [|naive_solver].
  rewrite bind_Ok_iff.
  pose proof (verify_module_integrity_cases (exe_sidecar e) (exe_image e)) as Hc. split.
  - intros (present & Hv & Hp). rewrite Hv in Hc. split; [done|]. destruct present.
    + destruct Hc as (reference & image & Hs & Hi). rewrite Hs. exists image.
      split; [done|]. apply verify_module_integrity_Ok. by rewrite <-Hs, <-Hi.
    + rewrite Hc. by destruct (fips_integrity e).
  - intros [_ Hs]. destruct (exe_sidecar e) as [reference| |]; [| |done].
    + destruct Hs as (image & -> & Hd). exists true. split; [|done]. by apply verify_module_integrity_Ok.
    + exists false. split; [done|]. by rewrite Hs.
Qed.
End certify.

Section certified.
Context `{Crypto} `{Gate} `{Sha256} `{Hkdf} `{Frodo} `{X25519} (Hgate : gate_open).

Lemma guard_Ok {E} (P : Prop) `{Decision P} (e : E) (m : outcome E unit) :
  (if negb (bool_decide P) then Err e else m) = Ok tt ↔ P ∧ m = Ok tt.
Proof using Type. case_bool_decide; naive_solver. Qed.

Lemma expect_err_any {A} e (r : outcome error A) :
  no_panic r → expect_err e (λ _, true) r = Ok tt ↔ ∀ a, r ≠ Ok a.
Proof using Type. destruct r; cbn [expect_err no_panic]; naive_solver. Qed.

(** A pairwise-consistency test passes as soon as its encapsulation returns. *)
Lemma pairwise_Ok e (r : outcome error (list byte * list Z)) dec (k : outcome SelfTestError unit) :
  match r with Ok (ct, key) => dec ct = Ok key | _ => True end →
  (x ← map_err (λ _, e) r; _ ← expect_ok e (λ key, bool_decide (key = x.2)) (dec x.1); k) = Ok tt ↔
  is_ok r = true ∧ k = Ok tt.
Proof using Type.
  destruct r as [[ct key]|x|p]; cbn [map_err is_ok]; [|naive_solver..].
  intros Hd. rewrite bind_Ok. cbn [fst snd]. rewrite Hd. cbn [expect_ok].
  rewrite bool_decide_eq_true_2, bind_Ok by done. tauto.
Qed.

Lemma pairwise_last_Ok e (r : outcome error (list byte * list Z)) dec :
  match r with Ok (ct, key) => dec ct = Ok key | _ => True end →
  (x ← map_err (λ _, e) r; expect_ok e (λ key, bool_decide (key = x.2)) (dec x.1)) = Ok tt ↔ is_ok r = true.
Proof using Type.
  destruct r as [[ct key]|x|p]; cbn [map_err is_ok]; [|done..].
  intros Hd. rewrite bind_Ok. cbn [fst snd]. rewrite Hd. cbn [expect_ok].
  by rewrite bool_decide_eq_true_2 by done.
Qed.

Lemma kat_v8_encrypt_Ok :
  kat_v8_encrypt = Ok tt ↔
  ∃ ct, encrypt_bytes_v8 KAT_V8_MESSAGE KAT_V8_PRIMES KAT_V8_SK KAT_V8_AAD = Ok ct ∧
        sha256 ct = KAT_V8_EXPECTED_SHA256.
Proof using Hgate.
  destruct (kat_v8_ciphertext Hgate) as (nonce & masked & He & Hn & Hm & _). cbv zeta in *.
  set (ct := (nonce ++ masked) ++ _) in *.
  assert (Z.of_nat (length ct) = 2928) as Hl.
  { unfold ct. rewrite !length_app, length_hmac_digest, Hn. unfold NONCE_SIZE. lia. }
  unfold kat_v8_encrypt. rewrite He. cbn [map_err]. rewrite bind_Ok, Hl.
  change (2928 =? KAT_V8_EXPECTED_LEN) with true. cbn [negb].
  pose proof (sha_eq ct KAT_V8_EXPECTED_SHA256) as Hs.
  destruct (negb (ct_eq_bytes (sha256 ct) KAT_V8_EXPECTED_SHA256)).
  - split; [done|]. intros (ct' & [= <-] & Heq). by apply Hs in Heq.
  - split; [|done]. intros _. exists ct. split; [done|]. by apply Hs.
Qed.

Lemma kat_stream_ciphertext :
  ∃ ct, encrypt_stream_ae_v8_with_nonce stream_kat.MESSAGE stream_kat.PRIMES stream_kat.SK stream_kat.NONCE []
          stream_kat.FRAME = Ok ct ∧ length ct = 1381%nat ∧
    decrypt_stream_ae_v8 ct stream_kat.PRIMES stream_kat.SK [] = Ok stream_kat.MESSAGE.
Proof using Hgate.
  assert (str_ok stream_kat.MESSAGE) as Hm by (repeat constructor).
  pose proof (stream_encrypt_decrypt_cases stream_kat.MESSAGE stream_kat.PRIMES stream_kat.SK stream_kat.NONCE []
    stream_kat.FRAME Hgate sample_key_valid ltac:(done) eq_refl Hm ltac:(done)) as Hc.
  cbv zeta in Hc. destruct (encrypt_stream_ae_v8_with_nonce _ _ _ _ _ _) as [ct|e|]; [| |done].
  - destruct Hc as (Hd & _ & C & HC & Hl). exists ct. split_and!; [done| |done].
    change (Z.of_nat (length stream_kat.MESSAGE)) with 1 in HC. unfold canonical_count, stream_kat.FRAME in *. lia.
  - destruct Hc as [_ Hc]. by vm_compute in Hc.
Qed.

Lemma kat_stream_Ok : kat_stream = Ok tt ↔ stream_answers.
Proof using Hgate.
  destruct kat_stream_ciphertext as (ct & He & Hl & Hd). unfold kat_stream, stream_answers.
  rewrite He. cbn [map_err]. rewrite bind_Ok, Hl. change (Z.of_nat 1381 =? stream_kat.EXPECTED_LEN) with true.
  cbn [negb orb]. rewrite guard_Ok, Hd. cbn [expect_ok]. rewrite bool_decide_eq_true_2, bind_Ok by done.
  unfold stream_kat.FRAME, TAG_SIZE. bind_ok (apply checked_mul_Ok; lia). bind_ok (apply checked_add_Ok; lia).
  bind_ok (apply checked_add_Ok; lia). bind_ok (apply index_range_Ok; lia).
  bind_ok (apply checked_add_Ok; lia).
  replace (Z.to_nat (21 + (4 + 8 * 160 + Z.of_nat 32))) with 1337%nat by lia.
  bind_ok (apply index_range_Ok; lia).
  assert (slice 0 21 ct ++ slice 1337 1381 ct = truncated_stream ct) as ->.
  { unfold slice, truncated_stream. rewrite drop_0. f_equal. apply firstn_all2. rewrite length_drop. lia. }
  destruct (decrypt_stream_inner_spec sample_key (derive_format_subkey stream_kat.SK FORMAT_STREAM_AE_V8) []
    (truncated_stream ct) sample_key_arith) as [Hnp _].
  { unfold truncated_stream. rewrite length_app, length_take, length_drop. lia. }
  assert (no_panic (decrypt_stream_ae_v8 (truncated_stream ct) stream_kat.PRIMES stream_kat.SK [])) as Hnp'.
  { unfold decrypt_stream_ae_v8. rewrite Hgate, bind_Ok.
    by rewrite (validate_key_valid stream_kat.PRIMES sample_key_valid), bind_Ok. }
  rewrite expect_err_any by exact Hnp'. split.
  - intros [Hsha Hx]. exists ct. exact (conj eq_refl (conj Hsha Hx)).
  - intros (ct' & Heq & Hsha & Hx). apply (f_equal (from_ok [])) in Heq. cbn [from_ok] in Heq.
    subst ct'. exact (conj Hsha Hx).
Qed.

Context (KAT_FRODO_DECAP : list byte) (Hsizes : frodo640_sizes).
Context (Hkat : FRODO_SECRET_KEY_SIZE ≤ Z.of_nat (length KAT_FRODO_DECAP)).

Lemma kat_kem_Ok e :
  Z.of_nat (length (hybrid_ec e).1) = X25519_KEY_SIZE →
  kat_kem KAT_FRODO_DECAP e = Ok tt ↔ kem_answers KAT_FRODO_DECAP e.
Proof using Hgate Hsizes Hkat.
  intros Hec. unfold kat_kem, kem_answers. cbv zeta.
  rewrite then_Ok, expect_eq_Ok. unfold split_at.
  rewrite (proj2 (Z.ltb_ge _ _)) by done. cbn [map_err]. rewrite bind_Ok.
  rewrite then_Ok, expect_eq_Ok, guard_Ok, kat_transcript_decodes, bind_Ok, then_Ok, expect_eq_Ok.
  pose proof (encapsulate_cases Hgate (frodo_seeds e).1 (frodo_seeds e).2) as Hc.
  pose proof (encapsulate_hybrid_cases Hgate (hybrid_seeds e).1 (hybrid_ec e).1 (hybrid_seeds e).2
    (hybrid_ec e).2 Hsizes Hec) as Hh.
  destruct (keygen (frodo_seeds e).1) as [pk sk].
  destruct (keygen_hybrid (hybrid_seeds e).1 (hybrid_ec e).1) as [pkh skh]. cbn [fst snd] in *.
  rewrite (pairwise_Ok KatKemFailed (encapsulate pk _) (λ ct, decapsulate ct sk)).
  2: { by destruct (encapsulate pk _) as [[ct key]| |]; [apply Hc|..]. }
  rewrite (pairwise_last_Ok KatKemFailed (encapsulate_hybrid pkh _ _) (λ ct, decapsulate_hybrid ct skh)).
  2: { by destruct (encapsulate_hybrid pkh _ _) as [[ct key]| |]; [apply Hh|..]. }
  done.
Qed.

Lemma kat_decrypt_Ok c :
  decode_hex KAT_CIPHERTEXT_HEX = Ok c → decrypt_bytes c KAT_KEY [] = Ok KAT_MESSAGE → kat_decrypt = Ok tt.
Proof using Type. intros Hc Hd. unfold kat_decrypt. rewrite Hc, bind_Ok. by apply expect_eq_Ok. Qed.

#[local] Opaque kat_encrypt kat_decrypt kat_tamper_rejection kat_v8_encrypt kat_v8_decrypt
  kat_v8_structural_reject kat_v8_tamper_rejection kat_kem kat_stream stream_answers.

(** Every test but KAT-1, KAT-4, the known answers of KAT-8, KAT-9 and KAT-11 and
    the integrity checks passes by construction. *)
Lemma post_checks_Ok e :
  Z.of_nat (length (hybrid_ec e).1) = X25519_KEY_SIZE →
  post_checks KAT_FRODO_DECAP e = Ok tt ↔ post_passes KAT_FRODO_DECAP e.
Proof using Hgate Hsizes Hkat.
  intros Hec. unfold post_checks, post_passes.
  assert ((if experimental_stream e then kat_stream else Ok tt) = Ok tt ↔
          (experimental_stream e = true → stream_answers)) as Hstream.
  { destruct (experimental_stream e); [rewrite kat_stream_Ok; tauto|by split]. }
  pose proof kat_encrypt_Ok as Hk1. pose proof kat_v8_encrypt_Ok as Hk4. pose proof (kat_kem_Ok e Hec) as Hk8.
  pose proof (build_provenance_Ok e) as HI1. pose proof (software_integrity_Ok e) as HI2.
  destruct (fail_next_post e); [split; [done|by intros [? _]]|]. split.
  - intros [K1 K]%then_Ok. do 2 apply then_Ok in K as [_ K]. apply then_Ok in K as [K4 K].
    do 3 apply then_Ok in K as [_ K]. apply then_Ok in K as [K8 K].
    apply then_Ok in K as [Ks K]. apply then_Ok in K as [I1 I2].
    exact (conj eq_refl (conj (proj1 Hk1 K1) (conj (proj1 Hk4 K4) (conj (proj1 Hk8 K8)
      (conj (proj1 Hstream Ks) (conj (proj1 HI1 I1) (proj1 HI2 I2))))))).
  - intros (_ & K1 & K4 & K8 & Ks & I1 & I2). destruct K1 as (c & Hc & He).
    pose proof (kat_v7_cases Hgate c Hc He) as Hd.
    pose proof (kat_decrypt_Ok c Hc Hd) as K2.
    pose proof (kat_tamper_follows Hgate c KAT_MESSAGE Hc Hd) as K3.
    pose proof (proj2 Hk1 (ex_intro _ c (conj Hc He))) as K1.
    pose proof (kat_v8_decrypt_Ok Hgate) as K5. pose proof (kat_v8_structural_Ok Hgate) as K6.
    pose proof (kat_v8_tamper_Ok Hgate) as K7.
    apply Hk4 in K4. apply Hk8 in K8. apply Hstream in Ks. apply HI1 in I1. apply HI2 in I2.
    repeat (apply then_Ok; split; [assumption|]). exact I2.
Qed.
End certified.

(** ** Properties *)

Lemma napqes_integrity_decodes `{Crypto} image :
  decode_hex (trim (napqes_integrity image)) = Ok (integrity_tag image).
Proof.
  unfold napqes_integrity. rewrite trim_line; [apply decode_hex_to_hex| |apply to_hex_printable].
  intros Hnil. destruct (to_hex_ascii (integrity_tag image)) as [_ Hl]. rewrite Hnil in Hl.
  pose proof (length_hmac_digest INTEGRITY_KEY image) as Hh. unfold integrity_tag in Hl. rewrite Hh in Hl.
  simpl in Hl. lia.
Qed.

(** The reference written for one image, read next to another. *)
Lemma verify_written `{Crypto} image image' :
  verify_module_integrity (ReadOk (napqes_integrity image)) (ReadOk image')
  = if bool_decide (integrity_tag image' = integrity_tag image) then Ok true else Err IntegrityCheckFailed.
Proof.
  unfold verify_module_integrity. rewrite napqes_integrity_decodes. cbn [map_err].
  rewrite bind_Ok. rewrite bool_decide_eq_true_2 by apply length_hmac_digest. unfold ct_eq_bytes. cbn [andb].
  destruct (ct_eq (integrity_tag image) (integrity_tag image')) eqn:Heq.
  - apply ct_eq_spec in Heq. by rewrite bool_decide_eq_true_2.
  - rewrite bool_decide_eq_false_2; [done|]. intros Ht.
    rewrite (proj2 (ct_eq_spec _ _)) in Heq by done. done.
Qed.

Lemma decode_hex_pairs_ascii s :
  Forall (λ b, byte_to_Z b < 128) s → no_panic (decode_hex_pairs s).
Proof.
  revert s. fix IH 1. intros [|a [|b s]] Hs; [done..|]. cbn [decode_hex_pairs].
  apply Forall_cons in Hs as [_ Hs]. apply Forall_cons in Hs as [_ Hs].
  assert (match s with c :: _ => is_continuation c | [] => false end = false) as ->.
  { destruct Hs as [|c s Hc _]; [done|]. unfold is_continuation. by rewrite (proj2 (Z.leb_gt _ _)) by lia. }
  apply no_panic_bind; [apply no_panic_opt_or|]. intros v _. apply no_panic_bind; [by apply IH|done].
Qed.

Lemma as_bytes_low s : Forall (λ c, 0 ≤ c < 128) s → Forall (λ b, byte_to_Z b < 128) (as_bytes s).
Proof.
  unfold as_bytes. induction 1 as [|c s Hc _ IH]; [constructor|]. rewrite fmap_cons. cbn [concat].
  rewrite utf8_char_ascii by done. constructor; [rewrite byte_to_of_Z_small; lia|done].
Qed.

(** Only a non-ASCII reference value can panic. *)
Lemma decode_hex_ascii s : Forall (λ c, 0 ≤ c < 128) s → no_panic (decode_hex s).
Proof.
  intros Hs. unfold decode_hex. case_if; [done|]. apply decode_hex_pairs_ascii, as_bytes_low.
  rewrite Forall_forall in Hs |- *. intros c [_ Hc]%list_elem_of_filter. by apply Hs.
Qed.

(** C17: INT-2 accepts exactly the image its reference value was made for: a
    reference written by [napqes_integrity] verifies, against another image it
    verifies only if the HMACs coincide and is a failure otherwise; in general the
    check succeeds only when the reference is the hexadecimal of the image's HMAC,
    reports a missing reference apart, and on an ASCII reference never panics. *)
Theorem verify_module_integrity_correct `{Crypto} :
  (∀ image image',
     verify_module_integrity (ReadOk (napqes_integrity image)) (ReadOk image')
     = if bool_decide (integrity_tag image' = integrity_tag image) then Ok true else Err IntegrityCheckFailed) ∧
  (∀ sidecar module,
     (verify_module_integrity sidecar module = Ok true ↔
        ∃ reference image, sidecar = ReadOk reference ∧ module = ReadOk image ∧
          decode_hex (trim reference) = Ok (integrity_tag image)) ∧
     (verify_module_integrity sidecar module = Ok false ↔ sidecar = ReadNotFound) ∧
     (no_panic (verify_module_integrity sidecar module) ∨
        ∃ reference, sidecar = ReadOk reference ∧ ¬ Forall (λ c, 0 ≤ c < 128) (trim reference))).
Proof.
  split.
  - apply verify_written.
  - intros sidecar module. pose proof (verify_module_integrity_cases sidecar module) as Hc. split_and!.
    + split.
      * intros Hv. rewrite Hv in Hc. destruct Hc as (reference & image & -> & ->).
        exists reference, image. split_and!; [done..|]. by apply verify_module_integrity_Ok.
      * intros (reference & image & -> & -> & Hd). by apply verify_module_integrity_Ok.
    + split; [intros Hv; by rewrite Hv in Hc|by intros ->].
    + destruct (verify_module_integrity sidecar module) as [b|e|p]; [by left..|].
      right. destruct Hc as (reference & -> & Hd). exists reference. split; [done|]. intros Ha.
      apply decode_hex_ascii in Ha. by rewrite Hd in Ha.
Qed.

(** C16: the power-on self-tests pass exactly when their known answers hold: with
    the gate open to the POST thread, the sequence succeeds if and only if the v7
    reference ciphertext, the v8 ciphertext digest, the KEM and (when built) stream
    answers, the build provenance and the integrity reference agree; the decryption,
    tamper and structural-rejection tests follow from these for every HMAC, so they
    raise no false alarm. *)
Theorem post_checks_correct `{Crypto} `{Gate} `{Sha256} `{Hkdf} `{Frodo} `{X25519} KAT_FRODO_DECAP e :
  gate_open → frodo640_sizes → FRODO_SECRET_KEY_SIZE ≤ Z.of_nat (length KAT_FRODO_DECAP) →
  Z.of_nat (length (hybrid_ec e).1) = X25519_KEY_SIZE →
  post_checks KAT_FRODO_DECAP e = Ok tt ↔ post_passes KAT_FRODO_DECAP e.
Proof. intros Hg Hs Hl He. exact (post_checks_Ok Hg KAT_FRODO_DECAP Hs Hl e He). Qed.

(** An executable without a reference value, in a default build. *)
Definition sample_env : post_env :=
  PostEnv false true false [48] None true ReadNotFound (ReadOk [x00]) ([x01], [x02]) ([x03], [x04])
    (replicate 32 x05, replicate 32 x06).

Lemma post_checks_correct_witness :
  let _ := Toy.crypto in let _ := default_build in let _ := Toy.sha in let _ := Toy.hkdf in
  let _ := Toy.frodo in let _ := Toy.x25519 in
  let kat := replicate (Z.to_nat 29608) x00 in
  gate_open ∧ (post_checks kat sample_env = Ok tt ↔ post_passes kat sample_env).
Proof.
  intros C G S HK F X kat. assert (gate_open) as Hg by reflexivity.
  assert frodo640_sizes as Hs by (split_and!; reflexivity). split; [exact Hg|].
  assert (FRODO_SECRET_KEY_SIZE ≤ Z.of_nat (length kat)) as Hl.
  { unfold kat. rewrite length_replicate. unfold FRODO_SECRET_KEY_SIZE. lia. }
  assert (Z.of_nat (length (hybrid_ec sample_env).1) = X25519_KEY_SIZE) as He by reflexivity.
  exact (post_checks_correct kat sample_env Hg Hs Hl He).
Defined.
