(* ===== verification/PostLatch.v ===== *)
(** * The state machine of the power-on self-tests ([self_test.rs])

    Any number of threads call [run_power_on_self_tests], [enter_error_state] and
    [require_post]; the latch, the lock that guards its transitions and the
    position of every thread are the state. A thread advances by one access to the
    shared state at a time, so the schedule decides the interleaving. The log
    records what happened, the latest event first. *)
From Stdlib Require Import ZArith Lia Strings.Byte.
From stdpp Require Import base tactics option numbers relations list.
From S2P Require Import Prelude Machine Errors Crates Post Primes Keys Derive Padding Tokens BlockV8.
From S2P Require Import LegacyV7 StreamV8 OtFrame Kem KatVectors SelfTest.

#[local] Open Scope Z_scope.

(** ** The machine *)

(** Where a thread is: which access it performs next. *)
Inductive position (Env : Type) :=
| Idle
| RunLock | RunLoad | RunChecks | RunStore (e : Env) (r : outcome SelfTestError unit)
| RunUnlock (r : outcome SelfTestError unit)
| FailLock | FailStore | FailUnlock
| GateLoad | GateLock | GateLoadLocked | GateUnlock | GateReload.
Arguments Idle {Env}. Arguments RunLock {Env}. Arguments RunLoad {Env}. Arguments RunChecks {Env}.
Arguments RunStore {Env} e r. Arguments RunUnlock {Env} r.
Arguments FailLock {Env}. Arguments FailStore {Env}. Arguments FailUnlock {Env}.
Arguments GateLoad {Env}. Arguments GateLock {Env}. Arguments GateLoadLocked {Env}.
Arguments GateUnlock {Env}. Arguments GateReload {Env}.

Inductive event (Env : Type) :=
| Ran (t : nat) (e : Env) (r : outcome SelfTestError unit)
| Errored (t : nat)
| Gated (t : nat) (r : outcome SelfTestError unit).
Arguments Ran {Env} t e r. Arguments Errored {Env} t. Arguments Gated {Env} t r.

Record system (Env : Type) := MkSystem
  { latch : Z; lock : option nat; threads : list (position Env); log : list (event Env) }.
Arguments MkSystem {Env} latch lock threads log.
Arguments latch {Env} s. Arguments lock {Env} s. Arguments threads {Env} s. Arguments log {Env} s.

Section machine.
(** [checks v e]: the self-tests, run in the environment [e] by a thread that
    finds the latch at [v]. *)
Context {Env : Type} (checks : Z → Env → outcome SelfTestError unit).
Implicit Types (s : system Env) (p : position Env).

(** [run_power_on_self_tests] on its own: its result and the latch it leaves. A
    panicking test leaves the latch at [POST_RUNNING]. *)
Definition run_power_on_self_tests (e : Env) (latch : Z) : outcome SelfTestError unit * Z :=
  if latch =? POST_FAILED then (Err ModuleNotOperational, latch)
  else
    let result := checks POST_RUNNING e in
    (result, match result with Ok _ => POST_PASSED | Err _ => POST_FAILED | Panic _ => POST_RUNNING end).

Definition enter_error_state (latch : Z) : Z := POST_FAILED.

(** The guard [POST_LOCK] is held between these positions. *)
Definition holds p : bool :=
  match p with
  | RunLoad | RunChecks | RunStore _ _ | RunUnlock _ | FailStore | FailUnlock
  | GateLoadLocked | GateUnlock => true
  | _ => false
  end.

Definition move (t : nat) p s : system Env := MkSystem (latch s) (lock s) (<[t := p]> (threads s)) (log s).
Definition store (v : Z) s : system Env := MkSystem v (lock s) (threads s) (log s).
Definition emit (ev : event Env) s : system Env := MkSystem (latch s) (lock s) (threads s) (ev :: log s).
Definition take_lock (t : nat) p s : option (system Env) :=
  match lock s with
  | None => Some (MkSystem (latch s) (Some t) (<[t := p]> (threads s)) (log s))
  | Some _ => None
  end.
Definition drop_lock (t : nat) s : system Env :=
  MkSystem (latch s) None (<[t := Idle]> (threads s)) (log s).

(** One access by thread [t] at position [p]; [None] when it must wait. *)
Definition advance_run (t : nat) (e : Env) s p : option (system Env) :=
  match p with
  | RunLock => take_lock t RunLoad s
  | RunLoad =>
      Some (if latch s =? POST_FAILED
            then emit (Ran t e (Err ModuleNotOperational)) (move t (RunUnlock (Err ModuleNotOperational)) s)
            else store POST_RUNNING (move t RunChecks s))
  | RunChecks =>
      Some (match checks (latch s) e with
            | Panic q => emit (Ran t e (Panic q)) (move t (RunUnlock (Panic q)) s)
            | r => move t (RunStore e r) s
            end)
  | RunStore e' r =>
      Some (emit (Ran t e' r) (store (if is_ok r then POST_PASSED else POST_FAILED) (move t (RunUnlock r) s)))
  | RunUnlock _ => Some (drop_lock t s)
  | _ => None
  end.

Definition advance_fail (t : nat) s p : option (system Env) :=
  match p with
  | FailLock => take_lock t FailStore s
  | FailStore => Some (emit (Errored t) (store (enter_error_state (latch s)) (move t FailUnlock s)))
  | FailUnlock => Some (drop_lock t s)
  | _ => None
  end.

(** [require_post] outside the POST thread. *)
Definition advance_gate (t : nat) s p : option (system Env) :=
  match p with
  | GateLoad => Some (move t (if latch s =? POST_RUNNING then GateLock else GateReload) s)
  | GateLock => take_lock t GateLoadLocked s
  | GateLoadLocked => Some (emit (Gated t (gate_admit (latch s) false)) (move t GateUnlock s))
  | GateUnlock => Some (drop_lock t s)
  | GateReload => Some (emit (Gated t (gate_admit (latch s) false)) (move t Idle s))
  | _ => None
  end.

Definition advance (t : nat) (e : Env) s : option (system Env) :=
  p ← threads s !! t;
  match p with
  | Idle => None
  | RunLock | RunLoad | RunChecks | RunStore _ _ | RunUnlock _ => advance_run t e s p
  | FailLock | FailStore | FailUnlock => advance_fail t s p
  | GateLoad | GateLock | GateLoadLocked | GateUnlock | GateReload => advance_gate t s p
  end.

Definition step s s' : Prop := ∃ t e, advance t e s = Some s'.

(** A thread outside calls one of the three functions. *)
Inductive call s : system Env → Prop :=
| call_run t : threads s !! t = Some Idle → call s (move t RunLock s)
| call_fail t : threads s !! t = Some Idle → call s (move t FailLock s)
| call_gate t : threads s !! t = Some Idle → call s (move t GateLoad s).

Definition next s s' : Prop := call s s' ∨ step s s'.

Definition initial (n : nat) : system Env := MkSystem POST_NOT_RUN None (replicate n Idle) [].
Definition reachable s : Prop := ∃ n, rtc next (initial n) s.

(** The latch after the events of a log, replayed one after the other. *)
Fixpoint replay (l : list (event Env)) : Z :=
  match l with
  | [] => POST_NOT_RUN
  | Ran _ e _ :: l' => (run_power_on_self_tests e (replay l')).2
  | Errored _ :: l' => enter_error_state (replay l')
  | Gated _ _ :: l' => replay l'
  end.

(** Each event is what the sequential functions do at its place in the log. *)
Fixpoint sequential (l : list (event Env)) : Prop :=
  match l with
  | [] => True
  | Ran _ e r :: l' => r = (run_power_on_self_tests e (replay l')).1 ∧ sequential l'
  | Errored _ :: l' => sequential l'
  | Gated _ r :: l' => (r = Ok tt → replay l' = POST_PASSED) ∧ sequential l'
  end.
End machine.

(** ** Invariant *)

Section invariant.
Context {Env : Type} (checks : Z → Env → outcome SelfTestError unit).
Implicit Types (s : system Env) (p : position Env).

(** The tests are executing. *)
Definition running p : bool :=
  match p with RunChecks | RunStore _ _ => true | _ => false end.

(** The lock names the one thread inside the critical section. *)
Definition lock_inv s : Prop :=
  ∀ t, lock s = Some t ↔ ∃ p, threads s !! t = Some p ∧ holds p = true.

(** Outside a run the latch is what the log leaves; during a run it is
    [POST_RUNNING], and the module had not failed. *)
Definition latch_inv s : Prop :=
  (latch s = replay checks (log s) ∧ ∀ t p, threads s !! t = Some p → running p = false) ∨
  (latch s = POST_RUNNING ∧ replay checks (log s) ≠ POST_FAILED ∧
   ∃ t p, threads s !! t = Some p ∧ running p = true).

Definition result_inv s : Prop :=
  ∀ t e r, threads s !! t = Some (RunStore e r) → r = checks POST_RUNNING e ∧ no_panic r.

Definition inv s : Prop :=
  lock_inv s ∧ latch_inv s ∧ result_inv s ∧ sequential checks (log s).

Lemma running_holds p : running p = true → holds p = true.
Proof using Type. by destruct p. Qed.

Lemma one_holder s t t' p p' :
  lock_inv s → threads s !! t = Some p → holds p = true →
  threads s !! t' = Some p' → holds p' = true → t = t'.
Proof using Type.
  intros Hl Ht Hp Ht' Hp'. assert (lock s = Some t) as H1 by (apply Hl; eauto).
  assert (lock s = Some t') as H2 by (apply Hl; eauto). congruence.
Qed.

Lemma lookup_moved (l : list (position Env)) t t' p p' q :
  l !! t = Some p → <[t := p']> l !! t' = Some q → (t' = t ∧ q = p') ∨ (t' ≠ t ∧ l !! t' = Some q).
Proof using Type.
  intros Ht. destruct (decide (t' = t)) as [->|Hne].
  - rewrite list_lookup_insert_eq by (by eapply lookup_lt_Some). intros [= ->]. by left.
  - rewrite list_lookup_insert_ne by done. by right.
Qed.

Lemma lookup_mover (l : list (position Env)) t p p' :
  l !! t = Some p → <[t := p']> l !! t = Some p'.
Proof using Type. intros Ht. apply list_lookup_insert_eq. by eapply lookup_lt_Some. Qed.

(** The lock part: a move inside or outside, an acquisition, a release. *)
Lemma lock_inv_move s t p p' la lo lg :
  lock_inv s → threads s !! t = Some p →
  (lo = lock s ∧ holds p' = holds p) ∨
  (lock s = None ∧ lo = Some t ∧ holds p' = true) ∨
  (holds p = true ∧ lo = None ∧ holds p' = false) →
  lock_inv (MkSystem la lo (<[t := p']> (threads s)) lg).
Proof using Type.
  intros Hl Ht Hcase t'. cbn [lock threads]. split.
  - intros Hlo. destruct Hcase as [[-> Hh]|[(_ & -> & Hh)|(_ & -> & _)]]; [| |done].
    + apply Hl in Hlo as (q & Hq & Hhq). destruct (decide (t' = t)) as [->|Hne].
      * rewrite Ht in Hq. injection Hq as <-. exists p'. split; [by eapply lookup_mover|congruence].
      * exists q. by rewrite list_lookup_insert_ne.
    + injection Hlo as <-. exists p'. split; [by eapply lookup_mover|done].
  - intros (q & Hq & Hhq). destruct (lookup_moved _ _ _ _ _ _ Ht Hq) as [[-> ->]|[Hne Hq']].
    + destruct Hcase as [[-> Hh]|[(_ & -> & _)|(_ & _ & Hh)]]; [|done|congruence].
      apply Hl. exists p. split; [done|congruence].
    + assert (lock s = Some t') as Hlt by (apply Hl; eauto).
      destruct Hcase as [[-> _]|[(Hn & _)|(Hh & _)]]; [done|congruence|].
      exfalso. apply Hne. symmetry. by eapply (one_holder s t t').
Qed.

(** The latch part, when the move changes neither the latch nor what is running. *)
Lemma latch_inv_move s t p p' lo lg :
  latch_inv s → threads s !! t = Some p → running p' = running p →
  replay checks lg = replay checks (log s) →
  latch_inv (MkSystem (latch s) lo (<[t := p']> (threads s)) lg).
Proof using Type.
  intros [[Hla Hr]|(Hla & Hnf & t' & q & Hq & Hrq)] Ht Hp Hlg; unfold latch_inv; cbn [latch threads log];
    rewrite Hlg.
  - left. split; [done|]. intros t'' q Hq.
    destruct (lookup_moved _ _ _ _ _ _ Ht Hq) as [[-> ->]|[_ Hq']]; [rewrite Hp|]; eauto.
  - right. split_and!; [done..|]. destruct (decide (t' = t)) as [->|Hne].
    + exists t, p'. split; [by eapply lookup_mover|]. rewrite Ht in Hq. injection Hq as <-. congruence.
    + exists t', q. by rewrite list_lookup_insert_ne.
Qed.

Lemma result_inv_move s t p p' la lo lg :
  result_inv s → threads s !! t = Some p →
  match p' with RunStore e r => r = checks POST_RUNNING e ∧ no_panic r | _ => True end →
  result_inv (MkSystem la lo (<[t := p']> (threads s)) lg).
Proof using Type.
  intros Hr Ht Hp t' e r Hq. cbn [threads] in Hq.
  destruct (lookup_moved _ _ _ _ _ _ Ht Hq) as [[-> <-]|[_ Hq']]; [done|by eapply Hr].
Qed.

(** The thread in the critical section sees the latch of the log, unless it is
    itself running the tests. *)
Lemma holder_latch s t p :
  inv s → threads s !! t = Some p → holds p = true →
  if running p then latch s = POST_RUNNING ∧ replay checks (log s) ≠ POST_FAILED
  else latch s = replay checks (log s) ∧ ∀ t p, threads s !! t = Some p → running p = false.
Proof using Type.
  intros (Hl & Hla & _) Ht Hh. destruct Hla as [[Heq Hr]|(Heq & Hnf & t' & q & Hq & Hrq)].
  - by rewrite (Hr t p Ht).
  - assert (t = t') as -> by (eapply (one_holder s t t' p q); eauto using running_holds).
    rewrite Ht in Hq. injection Hq as ->. by rewrite Hrq.
Qed.
End invariant.

Section preservation.
Context {Env : Type} (checks : Z → Env → outcome SelfTestError unit).
Implicit Types (s : system Env) (p : position Env).

(** Acquiring the lock. *)
Lemma inv_take_lock s t p p' s' :
  inv checks s → threads s !! t = Some p → take_lock t p' s = Some s' →
  running p = false → running p' = false → holds p' = true → inv checks s'.
Proof using Type.
  intros (Hl & Hla & Hr & Hs) Ht Htake Hp Hp' Hh. unfold take_lock in Htake.
  destruct (lock s) as [o|] eqn:Hlo; [done|]. injection Htake as <-. split_and!; [| | |done].
  - apply (lock_inv_move s t p); auto.
  - apply (latch_inv_move checks s t p); congruence || done.
  - apply (result_inv_move checks s t p); [done..|]. by destruct p'.
Qed.

(** Releasing it. *)
Lemma inv_drop_lock s t p :
  inv checks s → threads s !! t = Some p → running p = false → holds p = true → inv checks (drop_lock t s).
Proof using Type.
  intros (Hl & Hla & Hr & Hs) Ht Hp Hh. split_and!; [| | |done].
  - apply (lock_inv_move s t p); auto.
  - by apply (latch_inv_move checks s t p).
  - by apply (result_inv_move checks s t p).
Qed.

(** A move that does not touch the latch, with the event it may log. *)
Lemma inv_move s t p p' lg :
  inv checks s → threads s !! t = Some p → running p = running p' → holds p = holds p' →
  match p' with RunStore e r => r = checks POST_RUNNING e ∧ no_panic r | _ => True end →
  replay checks lg = replay checks (log s) → sequential checks lg →
  inv checks (MkSystem (latch s) (lock s) (<[t := p']> (threads s)) lg).
Proof using Type.
  intros (Hl & Hla & Hr & Hs) Ht Hrun Hh Hp Hrep Hseq. split_and!; [| | |done].
  - apply (lock_inv_move s t p); auto.
  - by apply (latch_inv_move checks s t p).
  - by apply (result_inv_move checks s t p).
Qed.

(** The holder leaves the latch at [v] together with the log's account of it. *)
Lemma inv_settle s t p p' v lg :
  inv checks s → threads s !! t = Some p → holds p = true → holds p' = true → running p' = false →
  v = replay checks lg → sequential checks lg →
  inv checks (MkSystem v (lock s) (<[t := p']> (threads s)) lg).
Proof using Type.
  intros (Hl & Hla & Hr & Hs) Ht Hh Hh' Hp' Hv Hseq. split_and!; [| | |done].
  - apply (lock_inv_move s t p); [done..|]. left. split; congruence.
  - left. split; [done|]. cbn [threads]. intros t' q Hq.
    destruct (lookup_moved _ _ _ _ _ _ Ht Hq) as [[-> ->]|[Hne Hq']]; [done|].
    destruct (running q) eqn:Hrq; [|done]. exfalso. apply Hne. symmetry.
    by eapply (one_holder s t t' p q); eauto using running_holds.
  - apply (result_inv_move checks s t p); [done..|]. by destruct p'.
Qed.

(** The tests start. *)
Lemma inv_start s t :
  inv checks s → threads s !! t = Some RunLoad → latch s ≠ POST_FAILED →
  inv checks (store POST_RUNNING (move t RunChecks s)).
Proof using Type.
  intros Hinv Ht Hne. destruct (holder_latch checks s t RunLoad Hinv Ht eq_refl) as [Hla _].
  destruct Hinv as (Hl & _ & Hr & Hs). split_and!; [| | |done].
  - apply (lock_inv_move s t RunLoad); auto.
  - right. cbn [store move latch log threads]. split_and!; [done|congruence|].
    exists t, RunChecks. split; [by eapply lookup_mover|done].
  - by apply (result_inv_move checks s t RunLoad).
Qed.

(** A gate lets a caller in only on a passed latch. *)
Lemma gate_admit_passed v : gate_admit v false = Ok tt → v = POST_PASSED.
Proof using Type. unfold gate_admit. rewrite andb_false_r. case_if; [done|discriminate]. Qed.

Lemma passed_replay s : inv checks s → latch s = POST_PASSED → replay checks (log s) = POST_PASSED.
Proof using Type. intros (_ & [[Hla _]|(Hla & _)] & _) Hp; [congruence|by rewrite Hla in Hp]. Qed.

Lemma inv_advance t e s s' : inv checks s → advance checks t e s = Some s' → inv checks s'.
Proof using Type.
  intros Hinv. unfold advance, advance_run, advance_fail, advance_gate. destruct (threads s !! t) as [p|] eqn:Ht; [|done].
  cbn [mbind option_bind].
  assert (∀ r, gate_admit (latch s) false = r → sequential checks (Gated t r :: log s)) as Hgate.
  { intros r <-. split; [|by apply Hinv]. intros Hg. by apply passed_replay, gate_admit_passed. }
  destruct p; [done|..].
  - intros Htake. by eapply inv_take_lock.
  - intros [= <-]. destruct (holder_latch checks s t _ Hinv Ht eq_refl) as [Hla _].
    destruct (Z.eqb_spec (latch s) POST_FAILED) as [Hf|Hf]; [|by apply inv_start].
    unfold emit, move. cbn [latch lock threads log].
    apply (inv_settle s t RunLoad); [done..| |]; unfold run_power_on_self_tests; cbn [replay sequential];
      unfold run_power_on_self_tests; rewrite <-Hla, Hf; [done|]. split; [done|by apply Hinv].
  - intros [= <-]. destruct (holder_latch checks s t _ Hinv Ht eq_refl) as [Hla Hnf].
    assert (∀ r, checks (latch s) e = r → (r, match r with Ok _ => POST_PASSED | Err _ => POST_FAILED
        | Panic _ => POST_RUNNING end) = run_power_on_self_tests checks e (replay checks (log s))) as Hrun.
    { intros r <-. unfold run_power_on_self_tests. rewrite (proj2 (Z.eqb_neq _ _)) by done. by rewrite Hla. }
    destruct (checks (latch s) e) as [[]|x|q] eqn:Hc; specialize (Hrun _ eq_refl).
    1,2: apply (inv_move s t RunChecks); try done; [by rewrite <-Hla, Hc|by apply Hinv].
    unfold emit, move. cbn [latch lock threads log].
    apply (inv_settle s t RunChecks); [done..| |]; cbn [replay sequential]; rewrite <-Hrun; [done|].
    split; [done|by apply Hinv].
  - intros [= <-]. destruct (holder_latch checks s t _ Hinv Ht eq_refl) as [Hla Hnf].
    destruct Hinv as (Hl & Hlat & Hr & Hs). destruct (Hr t e0 r Ht) as [-> Hnp].
    assert ((checks POST_RUNNING e0, if is_ok (checks POST_RUNNING e0) then POST_PASSED else POST_FAILED)
            = run_power_on_self_tests checks e0 (replay checks (log s))) as Hrun.
    { unfold run_power_on_self_tests. rewrite (proj2 (Z.eqb_neq _ _)) by done.
      by destruct (checks POST_RUNNING e0). }
    unfold emit, store, move. cbn [latch lock threads log].
    apply (inv_settle s t (RunStore e0 (checks POST_RUNNING e0))); [by split_and!|done..| |];
      cbn [replay sequential]; rewrite <-Hrun; [done|]. by split.
  - intros [= <-]. by eapply inv_drop_lock.
  - intros Htake. by eapply inv_take_lock.
  - intros [= <-]. unfold emit, store, move. cbn [latch lock threads log].
    apply (inv_settle s t FailStore); [done..|]. by apply Hinv.
  - intros [= <-]. by eapply inv_drop_lock.
  - intros [= <-]. unfold move. apply (inv_move s t GateLoad); try done; try (by case_if); by apply Hinv.
  - intros Htake. by eapply inv_take_lock.
  - intros [= <-]. unfold emit, move. cbn [latch lock threads log].
    apply (inv_move s t GateLoadLocked); try done. by apply Hgate.
  - intros [= <-]. by eapply inv_drop_lock.
  - intros [= <-]. unfold emit, move. cbn [latch lock threads log].
    apply (inv_move s t GateReload); try done. by apply Hgate.
Qed.

Lemma inv_call s s' : inv checks s → call s s' → inv checks s'.
Proof using Type.
  intros Hinv [t Ht|t Ht|t Ht]; unfold move; apply (inv_move s t Idle); try done; by apply Hinv.
Qed.

Lemma inv_initial n : inv checks (initial n).
Proof using Type.
  split_and!; [| | |done].
  - intros t. cbn. split; [done|]. intros (p & Hp & Hh).
    apply lookup_replicate in Hp as [-> _]. done.
  - left. split; [done|]. intros t p Hp. cbn in Hp. apply lookup_replicate in Hp as [-> _]. done.
  - intros t e r Hp. cbn in Hp. by apply lookup_replicate in Hp as [? _].
Qed.

Lemma inv_reachable s : reachable checks s → inv checks s.
Proof using Type.
  intros (n & Hs). revert Hs. apply (rtc_ind_r (inv checks)); [apply inv_initial|].
  intros s1 s2 _ [Hc|(t & e & Ha)] Hinv; [by eapply inv_call|by eapply inv_advance].
Qed.
End preservation.

(** ** What a log tells *)

Section logs.
Context {Env : Type} (checks : Z → Env → outcome SelfTestError unit).
Implicit Types (l : list (event Env)) (ev : event Env).

(** A run that ended in an error, or a conditional self-test failure. *)
Definition failure ev : Prop :=
  match ev with Ran _ _ (Err _) | Errored _ => True | _ => False end.

Definition refused ev : Prop :=
  match ev with
  | Ran _ _ r => r = Err ModuleNotOperational
  | Errored _ => True
  | Gated _ r => r ≠ Ok tt
  end.

Lemma sequential_app l1 l2 : sequential checks (l1 ++ l2) → sequential checks l2.
Proof using Type. induction l1 as [|ev l1 IH]; [done|]. destruct ev; cbn; tauto. Qed.

Lemma failure_replay ev l : sequential checks (ev :: l) → failure ev → replay checks (ev :: l) = POST_FAILED.
Proof using Type.
  destruct ev as [t e [u|x|q]| |]; try done. cbn [sequential replay]. intros [Hr _] _.
  unfold run_power_on_self_tests in *. case_if; cbn [fst snd] in *; [done|]. by rewrite <-Hr.
Qed.

Lemma failed_sticky l1 l2 :
  sequential checks (l1 ++ l2) → replay checks l2 = POST_FAILED →
  replay checks (l1 ++ l2) = POST_FAILED ∧ Forall refused l1.
Proof using Type.
  intros Hs Hf. induction l1 as [|ev l1 IH]; [by split|]. cbn [app] in *.
  destruct ev as [t e r|t|t r]; cbn [sequential replay] in *.
  - destruct Hs as [Hr Hs]. destruct (IH Hs) as [Hrep Hall]. rewrite Hrep in *.
    unfold run_power_on_self_tests in *. cbn in *. split; [done|by constructor].
  - destruct (IH Hs) as [Hrep Hall]. split; [done|by constructor].
  - destruct Hs as [Hr Hs]. destruct (IH Hs) as [Hrep Hall]. split; [done|]. constructor; [|done].
    intros Hok. apply Hr in Hok. by rewrite Hrep in Hok.
Qed.

Lemma no_failure l ev : sequential checks l → replay checks l ≠ POST_FAILED → ev ∈ l → ¬ failure ev.
Proof using Type.
  intros Hs Hne (l1 & l2 & ->)%list_elem_of_split Hf. apply Hne. apply sequential_app in Hs as Hs2.
  by apply (failed_sticky l1), failure_replay.
Qed.

Lemma passed_run l :
  sequential checks l → replay checks l = POST_PASSED →
  ∃ t e, Ran t e (Ok tt) ∈ l ∧ checks POST_RUNNING e = Ok tt.
Proof using Type.
  induction l as [|ev l IH]; [done|]. destruct ev as [t e r|t|t r]; cbn [sequential replay]; [|done|].
  - intros [Hr Hs] Hp. unfold run_power_on_self_tests in *.
    destruct (Z.eqb_spec (replay checks l) POST_FAILED) as [Hf|]; cbn [fst snd] in *; [by rewrite Hf in Hp|].
    exists t, e. destruct (checks POST_RUNNING e) as [[]|x|q]; [|done..]. subst r. split; [left|done].
  - intros [_ Hs] Hp. destruct (IH Hs Hp) as (t' & e & ? & ?). exists t', e. split; [by right|done].
Qed.

Lemma running_panicked l :
  sequential checks l → replay checks l = POST_RUNNING →
  ∃ t e q, Ran t e (Panic q) ∈ l ∧ checks POST_RUNNING e = Panic q.
Proof using Type.
  induction l as [|ev l IH]; [done|]. destruct ev as [t e r|t|t r]; cbn [sequential replay]; [|done|].
  - intros [Hr Hs] Hp. unfold run_power_on_self_tests in *.
    destruct (Z.eqb_spec (replay checks l) POST_FAILED) as [Hf|]; cbn [fst snd] in *; [by rewrite Hf in Hp|].
    destruct (checks POST_RUNNING e) as [[]|x|q] eqn:Hc; [done..|]. exists t, e, q. subst r. split; [left|done].
  - intros [_ Hs] Hp. destruct (IH Hs Hp) as (t' & e & q & ? & ?). exists t', e, q. split; [by right|done].
Qed.
End logs.

(** ** Progress *)

Section progress.
Context {Env : Type} (checks : Z → Env → outcome SelfTestError unit).
Implicit Types (s : system Env) (p : position Env).

(** How many accesses a thread has at most before it is out again. *)
Definition rank p : nat :=
  match p with
  | Idle => 0
  | RunLock => 5 | RunLoad => 4 | RunChecks => 3 | RunStore _ _ => 2 | RunUnlock _ => 1
  | FailLock => 3 | FailStore => 2 | FailUnlock => 1
  | GateLoad => 4 | GateLock => 3 | GateLoadLocked => 2 | GateUnlock => 1 | GateReload => 1
  end.

Definition remaining s : nat := sum_list (rank <$> threads s).

Lemma sum_list_insert (l : list nat) t x y : l !! t = Some x → (sum_list (<[t := y]> l) + x = sum_list l + y)%nat.
Proof using Type.
  revert t. induction l as [|z l IH]; intros [|t] Ht; [done..| |].
  - injection Ht as ->. simpl. lia.
  - specialize (IH t Ht). simpl in *. lia.
Qed.

Lemma remaining_move s t p p' la lo lg :
  threads s !! t = Some p → (rank p' < rank p)%nat →
  (remaining (MkSystem la lo (<[t := p']> (threads s)) lg) < remaining s)%nat.
Proof using Type.
  intros Ht Hr. unfold remaining. cbn [threads]. rewrite list_fmap_insert.
  pose proof (sum_list_insert (rank <$> threads s) t (rank p) (rank p')) as Hs.
  rewrite list_lookup_fmap, Ht in Hs. specialize (Hs eq_refl). lia.
Qed.

(** Every access brings its thread closer to the end of its call. *)
Lemma advance_remaining t e s s' : advance checks t e s = Some s' → (remaining s' < remaining s)%nat.
Proof using Type.
  unfold advance, advance_run, advance_fail, advance_gate. destruct (threads s !! t) as [p|] eqn:Ht; [|done]. cbn [mbind option_bind].
  destruct p; unfold take_lock, drop_lock, move, store, emit; repeat case_match; intros [= <-];
    by eapply remaining_move; [exact Ht|cbn; lia].
Qed.

Lemma remaining_bound s : (remaining s ≤ 5 * length (threads s))%nat.
Proof using Type.
  unfold remaining. induction (threads s) as [|p l IH]; [done|]. cbn. destruct p; cbn; lia.
Qed.

Lemma nsteps_bound k s s' : nsteps (step checks) k s s' → (k + remaining s' ≤ remaining s)%nat.
Proof using Type.
  induction 1 as [s|k s1 s2 s3 (t & e & Ha) _ IH]; [lia|]. apply advance_remaining in Ha. lia.
Qed.

(** While a thread is inside a call, some thread can advance. *)
Lemma progress (e : Env) s t p :
  inv checks s → threads s !! t = Some p → p ≠ Idle → ∃ s', step checks s s'.
Proof using Type.
  intros Hinv Ht Hp. unfold step.
  assert (∀ t p, threads s !! t = Some p → holds p = true → ∃ s', advance checks t e s = Some s') as Hholder.
  { intros t' p' Ht' Hp'. unfold advance, advance_run, advance_fail, advance_gate. rewrite Ht'. cbn [mbind option_bind]. destruct p'; (done || by eexists). }
  assert (∀ t p', threads s !! t = Some p → p' ≠ Idle →
    ∃ s' t', take_lock t p' s = Some s' ∨ advance checks t' e s = Some s') as Htake.
  { intros t' p' Ht' _. unfold take_lock. destruct (lock s) as [o|] eqn:Hlo; [|by eexists _, t'; left].
    destruct (proj1 (proj1 Hinv o) Hlo) as (q & Hq & Hhq). destruct (Hholder o q Hq Hhq) as [s' Ha].
    exists s', o. by right. }
  assert (∀ p', p' ≠ Idle → (∀ s', take_lock t p' s = Some s' → advance checks t e s = Some s') →
    ∃ s' t e, advance checks t e s = Some s') as Hwait.
  { intros p' Hp' Himp. destruct (Htake t p' Ht Hp') as (s' & t' & [H|H]); [|by exists s', t', e].
    exists s', t, e. by apply Himp. }
  destruct p; [done|..];
    try (by destruct (Hholder t _ Ht eq_refl) as [s' Ha]; exists s', t, e).
  - apply (Hwait RunLoad); [done|]. intros s' Hs'. unfold advance, advance_run, advance_fail, advance_gate. by rewrite Ht.
  - apply (Hwait FailStore); [done|]. intros s' Hs'. unfold advance, advance_run, advance_fail, advance_gate. by rewrite Ht.
  - eexists _, t, e. unfold advance, advance_run, advance_fail, advance_gate. by rewrite Ht.
  - apply (Hwait GateLoadLocked); [done|]. intros s' Hs'. unfold advance, advance_run, advance_fail, advance_gate. by rewrite Ht.
  - eexists _, t, e. unfold advance, advance_run, advance_fail, advance_gate. by rewrite Ht.
Qed.

Definition quiet s : Prop := Forall (λ p, p = Idle) (threads s).

Lemma quiet_or_busy s : quiet s ∨ ∃ t p, threads s !! t = Some p ∧ p ≠ Idle.
Proof using Type.
  unfold quiet. induction (threads s) as [|p l IH]; [by left; constructor|].
  destruct (decide (rank p = 0%nat)) as [Hz|Hz].
  - assert (p = Idle) as -> by (by destruct p). destruct IH as [Hq|(t & q & Hq & Hne)]; [by left; constructor|].
    right. by exists (S t), q.
  - right. exists 0%nat, p. split; [done|]. by intros ->.
Qed.

Lemma reaches_quiet (e : Env) s : inv checks s → ∃ s', rtc (step checks) s s' ∧ quiet s'.
Proof using Type.
  remember (remaining s) as n eqn:Hn. revert s Hn. induction (lt_wf n) as [n _ IH]. intros s -> Hinv.
  destruct (quiet_or_busy s) as [Hq|(t & p & Ht & Hp)]; [by exists s|].
  destruct (progress e s t p Hinv Ht Hp) as (s1 & t1 & e1 & Ha).
  destruct (IH (remaining s1) (advance_remaining _ _ _ _ Ha) s1 eq_refl) as (s2 & Hs2 & Hq);
    [by eapply inv_advance|].
  exists s2. split; [|done]. eapply rtc_l; [by exists t1, e1|done].
Qed.

Lemma quiet_latch s : inv checks s → quiet s → lock s = None ∧ latch s = replay checks (log s).
Proof using Type.
  intros (Hl & Hla & _) Hq. unfold quiet in Hq. rewrite Forall_lookup in Hq. split.
  - destruct (lock s) as [o|] eqn:Hlo; [|done]. apply Hl in Hlo as (p & Hp & Hh). by rewrite (Hq o p Hp) in Hh.
  - destruct Hla as [[? _]|(_ & _ & t & p & Hp & Hr)]; [done|]. by rewrite (Hq t p Hp) in Hr.
Qed.
End progress.

(** ** The module's own tests *)

(** What the tests see of the gate: the POST thread's flag is set. *)
Definition post_thread_gate (fips : bool) (v : Z) : Gate :=
  {| fips_gate := fips; in_post := true; post_state := v; post_state_again := v; post_state_unlocked := v |}.

Definition post_run `{Crypto} `{Sha256} `{Hkdf} `{Frodo} `{X25519} (fips : bool) (KAT_FRODO_DECAP : list byte)
    (v : Z) (e : post_env) : outcome SelfTestError unit :=
  let _ := post_thread_gate fips v in post_checks KAT_FRODO_DECAP e.

(** ** Properties *)

(** C6: the latch cannot be bypassed, whatever the interleaving of the threads:
    every log is a sequential history of the three functions; outside a run the
    latch is what that history leaves; one thread at a time is inside the critical
    section and its self-tests find the gate open; after a failed run or a
    conditional failure the latch stays at [POST_FAILED], every later run and every
    later caller is refused; and a caller is admitted only after a run whose tests
    passed, with no failure before it. *)
Theorem post_latch_safe `{Crypto} `{Sha256} `{Hkdf} `{Frodo} `{X25519} fips KAT s :
  let checks := post_run fips KAT in
  reachable checks s →
  sequential checks (log s) ∧
  (latch s = replay checks (log s) ∨
   (latch s = POST_RUNNING ∧ ∃ t p, threads s !! t = Some p ∧ running p = true)) ∧
  (∀ t t' p p', threads s !! t = Some p → threads s !! t' = Some p' → holds p = true → holds p' = true → t = t') ∧
  (∀ t, threads s !! t = Some RunChecks → @gate_open (post_thread_gate fips (latch s))) ∧
  (∀ new ev old, log s = new ++ ev :: old → failure ev → latch s = POST_FAILED ∧ Forall refused new) ∧
  (∀ new t old, log s = new ++ Gated t (Ok tt) :: old →
     (∃ t' e, Ran t' e (Ok tt) ∈ old ∧ checks POST_RUNNING e = Ok tt) ∧ ∀ ev, ev ∈ old → ¬ failure ev).
Proof.
  intros checks Hreach. pose proof (inv_reachable checks s Hreach) as Hinv.
  pose proof Hinv as (Hl & Hla & Hr & Hs). split_and!.
  - done.
  - destruct Hla as [[? _]|(? & _ & ?)]; [by left|by right].
  - intros t t' p p' Ht Ht' Hp Hp'. by apply (one_holder s t t' p p').
  - intros t Ht. destruct (holder_latch checks s t RunChecks Hinv Ht eq_refl) as [Hrun _].
    rewrite Hrun. by destruct fips.
  - intros new ev old Hlog Hf. rewrite Hlog in Hs.
    pose proof (failure_replay checks ev old (sequential_app checks new _ Hs) Hf) as Hrep.
    destruct (failed_sticky checks new _ Hs Hrep) as [Hrep' Hall]. split; [|done].
    destruct Hla as [[-> _]|(_ & Hnf & _)]; [by rewrite Hlog|]. by rewrite Hlog in Hnf.
  - intros new t old Hlog. rewrite Hlog in Hs. apply sequential_app in Hs. destruct Hs as [Hp Hs].
    specialize (Hp eq_refl). split; [by apply passed_run|].
    intros ev Hev. apply (no_failure checks old); [done| |done]. by rewrite Hp.
Qed.

Lemma post_latch_safe_witness :
  let _ := Toy.crypto in let _ := Toy.sha in let _ := Toy.hkdf in let _ := Toy.frodo in let _ := Toy.x25519 in
  let checks := post_run true [] in
  ∃ s, reachable checks s ∧ log s = [Gated 1 (Err ModuleNotOperational); Errored 0] ∧
    (∀ new ev old, log s = new ++ ev :: old → failure ev → latch s = POST_FAILED ∧ Forall refused new).
Proof.
  intros C S HK F X checks.
  set (s := MkSystem POST_FAILED None [Idle; Idle] [Gated 1 (Err ModuleNotOperational); Errored 0] : system post_env).
  assert (reachable checks s) as Hs.
  { exists 2%nat.
    eapply rtc_l; [by left; apply (call_fail _ 0)|].
    eapply rtc_l; [by right; exists 0%nat, sample_env|].
    eapply rtc_l; [by right; exists 0%nat, sample_env|].
    eapply rtc_l; [by right; exists 0%nat, sample_env|].
    eapply rtc_l; [by left; apply (call_gate _ 1)|].
    eapply rtc_l; [by right; exists 1%nat, sample_env|].
    eapply rtc_l; [by right; exists 1%nat, sample_env|]. apply rtc_refl. }
  exists s. split_and!; [exact Hs|reflexivity|].
  destruct (post_latch_safe true [] s Hs) as (_ & _ & _ & _ & Hf & _). exact Hf.
Defined.

(** C15: no call blocks for ever: once no new call starts, at most five accesses per
    thread remain on every schedule, some thread can advance while any is inside a
    call, and a schedule that cannot be extended has brought every call to its end,
    with the lock free and the latch settled; it is left at [POST_RUNNING] only by
    a run whose tests panicked. *)
Theorem post_latch_live `{Crypto} `{Sha256} `{Hkdf} `{Frodo} `{X25519} fips KAT s :
  let checks := post_run fips KAT in
  reachable checks s →
  (∀ k s', nsteps (step checks) k s s' → (k ≤ 5 * length (threads s))%nat) ∧
  (∃ s', rtc (step checks) s s' ∧ quiet s') ∧
  (∀ s', rtc (step checks) s s' → (∀ s'', ¬ step checks s' s'') →
     quiet s' ∧ lock s' = None ∧ latch s' = replay checks (log s') ∧
     (latch s' = POST_RUNNING → ∃ t e q, Ran t e (Panic q) ∈ log s' ∧ checks POST_RUNNING e = Panic q)).
Proof.
  intros checks Hreach. pose proof (inv_reachable checks s Hreach) as Hinv. split_and!.
  - intros k s' Hk. pose proof (nsteps_bound checks k s s' Hk). pose proof (remaining_bound s). lia.
  - by apply (reaches_quiet checks sample_env).
  - intros s' Hsteps Hstuck.
    assert (inv checks s') as Hinv'.
    { revert Hsteps. apply (rtc_ind_r (inv checks)); [done|]. intros s1 s2 _ (t & e & Ha) Hi.
      by eapply inv_advance. }
    destruct (quiet_or_busy s') as [Hq|(t & p & Ht & Hp)].
    + destruct (quiet_latch checks s' Hinv' Hq) as [Hlo Hla]. split_and!; [done..|].
      intros Hrun. apply running_panicked; [apply Hinv'|by rewrite <-Hla].
    + destruct (progress checks sample_env s' t p Hinv' Ht Hp) as [s'' Hs'']. by destruct (Hstuck s'').
Qed.

Lemma post_latch_live_witness :
  let _ := Toy.crypto in let _ := Toy.sha in let _ := Toy.hkdf in let _ := Toy.frodo in let _ := Toy.x25519 in
  let checks := post_run true [] in
  ∃ s, reachable checks s ∧ threads s = [RunLock; GateLoad] ∧ ∃ s', rtc (step checks) s s' ∧ quiet s'.
Proof.
  intros C S HK F X checks.
  set (s := MkSystem POST_NOT_RUN None [RunLock; GateLoad] [] : system post_env).
  assert (reachable checks s) as Hs.
  { exists 2%nat. eapply rtc_l; [by left; apply (call_run _ 0)|].
    eapply rtc_l; [by left; apply (call_gate _ 1)|]. apply rtc_refl. }
  exists s. split_and!; [exact Hs|reflexivity|].
  destruct (post_latch_live true [] s Hs) as (_ & Hq & _). exact Hq.
Defined.

(** A caller that finds the latch at [POST_PASSED] may still be refused: when
    another thread starts a new run between its two loads it neither waits for that
    run nor sees its outcome. *)
Example gate_refused_between_loads :
  let checks (_ : Z) (_ : unit) : outcome SelfTestError unit := Ok tt in
  ∃ s, reachable checks s ∧ log s = [Gated 1 (Err ModuleNotOperational); Ran 0 tt (Ok tt)].
Proof.
  intros checks.
  exists (MkSystem POST_RUNNING (Some 0%nat) [RunChecks; Idle] [Gated 1 (Err ModuleNotOperational); Ran 0 tt (Ok tt)]).
  split; [|reflexivity]. exists 2%nat.
  eapply rtc_l; [by left; apply (call_run _ 0)|].
  do 5 (eapply rtc_l; [by right; exists 0%nat, tt|]).
  eapply rtc_l; [by left; apply (call_run _ 0)|].
  eapply rtc_l; [by left; apply (call_gate _ 1)|].
  eapply rtc_l; [by right; exists 1%nat, tt|].
  do 2 (eapply rtc_l; [by right; exists 0%nat, tt|]).
  eapply rtc_l; [by right; exists 1%nat, tt|]. apply rtc_refl.
Qed.
