(* ===== verification/Startup.v ===== *)
(** * Starting a gateway ([bin/ls_gateway.rs], [main])

    What [main] decides from the configuration: where keys come from, which tasks
    it spawns and in which order. The configuration file, the key store file and
    the sockets are read by the runtime; their results are arguments. The key
    store a gateway hands to its handlers changes as exchanges complete. *)
From Stdlib Require Import ZArith Lia Strings.Byte Strings.String.
From stdpp Require Import base tactics option numbers countable gmap list.
From S2P Require Import Prelude Machine Errors Crates Post Primes Keys Derive Padding Tokens BlockV8.
From S2P Require Import OtFrame Kem KemExchange Gateway KatVectors.

#[local] Open Scope Z_scope.
#[local] Open Scope napqes_scope.

(** ** Configuration *)

Record Config := MkConfig {
  mode : list Z;
  protocols : list (list Z);
  forward_addr : list Z;
  siem_addr : list Z;
  modbus_listen : list Z;
  dnp3_listen : list Z;
  modbus_secure_listen : list Z;
  dnp3_secure_listen : list Z;
  kem_listen_addr : list Z;
  kem_peer_addr : list Z;
  kem_rekey_interval_secs : Z;
  key_store_path : list Z;
}.

Definition default_protocols : list (list Z) := [str "modbus"; str "dnp3"].
Definition default_modbus_listen : list Z := str "0.0.0.0:502".
Definition default_dnp3_listen : list Z := str "0.0.0.0:20000".
Definition default_modbus_secure : list Z := str "0.0.0.0:5502".
Definition default_dnp3_secure : list Z := str "0.0.0.0:25000".

(** ** Tasks *)

Inductive task :=
| IngressListener (addr : list Z) (protocol : ProtocolId)
| EgressListener (addr : list Z) (protocol : ProtocolId)
| InitiatorLoop (peer : list Z) (interval : Z)
| ResponderLoop (listen : list Z).

(** [wait_for_key] runs between the key-establishment task and the listeners. *)
Inductive action := Spawn (t : task) | WaitForKey.

Definition is_empty (s : list Z) : bool := bool_decide (s = []).

(** An unknown protocol, or an unknown mode, is only reported. *)
Definition start_ot_listeners (c : Config) : list task :=
  if bool_decide (mode c = str "ingress") then
    omap (λ proto_str,
      if bool_decide (proto_str = str "modbus") then Some (IngressListener (modbus_listen c) ModbusTcp)
      else if bool_decide (proto_str = str "dnp3") then Some (IngressListener (dnp3_listen c) Dnp3)
      else None) (protocols c)
  else if bool_decide (mode c = str "egress") then
    omap (λ proto_str,
      if bool_decide (proto_str = str "modbus") then Some (EgressListener (modbus_secure_listen c) ModbusTcp)
      else if bool_decide (proto_str = str "dnp3") then Some (EgressListener (dnp3_secure_listen c) Dnp3)
      else None) (protocols c)
  else [].

(** The number of polls until the store is ready, at most 240; [polls i] is the
    store as the [i]-th poll finds it. *)
Fixpoint wait_for_key_from (polls : nat → SessionKeyStore) (i fuel : nat) : option nat :=
  match fuel with
  | O => None
  | S fuel' => if is_ready (polls i) then Some i else wait_for_key_from polls (S i) fuel'
  end.
Definition wait_for_key (polls : nat → SessionKeyStore) : option nat := wait_for_key_from polls 0 240.

(** ** [main] *)

Inductive gateway_store := SessionStore (s : SessionKeyStore) | FileStore (s : FileKeyStore).

(** [Arc<dyn KeyStore>]. *)
#[export] Instance gateway_store_load : KeyStore gateway_store := λ s d,
  match s with SessionStore s => load s d | FileStore s => load s d end.

Inductive startup_error :=
| SelfTestsFailed (e : SelfTestError) | ConfigUnreadable | NoKeySource
| KeyStoreUnreadable | KeyStoreRejected (e : key_store_error) | SiemUnbound.

Definition use_kem (c : Config) : bool :=
  if bool_decide (mode c = str "ingress") then negb (is_empty (kem_peer_addr c))
  else if bool_decide (mode c = str "egress") then negb (is_empty (kem_listen_addr c))
  else false.

Definition u64_MAX : Z := 2 ^ 64 - 1.

Definition kem_tasks (c : Config) : list action :=
  if bool_decide (mode c = str "ingress") then
    let interval := if 0 <? kem_rekey_interval_secs c then kem_rekey_interval_secs c else u64_MAX / 2 in
    [Spawn (InitiatorLoop (kem_peer_addr c) interval); WaitForKey]
  else if bool_decide (mode c = str "egress") then
    [Spawn (ResponderLoop (kem_listen_addr c)); WaitForKey]
  else [].

(** [post] is the outcome of the power-on self-tests, [config] of reading the
    configuration, [file] of reading and parsing the key store at a path, [bind] of
    opening the SIEM socket. *)
Definition main (post : outcome SelfTestError unit) (config : outcome startup_error Config)
    (file : list Z → outcome startup_error (list FileKeyEntry)) (bind : outcome startup_error unit)
    : outcome startup_error (GatewayState gateway_store * list action) :=
  _ ← map_err SelfTestsFailed post;
  config ← config;
  key_store ← (
    if use_kem config then Ok (SessionStore SessionKeyStore_new)
    else if is_empty (key_store_path config) then Err NoKeySource
    else
      raw ← file (key_store_path config);
      fs ← map_err KeyStoreRejected (load_from_entries raw);
      Ok (FileStore fs));
  siem ← (if is_empty (siem_addr config) then Ok false else _ ← bind; Ok true);
  let kem := match key_store with SessionStore _ => kem_tasks config | FileStore _ => [] end in
  Ok (MkGateway key_store siem, kem ++ (Spawn <$> start_ot_listeners config)).

(** ** Exchanges *)

Section exchanges.
Context `{Crypto} `{Hkdf} `{Gate} `{Frodo}.

(** An outcome the key-establishment loop can see: one exchange with some peer. *)
Definition exchanged (r : outcome exchange_error NapqesKey) : Prop :=
  ∃ seed input, r = (run_responder_once seed input).2 ∨ r = (run_initiator_once seed input).2.

Lemma derive_v8_key_valid ss key : derive_v8_key ss = Ok key → valid_key (primes key).
Proof using Type. intros Hd. pose proof (derive_v8_key_cases ss) as Hc. rewrite Hd in Hc. tauto. Qed.

Lemma decapsulate_v8_valid ct sk key : decapsulate_v8 ct sk = Ok key → valid_key (primes key).
Proof using Type. unfold decapsulate_v8. intros Hd. inv_ok. by eapply derive_v8_key_valid. Qed.

Lemma encapsulate_v8_valid pk seed ct key : encapsulate_v8 pk seed = Ok (ct, key) → valid_key (primes key).
Proof using Type.
  unfold encapsulate_v8. intros Hd. apply bind_Ok_inv in Hd as (u & _ & Hd).
  apply bind_Ok_inv in Hd as (pk' & _ & Hd). destruct (frodo_encapsulate pk' seed) as [ss ct'].
  apply bind_Ok_inv in Hd as (k & Hk & Hd). injection Hd as _ <-. by eapply derive_v8_key_valid.
Qed.

(** Whatever the peer sends, a party that succeeds holds a valid key. *)
Lemma exchanged_valid r key : exchanged r → r = Ok key → valid_key (primes key).
Proof using Type.
  intros (seed & input & [-> | ->]) Hr.
  - unfold run_responder_once in Hr. destruct (keygen seed) as [pk sk].
    destruct (_ ≫= _) as [k| |] eqn:Hk; cbn [snd] in Hr; [|done..]. injection Hr as ->.
    apply bind_Ok_inv in Hk as (ct & _ & Hk).
    destruct (decapsulate_v8 ct.1 sk) as [k| |] eqn:Hd; [|done..]. injection Hk as ->.
    by eapply decapsulate_v8_valid.
  - unfold run_initiator_once in Hr.
    destruct (recv_framed input ≫= _) as [[[ct k] rest]| |] eqn:Hk; cbn [snd] in Hr; [|done..].
    apply bind_Ok_inv in Hr as (ack & _ & Hr). case_bool_decide; [|done]. injection Hr as ->.
    apply bind_Ok_inv in Hk as (pk & _ & Hk). apply bind_Ok_inv in Hk as (x & He & Hk).
    destruct (encapsulate_v8 pk.1 seed) as [[ct' k']| |] eqn:Hd; [|done..]. cbn [map_err] in He.
    injection He as <-. injection Hk as _ <- _. by eapply encapsulate_v8_valid.
Qed.

Definition rekeyed (rs : list (outcome exchange_error NapqesKey)) (s : gateway_store) : gateway_store :=
  match s with
  | SessionStore s => SessionStore (run_rekey_loop rs s)
  | FileStore s => FileStore s
  end.

(** The keys of the exchanges that succeeded, in order. *)
Definition established (rs : list (outcome exchange_error NapqesKey)) : list NapqesKey :=
  omap (λ r, match r with Ok key => Some key | _ => None end) rs.

Lemma run_rekey_loop_inner rs :
  inner (run_rekey_loop rs SessionKeyStore_new)
  = match last (established rs) with Some key => {[ WILDCARD_DEVICE_ID := key ]} | None => ∅ end.
Proof using Type.
  induction rs as [|r rs IH] using rev_ind; [done|].
  rewrite run_rekey_loop_snoc. unfold established in *. rewrite omap_app.
  destruct r as [key| |]; cbn [rekey_step omap list_omap].
  - rewrite last_snoc. unfold session_insert. cbn [inner]. rewrite IH.
    destruct (last _); [by rewrite insert_singleton|by rewrite insert_empty].
  - by rewrite app_nil_r.
  - by rewrite app_nil_r.
Qed.

(** Every device is answered with the key of the last exchange that succeeded. *)
Lemma rekeyed_load rs d :
  load (rekeyed rs (SessionStore SessionKeyStore_new)) d
  = match last (established rs) with Some key => Ok key | None => Err (NoSessionKey d) end.
Proof using Type.
  unfold load, gateway_store_load, rekeyed, load, SessionKeyStore_load.
  rewrite run_rekey_loop_inner. destruct (last (established rs)) as [key|].
  - destruct (decide (d = WILDCARD_DEVICE_ID)) as [->|Hd]; [by rewrite lookup_singleton_eq|].
    by rewrite lookup_singleton_ne, lookup_singleton_eq.
  - by rewrite !lookup_empty.
Qed.

Lemma rekeyed_valid rs s :
  Forall exchanged rs → store_ok (store:=SessionKeyStore) s → store_ok (run_rekey_loop rs s).
Proof using Type.
  intros Hrs Hs. induction rs as [|r rs IH] using rev_ind; [done|].
  apply Forall_app in Hrs as [Hrs [Hr _]%Forall_cons]. rewrite run_rekey_loop_snoc.
  destruct r as [key| |] eqn:Heq; cbn [rekey_step]; [|by apply IH..].
  apply session_insert_ok; [|by apply IH]. by apply (exchanged_valid (Ok key)).
Qed.
End exchanges.

(** ** Waiting for the first key *)

Lemma wait_for_key_from_cases polls i fuel :
  match wait_for_key_from polls i fuel with
  | Some j => (i ≤ j < i + fuel)%nat ∧ is_ready (polls j) = true ∧
      ∀ k, (i ≤ k < j)%nat → is_ready (polls k) = false
  | None => ∀ k, (i ≤ k < i + fuel)%nat → is_ready (polls k) = false
  end.
Proof.
  revert i. induction fuel as [|fuel IH]; intros i; cbn [wait_for_key_from]; [intros k Hk; lia|].
  destruct (is_ready (polls i)) eqn:Hr; [split_and!; [lia|lia|done|intros k Hk; lia]|].
  specialize (IH (S i)). destruct (wait_for_key_from polls (S i) fuel) as [j|].
  - destruct IH as (Hj & Hrj & Hk). split_and!; [lia|lia|done|]. intros k Hki.
    destruct (decide (k = i)) as [->|]; [done|]. apply Hk. lia.
  - intros k Hk. destruct (decide (k = i)) as [->|]; [done|]. apply IH. lia.
Qed.

(** ** The tasks *)

(** The name of a protocol in the configuration, and the addresses configured for it. *)
Definition protocol_name (p : ProtocolId) : list Z := match p with ModbusTcp => str "modbus" | Dnp3 => str "dnp3" end.
Definition listen_addr (c : Config) (p : ProtocolId) : list Z :=
  match p with ModbusTcp => modbus_listen c | Dnp3 => dnp3_listen c end.
Definition secure_listen_addr (c : Config) (p : ProtocolId) : list Z :=
  match p with ModbusTcp => modbus_secure_listen c | Dnp3 => dnp3_secure_listen c end.

(** One listener per configured protocol, of the configured mode and on the configured address. *)
Lemma start_ot_listeners_elem c t :
  t ∈ start_ot_listeners c ↔
  ∃ p, protocol_name p ∈ protocols c ∧
    (mode c = str "ingress" ∧ t = IngressListener (listen_addr c p) p ∨
     mode c = str "egress" ∧ t = EgressListener (secure_listen_addr c p) p).
Proof.
  unfold start_ot_listeners. case_bool_decide as Hmode; [|case_bool_decide as Hmode'].
  - rewrite list_elem_of_omap. split.
    + intros (name & Hin & Ht). repeat case_bool_decide; simplify_eq; [exists ModbusTcp|exists Dnp3]; by split; [|left].
    + intros (p & Hin & [[_ ->]|[Hm _]]); [|by rewrite Hmode in Hm]. exists (protocol_name p). by destruct p.
  - rewrite list_elem_of_omap. split.
    + intros (name & Hin & Ht). repeat case_bool_decide; simplify_eq; [exists ModbusTcp|exists Dnp3]; by split; [|right].
    + intros (p & Hin & [[? _]|[_ ->]]); [done|]. exists (protocol_name p). by destruct p.
  - split; [intros Ht; by apply elem_of_nil in Ht|]. by intros (p & _ & [[? _]|[? _]]).
Qed.

(** ** Properties *)

Lemma main_Ok post config file bind gw actions :
  main post config file bind = Ok (gw, actions) →
  post = Ok tt ∧ ∃ c, config = Ok c ∧
    ((use_kem c = true ∧ key_store gw = SessionStore SessionKeyStore_new ∧
      actions = kem_tasks c ++ (Spawn <$> start_ot_listeners c)) ∨
     (use_kem c = false ∧ ∃ raw fs, file (key_store_path c) = Ok raw ∧ load_from_entries raw = Ok fs ∧
      key_store gw = FileStore fs ∧ actions = Spawn <$> start_ot_listeners c)).
Proof.
  unfold main. intros Hm. apply bind_Ok_inv in Hm as ([] & Hpost & Hm).
  split; [by destruct post as [[]| |]|]. apply bind_Ok_inv in Hm as (c & Hc & Hm). exists c. split; [done|].
  apply bind_Ok_inv in Hm as (ks & Hks & Hm). apply bind_Ok_inv in Hm as (sm & _ & Hm).
  injection Hm as <- <-. cbn [key_store]. destruct (use_kem c) eqn:Hk.
  - left. by injection Hks as <-.
  - right. split; [done|]. destruct (is_empty (key_store_path c)); [done|].
    apply bind_Ok_inv in Hks as (raw & Hraw & Hks). apply bind_Ok_inv in Hks as (fs & Hfs & Hks).
    injection Hks as <-. exists raw, fs. split_and!; try done.
    by destruct (load_from_entries raw) as [x| |]; [injection Hfs as ->|..].
Qed.

(** C12: a gateway that starts has passed its self-tests, and every key its handlers
    are ever given is valid, whatever the key-establishment peers send: the store
    loaded from the file holds validated keys only, and the session store answers
    nothing before an exchange succeeds and then, for every device, exactly the key
    of the last exchange that did. What it spawns, in order: with a key-establishment
    address for its mode, the initiator loop towards the configured peer (ingress, with
    the configured interval or, when that is zero, the largest one) or the responder
    loop on the configured address (egress), then the wait for the first key; without
    one no such task, and the keys come from the file; then the listeners: a listener is
    among them exactly when it is of the configured mode, for a protocol the configuration
    names, on the address configured for this protocol and mode. *)
Theorem gateway_keys_valid `{Crypto} `{Hkdf} `{Gate} `{Frodo} post config file bind gw actions rs :
  main post config file bind = Ok (gw, actions) →
  (∀ path raw, file path = Ok raw → Forall (λ v, Forall (fits 64) (entry_primes v)) raw) →
  Forall exchanged rs →
  post = Ok tt ∧
  store_ok (rekeyed rs (key_store gw)) ∧
  (∀ s, key_store gw = SessionStore s → ∀ d,
     load (rekeyed rs (key_store gw)) d
     = match last (established rs) with Some key => Ok key | None => Err (NoSessionKey d) end) ∧
  ∃ c kem listeners, config = Ok c ∧ actions = kem ++ (Spawn <$> listeners) ∧
    ((mode c = str "ingress" ∧ kem_peer_addr c ≠ [] ∧ key_store gw = SessionStore SessionKeyStore_new ∧
      let interval := if 0 <? kem_rekey_interval_secs c then kem_rekey_interval_secs c else 2 ^ 63 - 1 in
      kem = [Spawn (InitiatorLoop (kem_peer_addr c) interval); WaitForKey]) ∨
     (mode c = str "egress" ∧ kem_listen_addr c ≠ [] ∧ key_store gw = SessionStore SessionKeyStore_new ∧
      kem = [Spawn (ResponderLoop (kem_listen_addr c)); WaitForKey]) ∨
     ((mode c = str "ingress" → kem_peer_addr c = []) ∧ (mode c = str "egress" → kem_listen_addr c = []) ∧ kem = [] ∧
      ∃ raw fs, file (key_store_path c) = Ok raw ∧ load_from_entries raw = Ok fs ∧ key_store gw = FileStore fs)) ∧
    ∀ t, t ∈ listeners ↔
      ∃ p, protocol_name p ∈ protocols c ∧
        (mode c = str "ingress" ∧ t = IngressListener (listen_addr c p) p ∨
         mode c = str "egress" ∧ t = EgressListener (secure_listen_addr c p) p).
Proof.
  intros Hm Hfile Hrs. apply main_Ok in Hm as (Hpost & c & Hc & Hcase). split; [done|].
  pose proof (start_ot_listeners_elem c) as Hlis. unfold use_kem in Hcase.
  destruct Hcase as [(Hk & Hks & ->)|(Hk & raw & fs & Hraw & Hfs & Hks & ->)]; rewrite Hks; split_and!.
  - change (store_ok (run_rekey_loop rs SessionKeyStore_new)). apply rekeyed_valid; [done|].
    apply session_store_ok. intros d key. cbn. by rewrite lookup_empty.
  - intros s _ d. apply rekeyed_load.
  - exists c, (kem_tasks c), (start_ot_listeners c). split_and!; [done..| |exact Hlis]. unfold kem_tasks, is_empty in *.
    repeat case_bool_decide; try done; [by left|by right; left].
  - intros d. apply (file_store_ok raw fs (Hfile _ _ Hraw) Hfs d).
  - intros s Hs. done.
  - exists c, [], (start_ot_listeners c). split_and!; [done..| |exact Hlis]. right; right. unfold is_empty in *.
    split_and!; [..|done|by exists raw, fs]; intros Hmode; rewrite Hmode in Hk; cbn in Hk; by repeat case_bool_decide.
Qed.

(** An ingress gateway for Modbus with key establishment. *)
Definition sample_config : Config :=
  MkConfig (str "ingress") [str "modbus"] (str "10.0.0.2:5502") [] default_modbus_listen default_dnp3_listen
    default_modbus_secure default_dnp3_secure [] (str "10.0.0.2:7000") 0 [].

Lemma gateway_keys_valid_witness :
  let _ := Toy.crypto in let _ := Toy.hkdf in let _ := Toy.frodo in let _ := default_build in
  let gw := MkGateway (SessionStore SessionKeyStore_new) false in
  main (Ok tt) (Ok sample_config) (λ _, Ok []) (Ok tt)
    = Ok (gw, [Spawn (InitiatorLoop (str "10.0.0.2:7000") (2 ^ 63 - 1)); WaitForKey;
               Spawn (IngressListener default_modbus_listen ModbusTcp)]) ∧
  Forall exchanged [(run_initiator_once [x02] []).2] ∧
  store_ok (rekeyed [(run_initiator_once [x02] []).2] (key_store gw)).
Proof.
  intros C HK F G gw.
  assert (main (Ok tt) (Ok sample_config) (λ _, Ok []) (Ok tt)
    = Ok (gw, [Spawn (InitiatorLoop (str "10.0.0.2:7000") (2 ^ 63 - 1)); WaitForKey;
               Spawn (IngressListener default_modbus_listen ModbusTcp)])) as Hm by (vm_compute; reflexivity).
  split; [exact Hm|].
  assert (Forall exchanged [(run_initiator_once [x02] []).2]) as Hrs.
  { constructor; [exists [x02], []; by right|constructor]. }
  split; [exact Hrs|].
  assert (∀ path raw, (λ _ : list Z, Ok (E:=startup_error) (A:=list FileKeyEntry) []) path = Ok raw →
    Forall (λ v, Forall (fits 64) (entry_primes v)) raw) as Hfile by (intros path raw [= <-]; constructor).
  exact (proj1 (proj2 (gateway_keys_valid _ _ _ _ gw _ _ Hm Hfile Hrs))).
Defined.
