(* ===== verification/System.v ===== *)
(** * The running gateway ([bin/ls_gateway.rs], [kem_exchange.rs])

    The whole process as a step relation: [main] spawning its tasks, the listeners
    accepting connections, the key-establishment loops installing keys, and one
    handler per connection. A handler takes one step per access to something the
    tasks share (a counter, the key store, the network), so every interleaving the
    runtime may choose is a sequence of steps. What a step does that can be told
    from outside is its events.

    [Gateway] has the handlers as functions; here they are cut at their shared
    accesses, and [SystemRuns.handler_runs_alone] says that an undisturbed handler
    does what the function says. This file has the relation, what a handler holds
    and does in one step, and the invariants of reachable states. *)
From Stdlib Require Import ZArith Lia Strings.Byte Strings.String Sorting.Sorted.
From stdpp Require Import base tactics option numbers countable gmap list relations.
From S2P Require Import Prelude Machine Errors Crates Post Primes Keys Derive Padding Tokens BlockV8.
From S2P Require Modbus Dnp3.
From S2P Require Import OtFrame Kem KemExchange Gateway KatVectors Startup.

#[local] Open Scope Z_scope.
#[local] Open Scope napqes_scope.

(** ** Shared state *)

(** The key store, the counters, and whether a panic left the send counters' lock
    poisoned: the next [lock().unwrap()] then panics. *)
Record shared := MkShared {
  keys : gateway_store;
  counters : SequenceCounter;
  send_poisoned : bool;
}.

(** [state.counters.next_seq]: the addition overflows under the lock. *)
Definition shared_next_seq (p : ProtocolId) (d : Z) (sh : shared) : outcome FrameError Z * shared :=
  if send_poisoned sh then (Panic PanicExpect, sh)
  else match next_seq p d (counters sh) with
       | Ok (sq, c) => (Ok sq, MkShared (keys sh) c false)
       | Err e => (Err e, sh)
       | Panic x => (Panic x, MkShared (keys sh) (counters sh) true)
       end.

(** [self.counters.validate_recv]. *)
Definition shared_validate_recv (p : ProtocolId) (d sq : Z) (sh : shared)
    : outcome FrameError unit * shared :=
  let '(r, c) := validate_recv p d sq (counters sh) in
  (r, MkShared (keys sh) c (send_poisoned sh)).

(** [store.insert(WILDCARD_DEVICE_ID, key)], through the typed reference that only
    exists for a session store. *)
Definition install (key : NapqesKey) (sh : shared) : shared :=
  MkShared (rekeyed [Ok key] (keys sh)) (counters sh) (send_poisoned sh).

Definition ready (sh : shared) : bool :=
  match keys sh with SessionStore s => is_ready s | FileStore _ => true end.

(** ** Events *)

(** [Wrote data n]: of [data], the first [n] bytes reached the forward address. *)
Inductive event :=
| Took (aad : OtAad)
| Sealed (aad : OtAad) (pdu : list byte) (key : NapqesKey) (env : list byte)
| Accepted (a : delivery) (key : NapqesKey) (env : list byte)
| Installed (key : NapqesKey)
| Wrote (data : list byte) (n : nat)
| Reported (e : siem_event) (severity : Z).

(** What performing an effect can show: a connection may fail at any byte, a
    datagram may be lost. *)
Inductive performs : effect → list event → Prop :=
| performs_forward data n : (n ≤ length data)%nat → performs (Forward data) [Wrote data n]
| performs_siem e sev : performs (Siem e sev) [Reported e sev]
| performs_lost e sev : performs (Siem e sev) [].

(** ** Connection handlers *)

(** Where a handler stands: about to read; about to take a number; about to load
    the key; about to wrap; about to send. *)
Inductive ingress_pc :=
| IRead
| ISeq (device_id : Z) (pdu : list byte)
| ILoad (aad : OtAad) (pdu : list byte)
| IWrap (aad : OtAad) (pdu : list byte) (key : NapqesKey)
| ISend (out : list effect).

(** About to read a header; its blob; about to load the key; to open; to validate
    the number; to send, and then to read again or not. *)
Inductive egress_pc :=
| EHeader
| EBlob (header : list byte)
| ELoad (envelope : list byte) (device_id : Z)
| EOpen (envelope : list byte) (device_id : Z) (key : NapqesKey)
| ERecv (envelope : list byte) (device_id : Z) (key : NapqesKey) (opened : delivery)
| ESend (out : list effect) (again : bool).

Inductive handler :=
| Ingress (protocol : ProtocolId) (pc : ingress_pc)
| Egress (protocol : ProtocolId) (pc : egress_pc)
| Closed
| Died (protocol : ProtocolId) (p : panic).

Definition ingress_parse (protocol : ProtocolId) (frame : list byte) : outcome unit (Z * list byte) :=
  match protocol with
  | ModbusTcp => r ← map_err (λ _, tt) (Modbus.extract_pdu frame); Ok (Modbus.unit_id r.1, r.2)
  | Dnp3 => r ← map_err (λ _, tt) (Dnp3.extract_payload frame); Ok (Dnp3.source r.1, r.2)
  end.

Section handlers.
Context `{Crypto} (siem_on : bool).

Definition report (sh : shared) (e : siem_event) (severity : Z) : list effect :=
  emit_siem (MkGateway (keys sh) siem_on) e severity.

(** After [stream.read] returned [frame]. *)
Definition ingress_received (protocol : ProtocolId) (frame : list byte) (sh : shared) : handler :=
  match ingress_parse protocol frame with
  | Ok (d, pdu) => Ingress protocol (ISeq d pdu)
  | Err _ => Ingress protocol (ISend (report sh PARSE_ERR 5))
  | Panic p => Died protocol p
  end.

(** The step of an ingress handler that waits for nothing. [g] is what the call
    into the library sees of the self-test latch. *)
Definition ingress_move (g : Gate) (protocol : ProtocolId) (pc : ingress_pc) (sh : shared)
    : option (list event * handler * shared) :=
  match pc with
  | IRead => None
  | ISeq d pdu =>
      match shared_next_seq protocol d sh with
      | (Ok sq, sh') => let aad := MkOtAad protocol d sq in
          Some ([Took aad], Ingress protocol (ILoad aad pdu), sh')
      | (Err _, sh') => Some ([], Ingress protocol IRead, sh')
      | (Panic p, sh') => Some ([], Died protocol p, sh')
      end
  | ILoad aad pdu =>
      match load (keys sh) (device_id aad) with
      | Ok key => Some ([], Ingress protocol (IWrap aad pdu key), sh)
      | Err _ => Some ([], Ingress protocol (ISend (report sh (KEY_MISSING (device_id aad)) 7)), sh)
      | Panic p => Some ([], Died protocol p, sh)
      end
  | IWrap aad pdu key =>
      match wrap_pdu pdu aad key with
      | Ok env => Some ([Sealed aad pdu key env],
                        Ingress protocol (ISend [Forward (forward_envelope env)]), sh)
      | Err _ => Some ([], Ingress protocol IRead, sh)
      | Panic p => Some ([], Died protocol p, sh)
      end
  | ISend [] => Some ([], Ingress protocol IRead, sh)
  | ISend (_ :: _) => None
  end.

(** After the header, and after the blob, were read. *)
Definition egress_header (protocol : ProtocolId) (header : list byte) (sh : shared) : handler :=
  if MAX_BLOB <? from_be_bytes (slice 19 23 header)
  then Egress protocol (ESend (report sh PARSE_ERR 5) false)
  else Egress protocol (EBlob header).

Definition egress_received (protocol : ProtocolId) (envelope : list byte) (sh : shared) : handler :=
  match peek_device_id envelope with
  | None => Egress protocol (ESend (report sh PARSE_ERR 5) true)
  | Some d => Egress protocol (ELoad envelope d)
  end.

Definition egress_move (g : Gate) (protocol : ProtocolId) (pc : egress_pc) (sh : shared)
    : option (list event * handler * shared) :=
  let auth_fail envelope d := ESend (report sh (AUTH_FAIL d (default 0 (peek_seq envelope))) 7) true in
  match pc with
  | EHeader | EBlob _ => None
  | ELoad envelope d =>
      match load (keys sh) d with
      | Ok key => Some ([], Egress protocol (EOpen envelope d key), sh)
      | Err _ => Some ([], Egress protocol (ESend (report sh (KEY_MISSING d) 7) true), sh)
      | Panic p => Some ([], Died protocol p, sh)
      end
  | EOpen envelope d key =>
      match open_envelope envelope key with
      | Ok (p, dev, sq, pdu) =>
          Some ([], Egress protocol (ERecv envelope d key (MkDelivery protocol (p, dev) sq pdu)), sh)
      | Err _ => Some ([], Egress protocol (auth_fail envelope d), sh)
      | Panic p => Some ([], Died protocol p, sh)
      end
  | ERecv envelope d key a =>
      match shared_validate_recv (sender a).1 (sender a).2 (number a) sh with
      | (Ok _, sh') => Some ([Accepted a key envelope],
          Egress protocol (ESend [Forward (forward_envelope (forward_frame protocol (body a)))] true), sh')
      | (Err _, sh') => Some ([], Egress protocol (auth_fail envelope d), sh')
      | (Panic p, sh') => Some ([], Died protocol p, sh')
      end
  | ESend [] again => Some ([], if again then Egress protocol EHeader else Closed, sh)
  | ESend (_ :: _) _ => None
  end.

(** A read may also end the connection, by its end or by an error. *)
Inductive handler_step : handler → shared → list event → handler → shared → Prop :=
| ingress_read p frame sh :
    (0 < length frame ≤ 4096)%nat →
    handler_step (Ingress p IRead) sh [] (ingress_received p frame sh) sh
| ingress_close p sh : handler_step (Ingress p IRead) sh [] Closed sh
| ingress_run g p pc sh evs h sh' :
    ingress_move g p pc sh = Some (evs, h, sh') → handler_step (Ingress p pc) sh evs h sh'
| ingress_send p e out sh evs :
    performs e evs → handler_step (Ingress p (ISend (e :: out))) sh evs (Ingress p (ISend out)) sh
| egress_read_header p header sh :
    length header = ENVELOPE_HEADER_SIZE →
    handler_step (Egress p EHeader) sh [] (egress_header p header sh) sh
| egress_read_blob p header blob sh :
    Z.of_nat (length blob) = from_be_bytes (slice 19 23 header) →
    handler_step (Egress p (EBlob header)) sh [] (egress_received p (header ++ blob) sh) sh
| egress_close_header p sh : handler_step (Egress p EHeader) sh [] Closed sh
| egress_close_blob p header sh : handler_step (Egress p (EBlob header)) sh [] Closed sh
| egress_run g p pc sh evs h sh' :
    egress_move g p pc sh = Some (evs, h, sh') → handler_step (Egress p pc) sh evs h sh'
| egress_send p e out again sh evs :
    performs e evs →
    handler_step (Egress p (ESend (e :: out) again)) sh evs (Egress p (ESend out again)) sh.
End handlers.

(** ** Tasks of the [JoinSet] *)

Inductive job :=
| Binding (t : task)
| Accepting (t : task)
| Exchanging (t : task)
| Installing (t : task) (key : NapqesKey)
| Sleeping (t : task)
| Returned (ok : bool)
| Panicked (p : panic).

(** Only the initiator needs no socket of its own to start with. *)
Definition job_start (t : task) : job :=
  match t with InitiatorLoop _ _ => Exchanging t | _ => Binding t end.

(** [run_ingress_listener] and [run_egress_listener] spawn the handler of the
    listener's protocol. *)
Definition spawned (t : task) : option handler :=
  match t with
  | IngressListener _ p => Some (Ingress p IRead)
  | EgressListener _ p => Some (Egress p EHeader)
  | _ => None
  end.

(** After binding. *)
Definition bound (t : task) : job :=
  match t with ResponderLoop _ => Exchanging t | _ => Accepting t end.

(** The initiator sleeps its interval after each exchange, the responder waits for
    the next one at once. *)
Definition installed (t : task) : job :=
  match t with InitiatorLoop _ _ => Sleeping t | _ => Exchanging t end.

Section system.
Context `{Crypto} `{Hkdf} `{Frodo} (siem_on : bool).

Inductive job_step : job → shared → list event → list handler → job → shared → Prop :=
| job_bound t sh : job_step (Binding t) sh [] [] (bound t) sh
| job_bind_failed t sh :
    job_step (Binding t) sh [] [] (Returned (match t with ResponderLoop _ => true | _ => false end)) sh
| job_accept t h sh :
    spawned t = Some h → job_step (Accepting t) sh [] [h] (Accepting t) sh
| job_accept_failed t sh : job_step (Accepting t) sh [] [] (Returned false) sh
| job_exchanged (g : Gate) t key sh :
    exchanged (Ok key) → job_step (Exchanging t) sh [] [] (Installing t key) sh
| job_exchange_failed t sh : job_step (Exchanging t) sh [] [] (Sleeping t) sh
| job_exchange_panicked (g : Gate) t p sh :
    exchanged (Panic p) → job_step (Exchanging t) sh [] [] (Panicked p) sh
| job_install t key sh :
    job_step (Installing t key) sh [Installed key] [] (installed t) (install key sh)
| job_wake t sh : job_step (Sleeping t) sh [] [] (Exchanging t) sh.

(** ** [main] *)

(** [main] runs the actions it decided on, polling for a key at most 240 times;
    then [run_task_loop] joins the tasks, and the process ends with the last. *)
Inductive main_state := MRun (rest : list action) (polls : nat) | MJoin | MExit.

Definition main_move (m : main_state) (sh : shared) : option (main_state * list job) :=
  match m with
  | MRun (Spawn t :: rest) _ => Some (MRun rest 0, [job_start t])
  | MRun (WaitForKey :: rest) polls =>
      if bool_decide (240 ≤ polls)%nat || ready sh then Some (MRun rest 0, [])
      else Some (MRun (WaitForKey :: rest) (S polls), [])
  | MRun [] _ => Some (MJoin, [])
  | MJoin | MExit => None
  end.

Definition job_ended (j : job) : bool :=
  match j with Returned _ | Panicked _ => true | _ => false end.

Record system := MkSystem {
  main_at : main_state;
  jobs : list job;
  handlers : list handler;
  state : shared;
}.

Definition boot (gw : GatewayState gateway_store) (actions : list action) : system :=
  MkSystem (MRun actions 0) [] [] (MkShared (key_store gw) SequenceCounter_new false).

(** Nothing runs once [main] has returned. *)
Inductive step : system → list event → system → Prop :=
| step_main m m' js js' hs sh :
    main_move m sh = Some (m', js') → step (MkSystem m js hs sh) [] (MkSystem m' (js ++ js') hs sh)
| step_exit js hs sh :
    forallb job_ended js = true → step (MkSystem MJoin js hs sh) [] (MkSystem MExit js hs sh)
| step_job m js i j j' hs hs' sh sh' evs :
    m ≠ MExit → js !! i = Some j → job_step j sh evs hs' j' sh' →
    step (MkSystem m js hs sh) evs (MkSystem m (<[i := j']> js) (hs ++ hs') sh')
| step_handler m js hs i h h' sh sh' evs :
    m ≠ MExit → hs !! i = Some h → handler_step siem_on h sh evs h' sh' →
    step (MkSystem m js hs sh) evs (MkSystem m js (<[i := h']> hs) sh').

(** What a run of [n] steps from [s0] has shown, and where it got. *)
Inductive run (s0 : system) : nat → list event → system → Prop :=
| run_start : run s0 0 [] s0
| run_step n tr s evs s' : run s0 n tr s → step s evs s' → run s0 (S n) (tr ++ evs) s'.
End system.

(** ** Generic lemmas on handlers and traces *)

(** Replacing one handler changes one summand of what the handlers hold. *)
Lemma concat_insert {A B} (f : A → list B) l i x y :
  l !! i = Some x → ∃ rest, concat (f <$> l) ≡ₚ f x ++ rest ∧ concat (f <$> <[i := y]> l) ≡ₚ f y ++ rest.
Proof.
  intros Hi. exists (concat (f <$> take i l) ++ concat (f <$> drop (S i) l)).
  rewrite insert_take_drop by (by eapply lookup_lt_Some). split.
  - rewrite <-(take_drop_middle l i x Hi) at 1. rewrite fmap_app, concat_app, fmap_cons. cbn [concat].
    apply Permutation_app_swap_app.
  - rewrite fmap_app, concat_app, fmap_cons. cbn [concat]. apply Permutation_app_swap_app.
Qed.

(** What flows in at one handler, beyond what it already holds, bounds what flows
    out and what it holds afterwards: then so it does for all of them. *)
Lemma flow_insert {A B} (f : A → list B) l i x y (out acc gin gout : list B) :
  l !! i = Some x → gout ++ f y ⊆+ gin ++ f x → out ++ concat (f <$> l) ⊆+ acc →
  (out ++ gout) ++ concat (f <$> <[i := y]> l) ⊆+ acc ++ gin.
Proof.
  intros Hi Hlocal Hglobal. destruct (concat_insert f l i x y Hi) as (rest & Hx & Hy).
  rewrite Hy. rewrite Hx in Hglobal. rewrite (Permutation_app_comm acc).
  transitivity (gin ++ f x ++ out ++ rest).
  - rewrite <-app_assoc, (app_assoc gout), (Permutation_app_swap_app out), !(app_assoc gin).
    by apply submseteq_app.
  - apply submseteq_skips_l. by rewrite Permutation_app_swap_app.
Qed.

(** ** What a handler may hold *)

(** No answer of the self-test gate makes sealing panic, and what is sealed opens
    under the same key. *)
Lemma wrap_pdu_total `{Crypto} (g : Gate) key pdu aad :
  valid_key (primes key) →
  match wrap_pdu pdu aad key with
  | Ok env => fits 64 (device_id aad) → fits 64 (seq aad) →
      Z.of_nat (length env) ≤ 23 + MAX_BLOB ∧
      ∀ g' : Gate, gate_open → open_envelope env key = Ok (protocol aad, device_id aad, seq aad, pdu)
  | Err _ => True
  | Panic _ => False
  end.
Proof.
  intros Hkey. destruct (decide gate_open) as [Hg|Hg].
  2: { unfold wrap_pdu, encrypt_bytes_v8_key. by rewrite (gated_closed Hg). }
  pose proof (wrap_pdu_cases key pdu aad Hg Hkey) as Hw.
  pose proof (wrap_pdu_size Hg key pdu aad) as Hsize.
  destruct (wrap_pdu pdu aad key) as [env|e|]; [|done|done].
  intros Hd Hs. split; [by apply Hsize|]. intros g' Hg'.
  destruct Hw as (blob & Hdec & Hl & ->). rewrite <-(app_nil_r blob) at 2.
  rewrite open_envelope_eq; [|apply length_to_be_bytes..|apply from_to_be_bytes; lia].
  cbv zeta. rewrite !from_to_be_bytes by done. unfold decrypt_bytes_v8_key in *. rewrite Hg in Hdec. rewrite Hg'.
  replace (MkOtAad (protocol aad) (device_id aad) (seq aad)) with aad by (by destruct aad).
  rewrite Hdec. cbn [map_err]. by rewrite bind_Ok, collect_latin1, bind_Ok.
Qed.

Lemma ingress_parse_cases protocol frame :
  match ingress_parse protocol frame with
  | Ok (d, _) => fits 64 d
  | Err _ => True
  | Panic p => protocol = Dnp3 ∧ Dnp3.extract_payload frame = Panic p
  end.
Proof.
  destruct protocol; cbn [ingress_parse].
  - pose proof (Modbus.extract_pdu_total frame) as Hn.
    destruct (Modbus.extract_pdu frame) as [[hdr pdu]| |] eqn:Hx; [|done|done].
    unfold Modbus.extract_pdu in Hx. cbn [map_err mbind outcome_bind fst].
    repeat case_if_in Hx; [done..|]. inv_ok. case_if_in Hx; [done|]. inv_ok. cbn [Modbus.unit_id].
    pose proof (from_be_bytes_range (slice 6 7 frame)) as Hr. unfold slice in *.
    pose proof (firstn_le_length 1 (drop 6 frame)). unfold fits. simpl in *.
    assert (256 ^ Z.of_nat (length (take 1 (drop 6 frame))) ≤ 256 ^ 1) by (apply Z.pow_le_mono_r; lia). lia.
  - destruct (Dnp3.extract_payload frame) as [[hdr payload]| |] eqn:Hx; [|done|done].
    unfold Dnp3.extract_payload in Hx. cbn [map_err mbind outcome_bind fst].
    repeat case_if_in Hx; [done..|]. inv_ok. cbn [Dnp3.source].
    pose proof (from_le_bytes_range (slice 6 8 frame)) as Hr. unfold slice in *.
    pose proof (firstn_le_length 2 (drop 6 frame)). unfold fits. simpl in *.
    assert (256 ^ Z.of_nat (length (take 2 (drop 6 frame))) ≤ 256 ^ 2) by (apply Z.pow_le_mono_r; lia). lia.
Qed.

(** The numbers of the counters fit their type. *)
Definition counted (c : SequenceCounter) : Prop := ∀ k, 0 ≤ last_sent c k < 2 ^ 64.

Definition aad_ok (aad : OtAad) : Prop := fits 64 (device_id aad) ∧ fits 64 (seq aad).

Section held.
Context `{Crypto} (siem_on : bool).

Definition small (env : list byte) : Prop := Z.of_nat (length env) ≤ 23 + MAX_BLOB.

Definition opens_under (key : NapqesKey) (env : list byte) (a : delivery) : Prop :=
  ∃ g : Gate, open_envelope env key = Ok ((sender a).1, (sender a).2, number a, body a).

(** [known d key]: the store has offered [key] for device [d]. *)
Context (known : Z → NapqesKey → Prop).

Definition handler_ok (h : handler) : Prop :=
  match h with
  | Ingress p (ISeq d _) => fits 64 d
  | Ingress p (ILoad aad _) => protocol aad = p ∧ aad_ok aad
  | Ingress p (IWrap aad _ key) => protocol aad = p ∧ aad_ok aad ∧ known (device_id aad) key
  | Egress p (EBlob header) =>
      length header = ENVELOPE_HEADER_SIZE ∧ from_be_bytes (slice 19 23 header) ≤ MAX_BLOB
  | Egress p (ELoad env d) => small env ∧ peek_device_id env = Some d
  | Egress p (EOpen env d key) => small env ∧ peek_device_id env = Some d ∧ known d key
  | Egress p (ERecv env d key a) =>
      via a = p ∧ known (sender a).2 key ∧ opens_under key env a
  | _ => True
  end.

Definition event_ok (ev : event) : Prop :=
  match ev with
  | Took aad => aad_ok aad
  | Sealed aad pdu key env =>
      aad_ok aad ∧ known (device_id aad) key ∧ ∃ g : Gate, wrap_pdu pdu aad key = Ok env
  | Accepted a key env => known (sender a).2 key ∧ opens_under key env a
  | Installed key => valid_key (primes key)
  | Wrote data n => (n ≤ length data)%nat
  | Reported _ _ => True
  end.
End held.

Lemma handler_ok_mono `{Crypto} (known known' : Z → NapqesKey → Prop) h :
  (∀ d key, known d key → known' d key) → handler_ok known h → handler_ok known' h.
Proof. intros Hk. destruct h as [p []|p []| |]; cbn; naive_solver. Qed.

Lemma event_ok_mono `{Crypto} (known known' : Z → NapqesKey → Prop) ev :
  (∀ d key, known d key → known' d key) → event_ok known ev → event_ok known' ev.
Proof. intros Hk. destruct ev; cbn; naive_solver. Qed.

(** The device an opened envelope names is the one its key was loaded for. *)
Lemma open_peeked `{Crypto} (g : Gate) env key d p d' sq pdu :
  valid_key (primes key) → small env → peek_device_id env = Some d →
  open_envelope env key = Ok (p, d', sq, pdu) → d' = d.
Proof.
  intros Hkey Hs Hpeek Hopen. unfold small, MAX_BLOB in Hs. change (Z.shiftl 1 16) with (2 ^ 16) in Hs.
  pose proof (open_envelope_cases env key Hkey ltac:(lia)) as Ho. rewrite Hopen in Ho.
  destruct Ho as (dv & sv & lv & blob & tail & Henv & Hd & Hsv & Hl & _ & -> & _).
  destruct (peek_envelope (protocol_u8 p) dv sv lv (blob ++ tail) Hd Hsv Hl) as [Hp _].
  rewrite <-Henv, Hpeek in Hp. by injection Hp as ->.
Qed.

(** [handler_cases H] opens a handler's step into its atomic cases. *)
Ltac handler_cases H :=
  inversion H; subst; clear H;
  try match goal with
  | Hm : ingress_move _ _ _ ?pc _ = Some _ |- _ =>
      destruct pc as [| | | |[]]; cbn [ingress_move] in Hm; repeat case_match; simplify_eq
  | Hm : egress_move _ _ _ ?pc _ = Some _ |- _ =>
      destruct pc as [| | | | |[]]; cbn [egress_move] in Hm; repeat case_match; simplify_eq
  | Hp : performs _ _ |- _ => inversion Hp; subst; clear Hp
  end.

Lemma shared_next_seq_cases p d sh :
  match shared_next_seq p d sh with
  | (Ok sq, sh') => sq = last_sent (counters sh) (p, d) + 1 ∧ sq < 2 ^ 64 ∧
      last_sent (counters sh') (p, d) = sq ∧
      (∀ k, k ≠ (p, d) → last_sent (counters sh') k = last_sent (counters sh) k) ∧
      (∀ k, last_seen (counters sh') k = last_seen (counters sh) k) ∧
      keys sh' = keys sh ∧ send_poisoned sh' = false
  | (Err _, _) => False
  | (Panic _, sh') => counters sh' = counters sh ∧ keys sh' = keys sh ∧
      (send_poisoned sh = true ∨ 2 ^ 64 ≤ last_sent (counters sh) (p, d) + 1)
  end.
Proof.
  unfold shared_next_seq. destruct (send_poisoned sh) eqn:Hp; [by auto|].
  pose proof (next_seq_cases p d (counters sh)) as Hc.
  destruct (next_seq p d (counters sh)) as [[sq c]|e|x]; [|done|by auto].
  destruct Hc as (? & ? & ? & ? & Hr). cbn [counters keys send_poisoned]. split_and!; try done.
  intros k. unfold last_seen. by rewrite Hr.
Qed.


Lemma shared_validate_recv_cases p d sq sh :
  match shared_validate_recv p d sq sh with
  | (r, sh') => keys sh' = keys sh ∧ send_poisoned sh' = send_poisoned sh ∧
      (∀ k, last_sent (counters sh') k = last_sent (counters sh) k) ∧
      match r with
      | Ok _ => last_seen (counters sh) (p, d) < sq ∧ last_seen (counters sh') (p, d) = sq ∧
          ∀ k, k ≠ (p, d) → last_seen (counters sh') k = last_seen (counters sh) k
      | Err _ => sq ≤ last_seen (counters sh) (p, d) ∧
          ∀ k, last_seen (counters sh') k = last_seen (counters sh) k
      | Panic _ => False
      end
  end.
Proof.
  unfold shared_validate_recv. pose proof (validate_recv_cases p d sq (counters sh)) as Hv.
  destruct (validate_recv p d sq (counters sh)) as [[[]|e|x] c]; [| |done]; cbn [counters keys send_poisoned];
    split_and!; try tauto; intros k; unfold last_sent; [by replace (send_state c) with (send_state (counters sh)) by (symmetry; tauto)..].
Qed.
(** [shared_facts Hc] states what an access to the counters in the context did. *)
Ltac shared_facts Hc :=
  match goal with
  | Hn : shared_next_seq ?p ?d ?sh = _ |- _ =>
      pose proof (shared_next_seq_cases p d sh) as Hc; rewrite Hn in Hc
  | Hn : shared_validate_recv ?p ?d ?q ?sh = _ |- _ =>
      pose proof (shared_validate_recv_cases p d q sh) as Hc; rewrite Hn in Hc
  end.

Section handler_lemmas.
Context `{Crypto} (siem_on : bool).
Context (known : Z → NapqesKey → Prop).

Lemma received_ok p frame sh : handler_ok known (ingress_received siem_on p frame sh).
Proof using Type.
  unfold ingress_received. pose proof (ingress_parse_cases p frame) as Hc.
  by destruct (ingress_parse p frame) as [[d pdu]|e|x].
Qed.

Lemma egress_header_ok p header sh :
  length header = ENVELOPE_HEADER_SIZE → handler_ok known (egress_header siem_on p header sh).
Proof using Type.
  intros Hl. unfold egress_header. by destruct (Z.ltb_spec MAX_BLOB (from_be_bytes (slice 19 23 header))).
Qed.

Lemma egress_received_ok p header blob sh :
  handler_ok known (Egress p (EBlob header)) → Z.of_nat (length blob) = from_be_bytes (slice 19 23 header) →
  handler_ok known (egress_received siem_on p (header ++ blob) sh).
Proof using Type.
  intros [Hl Hb] Hblob. unfold egress_received. destruct (peek_device_id (header ++ blob)) eqn:Hp; [|done].
  split; [|done]. unfold small. rewrite length_app, Hl. unfold ENVELOPE_HEADER_SIZE. lia.
Qed.

Lemma handler_step_ok h sh evs h' sh' :
  (∀ d key, known d key → valid_key (primes key)) →
  (∀ d key, load (keys sh) d = Ok key → known d key) → counted (counters sh) →
  handler_ok known h → handler_step siem_on h sh evs h' sh' →
  handler_ok known h' ∧ keys sh' = keys sh ∧ Forall (event_ok known) evs.
Proof using Type.
  intros Hv Hload Hc Hh Hs. handler_cases Hs; cbn [handler_ok] in *; try done.
  all: try (by split_and!; [done|done|constructor]).
  all: try (shared_facts Hcase; try done).
  all: try (by destruct Hcase as (_ & Hk & _); split_and!; [done|exact Hk|constructor]).
  - split_and!; [apply received_ok|done|constructor].
  - destruct Hcase as (-> & Hlt & _ & _ & _ & Hk & _). specialize (Hc (p, device_id)).
    assert (aad_ok (MkOtAad p device_id (last_sent (counters sh) (p, device_id) + 1))) as Hok
      by (unfold aad_ok, fits in *; cbn [OtFrame.device_id seq]; lia).
    split_and!; [done|done|exact Hk|constructor; [exact Hok|constructor]].
  - destruct Hh as [Hp Ha]. split_and!; [done|done|by apply Hload|done|constructor].
  - destruct Hh as (_ & Ha & Hk). split_and!; [done|done|]. constructor; [|constructor].
    split; [done|split; [done|by exists g]].
  - split_and!; [by apply egress_header_ok|done|constructor].
  - split_and!; [by apply egress_received_ok|done|constructor].
  - destruct Hh as [Hs Hp]. split_and!; [done|done|by apply Hload|done|constructor].
  - destruct Hh as (Hs & Hp & Hk). cbn [sender via number body fst snd].
    match goal with Ho : open_envelope _ _ = Ok _ |- _ =>
      pose proof (open_peeked g _ _ _ _ _ _ _ (Hv _ _ Hk) Hs Hp Ho) as -> end.
    split_and!; [done|done|by exists g|done|constructor].
  - destruct Hh as (_ & Hk & Ho). split_and!; [done|apply Hcase|]. constructor; [done|constructor].
  - split_and!; [done|apply Hcase|constructor].
  - by destruct Hcase as (_ & _ & _ & []).
  all: match goal with Hp : performs _ _ |- _ => inversion Hp; subst end; split_and!; try done; repeat constructor; done.
Qed.
End handler_lemmas.

(** ** Traces *)

Definition took (tr : list event) : list OtAad :=
  omap (λ ev, match ev with Took aad => Some aad | _ => None end) tr.
Definition sealed_aads (tr : list event) : list OtAad :=
  omap (λ ev, match ev with Sealed aad _ _ _ => Some aad | _ => None end) tr.
Definition accepted_of (tr : list event) : list delivery :=
  omap (λ ev, match ev with Accepted a _ _ => Some a | _ => None end) tr.
Definition installed_keys (tr : list event) : list NapqesKey :=
  omap (λ ev, match ev with Installed key => Some key | _ => None end) tr.
Definition wrote (tr : list event) : list (list byte) :=
  omap (λ ev, match ev with Wrote data _ => Some data | _ => None end) tr.

(** The data a handler was entitled to send. *)
Definition entitled (tr : list event) : list (list byte) :=
  omap (λ ev, match ev with
              | Sealed _ _ _ env => Some (forward_envelope env)
              | Accepted a _ _ => Some (forward_envelope (forward_frame (via a) (body a)))
              | _ => None
              end) tr.

(** Numbers taken and not yet used, and data not yet sent. *)
Definition held_aads (h : handler) : list OtAad :=
  match h with Ingress _ (ILoad aad _) | Ingress _ (IWrap aad _ _) => [aad] | _ => [] end.
Definition held_data (h : handler) : list (list byte) :=
  match h with Ingress _ (ISend out) | Egress _ (ESend out _) => forwards out | _ => [] end.

Section handler_traces.
Context `{Crypto} (siem_on : bool).

Lemma held_received p frame sh :
  held_aads (ingress_received siem_on p frame sh) = [] ∧ held_data (ingress_received siem_on p frame sh) = [].
Proof using Type.
  unfold ingress_received. destruct (ingress_parse p frame) as [[d pdu]|e|x]; [done| |done].
  split; [done|]. apply forwards_siem.
Qed.

Lemma held_egress p l sh :
  held_data (egress_header siem_on p l sh) = [] ∧ held_data (egress_received siem_on p l sh) = [] ∧
  held_aads (egress_header siem_on p l sh) = [] ∧ held_aads (egress_received siem_on p l sh) = [].
Proof using Type.
  unfold egress_header, egress_received. destruct (MAX_BLOB <? _), (peek_device_id l);
    split_and!; try done; apply forwards_siem.
Qed.

(** Every number sealed with was taken by the same handler, and is used once. *)
Lemma aad_flow h sh evs h' sh' :
  handler_step siem_on h sh evs h' sh' → sealed_aads evs ++ held_aads h' ⊆+ took evs ++ held_aads h.
Proof using Type.
  intros Hs. handler_cases Hs; cbn; try (by apply submseteq_nil_l); try done.
  - by rewrite (proj1 (held_received _ _ _)).
  - by rewrite (proj1 (proj2 (proj2 (held_egress _ _ _)))).
  - by rewrite (proj2 (proj2 (proj2 (held_egress _ _ _)))).
Qed.

Lemma data_flow known h sh evs h' sh' :
  handler_ok known h →
  handler_step siem_on h sh evs h' sh' → wrote evs ++ held_data h' ⊆+ entitled evs ++ held_data h.
Proof using Type.
  intros Hh Hs. handler_cases Hs; cbn [wrote entitled omap list_omap app held_data held_aads handler_ok] in *;
    try (by apply submseteq_nil_l); try done; unfold report; rewrite ?forwards_siem; try done.
  - by rewrite (proj2 (held_received _ _ _)).
  - by rewrite (proj1 (held_egress _ _ _)).
  - by rewrite (proj1 (proj2 (held_egress _ _ _))).
  - by destruct Hh as [-> _].
Qed.

(** What a step does to the counters: nothing, or it raises a send counter by one,
    or it raises what was seen of a device. *)
Variant counts (c : SequenceCounter) (evs : list event) (c' : SequenceCounter) : Prop :=
| counts_none :
    took evs = [] → accepted_of evs = [] → (∀ k, last_sent c' k = last_sent c k) →
    (∀ k, last_seen c' k = last_seen c k) → counts c evs c'
| counts_took a :
    let k := (protocol a, device_id a) in
    took evs = [a] → accepted_of evs = [] → seq a = last_sent c k + 1 → seq a < 2 ^ 64 →
    last_sent c' k = seq a → (∀ k', k' ≠ k → last_sent c' k' = last_sent c k') →
    (∀ k, last_seen c' k = last_seen c k) → counts c evs c'
| counts_accepted a :
    took evs = [] → accepted_of evs = [a] → last_seen c (sender a) < number a →
    last_seen c' (sender a) = number a → (∀ k, k ≠ sender a → last_seen c' k = last_seen c k) →
    (∀ k, last_sent c' k = last_sent c k) → counts c evs c'.

Lemma handler_step_counts h sh evs h' sh' :
  handler_step siem_on h sh evs h' sh' → counts (counters sh) evs (counters sh').
Proof using Type.
  intros Hs. handler_cases Hs; try (shared_facts Hc; try done); try (by apply counts_none).
  - destruct Hc as (Ha & ? & ? & ? & ? & _). by eapply counts_took.
  - destruct Hc as (Hc & _). apply counts_none; by rewrite ?Hc.
  - destruct Hc as (_ & _ & ? & ? & ? & ?). apply (counts_accepted _ _ _ opened); try done; by destruct (sender opened).
  - destruct Hc as (_ & _ & ? & _ & ?). by apply counts_none.
  - by destruct Hc as (_ & _ & _ & []).
Qed.

(** The only way a handler ends early is a DNP3 frame its parser does not survive. *)
Definition survives (h : handler) : Prop :=
  match h with
  | Died p x => p = Dnp3 ∧ ∃ frame, (length frame ≤ 4096)%nat ∧ Dnp3.extract_payload frame = Panic x
  | _ => True
  end.

Lemma gateway_load_no_panic (s : gateway_store) d : no_panic (load s d).
Proof using Type.
  destruct s as [s|s]; [|apply no_panic_opt_or]. change (no_panic (SessionKeyStore_load s d)).
  unfold SessionKeyStore_load. case_match; [done|apply no_panic_opt_or].
Qed.

Lemma handler_step_survives known h sh evs h' sh' :
  (∀ d key, known d key → valid_key (primes key)) → handler_ok known h →
  (∀ k, last_sent (counters sh) k < 2 ^ 64 - 1) → send_poisoned sh = false →
  handler_step siem_on h sh evs h' sh' → send_poisoned sh' = false ∧ survives h'.
Proof using Type.
  intros Hv Hh Hn Hp Hs. handler_cases Hs; try (shared_facts Hc; try done); try done; cbn [survives handler_ok] in *;
    try match goal with
    | Hl : load (keys ?sh) ?d = Panic _ |- _ => pose proof (gateway_load_no_panic (keys sh) d) as Hx; by rewrite Hl in Hx
    end.
  - split; [done|]. unfold ingress_received. pose proof (ingress_parse_cases p frame) as Hc.
    destruct (ingress_parse p frame) as [[d pdu]|e|x]; try done. destruct Hc as [-> Hx].
    split; [done|]. exists frame. split; [lia|done].
  - split; [apply Hc|done].
  - exfalso. destruct Hc as (_ & _ & [Hc|Hc]); [by rewrite Hp in Hc|]. specialize (Hn (p, device_id)). lia.
  - pose proof (wrap_pdu_total g key pdu aad (Hv _ _ (proj2 (proj2 Hh)))) as Hw.
    by match goal with Hx : wrap_pdu _ _ _ = Panic _ |- _ => rewrite Hx in Hw end.
  - split; [done|]. unfold egress_header. by destruct (MAX_BLOB <? _).
  - split; [done|]. unfold egress_received. by destruct (peek_device_id _).
  - destruct Hh as (Hs & _ & Hk). unfold small, MAX_BLOB in Hs. change (Z.shiftl 1 16) with (2 ^ 16) in Hs.
    pose proof (open_envelope_cases envelope key (Hv _ _ Hk) ltac:(lia)) as Ho.
    by match goal with Hx : open_envelope _ _ = Panic _ |- _ => rewrite Hx in Ho end.
  - destruct Hc as (_ & -> & _). done.
  - destruct Hc as (_ & -> & _). done.
  - by destruct Hc as (_ & _ & _ & []).
Qed.
End handler_traces.

(** ** The system *)

Section system_lemmas.
Context `{Crypto} `{Hkdf} `{Frodo} (siem_on : bool).

Definition idle (h : handler) : Prop :=
  match h with Ingress _ IRead | Egress _ EHeader => True | _ => False end.

Lemma job_step_cases j sh evs hs j' sh' :
  job_step j sh evs hs j' sh' →
  Forall idle hs ∧
  ((evs = [] ∧ sh' = sh) ∨ ∃ t key, j = Installing t key ∧ evs = [Installed key] ∧ sh' = install key sh).
Proof using Type.
  intros Hj. destruct Hj; (split; [|by eauto 6]); try constructor; [|constructor].
  match goal with Hs : spawned ?t = Some _ |- _ => destruct t; simplify_eq/=; done end.
Qed.

(** What a step of the system does: a handler moves, or handlers at rest join and
    at most a key is installed. *)
Lemma step_cases s evs s' :
  step siem_on s evs s' →
  (∃ i h h', handlers s !! i = Some h ∧ handler_step siem_on h (state s) evs h' (state s') ∧
     handlers s' = <[i := h']> (handlers s) ∧ jobs s' = jobs s) ∨
  (∃ fresh, handlers s' = handlers s ++ fresh ∧ Forall idle fresh ∧
     ((evs = [] ∧ state s' = state s) ∨
      ∃ t key, Installing t key ∈ jobs s ∧ evs = [Installed key] ∧ state s' = install key (state s))).
Proof using Type.
  intros Hs. destruct Hs; cbn [handlers jobs state].
  - right. exists []. rewrite app_nil_r. split_and!; [done|constructor|by left].
  - right. exists []. rewrite app_nil_r. split_and!; [done|constructor|by left].
  - right. match goal with Hj : job_step _ _ _ _ _ _ |- _ => apply job_step_cases in Hj as [Hi Hc] end.
    exists hs'. split_and!; [done|done|]. destruct Hc as [?|(t & key & -> & ? & ?)]; [by left|right].
    exists t, key. split_and!; [by eapply list_elem_of_lookup_2|done|done].
  - left. eauto 10.
Qed.

Lemma step_counts s evs s' :
  step siem_on s evs s' → counts (counters (state s)) evs (counters (state s')).
Proof using Type.
  intros [(i & h & h' & _ & Hs & _)|(fresh & _ & _ & [[-> ->]|(t & key & _ & -> & ->)])]%step_cases;
    [by eapply handler_step_counts|by apply counts_none..].
Qed.

(** The flow lemmas, for the whole system. *)
Lemma step_flow {B} (f : handler → list B) (outs ins : list event → list B) s evs s' tr :
  (∀ h, idle h → f h = []) →
  (∀ h sh h' sh', handler_step siem_on h sh evs h' sh' → h ∈ handlers s → outs evs ++ f h' ⊆+ ins evs ++ f h) →
  (∀ key, outs [Installed key] = []) → outs [] = [] →
  (∀ l l', outs (l ++ l') = outs l ++ outs l') → (∀ l l', ins (l ++ l') = ins l ++ ins l') →
  step siem_on s evs s' → outs tr ++ concat (f <$> handlers s) ⊆+ ins tr →
  outs (tr ++ evs) ++ concat (f <$> handlers s') ⊆+ ins (tr ++ evs).
Proof using Type.
  intros Hidle Hlocal Hi0 Hnil Ho Hi Hs Hg. rewrite Ho, Hi.
  apply step_cases in Hs as [(i & h & h' & Hh & Hs & -> & _)|(fresh & -> & Hf & Hc)].
  - eapply flow_insert; [exact Hh| |exact Hg]. apply (Hlocal _ _ _ _ Hs). by eapply list_elem_of_lookup_2.
  - assert (concat (f <$> fresh) = []) as Hfr.
    { induction Hf as [|h fresh Hh _ IH]; [done|]. rewrite fmap_cons. cbn [concat]. by rewrite Hidle, IH. }
    assert (outs evs = []) as ->.
    { destruct Hc as [[-> _]|(t & key & _ & -> & _)]; done. }
    rewrite fmap_app, concat_app, Hfr, !app_nil_r. by apply submseteq_inserts_r.
Qed.

(** *** Keys *)

Definition offers (s0 : system) (tr : list event) (d : Z) (key : NapqesKey) : Prop :=
  load (keys (state s0)) d = Ok key ∨ key ∈ installed_keys tr.

Lemma offers_app s0 tr evs d key : offers s0 tr d key → offers s0 (tr ++ evs) d key.
Proof using Type.
  unfold offers, installed_keys. rewrite omap_app. intros [?|?]; [by left|right]. by apply elem_of_app; left.
Qed.

Lemma install_load key sh d key' :
  load (keys (install key sh)) d = Ok key' → key' = key ∨ load (keys sh) d = Ok key'.
Proof using Type.
  destruct sh as [[s|s] c b]; unfold install; cbn [keys rekeyed]; [|by right].
  change (load (SessionStore (run_rekey_loop [Ok key] s)) d)
    with (SessionKeyStore_load (session_insert WILDCARD_DEVICE_ID key s) d).
  change (load (SessionStore s) d) with (SessionKeyStore_load s d).
  unfold SessionKeyStore_load, session_insert. cbn [inner].
  destruct (decide (d = WILDCARD_DEVICE_ID)) as [->|Hd].
  - rewrite lookup_insert_eq. intros [= ->]. by left.
  - rewrite lookup_insert_ne, lookup_insert_eq by done. case_match; [by right|]. intros [= ->]. by left.
Qed.

Definition job_ok (j : job) : Prop :=
  match j with Installing _ key => valid_key (primes key) | _ => True end.

Lemma step_jobs_ok s evs s' : step siem_on s evs s' → Forall job_ok (jobs s) → Forall job_ok (jobs s').
Proof using Type.
  intros Hs Hj. destruct Hs as [m m' js js' hs sh Hm|js hs sh|m js i j j' hs hs' sh sh' evs _ Hi Hs|]; cbn [jobs] in *; try done.
  - apply Forall_app_2; [done|]. destruct m as [[|[t|] rest] polls| |]; cbn [main_move] in Hm; try done.
    + injection Hm as _ <-. constructor.
    + injection Hm as _ <-. constructor; [by destruct t|constructor].
    + case_if_in Hm; injection Hm as _ <-; constructor.
  - apply Forall_insert; [done|]. destruct Hs; try done; [by destruct t..| |by destruct t].
    by eapply exchanged_valid.
Qed.

(** The store, the tasks and the handlers hold keys the store has offered, all of
    them valid. *)
Record keys_inv (s0 : system) (tr : list event) (s : system) : Prop := MkKeysInv {
  inv_load : ∀ d key, load (keys (state s)) d = Ok key → offers s0 tr d key;
  inv_valid : ∀ d key, offers s0 tr d key → valid_key (primes key);
  inv_jobs : Forall job_ok (jobs s);
  inv_handlers : Forall (handler_ok (offers s0 tr)) (handlers s);
  inv_events : Forall (event_ok (offers s0 tr)) tr;
}.

Lemma Forall_offers_app {A} (P : (Z → NapqesKey → Prop) → A → Prop) s0 tr evs (l : list A) :
  (∀ (K K' : Z → NapqesKey → Prop) x, (∀ d key, K d key → K' d key) → P K x → P K' x) →
  Forall (P (offers s0 tr)) l → Forall (P (offers s0 (tr ++ evs))) l.
Proof using Type.
  intros HP Hl. eapply Forall_impl; [exact Hl|]. intros x. apply HP. intros d key. apply offers_app.
Qed.

Lemma keys_inv_step s0 tr s evs s' :
  counted (counters (state s)) → keys_inv s0 tr s → step siem_on s evs s' → keys_inv s0 (tr ++ evs) s'.
Proof using Type.
  intros Hc [Hload Hvalid Hjobs Hhs Hevs] Hs. pose proof (step_jobs_ok _ _ _ Hs Hjobs) as Hjobs'.
  apply (Forall_offers_app _ _ _ evs) in Hevs; [|intros ???; apply event_ok_mono].
  pose proof (Forall_offers_app handler_ok s0 tr evs _ (λ K K' x, handler_ok_mono K K' x) Hhs) as Hhs'.
  apply step_cases in Hs as [(i & h & h' & Hh & Hs & Heq & _)|(fresh & Heq & Hf & Hcase)].
  - destruct (handler_step_ok _ _ _ _ _ _ _ Hvalid Hload Hc (Forall_lookup_1 _ _ _ _ Hhs Hh) Hs) as (Hh' & Hk & He).
    assert (∀ d key, offers s0 (tr ++ evs) d key → offers s0 tr d key) as Hback.
    { intros d key [?|Hin]; [by left|right]. unfold installed_keys in *. rewrite omap_app in Hin.
      apply elem_of_app in Hin as [?|Hin]; [done|]. handler_cases Hs; by apply elem_of_nil in Hin. }
    split; [| |done| |].
    + intros d key. rewrite Hk. intros Hl. by apply offers_app, Hload.
    + intros d key Ho. by eapply Hvalid, Hback.
    + rewrite Heq. apply Forall_insert; [done|]. eapply handler_ok_mono; [|exact Hh']. intros ??. apply offers_app.
    + apply Forall_app_2; [done|]. eapply Forall_impl; [exact He|]. intros ev. apply event_ok_mono.
      intros ??. apply offers_app.
  - assert (Forall (handler_ok (offers s0 (tr ++ evs))) (handlers s')) as Hhs''.
    { rewrite Heq. apply Forall_app_2; [done|]. eapply Forall_impl; [exact Hf|]. intros [? []|? []| |] Hi; first [exact I|destruct Hi]. }
    destruct Hcase as [[-> Hst]|(t & key & Hin & -> & Hst)].
    + rewrite app_nil_r in *. split; [|done..]. intros d key. rewrite Hst. apply Hload.
    + assert (valid_key (primes key)) as Hkey by (rewrite Forall_forall in Hjobs; by apply (Hjobs _ Hin)).
      split; [| |done|done|by apply Forall_app_2; [|constructor; [exact Hkey|constructor]]].
      * intros d key'. rewrite Hst. intros [->|Hl]%install_load; [|by apply offers_app, Hload].
        right. unfold installed_keys. rewrite omap_app. apply elem_of_app. right. left.
      * intros d key' [?|Hin']; [eapply Hvalid; by left|]. unfold installed_keys in Hin'. rewrite omap_app in Hin'.
        apply elem_of_app in Hin' as [?|Hin']; [apply (Hvalid d); by right|].
        by apply list_elem_of_singleton in Hin' as ->.
Qed.
End system_lemmas.

(** *** Counters *)

Definition aad_key (a : OtAad) : DeviceKey := (protocol a, device_id a).
Definition aad_later (a b : OtAad) : Prop := aad_key a = aad_key b → seq a < seq b.

Record counts_inv (n : nat) (tr : list event) (c : SequenceCounter) : Prop := MkCountsInv {
  inv_counted : counted c;
  inv_steps : ∀ k, last_sent c k ≤ Z.of_nat n;
  inv_took : Forall (λ a, seq a ≤ last_sent c (aad_key a)) (took tr);
  inv_took_sorted : StronglySorted aad_later (took tr);
  inv_accepted : Forall (λ a, number a ≤ last_seen c (sender a)) (accepted_of tr);
  inv_accepted_sorted : StronglySorted later (accepted_of tr);
}.

Lemma StronglySorted_snoc {A} (R : A → A → Prop) l x :
  StronglySorted R l → Forall (λ y, R y x) l → StronglySorted R (l ++ [x]).
Proof.
  induction 1 as [|y l Hl IH Hy]; intros Hx; cbn; [by repeat constructor|].
  apply Forall_cons in Hx as [Hyx Hx]. constructor; [by apply IH|]. apply Forall_app_2; [done|by constructor].
Qed.

(** A value above every bound of its key extends a list that increases per key. *)
Lemma raise {A} (key : A → DeviceKey) (value : A → Z) (bound bound' : DeviceKey → Z) l a :
  Forall (λ x, value x ≤ bound (key x)) l →
  StronglySorted (λ x y, key x = key y → value x < value y) l →
  bound (key a) < value a → bound' (key a) = value a → (∀ k, k ≠ key a → bound' k = bound k) →
  Forall (λ x, value x ≤ bound' (key x)) (l ++ [a]) ∧
  StronglySorted (λ x y, key x = key y → value x < value y) (l ++ [a]).
Proof.
  intros Hl Hs Hlt Hnew Hoth. split.
  - apply Forall_app_2; [|constructor; [lia|constructor]]. eapply Forall_impl; [exact Hl|]. intros x Hx. simpl in *.
    destruct (decide (key x = key a)) as [Heq|Hne]; [rewrite Heq in *; lia|by rewrite Hoth].
  - apply StronglySorted_snoc; [done|]. eapply Forall_impl; [exact Hl|]. intros x Hx Heq. simpl in *.
    rewrite Heq in Hx. lia.
Qed.

Lemma Forall_bound_same {A} (key : A → DeviceKey) (value : A → Z) (bound bound' : DeviceKey → Z) l :
  (∀ k, bound' k = bound k) →
  Forall (λ x, value x ≤ bound (key x)) l → Forall (λ x, value x ≤ bound' (key x)) l.
Proof. intros Hb Hl. eapply Forall_impl; [exact Hl|]. intros x Hx. simpl in *. by rewrite Hb. Qed.

Lemma took_app l l' : took (l ++ l') = took l ++ took l'.
Proof. apply omap_app. Qed.
Lemma accepted_app l l' : accepted_of (l ++ l') = accepted_of l ++ accepted_of l'.
Proof. apply omap_app. Qed.

Lemma counts_inv_step n tr c evs c' :
  counts c evs c' → counts_inv n tr c → counts_inv (S n) (tr ++ evs) c'.
Proof.
  intros Hs [Hc Hn Ht Hts Ha Has]. unfold counted in *.
  destruct Hs as [Et Ea Hsent Hseen|a k Et Ea Hseq Hlt Hnew Hoth Hseen|a Et Ea Hlt Hnew Hoth Hsent].
  - split; rewrite ?took_app, ?accepted_app, ?Et, ?Ea, ?app_nil_r; try done.
    + intros k. by rewrite Hsent.
    + intros k. rewrite Hsent. specialize (Hn k). lia.
    + by apply (Forall_bound_same _ _ (last_sent c)).
    + by apply (Forall_bound_same _ _ (last_seen c)).
  - destruct (raise aad_key seq (last_sent c) (last_sent c') (took tr) a Ht Hts) as [Ht' Hts'];
      [unfold aad_key; fold k; lia|done|done|].
    split; rewrite ?took_app, ?accepted_app, ?Et, ?Ea, ?app_nil_r; try done.
    + intros k'. specialize (Hc k'). destruct (decide (k' = k)) as [->|Hne]; [lia|by rewrite Hoth].
    + intros k'. specialize (Hn k'). destruct (decide (k' = k)) as [->|Hne]; [lia|rewrite Hoth by done; lia].
    + by apply (Forall_bound_same _ _ (last_seen c)).
  - destruct (raise sender number (last_seen c) (last_seen c') (accepted_of tr) a Ha Has Hlt Hnew Hoth) as [Ha' Has'].
    split; rewrite ?took_app, ?accepted_app, ?Et, ?Ea, ?app_nil_r; try done.
    + intros k. by rewrite Hsent.
    + intros k. rewrite Hsent. specialize (Hn k). lia.
    + by apply (Forall_bound_same _ _ (last_sent c)).
Qed.

(** ** Reachable states *)

Section reachable.
Context `{Crypto} `{Hkdf} `{Frodo} (siem_on : bool).
Context (gw : GatewayState gateway_store) (actions : list action).
Context (Hstore : store_ok (key_store gw)).

Abbreviation start := (boot gw actions).

Lemma boot_inv : keys_inv start [] start ∧ counts_inv 0 [] (counters (state start)).
Proof using Hstore.
  split.
  - split; [by left| |constructor..]. intros d key [Hd|Hd]; [|by apply elem_of_nil in Hd].
    specialize (Hstore d). cbn [boot state keys] in Hd. by rewrite Hd in Hstore.
  - assert (∀ k, last_sent SequenceCounter_new k = 0) as Hz by done.
    split; cbn [boot state counters]; [intros k; by rewrite Hz|intros k; by rewrite Hz|..];
      first [apply Forall_nil_2|apply SSorted_nil].
Qed.

Lemma run_inv n tr s :
  run siem_on start n tr s → keys_inv start tr s ∧ counts_inv n tr (counters (state s)).
Proof using Hstore.
  induction 1 as [|n tr s evs s' _ [IHk IHc] Hs]; [apply boot_inv|]. split.
  - eapply keys_inv_step; [apply IHc|done..].
  - eapply counts_inv_step; [by eapply step_counts|done].
Qed.

Lemma run_aads n tr s :
  run siem_on start n tr s → sealed_aads tr ++ concat (held_aads <$> handlers s) ⊆+ took tr.
Proof using Type.
  induction 1 as [|n tr s evs s' _ IH Hs]; [done|].
  eapply (step_flow siem_on held_aads sealed_aads took); try done; [by intros [? []|? []| |]| |apply omap_app|apply omap_app].
  intros h sh h' sh' Hh _. by eapply aad_flow.
Qed.

Lemma run_data n tr s :
  run siem_on start n tr s → wrote tr ++ concat (held_data <$> handlers s) ⊆+ entitled tr.
Proof using Hstore.
  induction 1 as [|n tr s evs s' Hr IH Hs]; [done|].
  eapply (step_flow siem_on held_data wrote entitled); try done; [by intros [? []|? []| |]| |apply omap_app|apply omap_app].
  intros h sh h' sh' Hh Hin. eapply data_flow; [|done]. destruct (run_inv _ _ _ Hr) as [[] _].
  rewrite Forall_forall in inv_handlers0. by apply inv_handlers0.
Qed.

Lemma run_survives n tr s :
  run siem_on start n tr s → Z.of_nat n < 2 ^ 64 → send_poisoned (state s) = false ∧ Forall survives (handlers s).
Proof using Hstore.
  induction 1 as [|n tr s evs s' Hr IH Hs]; [done|]. intros Hn. destruct (IH ltac:(lia)) as [IHp IHh].
  destruct (run_inv _ _ _ Hr) as [[Hl Hv _ Hok _] [Hc Hsteps _ _ _ _]].
  apply step_cases in Hs as [(i & h & h' & Hh & Hs & Heq & _)|(fresh & Heq & Hf & Hcase)].
  - rewrite Forall_forall in Hok.
    assert (∀ k, last_sent (counters (state s)) k < 2 ^ 64 - 1) as Hlt by (intros k; specialize (Hsteps k); lia).
    destruct (handler_step_survives siem_on _ _ _ _ _ _ Hv (Hok h ltac:(by eapply list_elem_of_lookup_2)) Hlt IHp Hs)
      as [Hp Hh']. split; [done|].
    rewrite Heq. by apply Forall_insert.
  - split; [destruct Hcase as [[_ ->]|(t & key & _ & _ & ->)]; done|]. rewrite Heq.
    apply Forall_app_2; [done|]. eapply Forall_impl; [exact Hf|]. by intros [? []|? []| |].
Qed.
End reachable.
