(* ===== verification/SystemRuns.v ===== *)
(** * Runs of the gateway

    What holds of every run of [System]: what an ingress and an egress gateway may
    show, that handlers survive, how many steps of its own lie between two reads of a
    handler, and that an undisturbed handler is the function of [Gateway]. Schedules make runs computable; the sample
    gateways are of each side, with a key file for one device. *)
From Stdlib Require Import ZArith Lia Strings.Byte Strings.String Sorting.Sorted.
From stdpp Require Import base tactics option numbers countable gmap list relations.
From S2P Require Import Prelude Machine Errors Crates Post Primes Keys Derive Padding Tokens BlockV8.
From S2P Require Modbus Dnp3.
From S2P Require Import OtFrame Kem KemExchange Gateway KatVectors Startup System.

#[local] Open Scope Z_scope.
#[local] Open Scope napqes_scope.

(** ** The two sides *)

Definition on_ingress (h : handler) : Prop := match h with Egress _ _ => False | _ => True end.
Definition on_egress (h : handler) : Prop := match h with Ingress _ _ => False | _ => True end.

Definition sealed_envelopes (tr : list event) : list (list byte) :=
  omap (λ ev, match ev with Sealed _ _ _ env => Some env | _ => None end) tr.

(** The handlers a task may spawn are of one side. *)
Definition spawns (side : handler → Prop) (t : task) : Prop := ∀ h, spawned t = Some h → side h.

Definition job_task (j : job) : option task :=
  match j with
  | Binding t | Accepting t | Exchanging t | Installing t _ | Sleeping t => Some t
  | Returned _ | Panicked _ => None
  end.

Definition main_rest (m : main_state) : list action := match m with MRun rest _ => rest | _ => [] end.

Record on_side (side : handler → Prop) (s : system) : Prop := MkOnSide {
  side_main : ∀ t, Spawn t ∈ main_rest (main_at s) → spawns side t;
  side_jobs : Forall (λ j, ∀ t, job_task j = Some t → spawns side t) (jobs s);
  side_handlers : Forall side (handlers s);
}.

Section sides.
Context `{Crypto} `{Hkdf} `{Frodo} (siem_on : bool) (side : handler → Prop).
Context (Hside : ∀ h sh evs h' sh', side h → handler_step siem_on h sh evs h' sh' → side h').

Lemma main_move_side m sh m' js :
  main_move m sh = Some (m', js) → (∀ t, Spawn t ∈ main_rest m → spawns side t) →
  (∀ t, Spawn t ∈ main_rest m' → spawns side t) ∧
  Forall (λ j, ∀ t, job_task j = Some t → spawns side t) js.
Proof using Type.
  intros Hm Hr. destruct m as [[|[t|] rest] polls| |]; cbn [main_move main_rest] in *; try done.
  - injection Hm as <- <-. by split.
  - injection Hm as <- <-. split; [intros t' Ht; apply Hr; by right|].
    constructor; [|constructor]. intros t' Ht. apply Hr.
    assert (t' = t) as -> by (destruct t; by injection Ht as <-). left.
  - case_if_in Hm; injection Hm as <- <-; (split; [|constructor]); [|done].
    intros t' Ht. apply Hr. by right.
Qed.

Lemma job_step_side j sh evs hs j' sh' :
  job_step j sh evs hs j' sh' → (∀ t, job_task j = Some t → spawns side t) →
  (∀ t, job_task j' = Some t → spawns side t) ∧ Forall side hs.
Proof using Type.
  intros Hj Ht. destruct Hj; cbn [job_task] in *; split; try done; try constructor; try (by destruct t);
    try (intros t' Heq; apply Ht; by destruct t).
  by apply (Ht t).
Qed.

Lemma step_side s evs s' : step siem_on s evs s' → on_side side s → on_side side s'.
Proof using Hside.
  intros Hs [Hm Hj Hh].
  destruct Hs as [m m' js js' hs sh Hmm|js hs sh|m js i j j' hs hs' sh sh' evs Hne Hi Hs|m js hs i h h' sh sh' evs Hne Hi Hs];
    cbn [main_at jobs handlers] in *.
  - destruct (main_move_side _ _ _ _ Hmm Hm) as [Hm' Hj']. split; cbn [main_at jobs handlers]; [done| |done].
    by apply Forall_app_2.
  - split; cbn [main_at jobs handlers main_rest]; [by intros t ?%elem_of_nil|done|done].
  - destruct (job_step_side _ _ _ _ _ _ Hs (Forall_lookup_1 _ _ _ _ Hj Hi)) as [Hj' Hh'].
    split; cbn [main_at jobs handlers]; [done|by apply Forall_insert|by apply Forall_app_2].
  - split; cbn [main_at jobs handlers]; [done|done|]. apply Forall_insert; [done|].
    eapply Hside; [|done]. by eapply Forall_lookup_1.
Qed.
End sides.

Section side_runs.
Context `{Crypto} `{Hkdf} `{Frodo} (siem_on : bool).
Context (gw : GatewayState gateway_store) (actions : list action).
Context (Hstore : store_ok (key_store gw)).

Abbreviation start := (boot gw actions).

Lemma ingress_side h sh evs h' sh' :
  on_ingress h → handler_step siem_on h sh evs h' sh' → on_ingress h' ∧ accepted_of evs = [].
Proof using Type.
  intros Hh Hs. handler_cases Hs; try done. split; [|done].
  unfold ingress_received. by destruct (ingress_parse p frame) as [[]| |].
Qed.

Lemma egress_side h sh evs h' sh' :
  on_egress h → handler_step siem_on h sh evs h' sh' → on_egress h' ∧ sealed_envelopes evs = [].
Proof using Type.
  intros Hh Hs. handler_cases Hs; try done; (split; [|done]).
  - unfold egress_header. by destruct (MAX_BLOB <? _).
  - unfold egress_received. by destruct (peek_device_id _).
Qed.

(** A gateway keeps the side its listeners are of: what it shows of the other side
    is nothing. *)
Lemma run_side {B} (side : handler → Prop) (shown : list event → list B) n tr s :
  (∀ h sh evs h' sh', side h → handler_step siem_on h sh evs h' sh' → side h' ∧ shown evs = []) →
  shown [] = [] → (∀ key, shown [Installed key] = []) → (∀ l l', shown (l ++ l') = shown l ++ shown l') →
  (∀ t, Spawn t ∈ actions → spawns side t) →
  run siem_on start n tr s → on_side side s ∧ shown tr = [].
Proof using Type.
  intros Hside Hnil Hinst Happ Hact. induction 1 as [|n tr s evs s' _ [IHs IHt] Hs].
  - split; [|done]. split; cbn; [done|constructor|constructor].
  - split; [eapply step_side; [|done|done]; intros; by eapply Hside|]. rewrite Happ, IHt. cbn.
    apply step_cases in Hs as [(i & h & h' & Hh & Hs & _)|(fresh & _ & _ & [[-> _]|(t & key & _ & -> & _)])]; [|done|apply Hinst].
    eapply Hside; [|done]. destruct IHs as [_ _ Hhs]. by eapply Forall_lookup_1.
Qed.

Lemma entitled_egress tr :
  sealed_envelopes tr = [] →
  entitled tr = (λ a, forward_envelope (forward_frame (via a) (body a))) <$> accepted_of tr.
Proof using Type.
  induction tr as [|ev tr IH]; [done|]. destruct ev; intros Hs; try done; try exact (IH Hs).
  exact (f_equal (cons _) (IH Hs)).
Qed.

Lemma entitled_ingress tr :
  accepted_of tr = [] → entitled tr = forward_envelope <$> sealed_envelopes tr.
Proof using Type.
  induction tr as [|ev tr IH]; [done|]. destruct ev; intros Hs; try done; try exact (IH Hs).
  exact (f_equal (cons _) (IH Hs)).
Qed.
End side_runs.

Lemma aads_NoDup l : StronglySorted aad_later l → NoDup l.
Proof.
  induction 1 as [|a l _ IH Hl]; [constructor|]. constructor; [|done]. intros Hin.
  rewrite Forall_forall in Hl. specialize (Hl a Hin eq_refl). lia.
Qed.

(** What [main] has to have decided for a run of the gateway to start. *)
Definition started (c : Config) (gw : GatewayState gateway_store) (actions : list action) : Prop :=
  ∃ post file bind, main post (Ok c) file bind = Ok (gw, actions) ∧
    ∀ path raw, file path = Ok raw → Forall (λ v, Forall (fits 64) (entry_primes v)) raw.

Lemma started_store_ok c gw actions : started c gw actions → store_ok (key_store gw).
Proof.
  intros (post & file & bind & Hm & Hfile).
  apply main_Ok in Hm as (_ & c' & _ & [(_ & -> & _)|(_ & raw & fs & Hraw & Hfs & -> & _)]).
  - apply session_store_ok. intros d key. cbn. by rewrite lookup_empty.
  - intros d. exact (file_store_ok raw fs (Hfile _ _ Hraw) Hfs d).
Qed.

Lemma main_actions post c file bind gw actions :
  main post (Ok c) file bind = Ok (gw, actions) →
  actions = (if use_kem c then kem_tasks c else []) ++ (Spawn <$> start_ot_listeners c).
Proof.
  unfold main. intros Hm. apply bind_Ok_inv in Hm as (u & _ & Hm). rewrite bind_Ok in Hm.
  apply bind_Ok_inv in Hm as (ks & Hks & Hm). apply bind_Ok_inv in Hm as (sm & _ & Hm). injection Hm as _ <-.
  destruct (use_kem c); [by injection Hks as <-|]. case_if_in Hks; [done|].
  apply bind_Ok_inv in Hks as (raw & _ & Hks). apply bind_Ok_inv in Hks as (fs & _ & Hks). by injection Hks as <-.
Qed.

Lemma started_spawns c gw actions t :
  started c gw actions → Spawn t ∈ actions →
  (mode c = str "egress" → spawns on_egress t) ∧ (mode c = str "ingress" → spawns on_ingress t).
Proof.
  intros (post & file & bind & Hm & _) Hin.
  apply main_actions in Hm. subst actions. apply elem_of_app in Hin as [Hin|Hin].
  - assert (spawned t = None) as Ht; [|by split; intros _ h Hh; rewrite Ht in Hh].
    destruct (use_kem c); [|by apply elem_of_nil in Hin].
    unfold kem_tasks in Hin. repeat case_if_in Hin; set_solver.
  - apply list_elem_of_fmap in Hin as (t' & [= <-] & (p & _ & Ht)%start_ot_listeners_elem).
    destruct Ht as [[Hm ->]|[Hm ->]]; split; intros Hmode h [= <-]; try done; by rewrite Hm in Hmode.
Qed.

(** Handlers only read the store. *)
Lemma handler_step_keys `{Crypto} siem_on h sh evs h' sh' :
  handler_step siem_on h sh evs h' sh' → keys sh' = keys sh ∧ installed_keys evs = [].
Proof. intros Hs. handler_cases Hs; try (shared_facts Hc; try done); try done; (split; [|done]); tauto. Qed.

(** The store answers with the key that was installed last. *)
Lemma run_store `{Crypto} `{Hkdf} `{Frodo} siem_on gw actions n tr s :
  run siem_on (boot gw actions) n tr s → keys (state s) = rekeyed (Ok <$> installed_keys tr) (key_store gw).
Proof.
  induction 1 as [|n tr s evs s' _ IH Hs]; [by destruct gw as [[|]]|].
  unfold installed_keys in *. rewrite omap_app, fmap_app.
  apply step_cases in Hs as [(i & h & h' & _ & Hs & _)|(fresh & _ & _ & [[-> ->]|(t & key & _ & -> & ->)])].
  - apply handler_step_keys in Hs as [-> He]. unfold installed_keys in He. by rewrite He, app_nil_r.
  - cbn. by rewrite app_nil_r.
  - cbn [install keys omap list_omap]. rewrite IH. destruct (key_store gw) as [st|st]; [|done]. cbn [rekeyed].
    by rewrite fmap_cons, fmap_nil, run_rekey_loop_snoc.
Qed.

(** ** Progress of a handler *)

(** A handler that waits for bytes of its peer, or has ended. *)
Definition waiting (h : handler) : Prop :=
  match h with
  | Ingress _ IRead | Egress _ EHeader | Egress _ (EBlob _) | Closed | Died _ _ => True
  | _ => False
  end.

(** The steps a handler has before it at most, until it waits again. *)
Definition rank (h : handler) : nat :=
  match h with
  | Ingress _ (ISeq _ _) => 5
  | Ingress _ (ILoad _ _) | Egress _ (ERecv _ _ _ _) => 4
  | Ingress _ (IWrap _ _ _) => 3
  | Ingress _ (ISend out) | Egress _ (ESend out _) => S (length out)
  | Egress _ (ELoad _ _) => 6
  | Egress _ (EOpen _ _ _) => 5
  | _ => 0
  end.

Section progress.
Context `{Crypto} (siem_on : bool).

Lemma length_report sh e sev : (length (report siem_on sh e sev) ≤ 1)%nat.
Proof using Type. unfold report, emit_siem. by destruct siem_on; cbn; lia. Qed.

Lemma performs_some e : ∃ evs, performs e evs.
Proof using Type.
  destruct e as [e sev|data]; [by exists []; constructor|].
  exists [Wrote data 0]. constructor. lia.
Qed.

Lemma handler_moves h sh : ¬ waiting h → ∃ evs h' sh', handler_step siem_on h sh evs h' sh'.
Proof using Type.
  intros Hw. destruct h as [p pc|p pc| |]; [| |by destruct Hw..].
  - destruct (ingress_move siem_on default_build p pc sh) as [[[evs h'] sh']|] eqn:Hm;
      [by exists evs, h', sh'; eapply ingress_run|].
    destruct pc as [|d pdu|aad pdu|aad pdu key|[|e out]]; [by destruct Hw|..]; cbn [ingress_move] in Hm;
      repeat case_match; try done.
    destruct (performs_some e) as [evs He]. exists evs. by eexists _, _; apply ingress_send.
  - destruct (egress_move siem_on default_build p pc sh) as [[[evs h'] sh']|] eqn:Hm;
      [by exists evs, h', sh'; eapply egress_run|].
    destruct pc as [|hd|env d|env d key|env d key a|[|e out] again]; [by destruct Hw|by destruct Hw|..];
      cbn [egress_move] in Hm; repeat case_match; try done.
    destruct (performs_some e) as [evs He]. exists evs. by eexists _, _; apply egress_send.
Qed.

Lemma handler_rank h sh evs h' sh' :
  ¬ waiting h → handler_step siem_on h sh evs h' sh' → (rank h' < rank h)%nat.
Proof using Type.
  intros Hw Hs. handler_cases Hs; cbn [rank waiting length] in *; try tauto; try lia;
    pose proof length_report as Hl; repeat match goal with
    | |- context [report siem_on ?sh ?e ?sev] => pose proof (length_report sh e sev); generalize dependent (report siem_on sh e sev); intros
    end; lia.
Qed.
End progress.

(** ** A handler that nothing disturbs *)

Section undisturbed.
Context `{Crypto} (siem_on : bool).

Inductive undisturbed : handler → shared → list event → handler → shared → Prop :=
| undisturbed_refl h sh : undisturbed h sh [] h sh
| undisturbed_step h sh evs h1 sh1 evs' h2 sh2 :
    handler_step siem_on h sh evs h1 sh1 → undisturbed h1 sh1 evs' h2 sh2 →
    undisturbed h sh (evs ++ evs') h2 sh2.

(** The effects that were carried out in full. *)
Definition performed (evs : list event) : list effect :=
  omap (λ ev, match ev with
              | Wrote data n => if bool_decide (n = length data) then Some (Forward data) else None
              | Reported e sev => Some (Siem e sev)
              | _ => None
              end) evs.

Lemma undisturbed_trans h sh evs h1 sh1 evs' h2 sh2 :
  undisturbed h sh evs h1 sh1 → undisturbed h1 sh1 evs' h2 sh2 → undisturbed h sh (evs ++ evs') h2 sh2.
Proof using Type.
  induction 1 as [|h sh evs h1 sh1 evs1 h3 sh3 Hs _ IH]; intros Hu; [done|].
  rewrite <-app_assoc. econstructor; [done|by apply IH].
Qed.

Lemma undisturbed_one h sh evs h1 sh1 : handler_step siem_on h sh evs h1 sh1 → undisturbed h sh evs h1 sh1.
Proof using Type. intros Hs. rewrite <-(app_nil_r evs). econstructor; [done|constructor]. Qed.

Lemma performed_app l l' : performed (l ++ l') = performed l ++ performed l'.
Proof using Type. apply omap_app. Qed.

Lemma performs_full e : ∃ evs, performs e evs ∧ performed evs = [e].
Proof using Type.
  destruct e as [e sev|data]; eexists; (split; [econstructor; done|]); [done|].
  cbn. by rewrite bool_decide_eq_true_2.
Qed.

Lemma ingress_sends p out sh :
  ∃ evs, undisturbed (Ingress p (ISend out)) sh evs (Ingress p IRead) sh ∧ performed evs = out.
Proof using Type.
  induction out as [|e out (evs & IH & Hp)].
  - exists []. split; [|done]. by apply undisturbed_one, (ingress_run siem_on default_build).
  - destruct (performs_full e) as (evs1 & He & Hp1). exists (evs1 ++ evs). split.
    + econstructor; [by apply ingress_send|done].
    + by rewrite performed_app, Hp1, Hp.
Qed.

Lemma egress_sends p out again sh :
  ∃ evs, undisturbed (Egress p (ESend out again)) sh evs (if again then Egress p EHeader else Closed) sh ∧
    performed evs = out.
Proof using Type.
  induction out as [|e out (evs & IH & Hp)].
  - exists []. split; [|done]. by apply undisturbed_one, (egress_run siem_on default_build).
  - destruct (performs_full e) as (evs1 & He & Hp1). exists (evs1 ++ evs). split.
    + econstructor; [by apply egress_send|done].
    + by rewrite performed_app, Hp1, Hp.
Qed.
End undisturbed.

Section alone.
Context `{Crypto} (siem_on : bool) (g : Gate) (ks : gateway_store).

Abbreviation st := (MkGateway ks siem_on).
Abbreviation sh c b := (MkShared ks c b).

Definition ingress_frame (p : ProtocolId) : list byte → SequenceCounter → handled :=
  match p with ModbusTcp => ingress_modbus st | Dnp3 => ingress_dnp3 st end.

Lemma ingress_frame_eq p frame c :
  ingress_frame p frame c
  = match ingress_parse p frame with
    | Ok (d, pdu) => ingress_pdu st p d pdu c
    | Err _ => (report siem_on (sh c false) PARSE_ERR 5, c, None)
    | Panic x => ([], c, Some x)
    end.
Proof using Type.
  destruct p; cbn [ingress_frame ingress_parse]; unfold ingress_modbus, ingress_dnp3.
  - by destruct (Modbus.extract_pdu frame) as [[]| |].
  - by destruct (Dnp3.extract_payload frame) as [[]| |].
Qed.

(** Where a handler stands after a frame, or an envelope, was handled. *)
Definition after (h : handler) (p : ProtocolId) (r : option panic) : handler :=
  match r with None => h | Some x => Died p x end.

Lemma ingress_then p pc s evs h s' evs' h2 s2 :
  ingress_move siem_on g p pc s = Some (evs, h, s') → undisturbed siem_on h s' evs' h2 s2 →
  undisturbed siem_on (Ingress p pc) s (evs ++ evs') h2 s2.
Proof using Type. intros Hm. econstructor; [by eapply ingress_run|done]. Qed.

Lemma egress_then p pc s evs h s' evs' h2 s2 :
  egress_move siem_on g p pc s = Some (evs, h, s') → undisturbed siem_on h s' evs' h2 s2 →
  undisturbed siem_on (Egress p pc) s (evs ++ evs') h2 s2.
Proof using Type. intros Hm. econstructor; [by eapply egress_run|done]. Qed.

(** From a key on. *)
Lemma ingress_load_alone p d sq pdu c log c' r :
  match load ks d with
  | Ok key =>
      match wrap_pdu pdu (MkOtAad p d sq) key with
      | Ok envelope => ([Forward (forward_envelope envelope)], c, None)
      | Err _ => ([], c, None)
      | Panic x => ([], c, Some x)
      end
  | Err _ => (emit_siem st (KEY_MISSING d) 7, c, None)
  | Panic x => ([], c, Some x)
  end = (log, c', r) →
  ∃ evs, undisturbed siem_on (Ingress p (ILoad (MkOtAad p d sq) pdu)) (sh c false) evs
           (after (Ingress p IRead) p r) (sh c' false) ∧ performed evs = log.
Proof using Type.
  intros Hm. destruct (load ks d) as [key|e|x] eqn:Hl.
  - destruct (wrap_pdu pdu (MkOtAad p d sq) key) as [env|e|x] eqn:Hw; injection Hm as <- <- <-.
    + destruct (ingress_sends siem_on p [Forward (forward_envelope env)] (sh c false)) as (evs & Hu & Hp).
      exists ([] ++ [Sealed (MkOtAad p d sq) pdu key env] ++ evs). split; [|done].
      eapply ingress_then; [cbn; by rewrite Hl|]. eapply ingress_then; [cbn; by rewrite Hw|done].
    + exists ([] ++ [] ++ []). split; [|done].
      eapply ingress_then; [cbn; by rewrite Hl|]. eapply ingress_then; [cbn; by rewrite Hw|constructor].
    + exists ([] ++ [] ++ []). split; [|done].
      eapply ingress_then; [cbn; by rewrite Hl|]. eapply ingress_then; [cbn; by rewrite Hw|constructor].
  - injection Hm as <- <- <-.
    destruct (ingress_sends siem_on p (report siem_on (sh c false) (KEY_MISSING d) 7) (sh c false)) as (evs & Hu & Hp).
    exists ([] ++ evs). split; [|done]. eapply ingress_then; [cbn; by rewrite Hl|done].
  - injection Hm as <- <- <-. exists ([] ++ []). split; [|done].
    eapply ingress_then; [cbn; by rewrite Hl|constructor].
Qed.

Lemma ingress_pdu_alone p d pdu c log c' r :
  ingress_pdu st p d pdu c = (log, c', r) →
  ∃ evs b, undisturbed siem_on (Ingress p (ISeq d pdu)) (sh c false) evs (after (Ingress p IRead) p r) (sh c' b) ∧
    performed evs = log ∧ (r = None → b = false).
Proof using Type.
  unfold ingress_pdu. destruct (next_seq p d c) as [[sq c1]|e|x] eqn:Hn; intros Hm.
  - destruct (ingress_load_alone p d sq pdu c1 log c' r Hm) as (evs & Hu & Hp).
    exists ([Took (MkOtAad p d sq)] ++ evs), false. split; [|done].
    eapply ingress_then; [cbn; unfold shared_next_seq; cbn; by rewrite Hn|done].
  - injection Hm as <- <- <-. exists ([] ++ []), false. split; [|done].
    eapply ingress_then; [cbn; unfold shared_next_seq; cbn; by rewrite Hn|constructor].
  - injection Hm as <- <- <-. exists ([] ++ []), true. split; [|done].
    eapply ingress_then; [cbn; unfold shared_next_seq; cbn; by rewrite Hn|constructor].
Qed.

Lemma ingress_frame_alone p frame c log c' r :
  (0 < length frame ≤ 4096)%nat → ingress_frame p frame c = (log, c', r) →
  ∃ evs b, undisturbed siem_on (Ingress p IRead) (sh c false) evs (after (Ingress p IRead) p r) (sh c' b) ∧
    performed evs = log ∧ (r = None → b = false).
Proof using Type.
  intros Hlen Hm. rewrite ingress_frame_eq in Hm.
  assert (∀ evs h s, undisturbed siem_on (ingress_received siem_on p frame (sh c false)) (sh c false) evs h s →
    undisturbed siem_on (Ingress p IRead) (sh c false) ([] ++ evs) h s) as Hread.
  { intros evs h s Hu. econstructor; [by apply ingress_read|done]. }
  unfold ingress_received in Hread. destruct (ingress_parse p frame) as [[d pdu]|e|x].
  - destruct (ingress_pdu_alone p d pdu c log c' r Hm) as (evs & b & Hu & Hp & Hb).
    exists ([] ++ evs), b. split; [by apply Hread|done].
  - injection Hm as <- <- <-.
    destruct (ingress_sends siem_on p (report siem_on (sh c false) PARSE_ERR 5) (sh c false)) as (evs & Hu & Hp).
    exists ([] ++ evs), false. split; [by apply Hread|done].
  - injection Hm as <- <- <-. exists ([] ++ []), false. split; [apply Hread; constructor|done].
Qed.

(** A connection's reads, until its end or a panic. *)
Lemma ingress_reads_alone p reads c log c' r :
  Forall (λ frame, (0 < length frame ≤ 4096)%nat) reads →
  run_handler (ingress_frame p) reads c = (log, c', r) →
  ∃ evs b, undisturbed siem_on (Ingress p IRead) (sh c false) evs (after Closed p r) (sh c' b) ∧
    performed evs = log.
Proof using Type.
  intros Hl. revert c log. induction Hl as [|frame reads Hlen _ IH]; intros c log Hm; cbn [run_handler] in Hm.
  - injection Hm as <- <- <-. exists [], false. split; [|done]. apply undisturbed_one, ingress_close.
  - destruct (ingress_frame p frame c) as [[log1 c1] r1] eqn:Hf.
    destruct (ingress_frame_alone p frame c log1 c1 r1 Hlen Hf) as (evs1 & b1 & Hu1 & Hp1 & Hb1).
    destruct r1 as [x|]; [injection Hm as <- <- <-; by exists evs1, b1|]. rewrite (Hb1 eq_refl) in Hu1.
    destruct (run_handler (ingress_frame p) reads c1) as [[log2 c2] r2] eqn:Hr. injection Hm as <- <- <-.
    destruct (IH _ _ Hr) as (evs2 & b2 & Hu2 & Hp2). exists (evs1 ++ evs2), b2.
    split; [by eapply undisturbed_trans|by rewrite performed_app, Hp1, Hp2].
Qed.

Lemma egress_report p out again c b c' r log :
  (out, c, None) = (log, c', r) →
  ∃ evs, undisturbed siem_on (Egress p (ESend out again)) (sh c b) evs
           (if again then after (Egress p EHeader) p r else Closed) (sh c' b) ∧ performed evs = log.
Proof using Type.
  intros Hm. injection Hm as <- <- <-. destruct (egress_sends siem_on p out again (sh c b)) as (evs & Hu & Hp).
  exists evs. by destruct again.
Qed.

(** From an opened envelope on. *)
Lemma egress_recv_alone p env d key p' d' sq pdu c b log c' r :
  match validate_recv p' d' sq c with
  | (Ok _, c1) => ([Forward (forward_envelope (forward_frame p pdu))], c1, None)
  | (Err _, c1) => (emit_siem st (AUTH_FAIL d (default 0 (peek_seq env))) 7, c1, None)
  | (Panic x, c1) => ([], c1, Some x)
  end = (log, c', r) →
  ∃ evs, undisturbed siem_on (Egress p (ERecv env d key (MkDelivery p (p', d') sq pdu))) (sh c b) evs
           (after (Egress p EHeader) p r) (sh c' b) ∧ performed evs = log.
Proof using g.
  intros Hm. destruct (validate_recv p' d' sq c) as [[[]|e|x] c1] eqn:Hv.
  - destruct (egress_report p _ true c1 b _ _ _ Hm) as (evs & Hu & Hp).
    exists ([Accepted (MkDelivery p (p', d') sq pdu) key env] ++ evs). split; [|done].
    eapply egress_then; [cbn; unfold shared_validate_recv; cbn; by rewrite Hv|done].
  - destruct (egress_report p _ true c1 b _ _ _ Hm) as (evs & Hu & Hp).
    exists ([] ++ evs). split; [|done].
    eapply egress_then; [cbn; unfold shared_validate_recv; cbn; by rewrite Hv|done].
  - injection Hm as <- <- <-. exists ([] ++ []). split; [|done].
    eapply egress_then; [cbn; unfold shared_validate_recv; cbn; by rewrite Hv|constructor].
Qed.

Lemma egress_envelope_alone p env c b log c' r :
  egress_envelope st p env c = (log, c', r) →
  ∃ evs, undisturbed siem_on (egress_received siem_on p env (sh c b)) (sh c b) evs
           (after (Egress p EHeader) p r) (sh c' b) ∧ performed evs = log.
Proof using Type.
  unfold egress_envelope, egress_received. destruct (peek_device_id env) as [d|]; intros Hm.
  2: { by apply (egress_report p _ true). }
  change (load (key_store st) d) with (load ks d) in Hm. destruct (load ks d) as [key|e|x] eqn:Hl.
  - unfold unwrap_pdu in Hm. destruct (open_envelope env key) as [[[[p' d'] sq] pdu]|e|x] eqn:Ho.
    + assert (match validate_recv p' d' sq c with
        | (Ok _, c1) => ([Forward (forward_envelope (forward_frame p pdu))], c1, None)
        | (Err _, c1) => (emit_siem st (AUTH_FAIL d (default 0 (peek_seq env))) 7, c1, None)
        | (Panic x, c1) => ([], c1, Some x)
        end = (log, c', r)) as Hm' by (destruct (validate_recv p' d' sq c) as [[[]| |] c1]; done).
      destruct (egress_recv_alone p env d key p' d' sq pdu c b log c' r Hm') as (evs & Hu & Hp).
      exists ([] ++ [] ++ evs). split; [|done].
      eapply egress_then; [cbn; by rewrite Hl|]. eapply egress_then; [cbn; by rewrite Ho|done].
    + destruct (egress_report p _ true c b _ _ _ Hm) as (evs & Hu & Hp). exists ([] ++ [] ++ evs). split; [|done].
      eapply egress_then; [cbn; by rewrite Hl|]. eapply egress_then; [cbn; by rewrite Ho|done].
    + injection Hm as <- <- <-. exists ([] ++ [] ++ []). split; [|done].
      eapply egress_then; [cbn; by rewrite Hl|]. eapply egress_then; [cbn; by rewrite Ho|constructor].
  - destruct (egress_report p _ true c b _ _ _ Hm) as (evs & Hu & Hp). exists ([] ++ evs). split; [|done].
    eapply egress_then; [cbn; by rewrite Hl|done].
  - injection Hm as <- <- <-. exists ([] ++ []). split; [|done]. eapply egress_then; [cbn; by rewrite Hl|constructor].
Qed.

(** One round of the egress loop: on to the next header, or to the end. *)
Lemma egress_step_alone p input c b log :
  match egress_step st p (input, c, log) with
  | inl (input', c', log') => (length input' < length input)%nat ∧
      ∃ evs, undisturbed siem_on (Egress p EHeader) (sh c b) evs (Egress p EHeader) (sh c' b) ∧
        log' = log ++ performed evs
  | inr (log', c', r) =>
      ∃ evs, undisturbed siem_on (Egress p EHeader) (sh c b) evs (after Closed p r) (sh c' b) ∧
        log' = log ++ performed evs
  end.
Proof using Type.
  unfold egress_step. unfold ENVELOPE_HEADER_SIZE. case_bool_decide as H23.
  { exists []. split; [by apply undisturbed_one, egress_close_header|by rewrite app_nil_r]. }
  set (header := take 23 input). set (blob_len := from_be_bytes (slice 19 23 header)).
  assert (length header = ENVELOPE_HEADER_SIZE) as Hh by (unfold header, ENVELOPE_HEADER_SIZE; rewrite length_take; lia).
  assert (∀ evs h s, undisturbed siem_on (egress_header siem_on p header (sh c b)) (sh c b) evs h s →
    undisturbed siem_on (Egress p EHeader) (sh c b) ([] ++ evs) h s) as Hread.
  { intros evs h s Hu. econstructor; [by apply egress_read_header|done]. }
  unfold egress_header in Hread. fold blob_len in Hread. destruct (MAX_BLOB <? blob_len).
  { destruct (egress_sends siem_on p (report siem_on (sh c b) PARSE_ERR 5) false (sh c b)) as (evs & Hu & Hp).
    exists ([] ++ evs). split; [by apply Hread|]. cbn [app]. by rewrite Hp. }
  destruct (Z.ltb_spec (Z.of_nat (length (drop 23 input))) blob_len).
  { exists ([] ++ []). split; [apply Hread, undisturbed_one, egress_close_blob|by rewrite app_nil_r]. }
  set (blob := take (Z.to_nat blob_len) (drop 23 input)).
  assert (Z.of_nat (length blob) = blob_len) as Hb.
  { unfold blob. pose proof (from_be_bytes_range (slice 19 23 header)) as Hr. fold blob_len in Hr. rewrite length_take. lia. }
  destruct (egress_envelope st p (header ++ blob) c) as [[l c'] r] eqn:He.
  destruct (egress_envelope_alone p (header ++ blob) c b l c' r He) as (evs & Hu & Hp).
  assert (undisturbed siem_on (Egress p EHeader) (sh c b) ([] ++ [] ++ evs) (after (Egress p EHeader) p r) (sh c' b)) as Hall.
  { apply Hread. econstructor; [by apply egress_read_blob|done]. }
  destruct r as [x|]; [|split; [rewrite !length_drop; lia|]]; exists ([] ++ [] ++ evs); (split; [done|by rewrite <-Hp]).
Qed.

Lemma egress_loop_alone p input c b :
  Z.of_nat (length input) < 2 ^ 60 →
  ∃ r, loop (egress_step st p) 64 (input, c, []) = inr r ∧
    ∃ evs, undisturbed siem_on (Egress p EHeader) (sh c b) evs (after Closed p r.2) (sh r.1.2 b) ∧ performed evs = r.1.1.
Proof using Type.
  intros Hin.
  apply (loop_total (egress_step st p)
    (λ s, ∃ evs, undisturbed siem_on (Egress p EHeader) (sh c b) evs (Egress p EHeader) (sh s.1.2 b) ∧ performed evs = s.2)
    (λ s, Z.of_nat (length s.1.1))).
  - intros [[rest c1] l] (evs & Hu & Hl). cbn [fst snd] in *. pose proof (egress_step_alone p rest c1 b l) as Hs.
    destruct (egress_step st p (rest, c1, l)) as [[[rest' c2] l']|[[l' c2] r']]; cbn [fst snd].
    + destruct Hs as (Hlt & evs' & Hu' & ->). split; [|lia]. exists (evs ++ evs').
      split; [by eapply undisturbed_trans|by rewrite performed_app, Hl].
    + destruct Hs as (evs' & Hu' & ->). exists (evs ++ evs').
      split; [by eapply undisturbed_trans|by rewrite performed_app, Hl].
  - exists []. split; [constructor|done].
  - intros s' _. lia.
  - cbn [fst]. lia.
Qed.

Lemma handle_egress_alone p input c b log c' r :
  Z.of_nat (length input) < 2 ^ 60 → handle_egress st p input c = (log, c', r) →
  ∃ evs, undisturbed siem_on (Egress p EHeader) (sh c b) evs (after Closed p r) (sh c' b) ∧ performed evs = log.
Proof using Type.
  intros Hin Hm. destruct (egress_loop_alone p input c b Hin) as ([[log1 c1] r1] & Hr & evs & Hu & Hp).
  assert (handle_egress st p input c = (log1, c1, r1)) as Heq by (unfold handle_egress; by rewrite Hr).
  rewrite Heq in Hm. injection Hm as <- <- <-. by exists evs.
Qed.
End alone.

(** ** Schedules

    A schedule names the steps of a run one after the other, so that runs can be
    computed. It covers the steps in which nothing fails. *)

Inductive choice :=
| CMain
| CBind (i : nat) | CAccept (i : nat)
| CRead (i : nat) (data : list byte) | CRun (i : nat) | CSend (i : nat).

Section schedules.
Context `{Crypto} `{Hkdf} `{Frodo} (siem_on : bool).

Definition exec_handler (ch : choice) (h : handler) (sh : shared) : option (list event * handler * shared) :=
  match ch, h with
  | CRead _ data, Ingress p IRead =>
      if bool_decide (0 < length data ≤ 4096)%nat then Some ([], ingress_received siem_on p data sh, sh) else None
  | CRead _ data, Egress p EHeader =>
      if bool_decide (length data = ENVELOPE_HEADER_SIZE) then Some ([], egress_header siem_on p data sh, sh) else None
  | CRead _ data, Egress p (EBlob header) =>
      if bool_decide (Z.of_nat (length data) = from_be_bytes (slice 19 23 header))
      then Some ([], egress_received siem_on p (header ++ data) sh, sh) else None
  | CRun _, Ingress p pc => ingress_move siem_on default_build p pc sh
  | CRun _, Egress p pc => egress_move siem_on default_build p pc sh
  | CSend _, Ingress p (ISend (Forward data :: out)) => Some ([Wrote data (length data)], Ingress p (ISend out), sh)
  | CSend _, Egress p (ESend (Forward data :: out) again) =>
      Some ([Wrote data (length data)], Egress p (ESend out again), sh)
  | _, _ => None
  end.

Definition exec (ch : choice) (s : system) : option (list event * system) :=
  let '(MkSystem m js hs sh) := s in
  match m with MExit => None | _ =>
  match ch with
  | CMain => '(m', js') ← main_move m sh; Some ([], MkSystem m' (js ++ js') hs sh)
  | CBind i =>
      match js !! i with Some (Binding t) => Some ([], MkSystem m (<[i := bound t]> js) hs sh) | _ => None end
  | CAccept i =>
      match js !! i with
      | Some (Accepting t) => h ← spawned t; Some ([], MkSystem m (<[i := Accepting t]> js) (hs ++ [h]) sh)
      | _ => None
      end
  | CRead i _ | CRun i | CSend i =>
      h ← hs !! i; '(evs, h', sh') ← exec_handler ch h sh; Some (evs, MkSystem m js (<[i := h']> hs) sh')
  end end.

Fixpoint exec_all (l : list choice) (s : system) : option (list event * system) :=
  match l with
  | [] => Some ([], s)
  | ch :: l' => '(evs, s1) ← exec ch s; '(tr, s2) ← exec_all l' s1; Some (evs ++ tr, s2)
  end.

Lemma exec_handler_step ch h sh evs h' sh' :
  exec_handler ch h sh = Some (evs, h', sh') → handler_step siem_on h sh evs h' sh'.
Proof using Type.
  intros He. destruct ch, h as [p [| | | |[|[|] ?]]|p [| | | | |[|[|] ?]]| |]; cbn [exec_handler] in He; try done;
    try case_if_in He; simplify_eq; econstructor; try done; by constructor.
Qed.

Lemma exec_step ch s evs s' : exec ch s = Some (evs, s') → step siem_on s evs s'.
Proof using Type.
  destruct s as [m js hs sh]. intros He. assert (m ≠ MExit) as Hm by (by intros ->).
  assert (∀ i, (h ← hs !! i; '(evs, h', sh') ← exec_handler ch h sh; Some (evs, MkSystem m js (<[i := h']> hs) sh'))
    = Some (evs, s') → step siem_on (MkSystem m js hs sh) evs s') as Hh.
  { intros i (h & Hi & He')%bind_Some. apply bind_Some in He' as ([[evs' h'] sh'] & He' & [= <- <-]).
    eapply step_handler; [done|done|]. by eapply exec_handler_step. }
  destruct ch as [|i|i|i data|i|i].
  - destruct m; cbn [exec] in He; try done; apply bind_Some in He as ([m' js'] & Hmm & [= <- <-]); by constructor.
  - assert (∃ t, js !! i = Some (Binding t) ∧ evs = [] ∧ s' = MkSystem m (<[i := bound t]> js) hs sh) as (t & Hi & -> & ->).
    { destruct m; try done; cbn [exec] in He; destruct (js !! i) as [[]|]; simplify_eq; by eexists. }
    rewrite <-(app_nil_r hs) at 2. eapply step_job; [done|done|]. constructor.
  - assert (∃ t h, js !! i = Some (Accepting t) ∧ spawned t = Some h ∧ evs = [] ∧
      s' = MkSystem m (<[i := Accepting t]> js) (hs ++ [h]) sh) as (t & h & Hi & Hs & -> & ->).
    { destruct m; try done; cbn [exec] in He; destruct (js !! i) as [[]|]; try done;
        apply bind_Some in He as (h & Hh' & [= <- <-]); by eexists _, _. }
    eapply step_job; [done|done|]. by constructor.
  - apply (Hh i). by destruct m.
  - apply (Hh i). by destruct m.
  - apply (Hh i). by destruct m.
Qed.

(** A schedule that executes is a run. *)
Lemma exec_run s0 l n tr s evs s' :
  run siem_on s0 n tr s → exec_all l s = Some (evs, s') → run siem_on s0 (n + length l) (tr ++ evs) s'.
Proof using Type.
  revert n tr s evs. induction l as [|ch l IH]; intros n tr s evs Hr He; cbn [exec_all length] in *.
  - injection He as <- <-. by rewrite Nat.add_0_r, app_nil_r.
  - apply bind_Some in He as ([evs1 s1] & He1 & He). apply bind_Some in He as ([tr2 s2] & He2 & [= <- <-]).
    rewrite app_assoc, <-Nat.add_succ_comm. eapply IH; [|done]. econstructor; [done|by eapply exec_step].
Qed.
End schedules.

(** ** Runs of one handler inside the system *)

Section inside.
Context `{Crypto} `{Hkdf} `{Frodo} (siem_on : bool).

Lemma run_undisturbed s0 n tr m js hs i h sh evs h' sh' :
  m ≠ MExit → hs !! i = Some h → undisturbed siem_on h sh evs h' sh' →
  run siem_on s0 n tr (MkSystem m js hs sh) →
  ∃ n', run siem_on s0 n' (tr ++ evs) (MkSystem m js (<[i := h']> hs) sh').
Proof using Type.
  intros Hm Hi Hu. revert n tr hs Hi. induction Hu as [h sh|h sh evs h1 sh1 evs' h2 sh2 Hs _ IH]; intros n tr hs Hi Hr.
  - exists n. by rewrite app_nil_r, list_insert_id.
  - assert (i < length hs)%nat as Hlt by (by eapply lookup_lt_Some).
    destruct (IH (S n) (tr ++ evs) (<[i := h1]> hs)) as [n' Hr'].
    + by rewrite list_lookup_insert_eq.
    + eapply run_step; [done|]. by eapply step_handler.
    + exists n'. by rewrite app_assoc, <-(list_insert_insert_eq hs i h2 h1).
Qed.

(** An egress handler on a fresh envelope, up to the point where it is about to
    write. *)
Lemma egress_accepts (g : Gate) ks p env d key p' sq pdu c b :
  valid_key (primes key) → small env → load ks d = Ok key → open_envelope env key = Ok (p', d, sq, pdu) →
  Z.of_nat (length env) = 23 + from_be_bytes (slice 19 23 env) →
  last_seen c (p', d) < sq →
  let a := MkDelivery p (p', d) sq pdu in
  ∃ c', last_seen c' (p', d) = sq ∧
    undisturbed siem_on (Egress p EHeader) (MkShared ks c b) [Accepted a key env]
      (Egress p (ESend [Forward (forward_envelope (forward_frame p pdu))] true)) (MkShared ks c' b).
Proof using Type.
  intros Hkey Hs Hl Ho Hlen Hfresh a. unfold small in Hs.
  pose proof (from_be_bytes_range (slice 19 23 env)) as Hr.
  pose proof (open_envelope_cases env key Hkey) as Hc. rewrite Ho in Hc.
  destruct Hc as (dv & sv & lv & blob & tail & Henv & Hd & Hsv & Hlv & _ & -> & _).
  { unfold MAX_BLOB in Hs. change (Z.shiftl 1 16) with (2 ^ 16) in Hs. lia. }
  destruct (peek_envelope (protocol_u8 p') dv sv lv (blob ++ tail) Hd Hsv Hlv) as [Hp _]. rewrite <-Henv in Hp.
  assert (slice 19 23 (take 23 env) = slice 19 23 env) as Hsl.
  { unfold slice. rewrite skipn_firstn_comm, take_take. by rewrite Nat.min_id. }
  pose proof (validate_recv_cases p' (from_be_bytes dv) sq c) as Hv.
  destruct (validate_recv p' (from_be_bytes dv) sq c) as [[[]|e|x] c'] eqn:Hval; [|lia|done].
  exists c'. split; [tauto|]. change [Accepted a key env] with ([] ++ [] ++ [] ++ [] ++ [Accepted a key env] ++ @nil event).
  eapply undisturbed_step; [apply (egress_read_header siem_on p (take 23 env)); rewrite length_take; unfold ENVELOPE_HEADER_SIZE; lia|].
  unfold egress_header. rewrite Hsl. rewrite (proj2 (Z.ltb_ge _ _)) by lia.
  eapply undisturbed_step; [apply (egress_read_blob siem_on p _ (drop 23 env)); rewrite Hsl, length_drop; lia|].
  rewrite take_drop. unfold egress_received. rewrite Hp.
  eapply egress_then; [cbn; by rewrite Hl|]. eapply egress_then; [cbn; by rewrite Ho|].
  eapply (egress_then siem_on g); [|constructor]. cbn. unfold shared_validate_recv. cbn. by rewrite Hval.
Qed.

(** Frames of one device may reach the forward address in another order than
    they were accepted in: nothing orders the writes of different connections. *)
Theorem egress_may_reorder (g : Gate) s0 n tr m js hs ks c b i j p d key env1 env2 q1 q2 pdu1 pdu2 :
  run siem_on s0 n tr (MkSystem m js hs (MkShared ks c b)) → m ≠ MExit → i ≠ j →
  hs !! i = Some (Egress p EHeader) → hs !! j = Some (Egress p EHeader) →
  valid_key (primes key) → load ks d = Ok key →
  small env1 → open_envelope env1 key = Ok (p, d, q1, pdu1) →
  Z.of_nat (length env1) = 23 + from_be_bytes (slice 19 23 env1) →
  small env2 → open_envelope env2 key = Ok (p, d, q2, pdu2) →
  Z.of_nat (length env2) = 23 + from_be_bytes (slice 19 23 env2) →
  last_seen c (p, d) < q1 < q2 →
  let frame pdu := forward_envelope (forward_frame p pdu) in
  ∃ n' s', run siem_on s0 n'
    (tr ++ [Accepted (MkDelivery p (p, d) q1 pdu1) key env1; Accepted (MkDelivery p (p, d) q2 pdu2) key env2;
            Wrote (frame pdu2) (length (frame pdu2)); Wrote (frame pdu1) (length (frame pdu1))]) s'.
Proof using Type.
  intros Hr Hm Hij Hi Hj Hkey Hl Hs1 Ho1 Hl1 Hs2 Ho2 Hl2 Hq frame.
  destruct (egress_accepts g ks p env1 d key p q1 pdu1 c b) as (c1 & Hc1 & Hu1); try done; [lia|].
  destruct (egress_accepts g ks p env2 d key p q2 pdu2 c1 b) as (c2 & Hc2 & Hu2); try done; [lia|].
  assert (∀ pdu sh, undisturbed siem_on (Egress p (ESend [Forward (frame pdu)] true)) sh
    [Wrote (frame pdu) (length (frame pdu))] (Egress p (ESend [] true)) sh) as Hsend.
  { intros pdu sh. apply undisturbed_one, egress_send. by constructor. }
  edestruct run_undisturbed as [n1 Hr1]; [exact Hm|exact Hi|exact Hu1|exact Hr|].
  edestruct run_undisturbed as [n2 Hr2]; [exact Hm| |exact Hu2|exact Hr1|].
  { by rewrite list_lookup_insert_ne. }
  edestruct run_undisturbed as [n3 Hr3]; [exact Hm| |apply (Hsend pdu2)|exact Hr2|].
  { apply list_lookup_insert_eq. rewrite length_insert. by eapply lookup_lt_Some. }
  edestruct run_undisturbed as [n4 Hr4]; [exact Hm| |apply (Hsend pdu1)|exact Hr3|].
  { rewrite !list_lookup_insert_ne by done. apply list_lookup_insert_eq. by eapply lookup_lt_Some. }
  exists n4. eexists. rewrite <-!app_assoc in Hr4. exact Hr4.
Qed.
End inside.

Lemma NoDup_sub {A} (l k : list A) : l ⊆+ k → NoDup k → NoDup l.
Proof. intros [k' ->]%submseteq_Permutation [Hl _]%NoDup_app. done. Qed.

(** What ingress seals, egress can read. *)
Lemma wrapped_envelope `{Crypto} key pdu aad :
  let _ := default_build in
  valid_key (primes key) → aad_ok aad → Z.of_nat (length pdu) < 2 ^ 16 →
  ∃ env, small env ∧ open_envelope env key = Ok (protocol aad, device_id aad, seq aad, pdu) ∧
    Z.of_nat (length env) = 23 + from_be_bytes (slice 19 23 env).
Proof.
  intros G Hkey [Hd Hs] Hl. assert gate_open as Hg by reflexivity.
  pose proof (wrap_pdu_cases key pdu aad Hg Hkey) as Hc. pose proof (wrap_pdu_total G key pdu aad Hkey) as Ht.
  destruct (wrap_pdu pdu aad key) as [env|e|x]; [|lia|done]. destruct (Ht Hd Hs) as [Hsmall Hopen].
  exists env. split; [exact Hsmall|]. split; [exact (Hopen G Hg)|]. destruct Hc as (blob & _ & Hb & ->).
  destruct (envelope_slices (protocol_u8 (protocol aad)) (to_be_bytes 8 (device_id aad)) (to_be_bytes 8 (seq aad))
    (to_be_bytes 4 (Z.of_nat (length blob))) blob) as (Hlen & _ & _ & _ & _ & -> & _); [apply length_to_be_bytes..|].
  rewrite Hlen, from_to_be_bytes by lia. lia.
Qed.

(** A handler never holds more than one effect. *)
Definition short (h : handler) : Prop :=
  match h with Ingress _ (ISend out) | Egress _ (ESend out _) => (length out ≤ 1)%nat | _ => True end.

Lemma short_step `{Crypto} siem_on h sh evs h' sh' :
  short h → handler_step siem_on h sh evs h' sh' → short h'.
Proof.
  intros Hh Hs. handler_cases Hs; cbn [short length] in *; try done; try lia; try apply length_report.
  - unfold ingress_received. destruct (ingress_parse p frame) as [[]| |]; try done. apply length_report.
  - unfold egress_header. destruct (MAX_BLOB <? _); [apply length_report|done].
  - unfold egress_received. destruct (peek_device_id _); [done|apply length_report].
Qed.

Lemma short_rank h : short h → (rank h ≤ 6)%nat.
Proof. destruct h as [p []|p []| |]; cbn; lia. Qed.

(** *** Sample gateways *)

(** A gateway of each side, with a key file for device 9. *)
Definition side_config (side : string) : Config :=
  MkConfig (str side) [str "modbus"; str "dnp3"] (str "10.0.0.2:5502") [] default_modbus_listen default_dnp3_listen
    default_modbus_secure default_dnp3_secure [] [] 0 (str "keys.json").

Definition sample_entry : FileKeyEntry := MkEntry (str "9") sample_key (to_hex (replicate 32 x07)).
Definition session_key : NapqesKey := MkNapqesKey sample_key (replicate 32 x07).
Definition sample_gateway : GatewayState gateway_store :=
  MkGateway (FileStore (MkFileStore {[ 9 := session_key ]})) false.

Lemma sample_main side :
  main (Ok tt) (Ok (side_config side)) (λ _, Ok [sample_entry]) (Ok tt)
  = Ok (sample_gateway, Spawn <$> start_ot_listeners (side_config side)).
Proof.
  assert (load_from_entries [sample_entry] = Ok (MkFileStore {[ 9 := session_key ]})) as Hl
    by (vm_compute; reflexivity).
  assert (use_kem (side_config side) = false) as Hk by (unfold use_kem; by repeat case_bool_decide).
  unfold main. cbn [map_err]. rewrite !bind_Ok, Hk.
  change (is_empty (key_store_path (side_config side))) with false.
  change (is_empty (siem_addr (side_config side))) with true. cbn iota.
  cbn [mbind outcome_bind]. by rewrite Hl.
Qed.

Lemma sample_started side :
  started (side_config side) sample_gateway (Spawn <$> start_ot_listeners (side_config side)).
Proof.
  exists (Ok tt), (λ _, Ok [sample_entry]), (Ok tt). split; [apply sample_main|].
  intros path raw [= <-]. constructor; [|constructor]. apply (bool_decide_eq_true_1 _). by vm_compute.
Qed.

Definition sample_boot (side : string) : system :=
  boot sample_gateway (Spawn <$> start_ot_listeners (side_config side)).


(** The first steps of such a gateway: both listeners up, two Modbus connections. *)
Definition opening : list choice := [CMain; CMain; CBind 0; CBind 1; CAccept 0; CAccept 0].

Definition opened (side : string) (h : handler) : system :=
  MkSystem (MRun [] 0) (Accepting <$> start_ot_listeners (side_config side)) [h; h]
    (MkShared (key_store sample_gateway) SequenceCounter_new false).

Lemma opening_runs `{Crypto} `{Hkdf} `{Frodo} :
  run false (sample_boot "ingress") 6 [] (opened "ingress" (Ingress ModbusTcp IRead)) ∧
  run false (sample_boot "egress") 6 [] (opened "egress" (Egress ModbusTcp EHeader)).
Proof.
  split; apply (exec_run false _ opening 0 [] _ [] _ (run_start false _)); vm_compute; reflexivity.
Qed.

(** ** Properties *)

(** C4: whatever the interleaving of its tasks, its peers' bytes, failures of the
    network and key exchanges, an egress gateway delivers authenticated, fresh PDUs
    only: the accepted deliveries of each device have strictly increasing numbers;
    each is an envelope that opens under a valid key which the store offered for
    that device; and what is written to the forward address is, each at most once
    and possibly cut short, the frame of an accepted delivery. *)
Theorem system_egress_safe `{Crypto} `{Hkdf} `{Frodo} c gw actions n tr s :
  started c gw actions → run (siem gw) (boot gw actions) n tr s →
  StronglySorted later (accepted_of tr) ∧
  (∀ a key env, Accepted a key env ∈ tr →
     offers (boot gw actions) tr (sender a).2 key ∧ valid_key (primes key) ∧ opens_under key env a) ∧
  (∀ data k, Wrote data k ∈ tr → (k ≤ length data)%nat) ∧
  (mode c = str "egress" →
   wrote tr ⊆+ (λ a, forward_envelope (forward_frame (via a) (body a))) <$> accepted_of tr).
Proof.
  intros Hst Hr. pose proof (started_store_ok _ _ _ Hst) as Hs.
  destruct (run_inv (siem gw) gw actions Hs n tr s Hr) as [[_ Hv _ _ Hev] [_ _ _ _ _ Hsort]].
  rewrite Forall_forall in Hev. split_and!; [done| | |].
  - intros a key env Hin. destruct (Hev _ Hin) as [Ho Hopen]. split_and!; [done|by eapply Hv|done].
  - intros data k Hin. exact (Hev _ Hin).
  - intros Hmode. pose proof (run_data (siem gw) gw actions Hs n tr s Hr) as Hd.
    destruct (run_side (siem gw) gw actions on_egress sealed_envelopes n tr s) as [_ Hsealed];
      [apply egress_side|done|done|intros; apply omap_app| |done|].
    + intros t Ht. by apply (started_spawns _ _ _ _ Hst Ht).
    + rewrite <-entitled_egress by done. etrans; [|exact Hd]. by apply submseteq_inserts_r.
Qed.

Lemma system_egress_safe_witness :
  let _ := Toy.crypto in let _ := Toy.hkdf in let _ := Toy.frodo in
  let gw := sample_gateway in let s0 := sample_boot "egress" in
  ∃ n tr s, run false s0 n tr s ∧ number <$> accepted_of tr = [1; 2] ∧
    StronglySorted later (accepted_of tr) ∧
    wrote tr ⊆+ (λ a, forward_envelope (forward_frame (via a) (body a))) <$> accepted_of tr.
Proof.
  intros C HK F gw s0.
  destruct (wrapped_envelope session_key [x09] (MkOtAad ModbusTcp 9 1)) as (env1 & Hs1 & Ho1 & Hl1);
    [apply sample_key_valid|unfold aad_ok, fits; cbn; lia|simpl; lia|].
  destruct (wrapped_envelope session_key [x09] (MkOtAad ModbusTcp 9 2)) as (env2 & Hs2 & Ho2 & Hl2);
    [apply sample_key_valid|unfold aad_ok, fits; cbn; lia|simpl; lia|].
  destruct (egress_may_reorder false default_build s0 6 [] (MRun [] 0) _ _ _ SequenceCounter_new false 0 1
    ModbusTcp 9 session_key env1 env2 1 2 [x09] [x09] (proj2 opening_runs))
    as (n & s & Hr); try done; [apply sample_key_valid|].
  eexists n, _, s. split; [exact Hr|]. split; [reflexivity|].
  destruct (system_egress_safe _ gw _ _ _ _ (sample_started "egress") Hr) as (Hsort & _ & _ & Hw).
  split; [exact Hsort|exact (Hw eq_refl)].
Defined.

(** C5: whatever the interleaving, re-keying included, an ingress gateway never
    seals twice under one associated data: numbers are handed out in increasing
    order per device and each seals at most one envelope; each envelope is sealed
    under a valid key the store offered for the device and opens, under that key, to
    exactly its PDU, device and number; and what is written to the forward address
    is, each at most once and possibly cut short, such an envelope. *)
Theorem system_ingress_safe `{Crypto} `{Hkdf} `{Frodo} c gw actions n tr s :
  started c gw actions → run (siem gw) (boot gw actions) n tr s →
  StronglySorted aad_later (took tr) ∧ sealed_aads tr ⊆+ took tr ∧ NoDup (to_bytes <$> sealed_aads tr) ∧
  (∀ aad pdu key env, Sealed aad pdu key env ∈ tr →
     offers (boot gw actions) tr (device_id aad) key ∧ valid_key (primes key) ∧
     ∀ g : Gate, gate_open → open_envelope env key = Ok (protocol aad, device_id aad, seq aad, pdu)) ∧
  (mode c = str "ingress" → wrote tr ⊆+ forward_envelope <$> sealed_envelopes tr).
Proof.
  intros Hst Hr. pose proof (started_store_ok _ _ _ Hst) as Hs.
  destruct (run_inv (siem gw) gw actions Hs n tr s Hr) as [[_ Hv _ _ Hev] [_ _ _ Hsort _ _]].
  rewrite Forall_forall in Hev.
  assert (sealed_aads tr ⊆+ took tr) as Hsub.
  { etrans; [|exact (run_aads (siem gw) gw actions n tr s Hr)]. by apply submseteq_inserts_r. }
  split_and!; [done|done| | |].
  - apply (NoDup_fmap_2_strong to_bytes); [|by eapply NoDup_sub, aads_NoDup].
    assert (∀ a, a ∈ sealed_aads tr → aad_ok a) as Hok.
    { intros a (ev & Hin & Ha)%list_elem_of_omap. destruct ev; simplify_eq. by destruct (Hev _ Hin). }
    intros a b Ha%Hok Hb%Hok Heq. destruct Ha, Hb. by apply to_bytes_inj.
  - intros aad pdu key env Hin. destruct (Hev _ Hin) as ([Hd Hq] & Ho & g & Hw).
    split_and!; [done|by eapply Hv|]. pose proof (wrap_pdu_total g key pdu aad (Hv _ _ Ho)) as Ht.
    rewrite Hw in Ht. by apply Ht.
  - intros Hmode. pose proof (run_data (siem gw) gw actions Hs n tr s Hr) as Hdt.
    destruct (run_side (siem gw) gw actions on_ingress accepted_of n tr s) as [_ Hacc];
      [apply ingress_side|done|done|intros; apply omap_app| |done|].
    + intros t Ht. by apply (started_spawns _ _ _ _ Hst Ht).
    + rewrite <-entitled_ingress by done. etrans; [|exact Hdt]. by apply submseteq_inserts_r.
Qed.

Lemma system_ingress_safe_witness :
  let _ := Toy.crypto in let _ := Toy.hkdf in let _ := Toy.frodo in
  let gw := sample_gateway in let s0 := sample_boot "ingress" in
  ∃ n tr s env, run false s0 n tr s ∧ performed tr = [Forward (forward_envelope env)] ∧
    NoDup (to_bytes <$> sealed_aads tr) ∧ wrote tr ⊆+ forward_envelope <$> sealed_envelopes tr.
Proof.
  intros C HK F gw s0. pose (G := default_build). assert gate_open as Hg by reflexivity.
  assert (last_sent SequenceCounter_new (ModbusTcp, 9) = 0) as Hz by reflexivity.
  destruct (ingress_pdu_Ok (MkGateway (key_store sample_gateway) false) Hg ModbusTcp 9 [x09; x03]
    SequenceCounter_new session_key) as (env & c' & Hin & _);
    [reflexivity|apply sample_key_valid|simpl; lia|unfold fits; lia|lia|].
  destruct (ingress_frame_alone false G (key_store sample_gateway) ModbusTcp
    (Modbus.reconstruct (Modbus.MkMbap 1 2 9) [x09; x03]) SequenceCounter_new
    [Forward (forward_envelope env)] c' None) as (evs & b & Hu & Hp & _);
    [cbn; lia|rewrite ingress_frame_eq; exact Hin|].
  edestruct (run_undisturbed false s0 6 [] (MRun [] 0)
    (Accepting <$> start_ot_listeners (side_config "ingress")) [Ingress ModbusTcp IRead; Ingress ModbusTcp IRead] 0)
    as [n Hr]; [done|reflexivity|exact Hu|exact (proj1 opening_runs)|].
  eexists n, _, _, env. split; [exact Hr|]. split; [exact Hp|].
  destruct (system_ingress_safe _ gw _ _ _ _ (sample_started "ingress") Hr) as (_ & _ & Hn & _ & Hw).
  split; [exact Hn|exact (Hw eq_refl)].
Defined.

(** C11: the gateway survives its inputs. In any run of fewer than [2^64] steps the
    counters' lock is never poisoned and no handler panics, except the handler of a
    DNP3 connection that read a frame the parser panics on, and any such frame does
    end its handler; the key store answers with the key installed last. *)
Theorem system_survives `{Crypto} `{Hkdf} `{Frodo} c gw actions n tr s :
  started c gw actions → run (siem gw) (boot gw actions) n tr s → Z.of_nat n < 2 ^ 64 →
  send_poisoned (state s) = false ∧
  (∀ p x, Died p x ∈ handlers s →
     p = Dnp3 ∧ ∃ frame, (length frame ≤ 4096)%nat ∧ Dnp3.extract_payload frame = Panic x) ∧
  (∀ frame x, (0 < length frame ≤ 4096)%nat → Dnp3.extract_payload frame = Panic x →
     handler_step (siem gw) (Ingress Dnp3 IRead) (state s) [] (Died Dnp3 x) (state s)) ∧
  (∀ st, key_store gw = SessionStore st → ∀ d,
     load (keys (state s)) d
     = match last (installed_keys tr) with Some key => Ok key | None => Err (NoSessionKey d) end).
Proof.
  intros Hst Hr Hn. pose proof (started_store_ok _ _ _ Hst) as Hs.
  destruct (run_survives (siem gw) gw actions Hs n tr s Hr Hn) as [Hp Hh]. split_and!; [done| | |].
  - intros p x Hin. rewrite Forall_forall in Hh. exact (Hh _ Hin).
  - intros frame x Hlen Hx.
    replace (Died Dnp3 x) with (ingress_received (siem gw) Dnp3 frame (state s)); [by apply ingress_read|].
    unfold ingress_received, ingress_parse. by rewrite Hx.
  - intros st Heq d. rewrite (run_store _ _ _ _ _ _ Hr). destruct Hst as (post & file & bind & Hm & _).
    apply main_Ok in Hm as (_ & c' & _ & [(_ & -> & _)|(_ & raw & fs & _ & _ & Hks & _)]); [|by rewrite Hks in Heq].
    rewrite rekeyed_load. assert (established (Ok <$> installed_keys tr) = installed_keys tr) as ->; [|done].
    induction (installed_keys tr) as [|key l IH]; [done|]. exact (f_equal (cons key) IH).
Qed.

(** A DNP3 frame whose length field is below its minimum, with a correct checksum. *)
Definition short_dnp3 : list byte := [x05; x64; x00; x00; x00; x00; x00; x00; xff; xff].

Lemma system_survives_witness :
  let _ := Toy.crypto in let _ := Toy.hkdf in let _ := Toy.frodo in
  let gw := sample_gateway in let s0 := sample_boot "ingress" in
  ∃ tr s, run false s0 8 tr s ∧ Died Dnp3 PanicBounds ∈ handlers s ∧ send_poisoned (state s) = false.
Proof.
  intros C HK F gw s0.
  assert (match exec_all false (opening ++ [CAccept 1; CRead 2 short_dnp3]) s0 with
    | Some (_, s) => handlers s !! 2%nat = Some (Died Dnp3 PanicBounds) | None => False end) as Hd by (vm_compute; reflexivity).
  destruct (exec_all false (opening ++ [CAccept 1; CRead 2 short_dnp3]) s0) as [[tr s]|] eqn:He; [|destruct Hd].
  pose proof (exec_run false s0 _ 0 [] s0 _ _ (run_start false s0) He) as Hr.
  exists tr, s. split; [exact Hr|].
  destruct (system_survives _ gw _ _ _ _ (sample_started "ingress") Hr) as (Hp & _); [simpl; lia|].
  split; [exact (list_elem_of_lookup_2 _ _ _ Hd)|exact Hp].
Defined.

(** How far a handler is from its next read: at most six steps of its own, whatever the
    rest of the gateway does in between. This bounds the work done for one frame. It is not
    a statement about blocking: in the model a step that takes a lock also releases it, as
    every guard of the source is dropped before the next await, and a send either succeeds
    or fails, so that a step is always enabled is part of the model. *)
Theorem handler_returns `{Crypto} `{Hkdf} `{Frodo} c gw actions n tr s i h :
  started c gw actions → run (siem gw) (boot gw actions) n tr s → main_at s ≠ MExit →
  handlers s !! i = Some h →
  (rank h ≤ 6)%nat ∧
  (¬ waiting h → ∃ evs h' sh',
     step (siem gw) s evs (MkSystem (main_at s) (jobs s) (<[i := h']> (handlers s)) sh') ∧ (rank h' < rank h)%nat) ∧
  (¬ waiting h → ∀ evs s', step (siem gw) s evs s' →
     ∃ h', handlers s' !! i = Some h' ∧ (h' = h ∨ (rank h' < rank h)%nat)).
Proof.
  intros Hst Hr Hm Hi. split_and!.
  - apply short_rank.
    destruct (run_side (siem gw) gw actions short (λ _, @nil unit) n tr s) as [[_ _ Hs] _]; try done.
    + intros h0 sh evs h' sh' Hh Hs. split; [by eapply short_step|done].
    + intros t _ h0 Hh. destruct t; by simplify_eq/=.
    + by eapply Forall_lookup_1.
  - intros Hw. destruct (handler_moves (siem gw) h (state s) Hw) as (evs & h' & sh' & Hs).
    exists evs, h', sh'. split; [|by eapply handler_rank]. destruct s as [m js hs sh]. by eapply step_handler.
  - intros Hw evs s' Hs. apply step_cases in Hs as [(j & h0 & h' & Hj & Hs & -> & _)|(fresh & -> & _)].
    + destruct (decide (i = j)) as [->|Hne].
      * exists h'. split; [apply list_lookup_insert_eq; by eapply lookup_lt_Some|right].
        simplify_eq. by eapply handler_rank.
      * exists h. split; [by rewrite list_lookup_insert_ne|by left].
    + exists h. split; [by apply lookup_app_l_Some|by left].
Qed.

Lemma handler_returns_witness :
  let _ := Toy.crypto in let _ := Toy.hkdf in let _ := Toy.frodo in
  let gw := sample_gateway in let s0 := sample_boot "ingress" in
  let frame := Modbus.reconstruct (Modbus.MkMbap 1 2 9) [x09; x03] in
  ∃ tr s, run false s0 7 tr s ∧ handlers s !! 0%nat = Some (Ingress ModbusTcp (ISeq 9 [x09; x03])) ∧
    ∃ evs s', step false s evs s'.
Proof.
  intros C HK F gw s0 frame.
  assert (match exec_all false (opening ++ [CRead 0 frame]) s0 with
    | Some (_, s) => handlers s !! 0%nat = Some (Ingress ModbusTcp (ISeq 9 [x09; x03])) ∧ main_at s = MRun [] 0
    | None => False end) as Hd by (vm_compute; split; reflexivity).
  destruct (exec_all false (opening ++ [CRead 0 frame]) s0) as [[tr s]|] eqn:He; [|destruct Hd].
  destruct Hd as [Hh Hm].
  pose proof (exec_run false s0 _ 0 [] s0 _ _ (run_start false s0) He) as Hr.
  exists tr, s. split; [exact Hr|]. split; [exact Hh|].
  destruct (handler_returns _ gw _ _ _ _ 0%nat (Ingress ModbusTcp (ISeq 9 [x09; x03])) (sample_started "ingress") Hr) as (_ & Hstep & _);
    [rewrite Hm; discriminate|exact Hh|].
  destruct Hstep as (evs & h' & sh' & Hs & _); [intros []|]. exists evs. eexists. exact Hs.
Defined.

(** The two models of the handlers agree: the functions [Gateway.handle_ingress_modbus],
    [Gateway.handle_ingress_dnp3] and [Gateway.handle_egress] are what the steps of
    an undisturbed handler of [System] amount to when its sends succeed: from the first read to
    the end of the connection or a panic, with the same effects in the same order
    and the same counters. *)
Theorem handler_runs_alone `{Crypto} `{Gate} siem_on ks p c :
  let st := MkGateway ks siem_on in
  (∀ reads log c' r, Forall (λ frame, (0 < length frame ≤ 4096)%nat) reads →
     match p with ModbusTcp => handle_ingress_modbus | Dnp3 => handle_ingress_dnp3 end st reads c = (log, c', r) →
     ∃ evs b, undisturbed siem_on (Ingress p IRead) (MkShared ks c false) evs (after Closed p r) (MkShared ks c' b) ∧
       performed evs = log) ∧
  (∀ input log c' r, Z.of_nat (length input) < 2 ^ 60 → handle_egress st p input c = (log, c', r) →
     ∃ evs, undisturbed siem_on (Egress p EHeader) (MkShared ks c false) evs (after Closed p r) (MkShared ks c' false) ∧
       performed evs = log).
Proof.
  intros st. split.
  - intros reads log c' r Hl Hm. apply (ingress_reads_alone siem_on _ ks p reads c log c' r Hl). by destruct p.
  - intros input log c' r Hin Hm. by eapply handle_egress_alone.
Qed.
