(* ===== verification/Report.v ===== *)
(** * What the gateway reports ([bin/ls_gateway.rs], [Display] texts)

    The CEF line of a SIEM event, byte for byte, and the datagram that carries it;
    the texts of the framing and self-test errors. A peer address is text the
    runtime prints; the SIEM address is resolved by the runtime. *)
From Stdlib Require Import ZArith Lia Strings.Byte Strings.String.
From stdpp Require Import base tactics option numbers countable gmap list.
From S2P Require Import Prelude Machine Errors Crates Post.
From S2P Require Modbus Dnp3.
From S2P Require Import OtFrame Gateway KatVectors.

#[local] Open Scope Z_scope.

(** ** Numbers *)

(** The digits of [v] in a base, most significant first; [fuel] digits at most. *)
Fixpoint digits (base : Z) (fuel : nat) (v : Z) : list Z :=
  match fuel with
  | O => []
  | S fuel' => if v <? base then [v] else digits base fuel' (v / base) ++ [v mod base]
  end.

(** [{}] and [{:x}] of a [u64]: 20 and 16 digits at most. *)
Definition display (v : Z) : list Z := hex_char <$> digits 10 20 v.
Definition lower_hex (v : Z) : list Z := hex_char <$> digits 16 16 v.

(** [{:02x}] and [{:04x}]. *)
Definition padded_hex (width : nat) (v : Z) : list Z :=
  replicate (width - length (lower_hex v)) 48 ++ lower_hex v.

(** ** Texts of the errors *)

Definition as_str (p : ProtocolId) : list Z :=
  match p with ModbusTcp => str "MODBUS" | Dnp3 => str "DNP3" end.

Definition display_modbus_error (e : Modbus.ModbusError) : list Z :=
  match e with
  | Modbus.TooShort have need => str "Modbus frame too short: have " ++ display have ++ str " need " ++ display need
  | Modbus.BadProtocolId pid => str "Modbus protocol_id must be 0x0000, got 0x" ++ padded_hex 4 pid
  | Modbus.LengthMismatch declared available =>
      str "Modbus length mismatch: declared " ++ display declared ++ str " available " ++ display available
  end.

Definition display_dnp_error (e : Dnp3.DnpError) : list Z :=
  match e with
  | Dnp3.DnpTooShort have need => str "DNP3 frame too short: have " ++ display have ++ str " need " ++ display need
  | Dnp3.BadStartBytes b => str "DNP3 bad start bytes: " ++ concat (padded_hex 2 ∘ byte_to_Z <$> b)
  | Dnp3.HeaderCrcMismatch expected got =>
      str "DNP3 header CRC mismatch: expected 0x" ++ padded_hex 4 expected ++ str " got 0x" ++ padded_hex 4 got
  | Dnp3.InsufficientPayload declared available =>
      str "DNP3 payload mismatch: declared " ++ display declared ++ str " available " ++ display available
  end.

(** The last literal is the message inside [InternalError]. *)
Definition display_self_test_error (e : SelfTestError) : list Z :=
  match e with
  | KatEncryptMismatch => str "KAT-1 FAIL: v7 encrypt output mismatch"
  | KatDecryptMismatch => str "KAT-2 FAIL: v7 decrypt output mismatch"
  | KatTamperNotRejected => str "KAT-3 FAIL: v7 tampered ciphertext was not rejected"
  | KatV8EncryptFailed => str "KAT-4 FAIL: v8 encrypt round-trip failed"
  | KatV8DecryptFailed => str "KAT-5 FAIL: v8 decrypt round-trip failed"
  | KatV8StructuralAccept => str "KAT-6 FAIL: v8 structural-reject accepted malformed ciphertext"
  | KatV8TamperNotRejected => str "KAT-7 FAIL: v8 tampered ciphertext was not rejected"
  | KatKemFailed => str "KAT-8 FAIL: KEM derivation or pairwise-consistency test failed"
  | KatStreamFailed => str "KAT-9..11 FAIL: v8 streaming known-answer test failed"
  | BuildProvenanceMismatch => str "INT-1 FAIL: build-provenance check mismatch"
  | IntegrityCheckFailed => str "INT-2 FAIL: software integrity check failed"
  | ModuleNotOperational => str "module not operational: power-on self-tests have not passed"
  | InternalError message => str "SELF-TEST INTERNAL ERROR: " ++
      match message with
      | OddHexLength => str "hex string has odd length"
      | InvalidHexDigit => str "invalid hex digit"
      | FaultInjected => str "fault injected"
      end
  end.

Definition display_envelope_defect (d : envelope_defect) : list Z :=
  match d with
  | BufferTooShort have need => str "buffer too short: " ++ display have ++ str " < " ++ display need
  | BadMagic b => str "bad magic: " ++ concat (padded_hex 2 ∘ byte_to_Z <$> b)
  | UnknownProtocol v => str "unknown protocol_id 0x" ++ padded_hex 2 (byte_to_Z v)
  | TruncatedBlob have want => str "truncated blob: have " ++ display have ++ str " want " ++ display want
  end.

(** [message] is the text of an error of the crate root. *)
Definition display_frame_error (message : error → list Z) (e : FrameError) : list Z :=
  match e with
  | FrameAuthenticationFailed d p sq =>
      str "AUTH_FAIL device_id=0x" ++ lower_hex d ++ str " proto=" ++ as_str p ++ str " seq=" ++ display sq
  | ReplayDetected d p sq last =>
      str "REPLAY device_id=0x" ++ lower_hex d ++ str " proto=" ++ as_str p ++ str " seq=" ++ display sq
      ++ str " last_seen=" ++ display last
  | MalformedEnvelope d => str "MALFORMED_ENVELOPE " ++ display_envelope_defect d
  | CryptoError e => str "CRYPTO_ERROR " ++ message e
  end.

(** ** SIEM events *)

Definition event_id (e : siem_event) : list Z :=
  match e with
  | PARSE_ERR => str "PARSE_ERR"
  | KEY_MISSING _ => str "KEY_MISSING"
  | AUTH_FAIL _ _ => str "AUTH_FAIL"
  end.

(** The extension text the handlers of a protocol format for a peer. *)
Definition extension (p : ProtocolId) (peer : list Z) (e : siem_event) : list Z :=
  match e with
  | PARSE_ERR => str "proto=" ++ as_str p ++ str " src=" ++ peer
  | KEY_MISSING d => str "proto=" ++ as_str p ++ str " deviceId=0x" ++ lower_hex d ++ str " src=" ++ peer
  | AUTH_FAIL d sq => str "proto=" ++ as_str p ++ str " deviceId=0x" ++ lower_hex d
      ++ str " seq=" ++ display sq ++ str " src=" ++ peer
  end.

(** [now] is the time since the epoch in seconds, absent before the epoch. *)
Definition cef_timestamp (now : option Z) : Z := default 0 now.

(** [event_id.replace('_', " ")]. *)
Definition spaced (s : list Z) : list Z := (λ c, if c =? 95 then 32 else c) <$> s.

Definition cef_line (id : list Z) (severity : Z) (ext : list Z) (now : option Z) : list Z :=
  str "CEF:0|EPINeon|LegacyShieldGateway|1.0|" ++ id ++ str "|" ++ spaced id ++ str "|" ++ display severity
  ++ str "|rt=" ++ display (cef_timestamp now) ++ str " " ++ ext ++ [10].

Section siem.
Context {addr : Type}.

(** [parse_addr] is [str::parse::<SocketAddr>], [lookup] the resolver's answers, or
    its failure: the datagram, if the address is known. *)
Definition emit_cef_event (parse_addr : list Z → option addr) (lookup : list Z → option (list addr))
    (siem_addr id : list Z) (severity : Z) (ext : list Z) (now : option Z) : option (addr * list byte) :=
  let msg := cef_line id severity ext now in
  let addr_opt :=
    match parse_addr siem_addr with
    | Some a => Some a
    | None => lookup siem_addr ≫= head
    end in
  a ← addr_opt; Some (a, as_bytes msg).

(** What the effect [Siem e severity] of a handler puts on the network. *)
Definition siem_datagram (parse_addr : list Z → option addr) (lookup : list Z → option (list addr))
    (siem_addr : list Z) (p : ProtocolId) (peer : list Z) (e : siem_event) (severity : Z) (now : option Z)
    : option (addr * list byte) :=
  emit_cef_event parse_addr lookup siem_addr (event_id e) severity (extension p peer e) now.
End siem.

(** ** Reading a line back

    What a SIEM does with a line: the header is split at bars, the extension at
    spaces, a field is a key, an equals sign and a value. *)

Fixpoint split_on (c : Z) (l : list Z) : list (list Z) :=
  match l with
  | [] => [[]]
  | x :: l' =>
      if x =? c then [] :: split_on c l'
      else match split_on c l' with
           | field :: fields => (x :: field) :: fields
           | [] => [[x]]
           end
  end.

Fixpoint strip (prefix l : list Z) : option (list Z) :=
  match prefix, l with
  | [], _ => Some l
  | x :: prefix', y :: l' => if x =? y then strip prefix' l' else None
  | _ :: _, [] => None
  end.

Definition parse_hex_step (acc : option Z) (c : Z) : option Z := v ← acc; d ← hex_digit c; Some (v * 16 + d).
Definition parse_hex (s : list Z) : option Z := foldl parse_hex_step (Some 0) s.

Definition parse_protocol (s : list Z) : option ProtocolId :=
  if bool_decide (s = str "MODBUS") then Some ModbusTcp
  else if bool_decide (s = str "DNP3") then Some Dnp3 else None.

Record report := MkReport {
  r_protocol : ProtocolId; r_event : siem_event; r_severity : Z; r_time : Z; r_peer : list Z }.

Definition parse_fields (id : list Z) (fields : list (list Z)) : option (siem_event * list Z) :=
  match fields with
  | [src] =>
      if bool_decide (id = event_id PARSE_ERR) then peer ← strip (str "src=") src; Some (PARSE_ERR, peer) else None
  | [dev; src] =>
      if bool_decide (id = event_id (KEY_MISSING 0)) then
        d ← strip (str "deviceId=0x") dev ≫= parse_hex; peer ← strip (str "src=") src; Some (KEY_MISSING d, peer)
      else None
  | [dev; sq; src] =>
      if bool_decide (id = event_id (AUTH_FAIL 0 0)) then
        d ← strip (str "deviceId=0x") dev ≫= parse_hex; n ← strip (str "seq=") sq ≫= parse_u64;
        peer ← strip (str "src=") src; Some (AUTH_FAIL d n, peer)
      else None
  | _ => None
  end.

Definition parse_report (line : list Z) : option report :=
  match split_on 124 line with
  | [version; vendor; product; release; id; name; severity; ext] =>
      if bool_decide (version = str "CEF:0" ∧ name = spaced id ∧ last ext = Some 10) then
        sev ← parse_u64 severity;
        match split_on 32 (removelast ext) with
        | rt :: proto :: fields =>
            time ← strip (str "rt=") rt ≫= parse_u64;
            p ← strip (str "proto=") proto ≫= parse_protocol;
            '(e, peer) ← parse_fields id fields;
            Some (MkReport p e sev time peer)
        | _ => None
        end
      else None
  | _ => None
  end.

(** ** Lemmas *)

Lemma digits_value base fuel v :
  2 ≤ base → 0 ≤ v < base ^ Z.of_nat fuel → foldl (λ acc d, acc * base + d) 0 (digits base fuel v) = v.
Proof.
  intros Hb. revert v. induction fuel as [|fuel IH]; intros v Hv; cbn [digits].
  - cbn. lia.
  - case_if; [cbn; lia|]. rewrite foldl_snoc. rewrite IH.
    + rewrite (Z.mul_comm _ base). symmetry. apply Z.div_mod. lia.
    + rewrite Nat2Z.inj_succ, Z.pow_succ_r in Hv by lia. split; [apply Z.div_pos; lia|].
      apply Z.div_lt_upper_bound; lia.
Qed.

Lemma digits_range base fuel v : 2 ≤ base → 0 ≤ v → Forall (λ d, 0 ≤ d < base) (digits base fuel v).
Proof.
  intros Hb. revert v. induction fuel as [|fuel IH]; intros v Hv; cbn [digits]; [constructor|].
  case_if; [constructor; [lia|constructor]|]. apply Forall_app_2; [apply IH, Z.div_pos; lia|].
  constructor; [|constructor]. apply Z.mod_pos_bound. lia.
Qed.

Lemma digits_nonempty base fuel v : digits base (S fuel) v ≠ [].
Proof. cbn [digits]. case_if; [done|]. by destruct (digits base fuel (v / base)). Qed.

Lemma fold_digits_le base l a :
  1 ≤ base → 0 ≤ a → Forall (λ d, 0 ≤ d < base) l → a ≤ foldl (λ acc d, acc * base + d) a l.
Proof.
  intros Hb Ha Hl. revert a Ha. induction Hl as [|d l Hd _ IH]; intros a Ha; cbn [foldl]; [lia|].
  transitivity (a * base + d); [nia|]. apply IH. nia.
Qed.

Lemma parse_u64_fold l a :
  Forall (λ d, 0 ≤ d < 10) l → 0 ≤ a → foldl (λ acc d, acc * 10 + d) a l < 2 ^ 64 →
  foldl parse_u64_step (Some a) (hex_char <$> l) = Some (foldl (λ acc d, acc * 10 + d) a l).
Proof.
  intros Hl. revert a. induction Hl as [|d l Hd Hl IH]; intros a Ha Hlt; [done|].
  rewrite fmap_cons. cbn [foldl] in *. rewrite <-IH by lia. f_equal.
  pose proof (fold_digits_le 10 l (a * 10 + d) ltac:(lia) ltac:(lia) Hl).
  unfold parse_u64_step, hex_char. cbn [mbind option_bind]. rewrite (proj2 (Z.ltb_lt d 10)) by lia.
  rewrite (proj2 (Z.leb_le 48 _)), (proj2 (Z.leb_le _ 57)) by lia. cbn [andb].
  replace (48 + d - 48) with d by lia. by rewrite (proj2 (Z.ltb_lt _ _)) by lia.
Qed.

Lemma no_plus (c : Z) l : c ≠ 43 → match c :: l with 43 :: s' => s' | _ => c :: l end = c :: l.
Proof. intros Hc. destruct c as [|q|q]; [done| |done]. do 6 (destruct q as [q|q|]; try done). Qed.

(** Numbers parse back, decimal ones with the source's own parser. *)
Lemma display_parse v : 0 ≤ v < 2 ^ 64 → parse_u64 (display v) = Some v.
Proof.
  intros Hv. pose proof (digits_value 10 20 v ltac:(lia) ltac:(lia)) as Hval.
  pose proof (digits_range 10 20 v ltac:(lia) ltac:(lia)) as Hr.
  pose proof (digits_nonempty 10 19 v) as Hne. unfold parse_u64, display.
  assert (match hex_char <$> digits 10 20 v with 43 :: s' => s' | _ => hex_char <$> digits 10 20 v end
    = hex_char <$> digits 10 20 v) as ->.
  { destruct Hr as [|d l Hd _]; [done|]. rewrite fmap_cons. apply no_plus. unfold hex_char. case_if; lia. }
  rewrite bool_decide_eq_false_2 by (by intros ?%fmap_nil_inv). rewrite parse_u64_fold; [by rewrite Hval|done|lia|lia].
Qed.

Lemma parse_hex_lower v : 0 ≤ v < 2 ^ 64 → parse_hex (lower_hex v) = Some v.
Proof.
  intros Hv. pose proof (digits_value 16 16 v ltac:(lia) ltac:(lia)) as Hval.
  pose proof (digits_range 16 16 v ltac:(lia) ltac:(lia)) as Hr. unfold parse_hex, lower_hex.
  rewrite <-Hval at 2. generalize 0 as a. clear Hval. induction Hr as [|d l Hd _ IH]; intros a; [done|].
  rewrite fmap_cons. cbn [foldl]. rewrite <-IH. f_equal. unfold parse_hex_step. cbn [mbind option_bind].
  by rewrite hex_digit_char.
Qed.

(** Text that neither ends a field nor a line. *)
Definition plain (s : list Z) : Prop := Forall (λ c, 0 ≤ c < 128 ∧ c ≠ 124 ∧ c ≠ 32 ∧ c ≠ 10) s.

#[export] Instance plain_dec s : Decision (plain s).
Proof. unfold plain. apply _. Defined.

Lemma plain_app s1 s2 : plain s1 → plain s2 → plain (s1 ++ s2).
Proof. apply Forall_app_2. Qed.

Lemma hex_char_plain v : 0 ≤ v < 16 → 0 ≤ hex_char v < 128 ∧ hex_char v ≠ 124 ∧ hex_char v ≠ 32 ∧ hex_char v ≠ 10.
Proof. intros Hv. unfold hex_char. case_if; lia. Qed.

Lemma plain_display v : 0 ≤ v → plain (display v).
Proof.
  intros Hv. apply Forall_fmap. eapply Forall_impl; [exact (digits_range 10 20 v ltac:(lia) Hv)|].
  intros d Hd. simpl in *. apply hex_char_plain. lia.
Qed.

Lemma plain_lower_hex v : 0 ≤ v → plain (lower_hex v).
Proof.
  intros Hv. apply Forall_fmap. eapply Forall_impl; [exact (digits_range 16 16 v ltac:(lia) Hv)|].
  intros d Hd. by apply hex_char_plain.
Qed.

Lemma split_on_none c s : Forall (λ x, x ≠ c) s → split_on c s = [s].
Proof.
  induction 1 as [|x s Hx _ IH]; [done|]. cbn [split_on].
  rewrite (proj2 (Z.eqb_neq _ _)) by done. by rewrite IH.
Qed.

Lemma split_on_field c s rest : Forall (λ x, x ≠ c) s → split_on c (s ++ c :: rest) = s :: split_on c rest.
Proof.
  induction 1 as [|x s Hx _ IH]; cbn [split_on app]; [by rewrite Z.eqb_refl|].
  rewrite (proj2 (Z.eqb_neq _ _)) by done. by rewrite IH.
Qed.

Lemma plain_without c s : c = 124 ∨ c = 32 → plain s → Forall (λ x, x ≠ c) s.
Proof. intros Hc Hs. eapply Forall_impl; [exact Hs|]. intros x. simpl. lia. Qed.

Lemma strip_app prefix s : strip prefix (prefix ++ s) = Some s.
Proof. induction prefix as [|x prefix IH]; [done|]. cbn [strip app]. by rewrite Z.eqb_refl. Qed.

Lemma parse_as_str p : parse_protocol (as_str p) = Some p.
Proof. by destruct p. Qed.

Definition event_fits (e : siem_event) : Prop :=
  match e with PARSE_ERR => True | KEY_MISSING d => fits 64 d | AUTH_FAIL d sq => fits 64 d ∧ fits 64 sq end.

Definition event_fields (p : ProtocolId) (peer : list Z) (e : siem_event) : list (list Z) :=
  match e with
  | PARSE_ERR => []
  | KEY_MISSING d => [str "deviceId=0x" ++ lower_hex d]
  | AUTH_FAIL d sq => [str "deviceId=0x" ++ lower_hex d; str "seq=" ++ display sq]
  end ++ [str "src=" ++ peer].

Ltac plain_text :=
  repeat first [apply plain_app | apply plain_display; lia | apply plain_lower_hex; lia | done
               | apply (bool_decide_eq_true_1 _); reflexivity].

Lemma plain_as_str p : plain (as_str p).
Proof. destruct p; plain_text. Qed.

Lemma event_fields_plain p peer e : event_fits e → plain peer → Forall plain (event_fields p peer e).
Proof.
  unfold event_fits, fits. intros He Hp. destruct e as [|d|d sq]; repeat constructor; plain_text.
Qed.

(** The fields of a text, joined by spaces. *)
Fixpoint spaced_fields (fields : list (list Z)) : list Z :=
  match fields with
  | [] => []
  | [f] => f
  | f :: fields' => f ++ 32 :: spaced_fields fields'
  end.

Lemma split_spaced_fields f fields :
  Forall plain (f :: fields) → split_on 32 (spaced_fields (f :: fields)) = f :: fields.
Proof.
  revert f. induction fields as [|f' fields IH]; intros f [Hf Hfs]%Forall_cons.
  - apply split_on_none. apply plain_without; [by right|done].
  - cbn [spaced_fields]. rewrite split_on_field by (apply plain_without; [by right|done]). f_equal. by apply IH.
Qed.

Lemma extension_fields p peer e :
  extension p peer e = spaced_fields ((str "proto=" ++ as_str p) :: event_fields p peer e).
Proof. destruct e; cbn [extension event_fields app spaced_fields]; rewrite <-?app_assoc; reflexivity. Qed.

Lemma parse_event_fields p peer e :
  event_fits e → parse_fields (event_id e) (event_fields p peer e) = Some (e, peer).
Proof.
  unfold event_fits, fits. intros He. destruct e as [|d|d sq]; cbn [event_fields app parse_fields];
    rewrite bool_decide_eq_true_2 by done; rewrite ?strip_app; cbn [mbind option_bind];
    rewrite ?parse_hex_lower by lia; cbn [mbind option_bind]; rewrite ?strip_app; cbn [mbind option_bind];
    rewrite ?display_parse by lia; cbn [mbind option_bind]; by rewrite ?strip_app.
Qed.

(** The last field of the header line. *)
Definition cef_tail (now : option Z) (ext : list Z) : list Z :=
  spaced_fields [str "rt=" ++ display (cef_timestamp now); ext].

Lemma split_cef_line e severity ext now :
  0 ≤ severity → Forall (λ c, c ≠ 124) ext → 0 ≤ cef_timestamp now →
  split_on 124 (cef_line (event_id e) severity ext now)
  = [str "CEF:0"; str "EPINeon"; str "LegacyShieldGateway"; str "1.0"; event_id e; spaced (event_id e);
     display severity; cef_tail now ext ++ [10]].
Proof.
  intros Hs He Ht.
  assert (cef_line (event_id e) severity ext now
    = str "CEF:0" ++ 124 :: str "EPINeon" ++ 124 :: str "LegacyShieldGateway" ++ 124 :: str "1.0" ++ 124 ::
      event_id e ++ 124 :: spaced (event_id e) ++ 124 :: display severity ++ 124 :: cef_tail now ext ++ [10]) as ->.
  { unfold cef_line, cef_tail. cbn [spaced_fields]. rewrite <-!app_assoc. by destruct e. }
  assert (∀ s, plain s → Forall (λ c, c ≠ 124) s) as Hp by (intros s; apply plain_without; by left).
  rewrite !split_on_field by (try (apply Hp, plain_display; lia); destruct e; apply (bool_decide_eq_true_1 _); reflexivity).
  rewrite split_on_none; [done|]. unfold cef_tail. cbn [spaced_fields].
  apply Forall_app_2; [apply Forall_app_2; [apply Hp; plain_text|by constructor]|by repeat constructor].
Qed.

(** Text of one line, without bars. *)
Definition texty (s : list Z) : Prop := Forall (λ c, 0 ≤ c < 128 ∧ c ≠ 124 ∧ c ≠ 10) s.

Lemma plain_texty s : plain s → texty s.
Proof. intros Hs. eapply Forall_impl; [exact Hs|]. intros c. simpl. tauto. Qed.

Lemma spaced_fields_texty fields : Forall plain fields → texty (spaced_fields fields).
Proof.
  induction 1 as [|f fields Hf Hfs IH]; [constructor|]. cbn [spaced_fields].
  destruct fields; [by apply plain_texty|]. apply Forall_app_2; [by apply plain_texty|].
  constructor; [lia|exact IH].
Qed.

Lemma proto_field_plain p : plain (str "proto=" ++ as_str p).
Proof. apply plain_app; [plain_text|apply plain_as_str]. Qed.

Lemma extension_texty p peer e : event_fits e → plain peer → texty (extension p peer e).
Proof.
  intros He Hp. rewrite extension_fields. apply spaced_fields_texty.
  constructor; [apply proto_field_plain|by apply event_fields_plain].
Qed.

Lemma cef_line_texty e severity ext now :
  texty ext → 0 ≤ severity → 0 ≤ cef_timestamp now →
  ∃ body, cef_line (event_id e) severity ext now = body ++ [10] ∧ Forall (λ c, 0 ≤ c < 128 ∧ c ≠ 10) body.
Proof.
  intros He Hs Ht. exists (str "CEF:0|EPINeon|LegacyShieldGateway|1.0|" ++ event_id e ++ str "|" ++ spaced (event_id e)
    ++ str "|" ++ display severity ++ str "|rt=" ++ display (cef_timestamp now) ++ str " " ++ ext).
  split; [unfold cef_line; by rewrite <-!app_assoc|].
  assert (∀ s, texty s → Forall (λ c, 0 ≤ c < 128 ∧ c ≠ 10) s) as Hw.
  { intros s Hx. eapply Forall_impl; [exact Hx|]. intros c. simpl. tauto. }
  repeat apply Forall_app_2; first [by apply Hw | apply Hw, plain_texty, plain_display; lia
    | destruct e; apply (bool_decide_eq_true_1 _); reflexivity].
Qed.

Lemma as_bytes_map s : Forall (λ c, 0 ≤ c < 128) s → as_bytes s = byte_of_Z <$> s.
Proof.
  unfold as_bytes. induction 1 as [|c s Hc _ IH]; [done|]. rewrite !fmap_cons. cbn [concat].
  by rewrite utf8_char_ascii, IH.
Qed.

Lemma parse_cef_line p peer e severity now :
  event_fits e → plain peer → 0 ≤ severity < 2 ^ 64 → 0 ≤ cef_timestamp now < 2 ^ 64 →
  parse_report (cef_line (event_id e) severity (extension p peer e) now)
  = Some (MkReport p e severity (cef_timestamp now) peer).
Proof.
  intros He Hp Hs Ht. unfold parse_report. rewrite split_cef_line; [|lia| |lia].
  2: { eapply Forall_impl; [exact (extension_texty p peer e He Hp)|]. simpl. tauto. }
  rewrite bool_decide_eq_true_2 by (split_and!; [done|done|apply last_snoc]).
  rewrite display_parse by done. cbn [mbind option_bind]. rewrite removelast_last. unfold cef_tail.
  rewrite extension_fields.
  change (spaced_fields [?rt; spaced_fields (?f :: ?fs)]) with (spaced_fields (rt :: f :: fs)).
  rewrite split_spaced_fields.
  2: { constructor; [plain_text|]. constructor; [apply proto_field_plain|by apply event_fields_plain]. }
  rewrite !strip_app. cbn [mbind option_bind]. rewrite display_parse by done. cbn [mbind option_bind].
  rewrite parse_as_str. cbn [mbind option_bind]. by rewrite parse_event_fields.
Qed.

(** ** Properties *)

(** C25: a SIEM line says what happened and nothing else: for every event a handler
    can raise, its severity, time and peer, the line parses back to exactly these,
    device and sequence number included; it is ASCII and one line, and the datagram
    carries these bytes whenever the SIEM address is a literal or resolves. *)
Theorem siem_report_roundtrip {addr} (parse_addr : list Z → option addr) lookup siem_addr p peer e severity now :
  event_fits e → plain peer → fits 64 severity → fits 64 (cef_timestamp now) →
  let line := cef_line (event_id e) severity (extension p peer e) now in
  parse_report line = Some (MkReport p e severity (cef_timestamp now) peer) ∧
  Forall (λ c, 0 ≤ c < 128) line ∧
  (∃ body, line = body ++ [10] ∧ Forall (λ c, c ≠ 10) body) ∧
  siem_datagram parse_addr lookup siem_addr p peer e severity now
  = (λ a, (a, byte_of_Z <$> line)) <$>
    match parse_addr siem_addr with Some a => Some a | None => lookup siem_addr ≫= head end.
Proof.
  intros He Hp Hs Ht line. unfold fits in *.
  pose proof (extension_texty p peer e He Hp) as Hext.
  destruct (cef_line_texty e severity _ now Hext ltac:(lia) ltac:(lia)) as (body & Hline & Hbody). fold line in Hline.
  assert (Forall (λ c, 0 ≤ c < 128) line) as Hascii.
  { rewrite Hline. apply Forall_app_2; [|constructor; [lia|constructor]]. eapply Forall_impl; [exact Hbody|]. simpl. lia. }
  split_and!.
  - by apply parse_cef_line.
  - exact Hascii.
  - exists body. split; [done|]. eapply Forall_impl; [exact Hbody|]. simpl. lia.
  - unfold siem_datagram, emit_cef_event. fold line. rewrite (as_bytes_map line Hascii). by destruct (parse_addr siem_addr), (lookup siem_addr).
Qed.

Lemma siem_report_roundtrip_witness :
  parse_report (cef_line (str "AUTH_FAIL") 7 (extension ModbusTcp (str "10.0.0.7:50212") (AUTH_FAIL 255 12)) (Some 1700000000))
  = Some (MkReport ModbusTcp (AUTH_FAIL 255 12) 7 1700000000 (str "10.0.0.7:50212")).
Proof.
  apply (siem_report_roundtrip (addr:=unit) (λ _, None) (λ _, None) [] ModbusTcp (str "10.0.0.7:50212") (AUTH_FAIL 255 12) 7
    (Some 1700000000)); [unfold event_fits, fits; lia|plain_text|unfold fits; lia|unfold fits; cbn; lia].
Defined.
