(* ===== verification/StsLinear.v ===== *)
(** * Linear algebra over GF(2) of the statistical tests ([bin/sts.rs])

    [berlekamp_massey], the linear complexity of a bit block, and [gf2_rank32],
    the rank of a 32 by 32 bit matrix. Bits are the bytes 0 and 1, as in the
    source; indices are [usize]. *)
From Stdlib Require Import ZArith Lia.
From stdpp Require Import base tactics option numbers relations list.
From S2P Require Import Prelude Machine.

#[local] Open Scope Z_scope.

(** ** Berlekamp-Massey *)

Inductive no_error := .

(** The loop [for i in 1..=l { d ^= c[i] & s[nn - i]; }]: [todo] rounds from [i]. *)
Fixpoint bm_discrepancy (c s : list Z) (nn i todo : nat) (d : Z) : outcome no_error Z :=
  match todo with
  | O => Ok d
  | S todo =>
      if bool_decide (nn < i)%nat then Panic PanicOverflow
      else
        ci ← expect PanicBounds (c !! i);
        si ← expect PanicBounds (s !! (nn - i)%nat);
        bm_discrepancy c s nn (S i) todo (Z.lxor d (Z.land ci si))
  end.

(** The loop [for j in 0..=end { c[j + m] ^= b[j]; }]: [todo] rounds from [j]. *)
Fixpoint bm_add (b : list Z) (m j todo : nat) (c : list Z) : outcome no_error (list Z) :=
  match todo with
  | O => Ok c
  | S todo =>
      bj ← expect PanicBounds (b !! j);
      cj ← expect PanicBounds (c !! (j + m)%nat);
      bm_add b m (S j) todo (<[(j + m)%nat := Z.lxor cj bj]> c)
  end.

Record bm_state := BmState { bm_c : list Z; bm_b : list Z; bm_l : nat; bm_m : nat }.

Definition bm_step (s : list Z) (nn : nat) (st : bm_state) : outcome no_error bm_state :=
  let '(BmState c b l m) := st in
  s0 ← expect PanicBounds (s !! nn);
  d ← bm_discrepancy c s nn 1 l s0;
  if d =? 0 then Ok (BmState c b l (S m))
  else
    _ ← (if bool_decide (nn + 1 < m)%nat then Panic PanicOverflow else Ok tt);
    let last := (nn + 1 - m)%nat in
    c' ← bm_add b m 0 (S last) c;
    if bool_decide (2 * l ≤ nn)%nat then Ok (BmState c' c (nn + 1 - l) 1)
    else Ok (BmState c' b l (S m)).

Fixpoint bm_loop (s : list Z) (nn todo : nat) (st : bm_state) : outcome no_error bm_state :=
  match todo with
  | O => Ok st
  | S todo => st' ← bm_step s nn st; bm_loop s (S nn) todo st'
  end.

Definition berlekamp_massey (s : list Z) : outcome no_error nat :=
  let n := length s in
  let one := 1 :: replicate n 0 in
  bm_l <$> bm_loop s 0 n (BmState one one 0 1).

(** ** Rank *)

(** [mat.swap(i, j)]. *)
Definition swap_rows (i j : nat) (mat : list Z) : list Z :=
  match mat !! i, mat !! j with
  | Some a, Some b => <[j := a]> (<[i := b]> mat)
  | _, _ => mat
  end.

(** The inner loop: row [rank] is not changed by it, so all rounds add the same row. *)
Definition eliminate (col rank : nat) (mat : list Z) : list Z :=
  let pivot_row := default 0 (mat !! rank) in
  imap (λ r row, if negb (bool_decide (r = rank)) && Z.testbit row (Z.of_nat col)
                 then Z.lxor row pivot_row else row) mat.

Definition gf2_step (st : list Z * nat) (col : nat) : list Z * nat :=
  let '(mat, rank) := st in
  match list_find (λ r, Z.testbit (default 0 (mat !! r)) (Z.of_nat col) = true) (seq rank (32 - rank)) with
  | Some (_, p) => (eliminate col rank (swap_rows rank p mat), S rank)
  | None => (mat, rank)
  end.

Definition gf2_rank32 (mat : list Z) : nat := (foldl gf2_step (mat, 0%nat) (seq 0 32)).2.

(** ** Exclusive sums *)

(** [f 0 + .. + f (n - 1)] over GF(2), bit by bit. *)
Fixpoint xsum (f : nat → Z) (n : nat) : Z :=
  match n with O => 0 | S n => Z.lxor (xsum f n) (f n) end.

Lemma xsum_ext f g n : (∀ i, (i < n)%nat → f i = g i) → xsum f n = xsum g n.
Proof. induction n as [|n IH]; intros Hfg; [done|]. cbn. rewrite IH, Hfg; auto with lia. Qed.

Lemma xsum_zero f n : (∀ i, (i < n)%nat → f i = 0) → xsum f n = 0.
Proof. induction n as [|n IH]; intros Hf; [done|]. cbn. rewrite IH, Hf; auto with lia. Qed.

Lemma land_lxor a b c : Z.land a (Z.lxor b c) = Z.lxor (Z.land a b) (Z.land a c).
Proof.
  apply Z.bits_inj'. intros n _. rewrite ?Z.lxor_spec, ?Z.land_spec, ?Z.lxor_spec.
  by destruct (Z.testbit a n), (Z.testbit b n), (Z.testbit c n).
Qed.

Lemma land_xsum a f n : Z.land a (xsum f n) = xsum (λ i, Z.land a (f i)) n.
Proof. induction n as [|n IH]; [apply Z.land_0_r|]. cbn. by rewrite land_lxor, IH. Qed.

Lemma lxor_interchange a b c d : Z.lxor (Z.lxor a b) (Z.lxor c d) = Z.lxor (Z.lxor a c) (Z.lxor b d).
Proof.
  rewrite <-!Z.lxor_assoc. f_equal. rewrite !Z.lxor_assoc. f_equal. apply Z.lxor_comm.
Qed.

Lemma xsum_lxor f g n : xsum (λ i, Z.lxor (f i) (g i)) n = Z.lxor (xsum f n) (xsum g n).
Proof. induction n as [|n IH]; [done|]. cbn. by rewrite IH, lxor_interchange. Qed.

Lemma xsum_swap f n m : xsum (λ i, xsum (f i) m) n = xsum (λ j, xsum (λ i, f i j) n) m.
Proof.
  induction n as [|n IH]; cbn; [by rewrite xsum_zero|]. by rewrite IH, xsum_lxor.
Qed.

Lemma xsum_first f n : xsum f (S n) = Z.lxor (f 0%nat) (xsum (λ i, f (S i)) n).
Proof.
  induction n as [|n IH]; [cbn; by rewrite Z.lxor_0_r|].
  change (xsum f (S (S n))) with (Z.lxor (xsum f (S n)) (f (S n))). rewrite IH. cbn. by rewrite Z.lxor_assoc.
Qed.

Lemma xsum_more f n k : (∀ i, (n ≤ i < n + k)%nat → f i = 0) → xsum f (n + k) = xsum f n.
Proof.
  induction k as [|k IH]; intros Hf; [by rewrite Nat.add_0_r|]. rewrite Nat.add_succ_r. cbn.
  rewrite IH, Hf by auto with lia. apply Z.lxor_0_r.
Qed.

Lemma xsum_shift f m n : xsum (λ i, if bool_decide (m ≤ i)%nat then f (i - m)%nat else 0) (m + n) = xsum f n.
Proof.
  induction n as [|n IH].
  - rewrite Nat.add_0_r. apply xsum_zero. intros i Hi. by rewrite bool_decide_eq_false_2 by lia.
  - rewrite Nat.add_succ_r. cbn. rewrite IH, bool_decide_eq_true_2 by lia. do 2 f_equal. lia.
Qed.

Lemma xsum_bit f n : (∀ i, f i = 0 ∨ f i = 1) → xsum f n = 0 ∨ xsum f n = 1.
Proof.
  intros Hf. induction n as [|n [IH|IH]]; [by left|..]; cbn; rewrite IH;
    destruct (Hf n) as [-> | ->]; cbn; auto.
Qed.

(** ** What a linear complexity is *)

Definition bit (z : Z) : Prop := z = 0 ∨ z = 1.

Definition at_ (l : list Z) (k : nat) : Z := default 0 (l !! k).

(** The feedback register with taps [c] produces every bit of [s] after the first
    [length c] ones: bit [k] is the sum of the [c_i] times bit [k - 1 - i]. *)
Definition lfsr (c s : list Z) : Prop :=
  ∀ k, (length c ≤ k < length s)%nat →
    at_ s k = xsum (λ i, Z.land (at_ c i) (at_ s (k - 1 - i)%nat)) (length c).

Definition linear_complexity (s : list Z) (l : nat) : Prop :=
  (∃ c, length c = l ∧ Forall bit c ∧ lfsr c s) ∧ ∀ c, lfsr c s → (l ≤ length c)%nat.

(** The connection polynomial [c] of degree at most [l] applied to [s] at [k]. *)
Definition conv (c : nat → Z) (l : nat) (s : nat → Z) (k : nat) : Z :=
  xsum (λ i, Z.land (c i) (s (k - i)%nat)) (S l).

Definition generates (c : nat → Z) (l : nat) (s : nat → Z) (n : nat) : Prop :=
  c 0%nat = 1 ∧ ∀ k, (l ≤ k < n)%nat → conv c l s k = 0.

Lemma land_bit z b : bit b → bit (Z.land z b).
Proof.
  intros [-> | ->]; [left; apply Z.land_0_r|]. change 1 with (Z.ones 1).
  rewrite Z.land_ones by lia. unfold bit. pose proof (Z.mod_pos_bound z (2 ^ 1)). lia.
Qed.

Lemma land_1_bit b : bit b → Z.land 1 b = b.
Proof. by intros [-> | ->]. Qed.

Lemma lxor_bit a b : bit a → bit b → bit (Z.lxor a b).
Proof. intros [-> | ->] [-> | ->]; cbv; auto. Qed.

Lemma conv_bit c l s k : (∀ i, bit (s i)) → bit (conv c l s k).
Proof. intros Hs. apply xsum_bit. intros i. by apply land_bit. Qed.

Lemma conv_degree c l l' s k :
  (l ≤ l')%nat → (∀ i, (l < i)%nat → c i = 0) → conv c l' s k = conv c l s k.
Proof.
  intros Hl Hc. unfold conv. replace (S l') with (S l + (l' - l))%nat by lia.
  apply xsum_more. intros i Hi. rewrite Hc by lia. apply Z.land_0_l.
Qed.

Lemma conv_lxor c c' l s k :
  conv (λ i, Z.lxor (c i) (c' i)) l s k = Z.lxor (conv c l s k) (conv c' l s k).
Proof.
  unfold conv. rewrite <-xsum_lxor. apply xsum_ext. intros i _.
  by rewrite Z.land_comm, land_lxor, !(Z.land_comm (s _)).
Qed.

(** Multiplying the polynomial by [x^m] delays the sequence by [m]. *)
Definition delay (m : nat) (b : nat → Z) : nat → Z :=
  λ i, if bool_decide (m ≤ i)%nat then b (i - m)%nat else 0.

Lemma conv_delay m b l s k :
  (m ≤ k)%nat → conv (delay m b) (m + l) s k = conv b l s (k - m).
Proof.
  intros Hk. unfold conv, delay. replace (S (m + l)) with (m + S l)%nat by lia.
  etransitivity; [|apply (xsum_shift _ m)]. apply xsum_ext. intros i Hi. cbn beta.
  case_bool_decide; [|apply Z.land_0_l]. do 2 f_equal. lia.
Qed.

(** Massey's bound: a register that fails at [n] and one that does not add up to
    more than [n]. *)
Lemma massey_bound c l c' l' s n :
  generates c l s n → conv c l s n = 1 → generates c' l' s (S n) → (n < l + l')%nat.
Proof.
  intros [Hc0 Hc] Hn [Hc0' Hc']. destruct (decide (n < l + l')%nat) as [?|Hge]; [done|exfalso].
  assert (xsum (λ i, Z.land (c' i) (conv c l s (n - i))) (S l') = 1) as H1.
  { rewrite xsum_first, Nat.sub_0_r, Hn, Hc0', xsum_zero; [done|].
    intros i Hi. rewrite Hc by lia. apply Z.land_0_r. }
  assert (xsum (λ j, Z.land (c j) (conv c' l' s (n - j))) (S l) = 0) as H0.
  { apply xsum_zero. intros j Hj. rewrite Hc' by lia. apply Z.land_0_r. }
  rewrite (xsum_ext _ (λ i, xsum (λ j, Z.land (c j) (Z.land (c' i) (s (n - j - i)%nat))) (S l))) in H1.
  - rewrite xsum_swap in H1. rewrite (xsum_ext _ _ _ (λ j Hj, eq_sym (land_xsum _ _ _))) in H1.
    unfold conv in H0. congruence.
  - intros i Hi. unfold conv. rewrite land_xsum. apply xsum_ext. intros j Hj.
    rewrite !Z.land_assoc, (Z.land_comm (c' i)). do 2 f_equal. lia.
Qed.

(** ** Registers and connection polynomials *)

Definition poly_of (c : list Z) : nat → Z := λ i, match i with O => 1 | S i => at_ c i end.

Lemma at_bit s : Forall bit s → ∀ i, bit (at_ s i).
Proof.
  intros Hs i. unfold at_. destruct (s !! i) as [x|] eqn:Hi; [|by left].
  by eapply Forall_lookup_1 in Hi.
Qed.

Lemma lfsr_generates c s :
  Forall bit s → lfsr c s ↔ generates (poly_of c) (length c) (at_ s) (length s).
Proof.
  intros Hs. unfold lfsr, generates.
  assert (∀ k, conv (poly_of c) (length c) (at_ s) k =
    Z.lxor (at_ s k) (xsum (λ i, Z.land (at_ c i) (at_ s (k - 1 - i)%nat)) (length c))) as Heq.
  { intros k. unfold conv. rewrite xsum_first, Nat.sub_0_r. cbn [poly_of].
    rewrite land_1_bit by auto using at_bit. f_equal. apply xsum_ext. intros i Hi.
    do 2 f_equal. lia. }
  split; [intros H; split; [done|]|intros [_ H]]; intros k Hk; specialize (H k Hk).
  - by rewrite Heq, <-H, Z.lxor_nilpotent.
  - rewrite Heq in H. by apply Z.lxor_eq in H.
Qed.

Lemma generates_lfsr c l s :
  Forall bit s → (∀ i, bit (c i)) → generates c l (at_ s) (length s) →
  ∃ c', length c' = l ∧ Forall bit c' ∧ lfsr c' s.
Proof.
  intros Hs Hc [Hc0 Hg]. exists ((λ i, c (S i)) <$> seq 0 l).
  assert (∀ i, (i < l)%nat → at_ ((λ i, c (S i)) <$> seq 0 l) i = c (S i)) as Hat.
  { intros i Hi. unfold at_. by rewrite list_lookup_fmap, lookup_seq_lt by lia. }
  split_and!; [by rewrite length_fmap, length_seq|by apply Forall_fmap, Forall_true; intros; apply Hc|].
  apply lfsr_generates; [done|]. rewrite length_fmap, length_seq. split; [done|].
  intros k Hk. rewrite <-(Hg k Hk). unfold conv. apply xsum_ext. intros [|i] Hi; cbn [poly_of].
  - by rewrite Hc0.
  - by rewrite Hat by lia.
Qed.

(** ** The loops compute what they should *)

Lemma lookup_at l i : (i < length l)%nat → l !! i = Some (at_ l i).
Proof. intros Hi. unfold at_. by destruct (lookup_lt_is_Some_2 l i Hi) as [x ->]. Qed.

Lemma at_insert l i x k :
  (i < length l)%nat → at_ (<[i := x]> l) k = if bool_decide (k = i) then x else at_ l k.
Proof.
  intros Hi. unfold at_. case_bool_decide as Hk.
  - subst. by rewrite list_lookup_insert_eq.
  - by rewrite list_lookup_insert_ne.
Qed.

Lemma bm_discrepancy_spec c s nn i todo d :
  (i + todo ≤ length c)%nat → (i + todo ≤ S nn)%nat → (nn < length s)%nat →
  bm_discrepancy c s nn i todo d =
    Ok (Z.lxor d (xsum (λ x, Z.land (at_ c (i + x)) (at_ s (nn - (i + x)))) todo)).
Proof.
  revert i d. induction todo as [|todo IH]; intros i d Hc Hn Hs; cbn [bm_discrepancy].
  - by rewrite Z.lxor_0_r.
  - rewrite bool_decide_eq_false_2, !lookup_at by lia. cbn [expect]. rewrite !bind_Ok, IH by lia.
    rewrite xsum_first, Nat.add_0_r, Z.lxor_assoc. do 3 f_equal. apply xsum_ext.
    intros x _. by rewrite Nat.add_succ_r.
Qed.

Lemma bm_add_spec b m j todo c :
  (j + todo ≤ length b)%nat → (j + todo + m ≤ length c)%nat →
  ∃ c', bm_add b m j todo c = Ok c' ∧ length c' = length c ∧
    ∀ k, at_ c' k = Z.lxor (at_ c k)
      (if bool_decide (j + m ≤ k < j + todo + m)%nat then at_ b (k - m) else 0).
Proof.
  revert j c. induction todo as [|todo IH]; intros j c Hb Hc; cbn [bm_add].
  - exists c. split_and!; [done..|]. intros k. rewrite bool_decide_eq_false_2 by lia. by rewrite Z.lxor_0_r.
  - rewrite !lookup_at by lia. cbn [expect]. rewrite !bind_Ok.
    destruct (IH (S j) (<[(j + m)%nat := Z.lxor (at_ c (j + m)) (at_ b j)]> c)) as (c' & -> & Hlen & Hat);
      [lia|by rewrite length_insert; lia|]. rewrite length_insert in Hlen.
    exists c'. split_and!; [done..|]. intros k. rewrite Hat, at_insert by lia.
    destruct (decide (k = j + m)%nat) as [->|Hk].
    + rewrite bool_decide_eq_true_2, bool_decide_eq_false_2, bool_decide_eq_true_2 by lia.
      rewrite Z.lxor_0_r. do 2 f_equal. lia.
    + rewrite bool_decide_eq_false_2 by lia. do 2 f_equal.
      by rewrite (bool_decide_ext _ (j + m ≤ k < j + S todo + m)%nat) by lia.
Qed.

(** ** The invariant of Berlekamp-Massey *)

(** [nn] bits of [s] are read; [c] is a shortest register for them, of length [l];
    [b] is the polynomial before the last change of length, [r] bits in, of degree [lb]:
    either there was none, or [b] failed exactly at its last bit [r - 1]. *)
Record bm_inv (s : list Z) (nn : nat) (st : bm_state) (lb r : nat) : Prop := BmInv {
  inv_c_length : length (bm_c st) = S (length s);
  inv_b_length : length (bm_b st) = S (length s);
  inv_c_bits : Forall bit (bm_c st);
  inv_b_bits : Forall bit (bm_b st);
  inv_c_degree : ∀ i, (bm_l st < i)%nat → at_ (bm_c st) i = 0;
  inv_b_degree : ∀ i, (lb < i)%nat → at_ (bm_b st) i = 0;
  inv_c : generates (at_ (bm_c st)) (bm_l st) (at_ s) nn;
  inv_l : (bm_l st ≤ nn)%nat;
  inv_m : (1 ≤ bm_m st)%nat;
  inv_r : (bm_m st + r = nn + 1)%nat;
  inv_lb : (bm_l st + lb = r)%nat;
  inv_b : r = 0%nat ∨
    ((lb < r)%nat ∧ generates (at_ (bm_b st)) lb (at_ s) (r - 1) ∧
     conv (at_ (bm_b st)) lb (at_ s) (r - 1) = 1);
  inv_min : ∀ c l, generates c l (at_ s) nn → (bm_l st ≤ l)%nat }.

Lemma generates_S c l s n : generates c l s (S n) → generates c l s n.
Proof. intros [? H]. split; [done|]. intros k Hk. apply H. lia. Qed.

Lemma generates_extend c l s n : generates c l s n → conv c l s n = 0 → generates c l s (S n).
Proof.
  intros [? H] Hn. split; [done|]. intros k Hk. destruct (decide (k = n)) as [->|]; [done|]. apply H. lia.
Qed.

Lemma bm_discrepancy_conv s nn st lb r s0 :
  Forall bit s → (nn < length s)%nat → bm_inv s nn st lb r → s0 = at_ s nn →
  bm_discrepancy (bm_c st) s nn 1 (bm_l st) s0 = Ok (conv (at_ (bm_c st)) (bm_l st) (at_ s) nn).
Proof.
  intros Hs Hnn [Hlc ????? [Hc0 ?] Hl ?????] ->.
  rewrite bm_discrepancy_spec by lia. f_equal. unfold conv. rewrite xsum_first, Nat.sub_0_r, Hc0.
  by rewrite land_1_bit by auto using at_bit.
Qed.

(** The corrected polynomial [c + x^m b]. *)
Lemma bm_correction s nn st lb r :
  (nn < length s)%nat → bm_inv s nn st lb r → conv (at_ (bm_c st)) (bm_l st) (at_ s) nn = 1 →
  ∃ c', bm_add (bm_b st) (bm_m st) 0 (S (nn + 1 - bm_m st)) (bm_c st) = Ok c' ∧
    length c' = S (length s) ∧ Forall bit c' ∧
    (∀ i, (bm_l st `max` (nn + 1 - bm_l st) < i)%nat → at_ c' i = 0) ∧
    generates (at_ c') (bm_l st `max` (nn + 1 - bm_l st)) (at_ s) (S nn).
Proof.
  destruct st as [c b l m]. intros Hnn [Hlc Hlbl Hcb Hbb Hcd Hbd [Hc0 Hc] Hl Hm Hr Hlb Hb _] Hd.
  cbn [bm_c bm_b bm_l bm_m] in *. set (l' := (l `max` (nn + 1 - l))%nat).
  destruct (bm_add_spec b m 0 (S (nn + 1 - m)) c) as (c' & -> & Hlen & Hat); [lia..|].
  assert (∀ k, at_ c' k = Z.lxor (at_ c k) (delay m (at_ b) k)) as Hat'.
  { intros k. rewrite Hat. unfold delay. f_equal.
    repeat case_bool_decide; first [done|lia|rewrite Hbd; [done|lia]]. }
  exists c'. split_and!; [done|lia|..].
  - apply Forall_lookup. intros i x Hi. assert (at_ c' i = x) as <- by (unfold at_; by rewrite Hi).
    rewrite Hat. apply lxor_bit; [by apply at_bit|]. case_bool_decide; [by apply at_bit|by left].
  - intros i Hi. rewrite Hat', Hcd by lia. unfold delay. case_bool_decide; [|done]. by rewrite Hbd by lia.
  - split.
    + rewrite Hat', Hc0. unfold delay. by rewrite bool_decide_eq_false_2 by lia.
    + intros k Hk.
      assert (conv (at_ c') l' (at_ s) k = Z.lxor (conv (at_ c) l (at_ s) k) (conv (at_ b) lb (at_ s) (k - m))) as ->.
      { unfold conv at 1. rewrite (xsum_ext _ (λ i, Z.land (Z.lxor (at_ c i) (delay m (at_ b) i)) (at_ s (k - i)))).
        2: { intros i _. by rewrite Hat'. }
        fold (conv (λ i, Z.lxor (at_ c i) (delay m (at_ b) i)) l' (at_ s) k).
        rewrite conv_lxor, (conv_degree _ l) by (lia || done). f_equal.
        rewrite (conv_degree _ (m + lb)), conv_delay; [done|lia|lia|].
        intros i Hi. unfold delay. case_bool_decide; [|done]. apply Hbd. lia. }
      destruct Hb as [->|(Hlt & [_ Hb] & Hfail)]; [lia|].
      destruct (decide (k = nn)) as [->|Hne].
      * replace (nn - m)%nat with (r - 1)%nat by lia. by rewrite Hd, Hfail.
      * rewrite Hc, Hb by lia. done.
Qed.

Lemma bm_step_inv s nn st lb r :
  Forall bit s → (nn < length s)%nat → bm_inv s nn st lb r →
  ∃ st' lb' r', bm_step s nn st = Ok st' ∧ bm_inv s (S nn) st' lb' r'.
Proof.
  intros Hs Hnn Hinv. pose proof (bm_discrepancy_conv s nn st lb r _ Hs Hnn Hinv eq_refl) as Hd.
  pose proof (bm_correction s nn st lb r Hnn Hinv) as Hcor.
  assert (∀ c' l', generates c' l' (at_ s) (S nn) → (bm_l st ≤ l')%nat) as Hmin.
  { intros c' l' Hg. by eapply (inv_min _ _ _ _ _ Hinv), generates_S. }
  destruct Hinv as [Hlc Hlbl Hcb Hbb Hcd Hbd Hc Hl Hm Hr Hlb Hb _].
  destruct (conv_bit (at_ (bm_c st)) (bm_l st) (at_ s) nn (at_bit s Hs)) as [H0|H1].
  { exists (BmState (bm_c st) (bm_b st) (bm_l st) (S (bm_m st))), lb, r.
    destruct st as [c b l m]. cbn [bm_step bm_c bm_b bm_l bm_m] in *.
    rewrite lookup_at by done. cbn [expect]. rewrite !bind_Ok, Hd, bind_Ok, H0. split; [done|].
    split; cbn [bm_c bm_b bm_l bm_m]; auto using generates_extend; lia. }
  destruct (Hcor H1) as (c' & Hadd & Hlen & Hbits & Hdeg & Hgen).
  assert (∀ c'' l'', generates c'' l'' (at_ s) (S nn) → (nn < bm_l st + l'')%nat) as Hmassey.
  { intros c'' l''. by apply massey_bound with (c := at_ (bm_c st)). }
  destruct st as [c b l m]. cbn [bm_step bm_c bm_b bm_l bm_m] in *.
  rewrite lookup_at by done. cbn [expect]. rewrite !bind_Ok, Hd, bind_Ok, H1.
  change (1 =? 0) with false. cbn iota.
  rewrite (bool_decide_eq_false_2 (nn + 1 < m)%nat) by lia. rewrite bind_Ok, Hadd, bind_Ok.
  destruct (decide (2 * l ≤ nn)%nat) as [Hle|Hgt].
  - rewrite bool_decide_eq_true_2 by done. rewrite Nat.max_r in Hdeg, Hgen by lia.
    eexists _, l, (S nn). split; [done|]. split; cbn [bm_c bm_b bm_l bm_m]; auto; try lia.
    + right. rewrite Nat.sub_succ, Nat.sub_0_r. auto with lia.
    + intros c'' l'' Hg. apply Hmassey in Hg. lia.
  - rewrite bool_decide_eq_false_2 by done. rewrite Nat.max_l in Hdeg, Hgen by lia.
    eexists _, lb, r. split; [done|]. split; cbn [bm_c bm_b bm_l bm_m]; auto; lia.
Qed.

Lemma bm_loop_inv s nn todo st lb r :
  Forall bit s → (nn + todo = length s)%nat → bm_inv s nn st lb r →
  ∃ st' lb' r', bm_loop s nn todo st = Ok st' ∧ bm_inv s (length s) st' lb' r'.
Proof.
  intros Hs. revert nn st lb r. induction todo as [|todo IH]; intros nn st lb r Hn Hinv; cbn [bm_loop].
  - rewrite Nat.add_0_r in Hn. subst nn. by exists st, lb, r.
  - destruct (bm_step_inv s nn st lb r Hs) as (st' & lb' & r' & -> & Hinv'); [lia|done|].
    rewrite bind_Ok. eapply IH; [lia|done].
Qed.

Lemma at_one n k : at_ (1 :: replicate n 0) k = if bool_decide (k = 0)%nat then 1 else 0.
Proof.
  destruct k as [|k]; [done|]. unfold at_. cbn.
  destruct (replicate n 0 !! k) as [x|] eqn:Hx; [|done]. by apply lookup_replicate in Hx as [-> _].
Qed.

Lemma bm_initial_inv s :
  bm_inv s 0 (BmState (1 :: replicate (length s) 0) (1 :: replicate (length s) 0) 0 1) 0 0.
Proof.
  assert (Forall bit (1 :: replicate (length s) 0)) as Hbits.
  { constructor; [by right|]. apply Forall_replicate. by left. }
  assert (length (1 :: replicate (length s) 0) = S (length s)) as Hlen by (cbn; by rewrite length_replicate).
  split; cbn [bm_c bm_b bm_l bm_m]; auto; try lia.
  1,2: intros i Hi; rewrite at_one, bool_decide_eq_false_2 by lia; done.
  split; [by rewrite at_one|lia].
Qed.

Lemma berlekamp_massey_returns s : Forall bit s → ∃ l, berlekamp_massey s = Ok l.
Proof.
  intros Hs. unfold berlekamp_massey.
  destruct (bm_loop_inv s 0 (length s) _ _ _ Hs eq_refl (bm_initial_inv s)) as (st & lb & r & -> & _).
  by exists (bm_l st).
Qed.

(** C34: [berlekamp_massey] returns on every bit block, without an index out of range
    or an underflow, and what it returns is the linear complexity of the block: some
    feedback register of that length produces it, and no shorter one does. *)
Theorem berlekamp_massey_correct s :
  Forall bit s → ∃ l, berlekamp_massey s = Ok l ∧ linear_complexity s l ∧ (l ≤ length s)%nat.
Proof.
  intros Hs. unfold berlekamp_massey.
  destruct (bm_loop_inv s 0 (length s) _ _ _ Hs eq_refl (bm_initial_inv s)) as (st & lb & r & -> & Hinv).
  exists (bm_l st). split; [done|]. split; [|apply Hinv]. split.
  - eapply generates_lfsr; [done|apply at_bit, Hinv|apply Hinv].
  - intros c Hc. eapply (inv_min _ _ _ _ _ Hinv). by apply lfsr_generates.
Qed.

Definition sample_block : list Z := [1; 1; 0; 1; 0; 1; 1; 1; 1; 0; 0; 0; 1].

Lemma berlekamp_massey_correct_witness :
  berlekamp_massey sample_block = Ok 4%nat ∧
  ∃ l, berlekamp_massey sample_block = Ok l ∧ linear_complexity sample_block l ∧ (l ≤ 13)%nat.
Proof.
  split; [vm_compute; reflexivity|]. apply (berlekamp_massey_correct sample_block).
  repeat constructor; unfold bit; lia.
Defined.

(** ** What a rank is *)

(** The sums of rows. *)
Inductive span (rows : list Z) : Z → Prop :=
| span_zero : span rows 0
| span_row v r : span rows v → r ∈ rows → span rows (Z.lxor v r).

Definition combination (f : nat → bool) (rows : list Z) : Z :=
  xsum (λ i, if f i then at_ rows i else 0) (length rows).

Definition independent (rows : list Z) : Prop :=
  ∀ f, combination f rows = 0 → ∀ i, (i < length rows)%nat → f i = false.

(** [n] is the size of a basis of the row space. *)
Definition rank_of (rows : list Z) (n : nat) : Prop :=
  ∃ basis, length basis = n ∧ independent basis ∧ ∀ v, span basis v ↔ span rows v.

Lemma span_lxor rows v w : span rows v → span rows w → span rows (Z.lxor v w).
Proof.
  intros Hv. induction 1 as [|w r _ IH Hr]; [by rewrite Z.lxor_0_r|].
  rewrite <-Z.lxor_assoc. by constructor.
Qed.

Lemma span_elem rows r : r ∈ rows → span rows r.
Proof. intros Hr. rewrite <-(Z.lxor_0_l r). by repeat constructor. Qed.

Lemma span_mono rows rows' v : (∀ r, r ∈ rows → span rows' r) → span rows v → span rows' v.
Proof. intros Hr. induction 1; [constructor|]. by apply span_lxor; auto. Qed.

Lemma at_elem (rows : list Z) i : (i < length rows)%nat → at_ rows i ∈ rows.
Proof. intros Hi. eapply list_elem_of_lookup_2, lookup_at, Hi. Qed.

Lemma elem_at (rows : list Z) r : r ∈ rows ↔ ∃ i, (i < length rows)%nat ∧ r = at_ rows i.
Proof.
  split; [|intros (i & Hi & ->); by apply at_elem].
  intros (i & Hi)%list_elem_of_lookup_1. exists i. split; [by eapply lookup_lt_Some|].
  unfold at_. by rewrite Hi.
Qed.

(** ** The two row operations *)

Definition transposed (i j k : nat) : nat :=
  if bool_decide (k = i) then j else if bool_decide (k = j) then i else k.

Lemma length_swap_rows i j mat : length (swap_rows i j mat) = length mat.
Proof. unfold swap_rows. repeat case_match; by rewrite ?length_insert. Qed.

Lemma at_swap_rows i j mat k :
  (i < length mat)%nat → (j < length mat)%nat →
  at_ (swap_rows i j mat) k = at_ mat (transposed i j k).
Proof.
  intros Hi Hj. unfold swap_rows. rewrite !lookup_at by done.
  rewrite !at_insert by (rewrite ?length_insert; done). unfold transposed.
  repeat case_bool_decide; congruence.
Qed.

Lemma length_eliminate col rank mat : length (eliminate col rank mat) = length mat.
Proof. apply length_imap. Qed.

Lemma at_eliminate col rank mat k :
  (k < length mat)%nat →
  at_ (eliminate col rank mat) k =
    if negb (bool_decide (k = rank)) && Z.testbit (at_ mat k) (Z.of_nat col)
    then Z.lxor (at_ mat k) (at_ mat rank) else at_ mat k.
Proof. intros Hk. unfold eliminate, at_ at 1. rewrite list_lookup_imap, (lookup_at mat k) by done. done. Qed.

Lemma transposed_lt i j k n : (i < n → j < n → k < n → transposed i j k < n)%nat.
Proof. unfold transposed. repeat case_bool_decide; lia. Qed.

Lemma swap_rows_span i j mat v :
  (i < length mat)%nat → (j < length mat)%nat → span (swap_rows i j mat) v ↔ span mat v.
Proof.
  intros Hi Hj. split; apply span_mono; intros r (k & Hk & ->)%elem_at; apply span_elem, elem_at.
  - rewrite length_swap_rows in Hk. rewrite at_swap_rows by done. eauto using transposed_lt.
  - exists (transposed i j k). rewrite length_swap_rows. split; [by apply transposed_lt|].
    rewrite at_swap_rows by done. f_equal. unfold transposed. repeat case_bool_decide; congruence.
Qed.

Lemma eliminate_span col rank mat v :
  (rank < length mat)%nat → span (eliminate col rank mat) v ↔ span mat v.
Proof.
  intros Hr. split; apply span_mono; intros r (k & Hk & ->)%elem_at.
  - rewrite length_eliminate in Hk. rewrite at_eliminate by done.
    case_match; [apply span_lxor|]; by apply span_elem, at_elem.
  - assert (span (eliminate col rank mat) (at_ mat rank)) as Hp.
    { assert (rank < length (eliminate col rank mat))%nat as Hp by (by rewrite length_eliminate).
      apply at_elem, span_elem in Hp.
      by rewrite at_eliminate, bool_decide_eq_true_2 in Hp by done. }
    assert (span (eliminate col rank mat) (at_ (eliminate col rank mat) k)) as Hspan.
    { apply span_elem, at_elem. by rewrite length_eliminate. }
    rewrite at_eliminate in Hspan by done. case_match; [|done].
    apply (span_lxor _ _ _ Hspan) in Hp. by rewrite Z.lxor_assoc, Z.lxor_nilpotent, Z.lxor_0_r in Hp.
Qed.

(** ** The invariant of the elimination *)

(** After the columns below [col]: the rows below [rank] have a column each, in [pivots],
    in which no other row has a bit; the rows from [rank] on are zero in all those columns;
    and the row space is that of [mat0]. *)
Record echelon (mat0 : list Z) (col : nat) (mat : list Z) (rank : nat) (pivots : list nat) : Prop :=
  Echelon {
    ech_length : length mat = 32%nat;
    ech_range : ∀ i, 0 ≤ at_ mat i < 2 ^ 32;
    ech_span : ∀ v, span mat v ↔ span mat0 v;
    ech_pivots : length pivots = rank;
    ech_rank : (rank ≤ 32)%nat;
    ech_pivot : ∀ i p, pivots !! i = Some p → (p < col)%nat ∧
      ∀ r, (r < 32)%nat → Z.testbit (at_ mat r) (Z.of_nat p) = bool_decide (r = i);
    ech_zero : ∀ r c, (rank ≤ r < 32)%nat → (c < col)%nat → Z.testbit (at_ mat r) (Z.of_nat c) = false }.

Lemma echelon_skip mat0 col mat rank pivots :
  echelon mat0 col mat rank pivots →
  (∀ r, (rank ≤ r < 32)%nat → Z.testbit (at_ mat r) (Z.of_nat col) = false) →
  echelon mat0 (S col) mat rank pivots.
Proof.
  intros [????? Hp Hz] Hcol. split; auto.
  - intros i p Hi. destruct (Hp i p Hi). auto with lia.
  - intros r c Hr Hc. destruct (decide (c = col)) as [->|]; [auto|]. apply Hz; lia.
Qed.

Lemma echelon_swap mat0 col mat rank pivots p :
  echelon mat0 col mat rank pivots → (rank ≤ p < 32)%nat →
  echelon mat0 col (swap_rows rank p mat) rank pivots.
Proof.
  intros [Hlen Hrange Hspan Hpl Hrank Hp Hz] Hpr.
  assert (∀ k, at_ (swap_rows rank p mat) k = at_ mat (transposed rank p k)) as Hat.
  { intros k. apply at_swap_rows; lia. }
  split; [by rewrite length_swap_rows|..].
  - intros i. by rewrite Hat.
  - intros v. by rewrite swap_rows_span by lia.
  - done.
  - done.
  - intros i q Hi. destruct (Hp i q Hi) as [? Hq]. split; [done|]. intros r Hr.
    rewrite Hat, Hq by (apply transposed_lt; lia). apply lookup_lt_Some in Hi.
    unfold transposed. repeat case_bool_decide; lia.
  - intros r c Hr Hc. rewrite Hat. apply Hz; [|done]. unfold transposed. repeat case_bool_decide; lia.
Qed.

Lemma echelon_eliminate mat0 col mat rank pivots :
  echelon mat0 col mat rank pivots → (rank < 32)%nat → (col < 32)%nat →
  Z.testbit (at_ mat rank) (Z.of_nat col) = true →
  echelon mat0 (S col) (eliminate col rank mat) (S rank) (pivots ++ [col]).
Proof.
  intros [Hlen Hrange Hspan Hpl Hrank Hp Hz] Hr32 Hc32 Hbit.
  assert (∀ r c, (r < 32)%nat → (c < col)%nat →
    Z.testbit (at_ (eliminate col rank mat) r) (Z.of_nat c) = Z.testbit (at_ mat r) (Z.of_nat c)) as Hold.
  { intros r c Hr Hc. rewrite at_eliminate by lia. case_match; [|done].
    rewrite Z.lxor_spec, (Hz rank c) by lia. apply xorb_false_r. }
  assert (∀ r, (r < 32)%nat →
    Z.testbit (at_ (eliminate col rank mat) r) (Z.of_nat col) = bool_decide (r = rank)) as Hnew.
  { intros r Hr. rewrite at_eliminate by lia. case_bool_decide as Heq; cbn [negb andb].
    - by subst.
    - destruct (Z.testbit (at_ mat r) (Z.of_nat col)) eqn:Hrc; [|done]. by rewrite Z.lxor_spec, Hrc, Hbit. }
  split; [by rewrite length_eliminate|..].
  - intros i. destruct (decide (i < 32)%nat) as [Hi|Hi].
    + rewrite at_eliminate by lia. case_match; [by apply (lxor_bound 32)|done].
    + unfold at_. rewrite lookup_ge_None_2 by (rewrite length_eliminate; lia). cbn. lia.
  - intros v. by rewrite eliminate_span by lia.
  - rewrite length_app, Hpl. cbn. lia.
  - lia.
  - intros i q [Hi|[Hge Hi]]%lookup_app_Some.
    + destruct (Hp i q Hi) as [? Hq]. split; [lia|]. intros r Hr. by rewrite Hold, Hq.
    + apply list_lookup_singleton_Some in Hi as [Hi <-]. split; [lia|]. intros r Hr.
      rewrite Hnew by done. apply bool_decide_ext. lia.
  - intros r c Hr Hc. destruct (decide (c = col)) as [->|].
    + rewrite Hnew by lia. apply bool_decide_eq_false_2. lia.
    + rewrite Hold by lia. apply Hz; lia.
Qed.

Lemma gf2_step_echelon mat0 col mat rank pivots :
  echelon mat0 col mat rank pivots → (col < 32)%nat →
  ∃ pivots', echelon mat0 (S col) (gf2_step (mat, rank) col).1 (gf2_step (mat, rank) col).2 pivots'.
Proof.
  intros Hech Hc. unfold gf2_step.
  destruct (list_find _ (seq rank (32 - rank))) as [[k p]|] eqn:Hfind; cbn [fst snd].
  - apply list_find_Some in Hfind as (Hk & Hbit & _). apply lookup_seq in Hk as [-> Hk].
    exists (pivots ++ [col]). apply echelon_eliminate; [apply echelon_swap; [done|lia]|lia|done|].
    rewrite at_swap_rows by (rewrite (ech_length _ _ _ _ _ Hech); lia).
    unfold transposed. by rewrite bool_decide_eq_true_2.
  - exists pivots. apply echelon_skip; [done|]. intros r Hr. apply list_find_None in Hfind.
    eapply Forall_forall in Hfind; [|apply elem_of_seq; split; [apply Hr|lia]].
    by apply not_true_is_false.
Qed.

Lemma gf2_fold_echelon mat0 n mat rank col pivots :
  echelon mat0 col mat rank pivots → (col + n = 32)%nat →
  ∃ pivots', echelon mat0 32 (foldl gf2_step (mat, rank) (seq col n)).1
                             (foldl gf2_step (mat, rank) (seq col n)).2 pivots'.
Proof.
  revert mat rank col pivots. induction n as [|n IH]; intros mat rank col pivots Hech Hn; cbn [seq foldl].
  - rewrite Nat.add_0_r in Hn. subst. by exists pivots.
  - destruct (gf2_step_echelon _ _ _ _ _ Hech) as [pivots' Hech']; [lia|].
    destruct (gf2_step (mat, rank) col) as [mat' rank']. eapply IH; [done|lia].
Qed.

(** ** The rank *)

Lemma xsum_testbit g n p i :
  (∀ j, (j < n)%nat → j ≠ i → Z.testbit (g j) p = false) →
  Z.testbit (xsum g n) p = bool_decide (i < n)%nat && Z.testbit (g i) p.
Proof.
  induction n as [|n IH]; intros Hg; cbn [xsum].
  - rewrite bool_decide_eq_false_2 by lia. apply Z.testbit_0_l.
  - rewrite Z.lxor_spec, IH by auto with lia. destruct (decide (n = i)) as [->|Hne].
    + rewrite bool_decide_eq_false_2, bool_decide_eq_true_2 by lia. done.
    + rewrite (Hg n), xorb_false_r by lia. f_equal. apply bool_decide_ext. lia.
Qed.

Lemma u32_zero x : 0 ≤ x < 2 ^ 32 → (∀ c, (c < 32)%nat → Z.testbit x (Z.of_nat c) = false) → x = 0.
Proof.
  intros Hx Hc. apply Z.bits_inj'. intros n Hn. rewrite Z.bits_0.
  destruct (decide (n < 32)) as [Hlt|Hge].
  - rewrite <-(Z2Nat.id n) by done. apply Hc. lia.
  - rewrite <-(Z.mod_small x (2 ^ 32)) by done. apply Z.mod_pow2_bits_high. lia.
Qed.

Lemma at_take rank mat k : (k < rank)%nat → at_ (take rank mat) k = at_ mat k.
Proof. intros Hk. unfold at_. by rewrite lookup_take_lt. Qed.

Lemma echelon_rank mat0 mat rank pivots : echelon mat0 32 mat rank pivots → rank_of mat0 rank.
Proof.
  intros [Hlen Hrange Hspan Hpl Hrank Hp Hz]. exists (take rank mat).
  assert (length (take rank mat) = rank) as Htake by (rewrite length_take; lia).
  split_and!; [done|..].
  - intros f Hf i Hi. rewrite Htake in Hi. unfold combination in Hf. rewrite Htake in Hf.
    destruct (lookup_lt_is_Some_2 pivots i) as [p Hpi]; [lia|]. destruct (Hp i p Hpi) as [_ Hbit].
    assert (∀ j, (j < rank)%nat →
      Z.testbit (if f j then at_ (take rank mat) j else 0) (Z.of_nat p) = bool_decide (j = i) && f j) as Hg.
    { intros j Hj. rewrite at_take by done. destruct (f j); [|by rewrite Z.testbit_0_l, andb_false_r].
      rewrite Hbit by lia. by rewrite andb_true_r. }
    assert (Z.testbit 0 (Z.of_nat p) = f i) as <-; [|apply Z.testbit_0_l].
    rewrite <-Hf, (xsum_testbit _ _ _ i).
    + rewrite bool_decide_eq_true_2, Hg, bool_decide_eq_true_2 by done. done.
    + intros j Hj Hne. rewrite Hg by done. by rewrite bool_decide_eq_false_2.
  - intros v. rewrite <-Hspan. split; apply span_mono; intros r (k & Hk & ->)%elem_at.
    + rewrite Htake in Hk. rewrite at_take by done. apply span_elem, at_elem. lia.
    + destruct (decide (k < rank)%nat) as [Hlt|Hge].
      * rewrite <-(at_take rank) by done. apply span_elem, at_elem. lia.
      * rewrite (u32_zero (at_ mat k)); [constructor|done|]. intros c Hc. apply Hz; lia.
Qed.

(** C35: on every matrix of 32 words, [gf2_rank32] returns the rank over GF(2): the
    size of a linearly independent set of words with the same row space. *)
Theorem gf2_rank32_correct mat :
  length mat = 32%nat → Forall (λ w, 0 ≤ w < 2 ^ 32) mat → rank_of mat (gf2_rank32 mat).
Proof.
  intros Hlen Hrange. unfold gf2_rank32.
  destruct (gf2_fold_echelon mat 32 mat 0 0 []) as [pivots Hech]; [|done|by eapply echelon_rank].
  split; [done| |done|done|lia| |lia].
  - intros i. unfold at_. destruct (mat !! i) as [w|] eqn:Hi; cbn; [|lia]. by apply (Forall_lookup_1 _ _ _ _ Hrange Hi).
  - intros i p Hi. done.
Qed.

Definition sample_matrix : list Z := (λ i, Z.land (Z.of_nat i) 7) <$> seq 0 32.

Lemma gf2_rank32_correct_witness :
  gf2_rank32 sample_matrix = 3%nat ∧ rank_of sample_matrix (gf2_rank32 sample_matrix).
Proof.
  split; [vm_compute; reflexivity|]. apply (gf2_rank32_correct sample_matrix); [reflexivity|].
  refine (bool_decide_unpack _ _). vm_compute. exact I.
Defined.
