(* ===== verification/StsBits.v ===== *)
(** * The bit stream under test ([bin/sts.rs])

    [generate_bits]: v8 ciphertexts of rotated printable ASCII under a pinned key,
    concatenated and unpacked to bits, most significant first. *)
From Stdlib Require Import ZArith Lia Strings.Byte.
From stdpp Require Import base tactics option numbers list.
From S2P Require Import Prelude Machine Errors Crates Post Keys Padding Tokens BlockV8 StsLinear.

#[local] Open Scope Z_scope.
#[local] Open Scope napqes_scope.

Definition STS_SK : list byte :=
  byte_of_Z <$>
    [0x9c; 0x6c; 0x0b; 0x92; 0x1a; 0x83; 0x84; 0x9c; 0xdb; 0xf2; 0xfe; 0x7e; 0xfb; 0x74; 0x3f; 0xe9;
     0x11; 0x22; 0x33; 0x44; 0x55; 0x66; 0x77; 0x88; 0x99; 0xaa; 0xbb; 0xcc; 0xdd; 0xee; 0xff; 0x00].

Definition STS_KEY : list Z :=
  [1000003; 1000033; 1000037; 1000039; 1000081; 1000099; 1000117; 1000121; 1000133; 1000151].

(** The 95 printable ASCII characters, in order. *)
Definition CORPUS : list Z := seqZ 32 95.

Definition chunk_size : Z := 480.

(** [CORPUS.iter().cycle().skip(off).take(chunk_size)]; ASCII, so [from_utf8]
    succeeds and the characters are the bytes. *)
Definition corpus_chunk (off : Z) : list Z :=
  (λ i, at_ CORPUS (Z.to_nat ((off + i) mod Z.of_nat (length CORPUS)))) <$> seqZ 0 chunk_size.

Definition unpack_byte (b : byte) : list Z :=
  (λ shift, Z.land (Z.shiftr (byte_to_Z b) shift) 1) <$> reverse (seqZ 0 8).

Definition unpack_bits (raw : list byte) : list Z := concat (unpack_byte <$> raw).

Section generate.
Context `{Crypto} `{Gate}.

Definition encrypt_chunk (raw : list byte) (chunk_num : Z) : outcome error (list byte * Z) :=
  start ← chunk_num *64 chunk_size;
  off ← start %! Z.of_nat (length CORPUS);
  let aad := to_be_bytes 8 chunk_num in
  ct ← match encrypt_bytes_v8 (corpus_chunk off) STS_KEY STS_SK aad with
       | Ok ct => Ok ct
       | _ => Panic PanicExpect
       end;
  chunk_num' ← chunk_num +64 1;
  Ok (raw ++ ct, chunk_num').

(** One round of [while raw.len() < target_bytes]. *)
Definition generate_step (target_bytes : Z) (st : list byte * Z)
    : list byte * Z + outcome error (list byte) :=
  let '(raw, chunk_num) := st in
  if Z.of_nat (length raw) <? target_bytes then
    match encrypt_chunk raw chunk_num with
    | Ok st' => inl st'
    | Err e => inr (Err e)
    | Panic p => inr (Panic p)
    end
  else inr (Ok raw).

Definition generate_bits (n : Z) : outcome error (list Z) :=
  n7 ← n +64 7;
  let target_bytes := n7 / 8 in
  raw ← while_loop 64 (generate_step target_bytes) ([], 0);
  Ok (take (Z.to_nat n) (unpack_bits (take (Z.to_nat target_bytes) raw))).

(** ** The plaintexts *)

(** The message of chunk [i]. *)
Definition chunk_message (i : nat) : list Z := corpus_chunk (Z.of_nat i * chunk_size mod 95).

Definition chunk_aad (i : nat) : list byte := to_be_bytes 8 (Z.of_nat i).

Lemma length_corpus_chunk off : length (corpus_chunk off) = 480%nat.
Proof using Type. unfold corpus_chunk. by rewrite length_fmap, length_seqZ. Qed.

Lemma corpus_chunk_str off : str_ok (corpus_chunk off).
Proof using Type.
  apply Forall_fmap, Forall_true. intros i. cbn.
  change (Z.of_nat (length CORPUS)) with 95. pose proof (Z.mod_pos_bound (off + i) 95 ltac:(lia)).
  unfold at_, CORPUS. rewrite lookup_seqZ_lt by lia. cbn. apply is_scalar_byte. lia.
Qed.

(** The offset is back where it was after 19 chunks, the associated data is not. *)
Lemma chunk_message_period i : chunk_message (i + 19) = chunk_message i.
Proof using Type.
  unfold chunk_message, chunk_size. f_equal. replace (Z.of_nat (i + 19) * 480) with (Z.of_nat i * 480 + 96 * 95) by lia.
  apply Z.mod_add. lia.
Qed.

Lemma STS_KEY_valid : valid_key STS_KEY.
Proof using Type.
  assert (Forall (fits 64) STS_KEY) as Hf by (repeat constructor; cbn; lia).
  pose proof (validate_key_cases STS_KEY Hf) as Hc.
  assert (validate_key STS_KEY = Ok tt) as Hv by (vm_compute; reflexivity).
  by rewrite Hv in Hc.
Qed.

(** ** The loop *)

(** What is known of the [i]-th ciphertext. *)
Definition chunk_ciphertext (i : nat) (ct : list byte) : Prop :=
  encrypt_bytes_v8 (chunk_message i) STS_KEY STS_SK (chunk_aad i) = Ok ct ∧
  decrypt_bytes_v8 ct STS_KEY STS_SK (chunk_aad i) = Ok (chunk_message i) ∧
  length ct = Z.to_nat 82288.

Lemma chunk_ciphertext_exists i : gate_open → ∃ ct, chunk_ciphertext i ct.
Proof using Type.
  intros Hg. unfold chunk_ciphertext, encrypt_bytes_v8, encrypt_bytes_v8_with_profile, decrypt_bytes_v8.
  rewrite Hg, !bind_Ok, (validate_key_valid _ STS_KEY_valid), !bind_Ok.
  pose proof (encrypt_core_cases STS_KEY (valid_key_arith _ STS_KEY_valid) STS_SK (chunk_message i)
    (chunk_aad i) Bucket (corpus_chunk_str _) I) as Hc.
  cbn zeta in Hc. unfold chunk_message in *. rewrite length_corpus_chunk in Hc.
  change (block_size Bucket (Z.of_nat 480)) with (Ok (E := error) 512) in Hc.
  destruct (encrypt_bytes_v8_core _ _ _ _ _) as [ct|e|]; [| |done].
  - destruct Hc as (B & [= <-] & Hlen & Hd). exists ct. rewrite bind_Ok. split_and!; [done..|lia].
  - destruct Hc as [[_ Hc]|Hc]; [|done]. unfold MAX_PLAINTEXT_CODEPOINTS in Hc. lia.
Qed.

Definition generate_inv (target_bytes : Z) (st : list byte * Z) : Prop :=
  ∃ cts, st.1 = concat cts ∧ st.2 = Z.of_nat (length cts) ∧
    (∀ i ct, cts !! i = Some ct → chunk_ciphertext i ct) ∧
    (st.2 = 0 ∨ (st.2 - 1) * 82288 < target_bytes).

Lemma length_chunks (cts : list (list byte)) :
  (∀ i ct, cts !! i = Some ct → chunk_ciphertext i ct) →
  Z.of_nat (length (concat cts)) = Z.of_nat (length cts) * 82288.
Proof using Type.
  induction cts as [|ct cts IH] using rev_ind; intros Hc; [done|].
  rewrite concat_app, !length_app, !Nat2Z.inj_add, IH.
  - cbn [concat]. rewrite app_nil_r. destruct (Hc (length cts) ct) as (_ & _ & ->); [|cbn; lia].
    by rewrite lookup_app_r, Nat.sub_diag by lia.
  - intros i c Hi. apply Hc. by apply lookup_app_l_Some.
Qed.

Lemma encrypt_chunk_Ok raw (cts : list (list byte)) ct :
  Z.of_nat (length cts) < 2 ^ 50 → chunk_ciphertext (length cts) ct →
  encrypt_chunk raw (Z.of_nat (length cts)) = Ok (raw ++ ct, Z.of_nat (S (length cts))).
Proof using Type.
  intros Hn (Henc & _ & _). unfold encrypt_chunk. unfold chunk_size at 1.
  rewrite checked_mul_Ok, bind_Ok by lia.
  rewrite checked_rem_Ok, bind_Ok by done.
  change (encrypt_bytes_v8 _ STS_KEY STS_SK _) with
    (encrypt_bytes_v8 (chunk_message (length cts)) STS_KEY STS_SK (chunk_aad (length cts))).
  rewrite Henc, bind_Ok, checked_add_Ok, bind_Ok by lia. do 2 f_equal. lia.
Qed.

Lemma generate_loop target_bytes :
  gate_open → target_bytes < 2 ^ 60 →
  ∃ cts, while_loop 64 (generate_step target_bytes) ([], 0) = Ok (concat cts) ∧
    (∀ i ct, cts !! i = Some ct → chunk_ciphertext i ct) ∧
    target_bytes ≤ Z.of_nat (length (concat cts)).
Proof using Type.
  intros Hg Ht.
  apply (while_loop_total 64 _ (generate_inv target_bytes)
    (λ st, Z.max 0 (target_bytes - Z.of_nat (length st.1)))
    (λ r, ∃ cts, r = Ok (concat cts) ∧ (∀ i ct, cts !! i = Some ct → chunk_ciphertext i ct) ∧
       target_bytes ≤ Z.of_nat (length (concat cts)))).
  - intros [raw k] (cts & Hraw & Hk & Hcts & Hbound). cbn [fst snd] in *. subst raw k.
    unfold generate_step. pose proof (length_chunks cts Hcts) as Hlen.
    destruct (Z.ltb_spec (Z.of_nat (length (concat cts))) target_bytes) as [Hlt|Hge]; [|by exists cts].
    destruct (chunk_ciphertext_exists (length cts) Hg) as [ct Hct].
    rewrite (encrypt_chunk_Ok _ _ ct) by (lia || done). cbn [fst snd].
    pose proof Hct as (_ & _ & Hl). split; [|rewrite length_app; lia].
    exists (cts ++ [ct]). cbn [fst snd]. rewrite concat_app, length_app. cbn [concat length]. rewrite app_nil_r.
    split_and!; [done|lia| |lia].
    intros i c [Hi|[Hge Hi]]%lookup_app_Some; [by apply Hcts|].
    apply list_lookup_singleton_Some in Hi as [Hi <-]. by replace i with (length cts) by lia.
  - exists []. split_and!; [done|done|done|by left].
  - intros. lia.
  - cbn. lia.
Qed.

(** ** The bits *)

Lemma unpack_byte_bits b : Forall bit (unpack_byte b).
Proof using Type.
  apply Forall_fmap, Forall_true. intros i. apply land_bit. by right.
Qed.

Lemma length_unpack_bits raw : length (unpack_bits raw) = (8 * length raw)%nat.
Proof using Type.
  induction raw as [|b raw IH]; [done|]. unfold unpack_bits in *. cbn [fmap list_fmap concat].
  rewrite length_app, IH. change (length (unpack_byte b)) with 8%nat. cbn [length]. lia.
Qed.

Lemma unpack_bits_bits raw : Forall bit (unpack_bits raw).
Proof using Type.
  apply Forall_concat, Forall_fmap, Forall_true. intros b. apply unpack_byte_bits.
Qed.

Lemma unpack_bits_take k raw : unpack_bits (take k raw) = take (8 * k) (unpack_bits raw).
Proof using Type.
  revert k. induction raw as [|b raw IH]; intros [|k]; [done..|].
  unfold unpack_bits in *. cbn [take fmap list_fmap concat]. rewrite IH.
  replace (8 * S k)%nat with (length (unpack_byte b) + 8 * k)%nat
    by (change (length (unpack_byte b)) with 8%nat; lia).
  by rewrite take_app_add.
Qed.

(** A byte is its eight bits. *)
Lemma unpack_byte_value b : foldl (λ acc z, 2 * acc + z) 0 (unpack_byte b) = byte_to_Z b.
Proof using Type. by destruct b. Qed.

(** With the gate open, [generate_bits] returns exactly [n] bits; they are the first
    [n] bits of a concatenation of v8 ciphertexts, the [i]-th of them the encryption
    of the [i]-th rotation of the corpus under the chunk number as associated data. *)
Theorem generate_bits_correct n :
  gate_open → 0 ≤ n < 2 ^ 60 →
  ∃ cts, generate_bits n = Ok (take (Z.to_nat n) (unpack_bits (concat cts))) ∧
    n ≤ Z.of_nat (length (unpack_bits (concat cts))) ∧ Forall bit (unpack_bits (concat cts)) ∧
    ∀ i ct, cts !! i = Some ct → chunk_ciphertext i ct.
Proof using Type.
  intros Hg Hn. unfold generate_bits. rewrite checked_add_Ok, bind_Ok by lia. cbv zeta.
  pose proof (Z.div_mod (n + 7) 8 ltac:(lia)) as Hdiv. pose proof (Z.mod_pos_bound (n + 7) 8 ltac:(lia)).
  destruct (generate_loop ((n + 7) / 8) Hg) as (cts & -> & Hcts & Hlen); [lia|].
  exists cts. rewrite bind_Ok, unpack_bits_take, take_take, length_unpack_bits.
  split_and!; [|lia|apply unpack_bits_bits|done]. do 2 f_equal. lia.
Qed.

(** With the gate closed nothing is generated: the refusal is a panic. *)
Lemma generate_bits_closed n :
  ¬ gate_open → 0 < n < 2 ^ 60 → generate_bits n = Panic PanicExpect.
Proof using Type.
  intros Hg Hn. unfold generate_bits. rewrite checked_add_Ok, bind_Ok by lia.
  assert (generate_step ((n + 7) / 8) ([], 0) = inr (Panic PanicExpect)) as Hs.
  { unfold generate_step. cbn [length]. destruct (Z.ltb_spec (Z.of_nat 0) ((n + 7) / 8)) as [?|Hge].
    - unfold encrypt_chunk, encrypt_bytes_v8, encrypt_bytes_v8_with_profile.
      rewrite checked_mul_Ok, bind_Ok, checked_rem_Ok, bind_Ok by (done || (unfold chunk_size; lia)).
      by rewrite (gated_closed Hg).
    - pose proof (Z.div_mod (n + 7) 8 ltac:(lia)). pose proof (Z.mod_pos_bound (n + 7) 8 ltac:(lia)). lia. }
  cbv zeta. by rewrite (while_loop_exit _ _ _ _ Hs).
Qed.
End generate.
