(* ===== verification/StsStats.v ===== *)
(** * The counting parts of the statistical tests ([bin/sts.rs])

    The integers each test extracts from the bits before any floating-point
    arithmetic: template occurrences, circular pattern counts, runs, walks and
    excursions. Bits are 0 and 1. *)
From Stdlib Require Import ZArith Lia.
From stdpp Require Import base tactics option numbers list.
From S2P Require Import Prelude Machine StsLinear.

#[local] Open Scope Z_scope.

(** ** Reversed indices ([bit_rev]) *)

(** The loop carries [(r, x)]. *)
Definition bit_rev (x bits : Z) : Z :=
  (Nat.iter (Z.to_nat bits) (λ '(r, x), (Z.lor (Z.shiftl r 1) (Z.land x 1), Z.shiftr x 1)) (0, x)).1.

(** ** Templates *)

Definition is_aperiodic (t : list Z) : bool :=
  let m := length t in
  negb (existsb (λ p, forallb (λ i, at_ t i =? at_ t (i + p)) (seq 0 (m - p))) (seq 1 (m - 1))).

Definition aperiodic_templates (m : Z) : list (list Z) :=
  omap (λ v,
    let t := (λ i, Z.land (Z.shiftr v i) 1) <$> reverse (seqZ 0 m) in
    if is_aperiodic t then Some t else None) (seqZ 0 (Z.shiftl 1 m)).

(** One round of [while i + m <= block.len()]; the state is [(count, i)]. *)
Definition notm_step (block tmpl : list Z) (st : nat * nat) : nat * nat + outcome no_error nat :=
  let '(count, i) := st in
  let m := length tmpl in
  if bool_decide (i + m ≤ length block)%nat then
    if bool_decide (slice i (i + m) block = tmpl) then inl (S count, (i + m)%nat)
    else inl (count, S i)
  else inr (Ok count).

Definition count_notm (block tmpl : list Z) : outcome no_error nat :=
  while_loop 64 (notm_step block tmpl) (0%nat, 0%nat).

(** ** Patterns *)

Definition bits_to_usize (b : list Z) : Z := foldl (λ acc bit, Z.lor (Z.shiftl acc 1) bit) 0 b.

(** The loop of [psi_sq] and of the two halves of [test_approximate_entropy]: the
    state is [(pat, counts)]. *)
Definition pattern_step (bits : list Z) (m : nat) (st : Z * list Z) (i : nat) : Z * list Z :=
  let '(pat, counts) := st in
  let mask := Z.shiftl 1 (Z.of_nat m) - 1 in
  let pat := Z.land (Z.lor (Z.shiftl pat 1) (at_ bits ((i + m - 1) mod length bits))) mask in
  (pat, alter (Z.add 1) (Z.to_nat pat) counts).

Definition pattern_counts (bits : list Z) (m : nat) : outcome no_error (list Z) :=
  first ← index_range 0 (m - 1) bits;
  let counts := replicate (Z.to_nat (Z.shiftl 1 (Z.of_nat m))) 0 in
  Ok (foldl (pattern_step bits m) (bits_to_usize first, counts) (seq 0 (length bits))).2.

(** ** Frequencies and runs *)

Definition pm_one (b : Z) : Z := if b =? 1 then 1 else -1.

Definition monobit_sum (bits : list Z) : Z := foldl Z.add 0 (pm_one <$> bits).

Definition block_ones (bits : list Z) (M : nat) : list nat :=
  (λ j, length (filter (λ b, b = 1) (slice (j * M) ((j + 1) * M) bits))) <$> seq 0 (length bits / M).

Definition changes (bits : list Z) : nat :=
  length (filter (λ '(a, b), a ≠ b) (zip bits (drop 1 bits))).

Definition longest_run_step (st : nat * nat) (b : Z) : nat * nat :=
  let '(max, cur) := st in
  let c := if b =? 1 then S cur else 0%nat in
  ((max `max` c)%nat, c).

Definition longest_run (block : list Z) : nat := (foldl longest_run_step (0%nat, 0%nat) block).1.

Definition longest_run_parameters (n : nat) : nat * nat * list nat :=
  if Z.of_nat n <? 6272 then (8%nat, 3%nat, [1; 2; 3; 4]%nat)
  else if Z.of_nat n <? 750000 then (128%nat, 5%nat, [4; 5; 6; 7; 8; 9]%nat)
  else (Z.to_nat 10000, 6%nat, [10; 11; 12; 13; 14; 15; 16]%nat).

(** [partition_point] of sorted thresholds is the number of those that hold. *)
Definition longest_run_category (thresholds : list nat) (k longest : nat) : nat :=
  (length (filter (λ t, t ≤ longest)%nat thresholds) - 1) `min` k.

Definition longest_run_nu (bits : list Z) : list Z :=
  let '(m, k, thresholds) := longest_run_parameters (length bits) in
  foldl (λ nu j,
    let block := slice (j * m) ((j + 1) * m) bits in
    alter (Z.add 1) (longest_run_category thresholds k (longest_run block)) nu)
    (replicate (k + 1) 0) (seq 0 (length bits / m)).

(** ** Last occurrences (Maurer) *)

Definition maurer_pattern (bits : list Z) (L i : nat) : nat :=
  Z.to_nat (bits_to_usize (slice (i * L) ((i + 1) * L) bits)).

(** [t[pat] = i + 1]. *)
Definition maurer_mark (pat i : nat) (t : list nat) : outcome no_error (list nat) :=
  _ ← expect PanicBounds (t !! pat); Ok (<[pat := (i + 1)%nat]> t).

(** The loop that fills the table: [todo] rounds from [i]. *)
Fixpoint maurer_fill (bits : list Z) (L i todo : nat) (t : list nat) : outcome no_error (list nat) :=
  match todo with
  | O => Ok t
  | S todo => t' ← maurer_mark (maurer_pattern bits L i) i t; maurer_fill bits L (S i) todo t'
  end.

(** The loop that sums: the distances whose logarithms it adds. *)
Fixpoint maurer_sum (bits : list Z) (L i todo : nat) (t : list nat) : outcome no_error (list nat) :=
  match todo with
  | O => Ok []
  | S todo =>
      let pat := maurer_pattern bits L i in
      last ← expect PanicBounds (t !! pat);
      _ ← (if bool_decide (i + 1 < last)%nat then Panic PanicOverflow else Ok tt);
      t' ← maurer_mark pat i t;
      ds ← maurer_sum bits L (S i) todo t';
      Ok ((i + 1 - last)%nat :: ds)
  end.

(** Without blocks beyond the first [Q] the test fails at once. *)
Definition maurer_distances (bits : list Z) (L Q : nat) : outcome no_error (list nat) :=
  let k := (length bits / L)%nat in
  if bool_decide (k ≤ Q)%nat then Ok []
  else
    t ← maurer_fill bits L 0 Q (replicate (2 ^ L) 0%nat);
    maurer_sum bits L Q (k - Q) t.

(** ** Matrices of bits *)

Definition fill_row (row_bits : list Z) : Z :=
  foldl (λ row c, if at_ row_bits c =? 1 then Z.lor row (Z.shiftl 1 (Z.of_nat c)) else row) 0 (seq 0 32).

Definition fill_matrix (bits : list Z) (j : nat) : list Z :=
  let base := (j * 32 * 32)%nat in
  (λ r, fill_row (slice (base + r * 32) (base + r * 32 + 32) bits)) <$> seq 0 32.

(** [(f32, f31, frest)]. *)
Definition rank_tally_step (bits : list Z) (f : Z * Z * Z) (j : nat) : Z * Z * Z :=
  let '(f32, f31, frest) := f in
  let rank := gf2_rank32 (fill_matrix bits j) in
  if bool_decide (rank = 32)%nat then (f32 + 1, f31, frest)
  else if bool_decide (rank = 31)%nat then (f32, f31 + 1, frest)
  else (f32, f31, frest + 1).

Definition rank_tally (bits : list Z) : Z * Z * Z :=
  foldl (rank_tally_step bits) (0, 0, 0) (seq 0 (length bits / (32 * 32))).

(** ** Walks *)

Fixpoint walk_from (s : Z) (bits : list Z) : list Z :=
  s :: match bits with [] => [] | b :: bits => walk_from (s + pm_one b) bits end.

Definition build_walk (bits : list Z) : list Z * nat :=
  let walk := walk_from 0 bits in
  (walk, length (filter (λ s, s = 0) (drop 1 walk))).

(** The loop state [(sum, max_abs)]. *)
Definition cusum_step (st : Z * Z) (b : Z) : Z * Z :=
  let '(sum, max_abs) := st in
  let sum := sum + pm_one b in
  (sum, Z.max max_abs (Z.abs sum)).

Definition cusum_max (bits : list Z) : Z := (foldl cusum_step (0, 0) bits).2.

Definition fwd_z (bits : list Z) : Z := cusum_max bits.
Definition bwd_z (bits : list Z) : Z := cusum_max (reverse bits).

(** ** Excursions *)

Record excursion_state := ExcursionState { in_exc : bool; visits : Z; nu : list Z }.

Definition excursion_step (x : Z) (st : excursion_state) (s : Z) : excursion_state :=
  let '(ExcursionState in_exc visits nu) := st in
  let in_exc := if in_exc then true else negb (s =? 0) in
  if in_exc then
    let visits := if s =? x then visits + 1 else visits in
    if s =? 0 then
      let cat := Z.to_nat (Z.min visits 5) in
      ExcursionState false 0 (alter (Z.add 1) cat nu)
    else ExcursionState in_exc visits nu
  else ExcursionState in_exc visits nu.

Definition excursion_nu (walk : list Z) (x : Z) : list Z :=
  nu (foldl (excursion_step x) (ExcursionState false 0 (replicate 6 0)) (drop 1 walk)).

(** Both excursion tests skip below 500 returns to zero. *)
Definition excursion_counts (bits : list Z) : option (list (Z * list Z)) :=
  let '(walk, j) := build_walk bits in
  if Z.of_nat j <? 500 then None
  else Some ((λ x, (x, excursion_nu walk x)) <$> [-4; -3; -2; -1; 1; 2; 3; 4]).

Definition excursion_variant_counts (bits : list Z) : option (list (Z * nat)) :=
  let '(walk, j) := build_walk bits in
  if Z.of_nat j <? 500 then None
  else Some ((λ x, (x, length (filter (λ s, s = x) walk))) <$> (seqZ (-9) 9 ++ seqZ 1 9)).

Example is_aperiodic_strict : is_aperiodic [0; 1; 0] = false ∧ is_aperiodic [0; 0; 1] = true.
Proof. split; reflexivity. Qed.

Example aperiodic_templates_9 : length (aperiodic_templates 9) = 148%nat.
Proof. vm_compute. reflexivity. Qed.

Example excursion_example :
  excursion_nu (build_walk [1; 0; 0; 1; 1; 1; 0; 0; 1]).1 1 = [1; 1; 1; 0; 0; 0] ∧
  (build_walk [1; 0; 0; 1; 1; 1; 0; 0; 1]).2 = 3%nat.
Proof. split; reflexivity. Qed.

(** ** Templates: what the scan counts *)

(** [tmpl] occurs in [block] at [i]. *)
Definition occurs (tmpl block : list Z) (i : nat) : Prop := slice i (i + length tmpl) block = tmpl.

#[export] Instance occurs_dec tmpl block i : Decision (occurs tmpl block i).
Proof. unfold occurs. apply _. Defined.

Lemma lookup_slice (l : list Z) i j k : (k < j - i)%nat → slice i j l !! k = l !! (i + k)%nat.
Proof. intros Hk. unfold slice. by rewrite lookup_take_lt, lookup_drop. Qed.

Lemma is_aperiodic_true t :
  is_aperiodic t = true ↔
  ∀ p, (1 ≤ p < length t)%nat → ∃ i, (i < length t - p)%nat ∧ at_ t i ≠ at_ t (i + p).
Proof.
  unfold is_aperiodic. rewrite negb_true_iff, <-not_true_iff_false, existsb_exists. split.
  - intros Hn p Hp. destruct (forallb (λ i, at_ t i =? at_ t (i + p)) (seq 0 (length t - p))) eqn:Hb.
    + destruct Hn. exists p. split; [apply in_seq; lia|done].
    + assert (∃ i, In i (seq 0 (length t - p)) ∧ (at_ t i =? at_ t (i + p)) = false) as (i & Hi & Hne).
      { clear Hn Hp. induction (seq 0 (length t - p)) as [|i l IH]; [done|]. cbn in Hb.
        apply andb_false_iff in Hb as [Hb|Hb]; [by exists i; split; [left|]|].
        destruct (IH Hb) as (i' & ? & ?). exists i'. by split; [right|]. }
      exists i. apply in_seq in Hi. split; [lia|]. by apply Z.eqb_neq.
  - intros Hp (p & Hin & Hall). apply in_seq in Hin. destruct (Hp p) as (i & Hi & Hne); [lia|].
    rewrite forallb_forall in Hall. apply Hne, Z.eqb_eq, Hall, in_seq. lia.
Qed.

(** Two occurrences of an aperiodic template are at least its length apart. *)
Lemma aperiodic_apart tmpl block i p :
  is_aperiodic tmpl = true → (1 ≤ p < length tmpl)%nat →
  occurs tmpl block i → ¬ occurs tmpl block (i + p).
Proof.
  intros Ha Hp Hi Hip. apply is_aperiodic_true with (p := p) in Ha as (k & Hk & Hne); [|done].
  apply Hne. unfold at_. f_equal. rewrite <-Hip at 1. rewrite <-Hi at 2.
  rewrite !lookup_slice by lia. f_equal. lia.
Qed.

Definition occurrences (tmpl block : list Z) (i : nat) : nat :=
  length (filter (occurs tmpl block) (seq i (length block + 1 - length tmpl - i))).

Lemma occurrences_miss tmpl block i :
  ¬ occurs tmpl block i → occurrences tmpl block i = occurrences tmpl block (S i).
Proof.
  intros Hi. unfold occurrences.
  destruct (length block + 1 - length tmpl - i)%nat as [|k] eqn:Hk.
  - by replace (length block + 1 - length tmpl - S i)%nat with 0%nat by lia.
  - replace (length block + 1 - length tmpl - S i)%nat with k by lia. cbn [seq].
    by rewrite filter_cons_False.
Qed.

Lemma occurrences_hit tmpl block i :
  is_aperiodic tmpl = true → (1 ≤ length tmpl)%nat → (i + length tmpl ≤ length block)%nat →
  occurs tmpl block i → occurrences tmpl block i = S (occurrences tmpl block (i + length tmpl)).
Proof.
  intros Ha Hm Hle Hi. unfold occurrences.
  set (m := length tmpl) in *. set (k := (length block + 1 - m - i)%nat).
  assert (seq i k = i :: seq (S i) ((m `min` k) - 1) ++ seq (i + m) (length block + 1 - m - (i + m))) as ->.
  { replace k with (S ((m `min` k - 1) + (length block + 1 - m - (i + m))))%nat at 1 by lia.
    cbn [seq]. f_equal. rewrite seq_app. f_equal.
    destruct (decide (m ≤ k)%nat); [f_equal; lia|].
    by replace (length block + 1 - m - (i + m))%nat with 0%nat by lia. }
  rewrite filter_cons_True by done. rewrite filter_app, (filter_none _ (seq (S i) _)); [done|].
  apply Forall_forall. intros x Hx%elem_of_seq. replace x with (i + (x - i))%nat by lia.
  apply aperiodic_apart; [done|lia|done].
Qed.

(** The scan is exact on aperiodic templates: although it jumps over the
    template's length at every match, [count_notm] returns the number of all
    positions at which the template occurs, and it terminates on every block. *)
Theorem count_notm_aperiodic block tmpl :
  is_aperiodic tmpl = true → (1 ≤ length tmpl)%nat → Z.of_nat (length block) < 2 ^ 62 →
  count_notm block tmpl =
    Ok (length (filter (occurs tmpl block) (seq 0 (length block + 1 - length tmpl)))).
Proof.
  intros Ha Hm Hlen. unfold count_notm.
  set (total := length (filter _ _)).
  assert (occurrences tmpl block 0 = total) as H0 by (unfold occurrences, total; by rewrite Nat.sub_0_r).
  apply (while_loop_total 64 (notm_step block tmpl)
    (λ st, (st.1 + occurrences tmpl block st.2 = total ∧ st.2 ≤ length block)%nat)
    (λ st, Z.of_nat (length block - st.2)) (λ r, r = Ok total)).
  - intros [count i] [Hc Hi]. cbn [fst snd] in *. unfold notm_step.
    destruct (decide (i + length tmpl ≤ length block)%nat) as [Hle|Hgt].
    + rewrite bool_decide_eq_true_2 by done. case_bool_decide as Ho; cbn [fst snd].
      * rewrite occurrences_hit in Hc by done. lia.
      * rewrite occurrences_miss in Hc by done. lia.
    + rewrite bool_decide_eq_false_2 by done. f_equal. unfold occurrences in Hc.
      replace (length block + 1 - length tmpl - i)%nat with 0%nat in Hc by lia. cbn in Hc. lia.
  - cbn [fst snd]. lia.
  - intros st' [_ ?]. lia.
  - cbn [fst snd]. lia.
Qed.

Lemma count_notm_aperiodic_witness :
  let block := [0; 0; 1; 0; 0; 0; 1; 1; 0; 0; 1] in
  is_aperiodic [0; 0; 1] = true ∧ count_notm block [0; 0; 1] = Ok 3%nat ∧
  count_notm block [0; 0; 1] = Ok (length (filter (occurs [0; 0; 1] block) (seq 0 9))).
Proof.
  intros block. split; [reflexivity|]. split; [vm_compute; reflexivity|].
  apply (count_notm_aperiodic block [0; 0; 1]); [reflexivity|cbn; lia|cbn; lia].
Defined.

(** ** Patterns: what the rolling window counts *)

Definition value (b : list Z) : Z := foldl (λ acc bit, 2 * acc + bit) 0 b.

(** The [m] bits from [i] on, wrapping around. *)
Definition circular_window (bits : list Z) (i m : nat) : list Z :=
  (λ k, at_ bits ((i + k) mod length bits)) <$> seq 0 m.

Lemma lor_shiftl_bit a b : bit b → Z.lor (Z.shiftl a 1) b = 2 * a + b.
Proof.
  intros Hb. rewrite Z.shiftl_mul_pow2 by lia. change (2 ^ 1) with 2. destruct Hb as [-> | ->].
  - rewrite Z.lor_0_r. lia.
  - pose proof (Z.add_lor_land (a * 2) 1) as Heq.
    assert (Z.land (a * 2) (Z.ones 1) = 0) as H0 by (rewrite Z.land_ones by lia; by apply Z.mod_mul).
    change (Z.ones 1) with 1 in H0. lia.
Qed.

Lemma bits_to_usize_value b : Forall bit b → bits_to_usize b = value b.
Proof.
  unfold bits_to_usize, value. generalize 0 as acc. induction b as [|x b IH]; intros acc Hb; [done|].
  apply Forall_cons in Hb as [Hx Hb]. cbn. by rewrite IH, lor_shiftl_bit.
Qed.

Lemma value_app a x : value (a ++ [x]) = 2 * value a + x.
Proof. unfold value. by rewrite foldl_app. Qed.

Lemma value_cons x a : value (x :: a) = x * 2 ^ Z.of_nat (length a) + value a.
Proof.
  induction a as [|y a IH] using rev_ind; [cbn; lia|].
  rewrite app_comm_cons, !value_app, IH, length_app. cbn [length].
  rewrite Nat2Z.inj_add, Z.pow_add_r by lia. change (2 ^ Z.of_nat 1) with 2. lia.
Qed.

Lemma value_range a : Forall bit a → 0 ≤ value a < 2 ^ Z.of_nat (length a).
Proof.
  induction 1 as [|x a [-> | ->] _ IH]; [cbn; lia|..]; rewrite value_cons; cbn [length];
    rewrite Nat2Z.inj_succ, Z.pow_succ_r by lia; lia.
Qed.

Lemma length_circular_window bits i m : length (circular_window bits i m) = m.
Proof. unfold circular_window. by rewrite length_fmap, length_seq. Qed.

Lemma circular_window_bits bits i m : Forall bit bits → Forall bit (circular_window bits i m).
Proof. intros Hb. apply Forall_fmap, Forall_true. intros k. by apply at_bit. Qed.

Lemma circular_window_snoc bits i m :
  circular_window bits i (S m) = circular_window bits i m ++ [at_ bits ((i + m) mod length bits)].
Proof. unfold circular_window. by rewrite seq_S, fmap_app. Qed.

Lemma circular_window_cons bits i m :
  circular_window bits i (S m) = at_ bits (i mod length bits) :: circular_window bits (S i) m.
Proof.
  unfold circular_window. cbn. rewrite Nat.add_0_r. f_equal. rewrite <-seq_shift, <-list_fmap_compose.
  apply list_fmap_ext. intros k x _. cbn. f_equal. f_equal. lia.
Qed.

Lemma circular_window_prefix bits m :
  (m ≤ length bits)%nat → circular_window bits 0 m = take m bits.
Proof.
  intros Hm. apply list_eq. intros k. destruct (decide (k < m)%nat) as [Hk|Hk].
  - unfold circular_window. rewrite list_lookup_fmap, lookup_seq_lt, lookup_take_lt by done. cbn.
    by rewrite Nat.mod_small, lookup_at by lia.
  - rewrite !lookup_ge_None_2; [done|rewrite length_take; lia|rewrite length_circular_window; lia].
Qed.

(** One round turns the low [m - 1] bits of a window into the next window. *)
Lemma pattern_step_window bits m i pat counts :
  Forall bit bits → (1 ≤ m)%nat →
  pat mod 2 ^ Z.of_nat (m - 1) = value (circular_window bits i (m - 1)) →
  let p := value (circular_window bits i m) in
  pattern_step bits m (pat, counts) i = (p, alter (Z.add 1) (Z.to_nat p) counts) ∧
  p mod 2 ^ Z.of_nat (m - 1) = value (circular_window bits (S i) (m - 1)).
Proof.
  intros Hb Hm Hpat p. destruct m as [|m]; [lia|]. rewrite Nat.sub_succ, Nat.sub_0_r in *.
  pose proof (value_range _ (circular_window_bits bits i (S m) Hb)) as Hp.
  rewrite length_circular_window in Hp. fold p in Hp.
  assert (p = 2 * (pat mod 2 ^ Z.of_nat m) + at_ bits ((i + m) mod length bits)) as Heq.
  { unfold p. by rewrite circular_window_snoc, value_app, Hpat. }
  split.
  - unfold pattern_step. rewrite Z.shiftl_1_l.
    replace (2 ^ Z.of_nat (S m) - 1) with (Z.ones (Z.of_nat (S m))) by (rewrite Z.ones_equiv; lia).
    rewrite Z.land_ones, lor_shiftl_bit by (lia || by apply at_bit).
    replace (i + S m - 1)%nat with (i + m)%nat by lia.
    assert ((2 * pat + at_ bits ((i + m) mod length bits)) mod 2 ^ Z.of_nat (S m) = p) as ->; [|done].
    rewrite <-(Z.mod_small p (2 ^ Z.of_nat (S m))) by done. rewrite Heq.
    rewrite (Z.div_mod pat (2 ^ Z.of_nat m)) at 1 by lia.
    rewrite Nat2Z.inj_succ, Z.pow_succ_r by lia.
    match goal with |- (2 * (?a * ?q + ?r) + ?b) mod ?d = _ =>
      replace (2 * (a * q + r) + b) with (2 * r + b + q * d) by lia end.
    apply Z.mod_add. lia.
  - unfold p. rewrite circular_window_cons, value_cons, length_circular_window, Z.add_comm, Z.mod_add by lia.
    apply Z.mod_small. pose proof (value_range _ (circular_window_bits bits (S i) m Hb)) as Hr.
    by rewrite length_circular_window in Hr.
Qed.

(** Tallying with [alter] counts. *)
Lemma tally_lookup {A} (f : A → nat) (l : list A) (counts : list Z) p c :
  counts !! p = Some c →
  (foldl (λ counts a, alter (Z.add 1) (f a) counts) counts l : list Z) !! p =
    Some (c + Z.of_nat (length (filter (λ a, f a = p) l))).
Proof.
  revert counts c. induction l as [|a l IH]; intros counts c Hc; cbn [foldl].
  - rewrite Hc. cbn. f_equal. lia.
  - destruct (decide (f a = p)) as [Heq|Hne].
    + rewrite (IH _ (1 + c)) by (by rewrite Heq, list_lookup_alter_eq, Hc).
      rewrite filter_cons_True by done. cbn [length]. f_equal. lia.
    + rewrite (IH _ c) by (by rewrite list_lookup_alter_ne). by rewrite filter_cons_False.
Qed.

Lemma pattern_loop bits m n i pat counts :
  Forall bit bits → (1 ≤ m)%nat →
  pat mod 2 ^ Z.of_nat (m - 1) = value (circular_window bits i (m - 1)) →
  (foldl (pattern_step bits m) (pat, counts) (seq i n)).2 =
  foldl (λ counts i, alter (Z.add 1) (Z.to_nat (value (circular_window bits i m))) counts) counts (seq i n).
Proof.
  intros Hb Hm. revert i pat counts. induction n as [|n IH]; intros i pat counts Hpat; [done|].
  cbn [seq foldl]. destruct (pattern_step_window bits m i pat counts Hb Hm Hpat) as [-> Hp].
  by apply IH.
Qed.

(** The rolling pattern is the circular window: [pattern_counts] returns, for every
    [m]-bit pattern, the number of positions whose window it is. *)
Theorem pattern_counts_correct bits m :
  Forall bit bits → (1 ≤ m)%nat → (m - 1 ≤ length bits)%nat →
  ∃ counts, pattern_counts bits m = Ok counts ∧
    ∀ p, 0 ≤ p < 2 ^ Z.of_nat m →
      counts !! Z.to_nat p =
        Some (Z.of_nat (length (filter (λ i, value (circular_window bits i m) = p) (seq 0 (length bits))))).
Proof.
  intros Hb Hm Hlen. unfold pattern_counts. rewrite index_range_Ok, bind_Ok by lia.
  eexists. split; [done|]. intros p Hp.
  rewrite pattern_loop; [|done|done|].
  - rewrite Z.shiftl_1_l.
    rewrite (tally_lookup _ _ _ _ 0) by (apply lookup_replicate; split; [done|]; lia). f_equal.
    rewrite Z.add_0_l. f_equal. f_equal. apply list_filter_iff. intros i.
    pose proof (value_range _ (circular_window_bits bits i m Hb)) as Hr.
    rewrite length_circular_window in Hr. rewrite Z2Nat.inj_iff by lia. done.
  - unfold slice. rewrite drop_0, Nat.sub_0_r.
    rewrite bits_to_usize_value by (by apply Forall_take). rewrite circular_window_prefix by done.
    apply Z.mod_small. pose proof (value_range (take (m - 1) bits) (Forall_take _ _ _ Hb)) as Hr.
    by rewrite length_take, Nat.min_l in Hr by done.
Qed.

(** ** Runs *)

(** [l] ones from [i] on. *)
Definition ones_at (block : list Z) (i l : nat) : Prop := ∀ k, (k < l)%nat → block !! (i + k)%nat = Some 1.

Record longest_run_inv (block : list Z) (max cur : nat) : Prop := LongestRunInv {
  lr_max : ∃ i, ones_at block i max;
  lr_bound : ∀ i l, ones_at block i l → (l ≤ max)%nat;
  lr_cur : ones_at block (length block - cur) cur;
  lr_cur_le : (cur ≤ length block)%nat;
  lr_tail : ∀ l, (l ≤ length block)%nat → ones_at block (length block - l) l → (l ≤ cur)%nat }.

Lemma ones_at_app block b i l :
  (i + l ≤ length block)%nat → ones_at (block ++ [b]) i l ↔ ones_at block i l.
Proof.
  intros Hl. split; intros H k Hk; specialize (H k Hk); rewrite lookup_app_l in *; auto; lia.
Qed.

Lemma ones_at_inside block i l : ones_at block i l → (0 < l)%nat → (i + l ≤ length block)%nat.
Proof.
  intros H Hl. specialize (H (l - 1)%nat ltac:(lia)). apply lookup_lt_Some in H. lia.
Qed.

Lemma ones_at_snoc block b i l :
  (i + l = length block)%nat → ones_at (block ++ [b]) i (S l) ↔ b = 1 ∧ ones_at block i l.
Proof.
  intros Hl. split.
  - intros H. split.
    + specialize (H l ltac:(lia)). rewrite Hl, lookup_app_r, Nat.sub_diag in H by lia. by injection H.
    + apply (ones_at_app block b); [lia|]. intros k Hk. apply H. lia.
  - intros [-> H] k Hk. destruct (decide (k = l)) as [->|].
    + by rewrite Hl, lookup_app_r, Nat.sub_diag by lia.
    + rewrite lookup_app_l by lia. apply H. lia.
Qed.

Lemma longest_run_step_inv block b max cur :
  longest_run_inv block max cur →
  let '(max', cur') := longest_run_step (max, cur) b in longest_run_inv (block ++ [b]) max' cur'.
Proof.
  intros [[i Hmax] Hbound Hcur Hle Htail]. unfold longest_run_step.
  set (c := if b =? 1 then S cur else 0%nat).
  assert (length (block ++ [b]) = S (length block)) as Hlen by (rewrite length_app; cbn; lia).
  assert (c ≤ S (length block))%nat as Hc by (unfold c; case_match; lia).
  assert (ones_at (block ++ [b]) (S (length block) - c) c) as Hcur'.
  { unfold c. destruct (Z.eqb_spec b 1) as [->|]; [|intros k Hk; lia].
    apply ones_at_snoc; [lia|]. split; [done|]. by rewrite Nat.sub_succ. }
  assert (∀ l, (l ≤ S (length block))%nat → ones_at (block ++ [b]) (S (length block) - l) l → (l ≤ c)%nat) as Htail'.
  { intros [|l] Hl H; [lia|]. rewrite Nat.sub_succ in H. apply ones_at_snoc in H as [-> H]; [|lia].
    apply Htail in H; [|lia]. unfold c. cbn. lia. }
  split; rewrite ?Hlen; auto.
  - destruct (decide (max ≤ c)%nat); [rewrite Nat.max_r by lia; eauto|]. rewrite Nat.max_l by lia.
    exists i. apply ones_at_app; [|done]. apply ones_at_inside; [done|lia].
  - intros i' [|l] H; [lia|]. pose proof (ones_at_inside _ _ _ H ltac:(lia)) as Hin. rewrite Hlen in Hin.
    destruct (decide (i' + S l = S (length block))%nat) as [Heq|Hne].
    + transitivity c; [|lia]. apply Htail'; [lia|]. by replace (S (length block) - S l)%nat with i' by lia.
    + transitivity max; [|lia]. apply (Hbound i'). apply (ones_at_app block b); [lia|done].
Qed.

(** [longest_run] is the length of the longest run of ones. *)
Theorem longest_run_correct block :
  (∃ i, ones_at block i (longest_run block)) ∧ ∀ i l, ones_at block i l → (l ≤ longest_run block)%nat.
Proof.
  assert (let '(max, cur) := foldl longest_run_step (0, 0)%nat block in longest_run_inv block max cur) as H.
  { induction block as [|b block IH] using rev_ind.
    - split; try (cbn; lia); [exists 0%nat; intros k Hk; lia| |intros k Hk; lia].
      intros i [|l] H; [lia|]. by specialize (H 0%nat ltac:(lia)).
    - rewrite foldl_app. cbn [foldl]. destruct (foldl longest_run_step (0, 0)%nat block) as [max cur].
      by apply longest_run_step_inv. }
  unfold longest_run. destruct (foldl longest_run_step _ block) as [max cur]. cbn [fst].
  destruct H. done.
Qed.

(** ** Walks *)

Lemma monobit_sum_acc bits s : foldl Z.add s (pm_one <$> bits) = s + monobit_sum bits.
Proof.
  unfold monobit_sum. revert s. induction bits as [|b bits IH]; intros s; cbn; [lia|].
  rewrite IH, (IH (0 + pm_one b)). lia.
Qed.

Lemma monobit_sum_cons b bits : monobit_sum (b :: bits) = pm_one b + monobit_sum bits.
Proof. apply (monobit_sum_acc bits (pm_one b)). Qed.

(** The walk at [k] is the monobit sum of the first [k] bits. *)
Lemma walk_from_lookup s bits k :
  (k ≤ length bits)%nat → walk_from s bits !! k = Some (s + monobit_sum (take k bits)).
Proof.
  revert s k. induction bits as [|b bits IH]; intros s [|k] Hk; cbn [length] in Hk; try lia;
    [cbn; f_equal; lia..|].
  cbn [walk_from lookup list_lookup take]. rewrite monobit_sum_cons. change (list_lookup k ?l) with (l !! k).
  rewrite IH by lia. f_equal. lia.
Qed.

Lemma length_walk_from s bits : length (walk_from s bits) = S (length bits).
Proof. revert s. induction bits as [|b bits IH]; intros s; [done|]. cbn. by rewrite IH. Qed.

Lemma cusum_loop bits sum max_abs :
  0 ≤ max_abs →
  let '(sum', max') := foldl cusum_step (sum, max_abs) bits in
  sum' = sum + monobit_sum bits ∧
  max' = foldl Z.max max_abs (Z.abs <$> drop 1 (walk_from sum bits)).
Proof.
  revert sum max_abs. induction bits as [|b bits IH]; intros sum max_abs Hm; [cbn; split; [unfold monobit_sum; cbn; lia|done]|].
  cbn [foldl cusum_step]. specialize (IH (sum + pm_one b) (Z.max max_abs (Z.abs (sum + pm_one b))) ltac:(lia)).
  destruct (foldl cusum_step _ bits) as [sum' max']. destruct IH as [-> ->]. split.
  - rewrite monobit_sum_cons. lia.
  - cbn [walk_from drop]. by destruct bits.
Qed.

(** The forward statistic is the largest distance of the walk from its start, the
    backward one that of the reversed bits. *)
Lemma cusum_max_walk bits :
  cusum_max bits = foldl Z.max 0 (Z.abs <$> drop 1 (build_walk bits).1).
Proof.
  unfold cusum_max, build_walk. pose proof (cusum_loop bits 0 0 ltac:(lia)) as H.
  destruct (foldl cusum_step (0, 0) bits) as [sum max]. by destruct H as [_ ->].
Qed.

(** ** Excursions: one count per cycle of the walk *)

(** The cycles of a walk, each up to and with its return to zero; an unfinished last
    one is dropped. *)
Fixpoint cycles (cur : list Z) (walk : list Z) : list (list Z) :=
  match walk with
  | [] => []
  | s :: walk => if bool_decide (s = 0) then (cur ++ [s]) :: cycles [] walk else cycles (cur ++ [s]) walk
  end.

Definition visits_of (x : Z) (cycle : list Z) : nat := length (filter (λ s, s = x) cycle).

Definition bucket (x : Z) (cycle : list Z) : nat := visits_of x cycle `min` 5.

Lemma length_cycles cur walk : length (cycles cur walk) = length (filter (λ s, s = 0) walk).
Proof.
  revert cur. induction walk as [|s walk IH]; intros cur; [done|]. cbn [cycles]. case_bool_decide as Hs.
  - rewrite filter_cons_True by done. cbn [length]. by rewrite IH.
  - by rewrite filter_cons_False.
Qed.

Lemma visits_of_snoc x cur s :
  visits_of x (cur ++ [s]) = (visits_of x cur + if decide (s = x) then 1 else 0)%nat.
Proof.
  unfold visits_of. rewrite filter_app, length_app. f_equal. case_decide.
  - by rewrite filter_cons_True.
  - by rewrite filter_cons_False.
Qed.

Lemma pm_one_cases b : pm_one b = 1 ∨ pm_one b = -1.
Proof. unfold pm_one. case_match; auto. Qed.

Lemma excursion_loop x bits prev cur tally :
  (cur = [] → prev = 0) →
  nu (foldl (excursion_step x) (ExcursionState (bool_decide (cur ≠ [])) (Z.of_nat (visits_of x cur)) tally)
        (drop 1 (walk_from prev bits))) =
  foldl (λ tally c, alter (Z.add 1) (bucket x c) tally) tally (cycles cur (drop 1 (walk_from prev bits))).
Proof.
  revert prev cur tally. induction bits as [|b bits IH]; intros prev cur tally Hcur; [done|].
  cbn [walk_from drop]. set (s := prev + pm_one b).
  assert (∃ rest, walk_from s bits = s :: rest ∧ drop 1 (walk_from s bits) = rest) as (rest & Hw & Hd)
    by (destruct bits; eauto).
  rewrite Hw, drop_0, <-Hd. cbn [foldl cycles].
  assert (excursion_step x (ExcursionState (bool_decide (cur ≠ [])) (Z.of_nat (visits_of x cur)) tally) s =
    if bool_decide (s = 0) then ExcursionState false 0 (alter (Z.add 1) (bucket x (cur ++ [s])) tally)
    else ExcursionState true (Z.of_nat (visits_of x (cur ++ [s]))) tally) as ->.
  { unfold excursion_step, bucket. rewrite !visits_of_snoc.
    assert ((if bool_decide (cur ≠ []) then true else negb (s =? 0)) = true) as ->.
    { destruct cur as [|c cur]; [|done]. specialize (Hcur eq_refl). cbn. apply negb_true_iff, Z.eqb_neq.
      destruct (pm_one_cases b); lia. }
    destruct (decide (s = x)) as [->|Hx].
    - rewrite Z.eqb_refl. destruct (Z.eqb_spec x 0); case_bool_decide; try done; repeat f_equal; lia.
    - rewrite (proj2 (Z.eqb_neq s x)) by done.
      destruct (Z.eqb_spec s 0); case_bool_decide; try done; repeat f_equal; lia. }
  case_bool_decide as Hs0.
  - apply (IH s []). done.
  - specialize (IH s (cur ++ [s]) tally). rewrite bool_decide_eq_true_2 in IH by (by destruct cur).
    apply IH. by destruct cur.
Qed.

(** For every bit string and state [x]: [nu[k]] is the number of cycles of the walk
    with [k] visits to [x], five standing for five or more, and there are as many
    cycles as the walk has returns to zero, so the six counts add up to [J]. *)
Theorem excursion_nu_correct bits x :
  let '(walk, j) := build_walk bits in
  let cs := cycles [] (drop 1 walk) in
  length cs = j ∧
  (∀ k, (k < 6)%nat →
    excursion_nu walk x !! k = Some (Z.of_nat (length (filter (λ c, bucket x c = k) cs)))) ∧
  Z.of_nat j = foldr Z.add 0 (Z.of_nat <$> ((λ k, length (filter (λ c, bucket x c = k) cs)) <$> seq 0 6)).
Proof.
  unfold build_walk. set (cs := cycles [] _). cbv zeta. split_and!.
  - apply length_cycles.
  - intros k Hk. unfold excursion_nu.
    pose proof (excursion_loop x bits 0 [] (replicate 6 0) (λ _, eq_refl)) as Hl.
    rewrite bool_decide_eq_false_2 in Hl by naive_solver. change (visits_of x []) with 0%nat in Hl.
    change (Z.of_nat 0) with 0 in Hl. rewrite Hl. fold cs.
    by rewrite (tally_lookup _ _ _ _ 0) by (by apply lookup_replicate).
  - rewrite <-(length_cycles []). fold cs. clearbody cs. induction cs as [|c cs IH]; [done|].
    cbn [length]. rewrite Nat2Z.inj_succ, IH. assert (bucket x c < 6)%nat as Hb by (unfold bucket; lia).
    cbn [seq fmap list_fmap foldr]. rewrite !filter_cons.
    destruct (bucket x c) as [|[|[|[|[|[|?]]]]]]; [..|lia]; cbn [decide]; repeat case_decide; try done; cbn [length]; lia.
Qed.

(** ** Last occurrences *)

(** One more than the last index below [i] at which [f] is [p], or zero. *)
Fixpoint last_occurrence (f : nat → nat) (p i : nat) : nat :=
  match i with
  | O => 0
  | S j => if bool_decide (f j = p) then S j else last_occurrence f p j
  end.

Lemma last_occurrence_le f p i : (last_occurrence f p i ≤ i)%nat.
Proof. induction i as [|i IH]; cbn; [lia|]. case_bool_decide; lia. Qed.

Definition maurer_table (f : nat → nat) (L i : nat) (t : list nat) : Prop :=
  length t = (2 ^ L)%nat ∧ ∀ p, (p < 2 ^ L)%nat → t !! p = Some (last_occurrence f p i).

Lemma maurer_pattern_lt bits L i : Forall bit bits → (maurer_pattern bits L i < 2 ^ L)%nat.
Proof.
  intros Hb. unfold maurer_pattern. rewrite bits_to_usize_value by (by apply Forall_take, Forall_drop).
  set (w := slice _ _ _).
  assert (Forall bit w) as Hw by (by apply Forall_take, Forall_drop).
  assert (length w ≤ L)%nat as Hl by (unfold w, slice; rewrite length_take; lia).
  apply value_range in Hw. assert (2 ^ Z.of_nat (length w) ≤ 2 ^ Z.of_nat L) by (apply Z.pow_le_mono_r; lia).
  apply Nat2Z.inj_lt. rewrite Z2Nat.id, Nat2Z.inj_pow by lia. lia.
Qed.

Lemma maurer_mark_spec f L i t :
  (f i < 2 ^ L)%nat → maurer_table f L i t →
  ∃ t', maurer_mark (f i) i t = Ok t' ∧ maurer_table f L (S i) t'.
Proof.
  intros Hlt [Hlen Ht]. unfold maurer_mark. rewrite Ht by done. cbn [expect]. rewrite bind_Ok.
  eexists. split; [done|]. split; [by rewrite length_insert|]. intros p Hp. cbn. case_bool_decide as Hfp.
  - rewrite <-Hfp, list_lookup_insert_eq by lia. f_equal. lia.
  - by rewrite list_lookup_insert_ne, Ht.
Qed.

(** The distance from block [i] to the last block with its pattern. *)
Definition previous_distance (bits : list Z) (L i : nat) : nat :=
  (i + 1 - last_occurrence (maurer_pattern bits L) (maurer_pattern bits L i) i)%nat.

Section maurer.
Context (bits : list Z) (L : nat) (Hb : Forall bit bits).

Lemma maurer_fill_spec i todo t :
  maurer_table (maurer_pattern bits L) L i t → ∃ t', maurer_fill bits L i todo t = Ok t' ∧ maurer_table (maurer_pattern bits L) L (i + todo) t'.
Proof using Hb.
  revert i t. induction todo as [|todo IH]; intros i t Ht; cbn [maurer_fill].
  - exists t. by rewrite Nat.add_0_r.
  - destruct (maurer_mark_spec (maurer_pattern bits L) L i t (maurer_pattern_lt bits L i Hb) Ht) as (t' & -> & Ht').
    rewrite bind_Ok. destruct (IH (S i) t' Ht') as (t'' & -> & ?). exists t''. by rewrite Nat.add_succ_r.
Qed.

Lemma maurer_sum_spec i todo t :
  maurer_table (maurer_pattern bits L) L i t →
  maurer_sum bits L i todo t = Ok (previous_distance bits L <$> seq i todo).
Proof using Hb.
  revert i t. induction todo as [|todo IH]; intros i t Ht; cbn [maurer_sum]; [done|].
  pose proof (maurer_pattern_lt bits L i Hb) as Hlt.
  destruct (maurer_mark_spec (maurer_pattern bits L) L i t Hlt Ht) as (t' & Hm & Ht').
  destruct Ht as [_ Ht]. rewrite Ht by done. cbn [expect]. rewrite bind_Ok.
  pose proof (last_occurrence_le (maurer_pattern bits L) (maurer_pattern bits L i) i).
  rewrite bool_decide_eq_false_2, bind_Ok, Hm, bind_Ok by lia. by rewrite (IH _ _ Ht'), bind_Ok.
Qed.

(** The table look-ups never go out of range and the differences never underflow;
    what is summed is, for each block after the first [Q], the distance to the last
    block with the same pattern, or its own index plus one when there is none. *)
Theorem maurer_distances_correct Q :
  maurer_distances bits L Q =
    Ok (previous_distance bits L <$> seq Q (length bits / L - Q)) ∧
  ∀ i, (1 ≤ previous_distance bits L i)%nat.
Proof using Hb.
  split; [|intros i; unfold previous_distance;
    pose proof (last_occurrence_le (maurer_pattern bits L) (maurer_pattern bits L i) i); lia].
  unfold maurer_distances. cbv zeta. case_bool_decide as Hk.
  { by replace (length bits / L - Q)%nat with 0%nat by lia. }
  destruct (maurer_fill_spec 0 Q (replicate (2 ^ L) 0%nat)) as (t & -> & Ht).
  { split; [by rewrite length_replicate|]. intros p Hp. by apply lookup_replicate. }
  rewrite bind_Ok. by apply maurer_sum_spec.
Qed.
End maurer.

(** ** Reversed indices *)

Lemma bit_rev_iter x k :
  let '(r, x') := Nat.iter k (λ '(r, x), (Z.lor (Z.shiftl r 1) (Z.land x 1), Z.shiftr x 1)) (0, x) in
  x' = Z.shiftr x (Z.of_nat k) ∧
  ∀ i, 0 ≤ i → Z.testbit r i = (i <? Z.of_nat k) && Z.testbit x (Z.of_nat k - 1 - i).
Proof.
  induction k as [|k IH].
  - split; [by rewrite Z.shiftr_0_r|]. intros i Hi. rewrite Z.testbit_0_l.
    by rewrite (proj2 (Z.ltb_ge i _)) by lia.
  - cbn [Nat.iter nat_rect]. unfold Nat.iter in IH. destruct (nat_rect _ _ _ k) as [r x']. destruct IH as [-> IH].
    rewrite Nat2Z.inj_succ. split; [rewrite Z.shiftr_shiftr by lia; f_equal; lia|].
    intros i Hi. rewrite Z.lor_spec, Z.land_spec, Z.shiftr_spec by done.
    destruct (decide (i = 0)) as [->|Hne].
    + rewrite Z.shiftl_spec_low by lia. rewrite (proj2 (Z.ltb_lt 0 _)) by lia. cbn.
      rewrite andb_true_r. f_equal. lia.
    + rewrite Z.shiftl_spec, IH by lia. change 1 with (Z.ones 1) at 4.
      rewrite (Z.ones_spec_high 1) by lia. rewrite andb_false_r, orb_false_r. f_equal; [|f_equal; lia].
      apply eq_true_iff_eq. rewrite !Z.ltb_lt. lia.
Qed.

(** [bit_rev] reverses the low [bits] bits. *)
Lemma bit_rev_testbit x bits i :
  0 ≤ bits → 0 ≤ i → Z.testbit (bit_rev x bits) i = (i <? bits) && Z.testbit x (bits - 1 - i).
Proof.
  intros Hb Hi. unfold bit_rev. pose proof (bit_rev_iter x (Z.to_nat bits)) as H.
  destruct (Nat.iter _ _ _) as [r x']. destruct H as [_ H]. cbn [fst]. rewrite H, Z2Nat.id by done. done.
Qed.

Theorem bit_rev_involutive x bits : 0 ≤ bits → 0 ≤ x < 2 ^ bits → bit_rev (bit_rev x bits) bits = x.
Proof.
  intros Hb Hx. apply Z.bits_inj'. intros i Hi. rewrite bit_rev_testbit by done.
  destruct (Z.ltb_spec i bits) as [Hlt|Hge]; cbn [andb].
  - rewrite bit_rev_testbit, (proj2 (Z.ltb_lt _ _)) by lia. cbn [andb]. f_equal. lia.
  - rewrite <-(Z.mod_small x (2 ^ bits)) by done. by rewrite Z.mod_pow2_bits_high by lia.
Qed.

(** ** Ranks *)

Definition tally_sum (f : Z * Z * Z) : Z := f.1.1 + f.1.2 + f.2.

Lemma rank_tally_step_sum bits f j : tally_sum (rank_tally_step bits f j) = tally_sum f + 1.
Proof.
  destruct f as [[a b] c]. unfold rank_tally_step, tally_sum.
  generalize (gf2_rank32 (fill_matrix bits j)). intros rank. repeat case_bool_decide; cbn [fst snd]; lia.
Qed.

(** Every matrix is tallied once. *)
Lemma rank_tally_total bits :
  tally_sum (rank_tally bits) = Z.of_nat (length bits / (32 * 32)).
Proof.
  unfold rank_tally.
  assert (∀ l f, tally_sum (foldl (rank_tally_step bits) f l) = tally_sum f + Z.of_nat (length l)) as ->.
  { induction l as [|j l IH]; intros f; cbn [foldl length]; [lia|]. rewrite IH, rank_tally_step_sum. lia. }
  rewrite length_seq. reflexivity.
Qed.
