(* ===== verification/StsFft.v ===== *)
(** * The Fourier transform of the statistical tests ([fft_inplace], [bin/sts.rs])

    The transform is written over any scalars, so that the same definition is the
    code's on floating-point numbers ([StsReal]) and can be compared with the
    discrete Fourier transform over a commutative ring, where sums may be reordered.
    Two arrays hold the real and the imaginary parts. *)
From Stdlib Require Import ZArith Lia Ring.
From stdpp Require Import base tactics option numbers list.
From S2P Require Padding.
From S2P Require Import Prelude Machine StsLinear StsStats.

#[local] Open Scope Z_scope.

(** The operations the transform uses; [twiddle half] is the pair of the cosine and
    the sine of [-PI / half]. *)
Class Scalar (R : Type) := {
  s_zero : R;
  s_one : R;
  s_add : R → R → R;
  s_sub : R → R → R;
  s_mul : R → R → R;
  twiddle : nat → R * R }.

(** [for j in a..b] whose body may panic. *)
Definition for_range {S} (f : nat → S → outcome no_error S) (l : list nat) (s : S) : outcome no_error S :=
  foldl (λ acc j, s ← acc; f j s) (Ok s) l.

Lemma bits_small x k : 0 ≤ k → (∀ i, k ≤ i → Z.testbit x i = false) → 0 ≤ x < 2 ^ k.
Proof.
  intros Hk Hb. assert (x = x mod 2 ^ k) as ->; [|apply Z.mod_pos_bound; lia].
  apply Z.bits_inj'. intros i Hi. destruct (decide (i < k)).
  - by rewrite Z.mod_pow2_bits_low by lia.
  - rewrite Z.mod_pow2_bits_high by lia. apply Hb. lia.
Qed.

Section fft.
Context {R : Type} `{Scalar R}.

(** [l.swap(i, j)]. *)
Definition swap (i j : nat) (l : list R) : outcome no_error (list R) :=
  a ← expect PanicBounds (l !! i);
  b ← expect PanicBounds (l !! j);
  Ok (<[j := a]> (<[i := b]> l)).

Definition swap_step (log2n : Z) (i : nat) (s : list R * list R) : outcome no_error (list R * list R) :=
  let '(re, im) := s in
  let j := Z.to_nat (bit_rev (Z.of_nat i) log2n) in
  if bool_decide (i < j)%nat then re ← swap i j re; im ← swap i j im; Ok (re, im)
  else Ok (re, im).

(** One round of the innermost loop; the state also has [(ur, ui)]. The reads come
    before the writes, at the same indices, so that a write cannot panic first. *)
Definition butterfly (w : R * R) (half i j : nat) (s : list R * list R * (R * R)) :
    outcome no_error (list R * list R * (R * R)) :=
  let '(re, im, (ur, ui)) := s in
  let '(wre, wim) := w in
  are ← expect PanicBounds (re !! (i + j)%nat);
  aim ← expect PanicBounds (im !! (i + j)%nat);
  bre ← expect PanicBounds (re !! (i + j + half)%nat);
  bim ← expect PanicBounds (im !! (i + j + half)%nat);
  let cr := s_sub (s_mul bre ur) (s_mul bim ui) in
  let ci := s_add (s_mul bre ui) (s_mul bim ur) in
  let re := <[(i + j + half)%nat := s_sub are cr]> (<[(i + j)%nat := s_add are cr]> re) in
  let im := <[(i + j + half)%nat := s_sub aim ci]> (<[(i + j)%nat := s_add aim ci]> im) in
  let nu := s_sub (s_mul ur wre) (s_mul ui wim) in
  let ui := s_add (s_mul ur wim) (s_mul ui wre) in
  Ok (re, im, (nu, ui)).

Definition block_step (w : R * R) (half i : nat) (s : list R * list R) : outcome no_error (list R * list R) :=
  r ← for_range (butterfly w half i) (seq 0 half) (s, (s_one, s_zero));
  Ok r.1.

(** [while i < n]; the state is [(i, re, im)]. *)
Definition blocks_step (w : R * R) (n half : nat) (s : nat * (list R * list R)) :
    nat * (list R * list R) + outcome no_error (list R * list R) :=
  let '(i, v) := s in
  if bool_decide (i < n)%nat then
    match block_step w half i v with
    | Ok v => inl ((i + half * 2)%nat, v)
    | Err e => inr (Err e)
    | Panic p => inr (Panic p)
    end
  else inr (Ok v).

Definition stage_blocks (n half : nat) (v : list R * list R) : outcome no_error (list R * list R) :=
  while_loop 64 (blocks_step (twiddle half) n half) (0%nat, v).

(** [while half < n]; the state is [(half, re, im)]. *)
Definition stages_step (n : nat) (s : nat * (list R * list R)) :
    nat * (list R * list R) + outcome no_error (list R * list R) :=
  let '(half, v) := s in
  if bool_decide (half < n)%nat then
    match stage_blocks n half v with
    | Ok v => inl ((half * 2)%nat, v)
    | Err e => inr (Err e)
    | Panic p => inr (Panic p)
    end
  else inr (Ok v).

(** [debug_assert!] is compiled out of the release build. *)
Definition fft_inplace (re im : list R) : outcome no_error (list R * list R) :=
  let n := length re in
  let log2n := Padding.trailing_zeros 64 (Z.of_nat n) in
  v ← for_range (swap_step log2n) (seq 0 n) (re, im);
  while_loop 64 (stages_step n) (1%nat, v).

(** ** The arrays as one function of complex values *)

Definition cadd (a b : R * R) : R * R := (s_add a.1 b.1, s_add a.2 b.2).
Definition csub (a b : R * R) : R * R := (s_sub a.1 b.1, s_sub a.2 b.2).
Definition cmul (a b : R * R) : R * R :=
  (s_sub (s_mul a.1 b.1) (s_mul a.2 b.2), s_add (s_mul a.1 b.2) (s_mul a.2 b.1)).
Definition czero : R * R := (s_zero, s_zero).
Definition cone : R * R := (s_one, s_zero).

Definition array_holds (n : nat) (X : nat → R * R) (v : list R * list R) : Prop :=
  length v.1 = n ∧ length v.2 = n ∧
  ∀ k, (k < n)%nat → v.1 !! k = Some (X k).1 ∧ v.2 !! k = Some (X k).2.

Definition upd (k : nat) (c : R * R) (X : nat → R * R) (j : nat) : R * R :=
  if decide (j = k) then c else X j.

Lemma array_holds_ext n X Y v : (∀ k, (k < n)%nat → X k = Y k) → array_holds n X v → array_holds n Y v.
Proof using Type. intros Heq (H1 & H2 & H3). split_and!; [done..|]. intros k Hk. rewrite <-Heq by done. auto. Qed.

Lemma array_holds_upd n X v k c :
  array_holds n X v → array_holds n (upd k c X) (<[k := c.1]> v.1, <[k := c.2]> v.2).
Proof using Type.
  intros (H1 & H2 & H3). split_and!; cbn [fst snd]; [by rewrite length_insert..|]. intros j Hj. unfold upd.
  destruct (decide (j = k)) as [->|Hne].
  - by rewrite !list_lookup_insert_eq by lia.
  - rewrite !list_lookup_insert_ne by done. auto.
Qed.

(** Lists as such a function. *)
Definition complex_of (re im : list R) (k : nat) : R * R := (default s_zero (re !! k), default s_zero (im !! k)).

Lemma array_holds_complex_of re im : length im = length re → array_holds (length re) (complex_of re im) (re, im).
Proof using Type.
  intros Hl. split_and!; [done..|]. intros k Hk. cbn [fst snd].
  destruct (lookup_lt_is_Some_2 re k Hk) as [a Ha], (lookup_lt_is_Some_2 im k ltac:(lia)) as [b Hb].
  unfold complex_of. by rewrite Ha, Hb.
Qed.

(** ** The reordering *)

Lemma swap_Ok i j (l : list R) a b : l !! i = Some a → l !! j = Some b → swap i j l = Ok (<[j := a]> (<[i := b]> l)).
Proof using Type. intros Ha Hb. unfold swap. by rewrite Ha, Hb. Qed.

Lemma swap_step_holds n X v m i :
  (i < n)%nat → (Z.to_nat (bit_rev (Z.of_nat i) m) < n)%nat → array_holds n X v →
  let j := Z.to_nat (bit_rev (Z.of_nat i) m) in
  ∃ v', swap_step m i v = Ok v' ∧
    array_holds n (if bool_decide (i < j)%nat then upd j (X i) (upd i (X j) X) else X) v'.
Proof using Type.
  intros Hi Hj Hv j. unfold swap_step. destruct v as [re im]. fold j. case_bool_decide as Hlt; [|eauto].
  destruct (proj2 (proj2 Hv) i Hi) as [Ha1 Ha2], (proj2 (proj2 Hv) j Hj) as [Hb1 Hb2]. cbn [fst snd] in *.
  rewrite (swap_Ok i j re _ _ Ha1 Hb1), bind_Ok, (swap_Ok i j im _ _ Ha2 Hb2), bind_Ok.
  eexists. split; [done|]. exact (array_holds_upd n _ _ j (X i) (array_holds_upd n X (re, im) i (X j) Hv)).
Qed.

Lemma for_range_snoc {S} (f : nat → S → outcome no_error S) l j s :
  for_range f (l ++ [j]) s = (s' ← for_range f l s; f j s').
Proof using Type. unfold for_range. by rewrite foldl_app. Qed.

Definition reversed (m k : nat) : nat := Z.to_nat (bit_rev (Z.of_nat k) (Z.of_nat m)).

Lemma reversed_lt m k : (reversed m k < 2 ^ m)%nat.
Proof using Type.
  unfold reversed. apply Nat2Z.inj_lt. rewrite Nat2Z.inj_pow.
  assert (0 ≤ bit_rev (Z.of_nat k) (Z.of_nat m) < 2 ^ Z.of_nat m) as Hb; [|rewrite Z2Nat.id by lia; lia].
  apply bits_small; [lia|]. intros i Hi. rewrite bit_rev_testbit by lia. by rewrite (proj2 (Z.ltb_ge i _)) by lia.
Qed.

Lemma reversed_involutive m k : (k < 2 ^ m)%nat → reversed m (reversed m k) = k.
Proof using Type.
  intros Hk. unfold reversed. rewrite Z2Nat.id.
  - apply Nat2Z.inj_lt in Hk. rewrite Nat2Z.inj_pow in Hk. rewrite bit_rev_involutive; lia.
  - apply Z.bits_iff_nonneg_ex. exists (Z.of_nat m). intros i Hi. rewrite bit_rev_testbit by lia.
    by rewrite (proj2 (Z.ltb_ge i _)) by lia.
Qed.

(** After the first [c] indices: positions whose pair has been visited hold the value
    of their reversed index. *)
Definition swapped (m c : nat) (X : nat → R * R) (k : nat) : R * R :=
  if bool_decide (k `min` reversed m k < c)%nat then X (reversed m k) else X k.

Lemma swapped_step m c X k :
  (c < 2 ^ m)%nat → (k < 2 ^ m)%nat →
  (if bool_decide (c < reversed m c)%nat
   then upd (reversed m c) (swapped m c X c) (upd c (swapped m c X (reversed m c)) (swapped m c X))
   else swapped m c X) k = swapped m (S c) X k.
Proof using Type.
  intros Hc Hk. pose proof (reversed_involutive m c Hc) as Hcc. pose proof (reversed_involutive m k Hk) as Hkk.
  unfold upd, swapped. destruct (decide (k = c)) as [->|Hkc]; [|destruct (decide (k = reversed m c)) as [->|Hkr]].
  - repeat case_bool_decide; repeat case_decide; rewrite ?Hcc in *; try done; try lia; by f_equal; lia.
  - rewrite Hcc. repeat case_bool_decide; repeat case_decide; rewrite ?Hcc in *; try done; try lia; by f_equal; lia.
  - assert (reversed m k ≠ c) by congruence.
    repeat case_bool_decide; repeat case_decide; try done; lia.
Qed.

Lemma swap_loop_holds m X v c :
  (c ≤ 2 ^ m)%nat → array_holds (2 ^ m) X v →
  ∃ v', for_range (swap_step (Z.of_nat m)) (seq 0 c) v = Ok v' ∧ array_holds (2 ^ m) (swapped m c X) v'.
Proof using Type.
  intros Hc Hv. induction c as [|c IH].
  - exists v. split; [done|]. apply (array_holds_ext _ X); [|done]. intros k Hk. unfold swapped.
    by rewrite bool_decide_eq_false_2 by lia.
  - destruct IH as (v1 & Hr & Hv1); [lia|]. rewrite seq_S, for_range_snoc, Hr, bind_Ok.
    destruct (swap_step_holds (2 ^ m) _ v1 (Z.of_nat m) c ltac:(lia) (reversed_lt m c) Hv1) as (v2 & H2 & Hv2).
    exists v2. split; [done|]. revert Hv2. apply array_holds_ext. intros k Hk. apply swapped_step; [lia|done].
Qed.

Lemma swap_loop_reversed m X v :
  array_holds (2 ^ m) X v →
  ∃ v', for_range (swap_step (Z.of_nat m)) (seq 0 (2 ^ m)) v = Ok v' ∧ array_holds (2 ^ m) (λ k, X (reversed m k)) v'.
Proof using Type.
  intros Hv. destruct (swap_loop_holds m X v (2 ^ m) ltac:(lia) Hv) as (v' & Hr & Hv').
  exists v'. split; [done|]. revert Hv'. apply array_holds_ext. intros k Hk. unfold swapped.
  by rewrite bool_decide_eq_true_2 by lia.
Qed.

(** ** The butterflies *)

Fixpoint upow (w : R * R) (k : nat) : R * R :=
  match k with O => cone | S k => cmul (upow w k) w end.

(** The values after the first [c] butterflies of the block at [i]. *)
Definition butterflied (w : R * R) (half i c : nat) (X : nat → R * R) (k : nat) : R * R :=
  if bool_decide (i ≤ k < i + c)%nat then cadd (X k) (cmul (X (k + half)%nat) (upow w (k - i)))
  else if bool_decide (i + half ≤ k < i + half + c)%nat
    then csub (X (k - half)%nat) (cmul (X k) (upow w (k - half - i)))
  else X k.

Lemma butterfly_holds w half i j n X v :
  (i + half * 2 ≤ n)%nat → (j < half)%nat → array_holds n (butterflied w half i j X) v →
  ∃ v', butterfly w half i j (v, upow w j) = Ok (v', upow w (S j)) ∧ array_holds n (butterflied w half i (S j) X) v'.
Proof using Type.
  intros Hn Hj Hv. destruct v as [re im]. destruct (upow w j) as [ur ui] eqn:Hu. destruct w as [wre wim] eqn:Hw.
  set (Y := butterflied _ half i j X) in *.
  destruct (proj2 (proj2 Hv) (i + j)%nat ltac:(lia)) as [Ha1 Ha2].
  destruct (proj2 (proj2 Hv) (i + j + half)%nat ltac:(lia)) as [Hb1 Hb2]. cbn [fst snd] in *.
  assert (Y (i + j)%nat = X (i + j)%nat) as Ha.
  { unfold Y, butterflied. by rewrite !bool_decide_eq_false_2 by lia. }
  assert (Y (i + j + half)%nat = X (i + j + half)%nat) as Hb.
  { unfold Y, butterflied. by rewrite !bool_decide_eq_false_2 by lia. }
  unfold butterfly. rewrite Ha1, Ha2, Hb1, Hb2. cbn [expect]. rewrite !bind_Ok.
  eexists. split; [cbn [upow]; rewrite Hu; done|].
  pose proof (array_holds_upd n _ _ (i + j + half)%nat (csub (Y (i + j)%nat) (cmul (Y (i + j + half)%nat) (ur, ui)))
    (array_holds_upd n _ _ (i + j)%nat (cadd (Y (i + j)%nat) (cmul (Y (i + j + half)%nat) (ur, ui))) Hv)) as Hv'.
  revert Hv'. apply array_holds_ext. intros k Hk. rewrite Ha, Hb. rewrite <-Hu. subst w Y. unfold upd.
  case_decide as H1; [|case_decide as H2]; unfold butterflied.
  - rewrite bool_decide_eq_false_2, bool_decide_eq_true_2 by lia.
    by replace (k - half)%nat with (i + j)%nat by lia; replace (i + j - i)%nat with j by lia; rewrite H1.
  - rewrite bool_decide_eq_true_2 by lia. by rewrite H2; replace (i + j - i)%nat with j by lia.
  - rewrite (bool_decide_ext (i ≤ k < i + S j)%nat (i ≤ k < i + j)%nat) by lia.
    by rewrite (bool_decide_ext (i + half ≤ k < i + half + S j)%nat (i + half ≤ k < i + half + j)%nat) by lia.
Qed.

Lemma block_holds w half i n X v :
  (i + half * 2 ≤ n)%nat → array_holds n X v →
  ∃ v', block_step w half i v = Ok v' ∧ array_holds n (butterflied w half i half X) v'.
Proof using Type.
  intros Hn Hv.
  assert (∀ c, (c ≤ half)%nat → ∃ v',
    for_range (butterfly w half i) (seq 0 c) (v, upow w 0) = Ok (v', upow w c) ∧
    array_holds n (butterflied w half i c X) v') as Hloop.
  { induction c as [|c IH]; intros Hc.
    - exists v. split; [done|]. revert Hv. apply array_holds_ext. intros k Hk. unfold butterflied.
      by rewrite !bool_decide_eq_false_2 by lia.
    - destruct IH as (v1 & Hr & Hv1); [lia|]. rewrite seq_S, for_range_snoc, Hr, bind_Ok.
      by apply butterfly_holds. }
  destruct (Hloop half ltac:(lia)) as (v' & Hr & Hv'). exists v'. split; [|done].
  unfold block_step. change (s_one, s_zero) with (upow w 0). by rewrite Hr.
Qed.

(** One pass over all blocks. *)
Definition stage (w : R * R) (half : nat) (X : nat → R * R) (k : nat) : R * R :=
  let r := (k mod (half * 2))%nat in
  if bool_decide (r < half)%nat then cadd (X k) (cmul (X (k + half)%nat) (upow w r))
  else csub (X (k - half)%nat) (cmul (X k) (upow w (r - half))).

Lemma butterflied_stage w half q X k :
  (q * (half * 2) ≤ k < q * (half * 2) + half * 2)%nat →
  butterflied w half (q * (half * 2)) half X k = stage w half X k.
Proof using Type.
  intros Hk. unfold butterflied, stage.
  assert (k mod (half * 2) = k - q * (half * 2))%nat as -> by (symmetry; apply (Nat.mod_unique _ _ q); lia).
  repeat case_bool_decide; try done; try lia.
  by replace (k - half - q * (half * 2))%nat with (k - q * (half * 2) - half)%nat by lia.
Qed.

Lemma stage_holds n half blocks X v :
  (0 < half)%nat → n = (blocks * (half * 2))%nat → Z.of_nat n < 2 ^ 62 → array_holds n X v →
  ∃ v', stage_blocks n half v = Ok v' ∧ array_holds n (stage (twiddle half) half X) v'.
Proof using Type.
  intros Hh Hn Hbound Hv. set (w := twiddle half). unfold stage_blocks. fold w.
  set (done_ := λ q k, if bool_decide (k < q * (half * 2))%nat then stage w half X k else X k).
  apply (while_loop_total 64 (blocks_step w n half)
    (λ s, ∃ q, (q ≤ blocks)%nat ∧ s.1 = (q * (half * 2))%nat ∧ array_holds n (done_ q) s.2)
    (λ s, Z.of_nat (n - s.1))
    (λ r, ∃ v', r = Ok v' ∧ array_holds n (stage w half X) v')).
  - intros [i s] (q & Hq & Hi & Hs). unfold blocks_step. cbn [fst snd] in *. subst i.
    destruct (decide (q = blocks)) as [->|Hne].
    + rewrite bool_decide_eq_false_2 by lia. exists s. split; [done|]. revert Hs. apply array_holds_ext.
      intros k Hk. unfold done_. by rewrite bool_decide_eq_true_2 by lia.
    + assert (S q * (half * 2) ≤ blocks * (half * 2))%nat as Hle by (apply Nat.mul_le_mono_r; lia).
      rewrite bool_decide_eq_true_2 by lia.
      destruct (block_holds w half (q * (half * 2)) n _ s ltac:(lia) Hs) as (s' & -> & Hs').
      split; [|cbn [fst]; lia]. exists (S q). split_and!; [lia|cbn; lia|]. revert Hs'. apply array_holds_ext. intros k Hk. cbn [snd].
      unfold done_ at 2.
      destruct (decide (q * (half * 2) ≤ k < q * (half * 2) + half * 2)%nat) as [Hin|Hout].
      * rewrite bool_decide_eq_true_2, <-(butterflied_stage w half q X k) by lia.
        unfold butterflied, done_. by repeat case_bool_decide; lia || done.
      * unfold butterflied, done_. by repeat case_bool_decide; lia || done.
  - exists 0%nat. split_and!; [lia|done|]. revert Hv. apply array_holds_ext. intros k Hk. unfold done_.
    by rewrite bool_decide_eq_false_2 by lia.
  - intros s' _. lia.
  - cbn [fst]. lia.
Qed.

(** ** All passes *)

Fixpoint stages (s : nat) (X : nat → R * R) : nat → R * R :=
  match s with O => X | S s => stage (twiddle (2 ^ s)) (2 ^ s) (stages s X) end.

Lemma pow2_split s m : (s ≤ m)%nat → (2 ^ m = 2 ^ (m - s) * 2 ^ s)%nat.
Proof using Type. intros Hs. rewrite <-Nat.pow_add_r. f_equal. lia. Qed.

Lemma pow2_pos s : (0 < 2 ^ s)%nat.
Proof using Type. pose proof (Nat.pow_nonzero 2 s). lia. Qed.

Lemma stages_hold m X v :
  (m < 62)%nat → array_holds (2 ^ m) X v →
  ∃ v', while_loop 64 (stages_step (2 ^ m)) (1%nat, v) = Ok v' ∧ array_holds (2 ^ m) (stages m X) v'.
Proof using Type.
  intros Hm Hv.
  assert (Z.of_nat (2 ^ m) < 2 ^ 62) as Hbound.
  { rewrite Nat2Z.inj_pow. apply Z.pow_lt_mono_r; lia. }
  apply (while_loop_total 64 (stages_step (2 ^ m))
    (λ st, ∃ s, (s ≤ m)%nat ∧ st.1 = (2 ^ s)%nat ∧ array_holds (2 ^ m) (stages s X) st.2)
    (λ st, Z.of_nat (2 ^ m - st.1)) (λ r, ∃ v', r = Ok v' ∧ array_holds (2 ^ m) (stages m X) v')).
  - intros [half st] (s & Hs & Hhalf & Hst). unfold stages_step. cbn [fst snd] in *. subst half.
    destruct (decide (s = m)) as [->|Hne]; [rewrite bool_decide_eq_false_2 by lia; eauto|].
    assert (2 ^ s < 2 ^ m)%nat as Hlt by (apply Nat.pow_lt_mono_r; lia).
    rewrite bool_decide_eq_true_2 by done.
    destruct (stage_holds (2 ^ m) (2 ^ s) (2 ^ (m - S s)) (stages s X) st (pow2_pos s)) as (st' & -> & Hst'); [|done|done|].
    { rewrite (pow2_split (S s) m) by lia. cbn. lia. }
    pose proof (pow2_pos s). cbn [fst snd]. split; [|lia]. exists (S s). split_and!; [lia|cbn; lia|done].
  - exists 0%nat. split_and!; [lia|done|done].
  - intros st' _. lia.
  - cbn [fst]. lia.
Qed.

Lemma trailing_zeros_pow2 m : (m < 62)%nat → Padding.trailing_zeros 64 (Z.of_nat (2 ^ m)) = Z.of_nat m.
Proof using Type. intros Hm. rewrite Nat2Z.inj_pow. apply Padding.trailing_zeros_pow. lia. Qed.

(** On arrays of [2^m] scalars the transform returns, whatever the arithmetic: it
    indexes within the arrays and applies [m] passes to the reordered input. *)
Lemma fft_inplace_stages m re im :
  (m < 62)%nat → length re = (2 ^ m)%nat → length im = (2 ^ m)%nat →
  ∃ v, fft_inplace re im = Ok v ∧ array_holds (2 ^ m) (stages m (λ k, complex_of re im (reversed m k))) v.
Proof using Type.
  intros Hm Hre Him. unfold fft_inplace. rewrite Hre, trailing_zeros_pow2 by done.
  assert (array_holds (2 ^ m) (complex_of re im) (re, im)) as Hv by (rewrite <-Hre; apply array_holds_complex_of; congruence).
  destruct (swap_loop_reversed m _ _ Hv) as (v1 & -> & Hv1). rewrite bind_Ok. by apply stages_hold.
Qed.
End fft.

(** ** Reversed indices, one bit at a time *)

Lemma bit_rev_acc k r x :
  Nat.iter k (λ '(r, x), (Z.lor (Z.shiftl r 1) (Z.land x 1), Z.shiftr x 1)) (r, x) =
  (r * 2 ^ Z.of_nat k + bit_rev x (Z.of_nat k), Z.shiftr x (Z.of_nat k)).
Proof.
  unfold bit_rev. rewrite Nat2Z.id. revert r. induction k as [|k IH]; intros r.
  - cbn. by rewrite Z.mul_1_r, Z.add_0_r, Z.shiftr_0_r.
  - rewrite !Nat.iter_succ, (IH r), (IH 0). cbn [fst].
    assert (bit (Z.land (Z.shiftr x (Z.of_nat k)) 1)) as Hb.
    { change 1 with (Z.ones 1) at 1. rewrite Z.land_ones by lia. unfold bit.
      pose proof (Z.mod_pos_bound (Z.shiftr x (Z.of_nat k)) (2 ^ 1)). lia. }
    rewrite !lor_shiftl_bit by done. rewrite Nat2Z.inj_succ, Z.pow_succ_r by lia.
    f_equal; [ring|]. rewrite Z.shiftr_shiftr by lia. by rewrite Z.add_1_r.
Qed.

Lemma reversed_bit k b c :
  (c < 2)%nat → reversed (S k) (2 * b + c) = (c * 2 ^ k + reversed k b)%nat.
Proof.
  intros Hc. unfold reversed, bit_rev at 1. rewrite Nat2Z.id, Nat.iter_succ_r.
  assert (Z.land (Z.of_nat (2 * b + c)) 1 = Z.of_nat c ∧ Z.shiftr (Z.of_nat (2 * b + c)) 1 = Z.of_nat b) as [Hl Hs].
  { change 1 with (Z.ones 1) at 1. rewrite Z.land_ones, Z.shiftr_div_pow2 by lia. change (2 ^ 1) with 2.
    split; [symmetry; apply (Z.mod_unique _ _ (Z.of_nat b))|symmetry; apply (Z.div_unique _ _ _ (Z.of_nat c))]; lia. }
  rewrite Hl, Hs. change (Z.lor (Z.shiftl 0 1) (Z.of_nat c)) with (Z.of_nat c).
  rewrite bit_rev_acc. cbn [fst].
  assert (0 ≤ bit_rev (Z.of_nat b) (Z.of_nat k)).
  { apply Z.bits_iff_nonneg_ex. exists (Z.of_nat k). intros i Hi. rewrite bit_rev_testbit by lia.
    by rewrite (proj2 (Z.ltb_ge i _)) by lia. }
  apply Nat2Z.inj. rewrite Nat2Z.inj_add, Nat2Z.inj_mul, Nat2Z.inj_pow, !Z2Nat.id by lia. done.
Qed.

(** ** Over a commutative ring: the discrete Fourier transform *)

Section dft.
Context {R : Type} `{Scalar R} (s_opp : R → R).
Context (Rth : ring_theory s_zero s_one s_add s_mul s_sub s_opp eq).
Add Ring scalar_ring : Rth.

Definition copp (a : R * R) : R * R := (s_opp a.1, s_opp a.2).

Lemma complex_ring : ring_theory czero cone cadd cmul csub copp eq.
Proof using Rth.
  constructor; intros; unfold czero, cone, cadd, cmul, csub, copp; destruct_and?;
    repeat match goal with x : R * R |- _ => destruct x end; cbn [fst snd]; f_equal; ring.
Qed.
Add Ring complex_ring_ : complex_ring.

Fixpoint csum (n : nat) (f : nat → R * R) : R * R :=
  match n with O => czero | S n => cadd (csum n f) (f n) end.

(** Coefficient [k] of the transform of the first [n] values, for the root [W]. *)
Definition dft (n : nat) (W : R * R) (X : nat → R * R) (k : nat) : R * R :=
  csum n (λ t, cmul (X t) (upow W (t * k))).

Lemma upow_add W a b : upow W (a + b) = cmul (upow W a) (upow W b).
Proof using Rth. induction b as [|b IH]; [rewrite Nat.add_0_r; cbn; ring|]. rewrite Nat.add_succ_r. cbn [upow]. rewrite IH. ring. Qed.

Lemma upow_mul W a b : upow W (a * b) = upow (upow W a) b.
Proof using Rth. induction b as [|b IH]; [by rewrite Nat.mul_0_r|]. rewrite Nat.mul_succ_r, upow_add, IH. done. Qed.

Lemma upow_one k : upow cone k = cone.
Proof using Rth. induction k as [|k IH]; [done|]. cbn [upow]. rewrite IH. ring. Qed.

Lemma csum_ext n f g : (∀ t, (t < n)%nat → f t = g t) → csum n f = csum n g.
Proof using Type. induction n as [|n IH]; intros Heq; [done|]. cbn. rewrite IH by auto. by rewrite Heq by lia. Qed.

Lemma csum_add n f g : csum n (λ t, cadd (f t) (g t)) = cadd (csum n f) (csum n g).
Proof using Rth. induction n as [|n IH]; cbn; [ring|]. rewrite IH. ring. Qed.

Lemma csum_scale n c f : csum n (λ t, cmul (f t) c) = cmul (csum n f) c.
Proof using Rth. induction n as [|n IH]; cbn; [ring|]. rewrite IH. ring. Qed.

Lemma csum_double n f : csum (2 * n) f = cadd (csum n (λ t, f (2 * t)%nat)) (csum n (λ t, f (2 * t + 1)%nat)).
Proof using Rth.
  induction n as [|n IH]; [cbn; ring|]. replace (2 * S n)%nat with (S (S (2 * n))) by lia. cbn [csum]. rewrite IH.
  replace (S (2 * n)) with (2 * n + 1)%nat by lia. ring.
Qed.

(** Splitting the input into its even and its odd positions. *)
Lemma dft_even_odd n W V X k :
  cmul W W = V →
  dft (2 * n) W X k =
    cadd (dft n V (λ t, X (2 * t)%nat) k) (cmul (dft n V (λ t, X (2 * t + 1)%nat) k) (upow W k)).
Proof using Rth.
  intros HV. unfold dft. rewrite csum_double, <-csum_scale. f_equal; apply csum_ext; intros t _.
  - f_equal. replace (2 * t * k)%nat with (2 * (t * k))%nat by lia. rewrite upow_mul. f_equal. cbn. rewrite <-HV. ring.
  - replace ((2 * t + 1) * k)%nat with (2 * (t * k) + k)%nat by lia. rewrite upow_add, upow_mul.
    replace (upow W 2) with V by (cbn; rewrite <-HV; ring). ring.
Qed.

(** Coefficients repeat with the period of the root. *)
Lemma dft_period n W X k : upow W n = cone → dft n W X (k + n) = dft n W X k.
Proof using Rth.
  intros Hn. unfold dft. apply csum_ext. intros t _. f_equal.
  replace (t * (k + n))%nat with (t * k + n * t)%nat by lia. rewrite upow_add, (upow_mul W n t), Hn, upow_one. ring.
Qed.

(** The roots the code gets from cosines and sines: [root s] has order [2^s]. *)
Definition root (s : nat) : R * R := match s with O => cone | S s => twiddle (2 ^ s) end.

Context (m : nat) (Hminus : twiddle 1 = copp cone)
  (Hsquare : ∀ s, (S s < m)%nat → cmul (twiddle (2 ^ S s)) (twiddle (2 ^ S s)) = twiddle (2 ^ s)).

Lemma root_square s : (s < m)%nat → cmul (root (S s)) (root (S s)) = root s.
Proof using Rth Hminus Hsquare.
  intros Hs. destruct s as [|s]; cbn [root]; [|by apply Hsquare]. change (2 ^ 0)%nat with 1%nat. rewrite Hminus. ring.
Qed.

Lemma root_half s : (s < m)%nat → upow (root (S s)) (2 ^ s) = copp cone.
Proof using Rth Hminus Hsquare.
  induction s as [|s IH]; intros Hs; [cbn; rewrite Hminus; ring|].
  rewrite Nat.pow_succ_r', upow_mul. rewrite <-IH by lia. f_equal. rewrite <-(root_square (S s)) by lia. cbn [upow]. ring.
Qed.

Lemma root_order s : (s ≤ m)%nat → upow (root s) (2 ^ s) = cone.
Proof using Rth Hminus Hsquare.
  destruct s as [|s]; intros Hs; [cbn; ring|].
  rewrite Nat.pow_succ_r', Nat.mul_comm, upow_mul, root_half by lia. cbn. ring.
Qed.

(** After [s] passes the block with number [b] holds the transform of the values whose
    index has the reversed [b] in its low bits. *)
Lemma stages_dft s X b k :
  (s ≤ m)%nat → (k < 2 ^ s)%nat →
  stages s (λ k, X (reversed m k)) (b * 2 ^ s + k)%nat =
  dft (2 ^ s) (root s) (λ t, X (reversed (m - s) b + 2 ^ (m - s) * t)%nat) k.
Proof using Rth Hminus Hsquare.
  revert b k. induction s as [|s IH]; intros b k Hs Hk.
  - assert (k = 0)%nat as -> by (cbn in Hk; lia). unfold dft. cbn.
    rewrite Nat.sub_0_r, Nat.mul_1_r, Nat.add_0_r, Nat.mul_0_r, Nat.add_0_r. ring.
  - set (F := λ t, X (reversed (m - S s) b + 2 ^ (m - S s) * t)%nat). rewrite Nat.pow_succ_r', (dft_even_odd _ _ (root s)) by (apply root_square; lia).
    assert (∀ c k', (c < 2)%nat → (k' < 2 ^ s)%nat →
      stages s (λ k, X (reversed m k)) ((2 * b + c) * 2 ^ s + k')%nat = dft (2 ^ s) (root s) (λ t, F (2 * t + c)%nat) k') as Hhalf.
    { intros c k' Hc Hk'. rewrite IH by lia. unfold dft. apply csum_ext. intros t _. f_equal. unfold F. f_equal.
      replace (m - s)%nat with (S (m - S s)) by lia. rewrite reversed_bit by done. cbn [Nat.pow]. lia. }
    assert (dft (2 ^ s) (root s) (λ t, F (2 * t)%nat) k = dft (2 ^ s) (root s) (λ t, F (2 * t + 0)%nat) k) as ->.
    { unfold dft. apply csum_ext. intros t _. by rewrite Nat.add_0_r. }
    cbn [stages]. unfold stage. cbn [Nat.pow] in Hk.
    assert ((b * (2 * 2 ^ s) + k) mod (2 ^ s * 2) = k)%nat as -> by (symmetry; apply (Nat.mod_unique _ _ b); lia).
    change (twiddle (2 ^ s)) with (root (S s)). case_bool_decide as Hlow.
    + replace (b * (2 * 2 ^ s) + k)%nat with ((2 * b + 0) * 2 ^ s + k)%nat by lia. rewrite (Hhalf 0%nat) by lia.
      replace ((2 * b + 0) * 2 ^ s + k + 2 ^ s)%nat with ((2 * b + 1) * 2 ^ s + k)%nat by lia. by rewrite (Hhalf 1%nat) by lia.
    + replace (b * (2 * 2 ^ s) + k)%nat with ((2 * b + 1) * 2 ^ s + (k - 2 ^ s))%nat by lia. rewrite (Hhalf 1%nat) by lia.
      replace ((2 * b + 1) * 2 ^ s + (k - 2 ^ s) - 2 ^ s)%nat with ((2 * b + 0) * 2 ^ s + (k - 2 ^ s))%nat by lia.
      rewrite (Hhalf 0%nat) by lia. set (j := (k - 2 ^ s)%nat). replace k with (j + 2 ^ s)%nat by lia.
      rewrite !dft_period by (apply root_order; lia). rewrite upow_add, root_half by lia. ring.
Qed.

(** C32: [fft_inplace] computes the discrete Fourier transform: over every commutative
    ring in which the factors the code gets from cosines and sines square to one another
    ([e^(-i PI / half)] for [half = 1, 2, 4, ...], the first being -1), two arrays of
    [2^m] values are replaced, without a panic, by the sums [X_t W^(t k)] for the
    [2^m]-th root [W]. *)
Theorem fft_inplace_dft re im :
  (m < 62)%nat → length re = (2 ^ m)%nat → length im = (2 ^ m)%nat →
  ∃ re' im', fft_inplace re im = Ok (re', im') ∧ length re' = (2 ^ m)%nat ∧ length im' = (2 ^ m)%nat ∧
    ∀ k, (k < 2 ^ m)%nat →
      let c := dft (2 ^ m) (root m) (complex_of re im) k in
      re' !! k = Some c.1 ∧ im' !! k = Some c.2.
Proof using Rth Hminus Hsquare.
  intros Hm Hre Him. destruct (fft_inplace_stages m re im Hm Hre Him) as ([re' im'] & Hf & Hl1 & Hl2 & Hv).
  exists re', im'. split_and!; [done..|]. intros k Hk. destruct (Hv k Hk) as [H1 H2].
  pose proof (stages_dft m (complex_of re im) 0 k ltac:(lia) Hk) as Hd.
  rewrite Nat.sub_diag in Hd. cbn [Nat.mul Nat.add] in Hd. cbn zeta. rewrite Hd in H1, H2.
  assert (dft (2 ^ m) (root m) (complex_of re im) k =
    dft (2 ^ m) (root m) (λ t, complex_of re im (reversed 0 0 + 2 ^ 0 * t)%nat) k) as ->; [|done].
  unfold dft. apply csum_ext. intros t _. change (reversed 0 0) with 0%nat. by rewrite Nat.pow_0_r, Nat.mul_1_l.
Qed.
End dft.

(** Integers, with the fourth roots of one among the Gaussian integers. *)
Definition gaussian : Scalar Z := {|
  s_zero := 0; s_one := 1; s_add := Z.add; s_sub := Z.sub; s_mul := Z.mul;
  twiddle := λ half, if bool_decide (half = 1)%nat then (-1, 0) else (0, -1) |}.

Lemma gaussian_ring :
  ring_theory (@s_zero Z gaussian) (@s_one Z gaussian) (@s_add Z gaussian) (@s_mul Z gaussian) (@s_sub Z gaussian) Z.opp eq.
Proof. constructor; intros; cbn; ring. Qed.

Lemma fft_inplace_dft_witness :
  @fft_inplace Z gaussian [1; 2; 3; 4] [0; 0; 0; 0] = Ok ([10; -2; -2; -2], [0; 2; 0; -2]) ∧
  ∃ re' im', @fft_inplace Z gaussian [1; 2; 3; 4] [0; 0; 0; 0] = Ok (re', im') ∧
    length re' = 4%nat ∧ length im' = 4%nat ∧
    ∀ k, (k < 4)%nat →
      let c := @dft Z gaussian 4 (@root Z gaussian 2) (@complex_of Z gaussian [1; 2; 3; 4] [0; 0; 0; 0]) k in
      re' !! k = Some c.1 ∧ im' !! k = Some c.2.
Proof.
  split; [vm_compute; reflexivity|].
  apply (@fft_inplace_dft Z gaussian Z.opp gaussian_ring 2); [reflexivity| |lia|reflexivity|reflexivity].
  intros s Hs. assert (s = 0%nat) as -> by lia. reflexivity.
Defined.
