(* ===== verification/StsReal.v ===== *)
(** * The floating-point functions of the statistical tests ([bin/sts.rs])

    Binary64 arithmetic is the Standard Library's executable specification of IEEE 754
    (round to nearest, ties to even). The elementary functions are the argument [Libm]:
    Rust leaves their precision unspecified, and nothing below depends on it. *)
From Stdlib Require Import ZArith Lia Floats.SpecFloat.
From stdpp Require Import base tactics option numbers list.
From S2P Require Import Prelude Machine Primes StsLinear StsFft.

#[local] Open Scope Z_scope.

(** ** binary64 *)

Abbreviation f64 := spec_float.
Declare Scope f64_scope.
Delimit Scope f64_scope with f64.
Notation "a + b" := (SFadd 53 1024 a b) : f64_scope.
Notation "a - b" := (SFsub 53 1024 a b) : f64_scope.
Notation "a * b" := (SFmul 53 1024 a b) : f64_scope.
Notation "a / b" := (SFdiv 53 1024 a b) : f64_scope.
Notation "- a" := (SFopp a) : f64_scope.
Notation "a <? b" := (SFltb a b) : f64_scope.
Notation "a <=? b" := (SFleb a b) : f64_scope.

(** The binary64 number nearest to [n / d]. *)
Definition nearest_ratio (n : Z) (d : positive) : f64 :=
  match n with
  | Z0 => S754_zero false
  | Zpos p => let '(m, e, l) := SFdiv_core_binary 53 1024 (Zpos p) 0 (Zpos d) 0 in
      binary_round_aux 53 1024 false m e l
  | Zneg p => let '(m, e, l) := SFdiv_core_binary 53 1024 (Zpos p) 0 (Zpos d) 0 in
      binary_round_aux 53 1024 true m e l
  end.

(** The literal [m * 10^(-k)]. *)
Definition dec (m : Z) (k : nat) : f64 := nearest_ratio m (Z.to_pos (10 ^ Z.of_nat k)).

(** [n as f64] of an integer. *)
Definition f64_of_Z (n : Z) : f64 := binary_normalize 53 1024 n 0 false.

(** [x.floor()], as the integer it is, and [as i64] of that. *)
Definition f64_floor_i64 (x : f64) : Z :=
  match x with
  | S754_zero _ | S754_nan => 0
  | S754_infinity s => if s then - 2 ^ 63 else 2 ^ 63 - 1
  | S754_finite s m e =>
      Z.max (- 2 ^ 63) (Z.min (2 ^ 63 - 1) (Z.shiftl (cond_Zopp s (Zpos m)) e))
  end.

Definition is_nan (x : f64) : bool := match x with S754_nan => true | _ => false end.

(** [f64::min]: the other operand when one is NaN. *)
Definition f64_min (a b : f64) : f64 :=
  if is_nan a then b else if is_nan b then a else if (b <? a)%f64 then b else a.

(** [.sum::<f64>()]; the sign of an empty sum is never observed. *)
Definition f64_sum (l : list f64) : f64 := foldl (SFadd 53 1024) (S754_zero false) l.

Definition PI : f64 := dec 314159265358979323846264338327950288 35.
Definition SQRT_2 : f64 := dec 141421356237309504880168872420969808 35.
Definition EPSILON : f64 := S754_finite false (2 ^ 52) (-104).
Definition f0 : f64 := S754_zero false.
Definition f1 : f64 := f64_of_Z 1.
Definition f2 : f64 := f64_of_Z 2.
Definition half_f : f64 := dec 5 1.

Example EPSILON_is : EPSILON = (f64_of_Z 1 / f64_of_Z (2 ^ 52))%f64.
Proof. vm_compute. reflexivity. Qed.

Example PI_is : PI = S754_finite false 7074237752028440 (-51).
Proof. vm_compute. reflexivity. Qed.

(** The elementary functions of the platform. *)
Class Libm := {
  ln : f64 → f64;
  exp : f64 → f64;
  sin : f64 → f64;
  cos : f64 → f64;
  log2 : f64 → f64;
  powf : f64 → f64 → f64;
  powi : f64 → Z → f64 }.

(** ** Special functions *)

Section special.
Context `{Libm}.
Open Scope f64_scope.

Definition lgamma_G : f64 := f64_of_Z 7.

Definition lgamma_C : list f64 :=
  [dec 99999999999980993 17; dec 6765203681218851 13; dec (-12591392167224028) 13;
   dec 77132342877765313 14; dec (-17661502916214059) 14; dec 12507343278686905 15;
   dec (-13857109526572012) 17; dec 99843695780195716 22; dec 15056327351493116 23].

(** The branch of [lgamma] for [x] from one half on. *)
Definition lgamma_series (x : f64) : f64 :=
  let xm1 := x - f1 in
  let t := xm1 + lgamma_G + half_f in
  let C := λ i, nth i lgamma_C f0 in
  let ser := C 0%nat + f64_sum ((λ i, C i / (xm1 + f64_of_Z (Z.of_nat i))) <$> seq 1 8) in
  half_f * ln (f2 * PI) + ln ser + (xm1 + half_f) * ln t - t.

(** [lgamma] calls itself below one half; [depth] bounds the calls. *)
Fixpoint lgamma_rec (depth : nat) (x : f64) : outcome no_error f64 :=
  match depth with
  | O => Panic OutOfFuel
  | S depth =>
      if x <? half_f then
        r ← lgamma_rec depth (f1 - x);
        Ok (ln (PI / sin (PI * x)) - r)
      else Ok (lgamma_series x)
  end.

Definition lgamma (x : f64) : outcome no_error f64 := lgamma_rec 2 x.

(** The loop of [igam_series]; the result is [sum]. *)
Fixpoint igam_series_loop (x : f64) (rounds : nat) (ap del sum : f64) : f64 :=
  match rounds with
  | O => sum
  | S rounds =>
      let ap := ap + f1 in
      let del := del * (x / ap) in
      let sum := sum + del in
      if SFabs del <? SFabs sum * EPSILON then sum else igam_series_loop x rounds ap del sum
  end.

(** The common factor [(-x + a * x.ln() - lgamma(a)).exp()]. *)
Definition igam_factor (a x : f64) : outcome no_error f64 :=
  lg ← lgamma a; Ok (exp (- x + a * ln x - lg)).

Definition igam_series (a x : f64) : outcome no_error f64 :=
  let del := f1 / a in
  let sum := igam_series_loop x 300 a del del in
  factor ← igam_factor a x; Ok (sum * factor).

Definition FPMIN : f64 := dec 1 300.

(** The loop of [igam_cf], from [i] on; the result is [h]. *)
Fixpoint igam_cf_loop (a : f64) (rounds : nat) (i : Z) (b c d h : f64) : f64 :=
  match rounds with
  | O => h
  | S rounds =>
      let an := (- f64_of_Z i) * (f64_of_Z i - a) in
      let b := b + f2 in
      let d := an * d + b in
      let d := if SFabs d <? FPMIN then FPMIN else d in
      let c := b + an / c in
      let c := if SFabs c <? FPMIN then FPMIN else c in
      let d := f1 / d in
      let del := d * c in
      let h := h * del in
      if SFabs (del - f1) <? f64_of_Z 3 * EPSILON then h else igam_cf_loop a rounds (i + 1)%Z b c d h
  end.

Definition igam_cf (a x : f64) : outcome no_error f64 :=
  let b := x + f1 - a in
  let c := f1 / FPMIN in
  let d := f1 / b in
  let h := igam_cf_loop a 300 1 b c d d in
  factor ← igam_factor a x; Ok (h * factor).

Definition igamc (a x : f64) : outcome no_error f64 :=
  if (x <=? f0) || (a <=? f0) then Ok f1
  else if x <? a + f1 then p ← igam_series a x; Ok (f1 - p)
  else igam_cf a x.

(** [erfc] calls itself on negative arguments. *)
Fixpoint erfc_rec (depth : nat) (x : f64) : outcome no_error f64 :=
  match depth with
  | O => Panic OutOfFuel
  | S depth => if x <? f0 then r ← erfc_rec depth (- x); Ok (f2 - r) else igamc half_f (x * x)
  end.

Definition erfc (x : f64) : outcome no_error f64 := erfc_rec 2 x.

Definition normal_cdf (x : f64) : outcome no_error f64 :=
  r ← erfc (- x / SQRT_2); Ok (half_f * r).

(** The scalars of the code's Fourier transform. *)
#[export] Instance f64_scalar : Scalar f64 := {|
  s_zero := f0; s_one := f1; s_add := SFadd 53 1024; s_sub := SFsub 53 1024; s_mul := SFmul 53 1024;
  twiddle := λ half, let ang := - PI / f64_of_Z (Z.of_nat half) in (cos ang, sin ang) |}.
End special.

(** ** Rounding of normal results *)

Lemma digits2_pos_bounds p : 2 ^ (Zpos (digits2_pos p) - 1) ≤ Zpos p < 2 ^ Zpos (digits2_pos p).
Proof.
  induction p as [p IH|p IH|]; cbn [digits2_pos]; [| |cbn; lia];
    rewrite Pos2Z.inj_succ; replace (Z.succ (Z.pos (digits2_pos p)) - 1) with (Z.succ (Z.pos (digits2_pos p) - 1)) by lia;
    rewrite !Z.pow_succ_r by lia; lia.
Qed.

Lemma Zdigits2_unique m d : 2 ^ (d - 1) ≤ m < 2 ^ d → 0 < d → Zdigits2 m = d.
Proof.
  intros Hm Hd. assert (0 < 2 ^ (d - 1)) by (apply Z.pow_pos_nonneg; lia).
  destruct m as [|p|p]; try lia. cbn [Zdigits2]. pose proof (digits2_pos_bounds p) as Hp.
  destruct (Z.lt_trichotomy (Z.pos (digits2_pos p)) d) as [Hlt|[Heq|Hgt]]; [|done|].
  - assert (2 ^ Z.pos (digits2_pos p) ≤ 2 ^ (d - 1)) by (apply Z.pow_le_mono_r; lia). lia.
  - assert (2 ^ d ≤ 2 ^ (Z.pos (digits2_pos p) - 1)) by (apply Z.pow_le_mono_r; lia). lia.
Qed.

Lemma Zdigits2_bounds m : 0 < m → 2 ^ (Zdigits2 m - 1) ≤ m < 2 ^ Zdigits2 m ∧ 0 < Zdigits2 m.
Proof. destruct m as [|p|p]; try lia. intros _. split; [apply digits2_pos_bounds|cbn; lia]. Qed.

Lemma iter_shr_1 p r : 0 ≤ shr_m r → shr_m (SpecFloat.iter_pos shr_1 p r) = Z.shiftr (shr_m r) (Zpos p).
Proof.
  assert (∀ r, 0 ≤ shr_m r → shr_m (shr_1 r) = Z.shiftr (shr_m r) 1) as H1.
  { intros [[|[q|q|]|q] ? ?] Hr; cbn in *; try done; lia. }
  revert r. induction p as [p IH|p IH|]; intros r Hr; cbn [SpecFloat.iter_pos]; [| |by apply H1].
  - assert (0 ≤ shr_m (shr_1 r)) as Hr1 by (rewrite H1 by done; by apply Z.shiftr_nonneg).
    assert (0 ≤ shr_m (SpecFloat.iter_pos shr_1 p (shr_1 r))) as Hr2 by (rewrite IH by done; by apply Z.shiftr_nonneg).
    rewrite !IH, H1 by done. rewrite !Z.shiftr_shiftr by lia. f_equal. lia.
  - assert (0 ≤ shr_m (SpecFloat.iter_pos shr_1 p r)) as Hr2 by (rewrite IH by done; by apply Z.shiftr_nonneg).
    rewrite !IH by done. rewrite !Z.shiftr_shiftr by lia. f_equal. lia.
Qed.

Lemma shr_fexp_spec m e l n :
  0 ≤ m → n = fexp 53 1024 (Zdigits2 m + e) - e → 0 ≤ n →
  ∃ r, shr_fexp 53 1024 m e l = (r, e + n) ∧ shr_m r = Z.shiftr m n.
Proof.
  intros Hm -> Hn. unfold shr_fexp. set (n := fexp _ _ _ - e) in *. clearbody n.
  assert (shr_m (shr_record_of_loc m l) = m) as Hr by (by destruct l as [|[]]).
  unfold shr. destruct n as [|p|p]; [| |lia].
  - eexists. split; [by rewrite Z.add_0_r|]. by rewrite Hr, Z.shiftr_0_r.
  - eexists. split; [done|]. by rewrite iter_shr_1, Hr by lia.
Qed.

(** A value of [d] bits above the unit, in the normal range, rounds to a full mantissa
    at the exponent of [d] or the next, or overflows. *)
Lemma round_normal s m e l d :
  0 < m → d = Zdigits2 m + e → -1021 ≤ d → e ≤ d - 53 →
  binary_round_aux 53 1024 s m e l = S754_infinity s ∨
  ∃ m' e', binary_round_aux 53 1024 s m e l = S754_finite s m' e' ∧
    2 ^ 52 ≤ Zpos m' < 2 ^ 53 ∧ d - 53 ≤ e' ≤ d - 52.
Proof.
  intros Hm Hd Hmin He. assert (fexp 53 1024 d = d - 53) as Hf by (unfold fexp, emin; lia).
  destruct (Zdigits2_bounds m Hm) as [Hb Hpos].
  unfold binary_round_aux.
  destruct (shr_fexp_spec m e l (d - 53 - e) ltac:(lia) ltac:(rewrite <-Hd, Hf; done) ltac:(lia)) as (r & -> & Hr).
  replace (e + (d - 53 - e)) with (d - 53) by lia.
  assert (2 ^ 52 ≤ shr_m r < 2 ^ 53) as Hr53.
  { rewrite Hr, Z.shiftr_div_pow2 by lia. split.
    - apply Z.div_le_lower_bound; [lia|]. rewrite <-Z.pow_add_r by lia.
      transitivity (2 ^ (Zdigits2 m - 1)); [apply Z.pow_le_mono_r; lia|lia].
    - apply Z.div_lt_upper_bound; [lia|]. rewrite <-Z.pow_add_r by lia.
      eapply Z.lt_le_trans; [apply Hb|]. apply Z.pow_le_mono_r; lia. }
  set (m1 := round_nearest_even _ _).
  assert (m1 = shr_m r ∨ m1 = shr_m r + 1) as Hm1.
  { unfold m1, round_nearest_even. destruct (loc_of_shr_record r) as [|[]]; try case_match; auto. }
  assert ((m1 < 2 ^ 53) ∨ m1 = 2 ^ 53) as [Hlt | ->] by lia.
  - assert (Zdigits2 m1 = 53) as Hd1 by (apply Zdigits2_unique; lia).
    destruct (shr_fexp_spec m1 (d - 53) loc_Exact 0 ltac:(lia)) as (r2 & -> & Hr2); [|lia|].
    { rewrite Hd1. replace (53 + (d - 53)) with d by lia. lia. }
    rewrite Hr2, Z.shiftr_0_r. destruct m1 as [|p|p]; [lia| |lia].
    case_match; [right|by left]. eexists _, _. split; [done|]. lia.
  - assert (Zdigits2 (2 ^ 53) = 54) as Hd1 by reflexivity.
    destruct (shr_fexp_spec (2 ^ 53) (d - 53) loc_Exact 1 ltac:(lia)) as (r2 & -> & Hr2); [|lia|].
    { rewrite Hd1. unfold fexp, emin. lia. }
    rewrite Hr2. change (Z.shiftr (2 ^ 53) 1) with 4503599627370496. cbn iota.
    case_match; [right|by left]. eexists _, _. split; [done|]. lia.
Qed.

Lemma iter_xO m d : Zpos (Pos.iter xO m d) = Zpos m * 2 ^ Zpos d.
Proof.
  revert m. induction d as [|d IH] using Pos.peano_ind; intros m; [cbn; lia|].
  rewrite Pos.iter_succ, Pos2Z.inj_succ, Z.pow_succ_r by lia.
  change (Z.pos (Pos.iter xO m d)~0) with (2 * Z.pos (Pos.iter xO m d)). rewrite IH. lia.
Qed.

Lemma shl_align_spec m e e' : e' ≤ e → Zpos (shl_align m e e').1 = Zpos m * 2 ^ (e - e') ∧ (shl_align m e e').2 = e'.
Proof.
  intros He. unfold shl_align. destruct (e' - e) as [|p|p] eqn:Hd; [|lia|]; cbn [fst snd].
  - replace (e - e') with 0 by lia. split; lia.
  - rewrite iter_xO. by replace (e - e') with (Z.pos p) by lia.
Qed.

Lemma binary_round_normal s m e d :
  d = Zdigits2 (Zpos m) + e → -1021 ≤ d →
  binary_round 53 1024 s m e = S754_infinity s ∨
  ∃ m' e', binary_round 53 1024 s m e = S754_finite s m' e' ∧ 2 ^ 52 ≤ Zpos m' < 2 ^ 53 ∧ d - 53 ≤ e' ≤ d - 52.
Proof.
  intros Hd Hmin. assert (fexp 53 1024 d = d - 53) as Hf by (unfold fexp, emin; lia).
  unfold binary_round. change (Z.pos (digits2_pos m)) with (Zdigits2 (Z.pos m)). rewrite <-Hd, Hf.
  destruct (decide (d - 53 ≤ e)) as [Hle|Hgt].
  - destruct (shl_align_spec m e (d - 53) Hle) as [Hm He]. destruct (shl_align m e (d - 53)) as [mz ez].
    cbn [fst snd] in Hm, He. subst ez. apply (round_normal _ _ _ _ d); [lia| |done|lia].
    rewrite Hm. destruct (Zdigits2_bounds (Zpos m) ltac:(lia)) as [Hb Hp].
    rewrite (Zdigits2_unique _ (Zdigits2 (Zpos m) + (e - (d - 53)))); [lia| |lia].
    replace (Zdigits2 (Z.pos m) + (e - (d - 53)) - 1) with (Zdigits2 (Z.pos m) - 1 + (e - (d - 53))) by lia.
    rewrite !Z.pow_add_r by lia. assert (0 < 2 ^ (e - (d - 53))) by (apply Z.pow_pos_nonneg; lia). nia.
  - unfold shl_align. destruct (d - 53 - e) as [|p|p] eqn:Hp; [lia| |lia].
    apply (round_normal _ _ _ _ d); [lia|done|done|lia].
Qed.

(** ** The recursions end *)

Lemma half_f_is : half_f = S754_finite false 4503599627370496 (-53).
Proof. vm_compute. reflexivity. Qed.

Lemma f1_is : f1 = S754_finite false 4503599627370496 (-52).
Proof. vm_compute. reflexivity. Qed.

Lemma f2_is : f2 = S754_finite false 4503599627370496 (-51).
Proof. vm_compute. reflexivity. Qed.

Lemma SFltb_finite_ge m e m0 e0 :
  e0 ≤ e → Zpos m0 ≤ Zpos m → SFltb (S754_finite false m e) (S754_finite false m0 e0) = false.
Proof.
  intros He Hm. cbn. destruct (Z.compare_spec e e0) as [->|Hlt|Hgt]; [|lia|done].
  change (Pos.compare_cont Eq m m0) with (Pos.compare m m0). destruct (Pos.compare_spec m m0); try done; lia.
Qed.

Lemma SFltb_finite_lt m e m0 e0 :
  SFltb (S754_finite false m e) (S754_finite false m0 e0) = true → e < e0 ∨ e = e0 ∧ Zpos m < Zpos m0.
Proof.
  cbn. destruct (Z.compare_spec e e0) as [->|Hlt|Hgt]; [|by left|done].
  change (Pos.compare_cont Eq m m0) with (Pos.compare m m0). destruct (Pos.compare_spec m m0); try done. by right.
Qed.

(** Values of one half and more, rounded, are not below one half. *)
Lemma normalize_not_below_half z e :
  e ≤ 0 → 2 ^ (- e) ≤ 2 * z → (binary_normalize 53 1024 z e false <? half_f)%f64 = false.
Proof.
  intros He Hz. assert (0 < 2 ^ (- e)) by (apply Z.pow_pos_nonneg; lia).
  destruct z as [|p|p]; [lia| |lia]. cbn [binary_normalize].
  destruct (Zdigits2_bounds (Zpos p) ltac:(lia)) as [Hb Hpos]. rewrite half_f_is.
  assert (0 ≤ Zdigits2 (Zpos p) + e) as Hd.
  { destruct (decide (0 ≤ Zdigits2 (Zpos p) + e)); [done|].
    assert (2 * 2 ^ Zdigits2 (Z.pos p) ≤ 2 ^ (- e)); [|lia].
    rewrite <-Z.pow_succ_r by lia. apply Z.pow_le_mono_r; lia. }
  destruct (binary_round_normal false p e _ eq_refl ltac:(lia)) as [-> | (m' & e' & -> & Hm & He')]; [done|].
  apply SFltb_finite_ge; lia.
Qed.

(** The argument of the reflected call is at least one half. *)
Lemma reflected_not_below_half x :
  valid_binary 53 1024 x = true → (x <? half_f)%f64 = true → (f1 - x <? half_f)%f64 = false.
Proof.
  intros Hv Hx. rewrite f1_is. destruct x as [s|s| |s m e].
  - vm_compute. reflexivity.
  - destruct s; [vm_compute; reflexivity|discriminate].
  - discriminate.
  - cbn [SFsub]. set (ez := Z.min (-52) e). apply normalize_not_below_half; [lia|].
    rewrite (proj1 (shl_align_spec 4503599627370496 (-52) ez ltac:(lia))).
    change 4503599627370496 with (2 ^ 52). rewrite <-Z.pow_add_r by lia.
    replace (52 + (-52 - ez)) with (- ez) by lia.
    set (M := Zpos (shl_align m e ez).1). assert (M = Zpos m * 2 ^ (e - ez)) as HM by (apply shl_align_spec; lia).
    assert (0 < 2 ^ (- ez)) by (apply Z.pow_pos_nonneg; lia).
    destruct s; cbn [cond_Zopp]; [lia|].
    cbn [valid_binary bounded] in Hv. apply andb_true_iff in Hv as [Hc _]. apply Z.eqb_eq in Hc.
    rewrite half_f_is in Hx. apply SFltb_finite_lt in Hx.
    destruct (Zdigits2_bounds (Zpos m) ltac:(lia)) as [Hb Hpos]. cbn [Zdigits2] in *.
    assert (M * 2 ≤ 2 ^ (- ez)); [|lia].
    assert (Zpos m ≤ 2 ^ 53 ∧ (e = -53 → Zpos m ≤ 2 ^ 52)) as [Hm1 Hm2].
    { split; [|lia]. transitivity (2 ^ Z.pos (digits2_pos m)); [lia|]. apply Z.pow_le_mono_r; [lia|].
      unfold fexp, emin in Hc. lia. }
    assert (Zpos m * 2 ≤ 2 ^ (- e)) as Hme.
    { destruct (decide (e = -53)) as [->|]; [specialize (Hm2 eq_refl); lia|].
      transitivity (2 ^ 54); [lia|]. apply Z.pow_le_mono_r; lia. }
    rewrite HM. replace (- ez) with (- e + (e - ez)) by lia. rewrite Z.pow_add_r by lia.
    assert (0 < 2 ^ (e - ez)) by (apply Z.pow_pos_nonneg; lia). nia.
Qed.

(** Halves of positive integers are not below one half. *)
Lemma half_count_not_below_half n : 1 ≤ n → (f64_of_Z n / f2 <? half_f)%f64 = false.
Proof.
  intros Hn. unfold f64_of_Z. destruct n as [|p|p]; [lia| |lia]. cbn [binary_normalize].
  destruct (Zdigits2_bounds (Zpos p) ltac:(lia)) as [Hb Hpos]. rewrite f2_is, half_f_is.
  destruct (binary_round_normal false p 0 _ eq_refl ltac:(lia)) as [-> | (m & e & -> & Hm & He)]; [done|].
  cbn [SFdiv]. unfold SFdiv_core_binary. rewrite (Zdigits2_unique (Z.pos m) 53) by lia.
  change (Zdigits2 4503599627370496) with 53. set (e' := Z.min _ _).
  assert (e' = e - 2) as -> by (unfold e', fexp, emin; lia).
  replace (e - -51 - (e - 2)) with 53 by lia. cbn iota. rewrite Z.shiftl_mul_pow2 by lia.
  pose proof (Z_div_mod (Z.pos m * 2 ^ 53) 4503599627370496 ltac:(lia)) as Hdiv.
  destruct (Z.div_eucl (Z.pos m * 2 ^ 53) 4503599627370496) as [q r]. destruct Hdiv as [Hq Hr].
  assert (q = Zpos m * 2) as -> by lia.
  assert (Zdigits2 (Zpos m * 2) = 54) as H54 by (apply Zdigits2_unique; lia).
  destruct (round_normal (xorb false false) (Zpos m * 2) (e - 2) (new_location 4503599627370496 r) (e + 52))
    as [-> | (m' & e'' & -> & Hm' & He')]; [lia|lia|lia|lia|done|].
  apply SFltb_finite_ge; lia.
Qed.

Section totality.
Context `{Libm}.

Lemma lgamma_above a : (a <? half_f)%f64 = false → lgamma a = Ok (lgamma_series a).
Proof. intros Ha. unfold lgamma. cbn [lgamma_rec]. by rewrite Ha. Qed.

Lemma lgamma_total x : valid_binary 53 1024 x = true → ∃ r, lgamma x = Ok r.
Proof.
  intros Hv. destruct (x <? half_f)%f64 eqn:Hx; [|rewrite lgamma_above by done; eauto].
  unfold lgamma. cbn [lgamma_rec]. rewrite Hx, reflected_not_below_half by done. cbn [mbind outcome_bind]. eauto.
Qed.

Lemma igamc_lgamma a x : (∃ r, lgamma a = Ok r) → ∃ r, igamc a x = Ok r.
Proof.
  intros [r Hr]. unfold igamc, igam_series, igam_cf, igam_factor. rewrite Hr.
  repeat case_match; cbn [mbind outcome_bind]; eauto.
Qed.

Lemma igamc_above a x : (a <? half_f)%f64 = false → ∃ r, igamc a x = Ok r.
Proof. intros Ha. apply igamc_lgamma. rewrite lgamma_above by done. eauto. Qed.

Lemma SFopp_not_negative x : (x <? f0)%f64 = true → (SFopp x <? f0)%f64 = false.
Proof. by destruct x as [[]|[]| |[] m e]. Qed.

Lemma erfc_total x : ∃ r, erfc x = Ok r.
Proof.
  unfold erfc. cbn [erfc_rec]. destruct (x <? f0)%f64 eqn:Hx.
  - rewrite SFopp_not_negative by done.
    destruct (igamc_above half_f (SFopp x * SFopp x)%f64) as [r ->]; [vm_compute; reflexivity|].
    cbn [mbind outcome_bind]. eauto.
  - apply igamc_above. vm_compute. reflexivity.
Qed.

Lemma normal_cdf_total x : ∃ r, normal_cdf x = Ok r.
Proof. unfold normal_cdf. destruct (erfc_total (- x / SQRT_2)%f64) as [r ->]. cbn [mbind outcome_bind]. eauto. Qed.

(** C33: The special functions of the statistical tests return on every input, whatever
    the accuracy of the platform's elementary functions: [lgamma] reflects at most once,
    because [1 - x] rounds to one half or more when [x] is below one half, and [erfc]
    negates its argument at most once; the other loops are bounded. [igamc] takes its
    order from the domain of [lgamma], the binary64 numbers. *)
Theorem special_functions_total a x :
  valid_binary 53 1024 a = true →
  (∃ r, lgamma a = Ok r) ∧ (∃ r, igamc a x = Ok r) ∧ (∃ r, erfc x = Ok r) ∧ (∃ r, normal_cdf x = Ok r).
Proof.
  intros Ha. split_and!; [by apply lgamma_total|by apply igamc_lgamma, lgamma_total|apply erfc_total|apply normal_cdf_total].
Qed.
End totality.

(** A platform that is no good at all, for the examples. *)
Definition toy_libm : Libm := {|
  ln := λ x, x; exp := λ x, x; sin := λ _, f1; cos := λ _, f1; log2 := λ x, x; powf := λ x _, x;
  powi := λ x n, Nat.iter (Z.to_nat n) (SFmul 53 1024 x) f1 |}.

Lemma special_functions_total_witness :
  let a := (- f64_of_Z 5 / f2)%f64 in
  valid_binary 53 1024 a = true ∧ (a <? half_f)%f64 = true ∧
  ((∃ r, @lgamma toy_libm a = Ok r) ∧ (∃ r, @igamc toy_libm a f1 = Ok r) ∧
   (∃ r, @erfc toy_libm f1 = Ok r) ∧ (∃ r, @normal_cdf toy_libm f1 = Ok r)).
Proof.
  intros a. split; [vm_compute; reflexivity|]. split; [vm_compute; reflexivity|].
  apply special_functions_total. vm_compute. reflexivity.
Defined.
