(* ===== verification/StsTests.v ===== *)
(** * The fifteen statistical tests and their report ([bin/sts.rs])

    Each test from the bits to its p-value, on the counts of [StsStats] and
    [StsLinear], the transform of [StsFft] and the functions of [StsReal]; then the
    run of all of them, the verdict and the texts of the two reports. *)
From Stdlib Require Import ZArith Lia Floats.SpecFloat Strings.String.
From stdpp Require Import base tactics option numbers list.
From S2P Require Import Prelude Machine Errors Crates Post Primes KatVectors Report.
From S2P Require OtFrame.
From S2P Require Import StsLinear StsBits StsStats StsFft StsReal.

#[local] Open Scope Z_scope.

(** ** Results *)

Inductive Status := Pass | Fail | Skip.

#[export] Instance Status_eq_dec : EqDecision Status.
Proof. solve_decision. Defined.

Record Tr := MkTr { tr_name : list Z; p_value : f64; status : Status; note : list Z }.

(** [Tr::with_note] and [Tr::new]; a NaN compares false and fails. *)
Definition with_note (name : list Z) (p : f64) (note : list Z) : Tr :=
  MkTr name p (if (dec 1 2 <=? p)%f64 then Pass else Fail) note.
Definition Tr_new (name : list Z) (p : f64) : Tr := with_note name p [].
Definition skip (name : string) (note : list Z) : Tr := MkTr (str name) S754_nan Skip note.


Definition of_nat (n : nat) : f64 := f64_of_Z (Z.of_nat n).

(** ** Categories and checked sums *)

(** [Sum (v - bn p)^2 / (bn p)] over the categories. *)
Definition category_chi `{Libm} (big_n : nat) (nu : list Z) (pi : list f64) : f64 :=
  f64_sum (zip_with (λ v p,
    (powi (f64_of_Z v - of_nat big_n * p) 2 / (of_nat big_n * p))%f64) nu pi).

(** [counts.iter().map(|&c| c * c).sum()] on [u64]. *)
Fixpoint sum_squares (acc : Z) (counts : list Z) : outcome no_error Z :=
  match counts with
  | [] => Ok acc
  | c :: counts => sq ← checked_mul 64 c c; acc ← checked_add 64 acc sq; sum_squares acc counts
  end.

Section tests.
Context `{Libm}.
Open Scope f64_scope.

(** ** Tests 1 to 5 *)

Definition test_monobit (bits : list Z) : outcome no_error Tr :=
  let n := of_nat (length bits) in
  let sn := monobit_sum bits in
  let s_obs := f64_of_Z (Z.abs sn) / f64_sqrt n in
  p ← erfc (s_obs / SQRT_2);
  Ok (Tr_new (str "Monobit") p).

Definition test_frequency_block (bits : list Z) : outcome no_error Tr :=
  let cap := (length bits / 128)%nat in
  if bool_decide (cap < 1)%nat then Ok (Tr_new (str "Frequency Within Block") f0)
  else
    let chi_sq := f64_sum ((λ ones, let pi := of_nat ones / f64_of_Z 128 in powi (pi - half_f) 2)
      <$> block_ones bits 128) * f64_of_Z 512 in
    p ← igamc (of_nat cap / f2) (chi_sq / f2);
    Ok (Tr_new (str "Frequency Within Block") p).

Definition test_runs (bits : list Z) : outcome no_error Tr :=
  let n := of_nat (length bits) in
  let ones := of_nat (length (filter (λ b, b = 1%Z) bits)) in
  let pi := ones / n in
  if f2 / f64_sqrt n <=? SFabs (pi - half_f) then Ok (Tr_new (str "Runs") f0)
  else
    let v := f1 + of_nat (changes bits) in
    let num := SFabs (v - f2 * n * pi * (f1 - pi)) in
    let den := f2 * f64_sqrt (f2 * n) * pi * (f1 - pi) in
    p ← erfc (num / den);
    Ok (Tr_new (str "Runs") p).

Definition longest_run_pi (n : nat) : list f64 :=
  if (Z.of_nat n <? 6272)%Z then [dec 2148 4; dec 3672 4; dec 2305 4; dec 1875 4]
  else if (Z.of_nat n <? 750000)%Z then
    [dec 1174 4; dec 2430 4; dec 2493 4; dec 1752 4; dec 1027 4; dec 1124 4]
  else [dec 882 4; dec 2092 4; dec 2483 4; dec 1933 4; dec 1208 4; dec 675 4; dec 727 4].

Definition test_longest_run (bits : list Z) : outcome no_error Tr :=
  let '(m, k, _) := longest_run_parameters (length bits) in
  let big_n := (length bits / m)%nat in
  let chi_sq := f64_sum (zip_with (λ v p,
    let exp := of_nat big_n * p in powi (f64_of_Z v - exp) 2 / exp)
    (longest_run_nu bits) (longest_run_pi (length bits))) in
  p ← igamc (of_nat k / f2) (chi_sq / f2);
  Ok (Tr_new (str "Longest Run Ones In A Block") p).

Definition test_binary_matrix_rank (bits : list Z) : outcome no_error Tr :=
  let big_n := (length bits / (32 * 32))%nat in
  if bool_decide (big_n < 1)%nat then Ok (Tr_new (str "Binary Matrix Rank") f0)
  else
    let '(f32, f31, frest) := rank_tally bits in
    let P32 := dec 2888 4 in
    let P31 := dec 5776 4 in
    let PR := dec 1336 4 in
    let bn := of_nat big_n in
    let chi_sq := powi (f64_of_Z f32 - bn * P32) 2 / (bn * P32)
                + powi (f64_of_Z f31 - bn * P31) 2 / (bn * P31)
                + powi (f64_of_Z frest - bn * PR) 2 / (bn * PR) in
    Ok (Tr_new (str "Binary Matrix Rank") (exp (- chi_sq / f2))).

(** ** Test 6 *)

(** [n.next_power_of_two()]. *)
Definition next_power_of_two (n : nat) : nat := Z.to_nat (2 ^ Z.log2_up (Z.of_nat n)).

(** [(re[k].powi(2) + im[k].powi(2)).sqrt() < threshold]. *)
Definition below_threshold (threshold : f64) (re im : list f64) (k : nat) : outcome no_error bool :=
  a ← expect PanicBounds (re !! k);
  b ← expect PanicBounds (im !! k);
  Ok (f64_sqrt (powi a 2 + powi b 2) <? threshold).

Definition test_dft (bits : list Z) : outcome no_error Tr :=
  let n := length bits in
  let nfft := next_power_of_two n in
  let re := ((λ b, if (b =? 1)%Z then f1 else - f1) <$> bits) ++ replicate (nfft - n) f0 in
  let im := replicate nfft f0 in
  '(re, im) ← fft_inplace re im;
  let half := (n / 2)%nat in
  let threshold := f64_sqrt (dec 2995732274 9 * of_nat n) in
  below ← collect (below_threshold threshold re im) (seq 1 half);
  let n1 := of_nat (length (filter (λ b, b = true) below)) in
  let n0 := dec 95 2 * of_nat half in
  let d := (n1 - n0) / f64_sqrt (of_nat n * dec 95 2 * dec 5 2 / f64_of_Z 4) in
  p ← erfc (SFabs d / SQRT_2);
  Ok (Tr_new (str "Discrete Fourier Transform") p).

(** ** Test 7 *)

Definition notm_block_term (bits : list Z) (block_m : nat) (mu var : f64) (tmpl : list Z) (j : nat) : outcome no_error f64 :=
  block ← index_range (j * block_m) ((j + 1) * block_m) bits;
  w ← count_notm block tmpl;
  Ok (powi (of_nat w - mu) 2 / var).

Definition notm_p_value (bits : list Z) (block_m : nat) (tmpl : list Z) : outcome no_error f64 :=
  let mu := (of_nat block_m - f64_of_Z 9 + f1) / f64_of_Z 512 in
  let var := of_nat block_m * (f1 / f64_of_Z 512 - f64_of_Z 17 / f64_of_Z (2 ^ 18)) in
  terms ← collect (notm_block_term bits block_m mu var tmpl) (seq 0 8);
  igamc (f64_of_Z 8 / f2) (f64_sum terms / f2).

Definition test_notm (bits : list Z) : outcome no_error Tr :=
  let block_m := (length bits / 8)%nat in
  let templates := aperiodic_templates 9 in
  let n_tmpl := of_nat (length templates) in
  ps ← collect (notm_p_value bits block_m) templates;
  let p_min := foldl f64_min (S754_infinity false) ps in
  let p_bonf := f64_min (p_min * n_tmpl) f1 in
  Ok (with_note (str "Non Overlapping Template Matching") p_bonf (str "(Bonferroni-corrected over 148 templates)")).

(** ** Test 8 *)

(** Entries [L = 7] of the two tables. *)
Definition MAURER_EXPECTED : f64 := dec 61962507 7.
Definition MAURER_VARIANCE : f64 := dec 3125 3.

Definition test_maurer_universal (bits : list Z) : outcome no_error Tr :=
  let k := (length bits / 7)%nat in
  if bool_decide (k ≤ Z.to_nat 1280)%nat then Ok (Tr_new (str "Maurers Universal") f0)
  else
    let big_k := (k - Z.to_nat 1280)%nat in
    distances ← maurer_distances bits 7 (Z.to_nat 1280);
    let sum := foldl (λ sum d, sum + log2 (of_nat d)) f0 distances in
    let fn_ := sum / of_nat big_k in
    let c := dec 7 1 - dec 8 1 / f64_of_Z 7
           + (f64_of_Z 4 + f64_of_Z 32 / f64_of_Z 7) * powf (of_nat big_k) (- f64_of_Z 3 / f64_of_Z 7)
             / f64_of_Z 15 in
    let sigma := c * f64_sqrt (MAURER_VARIANCE / of_nat big_k) in
    let z := (fn_ - MAURER_EXPECTED) / sigma in
    p ← erfc (SFabs z / SQRT_2);
    Ok (Tr_new (str "Maurers Universal") p).

(** ** Test 9 *)

Definition PI_LC : list f64 :=
  [dec 10417 6; dec 31250 6; dec 125000 6; dec 500000 6; dec 250000 6; dec 62500 6; dec 20833 6].

(** The sign is that of an even [M]. *)
Definition lc_mu : f64 :=
  f64_of_Z 500 / f2 + (f64_of_Z 9 + f64_of_Z (-1)) / f64_of_Z 36
  - (f64_of_Z 500 / f64_of_Z 3 + f2 / f64_of_Z 9) / powi f2 500.

Definition lc_category (l : nat) : nat :=
  let t := powi (- f1) 500 * (of_nat l - lc_mu) + f2 / f64_of_Z 9 in
  if t <=? - dec 25 1 then 0%nat
  else if t <=? - dec 15 1 then 1%nat
  else if t <=? - dec 5 1 then 2%nat
  else if t <=? dec 5 1 then 3%nat
  else if t <=? dec 15 1 then 4%nat
  else if t <=? dec 25 1 then 5%nat
  else 6%nat.

Definition lc_block (bits : list Z) (j : nat) : outcome no_error nat :=
  block ← index_range (j * 500) ((j + 1) * 500) bits;
  l ← berlekamp_massey block;
  Ok (lc_category l).

Definition test_linear_complexity (bits : list Z) : outcome no_error Tr :=
  let big_n := (length bits / 500)%nat in
  if bool_decide (big_n < 1)%nat then Ok (Tr_new (str "Linear Complexity") f0)
  else
    cats ← collect (lc_block bits) (seq 0 big_n);
    let nu := foldl (λ nu cat, alter (Z.add 1) cat nu) (replicate 7 0%Z) cats in
    p ← igamc (f64_of_Z 3) (category_chi big_n nu PI_LC / f2);
    Ok (Tr_new (str "Linear Complexity") p).

(** ** Tests 10 and 11 *)

Definition psi_sq (bits : list Z) (m : nat) : outcome no_error f64 :=
  if bool_decide (m = 0)%nat then Ok f0
  else
    counts ← pattern_counts bits m;
    sum_sq ← sum_squares 0 counts;
    Ok (f64_of_Z (Z.shiftl 1 (Z.of_nat m)) / of_nat (length bits) * f64_of_Z sum_sq - of_nat (length bits)).

Definition test_serial (bits : list Z) : outcome no_error (list Tr) :=
  p0 ← psi_sq bits 10;
  p1 ← psi_sq bits 9;
  p2 ← psi_sq bits 8;
  let del1 := p0 - p1 in
  let del2 := p0 - f2 * p1 + p2 in
  let df1 := f64_of_Z 256 in
  let df2 := df1 / f2 in
  a ← igamc df1 (del1 / f2);
  b ← igamc df2 (del2 / f2);
  Ok [with_note (str "Serial (del1)") a []; with_note (str "Serial (del2)") b []].

(** [phi_m] and [phi_m1]. *)
Definition entropy_phi (bits : list Z) (m : nat) : outcome no_error f64 :=
  counts ← pattern_counts bits m;
  Ok (f64_sum ((λ c, let p := f64_of_Z c / of_nat (length bits) in p * ln p) <$> filter (λ c, (0 < c)%Z) counts)).

Definition test_approximate_entropy (bits : list Z) : outcome no_error Tr :=
  let n := of_nat (length bits) in
  phi_m ← entropy_phi bits 10;
  phi_m1 ← entropy_phi bits 11;
  let apen := phi_m - phi_m1 in
  let chi_sq := f2 * n * (ln f2 - apen) in
  p ← igamc (f64_of_Z 512) (chi_sq / f2);
  Ok (Tr_new (str "Approximate Entropy") p).

(** ** Test 12 *)

Definition cusum_term (z sq_n : f64) (upper lower : f64 → f64) (k : Z) : outcome no_error f64 :=
  let k := f64_of_Z k in
  a ← normal_cdf (upper k * z / sq_n);
  b ← normal_cdf (lower k * z / sq_n);
  Ok (a - b).

(** [(lo..=hi).map(..).sum()]. *)
Definition cusum_sum (z sq_n : f64) (upper lower : f64 → f64) (lo hi : Z) : outcome no_error f64 :=
  terms ← collect (cusum_term z sq_n upper lower) (seqZ lo (hi - lo + 1));
  Ok (f64_sum terms).

Definition cusum_pvalue (z n : Z) : outcome no_error f64 :=
  let z := f64_of_Z z in
  let n := f64_of_Z n in
  let sq_n := f64_sqrt n in
  sum1 ← cusum_sum z sq_n (λ k, f64_of_Z 4 * k + f1) (λ k, f64_of_Z 4 * k - f1)
    (f64_floor_i64 ((- n / z + f1) / f64_of_Z 4)) (f64_floor_i64 ((n / z - f1) / f64_of_Z 4));
  sum2 ← cusum_sum z sq_n (λ k, f64_of_Z 4 * k + f64_of_Z 3) (λ k, f64_of_Z 4 * k + f1)
    (f64_floor_i64 ((- n / z - f64_of_Z 3) / f64_of_Z 4)) (f64_floor_i64 ((n / z - f1) / f64_of_Z 4));
  Ok (f1 - sum1 + sum2).

Definition test_cumulative_sums (bits : list Z) : outcome no_error (list Tr) :=
  let n := Z.of_nat (length bits) in
  a ← cusum_pvalue (fwd_z bits) n;
  b ← cusum_pvalue (bwd_z bits) n;
  Ok [with_note (str "Cumulative Sums (fwd)") a []; with_note (str "Cumulative Sums (bwd)") b []].

(** ** Tests 13 and 14 *)

(** With an em dash and a greater-or-equal sign. *)
Definition ineligible : list Z :=
  str "(ineligible: fewer than 500 cycles in sequence " ++ [8212] ++ str " use " ++ [8805] ++ str "10M bits)".

Definition re_pi (abs_x : Z) (k : nat) : f64 :=
  let p := half_f / f64_of_Z abs_x in
  if bool_decide (k = 0)%nat then f1 - p
  else if bool_decide (k < 5)%nat then p * p * powi (f1 - p) (Z.of_nat k - 1)
  else p * powi (f1 - p) 4.

(** [{:+}]. *)
Definition display_signed (x : Z) : list Z := (if (x <? 0)%Z then str "-" else str "+") ++ display (Z.abs x).

Definition excursion_result (j : nat) (x : Z) (nu : list Z) : outcome no_error Tr :=
  let chi_sq := f64_sum (zip_with (λ k v,
    let exp := of_nat j * re_pi (Z.abs x) k in powi (f64_of_Z v - exp) 2 / exp) (seq 0 6) nu) in
  p ← igamc (dec 25 1) (chi_sq / f2);
  Ok (Tr_new (str "Random Excursion (x=" ++ display_signed x ++ str ")") p).

Definition test_random_excursion (bits : list Z) : outcome no_error (list Tr) :=
  match excursion_counts bits with
  | None => Ok [skip "Random Excursion" ineligible]
  | Some counts => collect (λ '(x, nu), excursion_result (build_walk bits).2 x nu) counts
  end.

Definition variant_result (j : nat) (x : Z) (xi : nat) : outcome no_error Tr :=
  let ax := f64_of_Z (Z.abs x) in
  let denom := f64_sqrt (f2 * of_nat j * (f64_of_Z 4 * ax - f2)) in
  let z := f64_of_Z (Z.abs (Z.of_nat xi - Z.of_nat j)) / denom in
  p ← erfc (z / SQRT_2);
  Ok (Tr_new (str "Random Excursion Variant (x=" ++ display_signed x ++ str ")") p).

Definition test_random_excursion_variant (bits : list Z) : outcome no_error (list Tr) :=
  match excursion_variant_counts bits with
  | None => Ok [skip "Random Excursion Variant" ineligible]
  | Some counts => collect (λ '(x, xi), variant_result (build_walk bits).2 x xi) counts
  end.

(** ** All tests, in the order of [main] *)

Definition run_tests (bits : list Z) : outcome no_error (list Tr) :=
  monobit ← test_monobit bits;
  frequency ← test_frequency_block bits;
  runs ← test_runs bits;
  longest ← test_longest_run bits;
  rank ← test_binary_matrix_rank bits;
  dft ← test_dft bits;
  notm ← test_notm bits;
  maurer ← test_maurer_universal bits;
  linear ← test_linear_complexity bits;
  serial ← test_serial bits;
  entropy ← test_approximate_entropy bits;
  cusum ← test_cumulative_sums bits;
  excursion ← test_random_excursion bits;
  variant ← test_random_excursion_variant bits;
  Ok ([monobit; frequency; runs; longest; rank; dft; notm; maurer; linear] ++ serial
      ++ [entropy] ++ cusum ++ excursion ++ variant).
End tests.

(** ** Numbers with a fixed number of decimals *)

(** The quotient, ties to even. *)
Definition div_half_even (a b : Z) : Z :=
  let q := a / b in
  let r := a mod b in
  if 2 * r <? b then q else if b <? 2 * r then q + 1 else if Z.even q then q else q + 1.

Definition zero_padded (width : nat) (s : list Z) : list Z := replicate (width - length s) 48 ++ s.

(** [{:.places}], for one place or more: the exact value rounded. A binary64 number has at most 309 digits
    before the point. *)
Definition display_fixed (places : nat) (x : f64) : list Z :=
  let sign := λ s : bool, if s then str "-" else [] in
  let fixed := λ v, (OtFrame.hex_char <$> digits 10 400 (v / 10 ^ Z.of_nat places)) ++ str "."
    ++ zero_padded places (OtFrame.hex_char <$> digits 10 400 (v mod 10 ^ Z.of_nat places)) in
  match x with
  | S754_nan => str "NaN"
  | S754_infinity s => sign s ++ str "inf"
  | S754_zero s => sign s ++ fixed 0
  | S754_finite s m e =>
      sign s ++ fixed (div_half_even (Zpos m * 2 ^ Z.max e 0 * 10 ^ Z.of_nat places) (2 ^ Z.max (- e) 0))
  end.

(** ** The report on standard output *)

Definition count_status (s : Status) (results : list Tr) : nat :=
  length (filter (λ t, status t = s) results).

Definition quote : Z := 34.
Definition newline : list Z := [10].
Definition LINE : list Z := replicate 68 9472.

(** [{:>width}] and [{:<width}]. *)
Definition align_right (width : nat) (s : list Z) : list Z := replicate (width - length s) 32 ++ s.
Definition align_left (width : nat) (s : list Z) : list Z := s ++ replicate (width - length s) 32.

Definition report_row (t : Tr) : list Z :=
  let '(tag, pv_str) := match status t with
    | Pass => (str "PASS", str "p=" ++ display_fixed 6 (p_value t))
    | Fail => (str "FAIL", str "p=" ++ display_fixed 6 (p_value t))
    | Skip => (str "SKIP", str "p=n/a")
    end in
  let note := if bool_decide (note t = []) then [] else str "  " ++ note t in
  str "  [" ++ tag ++ str "]  " ++ align_left 50 (tr_name t) ++ str "  " ++ pv_str ++ note ++ newline.

Definition print_report (results : list Tr) (bits elapsed_ms : Z) : list Z :=
  let passed := count_status Pass results in
  let failed := count_status Fail results in
  let skipped := count_status Skip results in
  newline ++ LINE ++ newline
  ++ str "NIST SP 800-22 Rev 1a " ++ [0x2014] ++ str " NAPQES v8 Bitstream Analysis (Rust)" ++ newline
  ++ str "  Bits tested : " ++ align_right 13 (display bits) ++ newline
  ++ str "  Elapsed     : " ++ align_right 10 (display elapsed_ms) ++ str " ms" ++ newline
  ++ LINE ++ newline
  ++ concat (report_row <$> results)
  ++ LINE ++ newline
  ++ str "  " ++ display (Z.of_nat passed) ++ str "/" ++ display (Z.of_nat (passed + failed)) ++ str " scored tests passed"
  ++ (if bool_decide (0 < skipped)%nat then str "  |  " ++ display (Z.of_nat skipped) ++ str " skipped (ineligible)" else [])
  ++ (if bool_decide (0 < failed)%nat then str "  |  " ++ display (Z.of_nat failed) ++ str " FAILED" else [])
  ++ newline ++ LINE ++ newline ++ newline.

(** ** The JSON report *)

(** [s.replace(..)]: a backslash before every quote. *)
Definition escaped (s : list Z) : list Z :=
  concat ((λ c, if c =? quote then [92; quote] else [c]) <$> s).

(** [key: value] with quotes around the key. *)
Definition json_key (k : string) : list Z := quote :: str k ++ quote :: str ": ".
Definition json_string (s : list Z) : list Z := quote :: s ++ [quote].
Definition json_bool (b : bool) : list Z := if b then str "true" else str "false".

Definition json_test (t : Tr) (last : bool) : list Z :=
  let pv_json := if is_nan (p_value t) then str "null" else display_fixed 8 (p_value t) in
  str "    {" ++ json_key "name" ++ json_string (escaped (tr_name t))
  ++ str ", " ++ json_key "passed" ++ json_bool (bool_decide (status t = Pass))
  ++ str ", " ++ json_key "skipped" ++ json_bool (bool_decide (status t = Skip))
  ++ str ", " ++ json_key "p_value" ++ pv_json
  ++ str ", " ++ json_key "note" ++ json_string (escaped (note t))
  ++ str "}" ++ (if last then [] else str ",") ++ newline.

Definition json_report (results : list Tr) (bits elapsed_ms : Z) : list Z :=
  str "{" ++ newline
  ++ str "  " ++ json_key "spec" ++ json_string (str "NIST SP 800-22 Rev 1a") ++ str "," ++ newline
  ++ str "  " ++ json_key "napseq_version" ++ json_string (str "v8") ++ str "," ++ newline
  ++ str "  " ++ json_key "bits_tested" ++ display bits ++ str "," ++ newline
  ++ str "  " ++ json_key "elapsed_ms" ++ display elapsed_ms ++ str "," ++ newline
  ++ str "  " ++ json_key "summary" ++ str "{" ++ newline
  ++ str "    " ++ json_key "total" ++ display (Z.of_nat (length results)) ++ str "," ++ newline
  ++ str "    " ++ json_key "passed" ++ display (Z.of_nat (count_status Pass results)) ++ str "," ++ newline
  ++ str "    " ++ json_key "failed" ++ display (Z.of_nat (count_status Fail results)) ++ str "," ++ newline
  ++ str "    " ++ json_key "skipped" ++ display (Z.of_nat (count_status Skip results)) ++ newline
  ++ str "  }," ++ newline
  ++ str "  " ++ json_key "tests" ++ str "[" ++ newline
  ++ concat (imap (λ i t, json_test t (bool_decide (length results ≤ i + 1)%nat)) results)
  ++ str "  ]" ++ newline ++ str "}" ++ newline.

(** ** [main] *)

(** [args.windows(2).find(|w| w[0] == flag)], and the word after the flag. *)
Definition find_option (flag : string) (args : list (list Z)) : option (list Z) :=
  snd <$> head (filter (λ w, w.1 = str flag) (zip args (drop 1 args))).

Definition bits_option (args : list (list Z)) : Z :=
  default 10000000 (find_option "--bits" args ≫= OtFrame.parse_u64).

(** What the program leaves: standard output, the JSON file it tries to write, and the
    exit status. *)
Record sts_output := StsOutput {
  sts_stdout : list Z; sts_json : option (list Z * list Z); sts_exit : Z }.

(** [post] is the outcome of the self-tests, [elapsed] the measured milliseconds. *)
Definition sts_main `{Crypto} `{Gate} `{Libm} (post : outcome SelfTestError unit) (args : list (list Z))
    (elapsed : Z) : outcome error sts_output :=
  _ ← match post with Ok u => Ok u | _ => Panic PanicExpect end;
  let n := bits_option args in
  bits ← generate_bits n;
  results ← map_err (λ e : no_error, match e with end) (run_tests bits);
  let json := (λ path, (path, json_report results n elapsed)) <$> find_option "--out" args in
  let any_fail := existsb (λ r, bool_decide (status r = Fail)) results in
  Ok (StsOutput (print_report results n elapsed) json (if any_fail then 1 else 0)).

(** ** Every test returns *)

Lemma sum_squares_Ok acc counts :
  0 ≤ acc → Forall (λ c, 0 ≤ c) counts →
  acc + foldr Z.add 0 counts * foldr Z.add 0 counts < 2 ^ 64 →
  ∃ s, sum_squares acc counts = Ok s.
Proof.
  intros Ha Hc. revert acc Ha. induction Hc as [|c counts Hc Hcs IH]; intros acc Ha Hb; cbn [sum_squares]; [eauto|].
  cbn [foldr] in Hb. set (s := foldr Z.add 0 counts) in *.
  assert (0 ≤ s) as Hs by (unfold s; clear -Hcs; induction Hcs; cbn; lia).
  rewrite checked_mul_Ok, bind_Ok by nia. rewrite checked_add_Ok, bind_Ok by nia. apply IH; nia.
Qed.

Lemma alter_sum (counts : list Z) k :
  Forall (λ c, 0 ≤ c) counts →
  Forall (λ c, 0 ≤ c) (alter (Z.add 1) k counts) ∧
  foldr Z.add 0 (alter (Z.add 1) k counts) ≤ foldr Z.add 0 counts + 1.
Proof.
  intros Hc. revert k. induction Hc as [|c counts Hc Hcs IH]; intros k; [destruct k; (split; [constructor|cbn; lia])|].
  destruct k as [|k]; cbn.
  - split; [constructor; [lia|done]|lia].
  - destruct (IH k) as [H1 H2]. split; [by constructor|]. cbn [foldr]. change (list_alter (Z.add 1) k counts) with (alter (Z.add 1) k counts). lia.
Qed.

Lemma foldr_add_replicate n : foldr Z.add 0 (replicate n 0) = 0.
Proof. induction n as [|n IH]; [done|]. cbn. by rewrite IH. Qed.

(** The counts are not negative and do not exceed the number of bits together. *)
Lemma pattern_counts_sum bits m :
  (m - 1 ≤ length bits)%nat →
  ∃ counts, pattern_counts bits m = Ok counts ∧ Forall (λ c, 0 ≤ c) counts ∧
    foldr Z.add 0 counts ≤ Z.of_nat (length bits).
Proof.
  intros Hm. unfold pattern_counts. rewrite index_range_Ok, bind_Ok by lia. cbv zeta.
  set (n := Z.to_nat (Z.shiftl 1 (Z.of_nat m))). clearbody n. set (pat := bits_to_usize _). clearbody pat.
  eexists. split; [done|].
  assert (∀ l pat counts, Forall (λ c, 0 ≤ c) counts →
    let counts' := (foldl (pattern_step bits m) (pat, counts) l).2 in
    Forall (λ c, 0 ≤ c) counts' ∧ foldr Z.add 0 counts' ≤ foldr Z.add 0 counts + Z.of_nat (length l)) as Hloop.
  { induction l as [|i l IH]; intros p counts Hc; [cbn; split; [done|lia]|]. cbn [foldl length].
    set (st := pattern_step bits m (p, counts) i). destruct st as [p' counts'] eqn:Hst.
    unfold st, pattern_step in Hst. injection Hst as _ Hcounts.
    destruct (alter_sum counts (Z.to_nat (Z.land (Z.lor (Z.shiftl p 1)
      (at_ bits ((i + m - 1) mod length bits))) (Z.shiftl 1 (Z.of_nat m) - 1))) Hc) as [H1 H2].
    rewrite Hcounts in H1, H2. destruct (IH p' counts' H1) as [H3 H4]. split; [done|]. lia. }
  destruct (Hloop (seq 0 (length bits)) pat (replicate n 0)) as [H1 H2]; [by apply Forall_replicate|].
  rewrite foldr_add_replicate, length_seq in H2. auto.
Qed.

Lemma pattern_counts_short bits m :
  (length bits < m - 1)%nat → pattern_counts bits m = Panic PanicBounds.
Proof. intros Hm. unfold pattern_counts, index_range. by rewrite bool_decide_eq_false_2 by lia. Qed.

(** What a status says: a skipped test has no p-value, the others pass exactly when the
    p-value is at least 0.01, so that a NaN fails. *)
Definition verdict (tr : Tr) : Prop :=
  match status tr with
  | Pass => (dec 1 2 <=? p_value tr)%f64 = true
  | Fail => (dec 1 2 <=? p_value tr)%f64 = false
  | Skip => p_value tr = S754_nan
  end.

(** A result with this name and a verdict. *)
Definition result_named (n : list Z) (tr : Tr) : Prop := tr_name tr = n ∧ verdict tr.

Lemma with_note_verdict n p nt : result_named n (with_note n p nt).
Proof. split; [done|]. unfold verdict, with_note. cbn [status p_value]. by destruct (dec 1 2 <=? p)%f64. Qed.

Lemma skip_verdict n nt : result_named (str n) (skip n nt).
Proof. done. Qed.

Definition returns (m : outcome no_error Tr) (n : string) : Prop := ∃ tr, m = Ok tr ∧ result_named (str n) tr.

Definition returns_all (m : outcome no_error (list Tr)) (ns : list (list Z)) : Prop :=
  ∃ trs, m = Ok trs ∧ Forall2 result_named ns trs.

Lemma returns_Tr n (m : outcome no_error f64) :
  (∃ p, m = Ok p) → returns (p ← m; Ok (Tr_new (str n) p)) n.
Proof. intros [p ->]. cbn. eexists. split; [done|]. apply with_note_verdict. Qed.

Lemma returns_now n p : returns (Ok (Tr_new (str n) p)) n.
Proof. eexists. split; [done|]. apply with_note_verdict. Qed.

(** The collection at the head of the goal succeeds if its elements do. *)
Ltac collect_ok :=
  lazymatch goal with
  | |- context [collect ?f ?l] =>
      let bs := fresh "bs" in
      destruct (collect_total_plain f l) as [bs ->]; [|rewrite bind_Ok]
  end.

(** The first computation of the goal returns, by [tac]. *)
Tactic Notation "first_returns" tactic3(tac) :=
  lazymatch goal with
  | |- context [ ?m ≫= ?f ] =>
      let H := fresh in assert (∃ p, m = Ok p) as [? H] by tac; rewrite H; clear H; rewrite bind_Ok
  end.

(** [step l] runs the next test with [l] and names its result. *)
Ltac step l :=
  let tr := fresh "tr" in let Htr := fresh "Htr" in
  destruct l as (tr & -> & Htr); rewrite bind_Ok.

Section returning.
Context `{Libm}.

Ltac not_below_half := vm_compute; reflexivity.

Lemma monobit_returns bits : returns (test_monobit bits) "Monobit".
Proof. apply returns_Tr, erfc_total. Qed.

Lemma half_of_nat_igamc n x : (1 ≤ n)%nat → ∃ p, igamc (of_nat n / f2)%f64 x = Ok p.
Proof. intros Hn. apply igamc_above, half_count_not_below_half. lia. Qed.

Lemma frequency_block_returns bits : returns (test_frequency_block bits) "Frequency Within Block".
Proof.
  unfold test_frequency_block. case_bool_decide; [apply returns_now|].
  apply returns_Tr, half_of_nat_igamc. lia.
Qed.

Lemma runs_returns bits : returns (test_runs bits) "Runs".
Proof.
  unfold test_runs. case_match; [apply returns_now|]. apply returns_Tr, erfc_total.
Qed.

Lemma longest_run_returns bits : returns (test_longest_run bits) "Longest Run Ones In A Block".
Proof.
  unfold test_longest_run, longest_run_parameters.
  repeat case_match; simplify_eq; apply returns_Tr, half_of_nat_igamc; lia.
Qed.

Lemma matrix_rank_returns bits : returns (test_binary_matrix_rank bits) "Binary Matrix Rank".
Proof.
  unfold test_binary_matrix_rank. case_bool_decide; [apply returns_now|].
  destruct (rank_tally bits) as [[? ?] ?]. apply returns_now.
Qed.

Lemma next_power_of_two_spec n :
  Z.of_nat n < 2 ^ 32 →
  ∃ m, next_power_of_two n = (2 ^ m)%nat ∧ (m < 62)%nat ∧ (n ≤ 2 ^ m)%nat ∧ (n / 2 < 2 ^ m)%nat.
Proof.
  intros Hn. set (k := Z.log2_up (Z.of_nat n)).
  assert (0 ≤ k ≤ 32) as Hk.
  { split; [apply Z.log2_up_nonneg|]. change 32 with (Z.log2_up (2 ^ 32)). apply Z.log2_up_le_mono. lia. }
  assert (next_power_of_two n = (2 ^ Z.to_nat k)%nat) as Heq.
  { unfold next_power_of_two. fold k. apply Nat2Z.inj. rewrite Z2Nat.id, Nat2Z.inj_pow, Z2Nat.id by lia. done. }
  assert (Z.of_nat n ≤ 2 ^ k) as Hle.
  { destruct (decide (1 < n)%nat) as [Hgt|Hsmall]; [apply Z.log2_up_spec; lia|].
    pose proof (Z.pow_pos_nonneg 2 k). lia. }
  assert (Z.of_nat (2 ^ Z.to_nat k) = 2 ^ k) as Hp by (rewrite Nat2Z.inj_pow, Z2Nat.id by lia; done).
  exists (Z.to_nat k). split_and!; [done|lia|lia|].
  pose proof (pow2_pos (Z.to_nat k)). destruct n as [|n]; [by cbn|].
  pose proof (Nat.div_lt (S n) 2). lia.
Qed.

Lemma dft_returns bits : Z.of_nat (length bits) < 2 ^ 32 → returns (test_dft bits) "Discrete Fourier Transform".
Proof.
  intros Hn. unfold test_dft. destruct (next_power_of_two_spec (length bits) Hn) as (m & -> & Hm & Hle & Hhalf).
  set (re := (_ ++ _)). set (im := replicate _ f0).
  assert (length re = (2 ^ m)%nat) as Hre.
  { unfold re. rewrite length_app, length_fmap, length_replicate. lia. }
  assert (length im = (2 ^ m)%nat) as Him by (unfold im; by rewrite length_replicate).
  destruct (fft_inplace_stages m re im Hm Hre Him) as ([re' im'] & -> & Hv).
  rewrite bind_Ok. cbv zeta.
  collect_ok.
  { intros k Hk%elem_of_seq. destruct (proj2 (proj2 Hv) k ltac:(lia)) as [H1 H2]. cbn [fst snd] in H1, H2.
    unfold below_threshold. rewrite H1, H2. cbn. eauto. }
  apply returns_Tr, erfc_total.
Qed.

Lemma aperiodic_templates_spec m t :
  0 ≤ m → t ∈ aperiodic_templates m → is_aperiodic t = true ∧ length t = Z.to_nat m.
Proof.
  intros Hm Ht. unfold aperiodic_templates in Ht. apply list_elem_of_omap in Ht as (v & _ & Hv).
  cbv zeta in Hv. case_match eqn:Ha; [|done]. injection Hv as <-. split; [done|].
  by rewrite length_fmap, length_reverse, length_seqZ.
Qed.

Lemma notm_returns bits :
  Z.of_nat (length bits) < 2 ^ 32 → returns (test_notm bits) "Non Overlapping Template Matching".
Proof.
  intros Hn. unfold test_notm. cbv zeta.
  collect_ok.
  { intros t Ht. apply aperiodic_templates_spec in Ht as [Ha Hl]; [|lia]. unfold notm_p_value. cbv zeta.
    collect_ok.
    { intros j Hj%elem_of_seq. unfold notm_block_term. set (b := (length bits / 8)%nat).
      assert (b * 8 ≤ length bits)%nat as Hb by (unfold b; rewrite Nat.mul_comm; apply Nat.Div0.mul_div_le).
      rewrite index_range_Ok, bind_Ok by nia.
      rewrite count_notm_aperiodic; [cbn; eauto|done|lia|]. unfold slice. rewrite length_take. lia. }
    apply igamc_above. not_below_half. }
  eexists. split; [done|]. apply with_note_verdict.
Qed.

Lemma maurer_returns bits : Forall bit bits → returns (test_maurer_universal bits) "Maurers Universal".
Proof.
  intros Hb. unfold test_maurer_universal. case_bool_decide; [apply returns_now|]. cbv zeta.
  destruct (maurer_distances_correct bits 7 Hb (Z.to_nat 1280)) as [-> _].
  rewrite bind_Ok. apply returns_Tr, erfc_total.
Qed.

Lemma linear_complexity_returns bits : Forall bit bits → returns (test_linear_complexity bits) "Linear Complexity".
Proof.
  intros Hb. unfold test_linear_complexity. case_bool_decide; [apply returns_now|]. cbv zeta.
  collect_ok.
  { intros j Hj%elem_of_seq. unfold lc_block.
    assert (length bits / 500 * 500 ≤ length bits)%nat as Hle by (rewrite Nat.mul_comm; apply Nat.Div0.mul_div_le).
    rewrite index_range_Ok, bind_Ok by nia.
    destruct (berlekamp_massey_returns (slice (j * 500) ((j + 1) * 500) bits)) as [l ->]; [|cbn; eauto].
    by apply Forall_take, Forall_drop. }
  apply returns_Tr, igamc_above. not_below_half.
Qed.

Lemma psi_sq_total bits m :
  (m - 1 ≤ length bits)%nat → Z.of_nat (length bits) < 2 ^ 32 → ∃ p, psi_sq bits m = Ok p.
Proof.
  intros Hm Hn. unfold psi_sq. case_bool_decide; [eauto|].
  destruct (pattern_counts_sum bits m Hm) as (counts & -> & Hpos & Hsum). rewrite bind_Ok.
  assert (0 ≤ foldr Z.add 0 counts) by (clear -Hpos; induction Hpos; cbn; lia).
  destruct (sum_squares_Ok 0 counts ltac:(lia) Hpos ltac:(nia)) as [s ->]. rewrite bind_Ok. eauto.
Qed.

Lemma serial_returns bits :
  (9 ≤ length bits)%nat → Z.of_nat (length bits) < 2 ^ 32 →
  returns_all (test_serial bits) [str "Serial (del1)"; str "Serial (del2)"].
Proof.
  intros Hm Hn. unfold test_serial.
  destruct (psi_sq_total bits 10 ltac:(lia) Hn) as [p0 ->]. rewrite bind_Ok.
  destruct (psi_sq_total bits 9 ltac:(lia) Hn) as [p1 ->]. rewrite bind_Ok.
  destruct (psi_sq_total bits 8 ltac:(lia) Hn) as [p2 ->]. rewrite bind_Ok. cbv zeta.
  first_returns (apply igamc_above; not_below_half).
  first_returns (apply igamc_above; not_below_half).
  eexists. split; [done|]. repeat constructor; apply with_note_verdict.
Qed.

Lemma entropy_phi_total bits m : (m - 1 ≤ length bits)%nat → ∃ p, entropy_phi bits m = Ok p.
Proof.
  intros Hm. unfold entropy_phi. destruct (pattern_counts_sum bits m Hm) as (counts & -> & _). rewrite bind_Ok. eauto.
Qed.

Lemma entropy_returns bits : (10 ≤ length bits)%nat → returns (test_approximate_entropy bits) "Approximate Entropy".
Proof.
  intros Hm. unfold test_approximate_entropy. cbv zeta.
  destruct (entropy_phi_total bits 10 ltac:(lia)) as [p ->]. rewrite bind_Ok.
  destruct (entropy_phi_total bits 11 ltac:(lia)) as [q ->]. rewrite bind_Ok.
  apply returns_Tr, igamc_above. not_below_half.
Qed.

Lemma cusum_sum_total z sq_n upper lower lo hi : ∃ s, cusum_sum z sq_n upper lower lo hi = Ok s.
Proof.
  unfold cusum_sum. collect_ok; [|eauto]. intros k _. unfold cusum_term. cbv zeta.
  first_returns (apply normal_cdf_total). first_returns (apply normal_cdf_total). eauto.
Qed.

Lemma cusum_pvalue_total z n : ∃ p, cusum_pvalue z n = Ok p.
Proof.
  unfold cusum_pvalue. cbv zeta. first_returns (apply cusum_sum_total).
  first_returns (apply cusum_sum_total). eauto.
Qed.

Lemma cusum_returns bits :
  returns_all (test_cumulative_sums bits) [str "Cumulative Sums (fwd)"; str "Cumulative Sums (bwd)"].
Proof.
  unfold test_cumulative_sums. cbv zeta.
  first_returns (apply cusum_pvalue_total). first_returns (apply cusum_pvalue_total).
  eexists. split; [done|]. repeat constructor; apply with_note_verdict.
Qed.

(** Collecting one result per item, each with the name of its item. *)
Lemma collect_returns {A} (f : A → outcome no_error Tr) (name : A → list Z) l :
  (∀ a, ∃ tr, f a = Ok tr ∧ result_named (name a) tr) → returns_all (collect f l) (name <$> l).
Proof.
  intros Hf. induction l as [|a l IH]; [exists []; by split|]. cbn.
  destruct (Hf a) as (tr & -> & Htr). destruct IH as (trs & -> & Htrs). cbn.
  eexists. split; [done|]. by constructor.
Qed.

Definition excursion_name (x : Z) : list Z := str "Random Excursion (x=" ++ display_signed x ++ str ")".
Definition variant_name (x : Z) : list Z := str "Random Excursion Variant (x=" ++ display_signed x ++ str ")".

(** The names of the results of the two excursion tests, for a walk with [j] returns to
    zero. *)
Definition excursion_names (j : nat) : list (list Z) :=
  if Z.of_nat j <? 500 then [str "Random Excursion"]
  else excursion_name <$> [-4; -3; -2; -1; 1; 2; 3; 4].
Definition variant_names (j : nat) : list (list Z) :=
  if Z.of_nat j <? 500 then [str "Random Excursion Variant"]
  else variant_name <$> (seqZ (-9) 9 ++ seqZ 1 9).

Lemma excursion_returns bits : returns_all (test_random_excursion bits) (excursion_names (build_walk bits).2).
Proof.
  unfold test_random_excursion, excursion_names, excursion_counts.
  destruct (build_walk bits) as [walk j]. cbn [snd]. destruct (Z.of_nat j <? 500).
  - eexists. split; [done|]. repeat constructor; apply skip_verdict.
  - set (g := λ x, (x, excursion_nu walk x)).
    assert (excursion_name <$> [-4; -3; -2; -1; 1; 2; 3; 4] =
      (λ '(x, _), excursion_name x) <$> (g <$> [-4; -3; -2; -1; 1; 2; 3; 4])) as -> by done.
    apply collect_returns. intros [x nu]. unfold excursion_result. cbv zeta.
    first_returns (apply igamc_above; not_below_half).
    eexists. split; [done|]. apply with_note_verdict.
Qed.

Lemma variant_returns bits : returns_all (test_random_excursion_variant bits) (variant_names (build_walk bits).2).
Proof.
  unfold test_random_excursion_variant, variant_names, excursion_variant_counts.
  destruct (build_walk bits) as [walk j]. cbn [snd]. destruct (Z.of_nat j <? 500).
  - eexists. split; [done|]. repeat constructor; apply skip_verdict.
  - set (g := λ x, (x, length (filter (λ s, s = x) walk))). set (xs := seqZ (-9) 9 ++ seqZ 1 9).
    assert (variant_name <$> xs = (λ '(x, _), variant_name x) <$> (g <$> xs)) as ->.
    { rewrite <-list_fmap_compose. by apply list_fmap_ext. }
    apply collect_returns. intros [x xi]. unfold variant_result. cbv zeta.
    first_returns (apply erfc_total).
    eexists. split; [done|]. apply with_note_verdict.
Qed.

(** ** The run *)

Definition test_names (j : nat) : list (list Z) :=
  [str "Monobit"; str "Frequency Within Block"; str "Runs"; str "Longest Run Ones In A Block";
   str "Binary Matrix Rank"; str "Discrete Fourier Transform"; str "Non Overlapping Template Matching";
   str "Maurers Universal"; str "Linear Complexity"]
  ++ [str "Serial (del1)"; str "Serial (del2)"] ++ [str "Approximate Entropy"]
  ++ [str "Cumulative Sums (fwd)"; str "Cumulative Sums (bwd)"]
  ++ excursion_names j ++ variant_names j.

Lemma run_tests_result bits :
  Forall bit bits → Z.of_nat (length bits) < 2 ^ 32 → (10 ≤ length bits)%nat →
  returns_all (run_tests bits) (test_names (build_walk bits).2).
Proof.
  intros Hb Hn Hl. unfold run_tests.
  step (monobit_returns bits). step (frequency_block_returns bits). step (runs_returns bits).
  step (longest_run_returns bits). step (matrix_rank_returns bits). step (dft_returns bits Hn).
  step (notm_returns bits Hn). step (maurer_returns bits Hb). step (linear_complexity_returns bits Hb).
  step (serial_returns bits ltac:(lia) Hn). step (entropy_returns bits Hl). step (cusum_returns bits).
  step (excursion_returns bits). step (variant_returns bits).
  eexists. split; [done|]. unfold test_names.
  repeat apply Forall2_app; first [done | repeat (constructor; [done|]); done].
Qed.
End returning.

Example display_fixed_rounds :
  display_fixed 6 half_f = str "0.500000" ∧ display_fixed 2 (- dec 125 3)%f64 = str "-0.12" ∧
  display_fixed 8 (dec 1 2) = str "0.01000000".
Proof. split_and!; vm_compute; reflexivity. Qed.

Lemma run_tests_short `{Libm} bits :
  Forall bit bits → (length bits < 10)%nat → run_tests bits = Panic PanicBounds.
Proof.
  intros Hb Hl. assert (Z.of_nat (length bits) < 2 ^ 32) as Hn by lia. unfold run_tests.
  step (monobit_returns bits). step (frequency_block_returns bits). step (runs_returns bits).
  step (longest_run_returns bits). step (matrix_rank_returns bits). step (dft_returns bits Hn).
  step (notm_returns bits Hn). step (maurer_returns bits Hb). step (linear_complexity_returns bits Hb).
  destruct (decide (length bits = 9)%nat) as [H9|H9].
  - step (serial_returns bits ltac:(lia) Hn). unfold test_approximate_entropy. cbv zeta.
    destruct (entropy_phi_total bits 10 ltac:(lia)) as [p ->]. rewrite bind_Ok.
    unfold entropy_phi. by rewrite pattern_counts_short by lia.
  - assert (psi_sq bits 10 = Panic PanicBounds) as Hpsi.
    { unfold psi_sq. rewrite bool_decide_eq_false_2 by lia. by rewrite (pattern_counts_short bits 10) by lia. }
    unfold test_serial. by rewrite Hpsi.
Qed.

Lemma count_status_total results :
  (count_status Pass results + count_status Fail results + count_status Skip results = length results)%nat.
Proof.
  unfold count_status. induction results as [|r results IH]; [done|]. cbn [length]. rewrite !filter_cons.
  destruct (status r); repeat case_decide; try done; cbn [length]; lia.
Qed.

Lemma Forall2_verdicts names results :
  Forall2 result_named names results → tr_name <$> results = names ∧ Forall verdict results.
Proof.
  induction 1 as [|n r names results [Hn Hv] _ [IH1 IH2]]; [done|]. cbn. rewrite IH1, Hn. split; [done|by constructor].
Qed.

Lemma parse_u64_fold_nonneg l acc v :
  0 ≤ acc → foldl OtFrame.parse_u64_step (Some acc) l = Some v → 0 ≤ v.
Proof.
  revert acc. induction l as [|c l IH]; intros acc Ha; cbn [foldl]; [intros [= <-]; lia|].
  assert (∀ l, foldl OtFrame.parse_u64_step None l = None) as Hnone by (intros l'; by induction l').
  unfold OtFrame.parse_u64_step at 2. cbn [mbind option_bind].
  destruct ((48 <=? c) && (c <=? 57)) eqn:Hc; [|by rewrite Hnone]. case_match; [|by rewrite Hnone].
  apply IH. reflect_bools. lia.
Qed.

Lemma bits_option_nonneg args : 0 ≤ bits_option args.
Proof.
  unfold bits_option. destruct (find_option _ _) as [s|]; cbn; [|lia].
  destruct (OtFrame.parse_u64 s) as [v|] eqn:Hp; cbn; [|lia]. unfold OtFrame.parse_u64 in Hp.
  case_bool_decide; [done|]. by eapply parse_u64_fold_nonneg.
Qed.

(** C31: The statistical test program, behind an open self-test gate and for fewer than
    [2^32] bits. Asked for ten bits or more it returns whatever the platform's
    elementary functions compute: it runs every test on the generated bits, in order,
    the two excursion tests being skipped below 500 returns to zero; a result passes
    exactly when its p-value is at least 0.01, a NaN failing; the exit status is zero
    exactly when every result that is not skipped passes, and the printed counts add up
    to the number of results. Asked for fewer than ten bits it panics on a slice out of
    range instead of reporting. *)
Theorem sts_main_correct `{Crypto} `{Gate} `{Libm} args elapsed :
  gate_open → bits_option args < 2 ^ 32 →
  let n := bits_option args in
  (n < 10 → sts_main (Ok tt) args elapsed = Panic PanicBounds) ∧
  (10 ≤ n →
    ∃ bits results out, sts_main (Ok tt) args elapsed = Ok out ∧
      generate_bits n = Ok bits ∧ length bits = Z.to_nat n ∧ run_tests bits = Ok results ∧
      tr_name <$> results = test_names (build_walk bits).2 ∧ Forall verdict results ∧
      (sts_exit out = 0 ↔ ∀ r, r ∈ results → status r ≠ Skip → (dec 1 2 <=? p_value r)%f64 = true) ∧
      sts_stdout out = print_report results n elapsed ∧
      (count_status Pass results + count_status Fail results + count_status Skip results = length results)%nat ∧
      sts_json out = (λ path, (path, json_report results n elapsed)) <$> find_option "--out" args).
Proof.
  intros Hg Hn n. pose proof (bits_option_nonneg args) as Hpos. fold n in Hn, Hpos.
  destruct (generate_bits_correct n Hg ltac:(lia)) as (cts & Hgen & Hlen & Hbits & _).
  set (bits := take _ _) in Hgen.
  assert (Forall bit bits) as Hb by (by apply Forall_take).
  assert (length bits = Z.to_nat n) as Hl by (unfold bits; rewrite length_take; lia).
  unfold sts_main. rewrite bind_Ok. cbv zeta. fold n. rewrite Hgen, bind_Ok. split; intros Hten.
  { by rewrite run_tests_short by (done || lia). }
  destruct (run_tests_result bits Hb ltac:(lia) ltac:(lia)) as (results & Hrun & Hres).
  apply Forall2_verdicts in Hres as [Hnames Hverdict].
  rewrite Hrun. cbn [map_err]. rewrite bind_Ok. exists bits, results. eexists. split; [done|].
  do 5 (split; [done|]). split; [cbn [sts_exit]|split; [done|]; split; [apply count_status_total|done]].
  destruct (existsb _ results) eqn:Hany.
  - split; [done|]. intros Hall. apply existsb_exists in Hany as (r & Hr & Hfail). apply bool_decide_eq_true in Hfail.
    apply list_elem_of_In in Hr. specialize (Hall r Hr ltac:(congruence)).
    rewrite Forall_forall in Hverdict. specialize (Hverdict r Hr). unfold verdict in Hverdict.
    rewrite Hfail in Hverdict. congruence.
  - split; [|done]. intros _ r Hr Hskip. rewrite Forall_forall in Hverdict. specialize (Hverdict r Hr).
    unfold verdict in Hverdict. destruct (status r) eqn:Hs; [done| |done].
    exfalso. apply not_true_iff_false in Hany. apply Hany, existsb_exists. exists r.
    split; [by apply list_elem_of_In|by apply bool_decide_eq_true].
Qed.

Lemma sts_main_correct_witness :
  let args := [str "sts"; str "--bits"; str "64"; str "--out"; str "report.json"] in
  @gate_open default_build ∧ bits_option args = 64 ∧ bits_option [str "sts"; str "--bits"; str "9"] = 9 ∧
  @sts_main Toy.crypto default_build toy_libm (Ok tt) [str "sts"; str "--bits"; str "9"] 0 = Panic PanicBounds ∧
  ∃ bits results out, @sts_main Toy.crypto default_build toy_libm (Ok tt) args 7 = Ok out ∧
    @generate_bits Toy.crypto default_build 64 = Ok bits ∧ length bits = Z.to_nat 64 ∧ @run_tests toy_libm bits = Ok results ∧
    tr_name <$> results = test_names (build_walk bits).2 ∧ Forall verdict results ∧
    (sts_exit out = 0 ↔ ∀ r, r ∈ results → status r ≠ Skip → (dec 1 2 <=? p_value r)%f64 = true) ∧
    sts_stdout out = print_report results 64 7 ∧
    (count_status Pass results + count_status Fail results + count_status Skip results = length results)%nat ∧
    sts_json out = (λ path, (path, json_report results 64 7)) <$> find_option "--out" args.
Proof.
  intros args. assert (@gate_open default_build) as Hg by reflexivity.
  assert (bits_option args = 64) as H64 by (vm_compute; reflexivity).
  assert (bits_option [str "sts"; str "--bits"; str "9"] = 9) as H9 by (vm_compute; reflexivity).
  split_and!; [done|done|done| |].
  - apply (@sts_main_correct Toy.crypto default_build toy_libm _ 0 Hg); rewrite H9; lia.
  - rewrite <-H64. apply (@sts_main_correct Toy.crypto default_build toy_libm args 7 Hg); rewrite H64; lia.
Defined.
