(* ===== verification/Wipe.v ===== *)
(** * What is left of secrets in memory ([lib.rs], [key.rs])

    The wiping of key material and plaintext: [zeroize_key], [zeroize_sk],
    [zeroize_codepoints], the [Drop] implementations, and the code that relies on them:
    key generation, [NapqesKey] and the incremental stream encryptor.

    Memory is a list of allocated regions, each with its whole capacity and its cells
    as numbers. Freeing a region leaves its cells as they are, which is what makes
    wiping necessary, and a vector that grows beyond its capacity moves to a new region
    and leaves its old one behind. The 32-byte [sk] is an array, which is copied wherever
    it is passed or returned, so each variable and field that holds one is a region of its
    own: in key generation three of them are never wiped. Only named variables and fields
    are modelled: not the temporaries of the functions called, nor the slots arguments
    and results pass through, about which the comments of the code warn; an optimiser may
    also merge copies that are separate here. *)
From Stdlib Require Import ZArith Lia Strings.Byte.
From stdpp Require Import base tactics option numbers list.
From S2P Require Import Prelude Machine Errors Crates Post Primes Keys Derive Padding Tokens BlockV8 LegacyV7 StreamV8.

#[local] Open Scope Z_scope.
#[local] Open Scope napqes_scope.

(** ** Memory *)

Record region := MkRegion { cells : list Z; freed : bool }.
Abbreviation memory := (list region).

Definition region_at (h : memory) (p : nat) : region := default (MkRegion [] true) (h !! p).

(** A vector, or a boxed array, whose length is the capacity. *)
Record vec := MkVec { vec_ptr : nat; vec_len : nat }.

Definition capacity (h : memory) (v : vec) : nat := length (cells (region_at h (vec_ptr v))).
Definition vec_read (h : memory) (v : vec) : list Z := take (vec_len v) (cells (region_at h (vec_ptr v))).

Definition update_cells (f : list Z → list Z) (p : nat) (h : memory) : memory :=
  alter (λ r, MkRegion (f (cells r)) (freed r)) p h.

Definition release (p : nat) (h : memory) : memory := alter (λ r, MkRegion (cells r) true) p h.

(** A new region with these cells. *)
Definition allocate (contents : list Z) (h : memory) : nat * memory := (length h, h ++ [MkRegion contents false]).

(** [Vec::with_capacity]: what the allocator hands out is [fresh]. *)
Definition with_capacity (fresh : list Z) (h : memory) : vec * memory :=
  let '(p, h) := allocate fresh h in (MkVec p 0, h).

(** Making room for one more element: the contents move to a region of twice the size. *)
Definition reserve_one (v : vec) (h : memory) : vec * memory :=
  if bool_decide (vec_len v < capacity h v)%nat then (v, h)
  else
    let room := ((2 * capacity h v) `max` 4 - vec_len v)%nat in
    let '(p, h) := allocate (vec_read h v ++ replicate room 0) h in
    (MkVec p (vec_len v), release (vec_ptr v) h).

(** [v.insert(pos, x)]: the elements from [pos] on move up by one. *)
Definition vec_insert_at (pos : nat) (x : Z) (v : vec) (h : memory) : vec * memory :=
  let '(v, h) := reserve_one v h in
  let h := update_cells (λ c, take pos c ++ x :: slice pos (vec_len v) c ++ drop (S (vec_len v)) c) (vec_ptr v) h in
  (MkVec (vec_ptr v) (S (vec_len v)), h).

(** [v.push(x)]. *)
Definition vec_push (x : Z) (v : vec) (h : memory) : vec * memory :=
  let '(v, h) := reserve_one v h in
  (MkVec (vec_ptr v) (S (vec_len v)), update_cells <[vec_len v := x]> (vec_ptr v) h).

(** ** Wiping *)

(** [for x in s.iter_mut() { write_volatile(x, 0) }] on the first [n] cells. *)
Definition write_zeros (p n : nat) (h : memory) : memory :=
  foldl (λ h i, update_cells <[i := 0]> p h) h (seq 0 n).

Definition zeroize_key (v : vec) (h : memory) : memory := write_zeros (vec_ptr v) (vec_len v) h.
Definition zeroize_sk (p : nat) (h : memory) : memory := write_zeros p SK_SIZE h.

(** [buf.resize(cap, 0)] writes the spare cells, then every cell is written again, and
    [clear] sets the length. *)
Definition zeroize_codepoints (v : vec) (h : memory) : vec * memory :=
  let cap := capacity h v in
  let h := foldl (λ h i, update_cells <[i := 0]> (vec_ptr v) h) h (seq (vec_len v) (cap - vec_len v)) in
  let h := write_zeros (vec_ptr v) cap h in
  (MkVec (vec_ptr v) 0, h).

(** [Drop] of [Secret32], whose box is then released. *)
Definition drop_secret32 (p : nat) (h : memory) : memory := release p (write_zeros p 32 h).

(** [Drop] of [SecretBytes], the v7 key serialisation. *)
Definition drop_secret_bytes (v : vec) (h : memory) : memory :=
  release (vec_ptr v) (write_zeros (vec_ptr v) (vec_len v) h).

(** ** Key generation *)

(** The locals of [generate_prime_numbers] and the memory. *)
Record mem_keygen := MemKeygen { mk_primes : vec; mk_sorted : vec; mk_attempts : Z; mk_memory : memory }.

Definition mem_keygen_step (count max_attempts : Z) (draws : Z → Z) (s : mem_keygen)
    : mem_keygen + outcome (error * memory) mem_keygen :=
  if (Z.of_nat (vec_len (mk_primes s)) <? count) && (mk_attempts s <? max_attempts) then
    let num := draws (mk_attempts s) in
    continue_with (
      s' ← match binary_search num (vec_read (mk_memory s) (mk_sorted s)) with
      | None => Ok s
      | Some pos =>
          b ← is_prime num;
          Ok (if (b : bool)
              then
                let '(sorted, h) := vec_insert_at pos num (mk_sorted s) (mk_memory s) in
                let '(primes, h) := vec_push num (mk_primes s) h in
                MemKeygen primes sorted (mk_attempts s) h
              else s)
      end;
      attempts ← mk_attempts s' +64 1;
      Ok (MemKeygen (mk_primes s') (mk_sorted s') attempts (mk_memory s')))
  else inr (Ok s).

(** Locals are released when the function returns; an error carries the memory then. *)
Definition mem_generate_prime_numbers `{Gate} (draws : Z → Z) (count min_val max_val : Z)
    (fresh_primes fresh_sorted : list Z) (h : memory) : outcome (error * memory) (vec * memory) :=
  _ ← map_err (λ e, (e, h)) gated;
  if (count =? 0) || (MAX_KEY_ELEMENTS <? count) then Err (KeygenBadCount count, h)
  else if max_val <=? min_val then Err (KeygenEmptyRange min_val max_val, h)
  else
    let max_attempts := keygen_budget count in
    let '(primes, h) := with_capacity fresh_primes h in
    let '(sorted, h) := with_capacity fresh_sorted h in
    s ← while_loop 20 (mem_keygen_step count max_attempts draws) (MemKeygen primes sorted 0 h);
    let h := release (vec_ptr (mk_sorted s)) (zeroize_key (mk_sorted s) (mk_memory s)) in
    if Z.of_nat (vec_len (mk_primes s)) <? count
    then
      let h := release (vec_ptr (mk_primes s)) (zeroize_key (mk_primes s) h) in
      Err (KeygenExhausted count min_val max_val max_attempts, h)
    else Ok (mk_primes s, h).

(** ** [NapqesKey] *)

(** A variable bound to an array: what another one holds is copied. *)
Definition copy_array (p : nat) (h : memory) : nat * memory := allocate (cells (region_at h p)) h.

(** [generate_v8_key]: its local [sk] is drawn in place and copied into the result, which the
    caller binds; [fill] is the 32-byte draw. *)
Definition mem_generate_v8_key `{Gate} (draws : Z → Z) (fill : list byte) (count min_val max_val : Z)
    (fresh_primes fresh_sorted : list Z) (h : memory) : outcome (error * memory) (vec * nat * memory) :=
  _ ← map_err (λ e, (e, h)) gated;
  if negb ((MIN_KEY_PRIME <=? min_val) && (max_val <=? MAX_KEY_PRIME))
  then Err (KeygenOutsideInterval min_val max_val, h)
  else
    '(primes, h) ← mem_generate_prime_numbers draws count min_val max_val fresh_primes fresh_sorted h;
    let '(sk, h) := allocate (replicate SK_SIZE 0) h in
    let h := update_cells (λ _, byte_to_Z <$> fill) sk h in
    let '(result, h) := copy_array sk h in
    Ok (primes, result, release sk h).

Record mem_key := MemKey { key_primes : vec; key_sk : nat }.

(** [NapqesKey::new]: the parameter [sk] is a copy of the caller's array, and the field a copy
    of the parameter. *)
Definition mem_NapqesKey_new (primes : vec) (sk : nat) (h : memory) : outcome (error * memory) (mem_key * memory) :=
  let '(param, h) := copy_array sk h in
  match validate_key (vec_read h primes) with
  | Ok _ => let '(field, h) := copy_array param h in Ok (MemKey primes field, release param h)
  | Err e =>
      let h := zeroize_sk param (zeroize_key primes h) in
      Err (e, release param (release (vec_ptr primes) h))
  | Panic p => Panic p
  end.

Definition drop_key (k : mem_key) (h : memory) : memory :=
  let h := zeroize_sk (key_sk k) (zeroize_key (key_primes k) h) in
  release (key_sk k) (release (vec_ptr (key_primes k)) h).

(** [NapqesKey::generate], whose local [sk] is the caller's array of both calls. *)
Definition mem_NapqesKey_generate `{Gate} (draws : Z → Z) (fill : list byte) (fresh_primes fresh_sorted : list Z)
    (h : memory) : outcome (error * memory) (mem_key * memory) :=
  '(primes, sk, h) ← mem_generate_v8_key draws fill DEFAULT_KEY_COUNT MIN_KEY_PRIME MAX_KEY_PRIME
                       fresh_primes fresh_sorted h;
  match mem_NapqesKey_new primes sk h with
  | Ok (key, h) => Ok (key, release sk h)
  | Err (e, h) => Err (e, release sk h)
  | Panic p => Panic p
  end.

(** ** The incremental encryptor *)

(** The fields of [StreamV8Encryptor]: the vectors and the boxed [sk_fmt] are in memory. *)
Record mem_encryptor := MkMemEncryptor {
  me_primes : vec; me_sk_fmt : nat; me_aad : list byte; me_nonce : list byte; me_f : Z;
  me_chunk_idx : Z; me_total_real_cps : Z; me_cp_buf : vec; me_finished : bool }.

Definition sk_fmt_in (h : memory) (e : mem_encryptor) : list byte :=
  byte_of_Z <$> cells (region_at h (me_sk_fmt e)).

(** The encryptor of [StreamV8] it stands for. *)
Definition in_memory (h : memory) (e : mem_encryptor) : StreamV8Encryptor :=
  MkEncryptor (vec_read h (me_primes e)) (sk_fmt_in h e) (me_aad e) (me_nonce e) (me_f e)
    (me_chunk_idx e) (me_total_real_cps e) (vec_read h (me_cp_buf e)) (me_finished e).

(** The allocations of [new_validated]: [primes.to_vec()], the box and the buffer. *)
Definition mem_new_validated (e : StreamV8Encryptor) (fresh : list Z) (h : memory) : mem_encryptor * memory :=
  let '(p, h) := allocate (se_primes e) h in
  let '(s, h) := allocate (byte_to_Z <$> se_sk_fmt e) h in
  let '(buf, h) := with_capacity fresh h in
  (MkMemEncryptor (MkVec p (length (se_primes e))) s (se_aad e) (se_nonce e) (se_f e)
     (se_chunk_idx e) (se_total_real_cps e) buf (se_finished e), h).

Definition set_buffer (e : mem_encryptor) (idx total : Z) (buf : vec) (finished : bool) : mem_encryptor :=
  MkMemEncryptor (me_primes e) (me_sk_fmt e) (me_aad e) (me_nonce e) (me_f e) idx total buf finished.

Section encryptor_code.
Context `{Crypto} `{Gate}.

Definition mem_push (ch : Z) (e : mem_encryptor) (h : memory)
    : outcome error (option (list byte)) * (mem_encryptor * memory) :=
  if me_finished e then (Err StreamPushAfterFinish, (e, h))
  else match gated with
  | Err err => (Err err, (e, h))
  | Panic p => (Panic p, (e, h))
  | Ok _ =>
    if me_chunk_idx e =? 2 ^ 32 - 1 then (Err StreamChunkLimit, (e, h))
    else
      let '(buf, h) := vec_push ch (me_cp_buf e) h in
      match me_total_real_cps e +64 1 with
      | Ok total =>
        if bool_decide (Z.to_nat (me_f e) ≤ vec_len buf)%nat then
          let r :=
            chunk ← index_range 0 (Z.to_nat (me_f e)) (vec_read h buf);
            frame ← emit_stream_v8_chunk chunk (me_chunk_idx e) (vec_read h (me_primes e)) (sk_fmt_in h e)
                      (me_nonce e) (me_aad e);
            next ← checked_add 32 (me_chunk_idx e) 1;
            Ok (frame, next) in
          match r with
          | Ok (frame, next) =>
              let '(buf, h) := zeroize_codepoints buf h in
              (Ok (Some frame), (set_buffer e next total buf (me_finished e), h))
          | Err err => (Err err, (set_buffer e (me_chunk_idx e) total buf (me_finished e), h))
          | Panic p => (Panic p, (set_buffer e (me_chunk_idx e) total buf (me_finished e), h))
          end
        else (Ok None, (set_buffer e (me_chunk_idx e) total buf (me_finished e), h))
      | Err err => (Err err, (set_buffer e (me_chunk_idx e) (me_total_real_cps e) buf (me_finished e), h))
      | Panic p => (Panic p, (set_buffer e (me_chunk_idx e) (me_total_real_cps e) buf (me_finished e), h))
      end
  end.

(** [Drop], then the fields in order. *)
Definition drop_encryptor (e : mem_encryptor) (h : memory) : memory :=
  let h := zeroize_key (me_primes e) h in
  let '(buf, h) := zeroize_codepoints (me_cp_buf e) h in
  let h := release (vec_ptr (me_primes e)) h in
  let h := drop_secret32 (me_sk_fmt e) h in
  release (vec_ptr buf) h.

(** The filler of the last chunk is pushed one codepoint at a time. *)
Definition mem_fill (e : mem_encryptor) (h : memory) : outcome error (vec * memory) :=
  let sub_nonce_last := derive_stream_v8_sub_nonce (sk_fmt_in h e) (me_nonce e) (me_chunk_idx e) in
  fill_needed ← Z.of_nat (Z.to_nat (me_f e)) -! Z.of_nat (vec_len (me_cp_buf e));
  Ok (foldl (λ '(v, h) c, vec_push c v h) (me_cp_buf e, h)
        (derive_stream_v8_filler_cp (sk_fmt_in h e) sub_nonce_last <$> seqZ 0 fill_needed)).

(** [finish(mut self)] drops the encryptor on every path; the buffer and the memory at
    that point come with the result. *)
Definition mem_finish (e : mem_encryptor) (h : memory) : outcome error (list byte) * memory :=
  if me_finished e then (Err StreamFinishTwice, drop_encryptor e h)
  else match gated with
  | Err err => (Err err, drop_encryptor e h)
  | Panic p => (Panic p, drop_encryptor e h)
  | Ok _ =>
    match (if bool_decide (vec_len (me_cp_buf e) = 0)%nat then Ok (me_cp_buf e, h) else mem_fill e h) with
    | Err err => (Err err, drop_encryptor e h)
    | Panic p => (Panic p, drop_encryptor e h)
    | Ok (buf, h1) =>
        let primes := vec_read h1 (me_primes e) in
        let sk_fmt := sk_fmt_in h1 e in
        let r :=
          r ← (if bool_decide (vec_len (me_cp_buf e) = 0)%nat then Ok ([], me_chunk_idx e)
               else
                 frame ← emit_stream_v8_chunk (vec_read h1 buf) (me_chunk_idx e) primes sk_fmt
                           (me_nonce e) (me_aad e);
                 next ← checked_add 32 (me_chunk_idx e) 1;
                 Ok (frame, next));
          sentinel ← stream_v8_sentinel sk_fmt (me_f e) (me_nonce e) r.2 (me_aad e) (me_total_real_cps e);
          Ok (r.1 ++ sentinel) in
        (r, drop_encryptor (set_buffer e (me_chunk_idx e) (me_total_real_cps e) buf true) h1)
    end
  end.

(** A caller that pushes characters until it stops or a call panics, keeping the results;
    a refused call leaves the encryptor usable. *)
Fixpoint mem_run (chars : list Z) (e : mem_encryptor) (h : memory)
    : list (outcome error (option (list byte))) * (mem_encryptor * memory) :=
  match chars with
  | [] => ([], (e, h))
  | ch :: chars =>
      let '(r, (e', h')) := mem_push ch e h in
      match r with
      | Panic _ => ([r], (e', h'))
      | _ => let '(rs, st) := mem_run chars e' h' in (r :: rs, st)
      end
  end.

(** The same caller of the encryptor of [StreamV8]. *)
Fixpoint push_run (chars : list Z) (e : StreamV8Encryptor)
    : list (outcome error (option (list byte))) * StreamV8Encryptor :=
  match chars with
  | [] => ([], e)
  | ch :: chars =>
      let '(r, e') := push ch e in
      match r with
      | Panic _ => ([r], e')
      | _ => let '(rs, e'') := push_run chars e' in (r :: rs, e'')
      end
  end.
End encryptor_code.

(** ** Writing zeros *)

(** A freed region whose first [n] cells have been wiped; the others still have what the
    allocator handed out. *)
Definition erased (n : nat) (fresh : list Z) : region := MkRegion (replicate n 0 ++ drop n fresh) true.
Definition wiped (n : nat) : region := MkRegion (replicate n 0) true.

Lemma alter_app_at {A} (f : A → A) (h : list A) x l p : p = length h → alter f p (h ++ x :: l) = h ++ f x :: l.
Proof.
  intros ->. rewrite <-(Nat.add_0_r (length h)). induction h as [|y h IH]; [done|].
  cbn. f_equal. exact IH.
Qed.

Lemma update_cells_at f h r l p : p = length h → update_cells f p (h ++ r :: l) = h ++ MkRegion (f (cells r)) (freed r) :: l.
Proof. intros Hp. unfold update_cells. by rewrite (alter_app_at _ h r l p Hp). Qed.

Lemma release_at h r l p : p = length h → release p (h ++ r :: l) = h ++ MkRegion (cells r) true :: l.
Proof. intros Hp. unfold release. by rewrite (alter_app_at _ h r l p Hp). Qed.

Lemma region_at_app h r l p : p = length h → region_at (h ++ r :: l) p = r.
Proof. intros ->. unfold region_at. by rewrite lookup_app_r, Nat.sub_diag by lia. Qed.

Lemma alter_twice {A} (f g : A → A) p (h : list A) : alter f p (alter g p h) = alter (f ∘ g) p h.
Proof. revert p. induction h as [|x h IH]; intros [|p]; try done. cbn. f_equal. apply IH. Qed.

Lemma zero_cells_from i n (c : list Z) :
  (i + n ≤ length c)%nat →
  foldl (λ c k, <[k := 0]> c) c (seq i n) = take i c ++ replicate n 0 ++ drop (i + n) c.
Proof.
  revert i c. induction n as [|n IH]; intros i c Hl; cbn [seq foldl replicate].
  - by rewrite Nat.add_0_r, app_nil_l, take_drop.
  - rewrite IH by (rewrite length_insert; lia).
    rewrite (insert_take_drop c i) by lia.
    rewrite take_app_ge by (rewrite length_take; lia). rewrite length_take, Nat.min_l by lia.
    replace (S i - i)%nat with 1%nat by lia. cbn [take].
    rewrite (drop_app_ge _ _ (S i + n)) by (rewrite length_take; lia). rewrite length_take, Nat.min_l by lia.
    replace (S i + n - i)%nat with (S n) by lia. cbn [drop]. rewrite drop_drop.
    replace (i + S n)%nat with (S i + n)%nat by lia. rewrite <-app_assoc. cbn. done.
Qed.

Lemma fold_update (h : memory) p l :
  foldl (λ h i, update_cells <[i := 0]> p h) h l = update_cells (λ c, foldl (λ c k, <[k := 0]> c) c l) p h.
Proof.
  revert h. induction l as [|i l IH]; intros h; cbn [foldl].
  - unfold update_cells. symmetry. apply list_alter_id. by intros [c f].
  - rewrite IH. unfold update_cells. rewrite alter_twice. done.
Qed.

(** Cells [n] of the region after [h] become zero. *)
Lemma write_zeros_at p n h r l :
  p = length h → (n ≤ length (cells r))%nat →
  write_zeros p n (h ++ r :: l) = h ++ MkRegion (replicate n 0 ++ drop n (cells r)) (freed r) :: l.
Proof.
  intros Hp Hn. unfold write_zeros. rewrite fold_update, update_cells_at by done.
  by rewrite zero_cells_from by lia.
Qed.

(** ** Key generation leaves its index wiped *)

Lemma vec_read_at h r l p n : p = length h → vec_read (h ++ r :: l) (MkVec p n) = take n (cells r).
Proof. intros Hp. unfold vec_read. cbn [vec_ptr vec_len]. by rewrite region_at_app. Qed.

Lemma reserve_one_room v h : (vec_len v < capacity h v)%nat → reserve_one v h = (v, h).
Proof. intros Hr. unfold reserve_one. by rewrite bool_decide_eq_true_2. Qed.

Lemma capacity_at h r l p n : p = length h → capacity (h ++ r :: l) (MkVec p n) = length (cells r).
Proof. intros Hp. unfold capacity. cbn [vec_ptr]. by rewrite region_at_app. Qed.

(** Wiping a buffer zeroes its whole region and empties it. *)
Lemma zeroize_codepoints_region h c l p n :
  p = length h → (n ≤ length c)%nat →
  zeroize_codepoints (MkVec p n) (h ++ MkRegion c false :: l) = (MkVec p 0, h ++ MkRegion (replicate (length c) 0) false :: l).
Proof.
  intros Hp Hn. unfold zeroize_codepoints. cbn [vec_ptr vec_len]. rewrite capacity_at by done. cbn [cells]. f_equal.
  rewrite fold_update, update_cells_at by done. cbn [cells freed].
  rewrite zero_cells_from by lia. set (c' := take n c ++ _).
  assert (length c' = length c) as Hc'.
  { unfold c'. rewrite !length_app, length_take, length_replicate, length_drop. lia. }
  rewrite write_zeros_at by (done || (cbn [cells]; lia)). cbn [cells freed]. by rewrite drop_ge, app_nil_r by lia.
Qed.

(** Within the capacity a push writes one cell. *)
Lemma vec_push_at x h (xs fresh : list Z) l p n :
  p = length h → n = length xs → (n < length fresh)%nat →
  vec_push x (MkVec p n) (h ++ MkRegion (xs ++ drop n fresh) false :: l) =
  (MkVec p (S n), h ++ MkRegion ((xs ++ [x]) ++ drop (S n) fresh) false :: l).
Proof.
  intros Hp -> Hl. unfold vec_push. rewrite reserve_one_room.
  2: { rewrite capacity_at by done. cbn [cells vec_len]. rewrite length_app, length_drop. lia. }
  cbn [vec_ptr vec_len]. rewrite update_cells_at by done. cbn [cells freed].
  do 4 f_equal.
  rewrite insert_app_r_alt by lia. rewrite Nat.sub_diag, <-app_assoc. f_equal.
  destruct (drop (length xs) fresh) as [|y rest] eqn:Hd.
  { apply (f_equal length) in Hd. rewrite length_drop in Hd. cbn in Hd. lia. }
  cbn. f_equal. replace (S (length xs)) with (length xs + 1)%nat by lia. by rewrite <-drop_drop, Hd.
Qed.

Lemma vec_insert_at_at pos x h (xs fresh : list Z) l p n :
  p = length h → n = length xs → (n < length fresh)%nat → (pos ≤ n)%nat →
  vec_insert_at pos x (MkVec p n) (h ++ MkRegion (xs ++ drop n fresh) false :: l) =
  (MkVec p (S n), h ++ MkRegion (vec_insert pos x xs ++ drop (S n) fresh) false :: l).
Proof.
  intros Hp -> Hl Hpos. unfold vec_insert_at. rewrite reserve_one_room.
  2: { rewrite capacity_at by done. cbn [cells vec_len]. rewrite length_app, length_drop. lia. }
  cbn [vec_ptr vec_len]. rewrite update_cells_at by done. cbn [cells freed].
  do 4 f_equal. unfold vec_insert. rewrite take_app_le by lia. rewrite <-app_assoc. do 2 f_equal.
  unfold slice. rewrite drop_app_le by lia. rewrite take_app_le by (rewrite length_drop; lia).
  rewrite (take_ge (drop pos xs)) by (rewrite length_drop; lia). do 2 f_equal.
  rewrite drop_app_ge by lia. replace (S (length xs) - length xs)%nat with 1%nat by lia.
  rewrite drop_drop, Nat.add_1_r. done.
Qed.

Lemma length_vec_insert pos x xs : (pos ≤ length xs)%nat → length (vec_insert pos x xs) = S (length xs).
Proof. intros Hp. unfold vec_insert. rewrite length_app. cbn. rewrite length_take, length_drop. lia. Qed.

(** The locals in memory hold what the lists of [Keys] do, in the first cells of their
    two regions. *)
Definition keygen_in_memory (h : memory) (fp fs : list Z) (s : mem_keygen) (t : keygen_state) : Prop :=
  length (kg_sorted t) = length (kg_primes t) ∧
  (length (kg_primes t) ≤ length fp `min` length fs)%nat ∧
  s = MemKeygen (MkVec (length h) (length (kg_primes t))) (MkVec (S (length h)) (length (kg_primes t)))
        (kg_attempts t)
        (h ++ MkRegion (kg_primes t ++ drop (length (kg_primes t)) fp) false
           :: [MkRegion (kg_sorted t ++ drop (length (kg_primes t)) fs) false]).

(** The same memory, seen from its second region. *)
Lemma second_region (h : memory) r1 r2 : h ++ r1 :: [r2] = (h ++ [r1]) ++ r2 :: [].
Proof. by rewrite <-app_assoc. Qed.

Lemma second_ptr (h : memory) (r : region) : S (length h) = length (h ++ [r]).
Proof. rewrite length_app. cbn. lia. Qed.

Section keygen_memory.
Context (h : memory) (fp fs : list Z) (draws : Z → Z) (count min_val max_val : Z).
Hypothesis Hdraws : ∀ i, min_val ≤ draws i ≤ max_val.
Hypothesis Hmin : 0 ≤ min_val.
Hypothesis Hmax : max_val < 2 ^ 64.
Hypothesis Hfp : count ≤ Z.of_nat (length fp).
Hypothesis Hfs : count ≤ Z.of_nat (length fs).

Lemma mem_keygen_step_simulates max_attempts s t :
  max_attempts < 2 ^ 64 → 0 ≤ kg_attempts t → keygen_in_memory h fp fs s t →
  match mem_keygen_step count max_attempts draws s, keygen_step count max_attempts draws t with
  | inl s', inl t' => 0 ≤ kg_attempts t' ∧ keygen_in_memory h fp fs s' t'
  | inr (Ok s'), inr (Ok t') => keygen_in_memory h fp fs s' t'
  | _, _ => False
  end.
Proof using Hdraws Hmin Hmax Hfp Hfs.
  intros Hb Ha (Hlen & Hroom & ->). unfold mem_keygen_step, keygen_step. cbn [mk_primes mk_sorted mk_attempts mk_memory vec_len].
  destruct (_ && _) eqn:Hgo; [|by split]. reflect_bools.
  set (num := draws (kg_attempts t)). set (n := length (kg_primes t)) in *.
  assert (fits 64 num) as Hnum by (specialize (Hdraws (kg_attempts t)); unfold fits; subst num; lia).
  assert (vec_read (h ++ MkRegion (kg_primes t ++ drop n fp) false :: [MkRegion (kg_sorted t ++ drop n fs) false])
    (MkVec (S (length h)) n) = kg_sorted t) as ->.
  { rewrite second_region, vec_read_at by apply second_ptr. cbn [cells]. by rewrite <-Hlen, take_app_length. }
  destruct (binary_search num (kg_sorted t)) as [pos|] eqn:Hpos.
  - rewrite !is_prime_spec by done. rewrite !bind_Ok. case_bool_decide.
    + assert (pos ≤ length (kg_sorted t))%nat as Hle.
      { unfold binary_search in Hpos. case_bool_decide; [done|]. injection Hpos as <-. apply length_filter. }
      rewrite second_region.
      rewrite vec_insert_at_at by (apply second_ptr || lia).
      rewrite <-second_region. rewrite vec_push_at by (done || lia).
      cbn [mk_primes mk_sorted mk_attempts mk_memory kg_attempts kg_primes kg_sorted]. rewrite !checked_add_Ok, !bind_Ok by lia.
      cbn [continue_with kg_attempts]. split; [lia|]. split; cbn [kg_primes kg_sorted kg_attempts].
      * rewrite length_vec_insert by done. rewrite length_app. cbn. lia.
      * split; [rewrite length_app; cbn; lia|]. rewrite length_app. cbn [length]. fold n. by rewrite Nat.add_1_r.
    + rewrite !checked_add_Ok, !bind_Ok by (cbn; lia).
      cbn [continue_with kg_attempts]. split; [lia|]. by split.
  - rewrite !bind_Ok. rewrite !checked_add_Ok, !bind_Ok by (cbn; lia).
      cbn [continue_with kg_attempts]. split; [lia|]. by split.
Qed.
End keygen_memory.

Lemma erase_at h (xs fresh : list Z) b l p n :
  p = length h → n = length xs → (n ≤ length fresh)%nat →
  release p (write_zeros p n (h ++ MkRegion (xs ++ drop n fresh) b :: l)) = h ++ erased n fresh :: l.
Proof.
  intros Hp -> Hl. rewrite write_zeros_at by (done || (cbn; rewrite length_app; lia)).
  rewrite release_at by done. cbn [cells]. unfold erased. by rewrite drop_app_length.
Qed.

(** Generation in memory computes what [generate_prime_numbers] does. Its result is the
    only thing it leaves: the sorted index, and on failure the primes found so far, are
    wiped, and neither vector ever moved. *)
Lemma mem_generate_prime_numbers_spec `{Gate} draws count min_val max_val fp fs h :
  0 ≤ count → 0 ≤ min_val → max_val < 2 ^ 64 → (∀ i, min_val ≤ draws i ≤ max_val) →
  count ≤ Z.of_nat (length fp) → count ≤ Z.of_nat (length fs) →
  match mem_generate_prime_numbers draws count min_val max_val fp fs h,
        generate_prime_numbers draws count min_val max_val with
  | Ok (v, h'), Ok ps =>
      v = MkVec (length h) (length ps) ∧ (length ps ≤ length fp)%nat ∧
      h' = h ++ MkRegion (ps ++ drop (length ps) fp) false :: [erased (length ps) fs]
  | Err (e, h'), Err e' => e = e' ∧ (h' = h ∨ ∃ n, h' = h ++ erased n fp :: [erased n fs])
  | _, _ => False
  end.
Proof.
  intros Hc Hmin Hmax Hdraws Hfp Hfs.
  destruct gated_cases as [Hg|Hg]; unfold mem_generate_prime_numbers;
    [|unfold generate_prime_numbers; rewrite Hg; cbn; auto].
  pose proof (generate_prime_numbers_cases draws count min_val max_val Hg Hc Hmin Hmax Hdraws) as Hcases.
  revert Hcases. unfold generate_prime_numbers. rewrite Hg. cbn [map_err]. rewrite !bind_Ok.
  case_if; [by auto|]. case_if; [by auto|]. cbn [with_capacity allocate]. cbv zeta.
  set (s0 := MemKeygen _ _ _ _).
  assert (keygen_in_memory h fp fs s0 (KeygenState [] [] 0)) as Hs0.
  { split; [done|]. split; [cbn; lia|]. cbn. unfold s0. f_equal; [f_equal; rewrite length_app; cbn; lia|by rewrite <-app_assoc]. }
  assert (keygen_budget count < 2 ^ 64) as Hbudget by (unfold keygen_budget, saturating_mul; lia).
  pose proof (loop_simulates (mem_keygen_step count (keygen_budget count) draws) (keygen_step count (keygen_budget count) draws)
    (λ s t, 0 ≤ kg_attempts t ∧ keygen_in_memory h fp fs s t)
    (λ a b, match a, b with Ok s, Ok t => keygen_in_memory h fp fs s t | _, _ => False end) 20 s0 (KeygenState [] [] 0)) as Hsim.
  unfold while_loop. cbv beta in Hsim.
  assert (∀ s t, 0 ≤ kg_attempts t ∧ keygen_in_memory h fp fs s t →
    match mem_keygen_step count (keygen_budget count) draws s, keygen_step count (keygen_budget count) draws t with
    | inl s', inl t' => 0 ≤ kg_attempts t' ∧ keygen_in_memory h fp fs s' t'
    | inr a, inr b => match a, b with Ok s, Ok t => keygen_in_memory h fp fs s t | _, _ => False end
    | _, _ => False end) as Hstep.
  { intros s t [Ha HR]. pose proof (mem_keygen_step_simulates h fp fs draws count min_val max_val
      Hdraws Hmin Hmax Hfp Hfs _ s t Hbudget Ha HR) as Hst. revert Hst.
    destruct (mem_keygen_step _ _ _ s) as [|[]], (keygen_step _ _ _ t) as [|[]]; done. }
  specialize (Hsim Hstep (conj (Z.le_refl 0) Hs0)). clear Hstep Hs0.
  destruct (loop (mem_keygen_step _ _ _) 20 s0) as [s1|[s1|e1|p1]], (loop (keygen_step _ _ _) 20 _) as [t1|[t1|e2|p2]];
    try done.
  destruct Hsim as (Hlen & Hroom & ->). rewrite !bind_Ok. cbn [mk_primes mk_sorted mk_attempts mk_memory vec_ptr vec_len zeroize_key].
  unfold zeroize_key. cbn [vec_ptr vec_len]. set (n := length (kg_primes t1)) in *.
  rewrite second_region, erase_at by (apply second_ptr || lia). rewrite <-second_region.
  case_if; intros _.
  - rewrite erase_at by (done || lia). split; [done|]. right. by exists n.
  - split; [done|]. split; [lia|done].
Qed.

(** ** Keys *)

Lemma third_region (h : memory) r1 r2 r3 : h ++ r1 :: r2 :: [r3] = (h ++ [r1; r2]) ++ r3 :: [].
Proof. by rewrite <-app_assoc. Qed.

(** Regions behind those of [h], counted from there. *)
Section offset.
Context (h : memory).

Lemma allocate_off l c : allocate c (h ++ l) = ((length h + length l)%nat, h ++ (l ++ [MkRegion c false])).
Proof using Type. unfold allocate. by rewrite length_app, <-app_assoc. Qed.

Lemma update_cells_off f k l : update_cells f (length h + k) (h ++ l) = h ++ update_cells f k l.
Proof using Type. apply alter_app_r. Qed.

Lemma release_off k l : release (length h + k) (h ++ l) = h ++ release k l.
Proof using Type. apply alter_app_r. Qed.

Lemma region_at_off k l : region_at (h ++ l) (length h + k) = region_at l k.
Proof using Type. unfold region_at. by rewrite lookup_app_r, Nat.add_sub' by lia. Qed.

Lemma copy_array_off k l :
  copy_array (length h + k) (h ++ l) = ((length h + length l)%nat, h ++ (l ++ [MkRegion (cells (region_at l k)) false])).
Proof using Type. unfold copy_array. by rewrite region_at_off, allocate_off. Qed.

Lemma write_zeros_off k n l : (n ≤ length (cells (region_at l k)))%nat → (k < length l)%nat →
  write_zeros (length h + k) n (h ++ l) = h ++ update_cells (λ c, replicate n 0 ++ drop n c) k l.
Proof using Type.
  intros Hn Hk. unfold write_zeros. rewrite fold_update, update_cells_off. f_equal.
  unfold update_cells. apply list_eq. intros i. destruct (decide (i = k)) as [->|Hne].
  - destruct (l !! k) as [r|] eqn:Hr; [|by apply lookup_ge_None in Hr; lia].
    rewrite !list_lookup_alter_eq, Hr. cbn. do 2 f_equal.
    unfold region_at in Hn. rewrite Hr in Hn. cbn [default from_option id] in Hn. by rewrite zero_cells_from.
  - by rewrite !list_lookup_alter_ne.
Qed.
End offset.

(** A released array that nothing has wiped. *)
Definition kept (bytes : list byte) : region := MkRegion (byte_to_Z <$> bytes) true.

(** What [NapqesKey::new] leaves of a key it rejects: the primes and its copy of [sk] are wiped,
    the caller's array is as it was. *)
Lemma rejected_key_memory ps rest sk b e h :
  validate_key ps = Err e → length sk = SK_SIZE →
  mem_NapqesKey_new (MkVec (length h) (length ps)) (S (length h)) (h ++ [MkRegion (ps ++ rest) false; MkRegion sk b])
  = Err (e, h ++ [MkRegion (replicate (length ps) 0 ++ rest) true; MkRegion sk b; wiped SK_SIZE]).
Proof.
  intros Hv Hl. unfold mem_NapqesKey_new. replace (S (length h)) with (length h + 1)%nat by lia.
  rewrite copy_array_off. cbn [length region_at app lookup list_lookup default from_option id cells].
  rewrite vec_read_at by done. cbn [cells]. rewrite take_app_length, Hv.
  unfold zeroize_sk, zeroize_key. cbn [vec_ptr vec_len].
  replace (write_zeros (length h)) with (write_zeros (length h + 0)) by (by rewrite Nat.add_0_r).
  replace (release (length h)) with (release (length h + 0)) by (by rewrite Nat.add_0_r).
  rewrite write_zeros_off by (cbn; rewrite ?length_app; lia). cbn [update_cells alter list_alter cells freed].
  rewrite drop_app_length, write_zeros_off by (cbn; lia). cbn [update_cells alter list_alter cells freed].
  rewrite !release_off. cbn [release alter list_alter cells freed]. rewrite (drop_ge sk), app_nil_r by lia. done.
Qed.

Lemma bytes_of_cells (bytes : list byte) : byte_of_Z <$> (byte_to_Z <$> bytes) = bytes.
Proof.
  rewrite <-list_fmap_compose. rewrite <-(list_fmap_id bytes) at 2. apply list_fmap_ext.
  intros i b _. cbn. apply byte_of_to_Z.
Qed.

(** C27: what key generation and destruction leave in memory. [NapqesKey::generate] yields the
    key the library computes, and after the key is dropped every cell of its primes, of the
    sorted index used while drawing and of its [sk] is zero, except the cells the allocator
    handed out and that were never written; neither vector outgrows the capacity it was given,
    so that no copy of a prime is left in a released region. But three copies of [sk] stay as
    they were: the local of [generate_v8_key], the local of [generate] and the parameter of
    [new], which are arrays and which nothing wipes. When generation fails, which is before
    [sk] is drawn, every prime drawn is already wiped. And a key that [new] rejects is wiped
    with the copy of [sk] that [new] was given, while the array of its caller is left. *)
Theorem generated_key_memory `{Gate} draws fill fp fs h :
  (∀ i, MIN_KEY_PRIME ≤ draws i ≤ MAX_KEY_PRIME) → length fill = SK_SIZE →
  DEFAULT_KEY_COUNT ≤ Z.of_nat (length fp) → DEFAULT_KEY_COUNT ≤ Z.of_nat (length fs) →
  match mem_NapqesKey_generate draws fill fp fs h, NapqesKey_generate draws fill with
  | Ok (k, h'), Ok key =>
      vec_read h' (key_primes k) = primes key ∧ byte_of_Z <$> cells (region_at h' (key_sk k)) = sk key ∧
      drop_key k h' = h ++ [erased (length (primes key)) fp; erased (length (primes key)) fs;
                            kept (sk key); kept (sk key); kept (sk key); wiped SK_SIZE]
  | Err (e, h'), Err e' => e = e' ∧ (h' = h ∨ ∃ n, h' = h ++ [erased n fp; erased n fs])
  | _, _ => False
  end ∧
  (∀ ps rest e b, validate_key ps = Err e →
     mem_NapqesKey_new (MkVec (length h) (length ps)) (S (length h))
       (h ++ [MkRegion (ps ++ rest) false; MkRegion (byte_to_Z <$> fill) b])
     = Err (e, h ++ [MkRegion (replicate (length ps) 0 ++ rest) true; MkRegion (byte_to_Z <$> fill) b; wiped SK_SIZE])).
Proof.
  intros Hdraws Hfill Hfp Hfs. assert (length (byte_to_Z <$> fill) = SK_SIZE) as Hsk by (by rewrite length_fmap).
  split; [|by intros; apply rejected_key_memory].
  pose proof (mem_generate_prime_numbers_spec draws DEFAULT_KEY_COUNT MIN_KEY_PRIME MAX_KEY_PRIME fp fs h
    ltac:(done) ltac:(done) ltac:(done) Hdraws Hfp Hfs) as Hgen.
  unfold mem_NapqesKey_generate, mem_generate_v8_key, NapqesKey_generate, generate_v8_key.
  change (negb ((MIN_KEY_PRIME <=? MIN_KEY_PRIME) && (MAX_KEY_PRIME <=? MAX_KEY_PRIME))) with false. cbn iota.
  destruct gated_cases as [Hg|Hg]; rewrite Hg; [|cbn; auto]. cbn [map_err]. rewrite !bind_Ok.
  pose proof (generate_prime_numbers_correct draws DEFAULT_KEY_COUNT MIN_KEY_PRIME MAX_KEY_PRIME
    Hg ltac:(done) ltac:(done) ltac:(done) Hdraws) as Hprimes.
  destruct (mem_generate_prime_numbers _ _ _ _ _ _ _) as [[v h1]|[e h1]|?], (generate_prime_numbers _ _ _ _) as [ps|e'|?];
    try done; cbn iota in Hprimes.
  assert (valid_key ps) as Hvalid.
  { destruct Hprimes as (Hl & Hnd & Hp & _). split_and!; [by intros ->|by rewrite Hl|exact Hp|exact Hnd]. }
  destruct Hgen as (-> & Hl & ->). rewrite !bind_Ok. cbn [fst snd]. unfold NapqesKey_new.
  rewrite validate_key_valid, !bind_Ok by done. set (Re := erased _ fs). set (n := length ps) in *.
  rewrite allocate_off. cbn [length app]. rewrite update_cells_off. cbn [update_cells alter list_alter freed].
  rewrite copy_array_off. cbn [length app region_at lookup list_lookup default from_option id cells].
  rewrite release_off. cbn [release alter list_alter cells freed].
  rewrite bind_Ok. unfold mem_NapqesKey_new. rewrite copy_array_off. cbn [length app region_at lookup list_lookup default from_option id cells].
  rewrite vec_read_at by done. cbn [cells]. unfold n. rewrite take_app_length, validate_key_valid by done. fold n.
  rewrite copy_array_off. cbn [length app region_at lookup list_lookup default from_option id cells].
  rewrite !release_off. cbn [release alter list_alter cells freed key_primes key_sk Keys.primes Keys.sk].
  rewrite vec_read_at, region_at_off by done. cbn [region_at lookup list_lookup default from_option id cells].
  split_and!; [unfold n; by rewrite take_app_length|apply bytes_of_cells|].
  unfold drop_key, zeroize_sk, zeroize_key. cbn [vec_ptr vec_len key_primes key_sk].
  replace (write_zeros (length h)) with (write_zeros (length h + 0)) by (by rewrite Nat.add_0_r).
  replace (release (length h)) with (release (length h + 0)) by (by rewrite Nat.add_0_r).
  rewrite write_zeros_off by (cbn; rewrite ?length_app; fold n; lia). cbn [update_cells alter list_alter cells freed].
  rewrite write_zeros_off by (cbn; lia). cbn [update_cells alter list_alter cells freed].
  rewrite !release_off. cbn [release alter list_alter cells freed].
  unfold n at 2. rewrite drop_app_length, (drop_ge (_ <$> fill)), app_nil_r by lia. done.
Qed.

Lemma generated_key_memory_witness :
  let _ := default_build in
  let fresh := replicate (Z.to_nat DEFAULT_KEY_COUNT) 7 in let fill := replicate 32 x05 in
  (∀ i : Z, MIN_KEY_PRIME ≤ MIN_KEY_PRIME + i `mod` 64 ≤ MAX_KEY_PRIME) ∧
  match mem_NapqesKey_generate (λ i, MIN_KEY_PRIME + i `mod` 64) fill fresh fresh [],
        NapqesKey_generate (λ i, MIN_KEY_PRIME + i `mod` 64) fill with
  | Ok (k, h'), Ok key =>
      vec_read h' (key_primes k) = primes key ∧ byte_of_Z <$> cells (region_at h' (key_sk k)) = sk key ∧
      drop_key k h' = [] ++ [erased (length (primes key)) fresh; erased (length (primes key)) fresh;
                             kept (sk key); kept (sk key); kept (sk key); wiped SK_SIZE]
  | Err (e, h'), Err e' => e = e' ∧ (h' = [] ∨ ∃ n, h' = [] ++ [erased n fresh; erased n fresh])
  | _, _ => False
  end.
Proof.
  intros G fresh fill.
  assert (∀ i : Z, MIN_KEY_PRIME ≤ MIN_KEY_PRIME + i `mod` 64 ≤ MAX_KEY_PRIME) as Hdraws.
  { intros i. pose proof (Z.mod_pos_bound i 64 ltac:(lia)). unfold MIN_KEY_PRIME, MAX_KEY_PRIME. lia. }
  split; [exact Hdraws|].
  assert (DEFAULT_KEY_COUNT ≤ Z.of_nat (length fresh)) as Hfresh by (unfold fresh; rewrite length_replicate; lia).
  assert (length fill = SK_SIZE) as Hfill by reflexivity.
  destruct (generated_key_memory (λ i, MIN_KEY_PRIME + i `mod` 64) fill fresh fresh [] Hdraws Hfill Hfresh Hfresh) as [Hk _].
  exact Hk.
Defined.

(** ** The v7 key serialisation *)

(** Dropping a [SecretBytes] wipes it whole: its vector is exactly as long as the bytes
    collected into it. *)
Lemma drop_secret_bytes_wipes bytes h :
  let '(p, h1) := allocate bytes h in
  drop_secret_bytes (MkVec p (length bytes)) h1 = h ++ [wiped (length bytes)].
Proof.
  unfold allocate, drop_secret_bytes. cbn [vec_ptr vec_len].
  rewrite write_zeros_at by done. cbn [cells freed]. rewrite drop_ge, app_nil_r by done. by rewrite release_at.
Qed.

(** ** The encryptor leaves nothing *)

Section encryptor_memory.
Context `{Crypto} `{Gate} (h0 : memory) (primes : list Z) (sk_fmt : list byte) (f : Z) (cap : nat).
Context (Hkey : arith_key primes) (Hf : 1 ≤ f ≤ STREAM_AE_V8_MAX_FRAME) (Hcap : f ≤ Z.of_nat cap).

(** The three regions of the encryptor, the last with these cells. *)
Definition encryptor_regions (c : list Z) : memory :=
  h0 ++ MkRegion primes false :: MkRegion (byte_to_Z <$> sk_fmt) false :: [MkRegion c false].

(** The encryptor owns them, with [buf] as the live part of its buffer. *)
Record owns (buf : list Z) (e : mem_encryptor) (h : memory) : Prop := Owns {
  o_memory : ∃ rest, h = encryptor_regions (buf ++ rest) ∧ length (buf ++ rest) = cap;
  o_primes : me_primes e = MkVec (length h0) (length primes);
  o_sk_fmt : me_sk_fmt e = S (length h0);
  o_cp_buf : me_cp_buf e = MkVec (S (S (length h0))) (length buf);
  o_f : me_f e = f;
  o_room : Z.of_nat (length buf) ≤ f }.

Lemma sk_fmt_ptr r : S (length h0) = length (h0 ++ [r]).
Proof using Type. by rewrite length_app, Nat.add_comm. Qed.

Lemma buffer_ptr r1 r2 : S (S (length h0)) = length (h0 ++ [r1; r2]).
Proof using Type. by rewrite length_app, Nat.add_comm. Qed.

Lemma owns_primes buf e h : owns buf e h → vec_read h (me_primes e) = primes.
Proof using Type.
  intros [(rest & -> & _) -> _ _ _ _]. unfold encryptor_regions. rewrite vec_read_at by done. cbn [cells].
  by rewrite take_ge.
Qed.

Lemma owns_sk_fmt buf e h : owns buf e h → sk_fmt_in h e = sk_fmt.
Proof using Type.
  intros [(rest & -> & _) _ Hs _ _ _]. unfold sk_fmt_in, encryptor_regions.
  rewrite Hs.
  replace (h0 ++ MkRegion primes false :: MkRegion (byte_to_Z <$> sk_fmt) false :: [MkRegion (buf ++ rest) false])
    with ((h0 ++ [MkRegion primes false]) ++ MkRegion (byte_to_Z <$> sk_fmt) false :: [MkRegion (buf ++ rest) false])
    by (by rewrite <-app_assoc).
  rewrite region_at_app by apply sk_fmt_ptr. cbn [cells].
  rewrite <-list_fmap_compose. rewrite <-(list_fmap_id sk_fmt) at 2. apply list_fmap_ext.
  intros i b _. cbn. apply byte_of_to_Z.
Qed.

Lemma owns_cp_buf buf e h : owns buf e h → vec_read h (me_cp_buf e) = buf.
Proof using Type.
  intros [(rest & -> & _) _ _ -> _ _]. unfold encryptor_regions.
  rewrite third_region, vec_read_at by apply buffer_ptr. cbn [cells]. by rewrite take_app_length.
Qed.

Lemma owns_in_memory buf e h :
  owns buf e h →
  in_memory h e = MkEncryptor primes sk_fmt (me_aad e) (me_nonce e) f (me_chunk_idx e) (me_total_real_cps e) buf (me_finished e).
Proof using Type.
  intros Ho. unfold in_memory. rewrite (owns_primes _ _ _ Ho), (owns_sk_fmt _ _ _ Ho), (owns_cp_buf _ _ _ Ho).
  by rewrite (o_f _ _ _ Ho).
Qed.

(** Below a full frame a push stays within the buffer's region. *)
Lemma owns_push buf e h ch idx total fin :
  owns buf e h → Z.of_nat (length buf) < f →
  let '(v, h') := vec_push ch (me_cp_buf e) h in
  v = MkVec (S (S (length h0))) (length (buf ++ [ch])) ∧ owns (buf ++ [ch]) (set_buffer e idx total v fin) h'.
Proof using Hf Hcap.
  intros [(rest & -> & Hlen) Hp Hs Hb Hef Hroom] Hlt. rewrite Hb. unfold encryptor_regions. rewrite third_region.
  assert (length buf < length (buf ++ rest))%nat as Hl by lia.
  pose proof (vec_push_at ch (h0 ++ [MkRegion primes false; MkRegion (byte_to_Z <$> sk_fmt) false]) buf (buf ++ rest) []
    (S (S (length h0))) (length buf) (buffer_ptr _ _) eq_refl Hl) as Hpush.
  rewrite drop_app_length in Hpush. rewrite Hpush, <-third_region.
  assert (length (buf ++ [ch]) = S (length buf)) as Hl1 by (rewrite length_app; cbn; lia).
  split; [by rewrite Hl1|]. split; cbn [set_buffer me_primes me_sk_fmt me_cp_buf me_f]; try done; [|by rewrite Hl1|lia].
  exists (drop (S (length buf)) (buf ++ rest)). split; [done|].
  rewrite length_app, length_drop, Hl1. lia.
Qed.

(** Wiping the buffer empties it. *)
Lemma zeroize_codepoints_at c n r1 r2 :
  (n ≤ length c)%nat →
  zeroize_codepoints (MkVec (S (S (length h0))) n) (h0 ++ r1 :: r2 :: [MkRegion c false]) =
  (MkVec (S (S (length h0))) 0, h0 ++ r1 :: r2 :: [MkRegion (replicate (length c) 0) false]).
Proof using Hf Hcap.
  intros Hn. rewrite third_region. rewrite zeroize_codepoints_region by (done || apply buffer_ptr). by rewrite <-third_region.
Qed.

Lemma owns_zeroize buf e h idx total fin :
  owns buf e h →
  let '(v, h') := zeroize_codepoints (me_cp_buf e) h in
  owns [] (set_buffer e idx total v fin) h' ∧ h' = encryptor_regions (replicate cap 0).
Proof using Hf Hcap.
  intros [(rest & -> & Hlen) Hp Hs Hb Hef Hroom]. rewrite Hb. unfold encryptor_regions.
  rewrite zeroize_codepoints_at by (rewrite length_app; lia). rewrite Hlen.
  split; [|done]. split; cbn [set_buffer me_primes me_sk_fmt me_cp_buf me_f]; try done; [|cbn; lia].
  exists (replicate cap 0). split; [done|]. cbn [app]. apply length_replicate.
Qed.

(** Dropping wipes all three regions. *)
Lemma owns_drop buf e h :
  owns buf e h → length sk_fmt = 32%nat →
  drop_encryptor e h = h0 ++ wiped (length primes) :: wiped 32 :: [wiped cap].
Proof using Hf Hcap.
  intros [(rest & -> & Hlen) Hp Hs Hb Hef Hroom] Hsk. unfold drop_encryptor. rewrite Hp, Hs, Hb.
  unfold encryptor_regions, zeroize_key. cbn [vec_ptr vec_len].
  rewrite write_zeros_at by done. cbn [cells freed]. rewrite drop_ge, app_nil_r by done.
  rewrite zeroize_codepoints_at by (rewrite length_app; lia). rewrite Hlen, release_at by done. cbn [cells vec_ptr].
  unfold drop_secret32.
  set (r1 := MkRegion (replicate (length primes) 0) true). set (r3 := MkRegion (replicate cap 0) false).
  replace (h0 ++ r1 :: MkRegion (byte_to_Z <$> sk_fmt) false :: [r3])
    with ((h0 ++ [r1]) ++ MkRegion (byte_to_Z <$> sk_fmt) false :: [r3]) by (by rewrite <-app_assoc).
  rewrite write_zeros_at by (apply sk_fmt_ptr || (cbn [cells]; rewrite length_fmap; lia)).
  cbn [cells freed]. rewrite drop_ge, app_nil_r by (rewrite length_fmap; lia).
  rewrite release_at by apply sk_fmt_ptr. cbn [cells]. rewrite <-app_assoc. cbn [app].
  rewrite third_region, release_at by apply buffer_ptr. by rewrite <-third_region.
Qed.

Lemma owns_set_buffer buf e h idx total fin :
  owns buf e h → owns buf (set_buffer e idx total (me_cp_buf e) fin) h.
Proof using Type. by intros []. Qed.

(** One push in memory is one push of the encryptor it stands for. After a panic the
    encryptor can only be dropped. *)
Lemma mem_push_sim buf e h ch :
  owns buf e h → Z.of_nat (length buf) < f → str_ok buf → is_scalar ch = true →
  let '(r, (e', h')) := mem_push ch e h in
  let '(r', t') := push ch (in_memory h e) in
  r = r' ∧ ∃ buf', owns buf' e' h' ∧
    (no_panic r → Z.of_nat (length buf') < f ∧ str_ok buf' ∧ in_memory h' e' = t') ∧
    (∀ frame, r = Ok (Some frame) → h' = encryptor_regions (replicate cap 0)).
Proof using Hkey Hf Hcap.
  intros Ho Hl Hs Hch. pose proof (owns_in_memory _ _ _ Ho) as Him.
  rewrite Him. unfold mem_push, push.
  cbn [se_finished se_chunk_idx se_total_real_cps se_cp_buf se_primes se_sk_fmt se_aad se_nonce se_f].
  assert (∀ r : outcome error (option (list byte)), (∀ frame, r ≠ Ok (Some frame)) → r = r ∧ ∃ buf', owns buf' e h ∧
    (no_panic r → Z.of_nat (length buf') < f ∧ str_ok buf' ∧ in_memory h e =
       MkEncryptor primes sk_fmt (me_aad e) (me_nonce e) f (me_chunk_idx e) (me_total_real_cps e) buf (me_finished e)) ∧
    (∀ frame, r = Ok (Some frame) → h = encryptor_regions (replicate cap 0))) as Hsame.
  { intros r Hr. split; [done|]. exists buf. split; [done|]. split; [done|]. intros frame Hx. by destruct (Hr frame). }
  destruct (me_finished e) eqn:Hfin; [by apply Hsame|]. destruct gated as [[]|err|p]; [|by apply Hsame..].
  destruct (me_chunk_idx e =? 2 ^ 32 - 1); [by apply Hsame|]. clear Hsame.
  pose proof (owns_push buf e h ch) as Hpush. rewrite (o_f _ _ _ Ho).
  destruct (vec_push ch (me_cp_buf e) h) as [v h1].
  assert (∀ idx total fin, owns (buf ++ [ch]) (set_buffer e idx total v fin) h1) as Ho1
    by (intros idx total fin; by apply (Hpush idx total fin)).
  destruct (Hpush 0 0 false Ho Hl) as [-> _]. clear Hpush. cbn [vec_len].
  assert (str_ok (buf ++ [ch])) as Hs1 by (apply Forall_app_2; [done|]; by constructor).
  assert (Z.of_nat (length (buf ++ [ch])) = Z.of_nat (length buf) + 1) as Hl1 by (rewrite length_app; cbn; lia).
  pose proof (Ho1 0 0 false) as Ho0.
  assert (vec_read h1 (MkVec (S (S (length h0))) (length (buf ++ [ch]))) = buf ++ [ch]) as -> by apply (owns_cp_buf _ _ _ Ho0).
  assert (vec_read h1 (me_primes e) = primes) as -> by apply (owns_primes _ _ _ Ho0).
  assert (sk_fmt_in h1 e = sk_fmt) as -> by apply (owns_sk_fmt _ _ _ Ho0).
  destruct (me_total_real_cps e +64 1) as [total|err|p] eqn:Htotal.
  2,3: split; [done|]; exists (buf ++ [ch]); split; [apply Ho1|]; split; [|done]; unfold checked_add in Htotal; by case_match.
  case_bool_decide as Hfull.
  - rewrite index_range_Ok, bind_Ok by lia. rewrite slice_full by lia.
    destruct (emit_chunk_Ok primes sk_fmt (me_aad e) f (me_nonce e) Hkey Hf (me_chunk_idx e) (buf ++ [ch]) Hs1 ltac:(lia))
      as (body & -> & _). rewrite bind_Ok.
    destruct (checked_add 32 (me_chunk_idx e) 1) as [next|err|p] eqn:Hnext.
    2,3: split; [done|]; exists (buf ++ [ch]); split; [apply Ho1|]; split; [|done]; unfold checked_add in Hnext; by case_match.
    rewrite bind_Ok.
    pose proof (owns_zeroize _ _ _ next total false (Ho1 (me_chunk_idx e) total false)) as Hz. cbn [set_buffer me_cp_buf] in Hz.
    destruct (zeroize_codepoints _ h1) as [v2 h2]. destruct Hz as [Hz Hzero]. split; [done|]. exists []. split; [done|].
    split; [|by intros]. intros _. split; [cbn; lia|]. split; [constructor|]. apply (owns_in_memory _ _ _ Hz).
  - split; [done|]. exists (buf ++ [ch]). split; [apply Ho1|]. split; [|done]. intros _. split; [lia|]. split; [done|].
    apply (owns_in_memory _ _ _ (Ho1 _ _ _)).
Qed.

Lemma mem_run_none chars e h : (mem_run chars e h).1 = [] → mem_run chars e h = ([], (e, h)).
Proof using Type.
  destruct chars as [|ch chars]; [done|]. cbn [mem_run]. destruct (mem_push ch e h) as [r [e1 h1]].
  destruct r; [..|done]; by destruct (mem_run chars e1 h1) as [rs [e2 h2]].
Qed.

Lemma mem_run_sim chars buf e h :
  owns buf e h → Z.of_nat (length buf) < f → str_ok buf → str_ok chars →
  let '(rs, (e', h')) := mem_run chars e h in
  let '(rs', t') := push_run chars (in_memory h e) in
  rs = rs' ∧ ∃ buf', owns buf' e' h' ∧ (Forall no_panic rs → str_ok buf' ∧ in_memory h' e' = t') ∧
    (∀ frame, last rs = Some (Ok (Some frame)) → h' = encryptor_regions (replicate cap 0)).
Proof using Hkey Hf Hcap.
  revert buf e h. induction chars as [|ch chars IH]; intros buf e h Ho Hl Hs Hchars; cbn [mem_run push_run].
  { split; [done|]. exists buf. by split_and!. }
  apply Forall_cons in Hchars as [Hch Hchars].
  pose proof (mem_push_sim buf e h ch Ho Hl Hs Hch) as Hpush.
  destruct (mem_push ch e h) as [r [e1 h1]], (push ch (in_memory h e)) as [r' t1].
  destruct Hpush as (<- & buf1 & Ho1 & Hok & Hzero).
  assert (no_panic r ∨ ∃ p, r = Panic p) as [Hr|[p ->]] by (destruct r; [by left..|by right; eexists]).
  2: { split; [done|]. exists buf1. split; [done|]. split; [|done]. intros Hall. by apply Forall_cons in Hall as [[] _]. }
  destruct (Hok Hr) as (Hl1 & Hs1 & Heq). specialize (IH buf1 e1 h1 Ho1 Hl1 Hs1 Hchars). rewrite Heq in IH.
  pose proof (mem_run_none chars e1 h1) as Hnone.
  destruct (mem_run chars e1 h1) as [rs [e2 h2]], (push_run chars t1) as [rs' t2].
  destruct IH as (<- & buf2 & Ho2 & Hok2 & Hzero2).
  assert (∀ frame, last (r :: rs) = Some (Ok (Some frame)) → h2 = encryptor_regions (replicate cap 0)) as Hlast.
  { intros frame Hlast. destruct rs as [|r2 rs]; [|by apply (Hzero2 frame)].
    injection (Hnone eq_refl) as -> ->. injection Hlast as ->. by apply (Hzero frame). }
  destruct r; [..|done]; (split; [done|]); exists buf2; (split; [done|]); (split; [|done]);
    intros Hall; apply Hok2; by apply Forall_cons in Hall as [_ Hall].
Qed.

(** Pushing the filler. *)
Lemma owns_pushes cs buf e h idx total fin :
  owns buf e h → Z.of_nat (length buf) + Z.of_nat (length cs) ≤ f →
  let '(v, h') := foldl (λ '(v, h) c, vec_push c v h) (me_cp_buf e, h) cs in
  owns (buf ++ cs) (set_buffer e idx total v fin) h'.
Proof using Hf Hcap.
  revert buf e h. induction cs as [|c cs IH]; intros buf e h Ho Hl; cbn [foldl].
  { rewrite app_nil_r. by apply owns_set_buffer. }
  cbn [length] in Hl. pose proof (owns_push buf e h c idx total fin Ho ltac:(lia)) as Hpush.
  destruct (vec_push c (me_cp_buf e) h) as [v h1]. destruct Hpush as [_ Ho1].
  specialize (IH (buf ++ [c]) (set_buffer e idx total v fin) h1 Ho1). cbn [set_buffer me_cp_buf] in IH.
  rewrite <-app_assoc in IH. cbn [app] in IH. apply IH. rewrite length_app. cbn. lia.
Qed.

(** [finish] in memory gives the result of the encryptor it stands for, and wipes. *)
Lemma mem_finish_spec buf e h :
  owns buf e h → str_ok buf → length sk_fmt = 32%nat →
  mem_finish e h = (finish (in_memory h e), h0 ++ wiped (length primes) :: wiped 32 :: [wiped cap]).
Proof using Hkey Hf Hcap.
  intros Ho Hs Hsk. rewrite (owns_in_memory _ _ _ Ho). unfold mem_finish, finish.
  cbn [se_finished se_chunk_idx se_total_real_cps se_cp_buf se_primes se_sk_fmt se_aad se_nonce se_f].
  pose proof (owns_drop _ _ _ Ho Hsk) as Hdrop.
  destruct (me_finished e); [by rewrite Hdrop|]. destruct gated as [[]|err|p]; [|by rewrite Hdrop..].
  rewrite bind_Ok. assert (vec_len (me_cp_buf e) = length buf) as Hvl by (by rewrite (o_cp_buf _ _ _ Ho)).
  pose proof (o_room _ _ _ Ho) as Hroom. pose proof (o_f _ _ _ Ho) as Hef.
  rewrite !Hvl.
  assert (bool_decide (length buf = 0)%nat = bool_decide (buf = [])) as ->
    by (apply bool_decide_ext; by destruct buf).
  case_bool_decide as Hempty.
  { cbv beta iota zeta. rewrite (owns_sk_fmt _ _ _ Ho), Hef. f_equal.
    by apply (owns_drop buf); [apply owns_set_buffer|]. }
  destruct (fill_chunk_Ok sk_fmt f (me_nonce e) Hf (me_chunk_idx e) buf Hroom Hs) as (filler & Hfill & Hsf & Hlf).
  rewrite Hfill, bind_Ok. unfold mem_fill. rewrite (owns_sk_fmt _ _ _ Ho), Hef, Hvl.
  unfold fill_chunk in Hfill. rewrite checked_sub_Ok in Hfill by lia.
  rewrite bind_Ok in Hfill. rewrite checked_sub_Ok, bind_Ok by lia. injection Hfill as Hfill.
  apply app_inv_head in Hfill. cbv zeta. rewrite Hfill.
  rewrite length_app in Hlf.
  pose proof (owns_pushes filler buf e h (me_chunk_idx e) (me_total_real_cps e) true Ho ltac:(lia)) as Hpush.
  match type of Hpush with context [foldl ?g ?a ?l] => destruct (foldl g a l) as [v h1] end.
  cbv beta iota zeta.
  assert (vec_read h1 v = buf ++ filler) as -> by apply (owns_cp_buf _ _ _ Hpush).
  assert (vec_read h1 (me_primes e) = primes) as -> by apply (owns_primes _ _ _ Hpush).
  assert (sk_fmt_in h1 e = sk_fmt) as -> by apply (owns_sk_fmt _ _ _ Hpush).
  f_equal. by apply (owns_drop (buf ++ filler)).
Qed.

(** The allocations of the constructor. *)
Lemma owns_new e fresh :
  se_primes e = primes → se_sk_fmt e = sk_fmt → se_f e = f → se_cp_buf e = [] → length fresh = cap →
  let '(me, h) := mem_new_validated e fresh h0 in owns [] me h ∧ in_memory h me = e.
Proof using Hf Hcap.
  destruct e as [eps esk eaad enonce ef eidx etotal ebuf efin]. cbn [se_primes se_sk_fmt se_f se_cp_buf].
  intros -> -> -> -> Hfresh. unfold mem_new_validated. cbn [allocate with_capacity se_primes se_sk_fmt se_aad se_nonce se_f
    se_chunk_idx se_total_real_cps se_finished].
  match goal with |- owns _ ?me ?h ∧ _ => assert (owns [] me h) as Ho end.
  { split; cbn [me_primes me_sk_fmt me_cp_buf me_f length]; try done; [|by rewrite length_app, Nat.add_comm| |lia].
    - exists fresh. split; [|done]. unfold encryptor_regions. by rewrite <-!app_assoc.
    - by rewrite !length_app, !(Nat.add_comm _ (length [_])). }
  split; [done|]. by rewrite (owns_in_memory _ _ _ Ho).
Qed.
End encryptor_memory.

(** C28: A stream encryptor leaves neither key material nor plaintext behind. In memory,
    pushing any characters gives what the encryptor gives; whenever a push has completed a
    chunk every cell of the plaintext buffer is zero; and however the run ends, dropped or
    finished, at any point and after any refused or panicking call, the copy of the primes,
    [sk_fmt] and the whole buffer are zero when they are released. The buffer never
    outgrows the capacity asked for at construction, so no earlier copy of it exists. *)
Theorem encryptor_wiped `{Crypto} `{Gate} key aad f draw s e header s' fresh h chars :
  valid_key (primes key) → encryptor_new_key key aad f draw s = (Ok (e, header), s') →
  f ≤ Z.of_nat (length fresh) → str_ok chars →
  let gone := h ++ [wiped (length (primes key)); wiped 32; wiped (length fresh)] in
  let '(me, h1) := mem_new_validated e fresh h in
  let '(rs, (me', h')) := mem_run chars me h1 in
  let '(rs', e') := push_run chars e in
  rs = rs' ∧ drop_encryptor me' h' = gone ∧
  (∀ frame, last rs = Some (Ok (Some frame)) →
    region_at h' (vec_ptr (me_cp_buf me')) = MkRegion (replicate (length fresh) 0) false) ∧
  (Forall no_panic rs → mem_finish me' h' = (finish e', gone)).
Proof.
  intros Hkey Hnew Hcap Hchars gone. apply valid_key_arith in Hkey.
  unfold encryptor_new_key, new_validated, with_nonce in Hnew.
  destruct (_ ← gated; validate_stream_v8_frame f) as [[]|err|p] eqn:Hchecks; [|done..].
  destruct (generate_nonce_with_crng_check draw s) as [r s1]. injection Hnew as Hnew <-.
  apply bind_Ok_inv in Hnew as (nonce & _ & Hnew). injection Hnew as <- <-.
  apply bind_Ok_inv in Hchecks as ([] & _ & Hframe).
  assert (1 ≤ f ≤ STREAM_AE_V8_MAX_FRAME) as Hf.
  { unfold validate_stream_v8_frame in Hframe. case_if_in Hframe; [done|]. lia. }
  set (sk_fmt := derive_format_subkey (sk key) FORMAT_STREAM_AE_V8).
  set (e := MkEncryptor _ _ _ _ _ _ _ _ _).
  assert (length sk_fmt = 32%nat) as Hsk by apply length_hmac_digest.
  pose proof (owns_new h (primes key) sk_fmt f (length fresh) Hf Hcap e fresh eq_refl eq_refl eq_refl eq_refl eq_refl) as Hnew.
  destruct (mem_new_validated e fresh h) as [me h1]. destruct Hnew as [Ho Heq].
  pose proof (mem_run_sim h (primes key) sk_fmt f (length fresh) Hkey Hf Hcap chars [] me h1 Ho
    ltac:(cbn; lia) ltac:(constructor) Hchars) as Hrun. rewrite Heq in Hrun.
  destruct (mem_run chars me h1) as [rs [me' h']], (push_run chars e) as [rs' e'].
  destruct Hrun as (-> & buf & Ho' & Hok & Hzero). split; [done|]. split; [|split].
  - by apply (owns_drop h (primes key) sk_fmt f (length fresh) Hf Hcap buf).
  - intros frame Hlast. rewrite (Hzero frame Hlast), (o_cp_buf _ _ _ _ _ _ _ _ Ho'). cbn [vec_ptr].
    unfold encryptor_regions. by rewrite third_region, region_at_app by apply buffer_ptr.
  - intros Hall. destruct (Hok Hall) as [Hs <-].
    by apply (mem_finish_spec h (primes key) sk_fmt f (length fresh) Hkey Hf Hcap buf).
Qed.

Lemma encryptor_wiped_witness :
  let _ := Toy.crypto in let _ := default_build in
  let key := MkNapqesKey sample_key (replicate 32 x07) in
  let nonce := replicate 16 x05 in
  let fresh := replicate 3 9 in
  let header := FORMAT_STREAM_AE_V8 :: to_be_bytes 4 2 ++ nonce in
  let e := MkEncryptor sample_key (derive_format_subkey (sk key) FORMAT_STREAM_AE_V8) [] nonce 2 0 0 [] false in
  valid_key (primes key) ∧
  encryptor_new_key key [] 2 nonce (MkCrng None POST_NOT_RUN)
    = (Ok (e, header), MkCrng (Some nonce) POST_NOT_RUN) ∧
  let gone := [] ++ [wiped (length (primes key)); wiped 32; wiped (length fresh)] in
  let '(me, h1) := mem_new_validated e fresh [] in
  let '(rs, (me', h')) := mem_run [72; 105; 33] me h1 in
  let '(rs', e') := push_run [72; 105; 33] e in
  rs = rs' ∧ drop_encryptor me' h' = gone ∧
  (∀ frame, last rs = Some (Ok (Some frame)) →
    region_at h' (vec_ptr (me_cp_buf me')) = MkRegion (replicate (length fresh) 0) false) ∧
  (Forall no_panic rs → mem_finish me' h' = (finish e', gone)).
Proof.
  intros C G key nonce fresh header e.
  assert (encryptor_new_key key [] 2 nonce (MkCrng None POST_NOT_RUN)
    = (Ok (e, header), MkCrng (Some nonce) POST_NOT_RUN)) as Hnew by reflexivity.
  split; [exact sample_key_valid|split; [exact Hnew|]].
  apply (encryptor_wiped key [] 2 nonce (MkCrng None POST_NOT_RUN) e header
    (MkCrng (Some nonce) POST_NOT_RUN) fresh [] [72; 105; 33] sample_key_valid Hnew);
    [by apply Z.leb_le|by repeat constructor].
Defined.
