(* ===== verification/Messages.v ===== *)
(** * The texts of the errors of the crate root ([lib.rs], [kem.rs])

    Each error of [Errors] with the message the code formats for it, and what a caller
    that only sees the message can tell from it: the known-answer tests compare messages
    by [str::contains]. *)
From Stdlib Require Import ZArith Lia Strings.Byte Strings.String.
From stdpp Require Import base tactics option numbers gmap list.
From S2P Require Import Prelude Machine Errors Crates Post Primes Keys Derive Padding Tokens BlockV8.
From S2P Require Import LegacyV7 StreamV8 OtFrame Kem KatVectors Report.

#[local] Open Scope Z_scope.
#[local] Open Scope napqes_scope.

(** ** Format strings *)

(** A literal, or a value in decimal, as [{:02x}] of a byte or as [{:#x}] of a [u32]. *)
Inductive piece := Lit (s : list Z) | Num (v : Z) | Hex2 (v : Z) | HexWord (v : Z).

Definition render_piece (p : piece) : list Z :=
  match p with
  | Lit s => s
  | Num v => display (v mod 2 ^ 64)
  | Hex2 v => padded_hex 2 (v mod 2 ^ 8)
  | HexWord v => str "0x" ++ lower_hex (v mod 2 ^ 32)
  end.

Definition render (ps : list piece) : list Z := concat (render_piece <$> ps).

(** A message in front of another. *)
Definition prefixed (s : list Z) (ps : list piece) : list piece :=
  match ps with Lit t :: ps => Lit (s ++ t) :: ps | _ => Lit s :: ps end.

(** ** The messages *)

#[local] Notation "$ s" := (Lit (str s%string)) (at level 1, s at level 0, only parsing).

Definition element_at (i k : Z) (rest : list piece) : list piece :=
  $"Key element at index " :: Num i :: $" (" :: Num k :: rest.

(** [validate_key]. *)
Definition key_message (e : error) : list piece :=
  match e with
  | EmptyKey => [$"Key must be a non-empty list of primes."]
  | TooManyElements n =>
      [$"Key has "; Num n; $" elements, exceeding MAX_KEY_ELEMENTS ("; Num MAX_KEY_ELEMENTS;
       $"). Very large keys are rejected because per-message primality/distinctness validation grows with K; the cap makes the cost of legitimate use bounded."]
  | BelowMinimum i k => element_at i k [$") is below the minimum of "; Num MIN_KEY_PRIME; $"."]
  | AboveMaximum i k => element_at i k [$") exceeds MAX_KEY_PRIME ("; Num MAX_KEY_PRIME; $")."]
  | NotSerialisable i k => element_at i k [$") exceeds "; Num MAX_SERIALISABLE_KEY_PRIME;
       $", the largest value representable in the 5-byte key serialisation."]
  | NotPrime i k => element_at i k [$") is not prime."]
  | DuplicateElement j i => [$"Key element at index "; Num j; $" duplicates index "; Num i;
       $"; all elements must be distinct."]
  | _ => []
  end.

(** [validate_key_v7_decrypt]. *)
Definition v7_key_message (e : error) : list piece :=
  match e with
  | OutsideV7Range i k => element_at i k [$") is outside [2, "; Num MAX_SERIALISABLE_KEY_PRIME; $"]."]
  | DuplicatesEarlier i => [$"Key element at index "; Num i;
       $" duplicates an earlier element; all elements must be distinct."]
  | _ => []
  end.

(** [generate_prime_numbers]. *)
Definition keygen_message (e : error) : list piece :=
  match e with
  | KeygenBadCount count => [$"generate_prime_numbers: count "; Num count;
       $" is outside [1, MAX_KEY_ELEMENTS = "; Num MAX_KEY_ELEMENTS; $"]"]
  | KeygenEmptyRange min_val max_val => [$"generate_prime_numbers: empty range ["; Num min_val; $", "; Num max_val; $"]"]
  | KeygenExhausted count min_val max_val max_attempts =>
      [$"generate_prime_numbers: could not find "; Num count; $" distinct primes in ["; Num min_val; $", "; Num max_val;
       $"] within "; Num max_attempts;
       $" draws; the range is too narrow or too prime-poor for the requested count."]
  | _ => []
  end.

(** [generate_v8_key]. *)
Definition v8_keygen_message (e : error) : list piece :=
  match e with
  | KeygenOutsideInterval min_val max_val => [$"generate_v8_key: range ["; Num min_val; $", "; Num max_val;
       $"] lies outside [MIN_KEY_PRIME, MAX_KEY_PRIME]"]
  | _ => []
  end.

(** [generate_nonce_with_crng_check]. *)
Definition crng_message (e : error) : list piece :=
  match e with
  | CrngStuck =>
      [Lit (str "CRNG stuck-generator check failed: consecutive draws matched (SP 800-140B "%string ++ [0xA7] ++
            str "4.9.2); module entered the error state"%string)]
  | _ => []
  end.

(** [PadProfile::block_size]. *)
Definition block_size_message (e : error) : list piece :=
  match e with
  | ExceedsMaximumBucket n => [$"message of "; Num n; $" codepoints exceeds the maximum bucket 2^"; Num PAD_MAX_EXP;
       $" (CVF-31); pad_profile.block_size cannot produce a value in the normative reachable set."]
  | BadCoarseStride g => [$"coarse stride g="; Num g; $" must divide "; Num (PAD_MAX_EXP - PAD_MIN_EXP); $"."]
  | BadFrameSize f => [$"frame size F="; Num f; $" must be a power of two in ["; Num (2 ^ PAD_MIN_EXP); $", ";
       Num (2 ^ PAD_MAX_EXP); $"]."]
  | FrameTooSmall f n => [$"frame("; Num f; $") profile admits messages of at most "; Num (f - 1);
       $" codepoints; got "; Num n; $". Use a larger frame."]
  | _ => []
  end.

(** [unpad_message]. *)
Definition unpad_text (e : error) : list piece :=
  match e with
  | PaddedTooShort => [$"Padded message too short to contain length prefix."]
  | PrefixNotByteValued hi lo => [$"Malformed length prefix: codepoints ("; Num hi; $", "; Num lo;
       $") are not byte-valued (CVF-43)."]
  | PrefixExceedsData n available => [$"Length prefix ("; Num n; $") exceeds available data ("; Num available; $" codepoints)."]
  | _ => []
  end.

(** [fixed_decode_tokens]. *)
Definition blob_message (e : error) : list piece :=
  match e with
  | BlobNotMultiple len => [$"fixed-width token blob length ("; Num len; $") is not a multiple of "; Num (Z.of_nat TOKEN_WIDTH)]
  | _ => []
  end.

(** The emission guard of v7. *)
Definition noise_run_message (e : error) : list piece :=
  match e with
  | NoiseRunAborted => [$"v7 emission aborted: more than "; Num V7_NOISE_RUN_GUARD;
       $" consecutive noise positions (CVF-V5-4)"]
  | _ => []
  end.

(** [decrypt_core]. *)
Definition v7_token_message (e : error) : list piece :=
  match e with
  | V7MalformedToken ct_pos k => [$"Malformed v7 ciphertext: token at position "; Num ct_pos;
       $" is not of the form codepoint * k + addend for key element "; Num k; $"."]
  | V7NotScalar cp ct_pos => [$"Malformed v7 ciphertext: recovered value "; Num cp; $" at position "; Num ct_pos;
       $" is not a Unicode scalar value."]
  | _ => []
  end.

(** [decrypt_core_v8]. *)
Definition v8_token_message (e : error) : list piece :=
  match e with
  | V8NotCeilingMultiple =>
      [$"Malformed v8 ciphertext: token count is not a multiple of the padding ceiling; expected exactly real_token_count * (MAX_NOISE_RUN + 1) tokens."]
  | V8IllegalRealCount real_count => [$"Malformed v8 ciphertext: real-token count "; Num real_count;
       $" is not B + 2 for any reachable padded block size B in ["; Num (2 ^ PAD_MIN_EXP); $", "; Num (2 ^ PAD_MAX_EXP); $"]."]
  | V8Truncated ct_pos n_tokens real_idx real_count noise_run =>
      [$"Truncated v8 ciphertext: token stream ended at position "; Num ct_pos; $" of "; Num n_tokens;
       $" after recovering "; Num real_idx; $" of "; Num real_count;
       $" real tokens; expected another real token (noise run length reached "; Num noise_run; $" of max ";
       Num MAX_NOISE_RUN; $")."]
  | V8MalformedToken ct_pos k => [$"Malformed v8 ciphertext: token at position "; Num ct_pos;
       $" is not of the form codepoint * k + addend for key element "; Num k; $"."]
  | V8NotScalar cp ct_pos => [$"Malformed v8 ciphertext: recovered value "; Num cp; $" at position "; Num ct_pos;
       $" is not a Unicode scalar value."]
  | _ => []
  end.

(** [encrypt_bytes_v8_core_inner]; the v7 functions word it in their own ways. *)
Definition v8_length_message (e : error) : list piece :=
  match e with
  | MessageTooLong n => [$"Message too long: "; Num n; $" codepoints exceeds MAX_PLAINTEXT_CODEPOINTS (";
       Num MAX_PLAINTEXT_CODEPOINTS; $")"]
  | _ => []
  end.

(** [decrypt_bytes_v8_core] and its inner function. *)
Definition v8_opening_message (e : error) : list piece :=
  match e with
  | CiphertextTooShort len => [$"Ciphertext too short: "; Num len; $" bytes; header+tag require at least ";
       Num (Z.of_nat (NONCE_SIZE + TAG_SIZE)); $"."]
  | AuthenticationFailed => [$"Authentication failed: invalid HMAC tag."]
  | V8PlaintextNotScalar c => [$"Malformed v8 plaintext: "; Num c; $" is not a Unicode scalar value."]
  | _ => []
  end.

(** [check_v7_aad_len]. *)
Definition v7_aad_message (e : error) : list piece :=
  match e with
  | V7AadTooLong n => [$"AAD of "; Num n; $" bytes exceeds the v7 4-byte length prefix."]
  | _ => []
  end.

(** [encrypt] of v7. *)
Definition v7_input_message (e : error) : list piece :=
  match e with
  | InputNotScalar c i => [$"message value "; HexWord c; $" at position "; Num i; $" is not a Unicode scalar value."]
  | _ => []
  end.

(** [decrypt_bytes] of v7. *)
Definition v7_plaintext_message (e : error) : list piece :=
  match e with
  | V7PlaintextNotScalar c i => [$"Malformed v7 plaintext: recovered value "; Num c; $" at position "; Num i;
       $" is not a Unicode scalar value."]
  | _ => []
  end.

(** [decrypt_raw]. *)
Definition v7_raw_message (e : error) : list piece :=
  match e with
  | V7NotByte c i => [$"Malformed v7 raw ciphertext: recovered codepoint "; Num c; $" at position "; Num i;
       $" is out of byte range [0, 255]. This usually means the ciphertext was produced by `encrypt_bytes` (codepoint-oriented) rather than `encrypt_raw` (byte-oriented); the two use incompatible message encodings (CVF-14)."]
  | _ => []
  end.

(** [validate_stream_v8_frame]. *)
Definition frame_size_message (e : error) : list piece :=
  match e with
  | StreamBadFrame f => [$"frame_codepoints must be in [1, "; Num STREAM_AE_V8_MAX_FRAME; $"], got "; Num f]
  | _ => []
  end.

(** [decrypt_v8_stream_chunk_core]. *)
Definition stream_chunk_message (e : error) : list piece :=
  match e with
  | StreamChunkTruncated => [$"Truncated v8 stream chunk: token stream ended mid noise-run."]
  | StreamChunkMalformed ct_pos => [$"Malformed v8 stream chunk: token at position "; Num ct_pos;
       $" is not c * k + addend."]
  | StreamChunkNotScalar cp => [$"Malformed v8 stream chunk: recovered value "; Num cp; $" is not a Unicode scalar."]
  | _ => []
  end.

(** [next_stream_chunk_idx] and [push]. *)
Definition chunk_limit_message (e : error) : list piece :=
  match e with
  | StreamChunkLimit => [$"v8 stream exceeds the 2^32 - 1 chunk limit."]
  | _ => []
  end.

(** [decrypt_stream_ae_v8_inner]; the length of a frame is [F] times the bytes of a token group. *)
Definition stream_message (e : error) : list piece :=
  match e with
  | StreamHeaderTruncated len => [$"Stream truncated: need at least "; Num (Z.of_nat (1 + 4 + NONCE_SIZE));
       $" header bytes, got "; Num len]
  | StreamBadFormat id => [$"Unexpected format id 0x"; Hex2 id; $"; expected 0x"; Hex2 (byte_to_Z FORMAT_STREAM_AE_V8);
       $" (FORMAT_STREAM_AE_V8)"]
  | StreamHeaderBadFrame f => [$"Malformed v8 stream header: frame_codepoints F="; Num f; $" out of [1, ";
       Num STREAM_AE_V8_MAX_FRAME; $"]."]
  | StreamNoLengthPrefix => [$"Stream truncated: need 4-byte chunk length prefix."]
  | StreamNoSentinelBody => [$"Stream truncated: need sentinel body."]
  | StreamSentinelTag => [$"Authentication failed: invalid v8 stream sentinel tag."]
  | StreamSentinelCount total delivered pending =>
      [$"Malformed v8 stream sentinel: total_real_codepoints "; Num total; $" inconsistent with decoded stream (";
       Num delivered; $" delivered + "; Num pending; $" pending)."]
  | StreamTrailingBytes n => [$"Trailing bytes after sentinel: "; Num n; $" extra bytes."]
  | StreamNotScalar c => [$"Malformed v8 stream plaintext: "; Num c; $" is not a Unicode scalar value."]
  | StreamChunkLength got expected =>
      let unit := Z.of_nat TOKEN_WIDTH * (MAX_NOISE_RUN + 1) in
      [$"Malformed v8 stream frame: chunk length "; Num got; $" does not match the fixed frame size "; Num expected;
       $" (= F*"; Num (Z.of_nat TOKEN_WIDTH); $"*"; Num (MAX_NOISE_RUN + 1); $" for F="; Num (expected / unit); $")."]
  | StreamTruncatedFrame => [$"Stream truncated mid-frame."]
  | StreamChunkTag idx => [$"Authentication failed: invalid tag on v8 stream chunk "; Num idx; $"."]
  | _ => []
  end.

(** [StreamV8Encryptor::push] and [finish]. *)
Definition encryptor_message (e : error) : list piece :=
  match e with
  | StreamPushAfterFinish => [$"StreamV8Encryptor: push after finish"]
  | StreamFinishTwice => [$"StreamV8Encryptor: finish called twice"]
  | _ => []
  end.

(** [decapsulate_v8]. *)
Definition kem_message (e : error) : list piece :=
  match e with
  | InvalidKemCiphertext => [$"invalid FrodoKEM-640-AES ciphertext"]
  | InvalidSecretKey => [$"invalid FrodoKEM-640-AES secret key"]
  | _ => []
  end.

(** [encapsulate_v8]. *)
Definition kem_public_key_message (e : error) : list piece :=
  match e with
  | InvalidPublicKey => [$"invalid FrodoKEM-640-AES public key"]
  | _ => []
  end.

(** [derive_napqes_key_hybrid]. *)
Definition x25519_message (e : error) : list piece :=
  match e with
  | X25519SecretSize n => [$"X25519 shared secret must be "; Num X25519_KEY_SIZE; $" bytes, got "; Num n]
  | X25519AllZero => [$"X25519 shared secret is all-zero: the peer supplied a small-order point, so the classical half of the hybrid would contribute no entropy"]
  | _ => []
  end.

(** [encapsulate_hybrid]. *)
Definition hybrid_public_key_message (e : error) : list piece :=
  match e with
  | HybridPublicKeySize n => [$"Hybrid public key must be "; Num HYBRID_PUBLIC_KEY_SIZE; $" bytes, got "; Num n]
  | _ => []
  end.

(** [decapsulate_hybrid]. *)
Definition hybrid_message (e : error) : list piece :=
  match e with
  | HybridCiphertextSize n => [$"Hybrid ciphertext must be "; Num HYBRID_CIPHERTEXT_SIZE; $" bytes, got "; Num n]
  | HybridSecretKeySize n => [$"Hybrid secret key must be "; Num HYBRID_SECRET_KEY_SIZE; $" bytes, got "; Num n]
  | _ => []
  end.

(** [base64_error] is the text of the base64 library's error. *)
Fixpoint message (base64_error : list Z) (e : error) : list piece :=
  match e with
  | NotOperational => [Lit (display_self_test_error ModuleNotOperational)]
  | VarintDecode e => prefixed (str "varint decode error: "%string) (message base64_error e)
  | Base64DecodeError => [Lit (str "base64 decode error: "%string ++ base64_error)]
  | e =>
      key_message e ++ v7_key_message e ++ keygen_message e ++ v8_keygen_message e ++ crng_message e
      ++ block_size_message e ++ unpad_text e ++ blob_message e ++ noise_run_message e ++
      v7_token_message e ++ v8_token_message e ++ v8_length_message e ++ v8_opening_message e ++
      v7_aad_message e ++ v7_input_message e ++ v7_plaintext_message e ++ v7_raw_message e ++
      frame_size_message e ++ stream_chunk_message e ++ chunk_limit_message e ++ stream_message e ++
      encryptor_message e ++ kem_message e ++ kem_public_key_message e ++ x25519_message e ++
      hybrid_public_key_message e ++ hybrid_message e
  end.

(** The v7 decryptors word one message differently: [validate_key_v7_decrypt]. *)
Definition v7_message (base64_error : list Z) (e : error) : list piece :=
  match e with
  | TooManyElements n => [$"Key has "; Num n; $" elements, exceeding MAX_KEY_ELEMENTS ("; Num MAX_KEY_ELEMENTS; $")."]
  | e => message base64_error e
  end.

(** ** Searching a message *)

Fixpoint starts_with (want s : list Z) : bool :=
  match want, s with
  | [], _ => true
  | w :: want, c :: s => (w =? c) && starts_with want s
  | _, [] => false
  end.

(** [str::contains]. *)
Fixpoint contains (s want : list Z) : bool :=
  starts_with want s || match s with [] => false | _ :: s => contains s want end.

Lemma starts_with_break want a c b :
  c ∉ want → starts_with want (a ++ c :: b) = true → starts_with want a = true.
Proof.
  revert a. induction want as [|w want IH]; intros a Hc Hs; [by destruct a|].
  apply not_elem_of_cons in Hc as [Hw Hc]. destruct a as [|x a]; cbn in *.
  - apply andb_prop in Hs as [Hs _]. by apply Z.eqb_eq in Hs.
  - apply andb_prop in Hs as [-> Hs]. by apply IH.
Qed.

Lemma contains_nil want : want ≠ [] → contains [] want = false.
Proof. by destruct want. Qed.

Lemma contains_break want a c b :
  want ≠ [] → c ∉ want → contains (a ++ c :: b) want = true → contains a want = true ∨ contains b want = true.
Proof.
  intros Hn Hc. induction a as [|x a IH]; cbn [app contains]; intros H; apply orb_prop in H as [H|H].
  - by apply (starts_with_break want [] c b) in H; [destruct want|].
  - by right.
  - left. apply (starts_with_break want (x :: a) c b) in H; [|done]. by rewrite H.
  - destruct (IH H) as [->| ->]; [left; apply orb_true_r|by right].
Qed.

Lemma contains_skip want d b :
  want ≠ [] → Forall (λ c, c ∉ want) d → contains (d ++ b) want = true → contains b want = true.
Proof.
  intros Hn Hd. induction Hd as [|c d Hc _ IH]; [done|]. intros H.
  destruct (contains_break want [] c (d ++ b) Hn Hc H) as [H'|H']; [by rewrite contains_nil in H'|by apply IH].
Qed.

Lemma contains_around want a d b :
  want ≠ [] → d ≠ [] → Forall (λ c, c ∉ want) d →
  contains (a ++ d ++ b) want = true → contains a want = true ∨ contains b want = true.
Proof.
  intros Hn Hd Hall H. destruct d as [|c d]; [done|]. apply Forall_cons in Hall as [Hc Hall].
  destruct (contains_break want a c (d ++ b) Hn Hc H) as [?|H']; [by left|right].
  by apply (contains_skip want d).
Qed.

(** No digit occurs in the text looked for. *)
Definition digit_free (want : list Z) : bool := forallb (λ c, (c <? 48) || (57 <? c)) want.

Lemma digit_free_spec want : digit_free want = true → ∀ c, 48 ≤ c ≤ 57 → c ∉ want.
Proof.
  intros Hd c Hc Hin. unfold digit_free in Hd. rewrite forallb_forall in Hd.
  apply list_elem_of_In in Hin. apply Hd in Hin. apply orb_prop in Hin as [Hin|Hin]; apply Z.ltb_lt in Hin; lia.
Qed.

Lemma display_number v : display (v mod 2 ^ 64) ≠ [] ∧ Forall (λ c, 48 ≤ c ≤ 57) (display (v mod 2 ^ 64)).
Proof.
  unfold display. split.
  - intros Hnil. apply fmap_nil_inv in Hnil. by apply digits_nonempty in Hnil.
  - apply Forall_fmap. eapply Forall_impl; [apply digits_range; [lia|apply Z.mod_pos_bound; lia]|].
    intros d Hd. cbv beta in Hd. change (48 ≤ hex_char d ≤ 57). unfold hex_char. rewrite (proj2 (Z.ltb_lt d 10)) by lia. lia.
Qed.

(** Literals alternate with decimal values. *)
Fixpoint alternating (ps : list piece) : bool :=
  match ps with
  | [] => true
  | Lit _ :: ps' => match ps' with [] | Num _ :: _ => alternating ps' | _ => false end
  | Num _ :: ps' => alternating ps'
  | _ => false
  end.

Definition literal_contains (ps : list piece) (want : list Z) : bool :=
  existsb (λ p, match p with Lit s => contains s want | _ => false end) ps.

(** A text without digits that occurs in a message occurs in one of its literals. *)
Lemma render_contains ps want :
  alternating ps = true → digit_free want = true → want ≠ [] →
  contains (render ps) want = true → literal_contains ps want = true.
Proof.
  intros Ha Hd Hn. pose proof (digit_free_spec _ Hd) as Hdigit.
  assert (∀ v, display (v mod 2 ^ 64) ≠ [] ∧ Forall (λ c, c ∉ want) (display (v mod 2 ^ 64))) as Hnum.
  { intros v. destruct (display_number v) as [? Hall]. split; [done|]. eapply Forall_impl; [exact Hall|].
    intros c Hc. by apply Hdigit. }
  revert Ha. induction ps as [|p ps IH]; intros Ha; [by rewrite contains_nil|].
  destruct p as [s|v| |]; [| |done..]; change (render (?p :: ps)) with (render_piece p ++ render ps).
  - cbn [render_piece literal_contains existsb]. destruct ps as [|[|v| |] ps]; [|done| |done..].
    { cbn [render fmap list_fmap concat]. rewrite app_nil_r. by intros ->. }
    cbn [alternating] in Ha. specialize (IH Ha). change (render (Num v :: ps)) with (display (v mod 2 ^ 64) ++ render ps) in *.
    intros H. destruct (Hnum v) as [Hne Hall].
    destruct (contains_around want s _ (render ps) Hn Hne Hall H) as [->|Hr]; [done|].
    apply orb_true_intro. right. cbn [literal_contains existsb] in IH |- *. apply IH.
    clear -Hr. induction (display _) as [|c d IHd]; [done|]. cbn. rewrite IHd. apply orb_true_r.
  - cbn [render_piece literal_contains existsb]. intros H. apply IH; [done|].
    by apply (contains_skip want (display (v mod 2 ^ 64))); [|apply Hnum|].
Qed.

(** ** The errors of opening *)

Definition key_refusal (e : error) : bool :=
  match e with
  | EmptyKey | TooManyElements _ | BelowMinimum _ _ | AboveMaximum _ _ | NotSerialisable _ _ | NotPrime _ _
  | DuplicateElement _ _ => true
  | _ => false
  end.

Definition unpad_refusal (e : error) : bool :=
  match e with PaddedTooShort | PrefixNotByteValued _ _ | PrefixExceedsData _ _ => true | _ => false end.

(** What [decrypt_bytes_v8] can report. *)
Definition v8_opening_error (e : error) : bool :=
  key_refusal e || unpad_refusal e ||
  match e with
  | NotOperational | CiphertextTooShort _ | V8NotCeilingMultiple | AuthenticationFailed | VarintDecode (BlobNotMultiple _)
  | V8IllegalRealCount _ | V8Truncated _ _ _ _ _ | V8MalformedToken _ _ | V8NotScalar _ _ | V8PlaintextNotScalar _ => true
  | _ => false
  end.

(** What [decrypt_bytes] of v7 can report. *)
Definition v7_opening_error (e : error) : bool :=
  unpad_refusal e ||
  match e with
  | NotOperational | V7AadTooLong _ | CiphertextTooShort _ | AuthenticationFailed | EmptyKey | TooManyElements _
  | OutsideV7Range _ _ | DuplicatesEarlier _ | VarintDecode (BlobNotMultiple _) | V7MalformedToken _ _ | V7NotScalar _ _
  | V7PlaintextNotScalar _ _ => true
  | _ => false
  end.

(** What [decrypt_stream_ae_v8] can report. *)
Definition stream_opening_error (e : error) : bool :=
  key_refusal e ||
  match e with
  | NotOperational | StreamHeaderTruncated _ | StreamBadFormat _ | StreamHeaderBadFrame _ | StreamNoLengthPrefix
  | StreamNoSentinelBody | StreamSentinelTag | StreamSentinelCount _ _ _ | StreamTrailingBytes _ | StreamNotScalar _
  | StreamChunkLength _ _ | StreamTruncatedFrame | StreamChunkTag _ | StreamChunkLimit | BlobNotMultiple _
  | StreamChunkTruncated | StreamChunkMalformed _ | StreamChunkNotScalar _ => true
  | _ => false
  end.

(** What [encrypt_bytes_v8_with_profile] can report under a key it accepts, or refuses. *)
Definition v8_sealing_error (e : error) : bool :=
  key_refusal e ||
  match e with
  | NotOperational | MessageTooLong _ | ExceedsMaximumBucket _ | BadCoarseStride _ | BadFrameSize _ | FrameTooSmall _ _ => true
  | _ => false
  end.

Lemma refuses_continue {S A} (P : error → Prop) (m : outcome error S) (r : outcome error A) :
  refuses P m → continue_with m = inr r → refuses P r.
Proof. destruct m; cbn; intros ? [= <-]; done. Qed.

Lemma refuses_checked_add P w a b : refuses (E:=error) P (checked_add w a b).
Proof. unfold checked_add. by case_match. Qed.
Lemma refuses_checked_sub P a b : refuses (E:=error) P (checked_sub a b).
Proof. unfold checked_sub. by case_match. Qed.
Lemma refuses_checked_mul P w a b : refuses (E:=error) P (checked_mul w a b).
Proof. unfold checked_mul. by case_match. Qed.
Lemma refuses_checked_rem P a b : refuses (E:=error) P (checked_rem a b).
Proof. unfold checked_rem. by case_match. Qed.
Lemma refuses_checked_div P a b : refuses (E:=error) P (checked_div a b).
Proof. unfold checked_div. by case_match. Qed.
Lemma refuses_index_range {A} P i j (l : list A) : refuses (E:=error) P (index_range i j l).
Proof. unfold index_range. by case_match. Qed.
Lemma refuses_be_len_prefix P n width : refuses P (be_len_prefix n width).
Proof. unfold be_len_prefix, assert_that. apply refuses_bind; repeat case_match; done. Qed.
Lemma refuses_gated `{Gate} P : P NotOperational → refuses P gated.
Proof. by destruct gated_cases as [->| ->]. Qed.

Create HintDb refusals.
#[local] Hint Resolve refuses_checked_add refuses_checked_sub refuses_checked_mul refuses_checked_rem
  refuses_checked_div refuses_index_range refuses_be_len_prefix refuses_expect : refusals.

(** This error is among those listed. *)
Ltac refusal := cbv beta; first [reflexivity | solve [auto] | match goal with HP : ∀ e, _ |- _ => apply HP; reflexivity end].

(** Follows the control flow of a computation to the errors it can report. *)
Ltac refusals :=
  repeat first
    [ progress cbv beta iota zeta
    | match goal with
      | |- refuses _ (Ok _) => exact I
      | |- refuses _ (Panic _) => exact I
      | |- refuses ?P (Err ?e) => change (P e); refusal
      | |- refuses _ gated => apply refuses_gated; refusal
      | |- refuses _ (_ ≫= _) => apply refuses_bind; [|intros ? _]
      | |- refuses _ (opt_or _ _) => apply refuses_opt_or; refusal
      | |- refuses _ (map_err _ _) => apply refuses_map_err
      | |- refuses _ (collect _ _) => apply refuses_collect; intros ?
      | |- refuses _ (for_each _ _ _) => apply refuses_for_each; intros ? ?
      | |- refuses _ (while_loop _ _ _) => apply refuses_while_loop; intros ? ?
      | |- refuses _ (match ?x with _ => _ end) => destruct x
      | |- continue_with _ = inr _ → refuses _ _ => apply refuses_continue
      | |- inr _ = inr _ → _ => intros [= <-]
      | |- inl _ = inr _ → _ => intros [=]
      | |- match ?x with _ => _ end = inr _ → _ => destruct x
      | |- refuses _ _ => solve [eauto 2 with refusals nocore]
      end ].

Section opening.
Context `{Crypto}.

Lemma refuses_compute_auth_tag P kb aad payload width : refuses P (compute_auth_tag kb aad payload width).
Proof. unfold compute_auth_tag. refusals. Qed.

Lemma refuses_varint_keystream P kb nonce len : refuses P (varint_keystream kb nonce len).
Proof. unfold varint_keystream. refusals. unfold keystream_step. refusals. Qed.

Lemma refuses_derive_noise_threshold_v8 P kb nonce : refuses P (derive_noise_threshold_v8 kb nonce).
Proof. unfold derive_noise_threshold_v8. refusals. Qed.

Lemma refuses_derive_addend P kb nonce i k : refuses P (derive_addend kb nonce i k).
Proof. unfold derive_addend. refusals. Qed.

Lemma refuses_key_at P key i : refuses P (key_at key i).
Proof. unfold key_at. refusals. Qed.

Lemma refuses_skip_noise P sk_fmt nonce theta n ct_pos : refuses P (skip_noise sk_fmt nonce theta n ct_pos).
Proof. unfold skip_noise. refusals. unfold skip_noise_step. refusals. Qed.

Lemma refuses_recover_codepoint (P : error → Prop) malformed not_scalar token addend k :
  P malformed → (∀ cp, P (not_scalar cp)) → refuses P (recover_codepoint malformed not_scalar token addend k).
Proof. intros. unfold recover_codepoint. refusals. Qed.

Lemma refuses_validate_key (P : error → Prop) key :
  (∀ e, key_refusal e = true → P e) → refuses P (validate_key key).
Proof.
  intros HP. unfold validate_key, check_key_element, check_key_prime. refusals.
  - unfold is_prime, isqrt_u64. refusals.
    + unfold isqrt_down. refusals.
    + unfold isqrt_up. destruct (_ +64 _) eqn:Hadd; refusals. unfold checked_add in Hadd. by case_match.
    + unfold trial_division. refusals.
  - generalize 0. induction key as [|k key IH]; intros i; cbn [check_key_distinct]; refusals.
Qed.

#[local] Hint Resolve refuses_compute_auth_tag refuses_varint_keystream refuses_derive_noise_threshold_v8
  refuses_derive_addend refuses_key_at refuses_skip_noise : refusals.

Lemma refuses_unpad_message (P : error → Prop) padded :
  (∀ e, unpad_refusal e = true → P e) → refuses P (unpad_message padded).
Proof. intros HP. unfold unpad_message. refusals. Qed.

Lemma decrypt_bytes_v8_errors `{Gate} c primes sk aad :
  refuses (λ e, v8_opening_error e = true) (decrypt_bytes_v8 c primes sk aad).
Proof.
  unfold decrypt_bytes_v8, decrypt_bytes_v8_core, decrypt_bytes_v8_core_inner, fixed_decode_tokens, decrypt_core_v8.
  refusals.
  - apply refuses_validate_key. intros e He. unfold v8_opening_error. by rewrite He.
  - unfold decrypt_step_v8. refusals. by apply refuses_recover_codepoint.
  - apply refuses_unpad_message. intros e He. unfold v8_opening_error. rewrite He. by rewrite orb_true_r.
Qed.

Lemma decrypt_loop_v7_errors key kb nonce noise_p ct_pos i cypher padded :
  refuses (λ e, v7_opening_error e = true) (decrypt_loop_v7 key kb nonce noise_p ct_pos i cypher padded).
Proof.
  revert ct_pos i padded. induction cypher as [|token cypher IH]; intros ct_pos i padded; cbn [decrypt_loop_v7]; refusals.
  by apply refuses_recover_codepoint.
Qed.

Lemma refuses_map_indexed {A B} P (f : Z → A → outcome error B) i l :
  (∀ i a, refuses P (f i a)) → refuses P (map_indexed f i l).
Proof.
  intros Hf. revert i. induction l as [|a l IH]; intros i; [done|]. cbn. refusals.
Qed.

Lemma decrypt_bytes_v7_errors `{Gate} c key aad :
  refuses (λ e, v7_opening_error e = true) (decrypt_bytes c key aad).
Proof.
  unfold decrypt_bytes, open_v7, check_v7_aad_len, validate_key_v7_decrypt, fixed_decode_tokens, decrypt_core. refusals.
  - apply decrypt_loop_v7_errors.
  - apply refuses_unpad_message. intros e He. unfold v7_opening_error. by rewrite He.
  - apply refuses_map_indexed. intros ? ?. refusals.
Qed.

Lemma decrypt_stream_errors `{Gate} stream primes sk aad :
  refuses (λ e, stream_opening_error e = true) (decrypt_stream_ae_v8 stream primes sk aad).
Proof.
  unfold decrypt_stream_ae_v8, decrypt_stream_ae_v8_inner. refusals.
  - apply refuses_validate_key. intros e He. unfold stream_opening_error. by rewrite He.
  - unfold decrypt_stream_step, open_sentinel, compute_stream_v8_sentinel_tag, compute_stream_v8_chunk_tag,
      fixed_decode_tokens, decrypt_v8_stream_chunk_core, next_stream_chunk_idx, decrypt_chunk_step. refusals.
    by apply refuses_recover_codepoint.
Qed.

Lemma refuses_block_size (P : error → Prop) p n :
  (∀ e, v8_sealing_error e = true → P e) → refuses P (block_size p n).
Proof. intros HP. unfold block_size, bucket_block_size, checked_shl. refusals. Qed.

Lemma refuses_emit_codepoint_v8 P fuel primes sk_fmt nonce theta c run st :
  refuses P (emit_codepoint_v8 fuel primes sk_fmt nonce theta c run st).
Proof.
  revert run st. induction fuel as [|fuel IH]; intros run st; cbn [emit_codepoint_v8];
    unfold noise_token, real_token, derive_noise_token_addend; refusals.
Qed.

Lemma refuses_emit_body_v8 P primes sk_fmt nonce theta padded st :
  refuses P (emit_body_v8 primes sk_fmt nonce theta padded st).
Proof.
  revert st. induction padded as [|c padded IH]; intros st; cbn [emit_body_v8]; refusals.
  apply refuses_emit_codepoint_v8.
Qed.

Lemma encrypt_bytes_v8_errors `{Gate} message primes sk aad p :
  refuses (λ e, v8_sealing_error e = true) (encrypt_bytes_v8_with_profile message primes sk aad p).
Proof.
  unfold encrypt_bytes_v8_with_profile, encrypt_bytes_v8_core, encrypt_bytes_v8_core_inner, synthetic_nonce.
  refusals.
  - apply refuses_validate_key. intros e He. unfold v8_sealing_error. by rewrite He.
  - by apply refuses_block_size.
  - unfold pad_to_block, assert_that. refusals.
  - unfold emit_tokens_v8. refusals; [apply refuses_emit_body_v8|].
    unfold emit_filler_step, noise_token, derive_noise_token_addend. refusals.
Qed.
End opening.

(** ** What a message tells

    The texts the corpora of known answers expect, each with the errors of opening, or of
    sealing, whose message contains it. *)

Definition v8_opening_texts : list (string * (error → bool)) :=
  [ ("Authentication failed"%string, λ e, match e with AuthenticationFailed => true | _ => false end);
    ("too short"%string, λ e, match e with CiphertextTooShort _ | PaddedTooShort => true | _ => false end);
    ("not a multiple of the padding ceiling"%string, λ e, match e with V8NotCeilingMultiple => true | _ => false end);
    ("reachable padded block size"%string, λ e, match e with V8IllegalRealCount _ => true | _ => false end);
    ("exceeds available data"%string, λ e, match e with PrefixExceedsData _ _ => true | _ => false end);
    ("are not byte-valued"%string, λ e, match e with PrefixNotByteValued _ _ => true | _ => false end);
    ("not of the form codepoint"%string, λ e, match e with V8MalformedToken _ _ => true | _ => false end);
    ("is not a Unicode scalar value"%string, λ e, match e with V8NotScalar _ _ | V8PlaintextNotScalar _ => true | _ => false end) ].

Definition v7_opening_texts : list (string * (error → bool)) :=
  [ ("Authentication failed"%string, λ e, match e with AuthenticationFailed => true | _ => false end);
    ("too short"%string, λ e, match e with CiphertextTooShort _ | PaddedTooShort => true | _ => false end) ].

Definition stream_opening_texts : list (string * (error → bool)) :=
  [ ("Authentication failed"%string, λ e, match e with StreamSentinelTag | StreamChunkTag _ => true | _ => false end);
    ("Malformed v8 stream sentinel"%string, λ e, match e with StreamSentinelCount _ _ _ => true | _ => false end) ].

Definition v8_sealing_texts : list (string * (error → bool)) :=
  [ ("profile admits messages of at most"%string, λ e, match e with FrameTooSmall _ _ => true | _ => false end);
    ("exceeds MAX_KEY_PRIME"%string, λ e, match e with AboveMaximum _ _ => true | _ => false end) ].

(** Every entry of a table names only errors it allows. *)
Definition discriminates (possible : error → bool) (text : error → list piece) (table : list (string * (error → bool))) : Prop :=
  Forall (λ entry, ∀ e, possible e = true → contains (render (text e)) (str entry.1) = true → entry.2 e = true) table.

(** By the literals of each message. *)
Ltac by_literals :=
  intros Hc;
  first [ exact eq_refl
        | apply render_contains in Hc; [vm_compute in Hc; discriminate Hc | reflexivity | reflexivity | discriminate] ].

Ltac each_error e Hp :=
  destruct e; try discriminate Hp; try match goal with e : error |- _ => destruct e; try discriminate Hp end.

Lemma v8_opening_discriminates b : discriminates v8_opening_error (message b) v8_opening_texts.
Proof.
  repeat apply Forall_cons_2; [..|apply Forall_nil_2]; cbn [fst snd]; intros e Hp; each_error e Hp; by_literals.
Qed.

Lemma v7_opening_discriminates b : discriminates v7_opening_error (v7_message b) v7_opening_texts.
Proof.
  repeat apply Forall_cons_2; [..|apply Forall_nil_2]; cbn [fst snd]; intros e Hp; each_error e Hp; by_literals.
Qed.

Lemma v8_sealing_discriminates b : discriminates v8_sealing_error (message b) v8_sealing_texts.
Proof.
  repeat apply Forall_cons_2; [..|apply Forall_nil_2]; cbn [fst snd]; intros e Hp; each_error e Hp; by_literals.
Qed.

(** The one message with a hexadecimal value: by the values of a byte. *)
Lemma bad_format_contains b id want :
  forallb (λ i, negb (contains (render (message b (StreamBadFormat i))) want)) (seqZ 0 256) = true →
  contains (render (message b (StreamBadFormat id))) want = true → False.
Proof.
  intros Hall Hc. rewrite forallb_forall in Hall.
  assert (0 ≤ id mod 256 < 256) as Hr by (apply Z.mod_pos_bound; lia).
  specialize (Hall (id mod 256)). rewrite <-list_elem_of_In in Hall.
  assert (render (message b (StreamBadFormat (id mod 256))) = render (message b (StreamBadFormat id))) as Heq.
  { unfold render. cbn [message app key_message v7_key_message keygen_message v8_keygen_message crng_message block_size_message unpad_text blob_message noise_run_message v7_token_message v8_token_message v8_length_message v8_opening_message v7_aad_message v7_input_message v7_plaintext_message v7_raw_message frame_size_message stream_chunk_message chunk_limit_message stream_message encryptor_message kem_message kem_public_key_message x25519_message hybrid_public_key_message hybrid_message
      fmap list_fmap concat render_piece]. change (2 ^ 8) with 256. by rewrite Z.mod_mod by lia. }
  rewrite Heq, Hc in Hall. discriminate Hall. apply elem_of_seqZ. lia.
Qed.

Lemma starts_with_app a b s : starts_with (a ++ b) s = true → starts_with a s = true ∧ contains s b = true.
Proof.
  revert s. induction a as [|x a IH]; intros s H.
  - split; [by destruct s|]. destruct s; cbn in *; by rewrite H.
  - destruct s as [|y s]; [done|]. cbn in H. apply andb_prop in H as [Hx H]. destruct (IH s H) as [Ha Hb].
    cbn. by rewrite Hx, Ha, Hb, orb_true_r.
Qed.

Lemma contains_app a b s : contains s (a ++ b) = true → contains s a = true ∧ contains s b = true.
Proof.
  induction s as [|y s IH]; cbn [contains]; intros H; apply orb_prop in H as [H|H].
  - apply starts_with_app in H as [-> H]. by cbn in H |- *.
  - done.
  - destruct (starts_with_app a b (y :: s) H) as [-> Hb]. by cbn [contains] in Hb.
  - destruct (IH H) as [-> ->]. by rewrite !orb_true_r.
Qed.

(** The text with a digit in it: its parts around the digit have none. *)
Lemma stream_opening_discriminates b : discriminates stream_opening_error (message b) stream_opening_texts.
Proof.
  repeat apply Forall_cons_2; [..|apply Forall_nil_2]; cbn [fst snd]; intros e Hp.
  - each_error e Hp;
      lazymatch goal with
      | |- context [StreamBadFormat] => intros Hc; exfalso; revert Hc; apply bad_format_contains; vm_compute; reflexivity
      | _ => by_literals
      end.
  - change (str "Malformed v8 stream sentinel"%string) with (str "Malformed v"%string ++ str "8"%string ++ str " stream sentinel"%string).
    intros Hc. apply contains_app in Hc as [Hm Hc]. apply contains_app in Hc as [_ Hc]. revert Hm Hc.
    each_error e Hp;
      lazymatch goal with
      | |- context [StreamBadFormat] => intros Hc; exfalso; revert Hc; apply bad_format_contains; vm_compute; reflexivity
      | |- context [StreamSentinelTag] => by_literals
      | _ => intros _; by_literals
      end.
Qed.
