(* ===== verification/CrossCheck.v ===== *)
(** * Known answers shared between the ports ([kat_cross_check.rs])

    The tests that replay the JSON corpora of known answers, as functions of the
    parsed vectors: a test returns, or panics where an assertion or an [unwrap] fails. A JSON value
    is what the JSON library lets the code see of it. *)
From Stdlib Require Import ZArith Lia Strings.Byte Strings.String.
From stdpp Require Import base tactics option numbers gmap list.
From S2P Require Import Prelude Machine Errors Crates Post Primes Keys Derive Padding Tokens BlockV8.
From S2P Require Import LegacyV7 StreamV8 OtFrame KatVectors SelfTest Messages.

#[local] Open Scope Z_scope.
#[local] Open Scope napqes_scope.

(** ** JSON values *)

(** [serde_json::Value]: [get] is [None] unless the value is an object with that key. *)
Class Json := {
  Value : Type;
  Null : Value;
  get : list Z → Value → option Value;
  as_str : Value → option (list Z);
  as_array : Value → option (list Value);
  as_u64 : Value → option Z;
  is_object : Value → bool;
  debug : Value → list Z;
  from_str : list Z → option Value;
}.

(** A Rust string holds scalar values and fits in memory; an unsigned number has 64 bits. *)
Class JsonLaws `{Json} := {
  as_str_ok v s : as_str v = Some s → str_ok s;
  as_str_length v s : as_str v = Some s → Z.of_nat (length s) < 2 ^ 63;
  as_u64_fits v n : as_u64 v = Some n → fits 64 n;
}.

(** The result of a test: it has no error of its own. *)
Abbreviation test := (outcome Empty_set).

(** [unwrap], and [panic!] on an error. *)
Definition unwrap {A} (o : option A) : test A := expect PanicExpect o.
Definition unwrap_ok {E A} (r : outcome E A) : test A :=
  match r with Ok a => Ok a | Err _ => Panic PanicExpect | Panic p => Panic p end.

Section cross_check.
Context `{Json}.

(** [v[key]], and its comparison with a string. *)
Definition index (key : string) (v : Value) : Value := default Null (get (str key) v).
Definition is_str (v : Value) (s : string) : bool := bool_decide (as_str v = Some (str s)).

Definition str_or_empty (v : Value) : list Z := default [] (as_str v).

(** ** The corpora *)

(** A path is its components; the nearest directory wins. *)
Definition corpus_path (is_file : list (list Z) → bool) (manifest_dir : list (list Z)) (name : string) : test (list (list Z)) :=
  let ancestors := (λ n, take n manifest_dir) <$> reverse (List.seq 0 (S (length manifest_dir))) in
  let candidates := (λ dir, dir ++ [str "tests"; str "kat"; str name]) <$> ancestors in
  unwrap (List.find is_file candidates).

(** [read] is the file system, [None] where reading fails. *)
Definition load_corpus (is_file : list (list Z) → bool) (read : list (list Z) → option (list Z))
    (manifest_dir : list (list Z)) (name : string) : test (list Value) :=
  path ← corpus_path is_file manifest_dir name;
  content ← unwrap (read path);
  doc ← unwrap (from_str content);
  unwrap (as_array (index "vectors" doc)).

(** The slices [h[i..i + 2]] of the bytes of a string. *)
Fixpoint hex_decode_bytes (h : list byte) : test (list byte) :=
  match h with
  | [] => Ok []
  | [_] => Panic PanicBounds
  | a :: b :: h' =>
      if match h' with c :: _ => is_continuation c | [] => false end then Panic PanicBounds
      else
        v ← unwrap (u8_from_hex_pair (byte_to_Z a) (byte_to_Z b));
        rest ← hex_decode_bytes h';
        Ok (byte_of_Z v :: rest)
  end.

Definition hex_decode (h : list Z) : test (list byte) := hex_decode_bytes (as_bytes h).

Definition V7_POSITIVE : Z := 22.
Definition V7_NEGATIVE : Z := 9.
Definition V8_POSITIVE : Z := 23.
Definition V8_NEGATIVE : Z := 12.
Definition V8_ENCRYPT_NEGATIVE : Z := 2.
Definition V8_STREAM_POSITIVE : Z := 11.
Definition V8_STREAM_NEGATIVE : Z := 4.

Definition of_kind (kind : string) (v : Value) : bool := is_str (index "kind" v) kind.
Definition count (kind : string) (vs : list Value) : nat := length (filter (λ v, of_kind kind v = true) vs).

Definition corpus_sizes_are_pinned (v7 v8 stream : list Value) : test unit :=
  _ ← assert_that (bool_decide ((length v7, count "positive" v7, count "negative" v7) = (37, 26, 11)%nat));
  _ ← assert_that (bool_decide ((length v8, count "positive" v8, count "negative" v8, count "encrypt_negative" v8)
                                = (37, 23, 12, 2)%nat));
  assert_that (bool_decide ((length stream, count "positive" stream, count "negative" stream) = (15, 11, 4)%nat)).

(** ** Fields of a vector *)

Definition hex_field (key : string) (v : Value) : test (list byte) :=
  h ← unwrap (as_str (index key v)); hex_decode h.
Definition hex_field_or_empty (key : string) (v : Value) : test (list byte) := hex_decode (str_or_empty (index key v)).

(** [bytes.try_into()] for an array of this size. *)
Definition sized (n : nat) (bytes : list byte) : test (list byte) :=
  if bool_decide (length bytes = n) then Ok bytes else Panic PanicExpect.

Definition number_array (key : string) (v : Value) : test (list Z) :=
  elements ← unwrap (as_array (index key v)); collect (λ x, unwrap (as_u64 x)) elements.

Definition v8_key (v : Value) : test (list Z) := number_array "key" v.
Definition v8_sk (v : Value) : test (list byte) := bytes ← hex_field "sk_hex" v; sized SK_SIZE bytes.
Definition v8_stream_primes (v : Value) : test (list Z) := number_array "primes" v.
Definition v8_stream_sk (v : Value) : test (list byte) := bytes ← hex_field "sk_hex" v; sized SK_SIZE bytes.
Definition v8_stream_nonce (v : Value) : test (list byte) := bytes ← hex_field "nonce_hex" v; sized NONCE_SIZE bytes.

(** The error is a message. *)
Definition pad_profile_from_vec (v : Value) : outcome (list Z) PadProfile :=
  match get (str "pad_profile") v with
  | None => Ok Bucket
  | Some p =>
      if is_str p "bucket" then Ok Bucket
      else if is_object p then
        match get (str "coarse") p ≫= as_u64 with
        | Some g => Ok (Coarse (g mod 2 ^ 32))
        | None =>
            match get (str "frame") p ≫= as_u64 with
            | Some f => Ok (Frame (f mod 2 ^ 32))
            | None => Err (str "unrecognised pad_profile object: " ++ debug p)
            end
        end
      else Err (str "unrecognised pad_profile value: " ++ debug p)
  end.

(** [expected_error_contains], or else [expected_exception]. *)
Definition expected_text (v : Value) : option (list Z) :=
  match get (str "expected_error_contains") v ≫= as_str with
  | Some want => Some want
  | None => get (str "expected_exception") v ≫= as_str
  end.

(** The [for] loop of a test over the vectors it selects, counting them; then the count
    is compared. *)
Fixpoint count_tested (body : Value → test unit) (vs : list Value) (tested : Z) : test Z :=
  match vs with
  | [] => Ok tested
  | v :: vs => _ ← body v; tested ← tested +64 1; count_tested body vs tested
  end.

Definition run_vectors (select : Value → bool) (body : Value → test unit) (expected : Z) (vs : list Value) : test unit :=
  tested ← count_tested body (filter (λ v, select v = true) vs) 0;
  assert_that (tested =? expected).

(** ** The tests *)

Context `{Crypto} `{Gate}.

(** The text of an error of the base64 library; no test meets one. *)
Context (base64_error : list Z).

Definition error_text (e : error) : list Z := render (message base64_error e).
Definition v7_error_text (e : error) : list Z := render (v7_message base64_error e).

(** An [Err] must come, its message containing [want] if there is one. *)
Definition expect_refusal {A} (text : error → list Z) (r : outcome error A) (want : option (list Z)) : test unit :=
  match r with
  | Ok _ => Panic PanicExpect
  | Panic p => Panic p
  | Err e => match want with Some want => assert_that (contains (text e) want) | None => Ok tt end
  end.

Definition not_stream (kind : string) (v : Value) : bool :=
  of_kind kind v && negb (is_str (index "api" v) "stream_ae").

Definition v7_positive_decrypt_vector (v : Value) : test unit :=
  _ ← unwrap (as_str (index "id" v));
  let message := str_or_empty (index "message" v) in
  let ct_hex := str_or_empty (index "ciphertext_hex" v) in
  let aad_hex := str_or_empty (index "aad_hex" v) in
  _ ← assert_that (negb (bool_decide (ct_hex = [])));
  key ← v8_key v;
  ct ← hex_decode ct_hex;
  aad ← hex_decode aad_hex;
  plaintext ← unwrap_ok (decrypt_bytes ct key aad);
  assert_that (bool_decide (plaintext = message)).

Definition legacy_v7_positive_decrypt_roundtrip : list Value → test unit :=
  run_vectors (not_stream "positive") v7_positive_decrypt_vector V7_POSITIVE.

Definition v7_positive_encrypt_vector (v : Value) : test unit :=
  _ ← unwrap (as_str (index "id" v));
  let message := str_or_empty (index "message" v) in
  let nonce_hex := str_or_empty (index "nonce_hex" v) in
  let ct_hex := str_or_empty (index "ciphertext_hex" v) in
  let aad_hex := str_or_empty (index "aad_hex" v) in
  _ ← assert_that (negb (bool_decide (nonce_hex = [])) && negb (bool_decide (ct_hex = [])));
  key ← v8_key v;
  nonce_bytes ← hex_decode nonce_hex;
  _ ← assert_that (bool_decide (length nonce_bytes = NONCE_SIZE));
  expected_ct ← hex_decode ct_hex;
  aad ← hex_decode aad_hex;
  got_ct ← unwrap_ok (encrypt_bytes_with_nonce message key nonce_bytes aad);
  assert_that (bool_decide (got_ct = expected_ct)).

Definition legacy_v7_positive_encrypt_bytes_deterministic : list Value → test unit :=
  run_vectors (not_stream "positive") v7_positive_encrypt_vector V7_POSITIVE.

Definition v7_negative_vector (v : Value) : test unit :=
  _ ← unwrap (as_str (index "id" v));
  let tampered_hex := str_or_empty (index "tampered_hex" v) in
  let aad_hex := str_or_empty (index "aad_hex" v) in
  key ← v8_key v;
  ct ← hex_decode tampered_hex;
  aad ← hex_decode aad_hex;
  expect_refusal v7_error_text (decrypt_bytes ct key aad) (expected_text v).

Definition legacy_v7_negative_returns_err : list Value → test unit :=
  run_vectors (not_stream "negative") v7_negative_vector V7_NEGATIVE.

(** [pad_profile_from_vec(vec).and_then(|profile| encrypt_bytes_v8_with_profile(..))]. *)
Definition encrypt_vector (v : Value) (message key : list Z) (sk aad : list byte) : outcome (list Z) (list byte) :=
  profile ← pad_profile_from_vec v;
  map_err error_text (encrypt_bytes_v8_with_profile message key sk aad profile).

Definition v8_positive_encrypt_vector (v : Value) : test unit :=
  _ ← unwrap (as_str (index "id" v));
  let message := str_or_empty (index "message" v) in
  expected_ct ← hex_field "ciphertext_hex" v;
  aad ← hex_field_or_empty "aad_hex" v;
  sk ← v8_sk v;
  key ← v8_key v;
  got_ct ← unwrap_ok (encrypt_vector v message key sk aad);
  _ ← assert_that (bool_decide (length got_ct = length expected_ct));
  assert_that (bool_decide (got_ct = expected_ct)).

Definition v8_positive_encrypt_matches_python : list Value → test unit :=
  run_vectors (of_kind "positive") v8_positive_encrypt_vector V8_POSITIVE.

Definition v8_positive_decrypt_vector (v : Value) : test unit :=
  _ ← unwrap (as_str (index "id" v));
  let message := str_or_empty (index "message" v) in
  ct ← hex_field "ciphertext_hex" v;
  aad ← hex_field_or_empty "aad_hex" v;
  sk ← v8_sk v;
  key ← v8_key v;
  pt ← unwrap_ok (decrypt_bytes_v8 ct key sk aad);
  assert_that (bool_decide (pt = message)).

Definition v8_positive_decrypt_roundtrip : list Value → test unit :=
  run_vectors (of_kind "positive") v8_positive_decrypt_vector V8_POSITIVE.

Definition v8_negative_vector (v : Value) : test unit :=
  _ ← unwrap (as_str (index "id" v));
  ct ← hex_field "tampered_hex" v;
  aad ← hex_field_or_empty "aad_hex" v;
  sk ← v8_sk v;
  key ← v8_key v;
  expect_refusal error_text (decrypt_bytes_v8 ct key sk aad) (expected_text v).

Definition v8_negative_returns_err : list Value → test unit :=
  run_vectors (of_kind "negative") v8_negative_vector V8_NEGATIVE.

Definition v8_encrypt_negative_vector (v : Value) : test unit :=
  _ ← unwrap (as_str (index "id" v));
  message ← unwrap (as_str (index "message" v));
  aad ← hex_field_or_empty "aad_hex" v;
  want ← unwrap (as_str (index "expected_exception" v));
  sk ← v8_sk v;
  key ← v8_key v;
  match encrypt_vector v message key sk aad with
  | Ok _ => Panic PanicExpect
  | Err err => assert_that (contains err want)
  | Panic p => Panic p
  end.

Definition v8_encrypt_negative_returns_err : list Value → test unit :=
  run_vectors (of_kind "encrypt_negative") v8_encrypt_negative_vector V8_ENCRYPT_NEGATIVE.

Definition v8_stream_positive_encrypt_vector (v : Value) : test unit :=
  _ ← unwrap (as_str (index "id" v));
  let message := str_or_empty (index "message" v) in
  aad ← hex_field_or_empty "aad_hex" v;
  frame ← unwrap (as_u64 (index "frame_codepoints" v));
  let frame_codepoints := frame mod 2 ^ 32 in
  expected_ct ← hex_field "ciphertext_hex" v;
  primes ← v8_stream_primes v;
  sk ← v8_stream_sk v;
  nonce ← v8_stream_nonce v;
  got_ct ← unwrap_ok (encrypt_stream_ae_v8_with_nonce message primes sk nonce aad frame_codepoints);
  _ ← assert_that (bool_decide (length got_ct = length expected_ct));
  assert_that (bool_decide (got_ct = expected_ct)).

Definition v8_stream_positive_encrypt_matches_python : list Value → test unit :=
  run_vectors (of_kind "positive") v8_stream_positive_encrypt_vector V8_STREAM_POSITIVE.

Definition v8_stream_positive_decrypt_vector (v : Value) : test unit :=
  _ ← unwrap (as_str (index "id" v));
  let message := str_or_empty (index "message" v) in
  ct ← hex_field "ciphertext_hex" v;
  aad ← hex_field_or_empty "aad_hex" v;
  primes ← v8_stream_primes v;
  sk ← v8_stream_sk v;
  pt ← unwrap_ok (decrypt_stream_ae_v8 ct primes sk aad);
  assert_that (bool_decide (pt = message)).

Definition v8_stream_positive_decrypt_roundtrip : list Value → test unit :=
  run_vectors (of_kind "positive") v8_stream_positive_decrypt_vector V8_STREAM_POSITIVE.

Definition v8_stream_negative_vector (v : Value) : test unit :=
  _ ← unwrap (as_str (index "id" v));
  ct ← hex_field "tampered_hex" v;
  aad ← hex_field_or_empty "aad_hex" v;
  want ← unwrap (as_str (index "expected_exception" v));
  primes ← v8_stream_primes v;
  sk ← v8_stream_sk v;
  expect_refusal error_text (decrypt_stream_ae_v8 ct primes sk aad) (Some want).

Definition v8_stream_negative_returns_err : list Value → test unit :=
  run_vectors (of_kind "negative") v8_stream_negative_vector V8_STREAM_NEGATIVE.
End cross_check.

(** ** Running vectors *)

Section replay.
Context `{JsonLaws} `{Crypto} `{Gate} (base64_error : list Z).

Lemma assert_that_Ok {E} b : assert_that (E:=E) b = Ok tt ↔ b = true.
Proof. by destruct b. Qed.

Lemma count_tested_Ok body vs n m :
  count_tested body vs n = Ok m → m = n + Z.of_nat (length vs) ∧ Forall (λ v, body v = Ok tt) vs.
Proof.
  revert n. induction vs as [|v vs IH]; intros n; cbn [count_tested].
  - intros [= ->]. split; [cbn; lia|constructor].
  - intros (u & Hv & Hc)%bind_Ok_inv. apply bind_Ok_inv in Hc as (n' & Hn & Hc).
    unfold checked_add in Hn. case_match; [|done]. injection Hn as <-.
    apply IH in Hc as [-> Hall]. destruct u. split; [cbn [length]; lia|by constructor].
Qed.

Lemma count_tested_all body vs n :
  Forall (λ v, body v = Ok tt) vs → n + Z.of_nat (length vs) < 2 ^ 64 → count_tested body vs n = Ok (n + Z.of_nat (length vs)).
Proof.
  intros Hall. revert n. induction Hall as [|v vs Hv _ IH]; intros n Hn; cbn [count_tested length] in *.
  - f_equal. lia.
  - rewrite Hv, bind_Ok. rewrite checked_add_Ok, bind_Ok by lia. rewrite IH by lia. f_equal. lia.
Qed.

(** A test passes when it selects as many vectors as expected and all of them pass. *)
Lemma run_vectors_Ok select body n vs :
  n < 2 ^ 64 →
  run_vectors select body n vs = Ok tt ↔
  let chosen := filter (λ v, select v = true) vs in
  Z.of_nat (length chosen) = n ∧ Forall (λ v, body v = Ok tt) chosen.
Proof.
  intros Hn. unfold run_vectors. cbv zeta. split.
  - intros (m & Hc & Hm)%bind_Ok_inv. apply count_tested_Ok in Hc as [-> Hall].
    apply assert_that_Ok in Hm. split; [lia|done].
  - intros [Hl Hall]. rewrite count_tested_all, bind_Ok by (done || lia). apply assert_that_Ok. lia.
Qed.

Lemma run_vectors_imp select body1 body2 n vs :
  n < 2 ^ 64 → (∀ v, body1 v = Ok tt → body2 v = Ok tt) →
  run_vectors select body1 n vs = Ok tt → run_vectors select body2 n vs = Ok tt.
Proof.
  intros Hn Himp. rewrite !run_vectors_Ok by done. intros [Hl Hall]. split; [done|].
  eapply Forall_impl; [exact Hall|exact Himp].
Qed.

Lemma unwrap_ok_Ok {E A} (r : outcome E A) a : unwrap_ok r = Ok a ↔ r = Ok a.
Proof. destruct r; cbn; split; congruence. Qed.

Lemma str_or_empty_ok v : str_ok (str_or_empty v) ∧ Z.of_nat (length (str_or_empty v)) < 2 ^ 63.
Proof.
  unfold str_or_empty. destruct (as_str v) as [s|] eqn:Hs; cbn; [|split; [constructor|lia]].
  split; [by eapply as_str_ok|by eapply as_str_length].
Qed.

Lemma number_array_fits key v ns : number_array key v = Ok ns → Forall (fits 64) ns.
Proof.
  unfold number_array. intros (vs & _ & Hc)%bind_Ok_inv. revert ns Hc.
  induction vs as [|x vs IH]; intros ns; cbn [collect]; [intros [= <-]; constructor|].
  intros (n & Hn & Hc)%bind_Ok_inv. apply bind_Ok_inv in Hc as (ns' & Hc & [= <-]).
  constructor; [|by apply IH]. unfold unwrap, expect in Hn. case_match; [|done]. injection Hn as ->.
  by eapply as_u64_fits.
Qed.

Lemma pad_profile_from_vec_fits v p : pad_profile_from_vec v = Ok p → profile_fits p.
Proof.
  unfold pad_profile_from_vec. repeat case_match; intros [= <-]; cbn; try done;
    unfold fits; apply Z.mod_pos_bound; lia.
Qed.

Lemma validated_key primes : Forall (fits 64) primes → validate_key primes = Ok tt → valid_key primes.
Proof. intros Hf Hv. pose proof (validate_key_cases primes Hf) as Hc. by rewrite Hv in Hc. Qed.

(** Encryption that matches the corpus decrypts the corpus. *)
Lemma v8_vector_encrypt_decrypt v :
  v8_positive_encrypt_vector base64_error v = Ok tt → v8_positive_decrypt_vector v = Ok tt.
Proof.
  unfold v8_positive_encrypt_vector, v8_positive_decrypt_vector.
  intros (id & -> & Hv)%bind_Ok_inv. apply bind_Ok_inv in Hv as (ct & -> & Hv).
  apply bind_Ok_inv in Hv as (aad & -> & Hv). apply bind_Ok_inv in Hv as (sk & -> & Hv).
  apply bind_Ok_inv in Hv as (key & Hkey & Hv). rewrite Hkey. rewrite !bind_Ok.
  apply bind_Ok_inv in Hv as (got & Hgot & Hv). apply bind_Ok_inv in Hv as ([] & _ & Hv).
  apply assert_that_Ok, bool_decide_eq_true_1 in Hv. subst got.
  apply (proj1 (unwrap_ok_Ok _ _)) in Hgot. unfold encrypt_vector in Hgot.
  apply bind_Ok_inv in Hgot as (p & Hp & Hgot). apply pad_profile_from_vec_fits in Hp.
  unfold encrypt_bytes_v8_with_profile in Hgot.
  destruct gated_cases as [Hg|Hg]; rewrite Hg in Hgot; [|done]. rewrite bind_Ok in Hgot.
  destruct (validate_key key) as [[]|e|pc] eqn:Hvalid; [|done..]. rewrite bind_Ok in Hgot.
  pose proof (validated_key key (number_array_fits _ _ _ Hkey) Hvalid) as Hvk.
  destruct (str_or_empty_ok (index "message" v)) as [Hs _].
  pose proof (encrypt_core_cases key (valid_key_arith _ Hvk) sk (str_or_empty (index "message" v)) aad p Hs Hp) as Hc.
  destruct (encrypt_bytes_v8_core _ _ _ _ _) as [c|e|pc]; [|done..]. injection Hgot as ->.
  destruct Hc as (B & _ & _ & Hd). unfold decrypt_bytes_v8. rewrite Hg, bind_Ok, Hvalid, bind_Ok, Hd.
  cbn [unwrap_ok]. rewrite bind_Ok. by apply assert_that_Ok, bool_decide_eq_true_2.
Qed.

Lemma sized_length n bytes bytes' : sized n bytes = Ok bytes' → bytes' = bytes ∧ length bytes = n.
Proof. unfold sized. case_bool_decide; [|done]. by intros [= <-]. Qed.

Lemma v8_stream_vector_encrypt_decrypt v :
  gate_open → v8_stream_positive_encrypt_vector v = Ok tt → v8_stream_positive_decrypt_vector v = Ok tt.
Proof.
  intros Hg. unfold v8_stream_positive_encrypt_vector, v8_stream_positive_decrypt_vector.
  intros (id & -> & Hv)%bind_Ok_inv. apply bind_Ok_inv in Hv as (aad & -> & Hv).
  apply bind_Ok_inv in Hv as (frame & _ & Hv). apply bind_Ok_inv in Hv as (ct & -> & Hv).
  apply bind_Ok_inv in Hv as (primes & Hp & Hv). apply bind_Ok_inv in Hv as (sk & -> & Hv).
  apply bind_Ok_inv in Hv as (nonce & Hn & Hv). rewrite Hp, !bind_Ok.
  apply bind_Ok_inv in Hv as (got & Hgot & Hv). apply bind_Ok_inv in Hv as ([] & _ & Hv).
  apply assert_that_Ok, bool_decide_eq_true_1 in Hv. subst got. apply (proj1 (unwrap_ok_Ok _ _)) in Hgot.
  unfold v8_stream_nonce in Hn. apply bind_Ok_inv in Hn as (nb & _ & Hn). apply sized_length in Hn as [-> Hn].
  destruct (str_or_empty_ok (index "message" v)) as [Hs Hl].
  pose proof Hgot as Henc. unfold encrypt_stream_ae_v8_with_nonce in Henc.
  apply bind_Ok_inv in Henc as ([] & Hvalid & Henc). apply bind_Ok_inv in Henc as ([] & Hf & _).
  assert (1 ≤ frame mod 2 ^ 32 ≤ STREAM_AE_V8_MAX_FRAME) as Hframe.
  { unfold validate_stream_v8_frame in Hf. case_if_in Hf; [done|]. lia. }
  pose proof (validated_key primes (number_array_fits _ _ _ Hp) Hvalid) as Hvk.
  pose proof (stream_encrypt_decrypt_cases (str_or_empty (index "message" v)) primes sk nb aad (frame mod 2 ^ 32)
    Hg Hvk Hframe Hn Hs ltac:(lia)) as Hc. rewrite Hgot in Hc. destruct Hc as [Hd _].
  rewrite Hd. cbn [unwrap_ok]. rewrite bind_Ok. by apply assert_that_Ok, bool_decide_eq_true_2.
Qed.
End replay.

(** ** Corpora written by this implementation *)

(** Outside odd lengths the decoder of the self-tests agrees. *)
Lemma hex_decode_bytes_pairs h n bs :
  length h = (2 * n)%nat → decode_hex_pairs h = Ok bs → hex_decode_bytes h = Ok bs.
Proof.
  revert n bs. revert h. fix IH 1. intros [|a [|b h]] n bs Hl; [by intros [= <-]|cbn in Hl; lia|].
  cbn [decode_hex_pairs hex_decode_bytes]. case_match; [done|].
  destruct (u8_from_hex_pair _ _); [|by intros (? & ? & _)%bind_Ok_inv]. cbn [opt_or unwrap expect]. rewrite !bind_Ok.
  intros (rest & Hr & [= <-])%bind_Ok_inv. destruct n as [|n]; [done|].
  rewrite (IH h n rest); [done|cbn in Hl; lia|done].
Qed.

Lemma hex_decode_to_hex bs : hex_decode (to_hex bs) = Ok bs.
Proof.
  unfold hex_decode. apply (hex_decode_bytes_pairs _ (length bs)); [|apply decode_hex_pairs_to_hex].
  destruct (to_hex_ascii bs) as [Ha Hl]. by rewrite as_bytes_ascii.
Qed.

Section written.
Context `{Json} `{Crypto} `{Gate} (base64_error : list Z).

(** What a corpus records of one encryption, and a vector that records it. *)
Record v8_case := V8Case { c_message : list Z; c_key : list Z; c_sk : list byte; c_aad : list byte; c_profile : PadProfile }.

Definition written (v : Value) (c : v8_case) : Prop :=
  as_str (index "id" v) ≠ None ∧ as_str (index "message" v) = Some (c_message c) ∧
  (∃ ct, encrypt_bytes_v8_with_profile (c_message c) (c_key c) (c_sk c) (c_aad c) (c_profile c) = Ok ct ∧
     as_str (index "ciphertext_hex" v) = Some (to_hex ct)) ∧
  as_str (index "aad_hex" v) = Some (to_hex (c_aad c)) ∧
  as_str (index "sk_hex" v) = Some (to_hex (c_sk c)) ∧ length (c_sk c) = SK_SIZE ∧
  (∃ ks, as_array (index "key" v) = Some ks ∧ Forall2 (λ x k, as_u64 x = Some k) ks (c_key c)) ∧
  pad_profile_from_vec v = Ok (c_profile c).

Lemma collect_numbers ks key :
  Forall2 (λ x k, as_u64 x = Some k) ks key → collect (λ x, unwrap (as_u64 x)) ks = Ok key.
Proof.
  induction 1 as [|x k ks key Hx _ IH]; [done|]. cbn [collect]. rewrite Hx. cbn [unwrap expect]. by rewrite bind_Ok, IH.
Qed.

Lemma written_passes v c : written v c → v8_positive_encrypt_vector base64_error v = Ok tt.
Proof.
  intros (Hid & Hm & (ct & Henc & Hct) & Haad & Hsk & Hlen & (ks & Hks & Hkey) & Hp).
  unfold v8_positive_encrypt_vector, hex_field, hex_field_or_empty, str_or_empty, v8_sk, v8_key, number_array, hex_field.
  rewrite Hm, Hct, Haad, Hsk, Hks. destruct (as_str (index "id" v)); [|done]. cbn [unwrap expect default from_option id].
  repeat first [rewrite bind_Ok | rewrite hex_decode_to_hex]. unfold sized. rewrite (bool_decide_eq_true_2 (length (c_sk c) = _)) by done. cbn iota. rewrite bind_Ok.
  rewrite (collect_numbers ks (c_key c) Hkey).
  rewrite bind_Ok. unfold encrypt_vector. rewrite Hp, bind_Ok, Henc. cbn [map_err unwrap_ok default]. rewrite bind_Ok.
  rewrite !bool_decide_eq_true_2 by done. done.
Qed.
End written.

(** ** Properties of the replay *)

(** The kinds of a pinned corpus. *)
Lemma count_le `{Json} kind vs : (count kind vs ≤ length vs)%nat.
Proof. apply length_filter. Qed.

Lemma is_str_other `{Json} v a b : str a ≠ str b → is_str v a = true → is_str v b = false.
Proof. unfold is_str. rewrite bool_decide_eq_true. intros Hab ->. apply bool_decide_eq_false_2. congruence. Qed.

(** When disjoint kinds make up the whole length, every vector is of one of them. *)
Lemma kinds_cover `{Json} (k1 k2 k3 : string) vs :
  str k1 ≠ str k2 → str k1 ≠ str k3 → str k2 ≠ str k3 →
  (count k1 vs + count k2 vs + count k3 vs ≤ length vs)%nat ∧
  ((length vs ≤ count k1 vs + count k2 vs + count k3 vs)%nat →
   Forall (λ v, of_kind k1 v = true ∨ of_kind k2 v = true ∨ of_kind k3 v = true) vs).
Proof.
  intros H12 H13 H23. unfold count.
  assert (∀ v, ¬ (of_kind k1 v = true ∧ of_kind k2 v = true) ∧ ¬ (of_kind k1 v = true ∧ of_kind k3 v = true) ∧
    ¬ (of_kind k2 v = true ∧ of_kind k3 v = true)) as Hdisj.
  { intros v. unfold of_kind. split_and!; intros [H1 H2].
    - by rewrite (is_str_other _ k1 k2 H12 H1) in H2.
    - by rewrite (is_str_other _ k1 k3 H13 H1) in H2.
    - by rewrite (is_str_other _ k2 k3 H23 H1) in H2. }
  induction vs as [|v vs [IH1 IH2]]; [by split; [|constructor]|]. destruct (Hdisj v) as (Hd12 & Hd13 & Hd23).
  rewrite !filter_cons. repeat case_decide; try (exfalso; tauto); cbn [length];
    (split; [lia|intros Hl; constructor; [tauto || (exfalso; lia)|apply IH2; lia]]).
Qed.

(** C30: The replay of the corpora is consistent. When the encryption test passes on a v8
    corpus, whoever wrote it, the decryption test passes on it as well, and likewise for
    the streaming corpora; and a corpus that records encryptions of this implementation,
    one per positive vector and as many as the test expects, passes. *)
Theorem kat_corpora_replay `{JsonLaws} `{Crypto} `{Gate} base64_error vs :
  gate_open →
  (v8_positive_encrypt_matches_python base64_error vs = Ok tt → v8_positive_decrypt_roundtrip vs = Ok tt) ∧
  (v8_stream_positive_encrypt_matches_python vs = Ok tt → v8_stream_positive_decrypt_roundtrip vs = Ok tt) ∧
  (∀ cases, Forall2 written (filter (λ v, of_kind "positive" v = true) vs) cases →
     Z.of_nat (length cases) = V8_POSITIVE →
     v8_positive_encrypt_matches_python base64_error vs = Ok tt).
Proof.
  intros Hg. split_and!.
  - apply run_vectors_imp; [done|]. apply v8_vector_encrypt_decrypt.
  - apply run_vectors_imp; [done|]. intros v. by apply v8_stream_vector_encrypt_decrypt.
  - intros cases Hall Hl. apply run_vectors_Ok; [done|]. cbv zeta.
    split; [by rewrite (Forall2_length _ _ _ Hall)|].
    clear Hl. revert Hall. generalize (filter (λ v, of_kind "positive" v = true) vs). intros chosen Hall.
    induction Hall as [|v c chosen cs Hv _ IH]; constructor; [by eapply written_passes|done].
Qed.

(** ** A JSON library for the examples *)

Module ToyJson.
#[warnings="-register-all"] Inductive value := VNull | VNumber (n : Z) | VString (s : list Z) | VArray (l : list value) | VObject (fields : list (list Z * value)).

Fixpoint find_field (k : list Z) (fields : list (list Z * value)) : option value :=
  match fields with
  | [] => None
  | (k', v) :: fields => if bool_decide (k = k') then Some v else find_field k fields
  end.

Definition json : Json := {|
  Value := value;
  Null := VNull;
  get k v := match v with VObject fields => find_field k fields | _ => None end;
  as_str v := match v with
    | VString s => if bool_decide (Forall (λ c, is_scalar c = true) s) && (Z.of_nat (length s) <? 2 ^ 63) then Some s else None
    | _ => None
    end;
  as_array v := match v with VArray l => Some l | _ => None end;
  as_u64 v := match v with VNumber n => if bool_decide (fits 64 n) then Some n else None | _ => None end;
  is_object v := match v with VObject _ => true | _ => false end;
  debug v := [];
  from_str s := None
|}.

#[local] Existing Instance json.

Lemma as_str_VString s : str_ok s → Z.of_nat (length s) < 2 ^ 63 → as_str (VString s) = Some s.
Proof.
  intros Hs Hl. cbn [as_str json]. rewrite bool_decide_eq_true_2 by exact Hs.
  by rewrite (proj2 (Z.ltb_lt _ _) Hl).
Qed.

Lemma json_laws : JsonLaws.
Proof.
  split; intros [] x; cbn [as_str as_u64 json]; try done.
  - case_bool_decide; [|done]. case_match; [|done]. by intros [= <-].
  - case_bool_decide; [|done]. destruct (_ <? _) eqn:Hl; [|done]. intros [= <-]. by apply Z.ltb_lt.
  - case_bool_decide; [|done]. by intros [= <-].
Qed.

(** A positive vector of the sample key. *)
Definition sample_case : v8_case := V8Case [72; 105] sample_key (replicate 32 x07) [x01] Bucket.

Definition vector (ct : list byte) : value :=
  VObject [ (str "id", VString (str "W001")); (str "kind", VString (str "positive"));
    (str "key", VArray (VNumber <$> sample_key)); (str "sk_hex", VString (to_hex (replicate 32 x07)));
    (str "message", VString [72; 105]); (str "aad_hex", VString (to_hex [x01]));
    (str "ciphertext_hex", VString (to_hex ct)) ].

Lemma vector_written `{Crypto} `{Gate} ct :
  encrypt_bytes_v8_with_profile [72; 105] sample_key (replicate 32 x07) [x01] Bucket = Ok ct →
  Z.of_nat (length ct) < 2 ^ 60 → written (vector ct) sample_case.
Proof.
  intros Henc Hl. destruct (to_hex_ascii ct) as [Ha Hlen].
  split; [discriminate|]. split; [reflexivity|]. split.
  { exists ct. split; [exact Henc|]. change (as_str (VString (to_hex ct)) = Some (to_hex ct)).
    apply as_str_VString; [|lia]. eapply Forall_impl; [exact Ha|]. intros c Hc. cbv beta in Hc.
    apply is_scalar_byte. lia. }
  split; [reflexivity|]. split; [reflexivity|]. split; [reflexivity|]. split; [|reflexivity].
  exists (VNumber <$> sample_key). split; [reflexivity|]. by repeat constructor.
Qed.

(** A negative vector: too short to be a ciphertext. *)
Definition short_vector (expected : string) : value :=
  VObject [ (str "id", VString (str "W-N04")); (str "kind", VString (str "negative"));
    (str "key", VArray (VNumber <$> sample_key)); (str "sk_hex", VString (to_hex (replicate 32 x07)));
    (str "tampered_hex", VString (str "00ff")); (str "expected_exception", VString (str expected)) ].

(** An encryption vector with a profile that does not exist. *)
Definition bad_profile_vector (expected : string) : value :=
  VObject [ (str "id", VString (str "W-E03")); (str "kind", VString (str "encrypt_negative"));
    (str "key", VArray (VNumber <$> sample_key)); (str "sk_hex", VString (to_hex (replicate 32 x07)));
    (str "message", VString [72; 105]); (str "pad_profile", VString (str "none"));
    (str "expected_exception", VString (str expected)) ].
End ToyJson.

(** The message of the sample vector can be encrypted. *)
Lemma sample_encrypts `{Crypto} `{Gate} :
  gate_open →
  ∃ ct, encrypt_bytes_v8_with_profile [72; 105] sample_key (replicate 32 x07) [x01] Bucket = Ok ct ∧
    Z.of_nat (length ct) < 2 ^ 60.
Proof.
  intros Hg. assert (str_ok [72; 105]) as Hs by (repeat constructor).
  pose proof (encrypt_core_cases sample_key sample_key_arith (replicate 32 x07) [72; 105] [x01] Bucket Hs I) as Hc.
  unfold encrypt_bytes_v8_with_profile. rewrite Hg, bind_Ok, validate_key_valid, bind_Ok by apply sample_key_valid.
  cbv zeta in Hc. cbn [length] in Hc. change (Z.of_nat 2) with 2 in Hc.
  assert (block_size Bucket 2 = Ok 16) as HB by reflexivity. rewrite HB in Hc.
  destruct (encrypt_bytes_v8_core _ _ _ _ _) as [ct|e|p].
  - destruct Hc as (B & [= <-] & Hl & _). exists ct. split; [exact eq_refl|lia].
  - destruct Hc as [[_ Hc]|Hc]; [unfold MAX_PLAINTEXT_CODEPOINTS in Hc; lia|discriminate Hc].
  - destruct Hc.
Qed.

Lemma kat_corpora_replay_witness :
  let _ := ToyJson.json in let _ := Toy.crypto in let _ := default_build in
  gate_open ∧ ∃ ct, let vs := replicate 23 (ToyJson.vector ct) in
  v8_positive_encrypt_matches_python [] vs = Ok tt ∧ v8_positive_decrypt_roundtrip vs = Ok tt.
Proof.
  intros J C G. assert gate_open as Hg by reflexivity. split; [exact Hg|].
  pose proof ToyJson.json_laws as L. destruct (sample_encrypts Hg) as (ct & Hct & Hl). exists ct.
  destruct (@kat_corpora_replay J L C G [] (replicate 23 (ToyJson.vector ct)) Hg) as (Hdec & _ & Hwritten).
  assert (v8_positive_encrypt_matches_python [] (replicate 23 (ToyJson.vector ct)) = Ok tt) as Henc.
  { apply (Hwritten (replicate 23 ToyJson.sample_case)); [|reflexivity].
    change (filter (λ v, of_kind "positive" v = true) (replicate 23 (ToyJson.vector ct))) with (replicate 23 (ToyJson.vector ct)).
    apply Forall2_replicate. by apply ToyJson.vector_written. }
  split; [exact Henc|exact (Hdec Henc)].
Defined.

(** [e] is one of the errors a table has for the text expected, if the table has it. *)
Definition names (table : list (string * (error → bool))) (want : option (list Z)) (e : error) : Prop :=
  ∀ text allowed, (text, allowed) ∈ table → want = Some (str text) → allowed e = true.

Lemma discriminates_names possible text table e want :
  discriminates possible text table → possible e = true →
  (∀ w, want = Some w → contains (render (text e)) w = true) → names table want e.
Proof.
  intros Hd Hp Hw t allowed Hin Hwant. unfold discriminates in Hd. rewrite Forall_forall in Hd.
  apply (Hd _ Hin e Hp). by apply Hw.
Qed.

Lemma expect_refusal_Ok {A} (text : error → list Z) (r : outcome error A) want :
  expect_refusal text r want = Ok tt → ∃ e, r = Err e ∧ ∀ w, want = Some w → contains (text e) w = true.
Proof.
  destruct r as [a|e|p]; [done| |done]. cbn. intros H. exists e. split; [done|]. intros w ->. by apply assert_that_Ok in H.
Qed.

(** The vectors a passing test has exercised. *)
Lemma run_vectors_each `{Json} select body n vs :
  n < 2 ^ 64 → run_vectors select body n vs = Ok tt → ∀ v, v ∈ vs → select v = true → body v = Ok tt.
Proof.
  intros Hn Hrun v Hv Hs. apply run_vectors_Ok in Hrun as [_ Hall]; [|done]. rewrite Forall_forall in Hall.
  apply Hall. by apply list_elem_of_filter.
Qed.

Section negatives.
Context `{Json} `{Crypto} `{Gate} (base64_error : list Z).

Lemma v8_negative_vector_Ok v :
  v8_negative_vector base64_error v = Ok tt →
  ∃ c aad sk key e, hex_field "tampered_hex" v = Ok c ∧ hex_field_or_empty "aad_hex" v = Ok aad ∧ v8_sk v = Ok sk ∧
    v8_key v = Ok key ∧ decrypt_bytes_v8 c key sk aad = Err e ∧ names v8_opening_texts (expected_text v) e.
Proof.
  unfold v8_negative_vector. intros (id & _ & Hv)%bind_Ok_inv. apply bind_Ok_inv in Hv as (c & Hc & Hv).
  apply bind_Ok_inv in Hv as (aad & Haad & Hv). apply bind_Ok_inv in Hv as (sk & Hsk & Hv).
  apply bind_Ok_inv in Hv as (key & Hkey & Hv). apply expect_refusal_Ok in Hv as (e & He & Hw).
  exists c, aad, sk, key, e. split_and!; try done.
  apply (discriminates_names v8_opening_error (message base64_error)); [apply v8_opening_discriminates| |exact Hw].
  pose proof (decrypt_bytes_v8_errors c key sk aad) as Hr. by rewrite He in Hr.
Qed.

Lemma v7_negative_vector_Ok v :
  v7_negative_vector base64_error v = Ok tt →
  ∃ key c aad e, v8_key v = Ok key ∧ hex_decode (str_or_empty (index "tampered_hex" v)) = Ok c ∧
    hex_decode (str_or_empty (index "aad_hex" v)) = Ok aad ∧
    decrypt_bytes c key aad = Err e ∧ names v7_opening_texts (expected_text v) e.
Proof.
  unfold v7_negative_vector. intros (id & _ & Hv)%bind_Ok_inv. apply bind_Ok_inv in Hv as (key & Hkey & Hv).
  apply bind_Ok_inv in Hv as (c & Hc & Hv). apply bind_Ok_inv in Hv as (aad & Haad & Hv).
  apply expect_refusal_Ok in Hv as (e & He & Hw). exists key, c, aad, e. split_and!; try done.
  apply (discriminates_names v7_opening_error (v7_message base64_error)); [apply v7_opening_discriminates| |exact Hw].
  pose proof (decrypt_bytes_v7_errors c key aad) as Hr. by rewrite He in Hr.
Qed.

Lemma v8_stream_negative_vector_Ok v :
  v8_stream_negative_vector base64_error v = Ok tt →
  ∃ c aad primes sk e, hex_field "tampered_hex" v = Ok c ∧ hex_field_or_empty "aad_hex" v = Ok aad ∧
    v8_stream_primes v = Ok primes ∧ v8_stream_sk v = Ok sk ∧
    decrypt_stream_ae_v8 c primes sk aad = Err e ∧
    names stream_opening_texts (as_str (index "expected_exception" v)) e.
Proof.
  unfold v8_stream_negative_vector. intros (id & _ & Hv)%bind_Ok_inv. apply bind_Ok_inv in Hv as (c & Hc & Hv).
  apply bind_Ok_inv in Hv as (aad & Haad & Hv). apply bind_Ok_inv in Hv as (want & Hwant & Hv).
  apply bind_Ok_inv in Hv as (primes & Hprimes & Hv). apply bind_Ok_inv in Hv as (sk & Hsk & Hv).
  apply expect_refusal_Ok in Hv as (e & He & Hw). exists c, aad, primes, sk, e. split_and!; try done.
  apply (discriminates_names stream_opening_error (message base64_error)); [apply stream_opening_discriminates| |].
  - pose proof (decrypt_stream_errors c primes sk aad) as Hr. by rewrite He in Hr.
  - intros w Hsome. apply Hw. rewrite Hsome in Hwant. cbn in Hwant. congruence.
Qed.

Lemma v8_encrypt_negative_vector_Ok v p :
  v8_encrypt_negative_vector base64_error v = Ok tt → pad_profile_from_vec v = Ok p →
  ∃ message aad sk key e, as_str (index "message" v) = Some message ∧ hex_field_or_empty "aad_hex" v = Ok aad ∧
    v8_sk v = Ok sk ∧ v8_key v = Ok key ∧
    encrypt_bytes_v8_with_profile message key sk aad p = Err e ∧
    names v8_sealing_texts (as_str (index "expected_exception" v)) e.
Proof.
  unfold v8_encrypt_negative_vector, encrypt_vector. intros (id & _ & Hv)%bind_Ok_inv Hp.
  apply bind_Ok_inv in Hv as (msg & Hm & Hv). apply bind_Ok_inv in Hv as (aad & Haad & Hv).
  apply bind_Ok_inv in Hv as (want & Hwant & Hv). apply bind_Ok_inv in Hv as (sk & Hsk & Hv).
  apply bind_Ok_inv in Hv as (key & Hkey & Hv).
  rewrite Hp, bind_Ok in Hv. pose proof (encrypt_bytes_v8_errors msg key sk aad p) as Hr.
  destruct (encrypt_bytes_v8_with_profile _ _ _ _ _) as [c|e|pc] eqn:He; [done| |done]. cbn [map_err] in Hv.
  exists msg, aad, sk, key, e.
  assert (as_str (index "message" v) = Some msg) as ->.
  { unfold unwrap, expect in Hm. case_match; [congruence|done]. }
  split_and!; try done.
  apply (discriminates_names v8_sealing_error (message base64_error)); [apply v8_sealing_discriminates|exact Hr|].
  intros w Hsome. apply assert_that_Ok in Hv. rewrite Hsome in Hwant. cbn in Hwant. injection Hwant as <-. exact Hv.
Qed.

(** The negative vectors of the v7 corpus that its test does not select. *)
Definition stream_negative (v : Value) : bool := of_kind "negative" v && is_str (index "api" v) "stream_ae".

Lemma v7_unselected v7 v8 stream :
  corpus_sizes_are_pinned v7 v8 stream = Ok tt → legacy_v7_negative_returns_err base64_error v7 = Ok tt →
  length (filter (λ v, stream_negative v = true) v7) = 2%nat.
Proof.
  unfold corpus_sizes_are_pinned. intros ([] & H7 & _)%bind_Ok_inv Hrun.
  apply assert_that_Ok, bool_decide_eq_true_1 in H7. injection H7 as _ _ Hneg.
  apply run_vectors_Ok in Hrun as [Hsel _]; [|done].
  assert (∀ vs, count "negative" vs
    = length (filter (λ v, not_stream "negative" v = true) vs) + length (filter (λ v, stream_negative v = true) vs))%nat as Hsplit.
  { unfold count, not_stream, stream_negative. induction vs as [|v vs IH]; [done|]. rewrite !filter_cons.
    destruct (of_kind "negative" v), (is_str (index "api" v) "stream_ae"); cbn [andb negb];
      repeat case_decide; try done; rewrite !length_cons; lia. }
  rewrite Hsplit in Hneg. unfold V7_NEGATIVE in Hsel. lia.
Qed.

(** The sizes pinned for the corpora leave no vector outside the kinds the tests select. *)
Lemma pinned_kinds v7 v8 stream :
  corpus_sizes_are_pinned v7 v8 stream = Ok tt →
  Forall (λ v, of_kind "positive" v = true ∨ of_kind "negative" v = true ∨ of_kind "encrypt_negative" v = true) v8 ∧
  Forall (λ v, of_kind "positive" v = true ∨ of_kind "negative" v = true) stream.
Proof.
  unfold corpus_sizes_are_pinned. intros ([] & _ & Hp)%bind_Ok_inv. apply bind_Ok_inv in Hp as ([] & H8 & Hs).
  apply assert_that_Ok, bool_decide_eq_true_1 in H8, Hs. injection H8 as Hl8 Hp8 Hn8 He8. injection Hs as Hls Hps Hns.
  assert (∀ a b c vs, str a ≠ str b → str a ≠ str c → str b ≠ str c →
    (length vs ≤ count a vs + count b vs + count c vs)%nat →
    Forall (λ v, of_kind a v = true ∨ of_kind b v = true ∨ of_kind c v = true) vs) as Hcover
    by (intros a b c vs Hab Hac Hbc; by apply kinds_cover).
  split; [by apply Hcover; [..|lia]|].
  pose proof (Hcover "positive"%string "negative"%string "encrypt_negative"%string stream ltac:(done) ltac:(done) ltac:(done) ltac:(lia)) as Hall.
  destruct (kinds_cover "positive" "negative" "encrypt_negative" stream ltac:(done) ltac:(done) ltac:(done)) as [Hle _].
  rewrite Forall_forall in Hall |- *. intros v Hv. destruct (Hall v Hv) as [Hk|[Hk|Hk]]; [by left|by right|].
  exfalso. assert (v ∈ filter (λ v, of_kind "encrypt_negative" v = true) stream) as Hin by (by apply list_elem_of_filter).
  apply list_elem_of_lookup_1 in Hin as [i Hi]. apply lookup_lt_Some in Hi. unfold count in *. lia.
Qed.
End negatives.

(** C29: A passing rejection test means rejection by the check the corpus names. In a v8,
    v7 or streaming corpus on which its test passes, every negative vector the test selects
    is refused, with an error that is the one its expected text stands for: a vector that
    expects the authentication to fail is refused by the tag and not before or after, one
    that expects a padding or token check reaches that check. Inputs that must not be
    encrypted are refused likewise, under the profile the vector asks for, where the harness
    recognises it ([unrecognised_profile_passes] is about the others). The tests of the
    v8 and streaming corpora select all negative vectors, and with the pinned sizes no v8 or
    streaming vector is of another kind than the tests know; but the v7 test leaves out the
    vectors of the streaming interface, and with the pinned sizes there are exactly two of
    these, which no test submits. *)
Theorem kat_negatives_discriminate `{Json} `{Crypto} `{Gate} base64_error vs :
  (v8_negative_returns_err base64_error vs = Ok tt → ∀ v, v ∈ vs → of_kind "negative" v = true →
     ∃ c aad sk key e, hex_field "tampered_hex" v = Ok c ∧ hex_field_or_empty "aad_hex" v = Ok aad ∧ v8_sk v = Ok sk ∧
       v8_key v = Ok key ∧ decrypt_bytes_v8 c key sk aad = Err e ∧ names v8_opening_texts (expected_text v) e) ∧
  (legacy_v7_negative_returns_err base64_error vs = Ok tt → ∀ v, v ∈ vs → not_stream "negative" v = true →
     ∃ key c aad e, v8_key v = Ok key ∧ hex_decode (str_or_empty (index "tampered_hex" v)) = Ok c ∧
       hex_decode (str_or_empty (index "aad_hex" v)) = Ok aad ∧
       decrypt_bytes c key aad = Err e ∧ names v7_opening_texts (expected_text v) e) ∧
  (v8_stream_negative_returns_err base64_error vs = Ok tt → ∀ v, v ∈ vs → of_kind "negative" v = true →
     ∃ c aad primes sk e, hex_field "tampered_hex" v = Ok c ∧ hex_field_or_empty "aad_hex" v = Ok aad ∧
       v8_stream_primes v = Ok primes ∧ v8_stream_sk v = Ok sk ∧
       decrypt_stream_ae_v8 c primes sk aad = Err e ∧
       names stream_opening_texts (as_str (index "expected_exception" v)) e) ∧
  (v8_encrypt_negative_returns_err base64_error vs = Ok tt → ∀ v p, v ∈ vs → of_kind "encrypt_negative" v = true →
     pad_profile_from_vec v = Ok p →
     ∃ message aad sk key e, as_str (index "message" v) = Some message ∧ hex_field_or_empty "aad_hex" v = Ok aad ∧
       v8_sk v = Ok sk ∧ v8_key v = Ok key ∧
       encrypt_bytes_v8_with_profile message key sk aad p = Err e ∧
       names v8_sealing_texts (as_str (index "expected_exception" v)) e) ∧
  (∀ v7 stream, corpus_sizes_are_pinned v7 vs stream = Ok tt →
     Forall (λ v, of_kind "positive" v = true ∨ of_kind "negative" v = true ∨ of_kind "encrypt_negative" v = true) vs ∧
     Forall (λ v, of_kind "positive" v = true ∨ of_kind "negative" v = true) stream) ∧
  (∀ v8 stream, corpus_sizes_are_pinned vs v8 stream = Ok tt → legacy_v7_negative_returns_err base64_error vs = Ok tt →
     length (filter (λ v, of_kind "negative" v && is_str (index "api" v) "stream_ae" = true) vs) = 2%nat).
Proof.
  split_and!.
  - intros Hrun v Hv Hk. apply (v8_negative_vector_Ok base64_error). by eapply (run_vectors_each _ _ V8_NEGATIVE).
  - intros Hrun v Hv Hk. apply (v7_negative_vector_Ok base64_error). by eapply (run_vectors_each _ _ V7_NEGATIVE).
  - intros Hrun v Hv Hk. apply (v8_stream_negative_vector_Ok base64_error). by eapply (run_vectors_each _ _ V8_STREAM_NEGATIVE).
  - intros Hrun v p Hv Hk. apply (v8_encrypt_negative_vector_Ok base64_error). by eapply (run_vectors_each _ _ V8_ENCRYPT_NEGATIVE).
  - intros v7 stream. apply pinned_kinds.
  - intros v8 stream. apply v7_unselected.
Qed.

(** A vector whose [pad_profile] the harness does not recognise passes when the text it
    expects occurs in the harness's own message: nothing was encrypted. *)
Example unrecognised_profile_passes :
  let _ := ToyJson.json in let _ := Toy.crypto in let _ := default_build in
  v8_encrypt_negative_vector [] (ToyJson.bad_profile_vector "unrecognised pad_profile") = Ok tt ∧
  pad_profile_from_vec (ToyJson.bad_profile_vector "unrecognised pad_profile") = Err (str "unrecognised pad_profile value: ") ∧
  is_ok (encrypt_bytes_v8_with_profile [72; 105] sample_key (replicate 32 x07) [] Bucket) = true.
Proof. split_and!; vm_compute; reflexivity. Qed.

(** The test passes on twelve vectors that are too short, and a corpus that expects the tag
    to be what refuses them fails. *)
Example short_vectors_refused :
  let _ := ToyJson.json in let _ := Toy.crypto in let _ := default_build in
  v8_negative_returns_err [] (replicate 12 (ToyJson.short_vector "too short")) = Ok tt ∧
  v8_negative_returns_err [] (replicate 12 (ToyJson.short_vector "Authentication failed")) = Panic PanicAssert ∧
  v8_negative_returns_err [] (replicate 11 (ToyJson.short_vector "too short")) = Panic PanicAssert.
Proof. split_and!; vm_compute; reflexivity. Qed.

(** An odd number of digits is a panic, not an error. *)
Example hex_decode_odd : hex_decode (str "abc") = Panic PanicBounds.
Proof. reflexivity. Qed.

Example corpus_found_above :
  corpus_path (λ p, bool_decide (p = [str "repo"; str "tests"; str "kat"; str "v8_vectors.json"]))
    [str "repo"; str "src"; str "rust"] "v8_vectors.json"
  = Ok [str "repo"; str "tests"; str "kat"; str "v8_vectors.json"].
Proof. reflexivity. Qed.
