(* ===== verification/FrameTests.v ===== *)
(** * Unit tests of the framing layers ([protocols/*.rs], [ot_frame.rs], [kem_exchange.rs])

    The tests inside these files as functions that return or panic, and that they pass
    whatever HMAC-SHA256 computes; where a test needs HMAC to tell two inputs apart, that it can
    only fail when the two, which the ciphertext of the test names, have equal HMACs. *)
From Stdlib Require Import ZArith Lia Strings.Byte Strings.String.
From stdpp Require Import base tactics option numbers gmap list.
From S2P Require Import Prelude Machine Errors Crates Post Primes Keys Derive Padding Tokens BlockV8.
From S2P Require Import StreamV8 Modbus Dnp3 OtFrame KatVectors SelfTest Messages CrossCheck.

#[local] Open Scope Z_scope.
#[local] Open Scope napqes_scope.

(** ** What tests do to their data *)

Definition is_err {E A} (r : outcome E A) : test bool :=
  match r with Ok _ => Ok false | Err _ => Ok true | Panic p => Panic p end.

(** [matches!(r, Err(pattern))]. *)
Definition err_matches {E A} (pattern : E → bool) (r : outcome E A) : test bool :=
  match r with Ok _ => Ok false | Err e => Ok (pattern e) | Panic p => Panic p end.

(** [unwrap_err]. *)
Definition unwrap_err {E A} (r : outcome E A) : test E :=
  match r with Ok _ => Panic PanicExpect | Err e => Ok e | Panic p => Panic p end.

(** [buf[i] = f(buf[i])]. *)
Definition update {A} (i : nat) (f : A → A) (buf : list A) : test (list A) :=
  x ← expect PanicBounds (buf !! i); Ok (<[i := f x]> buf).

(** [buf[i..j].copy_from_slice(data)]. *)
Definition copy_from_slice {A} (i j : nat) (data buf : list A) : test (list A) :=
  _ ← index_range i j buf;
  if bool_decide (length data = (j - i)%nat) then Ok (take i buf ++ data ++ drop j buf) else Panic PanicAssert.

Definition assert (b : test bool) : test unit := b ← b; assert_that b.
Definition assert_eq {A} `{EqDecision A} (a b : A) : test unit := assert_that (bool_decide (a = b)).

(** [b ^= mask]. *)
Definition flip (mask b : byte) : byte := xor_byte b mask.

Lemma update_Ok {A} (f : A → A) a x b : update (length a) f (a ++ x :: b) = Ok (a ++ f x :: b).
Proof.
  unfold update. rewrite lookup_app_r, Nat.sub_diag by lia. cbn [lookup list_lookup expect]. rewrite bind_Ok.
  rewrite insert_app_r_alt, Nat.sub_diag by lia. done.
Qed.

Lemma copy_from_slice_Ok {A} (a old data b : list A) :
  length data = length old →
  copy_from_slice (length a) (length a + length old) data (a ++ old ++ b) = Ok (a ++ data ++ b).
Proof.
  intros Hl. unfold copy_from_slice. bind_ok (apply index_range_Ok; rewrite ?length_app; lia).
  rewrite bool_decide_eq_true_2 by lia. rewrite take_app_length, (app_assoc a old b).
  rewrite drop_app_length' by (rewrite length_app; lia). done.
Qed.

(** ** Modbus *)

Module ModbusTests.
Definition SAMPLE : list byte := [x00; x01; x00; x00; x00; x06; x01; x03; x00; x00; x00; x0a].

Definition modbus_roundtrip : test unit :=
  r ← unwrap_ok (extract_pdu SAMPLE);
  let '(hdr, pdu) := r in
  _ ← assert_eq (unit_id hdr) 1;
  _ ← assert_eq (transaction_id hdr) 1;
  b0 ← expect PanicBounds (pdu !! 0%nat);
  _ ← assert_eq b0 x01;
  b1 ← expect PanicBounds (pdu !! 1%nat);
  _ ← assert_eq b1 x03;
  assert_eq (Modbus.reconstruct hdr pdu) SAMPLE.

Definition bad_protocol_id_rejected : test unit :=
  bad ← update 2 (λ _, x00) SAMPLE;
  bad ← update 3 (λ _, x01) bad;
  assert (err_matches (λ e, match e with BadProtocolId 1 => true | _ => false end) (extract_pdu bad)).

Definition truncated_frame_rejected : test unit :=
  short ← index_range 0 4 SAMPLE;
  assert (err_matches (λ e, match e with TooShort _ _ => true | _ => false end) (extract_pdu short)).

Definition tests : list (test unit) := [modbus_roundtrip; bad_protocol_id_rejected; truncated_frame_rejected].
End ModbusTests.

(** ** DNP3 *)

Module Dnp3Tests.
(** [src], [dst]: 16-bit. *)
Definition build_frame (src dst : Z) (payload : list byte) : test (list byte) :=
  l ← 5 +64 Z.of_nat (length payload);
  l ← l +64 2;
  let header_body := byte_of_Z l :: xc4 :: to_le_bytes 2 dst ++ to_le_bytes 2 src in
  let crc_hdr := crc16_dnp header_body in
  let block_crc := crc16_dnp payload in
  Ok (DNP3_START_BYTES ++ header_body ++ to_le_bytes 2 crc_hdr ++ payload ++ to_le_bytes 2 block_crc).

Definition dnp3_roundtrip : test unit :=
  frame ← build_frame 0x0003 0x0001 [xc0; x81; x00; x00];
  r ← unwrap_ok (extract_payload frame);
  let '(hdr, payload) := r in
  _ ← assert_eq (source hdr) 0x0003;
  _ ← assert_eq (destination hdr) 0x0001;
  assert_eq (Dnp3.reconstruct hdr payload) frame.

Definition bad_start_bytes_rejected : test unit :=
  frame ← build_frame 1 2 [x00; x00];
  bad ← update 0 (λ _, xff) frame;
  assert (err_matches (λ e, match e with BadStartBytes _ => true | _ => false end) (extract_payload bad)).

Definition header_crc_mismatch_rejected : test unit :=
  frame ← build_frame 1 2 [x00; x00];
  bad ← update 4 (flip x01) frame;
  assert (err_matches (λ e, match e with HeaderCrcMismatch _ _ => true | _ => false end) (extract_payload bad)).

Definition crc16_dnp_known_value : test unit :=
  frame ← build_frame 0x0003 0x0001 [x00; x00; x00; x00];
  r ← unwrap_ok (extract_payload frame);
  let '(hdr, _) := r in
  let recomputed := crc16_dnp (byte_of_Z (dnp_length hdr) :: byte_of_Z (control hdr)
                               :: to_le_bytes 2 (destination hdr) ++ to_le_bytes 2 (source hdr)) in
  assert_eq recomputed (crc_header hdr).

Definition tests : list (test unit) :=
  [dnp3_roundtrip; bad_start_bytes_rejected; header_crc_mismatch_rejected; crc16_dnp_known_value].
End Dnp3Tests.

(** The tests of the two protocols pass. *)
Lemma protocol_tests_pass : Forall (λ t, t = Ok tt) (ModbusTests.tests ++ Dnp3Tests.tests).
Proof. apply Forall_forall. intros t Ht. repeat (apply elem_of_cons in Ht as [->|Ht]; [vm_compute; reflexivity|]). by apply elem_of_nil in Ht. Qed.

(** ** Envelopes *)

(** [String::from(text)] of a JSON text: [#] stands for the quotation mark. *)
Definition json_text (s : string) : list Z := (λ c, if c =? 35 then 34 else c) <$> str s.

Definition is_auth_failed (e : FrameError) : bool :=
  match e with FrameAuthenticationFailed _ _ _ => true | _ => false end.
Definition is_replay (e : FrameError) : bool :=
  match e with ReplayDetected _ _ _ _ => true | _ => false end.

Module OtTests.
Definition test_primes : list Z :=
  [1000003; 1000033; 1000037; 1000039; 1000081; 1000099; 1000117; 1000121; 1000133; 1000151].
Definition other_primes : list Z :=
  [1000159; 1000171; 1000183; 1000187; 1000193; 1000199; 1000211; 1000213; 1000231; 1000249].

Definition test_key : test NapqesKey := unwrap_ok (NapqesKey_new test_primes (replicate SK_SIZE x11)).
Definition make_aad (p : ProtocolId) (d sq : Z) : OtAad := MkOtAad p d sq.

(** A Modbus read-holding-registers request. *)
Definition request : list byte := [x01; x03; x00; x00; x00; x0a].

Section envelopes.
Context `{Crypto} `{Gate}.

Definition wrap_unwrap (pdu : list byte) (aad : OtAad) : test unit :=
  key ← test_key;
  let counters := SequenceCounter_new in
  envelope ← unwrap_ok (wrap_pdu pdu aad key);
  recovered ← unwrap_ok (unwrap_pdu envelope key counters).1;
  assert_eq recovered pdu.

Definition wrap_unwrap_modbus_roundtrip : test unit := wrap_unwrap request (make_aad ModbusTcp 1 1).
Definition wrap_unwrap_dnp3_roundtrip : test unit :=
  wrap_unwrap [x05; x64; x05; xc4; x01; x00; x03; x00; xf9; x53] (make_aad OtFrame.Dnp3 3 1).

Definition replay_rejected : test unit :=
  key ← test_key;
  let counters := SequenceCounter_new in
  env1 ← unwrap_ok (wrap_pdu request (make_aad ModbusTcp 1 1) key);
  env2 ← unwrap_ok (wrap_pdu request (make_aad ModbusTcp 1 2) key);
  let '(r, counters) := unwrap_pdu env2 key counters in
  _ ← unwrap_ok r;
  let '(result, counters) := unwrap_pdu env1 key counters in
  assert (err_matches is_replay result).

Definition forged_high_seq_does_not_advance_replay_window : test unit :=
  key ← test_key;
  let counters := SequenceCounter_new in
  genuine ← unwrap_ok (wrap_pdu request (make_aad ModbusTcp 1 1) key);
  forged ← copy_from_slice 11 19 (to_be_bytes 8 (2 ^ 64 - 1)) genuine;
  let '(result, counters) := unwrap_pdu forged key counters in
  _ ← assert (err_matches is_auth_failed result);
  let '(r, counters) := unwrap_pdu genuine key counters in
  pdu ← unwrap_ok r;
  assert_eq pdu request.

Definition tampered_napqes_blob_rejected : test unit :=
  key ← test_key;
  let counters := SequenceCounter_new in
  envelope ← unwrap_ok (wrap_pdu request (make_aad ModbusTcp 1 1) key);
  envelope ← update ENVELOPE_HEADER_SIZE (flip x01) envelope;
  assert (err_matches is_auth_failed (unwrap_pdu envelope key counters).1).

Definition wrong_key_rejected : test unit :=
  key1 ← test_key;
  key2 ← unwrap_ok (NapqesKey_new other_primes (replicate SK_SIZE x22));
  let counters := SequenceCounter_new in
  envelope ← unwrap_ok (wrap_pdu request (make_aad ModbusTcp 1 1) key1);
  assert (err_matches is_auth_failed (unwrap_pdu envelope key2 counters).1).

Definition aad_device_id_mismatch_rejected : test unit :=
  key ← test_key;
  let counters := SequenceCounter_new in
  envelope ← unwrap_ok (wrap_pdu request (make_aad ModbusTcp 1 1) key);
  envelope ← copy_from_slice 3 11 (to_be_bytes 8 2) envelope;
  assert (err_matches is_auth_failed (unwrap_pdu envelope key counters).1).

Definition all_byte_values_roundtrip_through_v8 : test unit :=
  key ← test_key;
  let counters := SequenceCounter_new in
  let pdu := byte_of_Z <$> seqZ 0 256 in
  let aad := make_aad ModbusTcp 9 1 in
  let aad_bytes := to_bytes aad in
  envelope ← unwrap_ok (wrap_pdu pdu aad key);
  blob ← index_range ENVELOPE_HEADER_SIZE (length envelope) envelope;
  refused ← is_err (decrypt_bytes_v8_key blob key aad_bytes);
  _ ← assert_that (negb refused);
  recovered ← unwrap_ok (unwrap_pdu envelope key counters).1;
  assert_eq recovered pdu.
End envelopes.

(** [serde_json::from_str] of the file, [None] where it fails. *)
Section key_file.
Context (from_str : list Z → option (list FileKeyEntry)).

(** [None]: the text is not JSON of the expected shape. *)
Definition load_from_text (text : list Z) : outcome (option key_store_error) FileKeyStore :=
  raw ← opt_or (from_str text) None;
  map_err Some (load_from_entries raw).

Definition key_file : list Z :=
  json_text "{#1#:{#primes#:[1000003,1000033,1000037,1000039,1000081,1000099,1000117,1000121,1000133,1000151],#sk_hex#:#"
  ++ concat (replicate SK_SIZE (str "ab")) ++ json_text "#}}".
Definition bad_key_file : list Z := json_text "{#1#:{#primes#:[4],#sk_hex#:#00#}}".

Definition file_key_store_roundtrip : test unit :=
  ks ← unwrap_ok (load_from_text key_file);
  key ← unwrap_ok (load ks 1);
  p ← expect PanicBounds (primes key !! 0%nat);
  _ ← assert_eq p 1000003;
  _ ← assert_eq (sk key) (replicate SK_SIZE xab);
  assert (is_err (load_from_text bad_key_file)).

(** What these two texts denote. *)
Definition reads_key_files : Prop :=
  from_str key_file = Some [MkEntry (str "1") test_primes (concat (replicate SK_SIZE (str "ab")))] ∧
  from_str bad_key_file = Some [MkEntry (str "1") [4] (str "00")].
End key_file.
End OtTests.

(** ** The session key store *)

Module SessionTests.
Definition test_key (primes : list Z) : test NapqesKey := unwrap_ok (NapqesKey_new primes (replicate SK_SIZE x5a)).

(** A shared key is its contents here, so [Arc::ptr_eq] is equality. *)
Definition session_key_store_wildcard : test unit :=
  let store := SessionKeyStore_new in
  _ ← assert_that (negb (is_ready store));
  key ← test_key [1000003; 1000033];
  let store := session_insert WILDCARD_DEVICE_ID key store in
  _ ← assert_that (is_ready store);
  k1 ← unwrap_ok (load store 1);
  k2 ← unwrap_ok (load store 42);
  _ ← assert_that (bool_decide (primes k1 = primes k2) && bool_decide (sk k1 = sk k2));
  p ← expect PanicBounds (primes k1 !! 0%nat);
  assert_eq p 1000003.

Definition session_key_store_per_device_overrides_wildcard : test unit :=
  let store := SessionKeyStore_new in
  key ← test_key [1000003];
  let store := session_insert WILDCARD_DEVICE_ID key store in
  key ← test_key [1000033];
  let store := session_insert 7 key store in
  k ← unwrap_ok (load store 7);
  p ← expect PanicBounds (primes k !! 0%nat);
  _ ← assert_eq p 1000033;
  k ← unwrap_ok (load store 1);
  p ← expect PanicBounds (primes k !! 0%nat);
  assert_eq p 1000003.
End SessionTests.

Lemma session_tests_pass :
  SessionTests.session_key_store_wildcard = Ok tt ∧
  SessionTests.session_key_store_per_device_overrides_wildcard = Ok tt.
Proof. split; vm_compute; reflexivity. Qed.

Lemma key_file_test_passes from_str :
  OtTests.reads_key_files from_str → OtTests.file_key_store_roundtrip from_str = Ok tt.
Proof.
  intros [H1 H2]. unfold OtTests.file_key_store_roundtrip, OtTests.load_from_text. rewrite H1, H2.
  vm_compute. reflexivity.
Qed.

(** ** The envelope tests *)

Section envelope_tests.
Context `{Crypto} `{Gate} (Hgate : gate_open).

(** A short PDU is sealed, and the envelope opens to it. *)
Lemma wrap_short key pdu aad : valid_key (primes key) → Z.of_nat (length pdu) < 2 ^ 16 →
  ∃ blob, wrap_pdu pdu aad key = Ok (envelope (protocol_u8 (protocol aad)) (to_be_bytes 8 (device_id aad))
      (to_be_bytes 8 (seq aad)) (to_be_bytes 4 (Z.of_nat (length blob))) blob) ∧
    decrypt_bytes_v8_key blob key (to_bytes aad) = Ok (byte_to_Z <$> pdu) ∧ Z.of_nat (length blob) < 2 ^ 32.
Proof using Hgate.
  intros Hkey Hl. pose proof (wrap_pdu_cases key pdu aad Hgate Hkey) as Hw.
  destruct (wrap_pdu pdu aad key) as [env|e|p]; [|lia|done].
  destruct Hw as (blob & Hd & Hb & ->). by exists blob.
Qed.

(** What a receiver does with an envelope whose fields are as sent. *)
Lemma unwrap_sealed key pdu p d sq blob s : fits 64 d → fits 64 sq → Z.of_nat (length blob) < 2 ^ 32 →
  decrypt_bytes_v8_key blob key (to_bytes (MkOtAad p d sq)) = Ok (byte_to_Z <$> pdu) →
  unwrap_pdu (envelope (protocol_u8 p) (to_be_bytes 8 d) (to_be_bytes 8 sq) (to_be_bytes 4 (Z.of_nat (length blob))) blob) key s
  = (let '(r, s') := validate_recv p d sq s in (_ ← r; Ok pdu, s')).
Proof using Type.
  intros Hd Hs Hl Hdec. unfold unwrap_pdu. rewrite <-(app_nil_r blob) at 2.
  rewrite open_envelope_eq; [|apply length_to_be_bytes..|apply from_to_be_bytes; lia].
  cbv zeta. rewrite !from_to_be_bytes by done. rewrite Hdec. cbn [map_err].
  by rewrite bind_Ok, collect_latin1, bind_Ok.
Qed.

(** An envelope whose blob does not open is refused as forged, and leaves the counters. *)
Lemma unwrap_refused key p d sq blob s : fits 64 d → fits 64 sq → Z.of_nat (length blob) < 2 ^ 32 →
  valid_key (primes key) → (∀ m, decrypt_bytes_v8_key blob key (to_bytes (MkOtAad p d sq)) ≠ Ok m) →
  unwrap_pdu (envelope (protocol_u8 p) (to_be_bytes 8 d) (to_be_bytes 8 sq) (to_be_bytes 4 (Z.of_nat (length blob))) blob) key s
  = (Err (FrameAuthenticationFailed d p sq), s).
Proof using Hgate.
  intros Hd Hs Hl Hkey Hdec. unfold unwrap_pdu. rewrite <-(app_nil_r blob) at 2.
  rewrite open_envelope_eq; [|apply length_to_be_bytes..|apply from_to_be_bytes; lia].
  cbv zeta. rewrite !from_to_be_bytes by done. unfold decrypt_bytes_v8_key in *. rewrite Hgate, bind_Ok in Hdec |- *.
  pose proof (decrypt_core_layout (primes key) (valid_key_arith _ Hkey) (sk key) (to_bytes (MkOtAad p d sq)) blob ltac:(lia)) as Hc.
  cbv zeta in Hc. destruct (decrypt_bytes_v8_core _ _ _ _) as [m|e|]; [by destruct (Hdec m)|done|done].
Qed.

(** A blob is a payload and a tag, and the tag binds it to its associated data. *)
Lemma blob_opened key blob aad m : valid_key (primes key) → Z.of_nat (length blob) < 2 ^ 32 →
  decrypt_bytes_v8_key blob key aad = Ok m →
  ∃ payload tag, blob = payload ++ tag ∧ length tag = TAG_SIZE ∧ (16 ≤ length payload)%nat ∧
    decrypt_bytes_v8_core (payload ++ tag) (primes key) (sk key) aad = Ok m.
Proof using Hgate.
  intros Hkey Hl Hdec. unfold decrypt_bytes_v8_key in Hdec. rewrite Hgate, bind_Ok in Hdec.
  assert (48 ≤ length blob)%nat as H48.
  { unfold decrypt_bytes_v8_core, NONCE_SIZE, TAG_SIZE in Hdec. case_if_in Hdec; [done|lia]. }
  destruct (block_layout blob H48) as (n & b & t & -> & Hn & Ht & _).
  exists (n ++ b), t. split_and!; [done|done|rewrite length_app; lia|done].
Qed.

(** An opened blob opened again with other bytes before the tag, or another context. *)
Lemma opened_otherwise key payload payload' tag aad aad' m : valid_key (primes key) →
  Z.of_nat (length (payload ++ tag)) < 2 ^ 32 → length payload' = length payload → length tag = TAG_SIZE →
  fits 64 (Z.of_nat (length aad)) → fits 64 (Z.of_nat (length aad')) → (payload', aad') ≠ (payload, aad) →
  decrypt_bytes_v8_core (payload ++ tag) (primes key) (sk key) aad = Ok m →
  (∀ m', decrypt_bytes_v8_key (payload' ++ tag) key aad' ≠ Ok m') ∨
  collides (derive_format_subkey (sk key) FORMAT_BLOCK_V8) (block_covered (payload ++ tag) aad) (block_covered (payload' ++ tag) aad').
Proof using Hgate.
  intros Hkey Hl Hl' Ht Ha Ha' Hne Hdec. unfold decrypt_bytes_v8_key. rewrite Hgate, bind_Ok.
  destruct (decrypt_bytes_v8_core (payload' ++ tag) (primes key) (sk key) aad') as [m'|e|] eqn:Hd; [|by left..].
  right. rewrite length_app in Hl. assert (Z.of_nat (length (payload' ++ tag)) < 2 ^ 32) by (rewrite length_app; lia).
  apply (decrypt_core_collision (primes key) (sk key) payload payload' aad aad' tag m m');
    rewrite ?length_app; try done; try lia. by apply valid_key_arith.
Qed.
End envelope_tests.

(** ** What the envelope tests decide *)

Section envelope_results.
Context `{Crypto} `{Gate} (Hgate : gate_open).
Import OtTests.

Definition the_key : NapqesKey := MkNapqesKey test_primes (replicate SK_SIZE x11).
Definition the_other_key : NapqesKey := MkNapqesKey other_primes (replicate SK_SIZE x22).

Lemma test_key_eq : test_key = Ok the_key.
Proof using Type. vm_compute. reflexivity. Qed.
Lemma other_key_eq : unwrap_ok (NapqesKey_new other_primes (replicate SK_SIZE x22)) = Ok the_other_key.
Proof using Type. vm_compute. reflexivity. Qed.

Lemma the_key_valid : valid_key (primes the_key).
Proof using Type. apply validated_key; [repeat constructor; unfold fits; lia|vm_compute; reflexivity]. Qed.
Lemma the_other_key_valid : valid_key (primes the_other_key).
Proof using Type. apply validated_key; [repeat constructor; unfold fits; lia|vm_compute; reflexivity]. Qed.

(** Wrapping and unwrapping with fresh counters. *)
Lemma wrap_unwrap_passes pdu aad : Z.of_nat (length pdu) < 2 ^ 16 → fits 64 (device_id aad) → fits 64 (seq aad) →
  0 < seq aad → wrap_unwrap pdu aad = Ok tt.
Proof using Hgate.
  intros Hl Hd Hs Hpos. unfold wrap_unwrap. rewrite test_key_eq, bind_Ok. cbv zeta.
  destruct (wrap_short Hgate the_key pdu aad the_key_valid Hl) as (blob & -> & Hdec & Hb).
  cbn [unwrap_ok]. rewrite bind_Ok. destruct aad as [p d sq]. cbn [protocol device_id seq] in *.
  rewrite (unwrap_sealed the_key pdu) by done. unfold validate_recv, or_insert, SequenceCounter_new. cbn [recv_state send_state].
  rewrite lookup_empty. rewrite (proj2 (Z.leb_gt _ _)) by lia. cbn [fst]. rewrite bind_Ok.
  cbn [unwrap_ok]. rewrite bind_Ok. unfold assert_eq. by rewrite bool_decide_eq_true_2.
Qed.

Lemma replay_test_passes : replay_rejected = Ok tt.
Proof using Hgate.
  unfold replay_rejected. rewrite test_key_eq, bind_Ok. cbv zeta.
  destruct (wrap_short Hgate the_key request (make_aad ModbusTcp 1 1) the_key_valid ltac:(done)) as (b1 & -> & Hd1 & Hb1).
  cbn [unwrap_ok]. rewrite bind_Ok.
  destruct (wrap_short Hgate the_key request (make_aad ModbusTcp 1 2) the_key_valid ltac:(done)) as (b2 & -> & Hd2 & Hb2).
  cbn [unwrap_ok]. rewrite bind_Ok. unfold make_aad in *. cbn [protocol device_id seq] in *.
  rewrite (unwrap_sealed the_key request) by done.
  change (validate_recv ModbusTcp 1 2 SequenceCounter_new) with (Ok (E:=FrameError) tt, MkCounter ∅ {[ (ModbusTcp, 1) := 2 ]}).
  cbn [unwrap_ok]. rewrite !bind_Ok. cbn [unwrap_ok]. rewrite bind_Ok.
  by rewrite (unwrap_sealed the_key request) by done.
Qed.

Lemma all_bytes_test_passes : all_byte_values_roundtrip_through_v8 = Ok tt.
Proof using Hgate.
  unfold all_byte_values_roundtrip_through_v8. rewrite test_key_eq, bind_Ok. cbv zeta.
  set (pdu := byte_of_Z <$> seqZ 0 256). set (aad := make_aad ModbusTcp 9 1).
  destruct (wrap_short Hgate the_key pdu aad the_key_valid ltac:(done)) as (blob & -> & Hd & Hb).
  cbn [unwrap_ok]. rewrite bind_Ok. set (env := envelope _ _ _ _ _).
  destruct (envelope_slices (protocol_u8 (protocol aad)) (to_be_bytes 8 (device_id aad)) (to_be_bytes 8 (seq aad))
    (to_be_bytes 4 (Z.of_nat (length blob))) blob) as (Hlen & _ & _ & _ & _ & _ & Hdrop);
    [apply length_to_be_bytes..|]. fold env in Hlen, Hdrop.
  bind_ok (apply index_range_Ok; unfold ENVELOPE_HEADER_SIZE; lia). unfold slice, ENVELOPE_HEADER_SIZE.
  rewrite Hdrop, firstn_all2, Hd by lia. cbn [is_err]. rewrite bind_Ok. cbn [negb assert_that]. rewrite bind_Ok.
  unfold env. rewrite (unwrap_sealed the_key pdu) by done.
  change (validate_recv (protocol aad) (device_id aad) (seq aad) SequenceCounter_new)
    with (Ok (E:=FrameError) tt, MkCounter ∅ {[ (ModbusTcp, 9) := 1 ]}).
  cbn [fst]. rewrite bind_Ok. cbn [unwrap_ok]. rewrite bind_Ok. unfold assert_eq. by rewrite bool_decide_eq_true_2.
Qed.

(** A changed header field. *)
Lemma header_rewritten blob p d sq d' sq' m s : (d, sq) ≠ (d', sq') → fits 64 d → fits 64 sq → fits 64 d' → fits 64 sq' →
  Z.of_nat (length blob) < 2 ^ 32 →
  decrypt_bytes_v8_key blob the_key (to_bytes (MkOtAad p d sq)) = Ok m →
  unwrap_pdu (envelope (protocol_u8 p) (to_be_bytes 8 d') (to_be_bytes 8 sq') (to_be_bytes 4 (Z.of_nat (length blob))) blob) the_key s
    = (Err (FrameAuthenticationFailed d' p sq'), s) ∨
  collides (derive_format_subkey (sk the_key) FORMAT_BLOCK_V8)
    (block_covered blob (to_bytes (MkOtAad p d sq))) (block_covered blob (to_bytes (MkOtAad p d' sq'))).
Proof using Hgate.
  intros Hne Hd Hs Hd' Hs' Hl Hdec.
  destruct (blob_opened Hgate the_key blob _ m the_key_valid Hl Hdec) as (payload & tag & -> & Ht & _ & Hcore).
  assert (∀ d sq, fits 64 (Z.of_nat (length (to_bytes (MkOtAad p d sq))))) as Hf.
  { intros. unfold to_bytes. rewrite length_cons, length_app, !length_to_be_bytes. unfold fits. lia. }
  destruct (opened_otherwise Hgate the_key payload payload tag _ (to_bytes (MkOtAad p d' sq')) m the_key_valid Hl
    eq_refl Ht (Hf d sq) (Hf d' sq')) as [Hr|Hc]; [|done| |by right].
  - intros Heq. apply (f_equal snd) in Heq. apply to_bytes_inj in Heq; [|done..]. by simplify_eq.
  - left. by apply unwrap_refused; [done..|apply the_key_valid|].
Qed.

(** Rewriting the fields of an envelope. *)
Section fields.
Context (v : byte) (dv sv lv data rest : list byte).
Context (Hd : length dv = 8%nat) (Hs : length sv = 8%nat) (Hl : length lv = 4%nat) (Hdata : length data = 8%nat).

Lemma rewrite_device : copy_from_slice 3 11 data (envelope v dv sv lv rest) = Ok (envelope v data sv lv rest).
Proof using Hd Hdata.
  pose proof (copy_from_slice_Ok (ENVELOPE_MAGIC ++ [v]) dv data (sv ++ lv ++ rest)) as Hc.
  rewrite Hd in Hc. apply Hc. congruence.
Qed.

Lemma rewrite_number : copy_from_slice 11 19 data (envelope v dv sv lv rest) = Ok (envelope v dv data lv rest).
Proof using Hd Hs Hdata.
  pose proof (copy_from_slice_Ok (ENVELOPE_MAGIC ++ [v] ++ dv) sv data (lv ++ rest)) as Hc.
  rewrite !length_app, Hd, Hs, <-!app_assoc in Hc. apply Hc. congruence.
Qed.

Lemma flip_blob b f : update ENVELOPE_HEADER_SIZE f (envelope v dv sv lv (b :: rest)) = Ok (envelope v dv sv lv (f b :: rest)).
Proof using Hd Hs Hl.
  pose proof (update_Ok f (ENVELOPE_MAGIC ++ [v] ++ dv ++ sv ++ lv) b rest) as Hu.
  rewrite !length_app, Hd, Hs, Hl, <-!app_assoc in Hu. exact Hu.
Qed.
End fields.

(** What the tag of a request sealed for device [d] under number [sq] covers. *)
Definition request_covered (blob : list byte) (d sq : Z) : list byte :=
  block_covered blob (to_bytes (make_aad ModbusTcp d sq)).

(** The envelope the tests alter, and its blob. *)
Section request.
Context (blob : list byte) (Hb : Z.of_nat (length blob) < 2 ^ 32).
Context (Hwrap : wrap_pdu request (make_aad ModbusTcp 1 1) the_key
  = Ok (envelope (protocol_u8 ModbusTcp) (to_be_bytes 8 1) (to_be_bytes 8 1) (to_be_bytes 4 (Z.of_nat (length blob))) blob)).
Context (Hd : decrypt_bytes_v8_key blob the_key (to_bytes (make_aad ModbusTcp 1 1)) = Ok (byte_to_Z <$> request)).
#[local] Abbreviation sk_fmt := (derive_format_subkey (sk the_key) FORMAT_BLOCK_V8).

Lemma forged_seq_test_result :
  forged_high_seq_does_not_advance_replay_window = Ok tt ∨
  collides sk_fmt (request_covered blob 1 1) (request_covered blob 1 (2 ^ 64 - 1)).
Proof using Hgate Hb Hwrap Hd.
  unfold forged_high_seq_does_not_advance_replay_window. rewrite test_key_eq, bind_Ok. cbv zeta.
  rewrite Hwrap.
  cbn [unwrap_ok]. rewrite bind_Ok. unfold request_covered, make_aad in *.
  rewrite rewrite_number, bind_Ok by apply length_to_be_bytes.
  destruct (header_rewritten blob ModbusTcp 1 1 1 (2 ^ 64 - 1) _ SequenceCounter_new ltac:(done) ltac:(done) ltac:(done)
    ltac:(done) ltac:(done) Hb Hd) as [Hr|Hc]; [left|by right].
  rewrite Hr. unfold assert at 1. cbn [err_matches is_auth_failed]. rewrite bind_Ok. cbn [assert_that]. rewrite bind_Ok.
  rewrite (unwrap_sealed the_key request) by done.
  change (validate_recv ModbusTcp 1 1 SequenceCounter_new) with (Ok (E:=FrameError) tt, MkCounter ∅ {[ (ModbusTcp, 1) := 1 ]}).
  reflexivity.
Qed.

Lemma device_mismatch_test_result :
  aad_device_id_mismatch_rejected = Ok tt ∨
  collides sk_fmt (request_covered blob 1 1) (request_covered blob 2 1).
Proof using Hgate Hb Hwrap Hd.
  unfold aad_device_id_mismatch_rejected. rewrite test_key_eq, bind_Ok. cbv zeta.
  rewrite Hwrap.
  cbn [unwrap_ok]. rewrite bind_Ok. unfold request_covered, make_aad in *.
  rewrite rewrite_device, bind_Ok by apply length_to_be_bytes.
  destruct (header_rewritten blob ModbusTcp 1 1 2 1 _ SequenceCounter_new ltac:(done) ltac:(done) ltac:(done)
    ltac:(done) ltac:(done) Hb Hd) as [Hr|Hc]; [left|by right].
  by rewrite Hr.
Qed.

Lemma flip_changes b : flip x01 b ≠ b.
Proof using Type. by destruct b. Qed.

Lemma tampered_blob_test_result :
  tampered_napqes_blob_rejected = Ok tt ∨
  collides sk_fmt (request_covered blob 1 1) (request_covered (alter (flip x01) 0%nat blob) 1 1).
Proof using Hgate Hb Hwrap Hd.
  unfold tampered_napqes_blob_rejected. rewrite test_key_eq, bind_Ok. cbv zeta.
  rewrite Hwrap.
  cbn [unwrap_ok]. rewrite bind_Ok. unfold request_covered, make_aad in *.
  destruct (blob_opened Hgate the_key blob _ _ the_key_valid Hb Hd) as (payload & tag & Heq & Ht & Hp & Hcore).
  clear Hwrap. subst blob. destruct payload as [|b payload]; [by simpl in Hp; lia|]. cbn [app] in *.
  rewrite flip_blob, bind_Ok by apply length_to_be_bytes.
  destruct (opened_otherwise Hgate the_key (b :: payload) (flip x01 b :: payload) tag (to_bytes (MkOtAad ModbusTcp 1 1))
    (to_bytes (MkOtAad ModbusTcp 1 1)) (byte_to_Z <$> request) the_key_valid Hb eq_refl Ht ltac:(done) ltac:(done)) as [Hr|Hc];
    [|exact Hcore| |by right].
  - intros Heq. apply (f_equal fst) in Heq. cbn [fst] in Heq. apply (f_equal (hd x00)) in Heq. by apply (flip_changes b).
  - left. rewrite (unwrap_refused Hgate the_key ModbusTcp 1 1 (flip x01 b :: payload ++ tag)) by (done || apply the_key_valid).
    done.
Qed.

(** Under another key: the tags of the two keys agree on what the blob's tag covers. *)
Lemma wrong_key_test_result :
  wrong_key_rejected = Ok tt ∨
  hmac_digest sk_fmt (request_covered blob 1 1)
  = hmac_digest (derive_format_subkey (sk the_other_key) FORMAT_BLOCK_V8) (request_covered blob 1 1).
Proof using Hgate Hb Hwrap Hd.
  unfold wrong_key_rejected. rewrite test_key_eq, other_key_eq, !bind_Ok. cbv zeta.
  rewrite Hwrap.
  cbn [unwrap_ok]. rewrite bind_Ok. unfold request_covered, make_aad in *.
  destruct (blob_opened Hgate the_key blob _ _ the_key_valid Hb Hd) as (payload & tag & Heq & Ht & Hp & Hcore).
  clear Hwrap. subst blob.
  destruct (decrypt_bytes_v8_core (payload ++ tag) (primes the_other_key) (sk the_other_key) (to_bytes (MkOtAad ModbusTcp 1 1)))
    as [m|e|p] eqn:Ho; [right|left..].
  - destruct (decrypt_core_covered _ _ _ (valid_key_arith _ the_key_valid) payload tag _ Ht ltac:(lia) Hcore) as [_ <-].
    by destruct (decrypt_core_covered _ _ _ (valid_key_arith _ the_other_key_valid) payload tag m Ht ltac:(lia) Ho) as [_ <-].
  - rewrite (unwrap_refused Hgate the_other_key); try done; [apply the_other_key_valid|].
    intros m. unfold decrypt_bytes_v8_key. by rewrite Hgate, bind_Ok, Ho.
  - rewrite (unwrap_refused Hgate the_other_key); try done; [apply the_other_key_valid|].
    intros m. unfold decrypt_bytes_v8_key. by rewrite Hgate, bind_Ok, Ho.
Qed.
End request.
End envelope_results.

(** The tests of the framing layers: with the gate open, and a JSON library that reads the two
    key files, those of the protocols, the key stores, the round trips, the replay test and
    the one over all byte values pass whatever HMAC computes. Those that alter the envelope of
    the request pass unless HMAC gives what its tag covers and what the altered envelope's tag
    must cover the same value, and the one with another key unless the two keys give what the
    tag covers the same value. *)
Theorem framing_tests_pass `{Crypto} `{Gate} from_str :
  gate_open → OtTests.reads_key_files from_str →
  Forall (λ t, t = Ok tt)
    (ModbusTests.tests ++ Dnp3Tests.tests ++
     [SessionTests.session_key_store_wildcard; SessionTests.session_key_store_per_device_overrides_wildcard;
      OtTests.wrap_unwrap_modbus_roundtrip; OtTests.wrap_unwrap_dnp3_roundtrip; OtTests.replay_rejected;
      OtTests.all_byte_values_roundtrip_through_v8; OtTests.file_key_store_roundtrip from_str]) ∧
  ∃ env, wrap_pdu OtTests.request (OtTests.make_aad ModbusTcp 1 1) the_key = Ok env ∧
    let blob := drop ENVELOPE_HEADER_SIZE env in
    let sk_fmt := derive_format_subkey (sk the_key) FORMAT_BLOCK_V8 in
    let other := derive_format_subkey (sk the_other_key) FORMAT_BLOCK_V8 in
    (OtTests.forged_high_seq_does_not_advance_replay_window = Ok tt ∨
     collides sk_fmt (request_covered blob 1 1) (request_covered blob 1 (2 ^ 64 - 1))) ∧
    (OtTests.tampered_napqes_blob_rejected = Ok tt ∨
     collides sk_fmt (request_covered blob 1 1) (request_covered (alter (flip x01) 0%nat blob) 1 1)) ∧
    (OtTests.aad_device_id_mismatch_rejected = Ok tt ∨
     collides sk_fmt (request_covered blob 1 1) (request_covered blob 2 1)) ∧
    (OtTests.wrong_key_rejected = Ok tt ∨
     hmac_digest sk_fmt (request_covered blob 1 1) = hmac_digest other (request_covered blob 1 1)).
Proof.
  intros Hg Hf. split.
  - rewrite app_assoc. apply Forall_app. split; [apply protocol_tests_pass|].
    repeat apply Forall_cons_2; [apply session_tests_pass..| | | | | |constructor].
    + by apply wrap_unwrap_passes.
    + by apply wrap_unwrap_passes.
    + by apply replay_test_passes.
    + by apply all_bytes_test_passes.
    + by apply key_file_test_passes.
  - destruct (wrap_short Hg the_key OtTests.request (OtTests.make_aad ModbusTcp 1 1) the_key_valid ltac:(done))
      as (blob & Hw & Hd & Hb). eexists. split; [exact Hw|].
    match goal with |- context [envelope ?v ?d ?s ?l blob] =>
      destruct (envelope_slices v d s l blob) as (_ & _ & _ & _ & _ & _ & Hdrop); [apply length_to_be_bytes..|] end.
    unfold ENVELOPE_HEADER_SIZE. rewrite Hdrop. cbv zeta. split_and!.
    + by apply forged_seq_test_result.
    + by apply tampered_blob_test_result.
    + by apply device_mismatch_test_result.
    + by apply wrong_key_test_result.
Qed.
