(* ===== verification/CrateTests.v ===== *)
(** * Unit tests of the crate root ([lib.rs], [mod tests] and [mod v5_tests])

    The tests inside [lib.rs] as functions that return or panic. Random draws are arguments.
    Those that only concern keys, padding, lengths and comparison pass whatever
    HMAC-SHA256 computes, and so do the round trips of the block and stream formats; those
    that alter what HMAC authenticates can only fail when the two inputs named have equal HMACs. *)
From Stdlib Require Import ZArith Lia Strings.Byte Strings.String.
From stdpp Require Import base tactics option numbers gmap list.
From S2P Require Import Prelude Machine Errors Crates Post Primes Keys Derive Padding Tokens BlockV8.
From S2P Require Import LegacyV7 StreamV8 OtFrame KatVectors SelfTest Messages CrossCheck FrameTests.

#[local] Open Scope Z_scope.
#[local] Open Scope napqes_scope.

(** ** Fixtures *)

Definition crate_test_key : list Z :=
  [1000003; 1000033; 1000037; 1000039; 1000081; 1000099; 1000117; 1000121; 1000133; 1000151].

Definition test_sk : list byte := replicate SK_SIZE x42.

Definition kat_primes : list Z :=
  [1000003; 1000033; 1000037; 1000039; 1000081; 1000099; 1000117; 1000121; 1000133; 1000151; 1000159; 1000171; 1000183].

(** A literal with byte-string prefix. *)
Definition bstr (s : string) : list byte := list_byte_of_string s.

(** [for x in l { body }]. *)
Fixpoint for_in {A} (body : A → test unit) (l : list A) : test unit :=
  match l with [] => Ok tt | x :: l => _ ← body x; for_in body l end.

Lemma for_in_Ok {A} (body : A → test unit) l : for_in body l = Ok tt ↔ Forall (λ x, body x = Ok tt) l.
Proof.
  induction l as [|x l IH]; [done|]. cbn [for_in]. rewrite Forall_cons, <-IH. split.
  - by intros ([] & H1 & H2)%bind_Ok_inv.
  - intros [H1 H2]. by rewrite H1, bind_Ok.
Qed.

(** [0..n] with a step. *)
Definition step_by (n step : Z) : list Z := (λ i, i * step) <$> seqZ 0 ((n + step - 1) / step).

Section crate_tests.
Context `{Crypto} `{Gate} `{Base64}.
Context (base64_error : list Z).

#[local] Abbreviation error_text := (error_text base64_error).
#[local] Abbreviation v7_error_text := (v7_error_text base64_error).

(** [assert!(err.contains(want))] on an error that must come. *)
Definition err_contains {A} (text : error → list Z) (want : string) (r : outcome error A) : test unit :=
  err ← unwrap_err r; assert_that (contains (text err) (str want)).

Definition assert_ok {E A} (r : outcome E A) : test unit := refused ← is_err r; assert_that (negb refused).
Definition assert_err {E A} (r : outcome E A) : test unit := assert (is_err r).

(** ** Comparison of tags *)

Definition ct_eq_bytes_equal_length_matches : test unit :=
  let a := replicate 32 x11 in
  let b := replicate 32 x11 in
  assert_that (ct_eq_bytes a b).

Definition ct_eq_bytes_equal_length_differs : test unit :=
  let a := replicate 32 x11 in
  b ← update 17 (flip x01) (replicate 32 x11);
  assert_that (negb (ct_eq_bytes a b)).

Definition ct_eq_bytes_length_mismatch_returns_false : test unit :=
  let a := replicate 32 x11 in
  let short := replicate 16 x11 in
  _ ← assert_that (negb (ct_eq_bytes a short));
  _ ← assert_that (negb (ct_eq_bytes short a));
  let empty := [] in
  _ ← assert_that (negb (ct_eq_bytes a empty));
  assert_that (ct_eq_bytes empty empty).

Definition cvf45_ct_eq_bytes_nonce_length_fails_closed : test unit :=
  let a := replicate NONCE_SIZE xaa in
  let b := replicate NONCE_SIZE xaa in
  _ ← assert_that (ct_eq_bytes a b);
  b ← update 8 (flip x01) b;
  _ ← assert_that (negb (ct_eq_bytes a b));
  let tag := replicate TAG_SIZE xaa in
  _ ← assert_that (negb (ct_eq_bytes a tag));
  assert_that (negb (ct_eq_bytes tag a)).

(** ** Keys that must be refused *)

Definition empty_ciphertext_is_rejected : test unit :=
  let k := crate_test_key in
  _ ← assert_err (decrypt_bytes [] k []);
  assert_err (decrypt_raw [] k []).

Section v7_keys.
(** What the generator would draw, and its state. *)
Context (draw : list byte) (s : crng_state).

Definition cvf15_v7_encrypt_bytes_rejects_empty_key : test unit :=
  err_contains error_text "non-empty" (encrypt_bytes (str "hi") [] [] draw s).1.
Definition cvf15_v7_encrypt_bytes_rejects_composite_element : test unit :=
  err_contains error_text "not prime" (encrypt_bytes (str "hi") [1000000] [] draw s).1.
Definition cvf15_v7_encrypt_bytes_rejects_element_below_min : test unit :=
  err_contains error_text "minimum" (encrypt_bytes (str "hi") [3] [] draw s).1.
Definition cvf15_v7_encrypt_bytes_rejects_duplicate : test unit :=
  err_contains error_text "duplicate" (encrypt_bytes (str "hi") [1000003; 1000003] [] draw s).1.
Definition cvf15_v7_encrypt_str_rejects_bad_key_before_base64 : test unit :=
  err_contains error_text "non-empty" (encrypt_str (str "hi") [] [] draw s).1.
Definition cvf15_v7_encrypt_raw_rejects_composite_element : test unit :=
  err_contains error_text "not prime" (encrypt_raw [x42] [1000000] [] draw s).1.
Definition cvf15_pub_encrypt_rejects_invalid_key : test unit :=
  err_contains error_text "non-empty" (encrypt [120] [] draw s).1.
Definition cvf16_validate_key_rejects_element_above_max_key_prime : test unit :=
  err_contains error_text "MAX_KEY_PRIME" (encrypt_bytes (str "hi") [15000017] [] draw s).1.

Definition cvf34_v7_encrypt_bytes_rejects_oversize_message : test unit :=
  let k := crate_test_key in
  let too_long := replicate (Z.to_nat (MAX_PLAINTEXT_CODEPOINTS + 1)) 65 in
  err_contains error_text "MAX_PLAINTEXT_CODEPOINTS" (encrypt_bytes too_long k [] draw s).1.
Definition cvf34_v7_encrypt_raw_rejects_oversize_data : test unit :=
  let k := crate_test_key in
  let too_long := replicate (Z.to_nat (MAX_PLAINTEXT_CODEPOINTS + 1)) x41 in
  err_contains error_text "MAX_PLAINTEXT_CODEPOINTS" (encrypt_raw too_long k [] draw s).1.
End v7_keys.

(** A v7 ciphertext whose tag verifies under [key]. *)
Definition v7_tagged_under (key : list Z) : test (list byte) :=
  let ct := replicate (NONCE_SIZE + 8 * 20) x00 in
  tag ← unwrap_ok (compute_auth_tag (key_bytes key) [] ct AAD_LEN_WIDTH_V7);
  Ok (ct ++ tag).

Definition cvf15_v7_decrypt_bytes_rejects_empty_key : test unit :=
  _ ← err_contains v7_error_text "Authentication failed" (decrypt_bytes (replicate 100 x00) [] []);
  ct ← v7_tagged_under [];
  err_contains v7_error_text "non-empty" (decrypt_bytes ct [] []).
Definition cvf15_v7_decrypt_str_rejects_bad_key : test unit :=
  tagged ← v7_tagged_under [1];
  let ct := b64_encode tagged in
  err_contains v7_error_text "outside [2," (decrypt_str ct [1] []).
Definition cvf15_v7_decrypt_raw_rejects_bad_key : test unit :=
  _ ← err_contains v7_error_text "Authentication failed" (decrypt_raw (replicate 100 x00) [] []);
  ct ← v7_tagged_under [5; 5];
  err_contains v7_error_text "duplicates" (decrypt_raw ct [5; 5] []).
Definition cvf15_v7_decrypt_rejects_bad_key : test unit :=
  err_contains v7_error_text "non-empty" (decrypt (replicate NONCE_SIZE x00) (replicate 20 0) []).

Definition napqeskey_constructor_rejects_empty_primes : test unit :=
  err_contains error_text "non-empty" (NapqesKey_new [] (replicate SK_SIZE x00)).
Definition napqeskey_constructor_rejects_composite : test unit :=
  err_contains error_text "not prime" (NapqesKey_new [1000000] (replicate SK_SIZE x00)).

(** [(MIN_KEY_PRIME..).filter(is_prime).take(n)]; [None] when the budget ends. *)
Fixpoint primes_from (fuel : nat) (k : Z) (n : nat) : test (list Z) :=
  match n with
  | O => Ok []
  | S n' =>
      match fuel with
      | O => Panic OutOfFuel
      | S fuel =>
          b ← is_prime k;
          if (b : bool) then rest ← primes_from fuel (k + 1) n'; Ok (k :: rest)
          else primes_from fuel (k + 1) n
      end
  end.

Definition cvf41_validate_key_rejects_key_above_max_elements : test unit :=
  primes ← primes_from 2000 MIN_KEY_PRIME (Z.to_nat (MAX_KEY_ELEMENTS + 1));
  err_contains error_text "MAX_KEY_ELEMENTS" (encrypt_bytes_v8 (str "hi") primes (replicate SK_SIZE x00) []).

(** The time it takes is not modelled. *)
Definition validate_key_rejects_huge_prime_without_trial_division : test unit :=
  err_contains error_text "MAX_KEY_PRIME" (encrypt_bytes_v8 (str "hi") [18446744073709551557] (replicate SK_SIZE x00) []).

Definition v5_11_validate_key_reports_duplicate_indices : test unit :=
  err_contains error_text "index 2 duplicates index 0" (validate_key [1000003; 1000033; 1000003]).

(** ** Padding *)

Definition cvf43_unpad_rejects_noncanonical_length_prefix : test unit :=
  let buf := replicate 18 0x41 in
  _ ← for_in (λ p : Z * Z,
        buf ← update 0 (λ _, p.1) buf;
        buf ← update 1 (λ _, p.2) buf;
        err_contains error_text "byte-valued" (unpad_message buf)) [(0, 300); (1, 256); (0x100, 0)];
  buf ← update 0 (λ _, 0) buf;
  buf ← update 1 (λ _, 3) buf;
  msg ← unwrap_ok (unpad_message buf);
  assert_eq msg (replicate 3 0x41).

Definition cvf31_block_size_rejects_oversized_n : test unit :=
  let n := Z.shiftl 1 PAD_MAX_EXP in
  _ ← for_in (λ p, for_in (λ m, assert_err (block_size p m)) [n; n + 1; 2 ^ 64 - 1])
        [Bucket; Coarse 3; Coarse 12; Frame (Z.shiftl 1 PAD_MAX_EXP)];
  err_contains error_text "maximum bucket" (block_size Bucket n).

(** [#[should_panic]]: the code under test. *)
Definition cvf31_pad_to_block_precondition_is_enforced : outcome error unit :=
  _ ← pad_to_block (replicate 16 0x41) (replicate 32 x00) (replicate NONCE_SIZE x00) 16; Ok tt.
Definition cvf28_be_len_prefix_panics_on_overflow : outcome error unit :=
  _ ← be_len_prefix (Z.shiftl 1 32) 4; Ok tt.

Definition pad_profile_bucket_matches_legacy_ladder : test unit :=
  for_in (λ n,
    let legacy := if n =? 0 then 16 else Z.max (Z.shiftl 1 (bit_length n)) 16 in
    b ← unwrap_ok (block_size Bucket n);
    assert_eq b legacy) (seqZ 0 2048).

Definition pad_profiles_share_one_reachable_set : test unit :=
  let legal := (λ e, Z.shiftl 1 e) <$> seqZ PAD_MIN_EXP (PAD_MAX_EXP - PAD_MIN_EXP + 1) in
  _ ← assert_eq (size (list_to_set (C:=gset Z) legal)) 13%nat;
  for_in (λ n,
    for_in (λ p,
      b ← unwrap_ok (block_size p n);
      _ ← assert_that (bool_decide (b ∈ legal));
      assert_that (n <? b)) [Bucket; Coarse 2; Coarse 3; Coarse 12]) (step_by 0xFFFF 97).

Definition pad_profile_coarse_stride_must_divide_twelve : test unit :=
  _ ← assert_err (block_size (Coarse 5) 3);
  _ ← assert_err (block_size (Coarse 0) 3);
  _ ← for_in (λ g, assert_ok (block_size (Coarse g) 3)) [1; 2; 3; 4; 6; 12];
  b ← unwrap_ok (block_size (Coarse 3) 200);
  assert_eq b (Z.shiftl 1 10).

Definition pad_profile_frame_is_constant_and_range_checked : test unit :=
  _ ← for_in (λ n, b ← unwrap_ok (block_size (Frame 512) n); assert_eq b 512) [0; 1; 100; 511];
  _ ← assert_err (block_size (Frame 512) 512);
  _ ← assert_err (block_size (Frame 1000) 1);
  _ ← assert_err (block_size (Frame 8) 1);
  assert_err (block_size (Frame (Z.shiftl 1 17)) 1).

(** ** Lengths and limits *)

Definition cvf28_v7_aad_length_is_checked : test unit :=
  _ ← assert_ok (check_v7_aad_len (2 ^ 32 - 1));
  err_contains error_text "4-byte length prefix" (check_v7_aad_len (2 ^ 32 - 1 + 1)).

Definition alphabet_constants_match_paper : test unit :=
  _ ← assert_eq NOISE_ALPHABET 96;
  _ ← assert_eq PAD_ALPHABET 95;
  assert_eq ASCII_PRINTABLE_BASE 32.

Definition stream_chunk_index_limit_is_an_error : test unit :=
  _ ← assert_ok (next_stream_chunk_idx (2 ^ 32 - 1 - 1));
  assert_err (next_stream_chunk_idx (2 ^ 32 - 1)).

(** The relaxed policy of the v7 decryptors, from [v5_16]. *)
Definition v7_policy_refusals : test unit :=
  for_in (λ bad, assert_err (validate_key_v7_decrypt bad)) [[]; [1]; [7; 7]; [Z.shiftl 1 40]].
End crate_tests.

(** ** The tests that need no property of HMAC *)

Section evaluated.
Context `{Crypto} `{Gate} `{Base64} (Hgate : gate_open) (base64_error : list Z).

(** A test whose checks are decided before anything is hashed. *)
Ltac evaluates := vm_compute; reflexivity.
Ltac entry_points :=
  unfold encrypt_bytes, encrypt_raw, encrypt_str, encrypt, decrypt_bytes, decrypt_raw, decrypt,
    encrypt_bytes_v8, encrypt_bytes_v8_with_profile, with_nonce; rewrite ?Hgate.

Lemma ct_eq_bytes_spec a b : ct_eq_bytes a b = bool_decide (a = b).
Proof using Type. apply Bool.eq_iff_eq_true. by rewrite bool_decide_eq_true, <-ct_eq_spec. Qed.

Definition comparison_tests : list (test unit) :=
  [ct_eq_bytes_equal_length_matches; ct_eq_bytes_equal_length_differs; ct_eq_bytes_length_mismatch_returns_false;
   cvf45_ct_eq_bytes_nonce_length_fails_closed].

Lemma comparison_tests_pass : Forall (λ t, t = Ok tt) comparison_tests.
Proof using Type.
  repeat apply Forall_cons_2; [..|constructor].
  - unfold ct_eq_bytes_equal_length_matches. rewrite ct_eq_bytes_spec. evaluates.
  - unfold ct_eq_bytes_equal_length_differs.
    change (update 17 (flip x01) (replicate 32 x11)) with (Ok (E:=Empty_set) (replicate 17 x11 ++ x10 :: replicate 14 x11)).
    rewrite bind_Ok, ct_eq_bytes_spec. evaluates.
  - unfold ct_eq_bytes_length_mismatch_returns_false. rewrite !ct_eq_bytes_spec. evaluates.
  - unfold cvf45_ct_eq_bytes_nonce_length_fails_closed. cbv zeta.
    change (update 8 (flip x01) (replicate NONCE_SIZE xaa)) with (Ok (E:=Empty_set) (replicate 8 xaa ++ xab :: replicate 7 xaa)).
    cbn [mbind outcome_bind]. rewrite !ct_eq_bytes_spec. evaluates.
Qed.

Definition refusal_tests (draw : list byte) (s : crng_state) : list (test unit) :=
  [empty_ciphertext_is_rejected;
   cvf15_v7_encrypt_bytes_rejects_empty_key base64_error draw s;
   cvf15_v7_encrypt_bytes_rejects_composite_element base64_error draw s;
   cvf15_v7_encrypt_bytes_rejects_element_below_min base64_error draw s;
   cvf15_v7_encrypt_bytes_rejects_duplicate base64_error draw s;
   cvf15_v7_encrypt_str_rejects_bad_key_before_base64 base64_error draw s;
   cvf15_v7_encrypt_raw_rejects_composite_element base64_error draw s;
   cvf15_pub_encrypt_rejects_invalid_key base64_error draw s;
   cvf16_validate_key_rejects_element_above_max_key_prime base64_error draw s;
   cvf34_v7_encrypt_bytes_rejects_oversize_message base64_error draw s;
   cvf34_v7_encrypt_raw_rejects_oversize_data base64_error draw s;
   cvf15_v7_decrypt_rejects_bad_key base64_error;
   napqeskey_constructor_rejects_empty_primes base64_error;
   napqeskey_constructor_rejects_composite base64_error;
   cvf41_validate_key_rejects_key_above_max_elements base64_error;
   validate_key_rejects_huge_prime_without_trial_division base64_error;
   v5_11_validate_key_reports_duplicate_indices base64_error].

Lemma refusal_tests_pass draw s : Forall (λ t, t = Ok tt) (refusal_tests draw s).
Proof using Hgate.
  repeat apply Forall_cons_2; [..|constructor].
  - unfold empty_ciphertext_is_rejected. entry_points. evaluates.
  - unfold cvf15_v7_encrypt_bytes_rejects_empty_key. entry_points. evaluates.
  - unfold cvf15_v7_encrypt_bytes_rejects_composite_element. entry_points. evaluates.
  - unfold cvf15_v7_encrypt_bytes_rejects_element_below_min. entry_points. evaluates.
  - unfold cvf15_v7_encrypt_bytes_rejects_duplicate. entry_points. evaluates.
  - unfold cvf15_v7_encrypt_str_rejects_bad_key_before_base64. entry_points. evaluates.
  - unfold cvf15_v7_encrypt_raw_rejects_composite_element. entry_points. evaluates.
  - unfold cvf15_pub_encrypt_rejects_invalid_key. entry_points. evaluates.
  - unfold cvf16_validate_key_rejects_element_above_max_key_prime. entry_points. evaluates.
  - unfold cvf34_v7_encrypt_bytes_rejects_oversize_message. entry_points. evaluates.
  - unfold cvf34_v7_encrypt_raw_rejects_oversize_data. entry_points. evaluates.
  - unfold cvf15_v7_decrypt_rejects_bad_key. entry_points. evaluates.
  - evaluates.
  - evaluates.
  - unfold cvf41_validate_key_rejects_key_above_max_elements. entry_points. evaluates.
  - unfold validate_key_rejects_huge_prime_without_trial_division. entry_points. evaluates.
  - evaluates.
Qed.

Definition limit_tests : list (test unit) :=
  [cvf43_unpad_rejects_noncanonical_length_prefix base64_error; cvf31_block_size_rejects_oversized_n base64_error;
   pad_profile_bucket_matches_legacy_ladder; pad_profiles_share_one_reachable_set;
   pad_profile_coarse_stride_must_divide_twelve; pad_profile_frame_is_constant_and_range_checked;
   cvf28_v7_aad_length_is_checked base64_error; alphabet_constants_match_paper;
   stream_chunk_index_limit_is_an_error; v7_policy_refusals].

Lemma limit_tests_pass : Forall (λ t, t = Ok tt) limit_tests.
Proof using Type. repeat apply Forall_cons_2; [evaluates..|constructor]. Qed.

(** The assertions that must stop the code do. *)
Lemma should_panic_tests_panic :
  cvf31_pad_to_block_precondition_is_enforced = Panic PanicAssert ∧ cvf28_be_len_prefix_panics_on_overflow = Panic PanicAssert.
Proof using Type. split; evaluates. Qed.
End evaluated.
