(* ===== verification/SieveTest.v ===== *)
(** * The primality test against a sieve ([lib.rs], [v5_30_is_prime_matches_sieve_and_edge_cases])

    The sieve the test computes, what it marks, and that the test passes. *)
From Stdlib Require Import ZArith Lia Zdivisibility.
From stdpp Require Import base tactics option numbers list.
From S2P Require Import Prelude Machine Errors Primes CrossCheck FrameTests CrateTests.

#[local] Open Scope Z_scope.
#[local] Open Scope napqes_scope.

(** [while j < N { sieve[j] = false; j += i; }]. *)
Definition mark_step (N i : Z) (s : list bool * Z) : (list bool * Z) + test (list bool * Z) :=
  let '(sieve, j) := s in
  if j <? N then
    continue_with (
      sieve ← update (Z.to_nat j) (λ _, false) sieve;
      j ← j +64 i;
      Ok (sieve, j))
  else inr (Ok s).

Definition sieve_step (N i : Z) (sieve : list bool) : test (list bool) :=
  candidate ← expect PanicBounds (sieve !! Z.to_nat i);
  if (candidate : bool) then
    j ← i *64 i;
    s ← while_loop 64 (mark_step N i) (sieve, j);
    Ok s.1
  else Ok sieve.

(** [for i in 2..N]. *)
Fixpoint sieve_loop (N : Z) (candidates : list Z) (sieve : list bool) : test (list bool) :=
  match candidates with
  | [] => Ok sieve
  | i :: candidates => sieve ← sieve_step N i sieve; sieve_loop N candidates sieve
  end.

Definition sieve_of (N : Z) : test (list bool) :=
  sieve ← update 0 (λ _, false) (replicate (Z.to_nat N) true);
  sieve ← update 1 (λ _, false) sieve;
  sieve_loop N (seqZ 2 (N - 2)) sieve.

Definition SIEVE_SIZE : Z := 200000.

Definition v5_30_is_prime_matches_sieve_and_edge_cases : test unit :=
  sieve ← sieve_of SIEVE_SIZE;
  _ ← for_in (λ n,
        b ← is_prime n;
        expected ← expect PanicBounds (sieve !! Z.to_nat n);
        assert_eq (b : bool) expected) (seqZ 0 SIEVE_SIZE);
  _ ← for_in (λ c : Z * bool, b ← is_prime c.1; assert_eq (b : bool) c.2)
        [(53 * 53, false); (59 * 59, false); (61 * 61, false); (1000003 * 1000033, false); (14999977, true);
         (14999981, true); (14999999, false); (2 ^ 64 - 1, false)];
  for_in (λ n,
    r ← isqrt_u64 n;
    assert_that ((r * r <=? n) && (n <? (r + 1) * (r + 1)))) [0; 1; 3; 4; 15; 16; 17; Z.shiftl 1 32; 2 ^ 64 - 1].

(** ** What is marked *)

(** [n] has a divisor below [m] that is not above its square root. *)
Definition crossed (m n : Z) : Prop := ∃ d, 2 ≤ d < m ∧ d * d ≤ n ∧ (d | n).

(** The cells hold [true] exactly outside [P]. *)
Definition cells_are (N : Z) (sieve : list bool) (P : Z → Prop) : Prop :=
  Z.of_nat (length sieve) = N ∧
  ∀ k, 0 ≤ k < N → ∃ b, sieve !! Z.to_nat k = Some b ∧ (b = false ↔ P k).

Section sieve.
Context (N : Z) (HN : 2 ≤ N < 2 ^ 32).

Lemma update_cell sieve P j : cells_are N sieve P → 0 ≤ j < N →
  ∃ sieve', update (Z.to_nat j) (λ _, false) sieve = Ok sieve' ∧ cells_are N sieve' (λ k, k = j ∨ P k).
Proof using HN.
  intros [Hl Hc] Hj. unfold update. destruct (Hc j Hj) as (b & Hb & _). rewrite Hb. cbn [expect]. rewrite bind_Ok.
  eexists. split; [done|]. split; [by rewrite length_insert|]. intros k Hk.
  destruct (decide (k = j)) as [->|Hne].
  - exists false. rewrite list_lookup_insert_eq by lia. split; [done|]. split; [by left|done].
  - rewrite list_lookup_insert_ne by lia. destruct (Hc k Hk) as (c & Hkc & Hiff). exists c. split; [done|].
    rewrite Hiff. naive_solver.
Qed.

(** One candidate crosses out its multiples from its square on. *)
Lemma mark_multiples i sieve P : cells_are N sieve P → 2 ≤ i < N →
  ∃ sieve' j', while_loop 64 (mark_step N i) (sieve, i * i) = Ok (sieve', j') ∧
    cells_are N sieve' (λ k, (i * i ≤ k ∧ (i | k)) ∨ P k).
Proof using HN.
  intros Hs Hi.
  set (I := λ s : list bool * Z, (i | s.2) ∧ i * i ≤ s.2 ∧ s.2 < N + i * i ∧
    cells_are N s.1 (λ k, (i * i ≤ k < s.2 ∧ (i | k)) ∨ P k)).
  apply (while_loop_total 64 (mark_step N i) I (λ s, N + i * i - s.2)
    (λ r, ∃ sieve' j', r = Ok (sieve', j') ∧ cells_are N sieve' (λ k, (i * i ≤ k ∧ (i | k)) ∨ P k)));
    [|split_and!; cbn [fst snd]; [by exists i|lia|nia|]| |cbn [snd]; nia].
  - intros [t j] (Hd & Hlo & Hhi & Hc). cbn [fst snd] in *. unfold mark_step.
    destruct (Z.ltb_spec j N) as [Hj|Hj].
    + destruct (update_cell t _ j Hc ltac:(nia)) as (t' & -> & Hc'). rewrite bind_Ok, checked_add_Ok, bind_Ok by nia.
      cbn [continue_with]. unfold I. cbn [fst snd]. split; [|lia]. split_and!; [|lia|nia|].
      { apply Z.divide_add_r; [done|apply Z.divide_refl]. }
      destruct Hc' as [Hl Hc']. split; [done|]. intros k Hk. destruct (Hc' k Hk) as (b & Hb & Hiff). exists b.
      split; [done|]. rewrite Hiff. split.
      * intros [->|[[? ?]|?]]; [left; split; [nia|done]|left; split; [lia|done]|by right].
      * intros [[Hk1 Hk2]|?]; [|by right; right].
        destruct (decide (k < j)); [right; left; split; [lia|done]|left].
        destruct Hd as [a ->], Hk2 as [c ->].
        assert (a ≤ c < a + 1) by (split; [apply (Zorder.Zmult_le_reg_r _ _ i)|apply (Zorder.Zmult_lt_reg_r _ _ i)]; lia).
        f_equal. lia.
    + exists t, j. split; [done|]. destruct Hc as [Hl Hc]. split; [done|].
      intros k Hk. destruct (Hc k Hk) as (b & Hb & Hiff). exists b. split; [done|]. rewrite Hiff. naive_solver lia.
  - destruct Hs as [Hl Hc]. split; [done|]. intros k Hk. destruct (Hc k Hk) as (b & Hb & Hiff). exists b.
    split; [done|]. rewrite Hiff. naive_solver lia.
  - intros [t j] (_ & _ & Hhi & _). cbn [snd] in *. lia.
Qed.

(** A composite candidate is skipped: its multiples are those of a smaller one. *)
Lemma crossed_step i n : 2 ≤ i → (crossed i i ∨ ¬ (i * i ≤ n ∧ (i | n))) → crossed (i + 1) n ↔ crossed i n.
Proof using Type.
  intros Hi Hor. split; [|intros (d & ? & ?); exists d; split; [lia|done]].
  intros (d & Hd & Hdd & Hdn). destruct (decide (d < i)); [exists d; split; [lia|done]|].
  assert (d = i) as -> by lia. destruct Hor as [(e & He & Hee & Hei)|Hno]; [|by destruct Hno].
  exists e. split_and!; [lia|lia|nia|]. by transitivity i.
Qed.

Lemma sieve_step_ok i sieve : 2 ≤ i < N → cells_are N sieve (λ k, k < 2 ∨ crossed i k) →
  ∃ sieve', sieve_step N i sieve = Ok sieve' ∧ cells_are N sieve' (λ k, k < 2 ∨ crossed (i + 1) k).
Proof using HN.
  intros Hi Hs. unfold sieve_step. pose proof Hs as [Hl Hc].
  destruct (Hc i ltac:(lia)) as (b & Hb & Hiff). rewrite Hb. cbn [expect]. rewrite bind_Ok. destruct b.
  - bind_ok (apply checked_mul_Ok; nia).
    destruct (mark_multiples i sieve _ Hs Hi) as (sieve' & j' & -> & Hl' & Hc'). rewrite bind_Ok. cbn [fst].
    eexists. split; [done|]. split; [done|]. intros k Hk. destruct (Hc' k Hk) as (c & Hkc & Hkiff). exists c.
    split; [done|]. rewrite Hkiff. split.
    + intros [[? ?]|[?|(d & ? & ?)]]; [right; exists i; split_and!; [lia|lia|done|done]|by left|].
      right. exists d. split; [lia|done].
    + intros [?|(d & Hd & Hdd & Hdn)]; [by right; left|].
      destruct (decide (d = i)) as [->|]; [by left|]. right. right. exists d. split; [lia|done].
  - eexists. split; [done|]. split; [done|]. intros k Hk. destruct (Hc k Hk) as (c & Hkc & Hkiff). exists c.
    split; [done|]. rewrite Hkiff. rewrite (crossed_step i k); [done|lia|left].
    destruct Hiff as [[?|?] _]; [done|lia|done].
Qed.

Lemma sieve_loop_ok n i sieve : 2 ≤ i → i + Z.of_nat n = N → cells_are N sieve (λ k, k < 2 ∨ crossed i k) →
  ∃ sieve', sieve_loop N (seqZ i (Z.of_nat n)) sieve = Ok sieve' ∧ cells_are N sieve' (λ k, k < 2 ∨ crossed N k).
Proof using HN.
  revert i sieve. induction n as [|n IH]; intros i sieve Hi Hn Hs.
  - rewrite seqZ_nil by lia. exists sieve. split; [done|]. by replace N with i in Hs |- * by lia.
  - rewrite seqZ_cons by lia. cbn [sieve_loop].
    destruct (sieve_step_ok i sieve ltac:(lia) Hs) as (s' & -> & Hs'). rewrite bind_Ok.
    replace (Z.pred (Z.of_nat (S n))) with (Z.of_nat n) by lia. apply IH; [lia|lia|done].
Qed.

(** The sieve decides primality. *)
Lemma sieve_of_ok : ∃ sieve, sieve_of N = Ok sieve ∧
  ∀ k, 0 ≤ k < N → sieve !! Z.to_nat k = Some (bool_decide (Z.prime k)).
Proof using HN.
  unfold sieve_of.
  assert (cells_are N (replicate (Z.to_nat N) true) (λ k, False)) as H0.
  { split; [rewrite length_replicate; lia|]. intros k Hk. exists true. split; [|done]. apply lookup_replicate_2. lia. }
  destruct (update_cell _ _ 0 H0 ltac:(lia)) as (s0 & Hs0 & H1). change (Z.to_nat 0) with 0%nat in Hs0. rewrite Hs0, bind_Ok.
  destruct (update_cell _ _ 1 H1 ltac:(lia)) as (s1 & Hs1 & H2). change (Z.to_nat 1) with 1%nat in Hs1. rewrite Hs1, bind_Ok.
  destruct (sieve_loop_ok (Z.to_nat (N - 2)) 2 s1) as (s & Hs & Hl & Hc); [lia|lia| |].
  { destruct H2 as [Hl Hc]. split; [done|]. intros k Hk. destruct (Hc k Hk) as (b & Hb & Hiff). exists b. split; [done|].
    rewrite Hiff. split; [intros [->|[->|[]]]; left; lia|]. intros [?|(d & ? & _)]; [|lia].
    destruct (decide (k = 1)); [by left|right; left; lia]. }
  rewrite Z2Nat.id in Hs by lia. exists s. split; [done|]. intros k Hk. destruct (Hc k Hk) as (b & -> & Hiff). f_equal.
  apply Bool.eq_iff_eq_true. rewrite bool_decide_eq_true.
  destruct b; split; try done.
  - intros _. assert (¬ (k < 2 ∨ crossed N k)) as Hn by (by rewrite <-Hiff).
    apply prime_of_no_small_divisor; [lia|]. intros d Hd Hdd Hdn. apply Hn. right. exists d. split_and!; try done. nia.
  - intros Hp. exfalso. destruct Hiff as [[?|(d & Hd & Hdd & Hdn)] _]; [done| |].
    + apply Z.prime_ge_2 in Hp. lia.
    + by apply (not_prime_of_divisor k d); [nia|..].
Qed.
End sieve.

(** The primality test passes: on every number below 200000 [is_prime] says what the sieve
    says, its edge cases hold, and [isqrt_u64] is the integer square root. *)
Theorem is_prime_test_passes : v5_30_is_prime_matches_sieve_and_edge_cases = Ok tt.
Proof.
  unfold v5_30_is_prime_matches_sieve_and_edge_cases.
  destruct (sieve_of_ok SIEVE_SIZE ltac:(unfold SIEVE_SIZE; lia)) as (sieve & -> & Hs). rewrite bind_Ok.
  assert (for_in (λ n, b ← is_prime n; expected ← expect PanicBounds (sieve !! Z.to_nat n); assert_eq (b : bool) expected)
            (seqZ 0 SIEVE_SIZE) = Ok tt) as ->.
  { apply for_in_Ok, Forall_forall. intros n Hn. apply elem_of_seqZ in Hn.
    assert (SIEVE_SIZE < 2 ^ 64) by (unfold SIEVE_SIZE; lia).
    rewrite is_prime_spec, bind_Ok by (unfold fits; lia).
    rewrite Hs by lia. cbn [expect]. rewrite bind_Ok. unfold assert_eq. by rewrite bool_decide_eq_true_2. }
  rewrite bind_Ok.
  assert (is_prime (1000003 * 1000033) = Ok (E:=Empty_set) false) as Hbig.
  { rewrite is_prime_spec by (unfold fits; lia). f_equal. apply bool_decide_eq_false_2.
    apply (not_prime_of_divisor _ 1000003); [lia|by exists 1000033]. }
  cbn [for_in fst snd]. rewrite Hbig. vm_compute. reflexivity.
Qed.
