(* ===== verification/CipherTests.v ===== *)
(** * Unit tests of the ciphers in the crate root ([lib.rs], [mod tests] and [mod v5_tests])

    The tests of [lib.rs] that generate keys, encrypt and decrypt. What the generator draws and
    the state of its continuous test are arguments. *)
From Stdlib Require Import ZArith Lia Strings.Byte Strings.String.
From stdpp Require Import base tactics option numbers gmap list.
From S2P Require Import Prelude Machine Errors Crates Post Primes Keys Derive Padding Tokens BlockV8.
From S2P Require Import LegacyV7 StreamV8 OtFrame KatVectors SelfTest Report Messages CrossCheck FrameTests CrateTests.

#[local] Open Scope Z_scope.
#[local] Open Scope napqes_scope.

(** What one key generation draws: the candidates and [sk]. *)
Record key_draws := KeyDraws { candidates : Z → Z; sk_fill : list byte }.

(** [HashSet::len] of what was inserted. *)
Definition distinct (lengths : list Z) : nat := size (list_to_set (C:=gset Z) lengths).

Section cipher_tests.
Context `{Crypto} `{Gate} `{Base64}.
Context (base64_error : list Z).

#[local] Abbreviation error_text := (error_text base64_error).
#[local] Abbreviation v7_error_text := (v7_error_text base64_error).

(** The shadowing functions of [mod tests]. *)
Definition new_v8_key (d : key_draws) : test (list Z * list byte) :=
  unwrap_ok (generate_v8_key (candidates d) (sk_fill d) DEFAULT_KEY_COUNT MIN_KEY_PRIME MAX_KEY_PRIME).
Definition new_primes (d : key_draws) : test (list Z) :=
  unwrap_ok (generate_prime_numbers (candidates d) DEFAULT_KEY_COUNT MIN_KEY_PRIME MAX_KEY_PRIME).
Definition new_key (d : key_draws) : test NapqesKey := unwrap_ok (NapqesKey_generate (candidates d) (sk_fill d)).

(** ** Key generation *)

(** The sorted copy without equal neighbours has as many elements as there are distinct ones. *)
Definition generated_key_is_valid (ps : list Z) : test unit :=
  _ ← assert_eq (Z.of_nat (length ps)) DEFAULT_KEY_COUNT;
  _ ← for_in (λ p,
        b ← is_prime p;
        _ ← assert_that b;
        assert_that ((MIN_KEY_PRIME <=? p) && (p <=? MAX_KEY_PRIME))) ps;
  assert_eq (size (list_to_set (C:=gset Z) ps)) (length ps).

Definition primes_are_prime (d : key_draws) : test unit :=
  ps ← new_primes d; generated_key_is_valid ps.

Definition generate_prime_numbers_output_passes_validate_key (d : nat → key_draws) : test unit :=
  for_in (λ i,
    ps ← new_primes (d i);
    _ ← generated_key_is_valid ps;
    unwrap_ok (validate_key ps)) (List.seq 0 8).

Definition cvf20_keygen_reports_errors_instead_of_panicking (narrow : Z → Z) (d : key_draws) : test unit :=
  _ ← assert_err (generate_prime_numbers (candidates d) 1 10 10);
  _ ← assert_err (generate_prime_numbers narrow 1 24 28);
  _ ← assert_err (generate_v8_key (candidates d) (sk_fill d) 1 2 100);
  _ ← assert_err (generate_v8_key (candidates d) (sk_fill d) DEFAULT_KEY_COUNT MIN_KEY_PRIME (MAX_KEY_PRIME + 1));
  assert_ok (NapqesKey_generate (candidates d) (sk_fill d)).

Definition v5_14_keygen_rejects_zero_and_oversized_count (d : key_draws) : test unit :=
  _ ← assert_err (generate_prime_numbers (candidates d) 0 MIN_KEY_PRIME MAX_KEY_PRIME);
  _ ← assert_err (generate_prime_numbers (candidates d) (MAX_KEY_ELEMENTS + 1) MIN_KEY_PRIME MAX_KEY_PRIME);
  _ ← assert_err (generate_v8_key (candidates d) (sk_fill d) 0 MIN_KEY_PRIME MAX_KEY_PRIME);
  _ ← assert_err (generate_v8_key (candidates d) (sk_fill d) (MAX_KEY_ELEMENTS + 1) MIN_KEY_PRIME MAX_KEY_PRIME);
  ps ← unwrap_ok (generate_prime_numbers (candidates d) MAX_KEY_ELEMENTS MIN_KEY_PRIME MAX_KEY_PRIME);
  assert_ok (validate_key ps).

Definition napqeskey_constructor_validates (d : key_draws) : test unit :=
  k ← new_key d;
  _ ← assert_eq (Z.of_nat (NapqesKey_k k)) DEFAULT_KEY_COUNT;
  _ ← assert_eq (Z.of_nat (length (primes k))) DEFAULT_KEY_COUNT;
  assert_eq (length (sk k)) SK_SIZE.

(** [d2]: the second generation. *)
Definition v8_key_generation_is_independent (d d2 : key_draws) : test unit :=
  key ← new_v8_key d;
  let '(primes, sk) := key in
  _ ← assert_eq (Z.of_nat (length primes)) DEFAULT_KEY_COUNT;
  let kb := key_bytes primes in
  _ ← assert_that (negb (bool_decide (sk = hmac_digest kb [])));
  _ ← assert_that (negb (bool_decide (sk = derive_format_subkey kb FORMAT_BLOCK_V8)));
  _ ← assert_that (negb (bool_decide (sk = derive_format_subkey kb FORMAT_STREAM_AE_V8)));
  key2 ← new_v8_key d2;
  assert_that (negb (bool_decide (sk = key2.2))).

(** ** The v8 block format *)

(** Encrypt, decrypt, compare. *)
Definition v8_round_trip (msg : list Z) (primes : list Z) (sk aad : list byte) : test unit :=
  ct ← unwrap_ok (encrypt_bytes_v8 msg primes sk aad);
  pt ← unwrap_ok (decrypt_bytes_v8 ct primes sk aad);
  assert_eq pt msg.

Definition v8_roundtrip : test unit :=
  v8_round_trip (str "Hello, misuse-resistant EpiCypher!") crate_test_key test_sk (bstr "aad").
Definition cvf25_v8_roundtrip_first_non_ascii_codepoint (d : key_draws) : test unit :=
  key ← new_v8_key d; v8_round_trip [0x80] key.1 key.2 [].
Definition cvf25_v8_roundtrip_bmp_above_0100 (d : key_draws) : test unit :=
  key ← new_v8_key d; v8_round_trip [0x100] key.1 key.2 [].
Definition cvf25_v8_roundtrip_supplementary_plane (d : key_draws) : test unit :=
  key ← new_v8_key d; v8_round_trip [0x1F600] key.1 key.2 [].
Definition cvf25_v8_roundtrip_mixed_codepoint_widths (d : key_draws) : test unit :=
  key ← new_v8_key d; v8_round_trip [65; 0x80; 0x100; 0x1F600; 90] key.1 key.2 (bstr "aad").

Definition napqeskey_encrypt_decrypt_roundtrip_via_key_api (d : key_draws) : test unit :=
  k ← new_key d;
  let msg := str "hello via NapqesKey" in
  ct ← unwrap_ok (encrypt_bytes_v8_key msg k (bstr "aad"));
  pt ← unwrap_ok (decrypt_bytes_v8_key ct k (bstr "aad"));
  assert_eq pt msg.

Definition v8_wrong_aad_fails : test unit :=
  ct ← unwrap_ok (encrypt_bytes_v8 (str "secret") crate_test_key test_sk (bstr "good"));
  assert_err (decrypt_bytes_v8 ct crate_test_key test_sk (bstr "bad")).

Definition v8_tamper_fails : test unit :=
  ct ← unwrap_ok (encrypt_bytes_v8 (str "secret") crate_test_key test_sk []);
  last ← Z.of_nat (length ct) -! 1;
  ct ← update (Z.to_nat last) (flip x01) ct;
  assert_err (decrypt_bytes_v8 ct crate_test_key test_sk []).

(** One of its alterations: byte [i]. *)
Definition v8_byte_flipped (ct : list byte) (i : nat) : test unit :=
  bad ← update i (flip x01) ct;
  err_contains error_text "Authentication failed" (decrypt_bytes_v8 bad crate_test_key test_sk []).

Definition v8_nonce_and_blob_tamper_fail : test unit :=
  ct ← unwrap_ok (encrypt_bytes_v8 (str "secret") crate_test_key test_sk []);
  l ← Z.of_nat (length ct) -! Z.of_nat TAG_SIZE;
  before_tag ← l -! 1;
  for_in (v8_byte_flipped ct) [0%nat; (NONCE_SIZE - 1)%nat; NONCE_SIZE; (length ct / 2)%nat; Z.to_nat before_tag].

Definition v8_same_message_is_deterministic : test unit :=
  ct1 ← unwrap_ok (encrypt_bytes_v8 (str "repeat me") crate_test_key test_sk (bstr "aad"));
  ct2 ← unwrap_ok (encrypt_bytes_v8 (str "repeat me") crate_test_key test_sk (bstr "aad"));
  assert_eq ct1 ct2.

Definition v8_distinct_messages_have_distinct_nonces : test unit :=
  ct1 ← unwrap_ok (encrypt_bytes_v8 (str "message one") crate_test_key test_sk (bstr "aad"));
  ct2 ← unwrap_ok (encrypt_bytes_v8 (str "message two") crate_test_key test_sk (bstr "aad"));
  n1 ← index_range 0 NONCE_SIZE ct1;
  n2 ← index_range 0 NONCE_SIZE ct2;
  assert_that (negb (bool_decide (n1 = n2))).

Definition v8_ciphertext_length_is_deterministic_across_varied_aad (d : Z → key_draws) : test unit :=
  lengths ← collect (λ i,
    key ← new_v8_key (d i);
    let aad := as_bytes (str "aad-" ++ display i) in
    ct ← unwrap_ok (encrypt_bytes_v8 (str "fixed target message") key.1 key.2 aad);
    Ok (Z.of_nat (length ct))) (seqZ 0 50);
  assert_eq (distinct lengths) 1%nat.

Definition v8_frame_profile_hides_length_and_round_trips (d : key_draws) : test unit :=
  key ← new_v8_key d;
  let '(primes, sk) := key in
  let plain := str "short" in
  default_ct ← unwrap_ok (encrypt_bytes_v8 plain primes sk []);
  bucket_ct ← unwrap_ok (encrypt_bytes_v8_with_profile plain primes sk [] Bucket);
  _ ← assert_eq default_ct bucket_ct;
  framed_lengths ← collect (λ n,
    let msg := replicate n 97 in
    ct ← unwrap_ok (encrypt_bytes_v8_with_profile msg primes sk [] (Frame 512));
    pt ← unwrap_ok (decrypt_bytes_v8 ct primes sk []);
    _ ← assert_eq pt msg;
    Ok (Z.of_nat (length ct))) [1; 5; 40; 200; 511]%nat;
  _ ← assert_eq (distinct framed_lengths) 1%nat;
  bucket_lengths ← collect (λ n,
    let msg := replicate n 97 in
    ct ← unwrap_ok (encrypt_bytes_v8 msg primes sk []);
    Ok (Z.of_nat (length ct))) [1; 5; 40; 200; 511]%nat;
  assert_that (bool_decide (1 < distinct bucket_lengths)%nat).

Definition v8_frame_profile_rejects_oversized_message (d : key_draws) : test unit :=
  key ← new_v8_key d;
  let msg := replicate 600 97 in
  assert_err (encrypt_bytes_v8_with_profile msg key.1 key.2 [] (Frame 512)).

Definition v8_illegal_length_is_rejected_before_the_tag (d : key_draws) : test unit :=
  key ← new_v8_key d;
  err_contains error_text "padding ceiling"
    (decrypt_bytes_v8 (replicate (NONCE_SIZE + TAG_SIZE + 8) x00) key.1 key.2 []).

(** ** The v8 stream *)

Section streams.
(** The nonce drawn and the generator's state. *)
Context (draw : list byte) (s : crng_state).

(** Encrypt in frames of [f], decrypt, compare. *)
Definition stream_round_trip (msg primes : list Z) (sk aad : list byte) (f : Z) : test unit :=
  ct ← unwrap_ok (encrypt_stream_ae_v8 msg primes sk aad f draw s).1;
  pt ← unwrap_ok (decrypt_stream_ae_v8 ct primes sk aad);
  assert_eq pt msg.

Definition stream_v8_roundtrip_basic (d : key_draws) : test unit :=
  key ← new_v8_key d; stream_round_trip (str "hello, streaming AE v8!") key.1 key.2 [] 8.

Definition stream_v8_empty_roundtrip (d : key_draws) : test unit :=
  key ← new_v8_key d;
  ct ← unwrap_ok (encrypt_stream_ae_v8 [] key.1 key.2 [] 8 draw s).1;
  _ ← assert_eq (length ct) (21 + 44)%nat;
  pt ← unwrap_ok (decrypt_stream_ae_v8 ct key.1 key.2 []);
  assert_eq pt [].

Definition stream_v8_partial_last_chunk_filler_dropped (d : key_draws) : test unit :=
  key ← new_v8_key d; stream_round_trip (replicate 11 65) key.1 key.2 [] 8.

Definition stream_v8_wrong_sk_fails (d : key_draws) : test unit :=
  key ← new_v8_key d;
  wrong_sk ← update 0 (flip x01) key.2;
  ct ← unwrap_ok (encrypt_stream_ae_v8 (str "secret") key.1 key.2 [] 8 draw s).1;
  assert_err (decrypt_stream_ae_v8 ct key.1 wrong_sk []).

Definition stream_v8_aad_mismatch_fails (d : key_draws) : test unit :=
  key ← new_v8_key d;
  ct ← unwrap_ok (encrypt_stream_ae_v8 (str "aad") key.1 key.2 (bstr "right") 8 draw s).1;
  assert_err (decrypt_stream_ae_v8 ct key.1 key.2 (bstr "wrong")).

Definition stream_v8_tamper_chunk_body_fails (d : key_draws) : test unit :=
  key ← new_v8_key d;
  ct ← unwrap_ok (encrypt_stream_ae_v8 (str "tamper") key.1 key.2 [] 8 draw s).1;
  ct ← update (21 + 4 + 3) (flip xff) ct;
  assert_err (decrypt_stream_ae_v8 ct key.1 key.2 []).

Definition stream_v8_tamper_sentinel_fails (d : key_draws) : test unit :=
  key ← new_v8_key d;
  ct ← unwrap_ok (encrypt_stream_ae_v8 (str "sentinel") key.1 key.2 [] 8 draw s).1;
  last ← Z.of_nat (length ct) -! 1;
  ct ← update (Z.to_nat last) (flip x01) ct;
  assert_err (decrypt_stream_ae_v8 ct key.1 key.2 []).

Definition stream_v8_truncated_before_sentinel_fails (d : key_draws) : test unit :=
  key ← new_v8_key d;
  ct ← unwrap_ok (encrypt_stream_ae_v8 (str "truncme") key.1 key.2 [] 8 draw s).1;
  l ← Z.of_nat (length ct) -! 44;
  truncated ← index_range 0 (Z.to_nat l) ct;
  assert_err (decrypt_stream_ae_v8 truncated key.1 key.2 []).

(** The first two of four frames change places. *)
Definition stream_v8_reorder_fails (d : key_draws) : test unit :=
  key ← new_v8_key d;
  let msg := str "ABCDEFGHIJKLMNOP" in
  let f := 4 in
  ct ← unwrap_ok (encrypt_stream_ae_v8 msg key.1 key.2 [] f draw s).1;
  let frame_len := (4 + Z.to_nat f * 160 + TAG_SIZE)%nat in
  let hdr := 21%nat in
  frame0 ← index_range hdr (hdr + frame_len) ct;
  frame1 ← index_range (hdr + frame_len) (hdr + frame_len + frame_len) ct;
  let swapped := take hdr ct ++ frame1 ++ frame0 ++ drop (hdr + frame_len + frame_len) ct in
  assert_err (decrypt_stream_ae_v8 swapped key.1 key.2 []).

Definition stream_v8_wrong_format_id_fails (d : key_draws) : test unit :=
  key ← new_v8_key d;
  ct ← unwrap_ok (encrypt_stream_ae_v8 (str "x") key.1 key.2 [] 8 draw s).1;
  ct ← update 0 (λ _, x01) ct;
  assert_err (decrypt_stream_ae_v8 ct key.1 key.2 []).

Definition stream_v8_empty_stream_header_is_authenticated (d : key_draws) : test unit :=
  key ← new_v8_key d;
  ct ← unwrap_ok (encrypt_stream_ae_v8 [] key.1 key.2 [] 8 draw s).1;
  pt ← unwrap_ok (decrypt_stream_ae_v8 ct key.1 key.2 []);
  _ ← assert_eq pt [];
  ct ← copy_from_slice 1 5 (to_be_bytes 4 9) ct;
  err_contains error_text "Authentication failed" (decrypt_stream_ae_v8 ct key.1 key.2 []).

Definition stream_v8_frame_out_of_range_rejected (d : key_draws) : test unit :=
  key ← new_v8_key d;
  _ ← assert_err (encrypt_stream_ae_v8 (str "x") key.1 key.2 [] 0 draw s).1;
  assert_err (encrypt_stream_ae_v8 (str "x") key.1 key.2 [] (STREAM_AE_V8_MAX_FRAME + 1) draw s).1.

(** [for c in msg.chars() { if let Some(frame) = enc.push(c).unwrap() { ct.extend(frame) } }], then [finish]. *)
Definition push_and_finish (msg : list Z) (enc : StreamV8Encryptor) (header : list byte) : test (list byte) :=
  pushed ← unwrap_ok (push_all msg enc);
  sentinel ← unwrap_ok (finish pushed.2);
  Ok (header ++ pushed.1 ++ sentinel).

Definition stream_v8_encryptor_struct_matches_all_at_once (d : key_draws) : test unit :=
  key ← new_v8_key d;
  let msg := str "chunk-by-chunk vs all-at-once" in
  new ← unwrap_ok (encryptor_new key.1 key.2 [] 8 draw s).1;
  ct ← push_and_finish msg new.1 new.2;
  pt ← unwrap_ok (decrypt_stream_ae_v8 ct key.1 key.2 []);
  assert_eq pt msg.

(** [draw2]: the nonce of the second encryption. *)
Definition v5_29_stream_key_variants_roundtrip (d : key_draws) (draw2 : list byte) : test unit :=
  key ← new_key d;
  let msg := str "stream via NapqesKey" in
  let '(r, s2) := encrypt_stream_ae_v8_key msg key (bstr "a") 4 draw s in
  ct ← unwrap_ok r;
  pt ← unwrap_ok (decrypt_stream_ae_v8_key ct key (bstr "a"));
  _ ← assert_eq pt msg;
  pt ← unwrap_ok (decrypt_stream_ae_v8 ct (primes key) (sk key) (bstr "a"));
  _ ← assert_eq pt msg;
  new ← unwrap_ok (encryptor_new_key key (bstr "a") 4 draw2 s2).1;
  out ← push_and_finish (str "incremental") new.1 new.2;
  pt ← unwrap_ok (decrypt_stream_ae_v8_key out key (bstr "a"));
  assert_eq pt (str "incremental").

Definition forge_stream_sentinel (ct sk aad : list byte) (chunks total : Z) : test (list byte) :=
  let n := Z.of_nat (length ct) in
  fb ← index_range 1 5 ct;
  let f := from_be_bytes fb in
  nonce ← index_range 5 (5 + NONCE_SIZE) ct;
  let sk_fmt := derive_format_subkey sk FORMAT_STREAM_AE_V8 in
  tag ← unwrap_ok (compute_stream_v8_sentinel_tag sk_fmt f nonce chunks aad total);
  let masked := Z.lxor total (stream_v8_count_mask sk_fmt f nonce chunks) in
  tag_at ← n -! Z.of_nat TAG_SIZE;
  count_at ← tag_at -! 8;
  ct ← copy_from_slice (Z.to_nat count_at) (Z.to_nat tag_at) (to_be_bytes 8 masked) ct;
  copy_from_slice (Z.to_nat tag_at) (length ct) tag ct.

Definition forged_sentinel_rejected (total : Z) (d : key_draws) : test unit :=
  key ← new_v8_key d;
  ct ← unwrap_ok (encrypt_stream_ae_v8 (str "abcdef") key.1 key.2 (bstr "x") 2 draw s).1;
  ct ← forge_stream_sentinel ct key.2 (bstr "x") 3 total;
  err_contains error_text "Malformed v8 stream sentinel" (decrypt_stream_ae_v8 ct key.1 key.2 (bstr "x")).

Definition stream_sentinel_total_below_delivered_is_rejected : key_draws → test unit := forged_sentinel_rejected 1.
Definition stream_sentinel_dropping_final_chunk_is_rejected : key_draws → test unit := forged_sentinel_rejected 4.
End streams.

Definition stream_v8_deterministic_with_injected_nonce : test unit :=
  let sk := replicate SK_SIZE x11 in
  let nonce := replicate NONCE_SIZE x22 in
  a ← unwrap_ok (encrypt_stream_ae_v8_with_nonce (str "hello v8!") kat_primes sk nonce (bstr "aad") 8);
  b ← unwrap_ok (encrypt_stream_ae_v8_with_nonce (str "hello v8!") kat_primes sk nonce (bstr "aad") 8);
  _ ← assert_eq a b;
  pt ← unwrap_ok (decrypt_stream_ae_v8 a kat_primes sk (bstr "aad"));
  assert_eq pt (str "hello v8!").

(** [ct[ct.len() - TAG_SIZE - 8..ct.len() - TAG_SIZE]]. *)
Definition count_field (ct : list byte) : test (list byte) :=
  tag_at ← Z.of_nat (length ct) -! Z.of_nat TAG_SIZE;
  count_at ← tag_at -! 8;
  index_range (Z.to_nat count_at) (Z.to_nat tag_at) ct.

Definition stream_v8_length_is_function_of_f_only (d : key_draws) : test unit :=
  key ← new_v8_key d;
  let nonce := replicate NONCE_SIZE x42 in
  a ← unwrap_ok (encrypt_stream_ae_v8_with_nonce (replicate 17 65) key.1 key.2 nonce [] 16);
  b ← unwrap_ok (encrypt_stream_ae_v8_with_nonce (replicate 31 66) key.1 key.2 nonce [] 16);
  _ ← assert_eq (length a) (length b);
  ca ← count_field a;
  cb ← count_field b;
  _ ← assert_that (negb (bool_decide (ca = to_be_bytes 8 17)));
  _ ← assert_that (negb (bool_decide (cb = to_be_bytes 8 31)));
  let xa := u64_from_be8 ca in
  let xb := u64_from_be8 cb in
  _ ← assert_eq (Z.lxor xa xb) (Z.lxor 17 31);
  pt ← unwrap_ok (decrypt_stream_ae_v8 a key.1 key.2 []);
  assert_eq pt (replicate 17 65).
End cipher_tests.

(** ** What the draws must give *)

(** Candidates of the interval, 32 bytes, and enough primes within the draw budget. *)
Definition good_draws `{Gate} (d : key_draws) : Prop :=
  (∀ i, MIN_KEY_PRIME ≤ candidates d i ≤ MAX_KEY_PRIME) ∧ length (sk_fill d) = SK_SIZE ∧
  is_ok (generate_prime_numbers (candidates d) DEFAULT_KEY_COUNT MIN_KEY_PRIME MAX_KEY_PRIME) = true.

(** A nonce the continuous test of the generator lets pass. *)
Definition fresh_draw (draw : list byte) (s : crng_state) : Prop :=
  length draw = NONCE_SIZE ∧ prev_nonce s ≠ Some draw.

Lemma for_in_or {A} (body : A → test unit) (C : Prop) l :
  Forall (λ x, body x = Ok tt ∨ C) l → for_in body l = Ok tt ∨ C.
Proof.
  induction 1 as [|x l [Hx|Hc] _ [IH|Hc']]; [by left|left|by right..].
  cbn [for_in]. by rewrite Hx, bind_Ok.
Qed.

Section results.
Context `{Crypto} `{Gate} `{Base64} (Hgate : gate_open) (base64_error : list Z).

Lemma draws_primes d count : (∀ i, MIN_KEY_PRIME ≤ candidates d i ≤ MAX_KEY_PRIME) → 0 ≤ count →
  is_ok (generate_prime_numbers (candidates d) count MIN_KEY_PRIME MAX_KEY_PRIME) = true →
  ∃ ps, generate_prime_numbers (candidates d) count MIN_KEY_PRIME MAX_KEY_PRIME = Ok ps ∧
    valid_key ps ∧ Z.of_nat (length ps) = count ∧ NoDup ps.
Proof using Hgate.
  intros Hr Hpos Hok. unfold MIN_KEY_PRIME, MAX_KEY_PRIME in *.
  pose proof (generate_prime_numbers_cases (candidates d) count 1000000 14999999 Hgate ltac:(lia) ltac:(lia) ltac:(lia) Hr) as Hc.
  destruct (generate_prime_numbers _ _ _ _) as [ps|e|p]; [|done..].
  destruct Hc as (a & _ & -> & Hl & Hcount). destruct (distinct_primes_spec (drawn (candidates d) a)) as [Hnd Hall].
  eexists. split; [done|]. split; [|done]. unfold valid_key, MAX_KEY_ELEMENTS, MIN_KEY_PRIME, MAX_KEY_PRIME in *. split_and!; [|lia| |done].
  - intros Hn. rewrite Hn in Hl. cbn [length] in Hl. lia.
  - eapply Forall_impl; [exact Hall|]. intros k [Hk Hp]. split; [|done].
    apply list_elem_of_fmap in Hk as (i & -> & _). apply Hr.
Qed.

Lemma good_draws_primes d : good_draws d →
  ∃ ps, generate_prime_numbers (candidates d) DEFAULT_KEY_COUNT MIN_KEY_PRIME MAX_KEY_PRIME = Ok ps ∧
    valid_key ps ∧ Z.of_nat (length ps) = DEFAULT_KEY_COUNT ∧ NoDup ps.
Proof using Hgate. intros (Hr & _ & Hok). by apply draws_primes. Qed.

Lemma new_v8_key_Ok d : good_draws d →
  ∃ ps, new_v8_key d = Ok (ps, sk_fill d) ∧ valid_key ps ∧ Z.of_nat (length ps) = DEFAULT_KEY_COUNT.
Proof using Hgate.
  intros Hd. destruct (good_draws_primes d Hd) as (ps & Hps & Hv & Hl & _). exists ps. split; [|done].
  unfold new_v8_key, generate_v8_key. by rewrite Hgate, bind_Ok, Hps.
Qed.

Lemma NapqesKey_generate_Ok d : good_draws d →
  ∃ ps, NapqesKey_generate (candidates d) (sk_fill d) = Ok (MkNapqesKey ps (sk_fill d)) ∧ valid_key ps ∧
    Z.of_nat (length ps) = DEFAULT_KEY_COUNT.
Proof using Hgate.
  intros Hd. destruct (new_v8_key_Ok d Hd) as (ps & Hk & Hv & Hl). exists ps. split; [|done].
  unfold new_v8_key in Hk. apply (proj1 (unwrap_ok_Ok _ _)) in Hk. unfold NapqesKey_generate, NapqesKey_new. rewrite Hk, bind_Ok. cbn [fst snd].
  by rewrite validate_key_valid.
Qed.

Lemma new_key_Ok d : good_draws d →
  ∃ ps, new_key d = Ok (MkNapqesKey ps (sk_fill d)) ∧ valid_key ps ∧ Z.of_nat (length ps) = DEFAULT_KEY_COUNT.
Proof using Hgate.
  intros Hd. destruct (NapqesKey_generate_Ok d Hd) as (ps & Hk & Hv). exists ps. split; [|done].
  unfold new_key. by rewrite Hk.
Qed.

(** ** Key generation *)

Lemma generated_valid ps : valid_key ps → Z.of_nat (length ps) = DEFAULT_KEY_COUNT → generated_key_is_valid ps = Ok tt.
Proof using Type.
  intros (_ & _ & Hall & Hnd) Hl. unfold generated_key_is_valid, assert_eq.
  rewrite (bool_decide_eq_true_2 (Z.of_nat (length ps) = DEFAULT_KEY_COUNT)) by done. cbn [assert_that]. rewrite bind_Ok.
  assert (for_in (λ p, b ← is_prime p; _ ← assert_that b;
    assert_that ((MIN_KEY_PRIME <=? p) && (p <=? MAX_KEY_PRIME))) ps = Ok tt) as ->.
  { apply for_in_Ok. eapply Forall_impl; [exact Hall|]. intros k [Hk Hp]. unfold MIN_KEY_PRIME, MAX_KEY_PRIME in *.
    rewrite is_prime_spec, bind_Ok by (unfold fits; lia). rewrite bool_decide_eq_true_2 by done.
    cbn [assert_that]. rewrite bind_Ok. rewrite (proj2 (Z.leb_le _ _)) by lia. by rewrite (proj2 (Z.leb_le _ _)) by lia. }
  rewrite bind_Ok, size_list_to_set by done. by rewrite bool_decide_eq_true_2.
Qed.

Lemma keygen_tests_pass d dd narrow : good_draws d → (∀ i, good_draws (dd i)) → (∀ i, 24 ≤ narrow i ≤ 28) →
  Forall (λ t, t = Ok tt) [primes_are_prime d; generate_prime_numbers_output_passes_validate_key dd;
    cvf20_keygen_reports_errors_instead_of_panicking narrow d; napqeskey_constructor_validates d].
Proof using Hgate.
  intros Hd Hdd Hnarrow. repeat apply Forall_cons_2; [..|constructor].
  - unfold primes_are_prime, new_primes. destruct (good_draws_primes d Hd) as (ps & -> & Hv & Hl & _).
    cbn [unwrap_ok]. rewrite bind_Ok. by apply generated_valid.
  - apply for_in_Ok, Forall_forall. intros i _. unfold new_primes.
    destruct (good_draws_primes (dd i) (Hdd i)) as (ps & -> & Hv & Hl & _).
    cbn [unwrap_ok]. rewrite bind_Ok, generated_valid, bind_Ok by done. by rewrite validate_key_valid.
  - unfold cvf20_keygen_reports_errors_instead_of_panicking.
    assert (generate_prime_numbers (candidates d) 1 10 10 = Err (KeygenEmptyRange 10 10)) as ->
      by (unfold generate_prime_numbers; by rewrite Hgate).
    assert (generate_v8_key (candidates d) (sk_fill d) 1 2 100 = Err (KeygenOutsideInterval 2 100)) as ->
      by (unfold generate_v8_key; by rewrite Hgate).
    assert (∃ e, generate_v8_key (candidates d) (sk_fill d) DEFAULT_KEY_COUNT MIN_KEY_PRIME (MAX_KEY_PRIME + 1) = Err e) as [e ->]
      by (unfold generate_v8_key; rewrite Hgate; by eexists).
    destruct (NapqesKey_generate_Ok d Hd) as (ps & -> & _).
    pose proof (generate_prime_numbers_cases narrow 1 24 28 Hgate ltac:(lia) ltac:(lia) ltac:(lia) Hnarrow) as Hc.
    destruct (generate_prime_numbers narrow 1 24 28) as [qs|e'|p]; [exfalso|done|done].
    { destruct Hc as (a & _ & -> & Hl & _). destruct (distinct_primes_spec (drawn narrow a)) as [_ Hall].
      destruct (distinct_primes _) as [|k l]; [done|]. inversion_clear Hall as [|? ? [Hk Hp] _].
      apply list_elem_of_fmap in Hk as (i & -> & _). specialize (Hnarrow i).
      assert (narrow i = 24 ∨ narrow i = 25 ∨ narrow i = 26 ∨ narrow i = 27 ∨ narrow i = 28) as Hor by lia.
      destruct Hor as [Hk|[Hk|[Hk|[Hk|Hk]]]]; rewrite Hk in Hp;
        [apply (not_prime_of_divisor _ 2) in Hp|apply (not_prime_of_divisor _ 5) in Hp|apply (not_prime_of_divisor _ 2) in Hp
        |apply (not_prime_of_divisor _ 3) in Hp|apply (not_prime_of_divisor _ 2) in Hp]; try done;
        [by exists 12|by exists 5|by exists 13|by exists 9|by exists 14]. }
  - unfold napqeskey_constructor_validates. destruct (new_key_Ok d Hd) as (ps & -> & Hv & Hl). rewrite bind_Ok.
    unfold assert_eq, NapqesKey_k. cbn [primes sk]. rewrite !(bool_decide_eq_true_2 (Z.of_nat (length ps) = DEFAULT_KEY_COUNT)) by done. cbn [assert_that].
    rewrite !bind_Ok. destruct Hd as (_ & Hs & _). by rewrite Hs.
Qed.

(** The largest key needs draws that give as many primes. *)
Lemma count_limits_test_passes d : good_draws d →
  is_ok (generate_prime_numbers (candidates d) MAX_KEY_ELEMENTS MIN_KEY_PRIME MAX_KEY_PRIME) = true →
  v5_14_keygen_rejects_zero_and_oversized_count d = Ok tt.
Proof using Hgate.
  intros (Hr & _) Hok. unfold v5_14_keygen_rejects_zero_and_oversized_count.
  assert (∀ count, (count =? 0) || (MAX_KEY_ELEMENTS <? count) = true →
    generate_prime_numbers (candidates d) count MIN_KEY_PRIME MAX_KEY_PRIME = Err (KeygenBadCount count)) as Hbad
    by (intros count Hb; unfold generate_prime_numbers; by rewrite Hgate, bind_Ok, Hb).
  assert (∀ count, (count =? 0) || (MAX_KEY_ELEMENTS <? count) = true →
    generate_v8_key (candidates d) (sk_fill d) count MIN_KEY_PRIME MAX_KEY_PRIME = Err (KeygenBadCount count)) as Hbad8
    by (intros count Hb; unfold generate_v8_key; by rewrite Hgate, bind_Ok, Hbad).
  rewrite (Hbad 0), (Hbad (MAX_KEY_ELEMENTS + 1)), (Hbad8 0), (Hbad8 (MAX_KEY_ELEMENTS + 1)) by done. destruct (draws_primes d MAX_KEY_ELEMENTS Hr ltac:(done) Hok) as (ps & -> & Hv & _).
  cbn [assert_err assert is_err assert_that unwrap_ok]. rewrite !bind_Ok. unfold assert_ok. by rewrite validate_key_valid.
Qed.
End results.

(** ** Block ciphertexts *)

Section v8_results.
Context `{Crypto} `{Gate} (Hgate : gate_open) (base64_error : list Z).

(** An accepted message: its ciphertext, of the length of its block, decrypts to it. *)
Lemma v8_encrypts msg primes sk aad p B : valid_key primes → str_ok msg → profile_fits p →
  block_size p (Z.of_nat (length msg)) = Ok B →
  ∃ ct, encrypt_bytes_v8_with_profile msg primes sk aad p = Ok ct ∧ Z.of_nat (length ct) = 48 + 160 * (B + 2) ∧
    decrypt_bytes_v8 ct primes sk aad = Ok msg.
Proof using Hgate.
  intros Hkey Hmsg Hp HB. unfold encrypt_bytes_v8_with_profile, decrypt_bytes_v8.
  rewrite Hgate, validate_key_valid, !bind_Ok by done.
  destruct (encrypt_inner_Ok primes (valid_key_arith _ Hkey) (derive_format_subkey sk FORMAT_BLOCK_V8) msg aad p B Hmsg Hp HB)
    as (nonce & masked & He & _).
  pose proof (encrypt_core_cases primes (valid_key_arith _ Hkey) sk msg aad p Hmsg Hp) as Hc. cbv zeta in Hc.
  unfold encrypt_bytes_v8_core in *. rewrite He in Hc |- *. destruct Hc as (B' & HB' & Hl & Hd).
  rewrite HB in HB'. injection HB' as <-. eexists. split; [done|]. split; [done|]. by rewrite !bind_Ok.
Qed.

Lemma v8_round_trip_passes msg primes sk aad B : valid_key primes → str_ok msg →
  block_size Bucket (Z.of_nat (length msg)) = Ok B → v8_round_trip msg primes sk aad = Ok tt.
Proof using Hgate.
  intros Hkey Hmsg HB. destruct (v8_encrypts msg primes sk aad Bucket B Hkey Hmsg I HB) as (ct & He & _ & Hd).
  unfold v8_round_trip, encrypt_bytes_v8. rewrite He. cbn [unwrap_ok]. rewrite bind_Ok, Hd. cbn [unwrap_ok].
  rewrite bind_Ok. unfold assert_eq. by rewrite bool_decide_eq_true_2.
Qed.

Lemma crate_test_key_valid : valid_key crate_test_key.
Proof using Type. apply validated_key; [repeat constructor; unfold fits; lia|vm_compute; reflexivity]. Qed.

(** A ciphertext of the test key: its parts. *)
Lemma v8_sealed msg aad : str_ok msg → Z.of_nat (length msg) < 16 →
  let sk_fmt := derive_format_subkey test_sk FORMAT_BLOCK_V8 in
  ∃ nonce masked, encrypt_bytes_v8 msg crate_test_key test_sk aad
      = Ok ((nonce ++ masked) ++ hmac_digest sk_fmt (auth_input nonce aad masked)) ∧
    length nonce = NONCE_SIZE ∧ length masked = 2880%nat.
Proof using Hgate.
  intros Hmsg Hl sk_fmt.
  pose proof crate_test_key_valid as Hkey.
  assert (block_size Bucket (Z.of_nat (length msg)) = Ok 16) as HB.
  { do 16 (destruct msg as [|? msg]; [reflexivity|]). simpl length in Hl. lia. }
  destruct (encrypt_inner_Ok crate_test_key (valid_key_arith _ Hkey) sk_fmt msg aad Bucket 16 Hmsg I HB)
    as (nonce & masked & He & Hn & Hm & _).
  exists nonce, masked. unfold encrypt_bytes_v8, encrypt_bytes_v8_with_profile, encrypt_bytes_v8_core.
  rewrite Hgate, validate_key_valid, !bind_Ok by done. fold sk_fmt. rewrite He. split; [done|]. split; [done|]. lia.
Qed.

(** Other bytes under the same tag are refused, unless what the tag covers in the two collides. *)
Lemma v8_altered nonce masked nonce' masked' aad aad' :
  let sk_fmt := derive_format_subkey test_sk FORMAT_BLOCK_V8 in
  length nonce = NONCE_SIZE → length nonce' = NONCE_SIZE → length masked = 2880%nat → length masked' = 2880%nat →
  fits 64 (Z.of_nat (length aad)) → fits 64 (Z.of_nat (length aad')) → (nonce', aad', masked') ≠ (nonce, aad, masked) →
  decrypt_bytes_v8 ((nonce' ++ masked') ++ hmac_digest sk_fmt (auth_input nonce aad masked)) crate_test_key test_sk aad'
    = Err AuthenticationFailed ∨ collides sk_fmt (auth_input nonce aad masked) (auth_input nonce' aad' masked').
Proof using Hgate.
  intros sk_fmt Hn Hn' Hm Hm' Ha Ha' Hne.
  pose proof crate_test_key_valid as Hkey.
  destruct (decide (hmac_digest sk_fmt (auth_input nonce aad masked) = hmac_digest sk_fmt (auth_input nonce' aad' masked')))
    as [Heq|Hneq].
  - right. split; [|done].
    intros Hi. apply Hne. apply hmac_input_inj in Hi as (_ & -> & Hi); [|congruence].
    apply app_inj_1 in Hi as [Hl Hi]; [|by rewrite !length_to_be_bytes].
    apply to_be_bytes_inj in Hl; [|exact Ha|exact Ha']. by apply app_inj_1 in Hi as [-> ->]; [|lia].
  - left. unfold decrypt_bytes_v8. rewrite Hgate, validate_key_valid, !bind_Ok by done.
    apply decrypt_core_reject; try done; [by apply valid_key_arith|apply length_hmac_digest| |by rewrite Hm'].
    rewrite !length_app, Hn', Hm', length_hmac_digest. unfold NONCE_SIZE. lia.
Qed.

(** A string that is not the tag. *)
Lemma v8_wrong_tag nonce masked tag aad : let sk_fmt := derive_format_subkey test_sk FORMAT_BLOCK_V8 in
  length nonce = NONCE_SIZE → length masked = 2880%nat → length tag = TAG_SIZE →
  tag ≠ hmac_digest sk_fmt (auth_input nonce aad masked) →
  decrypt_bytes_v8 ((nonce ++ masked) ++ tag) crate_test_key test_sk aad = Err AuthenticationFailed.
Proof using Hgate.
  intros sk_fmt Hn Hm Ht Hne.
  pose proof crate_test_key_valid as Hkey.
  unfold decrypt_bytes_v8. rewrite Hgate, validate_key_valid, !bind_Ok by done.
  apply decrypt_core_reject; try done; [by apply valid_key_arith| |by rewrite Hm].
  rewrite !length_app, Hn, Hm, Ht. unfold NONCE_SIZE, TAG_SIZE. lia.
Qed.

Lemma v8_tamper_test_passes : v8_tamper_fails = Ok tt.
Proof using Hgate.
  unfold v8_tamper_fails.
  destruct (v8_sealed (str "secret") [] ltac:(repeat constructor) ltac:(done)) as (nonce & masked & -> & Hn & Hm).
  cbn [unwrap_ok]. rewrite bind_Ok. set (sk_fmt := derive_format_subkey _ _). set (tag := hmac_digest _ _).
  assert (length tag = 32%nat) as Ht by apply length_hmac_digest.
  destruct (exists_last (l:=tag)) as (front & z & Htag); [by intros Hn0; rewrite Hn0 in Ht|].
  assert (length (front ++ [z]) = 32%nat) as Hf by (by rewrite <-Htag). rewrite length_app in Hf. cbn [length] in Hf.
  bind_ok (apply checked_sub_Ok; rewrite !length_app; lia).
  replace (Z.to_nat (Z.of_nat (length ((nonce ++ masked) ++ tag)) - 1)) with (length ((nonce ++ masked) ++ front))
    by (rewrite Htag, !length_app; cbn [length]; lia).
  rewrite Htag at 1. rewrite (app_assoc _ front [z]), update_Ok, bind_Ok, <-(app_assoc _ front).
  rewrite v8_wrong_tag; [done|done|done|unfold TAG_SIZE; rewrite length_app; cbn [length]; lia|].
  fold sk_fmt. fold tag. rewrite Htag. intros Heq. apply app_inv_head in Heq. injection Heq as Heq. by apply (flip_changes z).
Qed.

Lemma v8_wrong_aad_test_result : let sk_fmt := derive_format_subkey test_sk FORMAT_BLOCK_V8 in
  ∃ ct, encrypt_bytes_v8 (str "secret") crate_test_key test_sk (bstr "good") = Ok ct ∧
    (v8_wrong_aad_fails = Ok tt ∨ collides sk_fmt (block_covered ct (bstr "good")) (block_covered ct (bstr "bad"))).
Proof using Hgate.
  intros sk_fmt. unfold v8_wrong_aad_fails.
  destruct (v8_sealed (str "secret") (bstr "good") ltac:(repeat constructor) ltac:(done)) as (nonce & masked & -> & Hn & Hm).
  eexists. split; [done|]. rewrite !block_covered_layout by (done || apply length_hmac_digest). cbn [unwrap_ok]. rewrite bind_Ok.
  destruct (v8_altered nonce masked nonce masked (bstr "good") (bstr "bad") Hn Hn Hm Hm ltac:(done) ltac:(done)) as [->|Hc];
    [|by left|by right].
  intros Heq. apply (f_equal (λ p, p.1.2)) in Heq. discriminate Heq.
Qed.

Lemma list_insert_ne {A} (l : list A) i x y : l !! i = Some x → x ≠ y → <[i := y]> l ≠ l.
Proof using Type. intros Hi Hne Heq. apply (f_equal (.!! i)) in Heq. rewrite list_lookup_insert_eq in Heq by (by eapply lookup_lt_Some). congruence. Qed.

Lemma alter_lookup {A} (f : A → A) (l : list A) (i : nat) x : l !! i = Some x → alter f i l = <[i := f x]> l.
Proof using Type.
  revert i. induction l as [|y l IH]; intros [|i] Hi; [done..|by injection Hi as ->|]. cbn. f_equal. by apply IH.
Qed.

Lemma v8_flipped_result nonce masked i : let sk_fmt := derive_format_subkey test_sk FORMAT_BLOCK_V8 in
  length nonce = NONCE_SIZE → length masked = 2880%nat → (i < 2896)%nat →
  let ct := (nonce ++ masked) ++ hmac_digest sk_fmt (auth_input nonce [] masked) in
  v8_byte_flipped base64_error ct i = Ok tt ∨
  collides sk_fmt (block_covered ct []) (block_covered (alter (flip x01) i ct) []).
Proof using Hgate.
  intros sk_fmt Hn Hm Hi ct. subst ct. unfold v8_byte_flipped, update. set (tag := hmac_digest _ _).
  assert (length (nonce ++ masked) = 2896%nat) as Hl by (rewrite length_app, Hn, Hm; done).
  destruct (lookup_lt_is_Some_2 (nonce ++ masked) i ltac:(lia)) as [b Hb].
  rewrite lookup_app_l, Hb by lia. cbn [expect]. rewrite !bind_Ok, alter_app_l, insert_app_l by lia.
  rewrite (alter_lookup _ _ _ _ Hb).
  set (payload' := <[i := flip x01 b]> (nonce ++ masked)).
  assert (length payload' = 2896%nat) as Hl' by (unfold payload'; by rewrite length_insert).
  assert (payload' ≠ nonce ++ masked) as Hne.
  { apply (list_insert_ne _ _ b); [done|]. intros Heq. by apply (flip_changes b). }
  rewrite <-(take_drop 16 payload') in Hne |- *.
  assert (length tag = TAG_SIZE) as Ht by apply length_hmac_digest.
  assert (length (take 16 payload') = NONCE_SIZE) as Hn' by (rewrite length_take; unfold NONCE_SIZE; lia).
  rewrite !block_covered_layout by done.
  destruct (v8_altered nonce masked (take 16 payload') (drop 16 payload') [] [] Hn Hn') as [Hr|Hc];
    [done|rewrite length_drop; lia|done|done| | |by right].
  - intros Heq. apply Hne. by injection Heq as -> ->.
  - left. unfold tag, sk_fmt. rewrite Hr. vm_compute. reflexivity.
Qed.

Lemma v8_nonce_and_blob_test_result : let sk_fmt := derive_format_subkey test_sk FORMAT_BLOCK_V8 in
  ∃ ct, encrypt_bytes_v8 (str "secret") crate_test_key test_sk [] = Ok ct ∧
    (v8_nonce_and_blob_tamper_fail base64_error = Ok tt ∨
     ∃ i, i ∈ [0; 15; 16; 1464; 2895]%nat ∧
       collides sk_fmt (block_covered ct []) (block_covered (alter (flip x01) i ct) [])).
Proof using Hgate.
  intros sk_fmt. unfold v8_nonce_and_blob_tamper_fail.
  destruct (v8_sealed (str "secret") [] ltac:(repeat constructor) ltac:(done)) as (nonce & masked & -> & Hn & Hm).
  eexists. split; [done|]. cbn [unwrap_ok]. rewrite bind_Ok. fold sk_fmt. set (ct := _ ++ hmac_digest _ _).
  assert (length ct = 2928%nat) as Hl.
  { unfold ct. rewrite !length_app, Hn, Hm, length_hmac_digest. done. }
  rewrite Hl. bind_ok (apply checked_sub_Ok; unfold TAG_SIZE; lia). bind_ok (apply checked_sub_Ok; unfold TAG_SIZE; lia).
  change [0; NONCE_SIZE - 1; NONCE_SIZE; 2928 / 2; Z.to_nat (Z.of_nat 2928 - Z.of_nat TAG_SIZE - 1)]%nat
    with [0; 15; 16; 1464; 2895]%nat.
  apply for_in_or, Forall_forall. intros i Hi.
  destruct (v8_flipped_result nonce masked i Hn Hm) as [?|?]; [|by left|right; by exists i].
  repeat (apply elem_of_cons in Hi as [->|Hi]; [vm_compute; lia|]). by apply elem_of_nil in Hi.
Qed.

Lemma assert_eq_refl {A} `{EqDecision A} (a : A) : assert_eq a a = Ok tt.
Proof using Type. unfold assert_eq. by rewrite bool_decide_eq_true_2. Qed.

Lemma v8_deterministic_test_passes : v8_same_message_is_deterministic = Ok tt.
Proof using Hgate.
  unfold v8_same_message_is_deterministic.
  destruct (v8_sealed (str "repeat me") (bstr "aad") ltac:(repeat constructor) ltac:(done)) as (nonce & masked & -> & _).
  cbn [unwrap_ok]. rewrite !bind_Ok. apply assert_eq_refl.
Qed.

(** Lengths collected from encryptions that all have the same one. *)
Lemma collect_same {A} (f : A → test Z) l n : l ≠ [] → (∀ x, x ∈ l → f x = Ok n) →
  ∃ lengths, collect f l = Ok lengths ∧ distinct lengths = 1%nat.
Proof using Type.
  intros Hne Hf. rewrite (collect_Ok f (λ _, n)) by done. eexists. split; [done|]. unfold distinct.
  assert (list_to_set (C:=gset Z) ((λ _ : A, n) <$> l) = {[n]}) as ->; [|apply size_singleton].
  apply set_eq. intros z. rewrite elem_of_list_to_set, elem_of_singleton, list_elem_of_fmap. split.
  - by intros (x & -> & _).
  - intros ->. destruct l as [|x l]; [done|]. exists x. split; [done|left].
Qed.

Context `{Base64}.

Lemma length_varied_aad_test_passes d : (∀ i, good_draws (d i)) →
  v8_ciphertext_length_is_deterministic_across_varied_aad d = Ok tt.
Proof using Hgate.
  intros Hd. unfold v8_ciphertext_length_is_deterministic_across_varied_aad.
  match goal with |- context [collect ?g (seqZ 0 50)] => set (f := g) end.
  destruct (collect_same f (seqZ 0 50) (48 + 160 * (32 + 2))) as (lengths & -> & Hn); [done| |by rewrite bind_Ok, Hn].
  intros i _. unfold f. destruct (new_v8_key_Ok Hgate (d i) (Hd i)) as (ps & -> & Hv & _). rewrite bind_Ok. cbv zeta. cbn [fst snd].
  destruct (v8_encrypts (str "fixed target message") ps (sk_fill (d i)) (as_bytes (str "aad-" ++ display i)) Bucket 32 Hv
    ltac:(repeat constructor) I eq_refl) as (ct & Hct & Hl & _).
  unfold encrypt_bytes_v8. rewrite Hct. cbn [unwrap_ok]. by rewrite bind_Ok, Hl.
Qed.

Lemma frame_profile_test_passes d : good_draws d → v8_frame_profile_hides_length_and_round_trips d = Ok tt.
Proof using Hgate.
  intros Hd. unfold v8_frame_profile_hides_length_and_round_trips.
  destruct (new_v8_key_Ok Hgate d Hd) as (ps & -> & Hv & _). rewrite bind_Ok. cbv zeta.
  assert (Hok : ∀ n, str_ok (replicate n 97)) by (intros n; by apply Forall_replicate).
  unfold encrypt_bytes_v8.
  destruct (v8_encrypts (str "short") ps (sk_fill d) [] Bucket 16 Hv ltac:(repeat constructor) I eq_refl) as (ct & -> & _).
  cbn [unwrap_ok]. rewrite !bind_Ok, assert_eq_refl, bind_Ok.
  match goal with |- context [framed_lengths ← collect ?g _; _] => set (f := g) end.
  destruct (collect_same f [1; 5; 40; 200; 511]%nat (48 + 160 * (512 + 2))) as (lengths & -> & Hl1); [done| |].
  { intros n Hn. unfold f. assert (block_size (Frame 512) (Z.of_nat (length (replicate n 97))) = Ok 512) as HB.
    { rewrite length_replicate. repeat (apply elem_of_cons in Hn as [->|Hn]; [reflexivity|]). by apply elem_of_nil in Hn. }
    destruct (v8_encrypts (replicate n 97) ps (sk_fill d) [] (Frame 512) 512 Hv (Hok n) ltac:(by unfold profile_fits, fits) HB)
      as (c & -> & Hl & Hdec).
    cbn [unwrap_ok]. rewrite bind_Ok, Hdec. cbn [unwrap_ok]. by rewrite bind_Ok, assert_eq_refl, bind_Ok, Hl. }
  rewrite bind_Ok, Hl1, assert_eq_refl, bind_Ok. clear f.
  match goal with |- context [collect ?h _] => set (g := h) end.
  assert (∀ n B, block_size Bucket (Z.of_nat n) = Ok B → g n = Ok (48 + 160 * (B + 2))) as Hg.
  { intros n B HB. unfold g.
    destruct (v8_encrypts (replicate n 97) ps (sk_fill d) [] Bucket B Hv (Hok n) I ltac:(by rewrite length_replicate)) as (c & -> & Hl & _).
    cbn [unwrap_ok]. by rewrite bind_Ok, Hl. }
  cbn [collect]. rewrite (Hg 1%nat 16), (Hg 5%nat 16), (Hg 40%nat 64), (Hg 200%nat 256), (Hg 511%nat 512) by reflexivity.
  vm_compute. reflexivity.
Qed.

(** The key entry points, on a key that has been checked. *)
Lemma v8_key_encrypts msg key aad B : valid_key (primes key) → str_ok msg →
  block_size Bucket (Z.of_nat (length msg)) = Ok B →
  ∃ ct, encrypt_bytes_v8_key msg key aad = Ok ct ∧ decrypt_bytes_v8_key ct key aad = Ok msg.
Proof using Hgate.
  intros Hv Hm HB. destruct (v8_encrypts msg (primes key) (sk key) aad Bucket B Hv Hm I HB) as (ct & He & _ & Hdec).
  unfold encrypt_bytes_v8_with_profile in He. unfold decrypt_bytes_v8 in Hdec. exists ct.
  unfold encrypt_bytes_v8_key, decrypt_bytes_v8_key. rewrite Hgate, validate_key_valid, !bind_Ok in He by done.
  rewrite Hgate, validate_key_valid, !bind_Ok in Hdec by done.
  by rewrite Hgate, !bind_Ok.
Qed.

Definition block_tests (d : key_draws) (dd : Z → key_draws) : list (test unit) :=
  [v8_roundtrip; cvf25_v8_roundtrip_first_non_ascii_codepoint d; cvf25_v8_roundtrip_bmp_above_0100 d;
   cvf25_v8_roundtrip_supplementary_plane d; cvf25_v8_roundtrip_mixed_codepoint_widths d;
   napqeskey_encrypt_decrypt_roundtrip_via_key_api d; v8_tamper_fails; v8_same_message_is_deterministic;
   v8_ciphertext_length_is_deterministic_across_varied_aad dd; v8_frame_profile_hides_length_and_round_trips d;
   v8_frame_profile_rejects_oversized_message d; v8_illegal_length_is_rejected_before_the_tag base64_error d].

Lemma block_tests_pass d dd : good_draws d → (∀ i, good_draws (dd i)) → Forall (λ t, t = Ok tt) (block_tests d dd).
Proof using Hgate.
  intros Hd Hdd. destruct (new_v8_key_Ok Hgate d Hd) as (ps & Hk & Hv & _).
  repeat apply Forall_cons_2; [..|constructor].
  - apply (v8_round_trip_passes _ _ _ _ 64); [apply crate_test_key_valid|repeat constructor|reflexivity].
  - unfold cvf25_v8_roundtrip_first_non_ascii_codepoint. rewrite Hk, bind_Ok.
    apply (v8_round_trip_passes _ _ _ _ 16); [done|repeat constructor|reflexivity].
  - unfold cvf25_v8_roundtrip_bmp_above_0100. rewrite Hk, bind_Ok.
    apply (v8_round_trip_passes _ _ _ _ 16); [done|repeat constructor|reflexivity].
  - unfold cvf25_v8_roundtrip_supplementary_plane. rewrite Hk, bind_Ok.
    apply (v8_round_trip_passes _ _ _ _ 16); [done|repeat constructor|reflexivity].
  - unfold cvf25_v8_roundtrip_mixed_codepoint_widths. rewrite Hk, bind_Ok.
    apply (v8_round_trip_passes _ _ _ _ 16); [done|repeat constructor|reflexivity].
  - unfold napqeskey_encrypt_decrypt_roundtrip_via_key_api. destruct (new_key_Ok Hgate d Hd) as (qs & -> & Hq & _).
    rewrite bind_Ok. cbv zeta.
    destruct (v8_key_encrypts (str "hello via NapqesKey") (MkNapqesKey qs (sk_fill d)) (bstr "aad") 32 Hq ltac:(repeat constructor) eq_refl)
      as (ct & -> & Hdec). cbn [unwrap_ok]. rewrite bind_Ok, Hdec. cbn [unwrap_ok]. rewrite bind_Ok. apply assert_eq_refl.
  - apply v8_tamper_test_passes.
  - apply v8_deterministic_test_passes.
  - by apply length_varied_aad_test_passes.
  - by apply frame_profile_test_passes.
  - unfold v8_frame_profile_rejects_oversized_message. rewrite Hk, bind_Ok. cbv zeta. cbn [fst snd].
    assert (str_ok (replicate 600 97)) as Hs by (by apply Forall_replicate).
    pose proof (encrypt_core_cases ps (valid_key_arith _ Hv) (sk_fill d) (replicate 600 97) [] (Frame 512) Hs ltac:(by unfold profile_fits, fits)) as Hc.
    cbv zeta in Hc. unfold encrypt_bytes_v8_with_profile. rewrite Hgate, validate_key_valid, !bind_Ok by done.
    destruct (encrypt_bytes_v8_core _ _ _ _ _) as [c|e|]; [|done|done].
    destruct Hc as (B & HB & _). discriminate HB.
  - unfold v8_illegal_length_is_rejected_before_the_tag. rewrite Hk, bind_Ok. cbn [fst snd].
    unfold decrypt_bytes_v8. rewrite Hgate, validate_key_valid, !bind_Ok by done. vm_compute. reflexivity.
Qed.
End v8_results.

(** ** Streams *)

Section stream_results.
Context `{Crypto} `{Gate} `{Base64} (Hgate : gate_open) (base64_error : list Z).

(** A short message under a fresh nonce: its stream and what it decrypts to. *)
Lemma stream_encrypts msg primes sk aad f draw s : valid_key primes → 1 ≤ f ≤ STREAM_AE_V8_MAX_FRAME →
  fresh_draw draw s → str_ok msg → Z.of_nat (length msg) < 2 ^ 32 →
  ∃ ct C, encrypt_stream_ae_v8_with_nonce msg primes sk draw aad f = Ok ct ∧
    encrypt_stream_ae_v8 msg primes sk aad f draw s = (Ok ct, MkCrng (Some draw) (module_state s)) ∧
    decrypt_stream_ae_v8 ct primes sk aad = Ok msg ∧ canonical_count f C (Z.of_nat (length msg)) ∧
    Z.of_nat (length ct) = 65 + (160 * f + 36) * C.
Proof using Hgate.
  intros Hkey Hf [Hd Hfresh] Hs Hn.
  pose proof (stream_encrypt_decrypt_cases msg primes sk draw aad f Hgate Hkey Hf Hd Hs ltac:(lia)) as Hc. cbv zeta in Hc.
  unfold encrypt_stream_ae_v8, with_nonce. rewrite Hgate. pose proof (nonce_cases draw s) as Hnc.
  destruct (generate_nonce_with_crng_check draw s) as [[nonce|e|p] s']; [|by destruct Hnc as (_ & Hp & _)|done].
  destruct Hnc as (-> & _ & ->). rewrite bind_Ok.
  destruct (encrypt_stream_ae_v8_with_nonce msg primes sk draw aad f) as [ct|e|p]; [|nia|done].
  destruct Hc as (Hdec & _ & C & HC & Hl). by exists ct, C.
Qed.

Lemma stream_round_trip_passes msg primes sk aad f draw s : valid_key primes → 1 ≤ f ≤ STREAM_AE_V8_MAX_FRAME →
  fresh_draw draw s → str_ok msg → Z.of_nat (length msg) < 2 ^ 32 → stream_round_trip draw s msg primes sk aad f = Ok tt.
Proof using Hgate.
  intros Hkey Hf Hfr Hs Hn.
  destruct (stream_encrypts msg primes sk aad f draw s Hkey Hf Hfr Hs Hn) as (ct & C & _ & He & Hdec & _).
  unfold stream_round_trip. rewrite He. cbn [fst unwrap_ok]. rewrite bind_Ok, Hdec. cbn [unwrap_ok]. rewrite bind_Ok. apply assert_eq_refl.
Qed.

(** The same through the incremental encryptor. *)
Lemma incremental_passes msg primes sk aad f checks draw s : valid_key primes → 1 ≤ f ≤ STREAM_AE_V8_MAX_FRAME →
  fresh_draw draw s → str_ok msg → Z.of_nat (length msg) < 2 ^ 32 → checks = Ok tt →
  ∃ new out, new_validated primes sk aad f checks draw s = (Ok new, MkCrng (Some draw) (module_state s)) ∧
    push_and_finish msg new.1 new.2 = Ok out ∧ decrypt_stream_ae_v8 out primes sk aad = Ok msg.
Proof using Hgate.
  intros Hkey Hf Hfr Hs Hn ->.
  pose proof (new_validated_sim msg primes sk aad f (Ok tt) draw s Hgate ltac:(lia) ltac:(lia)) as Hsim.
  destruct (stream_encrypts msg primes sk aad f draw s Hkey Hf Hfr Hs Hn) as (ct & C & Hen & _ & Hdec & _).
  unfold encrypt_stream_ae_v8_with_nonce in Hen. rewrite validate_key_valid, valid_frame_bounds, !bind_Ok in Hen by done.
  destruct Hfr as [_ Hfresh]. unfold with_nonce in Hsim. rewrite bind_Ok, valid_frame_bounds in Hsim by done.
  pose proof (nonce_cases draw s) as Hnc.
  destruct (generate_nonce_with_crng_check draw s) as [[nonce|e|p] s'] eqn:Hg; [|by destruct Hnc as (_ & Hp & _)|done].
  destruct Hnc as (-> & _ & ->). rewrite bind_Ok, Hen in Hsim.
  destruct (new_validated primes sk aad f (Ok tt) draw s) as [r s'']. injection Hsim as Hr ->.
  apply bind_Ok_inv in Hr as (new & -> & Hr). apply bind_Ok_inv in Hr as (out & Hp & Hr).
  apply bind_Ok_inv in Hr as (last & Hl & [= <-]). exists new, (new.2 ++ out.1 ++ last). split; [done|]. split; [|done].
  unfold push_and_finish. rewrite Hp. cbn [unwrap_ok]. rewrite bind_Ok, Hl. cbn [unwrap_ok]. by rewrite bind_Ok.
Qed.

(** A stream that is not of the specified form is refused. *)
Lemma stream_refused ct primes sk aad : valid_key primes → Z.of_nat (length ct) < 2 ^ 60 →
  (∀ m, decrypt_stream_ae_v8_inner ct primes (derive_format_subkey sk FORMAT_STREAM_AE_V8) aad ≠ Ok m) →
  assert_err (decrypt_stream_ae_v8 ct primes sk aad) = Ok tt.
Proof using Hgate.
  intros Hkey Hl Hne. unfold decrypt_stream_ae_v8. rewrite Hgate, validate_key_valid, !bind_Ok by done.
  destruct (decrypt_stream_inner_spec primes (derive_format_subkey sk FORMAT_STREAM_AE_V8) aad ct (valid_key_arith _ Hkey) Hl) as [Hnp _].
  destruct (decrypt_stream_ae_v8_inner _ _ _ _) as [m|e|p]; [by destruct (Hne m)|done|done].
Qed.

Lemma truncated_test_passes draw s d : good_draws d → fresh_draw draw s → stream_v8_truncated_before_sentinel_fails draw s d = Ok tt.
Proof using Hgate.
  intros Hd Hfr. unfold stream_v8_truncated_before_sentinel_fails. destruct (new_v8_key_Ok Hgate d Hd) as (ps & -> & Hv & _).
  rewrite bind_Ok. cbn [fst snd].
  destruct (stream_encrypts (str "truncme") ps (sk_fill d) [] 8 draw s Hv ltac:(done) Hfr ltac:(repeat constructor) ltac:(done))
    as (ct & C & _ & -> & Hdec & HC & Hl).
  cbn [fst unwrap_ok]. rewrite bind_Ok. assert (0 ≤ C ≤ 1) as HC1 by (unfold canonical_count in HC; cbn [length] in HC; simpl in HC; lia).
  bind_ok (apply checked_sub_Ok; lia). bind_ok (apply index_range_Ok; lia). unfold slice. rewrite drop_0, Nat.sub_0_r.
  set (l := Z.to_nat (Z.of_nat (length ct) - 44)). assert (Z.of_nat l = Z.of_nat (length ct) - 44) as Hll by lia.
  apply stream_refused; [done|rewrite length_take; lia|]. intros m Hm.
  unfold decrypt_stream_ae_v8 in Hdec. rewrite Hgate, validate_key_valid, !bind_Ok in Hdec by done.
  rewrite <-(take_drop l ct) in Hdec.
  eapply accepted_prefix_free in Hdec; [|apply valid_key_arith, Hv|apply valid_key_arith, Hv|rewrite take_drop; lia|exact Hm].
  apply (f_equal length) in Hdec. rewrite length_drop in Hdec. cbn [length] in Hdec. lia.
Qed.

Lemma wrong_format_test_passes draw s d : good_draws d → fresh_draw draw s → stream_v8_wrong_format_id_fails draw s d = Ok tt.
Proof using Hgate.
  intros Hd Hfr. unfold stream_v8_wrong_format_id_fails. destruct (new_v8_key_Ok Hgate d Hd) as (ps & -> & Hv & _).
  rewrite bind_Ok. cbn [fst snd].
  destruct (stream_encrypts (str "x") ps (sk_fill d) [] 8 draw s Hv ltac:(done) Hfr ltac:(repeat constructor) ltac:(done))
    as (ct & C & _ & -> & Hdec & HC & Hl).
  cbn [fst unwrap_ok]. rewrite bind_Ok. assert (0 ≤ C ≤ 1) as HC1 by (unfold canonical_count in HC; simpl in HC; lia).
  destruct ct as [|b ct]; [cbn [length] in Hl; lia|]. change (update 0 (λ _, x01) (b :: ct)) with (Ok (E:=Empty_set) (x01 :: ct)).
  rewrite bind_Ok. apply stream_refused; [done|cbn [length] in *; lia|]. intros m Hm.
  apply (decrypt_stream_inner_spec _ _ _ _ (valid_key_arith _ Hv)) in Hm; [|cbn [length] in *; lia].
  destruct Hm as (f & nonce & _ & _ & bodies & chunks & total & Heq & _). discriminate Heq.
Qed.

Definition stream_tests (draw draw2 : list byte) (s : crng_state) (d : key_draws) : list (test unit) :=
  [stream_v8_roundtrip_basic draw s d; stream_v8_empty_roundtrip draw s d;
   stream_v8_partial_last_chunk_filler_dropped draw s d; stream_v8_truncated_before_sentinel_fails draw s d;
   stream_v8_wrong_format_id_fails draw s d; stream_v8_frame_out_of_range_rejected draw s d;
   stream_v8_encryptor_struct_matches_all_at_once draw s d; v5_29_stream_key_variants_roundtrip draw s d draw2;
   stream_v8_deterministic_with_injected_nonce].

Lemma encrypt_key_same msg key aad f draw s : valid_key (primes key) →
  encrypt_stream_ae_v8_key msg key aad f draw s = encrypt_stream_ae_v8 msg (primes key) (sk key) aad f draw s ∨
  validate_stream_v8_frame f ≠ Ok tt.
Proof using Hgate.
  intros Hv. destruct (validate_stream_v8_frame f) as [[]|e|p] eqn:Hf; [left|by right..].
  unfold encrypt_stream_ae_v8_key, encrypt_stream_ae_v8, with_nonce, encrypt_stream_ae_v8_with_nonce.
  rewrite Hgate, bind_Ok, Hf. destruct (generate_nonce_with_crng_check draw s) as [[nonce|e|p] s']; [|done..].
  by rewrite !bind_Ok, validate_key_valid, !bind_Ok.
Qed.

Lemma decrypt_key_same ct key aad : valid_key (primes key) →
  decrypt_stream_ae_v8_key ct key aad = decrypt_stream_ae_v8 ct (primes key) (sk key) aad.
Proof using Hgate.
  intros Hv. unfold decrypt_stream_ae_v8_key, decrypt_stream_ae_v8. by rewrite Hgate, validate_key_valid, !bind_Ok.
Qed.

Lemma key_variants_test_passes draw draw2 s d : good_draws d → fresh_draw draw s → length draw2 = NONCE_SIZE → draw2 ≠ draw →
  v5_29_stream_key_variants_roundtrip draw s d draw2 = Ok tt.
Proof using Hgate.
  intros Hd Hfr Hl2 Hne. unfold v5_29_stream_key_variants_roundtrip.
  destruct (new_key_Ok Hgate d Hd) as (ps & -> & Hv & _). rewrite bind_Ok. cbv zeta.
  set (key := MkNapqesKey ps (sk_fill d)). assert (valid_key (primes key)) as Hk by done.
  destruct (encrypt_key_same (str "stream via NapqesKey") key (bstr "a") 4 draw s Hk) as [->|Hn]; [|done].
  destruct (stream_encrypts (str "stream via NapqesKey") (primes key) (sk key) (bstr "a") 4 draw s Hk ltac:(done) Hfr ltac:(repeat constructor) ltac:(done))
    as (ct & C & _ & -> & Hdec & _).
  cbn [unwrap_ok]. rewrite bind_Ok, decrypt_key_same, Hdec by done. cbn [unwrap_ok]. rewrite !bind_Ok, !(assert_eq_refl (A:=list Z)), !bind_Ok.
  destruct (incremental_passes (str "incremental") (primes key) (sk key) (bstr "a") 4 gated draw2 (MkCrng (Some draw) (module_state s)))
    as (new & out & Hnew & Hout & Hod); [done|done|split; [done|cbn; congruence]|repeat constructor|done|done|].
  unfold encryptor_new_key. rewrite Hnew. cbn [fst unwrap_ok]. rewrite bind_Ok, Hout, bind_Ok, decrypt_key_same, Hod by done.
  cbn [unwrap_ok]. rewrite bind_Ok. apply assert_eq_refl.
Qed.

Lemma stream_tests_pass draw draw2 s d : good_draws d → fresh_draw draw s → length draw2 = NONCE_SIZE → draw2 ≠ draw →
  Forall (λ t, t = Ok tt) (stream_tests draw draw2 s d).
Proof using Hgate.
  intros Hd Hfr Hl2 Hne. destruct (new_v8_key_Ok Hgate d Hd) as (ps & Hk & Hv & _).
  repeat apply Forall_cons_2; [..|constructor].
  - unfold stream_v8_roundtrip_basic. rewrite Hk, bind_Ok. apply stream_round_trip_passes; try done. repeat constructor.
  - unfold stream_v8_empty_roundtrip. rewrite Hk, bind_Ok. cbn [fst snd].
    destruct (stream_encrypts [] ps (sk_fill d) [] 8 draw s Hv ltac:(done) Hfr ltac:(constructor) ltac:(done)) as (ct & C & _ & -> & Hdec & HC & Hl).
    cbn [fst unwrap_ok]. rewrite bind_Ok. assert (length ct = 65%nat) as -> by (unfold canonical_count in HC; simpl in HC; nia).
    rewrite assert_eq_refl, bind_Ok, Hdec. cbn [unwrap_ok]. rewrite bind_Ok. apply assert_eq_refl.
  - unfold stream_v8_partial_last_chunk_filler_dropped. rewrite Hk, bind_Ok. apply stream_round_trip_passes; try done. repeat constructor.
  - by apply truncated_test_passes.
  - by apply wrong_format_test_passes.
  - unfold stream_v8_frame_out_of_range_rejected. rewrite Hk, bind_Ok. cbn [fst snd].
    unfold encrypt_stream_ae_v8, with_nonce. rewrite Hgate. pose proof (nonce_cases draw s) as Hnc. destruct Hfr as [_ Hfresh].
    destruct (generate_nonce_with_crng_check draw s) as [[nonce|e|p] s']; [|by destruct Hnc as (_ & Hp & _)|done].
    rewrite !bind_Ok. cbn [fst]. unfold encrypt_stream_ae_v8_with_nonce. by rewrite validate_key_valid, !bind_Ok.
  - unfold stream_v8_encryptor_struct_matches_all_at_once. rewrite Hk, bind_Ok. cbv zeta. cbn [fst snd].
    destruct (incremental_passes (str "chunk-by-chunk vs all-at-once") ps (sk_fill d) [] 8 (_ ← gated; validate_key ps) draw s)
      as (new & out & Hnew & Hout & Hod); [done|done|done|repeat constructor|done|by rewrite Hgate, bind_Ok, validate_key_valid|].
    unfold encryptor_new. rewrite Hnew. cbn [fst unwrap_ok]. rewrite bind_Ok, Hout, bind_Ok, Hod.
    cbn [unwrap_ok]. rewrite bind_Ok. apply assert_eq_refl.
  - by apply key_variants_test_passes.
  - unfold stream_v8_deterministic_with_injected_nonce. cbv zeta.
    assert (valid_key kat_primes) as Hkat by (apply validated_key; [repeat constructor; unfold fits; lia|vm_compute; reflexivity]).
    destruct (stream_encrypts (str "hello v8!") kat_primes (replicate SK_SIZE x11) (bstr "aad") 8 (replicate NONCE_SIZE x22)
      (MkCrng None POST_PASSED) Hkat ltac:(done) ltac:(done) ltac:(repeat constructor) ltac:(done)) as (ct & C & -> & _ & Hdec & _).
    cbn [unwrap_ok]. rewrite !bind_Ok, assert_eq_refl, bind_Ok, Hdec. cbn [unwrap_ok]. rewrite bind_Ok. apply assert_eq_refl.
Qed.
End stream_results.

(** The tests of key generation and of the v8 formats: with the gate open, draws that give
    keys and fresh nonces, those of key generation and the round trips of blocks and streams
    pass whatever HMAC computes, and so do the tests that flip a bit of the tag, cut the
    sentinel off or change the format; those that change what a block tag covers pass unless
    HMAC under the format subkey gives what it covers before and after the change, which are
    read off the ciphertext of the test, the same value. *)
Theorem cipher_tests_pass `{Crypto} `{Gate} `{Base64} base64_error d (dn : nat → key_draws) (dz : Z → key_draws) narrow draw draw2 s :
  gate_open → good_draws d → (∀ i, good_draws (dn i)) → (∀ i, good_draws (dz i)) → (∀ i, 24 ≤ narrow i ≤ 28) →
  fresh_draw draw s → length draw2 = NONCE_SIZE → draw2 ≠ draw →
  (is_ok (generate_prime_numbers (candidates d) MAX_KEY_ELEMENTS MIN_KEY_PRIME MAX_KEY_PRIME) = true →
   v5_14_keygen_rejects_zero_and_oversized_count d = Ok tt) ∧
  Forall (λ t, t = Ok tt)
    ([primes_are_prime d; generate_prime_numbers_output_passes_validate_key dn;
      cvf20_keygen_reports_errors_instead_of_panicking narrow d; napqeskey_constructor_validates d]
     ++ block_tests base64_error d dz ++ stream_tests draw draw2 s d) ∧
  let sk_fmt := derive_format_subkey test_sk FORMAT_BLOCK_V8 in
  (∃ ct, encrypt_bytes_v8 (str "secret") crate_test_key test_sk (bstr "good") = Ok ct ∧
    (v8_wrong_aad_fails = Ok tt ∨ collides sk_fmt (block_covered ct (bstr "good")) (block_covered ct (bstr "bad")))) ∧
  (∃ ct, encrypt_bytes_v8 (str "secret") crate_test_key test_sk [] = Ok ct ∧
    (v8_nonce_and_blob_tamper_fail base64_error = Ok tt ∨
     ∃ i, i ∈ [0; 15; 16; 1464; 2895]%nat ∧
       collides sk_fmt (block_covered ct []) (block_covered (alter (flip x01) i ct) []))).
Proof.
  intros Hg Hd Hdn Hdz Hn Hfr Hl2 Hne. split; [by apply count_limits_test_passes|]. split.
  - apply Forall_app. split; [by apply keygen_tests_pass|]. apply Forall_app. split.
    + by apply block_tests_pass.
    + by apply stream_tests_pass.
  - split; [by apply v8_wrong_aad_test_result|by apply v8_nonce_and_blob_test_result].
Qed.
