(* ===== verification/StreamTests.v ===== *)
(** * Unit tests that alter a stream ([lib.rs], [mod v5_tests])

    What the tests of [CipherTests] that tamper with a stream give: the stream encrypted is of
    a known layout, what the test makes of it carries the same tags, and [StreamIntegrity]
    says that such a stream is refused. *)
From Stdlib Require Import ZArith Lia Strings.Byte Strings.String.
From stdpp Require Import base tactics option numbers gmap list.
From S2P Require Import Prelude Machine Errors Crates Post Primes Keys Derive Padding Tokens BlockV8.
From S2P Require Import LegacyV7 StreamV8 StreamIntegrity OtFrame KatVectors SelfTest Report Messages CrossCheck FrameTests CrateTests CipherTests.

#[local] Open Scope Z_scope.
#[local] Open Scope napqes_scope.

Lemma length_sealed_from `{Crypto} sk_fmt aad f nonce i bodies :
  Forall (λ b, Z.of_nat (length b) = 160 * f) bodies →
  Z.of_nat (length (sealed_from sk_fmt aad f nonce i bodies)) = (160 * f + 36) * Z.of_nat (length bodies).
Proof.
  intros Hb. revert i. induction Hb as [|b bodies Hl _ IH]; intros i; cbn [sealed_from length]; [lia|].
  unfold sealed, chunk_auth. rewrite !length_app, length_to_be_bytes, length_hmac_digest. specialize (IH (i + 1)).
  unfold TAG_SIZE in *. lia.
Qed.

Lemma update_app {A} i (g : A → A) (a b : list A) x : i = length a → update i g (a ++ x :: b) = Ok (E:=Empty_set) (a ++ g x :: b).
Proof. intros ->. apply update_Ok. Qed.

(** The slice written over is [b]. *)
Lemma copy_from_slice_at {A} i j (data a b c : list A) : i = length a → j = (length a + length b)%nat → length data = length b →
  copy_from_slice i j data (a ++ b ++ c) = Ok (E:=Empty_set) (a ++ data ++ c).
Proof.
  intros -> -> Hl. unfold copy_from_slice. bind_ok (apply index_range_Ok; rewrite ?length_app; lia).
  rewrite bool_decide_eq_true_2 by lia. by rewrite take_app_length, (app_assoc a b c), drop_app_length' by (by rewrite length_app).
Qed.

Section altered.
Context `{Crypto} `{Gate} (Hgate : gate_open).

(** ** The stream of a test *)

(** A short message under a fresh nonce: its stream as a sealing and as a layout. *)
Lemma fresh_sealing msg primes sk aad f draw s : valid_key primes → 1 ≤ f ≤ STREAM_AE_V8_MAX_FRAME →
  fresh_draw draw s → str_ok msg → Z.of_nat (length msg) < 2 ^ 32 → fits 64 (Z.of_nat (length aad)) →
  let sk_fmt := derive_format_subkey sk FORMAT_STREAM_AE_V8 in
  ∃ ct bodies chunks total,
    (encrypt_stream_ae_v8 msg primes sk aad f draw s).1 = Ok ct ∧
    genuine (MkNapqesKey primes sk) (Sealing msg draw aad f ct) ∧ decrypt_stream_ae_v8 ct primes sk aad = Ok msg ∧
    ct = stream_v8_header f draw ++ sealed_from sk_fmt aad f draw 0 bodies
         ++ sentinel sk_fmt aad f draw (Z.of_nat (length bodies)) total ∧
    Forall (λ b, Z.of_nat (length b) = 160 * f) bodies ∧ canonical_count f (Z.of_nat (length bodies)) (Z.of_nat (length msg)) ∧
    Z.of_nat (length ct) = 65 + (160 * f + 36) * Z.of_nat (length bodies) ∧ fits 64 total ∧
    opened_from primes sk_fmt f draw 0 bodies chunks.
Proof using Hgate.
  intros Hkey Hf Hfr Hs Hn Ha sk_fmt.
  destruct (stream_encrypts Hgate msg primes sk aad f draw s Hkey Hf Hfr Hs Hn) as (ct & C & Hen & He & Hdec & HC & Hl).
  destruct Hfr as [Hd _]. assert (Z.of_nat (length msg) < 2 ^ 63) as Hn63 by lia. set (key := MkNapqesKey primes sk).
  assert (genuine key (Sealing msg draw aad f ct)) as Hg
    by exact (conj Hen (conj Hs (conj Hn63 (conj Hd Ha)))).
  destruct (genuine_cases key Hkey _ Hg) as (_ & _ & bodies & chunks & total & Hct & Ho & Hb & Hcan & _).
  cbn [sl_aad sl_frame sl_nonce sl_stream sl_plaintext] in *. change (derive_format_subkey (Keys.sk key) _) with sk_fmt in *.
  pose proof (opened_bodies _ _ _ _ _ _ _ Ho) as Hbodies.
  exists ct, bodies, chunks, total. rewrite He.
  assert (Z.of_nat (length bodies) = C) as HlC.
  { rewrite Hct in Hl. unfold sentinel, sentinel_auth in Hl.
    rewrite !length_app, stream_v8_header_length, !length_to_be_bytes, length_hmac_digest in Hl by done.
    pose proof (length_sealed_from sk_fmt aad f draw 0 bodies Hbodies) as Hlen. apply (Z.mul_reg_l _ _ (160 * f + 36)); lia. }
  rewrite HlC in *. split_and!; try done. eapply (canonical_fits f Hf); [|exact Hcan]. lia.
Qed.

(** ** What is refused *)

(** A stream with the tags of one sealing is refused, unless it is that stream. *)
Lemma altered_refused primes sk msg draw aad f ct ct' aad' :
  valid_key primes → genuine (MkNapqesKey primes sk) (Sealing msg draw aad f ct) → Z.of_nat (length ct') < 2 ^ 60 →
  fits 64 (Z.of_nat (length aad')) → (∀ tag, tag ∈ stream_tags ct' → tag ∈ stream_tags ct) →
  let sk_fmt := derive_format_subkey sk FORMAT_STREAM_AE_V8 in
  assert_err (decrypt_stream_ae_v8 ct' primes sk aad') = Ok tt ∨ (ct' = ct ∧ aad' = aad) ∨
  coincide sk_fmt (stream_covered sk_fmt aad' ct') (stream_covered sk_fmt aad ct).
Proof using Hgate.
  intros Hkey Hg Hl Ha Htags sk_fmt. unfold decrypt_stream_ae_v8. rewrite Hgate, validate_key_valid, !bind_Ok by done.
  fold sk_fmt.
  destruct (decrypt_stream_inner_spec primes sk_fmt aad' ct' (valid_key_arith _ Hkey) Hl) as [Hnp Hiff].
  destruct (decrypt_stream_ae_v8_inner ct' primes sk_fmt aad') as [m|e|p]; [right|by left|done].
  destruct (proj1 (Hiff m) eq_refl) as (f' & nonce & Hf & Hn & Hspec).
  destruct (genuine_stream (MkNapqesKey primes sk) Hkey [Sealing msg draw aad f ct] aad' f' nonce ct' m)
    as [(g & Hin & Heq)|(g & Hin & Hcol)]; try done; [by apply Forall_singleton|apply NoDup_singleton| |left|right].
  - intros tag Ht. eexists. split; [by apply list_elem_of_singleton|]. by apply Htags.
  - apply list_elem_of_singleton in Hin as ->. exact Heq.
  - apply list_elem_of_singleton in Hin as ->. exact Hcol.
Qed.

(** Genuine frames under a header: the result is that of the sentinel. *)
Lemma genuine_frames_result primes sk aad f nonce bodies chunks total tag :
  let sk_fmt := derive_format_subkey sk FORMAT_STREAM_AE_V8 in
  valid_key primes → 1 ≤ f ≤ STREAM_AE_V8_MAX_FRAME → length nonce = NONCE_SIZE → fits 64 total → length tag = TAG_SIZE →
  let count := Z.of_nat (length bodies) in
  let ct := stream_v8_header f nonce ++ sealed_from sk_fmt aad f nonce 0 bodies
    ++ to_be_bytes 4 0 ++ to_be_bytes 8 (Z.lxor total (stream_v8_count_mask sk_fmt f nonce count)) ++ tag in
  Z.of_nat (length ct) < 2 ^ 60 → opened_from primes sk_fmt f nonce 0 bodies chunks → count < 2 ^ 32 →
  ∃ delivered pending, decrypt_stream_ae_v8 ct primes sk aad
  = if bool_decide (tag = sentinel_auth sk_fmt aad f nonce count total) then
      if bool_decide (canonical_count f count total) then Ok (take (Z.to_nat total) (concat chunks))
      else Err (StreamSentinelCount total delivered pending)
    else Err StreamSentinelTag.
Proof using Hgate.
  intros sk_fmt Hkey Hf Hn Ht Htag count ct Hl Ho Hc. unfold decrypt_stream_ae_v8. rewrite Hgate, validate_key_valid, !bind_Ok by done.
  fold sk_fmt. unfold ct in *. rewrite length_app, stream_v8_header_length in Hl by done.
  rewrite decrypt_stream_inner_open by done. apply (decrypt_frames_eq primes sk_fmt aad f nonce (valid_key_arith _ Hkey) Hf); try done.
  - rewrite length_app, stream_v8_header_length by done. lia.
  - by rewrite length_app, stream_v8_header_length.
  - by rewrite drop_app_length' by (by rewrite stream_v8_header_length).
Qed.

(** ** The tests *)

(** A test that alters a sealed stream passes, or an input a tag of the altered stream covers
    collides with one a tag of the sealed stream covers. *)
Definition refused_or_coincide (t : test unit) (sk_fmt : list byte) (sealed : outcome error (list byte))
    (aad aad' : list byte) (alteration : list byte → list byte) : Prop :=
  ∃ ct, sealed = Ok ct ∧
    (t = Ok tt ∨ coincide sk_fmt (stream_covered sk_fmt aad' (alteration ct)) (stream_covered sk_fmt aad ct)).

Lemma aad_mismatch_result draw s d ps : new_v8_key d = Ok (ps, sk_fill d) → valid_key ps → fresh_draw draw s →
  refused_or_coincide (stream_v8_aad_mismatch_fails draw s d) (derive_format_subkey (sk_fill d) FORMAT_STREAM_AE_V8)
    (encrypt_stream_ae_v8 (str "aad") ps (sk_fill d) (bstr "right") 8 draw s).1 (bstr "right") (bstr "wrong") id.
Proof using Hgate.
  intros Hk Hv Hfr. unfold refused_or_coincide, stream_v8_aad_mismatch_fails. rewrite Hk, bind_Ok. cbn [fst snd].
  destruct (fresh_sealing (str "aad") ps (sk_fill d) (bstr "right") 8 draw s Hv ltac:(done) Hfr ltac:(repeat constructor) ltac:(done) ltac:(done))
    as (ct & bodies & chunks & total & -> & Hg & _ & _ & _ & HC & Hl & _).
  exists ct. split; [done|].
  cbn [unwrap_ok]. rewrite bind_Ok. assert (Z.of_nat (length bodies) ≤ 1) by (unfold canonical_count in HC; simpl in HC; lia).
  destruct (altered_refused ps (sk_fill d) _ _ _ _ ct ct (bstr "wrong") Hv Hg ltac:(lia) ltac:(done) ltac:(done)) as [?|[[_ Hx]|?]];
    [by left|discriminate Hx|by right].
Qed.

Lemma tamper_body_result draw s d ps : new_v8_key d = Ok (ps, sk_fill d) → valid_key ps → fresh_draw draw s →
  refused_or_coincide (stream_v8_tamper_chunk_body_fails draw s d) (derive_format_subkey (sk_fill d) FORMAT_STREAM_AE_V8)
    (encrypt_stream_ae_v8 (str "tamper") ps (sk_fill d) [] 8 draw s).1 [] [] (alter (flip xff) 28%nat).
Proof using Hgate.
  intros Hk Hv Hfr. unfold refused_or_coincide, stream_v8_tamper_chunk_body_fails. rewrite Hk, bind_Ok. cbn [fst snd]. assert (length draw = NONCE_SIZE) as Hdl by apply Hfr.
  destruct (fresh_sealing (str "tamper") ps (sk_fill d) [] 8 draw s Hv ltac:(done) Hfr ltac:(repeat constructor) ltac:(done) ltac:(done))
    as (ct & bodies & chunks & total & -> & Hg & _ & Hct & Hb & HC & Hl & _).
  exists ct. split; [done|].
  cbn [unwrap_ok]. rewrite bind_Ok. assert (Z.of_nat (length bodies) = 1) as Hl1 by (unfold canonical_count in HC; simpl in HC; lia).
  destruct bodies as [|b bodies]; [done|]. apply Forall_cons in Hb as [Hlb _]. cbn [sealed_from] in Hct.
  destruct b as [|b0 [|b1 [|b2 [|b3 b]]]]; try (simpl in Hlb; lia).
  unfold sealed in Hct. rewrite <-!app_assoc, <-Hlb in Hct.
  set (tag := chunk_auth _ _ _ _ _ _) in Hct. set (rest := sealed_from _ _ _ _ _ _ ++ _) in Hct.
  assert (length tag = TAG_SIZE) as Htag by apply length_hmac_digest.
  set (len := length (b0 :: b1 :: b2 :: b3 :: b)) in *.
  assert (∀ x, stream_tags (stream_v8_header 8 draw ++ to_be_bytes 4 (Z.of_nat len) ++ (b0 :: b1 :: b2 :: x :: b) ++ tag ++ rest)
    = stream_tags ct) as Htags.
  { assert (∀ x, stream_tags (stream_v8_header 8 draw ++ to_be_bytes 4 (Z.of_nat len) ++ (b0 :: b1 :: b2 :: x :: b) ++ tag ++ rest)
      = tag :: frame_tags (24 + length (b0 :: b1 :: b2 :: x :: b ++ tag ++ rest)) rest) as Heq; [|intros x; by rewrite Hct, !Heq].
    intros x. unfold stream_tags. rewrite drop_app_length' by (by rewrite stream_v8_header_length).
    rewrite length_app, stream_v8_header_length, length_app, length_to_be_bytes by done. change (21 + (4 + ?n))%nat with (S (24 + n)).
    change len with (length (b0 :: b1 :: b2 :: x :: b)). rewrite frame_tags_frame; [done| |done].
    unfold len in Hlb. cbn [length] in *. lia. }
  rewrite Hct at 1 2. rewrite (app_assoc (stream_v8_header 8 draw)). change (?a ++ (b0 :: b1 :: b2 :: b3 :: b) ++ ?r) with (a ++ [b0; b1; b2] ++ b3 :: (b ++ r)).
  set (front := (stream_v8_header 8 draw ++ to_be_bytes 4 (Z.of_nat len)) ++ [b0; b1; b2]).
  assert (length front = 28%nat) as Hfront
    by (unfold front; rewrite !length_app, stream_v8_header_length, length_to_be_bytes by done; done).
  rewrite (app_assoc _ [b0; b1; b2]). fold front. rewrite update_app, bind_Ok by done.
  rewrite alter_app_r_alt, Hfront by lia. change (alter ?g (28 - 28)%nat (?x :: ?l)) with (g x :: l). unfold front.
  rewrite <-!app_assoc. change ([b0; b1; b2] ++ ?x :: (b ++ ?r)) with ((b0 :: b1 :: b2 :: x :: b) ++ r).
  set (ct' := stream_v8_header 8 draw ++ _).
  assert (length ct' = length ct) as Hl' by (rewrite Hct; unfold ct'; rewrite !length_app; done).
  destruct (altered_refused ps (sk_fill d) _ _ _ _ ct ct' [] Hv Hg) as [?|[[Hx _]|?]]; [lia|done| |by left| |by right].
  - intros t Ht. unfold ct' in Ht. by rewrite Htags in Ht.
  - exfalso. unfold ct' in Hx. rewrite Hct in Hx. apply app_inv_head, app_inv_head in Hx. injection Hx as Hx. by destruct b3.
Qed.

Lemma tamper_sentinel_passes draw s d : good_draws d → fresh_draw draw s → stream_v8_tamper_sentinel_fails draw s d = Ok tt.
Proof using Hgate.
  intros Hd Hfr. unfold stream_v8_tamper_sentinel_fails. destruct (new_v8_key_Ok Hgate d Hd) as (ps & -> & Hv & _).
  rewrite bind_Ok. cbn [fst snd]. assert (length draw = NONCE_SIZE) as Hdl by apply Hfr.
  destruct (fresh_sealing (str "sentinel") ps (sk_fill d) [] 8 draw s Hv ltac:(done) Hfr ltac:(repeat constructor) ltac:(done) ltac:(done))
    as (ct & bodies & chunks & total & -> & _ & _ & Hct & Hb & HC & Hl & Ht & Ho).
  cbn [unwrap_ok]. rewrite bind_Ok. assert (Z.of_nat (length bodies) = 1) as Hl1 by (unfold canonical_count in HC; simpl in HC; lia).
  bind_ok (apply checked_sub_Ok; lia). unfold sentinel in Hct. set (auth := sentinel_auth _ _ _ _ _ _) in Hct.
  assert (length auth = 32%nat) as Hauth by apply length_hmac_digest.
  destruct (exists_last (l:=auth)) as (front & z & Hz); [by intros Hx; rewrite Hx in Hauth|].
  rewrite Hz in Hct. rewrite !app_assoc in Hct. set (pre := (_ ++ _) ++ front) in Hct.
  replace (Z.to_nat (Z.of_nat (length ct) - 1)) with (length pre) by (rewrite Hct, length_app; cbn [length]; lia).
  rewrite Hct at 1. rewrite update_Ok, bind_Ok. unfold pre. rewrite <-!app_assoc.
  destruct (genuine_frames_result ps (sk_fill d) [] 8 draw bodies chunks total (front ++ [flip x01 z])) as (dl & pn & Heq); try done.
  - rewrite Hz in Hauth. rewrite !length_app in *. exact Hauth.
  - rewrite Hct in Hl. unfold pre in Hl. rewrite !length_app in *. cbn [length] in *. lia.
  - lia.
  - rewrite Heq, bool_decide_eq_false_2; [done|]. fold auth. rewrite Hz. intros Hx. apply app_inv_head in Hx.
    injection Hx as Hx. by apply (flip_changes z).
Qed.

(** The forged sentinels carry a valid tag for a count that does not end in the last chunk. *)
Lemma forged_sentinel_passes base64_error draw s total d : good_draws d → fresh_draw draw s → fits 64 total → ¬ canonical_count 2 3 total →
  forged_sentinel_rejected base64_error draw s total d = Ok tt.
Proof using Hgate.
  intros Hd Hfr Htot Hcan. unfold forged_sentinel_rejected. destruct (new_v8_key_Ok Hgate d Hd) as (ps & -> & Hv & _).
  rewrite bind_Ok. cbn [fst snd]. assert (length draw = NONCE_SIZE) as Hdl by apply Hfr.
  destruct (fresh_sealing (str "abcdef") ps (sk_fill d) (bstr "x") 2 draw s Hv ltac:(done) Hfr ltac:(repeat constructor) ltac:(done) ltac:(done))
    as (ct & bodies & chunks & t & -> & _ & _ & Hct & Hb & HC & Hl & Ht & Ho).
  cbn [unwrap_ok]. rewrite bind_Ok. assert (Z.of_nat (length bodies) = 3) as Hl3 by (unfold canonical_count in HC; simpl in HC; lia).
  set (sk_fmt := derive_format_subkey (sk_fill d) FORMAT_STREAM_AE_V8) in *.
  unfold sentinel in Hct. set (mask := to_be_bytes 8 _) in Hct. set (auth := sentinel_auth _ _ _ _ _ _) in Hct.
  assert (length auth = 32%nat) as Hauth by apply length_hmac_digest. assert (length mask = 8%nat) as Hml by apply length_to_be_bytes.
  rewrite (app_assoc (sealed_from _ _ _ _ _ _)), (app_assoc (stream_v8_header 2 draw)) in Hct. set (front := _ ++ _ ++ to_be_bytes 4 0) in Hct.
  assert (forge_stream_sentinel ct (sk_fill d) (bstr "x") 3 total
    = Ok (stream_v8_header 2 draw ++ sealed_from sk_fmt (bstr "x") 2 draw 0 bodies
        ++ sentinel sk_fmt (bstr "x") 2 draw (Z.of_nat (length bodies)) total)) as ->.
  { unfold forge_stream_sentinel.
    bind_ok (apply index_range_Ok; lia). bind_ok (apply index_range_Ok; unfold NONCE_SIZE; lia). cbv zeta.
    assert (slice 1 5 ct = to_be_bytes 4 2) as ->.
    { unfold slice. rewrite Hct. unfold front, stream_v8_header. cbn [app drop Nat.sub]. rewrite <-!app_assoc. by apply take_app_length'. }
    assert (slice 5 (5 + NONCE_SIZE) ct = draw) as ->.
    { unfold slice. rewrite Hct. unfold front, stream_v8_header. cbn [app]. rewrite <-!app_assoc, app_comm_cons, drop_app_length'
        by (cbn [length]; by rewrite length_to_be_bytes). apply take_app_length'. unfold NONCE_SIZE in *. lia. }
    rewrite from_to_be_bytes by done. fold sk_fmt. rewrite (sentinel_tag_Ok sk_fmt (bstr "x") 2 draw). cbn [unwrap_ok]. rewrite bind_Ok.
    bind_ok (apply checked_sub_Ok; unfold TAG_SIZE; lia). bind_ok (apply checked_sub_Ok; unfold TAG_SIZE; lia).
    assert (length front = Z.to_nat (Z.of_nat (length ct) - 40)) as Hfl 
      by (rewrite Hct, !length_app, Hauth, Hml; lia).
    rewrite Hct at 3. rewrite (copy_from_slice_at _ _ _ front mask auth), bind_Ok
      by (rewrite ?length_to_be_bytes, ?Hml; unfold TAG_SIZE; lia).
    rewrite (app_assoc front), <-(app_nil_r auth), (copy_from_slice_at _ _ _ _ auth []), app_nil_r
      by (rewrite ?length_app, ?length_to_be_bytes, ?Hauth; unfold sentinel_auth; rewrite ?length_hmac_digest; unfold TAG_SIZE; cbn [length]; lia).
    unfold front, sentinel. rewrite <-!app_assoc, Hl3. done. }
  rewrite bind_Ok.
  destruct (genuine_frames_result ps (sk_fill d) (bstr "x") 2 draw bodies chunks total (sentinel_auth sk_fmt (bstr "x") 2 draw 3 total))
    as (dl & pn & Heq); try done; [apply length_hmac_digest| |lia|].
  { rewrite Hct in Hl. unfold front in Hl. rewrite !length_app, Hml, Hauth, length_to_be_bytes in Hl.
    unfold sentinel_auth. fold sk_fmt. rewrite !length_app, !length_to_be_bytes, length_hmac_digest. lia. }
  fold sk_fmt in Heq. unfold sentinel. rewrite Hl3 in *. rewrite Heq, bool_decide_eq_true_2, bool_decide_eq_false_2 by done.
  reflexivity.
Qed.

(** The frame size in the header is covered by the tag of the sentinel. *)
Definition frame_size_nine (ct : list byte) : list byte := take 1 ct ++ to_be_bytes 4 9 ++ drop 5 ct.

Lemma empty_header_result base64_error draw s d ps : new_v8_key d = Ok (ps, sk_fill d) → valid_key ps → fresh_draw draw s →
  refused_or_coincide (stream_v8_empty_stream_header_is_authenticated base64_error draw s d)
    (derive_format_subkey (sk_fill d) FORMAT_STREAM_AE_V8)
    (encrypt_stream_ae_v8 [] ps (sk_fill d) [] 8 draw s).1 [] [] frame_size_nine.
Proof using Hgate.
  intros Hk Hv Hfr. unfold refused_or_coincide, stream_v8_empty_stream_header_is_authenticated. rewrite Hk, bind_Ok. cbn [fst snd]. assert (length draw = NONCE_SIZE) as Hdl by apply Hfr.
  destruct (fresh_sealing [] ps (sk_fill d) [] 8 draw s Hv ltac:(done) Hfr ltac:(constructor) ltac:(done) ltac:(done))
    as (ct & bodies & chunks & total & -> & _ & Hdec & Hct & _ & HC & Hl & Ht & Ho).
  exists ct. split; [done|]. cbn [unwrap_ok]. rewrite bind_Ok, Hdec. cbn [unwrap_ok]. rewrite bind_Ok, assert_eq_refl, bind_Ok.
  assert (length bodies = 0%nat) as Hl0 by (unfold canonical_count in HC; simpl in HC; lia).
  destruct bodies as [|? ?]; [|done]. cbn [sealed_from app length] in Hct, Hl. set (sk_fmt := derive_format_subkey _ _) in *.
  set (auth := sentinel_auth sk_fmt [] 8 draw (Z.of_nat 0) total).
  set (mask := to_be_bytes 8 (Z.lxor total (stream_v8_count_mask sk_fmt 8 draw (Z.of_nat 0)))).
  set (total' := Z.lxor (Z.lxor total (stream_v8_count_mask sk_fmt 8 draw (Z.of_nat 0))) (stream_v8_count_mask sk_fmt 9 draw (Z.of_nat 0))).
  assert (ct = [FORMAT_STREAM_AE_V8] ++ to_be_bytes 4 8 ++ draw ++ to_be_bytes 4 0 ++ mask ++ auth) as Hct'.
  { rewrite Hct. unfold stream_v8_header. cbn [app]. by rewrite <-app_assoc. }
  assert (stream_covered sk_fmt [] ct = [sentinel_covered [] 8 draw 0 total]) as Hcov.
  { rewrite Hct. apply (stream_layout sk_fmt (Layout [] 8 draw [] total)). by split_and!. }
  rewrite Hct' at 1. rewrite (copy_from_slice_at 1 5 (to_be_bytes 4 9) [FORMAT_STREAM_AE_V8] (to_be_bytes 4 8)), bind_Ok by done.
  destruct (genuine_frames_result ps (sk_fill d) [] 9 draw [] [] total' auth) as (dl & pn & Heq); try done.
  { by apply u64_xor_mask, u64_xor_mask. }
  { apply length_hmac_digest. }
  { unfold auth, sentinel_auth. rewrite !length_app, stream_v8_header_length, !length_to_be_bytes, length_hmac_digest by done. cbn [length sealed_from]. lia. }
  fold sk_fmt in Heq. cbn [length sealed_from app] in Heq. unfold total' in Heq at 1. rewrite lxor_cancel in Heq. fold mask in Heq.
  unfold stream_v8_header in Heq. cbn [app] in Heq |- *. rewrite <-app_assoc in Heq. rewrite Heq.
  destruct (decide (auth = sentinel_auth sk_fmt [] 9 draw (Z.of_nat 0) total')) as [Ha|Ha]; [right|left].
  - assert (stream_covered sk_fmt [] (frame_size_nine ct) = [sentinel_covered [] 9 draw 0 total']) as ->.
    { unfold frame_size_nine. rewrite Hct'. cbn [app take]. rewrite skipn_cons, drop_app_length', Ha by done.
      assert (mask = to_be_bytes 8 (Z.lxor total' (stream_v8_count_mask sk_fmt 9 draw 0))) as ->
        by (unfold total'; by rewrite lxor_cancel).
      pose proof (stream_layout sk_fmt (Layout [] 9 draw [] total')) as Hs.
      unfold layout_stream, stream_v8_header in Hs. cbn [ly_aad ly_f ly_nonce ly_bodies ly_total app sealed_from] in Hs.
      rewrite <-app_assoc in Hs. apply Hs. split_and!; try done. by apply u64_xor_mask, u64_xor_mask. }
    rewrite Hcov. eexists _, _. split_and!; [by apply list_elem_of_singleton..|].
    apply collides_sym. apply equal_digests in Ha as [Ha|Hc]; [|exact Hc]. apply cons_eq in Ha as [_ Ha].
    apply stream_v8_header_inj in Ha as (Ha & _); done.
  - rewrite bool_decide_eq_false_2 by done. reflexivity.
Qed.

Lemma slice_sealed sk_fmt aad f nonce i b pre rest :
  Z.of_nat (length b) = 160 * f → 0 ≤ f → let n := (4 + Z.to_nat f * 160 + TAG_SIZE)%nat in
  length (sealed sk_fmt aad f nonce i b) = n ∧
  slice (length pre) (length pre + n) (pre ++ sealed sk_fmt aad f nonce i b ++ rest) = sealed sk_fmt aad f nonce i b.
Proof using Type.
  intros Hb Hf n. assert (length (sealed sk_fmt aad f nonce i b) = n) as Hl.
  { unfold sealed, chunk_auth. rewrite !length_app, length_to_be_bytes, length_hmac_digest. unfold n, TAG_SIZE. lia. }
  split; [done|]. unfold slice. rewrite drop_app_length. apply take_app_length'. lia.
Qed.

(** The tags of sealed frames, in whatever order, are read off in this order. *)
Lemma frames_tags sk_fmt aad f nonce ps count total fuel :
  1 ≤ f ≤ STREAM_AE_V8_MAX_FRAME → Forall (frame_ok f) ps → (length ps < fuel)%nat →
  frame_tags fuel (frames sk_fmt aad f nonce ps ++ sentinel sk_fmt aad f nonce count total)
  = ((λ p, chunk_auth sk_fmt aad f nonce p.1 p.2) <$> ps) ++ [sentinel_auth sk_fmt aad f nonce count total].
Proof using Type.
  unfold STREAM_AE_V8_MAX_FRAME. intros Hf Hps. revert fuel.
  induction Hps as [|[i b] ps [_ Hb] _ IH]; intros [|fuel] Hfuel; cbn [length] in Hfuel; try lia.
  - cbn [frames fmap list_fmap concat app frame_tags]. unfold sentinel.
    rewrite take_app_length', from_to_be_bytes by (rewrite ?length_to_be_bytes; done). cbn [Z.eqb]. f_equal.
    rewrite app_assoc, drop_app_length' by (by rewrite length_app, !length_to_be_bytes).
    apply take_ge. unfold sentinel_auth. by rewrite length_hmac_digest.
  - unfold frames. cbn [fmap list_fmap concat fst snd] in *. unfold sealed at 1. rewrite <-!app_assoc, <-Hb.
    rewrite frame_tags_frame; [|lia|apply length_hmac_digest]. cbn [app]. f_equal. apply IH. lia.
Qed.

(** The first two of four frames of the test change places. *)
Definition swap_frames (ct : list byte) : list byte :=
  take 21 ct ++ slice 697 1373 ct ++ slice 21 697 ct ++ drop 1373 ct.

Lemma reorder_result draw s d ps : new_v8_key d = Ok (ps, sk_fill d) → valid_key ps → fresh_draw draw s →
  refused_or_coincide (stream_v8_reorder_fails draw s d) (derive_format_subkey (sk_fill d) FORMAT_STREAM_AE_V8)
    (encrypt_stream_ae_v8 (str "ABCDEFGHIJKLMNOP") ps (sk_fill d) [] 4 draw s).1 [] [] swap_frames.
Proof using Hgate.
  intros Hk Hv Hfr. unfold refused_or_coincide, stream_v8_reorder_fails. rewrite Hk, bind_Ok. cbv zeta. cbn [fst snd].
  assert (length draw = NONCE_SIZE) as Hdl by apply Hfr.
  destruct (fresh_sealing (str "ABCDEFGHIJKLMNOP") ps (sk_fill d) [] 4 draw s Hv ltac:(done) Hfr ltac:(repeat constructor) ltac:(done) ltac:(done))
    as (ct & bodies & chunks & total & -> & Hg & _ & Hct & Hb & HC & Hl & Ht & _).
  exists ct. split; [done|]. cbn [unwrap_ok]. rewrite bind_Ok.
  assert (length bodies = 4%nat) as Hl4 by (unfold canonical_count in HC; simpl in HC; lia).
  set (sk_fmt := derive_format_subkey _ _) in *. rewrite Hl4 in Hl, Hct.
  bind_ok (apply index_range_Ok; unfold TAG_SIZE; lia). bind_ok (apply index_range_Ok; unfold TAG_SIZE; lia).
  change (4 + Z.to_nat 4 * 160 + TAG_SIZE)%nat with 676%nat. change (21 + 676 + 676)%nat with 1373%nat. change (21 + 676)%nat with 697%nat.
  fold (swap_frames ct). set (header := stream_v8_header 4 draw) in *.
  assert (length header = 21%nat) as Hh by (by apply stream_v8_header_length).
  destruct bodies as [|b0 [|b1 [|b2 [|b3 [|]]]]]; [done..| |done].
  set (y := Layout [] 4 draw [b0; b1; b2; b3] total).
  assert (stream_covered sk_fmt [] ct = layout_inputs y) as Hcov
    by (rewrite Hct; apply (stream_layout sk_fmt y); by split_and!).
  rewrite !Forall_cons in Hb. destruct Hb as (Hb0 & Hb1 & Hb2 & Hb3 & _).
  cbn [sealed_from app] in Hct. change (0 + 1) with 1 in Hct. change (1 + 1) with 2 in Hct. change (2 + 1) with 3 in Hct.
  rewrite <-!app_assoc in Hct. cbn [app] in Hct.
  set (s0 := sealed _ _ _ _ 0 b0) in Hct. set (s1 := sealed _ _ _ _ 1 b1) in Hct.
  assert (∀ i b pre rest, Z.of_nat (length b) = 160 * 4 → length (sealed sk_fmt [] 4 draw i b) = 676%nat ∧
    slice (length pre) (length pre + 676) (pre ++ sealed sk_fmt [] 4 draw i b ++ rest) = sealed sk_fmt [] 4 draw i b) as Hframe
    by (intros i b pre rest Hb; exact (slice_sealed sk_fmt [] 4 draw i b pre rest Hb ltac:(lia))).
  destruct (Hframe 0 b0 header (s1 ++ sealed sk_fmt [] 4 draw 2 b2 ++ sealed sk_fmt [] 4 draw 3 b3 ++ sentinel sk_fmt [] 4 draw (Z.of_nat 4) total) Hb0) as [Hn0 Hs0].
  destruct (Hframe 1 b1 (header ++ s0) (sealed sk_fmt [] 4 draw 2 b2 ++ sealed sk_fmt [] 4 draw 3 b3 ++ sentinel sk_fmt [] 4 draw (Z.of_nat 4) total) Hb1) as [Hn1 Hs1].
  fold s0 in Hn0, Hs0. fold s1 in Hn1, Hs1. rewrite Hh in Hs0. rewrite length_app, Hh, Hn0, <-app_assoc in Hs1. rewrite <-Hct in Hs0, Hs1.
  assert (swap_frames ct = header ++ frames sk_fmt [] 4 draw [(1, b1); (0, b0); (2, b2); (3, b3)]
    ++ sentinel sk_fmt [] 4 draw (Z.of_nat 4) total) as Hswap.
  { unfold frames. cbn [fmap list_fmap concat fst snd]. rewrite app_nil_r, <-!app_assoc. unfold swap_frames.
    assert (take 21 ct = header) as -> by (rewrite Hct; by apply take_app_length').
    change (slice 21 697 ct = s0) in Hs0. change (slice 697 1373 ct = s1) in Hs1. rewrite Hs0, Hs1.
    do 3 f_equal. rewrite Hct, (app_assoc s0), (app_assoc header). apply drop_app_length'. rewrite !length_app. lia. }
  assert (length (swap_frames ct) = length ct) as Hlen.
  { rewrite Hswap, Hct. unfold frames. cbn [fmap list_fmap concat fst snd]. fold s0 s1. rewrite app_nil_r, !length_app. lia. }
  assert (stream_tags ct = hmac_digest sk_fmt <$> layout_inputs y) as Htags
    by (rewrite Hct; unfold s0, s1; rewrite <-(proj1 (stream_layout sk_fmt y ltac:(split_and!; done || by repeat constructor)));
        unfold layout_stream, y; cbn [ly_aad ly_f ly_nonce ly_bodies ly_total sealed_from]; by rewrite <-!app_assoc, app_nil_l).
  destruct (altered_refused ps (sk_fill d) _ _ _ _ ct (swap_frames ct) [] Hv Hg) as [?|[[Heq _]|?]];
    [lia|done| |by left| |by right].
  - intros tag Htag. rewrite Htags. unfold stream_tags in Htag. rewrite Hlen, Hswap in Htag.
    rewrite drop_app_length' in Htag by done. rewrite frames_tags in Htag; [|done|by repeat constructor|cbn [length]; lia].
    cbn [fmap list_fmap app fst snd] in Htag. unfold layout_inputs, y. cbn [body_inputs ly_bodies fmap list_fmap app].
    unfold body_input, last_input, layout_count, chunk_auth, sentinel_auth in *. cbn [ly_aad ly_f ly_nonce ly_bodies ly_total length] in *.
    change (0 + 1) with 1. change (1 + 1) with 2. change (2 + 1) with 3. set_solver.
  - right. rewrite Heq, Hcov. rewrite Hswap, Hct in Heq. apply app_inv_head in Heq. unfold frames in Heq.
    cbn [fmap list_fmap concat fst snd] in Heq. rewrite <-app_assoc in Heq.
    apply sealed_inj in Heq as (-> & _ & [?|Hcol]); [done| |done|done|done|done].
    eexists _, _. split_and!; [| |exact Hcol]; unfold layout_inputs, y; cbn [body_inputs ly_bodies app]; set_solver.
Qed.
End altered.

(** The tests that alter a stream: those that flip a bit of the last tag or forge a sentinel
    pass whatever HMAC computes; those that change what a tag covers or the order of the
    frames pass unless, of the inputs the tags of the altered stream cover and those the tags
    of the sealed stream cover, two different ones have the same HMAC under the format subkey
    of the key drawn. *)
Theorem stream_tamper_tests_pass `{Crypto} `{Gate} base64_error d draw s :
  gate_open → good_draws d → fresh_draw draw s →
  Forall (λ t, t = Ok tt)
    [stream_v8_tamper_sentinel_fails draw s d; stream_sentinel_total_below_delivered_is_rejected base64_error draw s d;
     stream_sentinel_dropping_final_chunk_is_rejected base64_error draw s d] ∧
  ∃ ps, new_v8_key d = Ok (ps, sk_fill d) ∧
    let sk_fmt := derive_format_subkey (sk_fill d) FORMAT_STREAM_AE_V8 in
    let sealed msg aad f := (encrypt_stream_ae_v8 msg ps (sk_fill d) aad f draw s).1 in
    refused_or_coincide (stream_v8_aad_mismatch_fails draw s d) sk_fmt
      (sealed (str "aad") (bstr "right") 8) (bstr "right") (bstr "wrong") id ∧
    refused_or_coincide (stream_v8_tamper_chunk_body_fails draw s d) sk_fmt
      (sealed (str "tamper") [] 8) [] [] (alter (flip xff) 28%nat) ∧
    refused_or_coincide (stream_v8_reorder_fails draw s d) sk_fmt
      (sealed (str "ABCDEFGHIJKLMNOP") [] 4) [] [] swap_frames ∧
    refused_or_coincide (stream_v8_empty_stream_header_is_authenticated base64_error draw s d) sk_fmt
      (sealed [] [] 8) [] [] frame_size_nine.
Proof.
  intros Hg Hd Hfr. split; [repeat apply Forall_cons_2; [..|constructor]|].
  - by apply tamper_sentinel_passes.
  - apply forged_sentinel_passes; [done|done|done|done|]. unfold canonical_count. lia.
  - apply forged_sentinel_passes; [done|done|done|done|]. unfold canonical_count. lia.
  - destruct (new_v8_key_Ok Hg d Hd) as (ps & Hk & Hv & _). exists ps. split; [done|]. cbv zeta. split_and!.
    + by apply aad_mismatch_result.
    + by apply tamper_body_result.
    + by apply reorder_result.
    + by apply empty_header_result.
Qed.
