(* ===== verification/LegacyTests.v ===== *)
(** * Unit tests of the v7 format ([lib.rs], [mod tests] and [mod v5_tests])

    The tests that call the legacy entry points. A test that encrypts takes what the
    generator draws; [unwrap] fails where the encryption refuses, which a v7 encryption may
    do after a long run of noise. *)
From Stdlib Require Import ZArith Lia Strings.Byte Strings.String Floats.SpecFloat.
From stdpp Require Import base tactics option numbers gmap list.
From S2P Require Import Prelude Machine Errors Crates Post Primes Keys Derive Padding Tokens BlockV8.
From S2P Require Import LegacyV7 StreamV8 OtFrame KatVectors SelfTest Messages CrossCheck FrameTests CrateTests.

#[local] Open Scope Z_scope.
#[local] Open Scope napqes_scope.

Section legacy_tests.
Context `{Crypto} `{Gate} `{Base64}.
Context (base64_error : list Z).

#[local] Abbreviation error_text := (error_text base64_error).
#[local] Abbreviation v7_error_text := (v7_error_text base64_error).

Section one_nonce.
Context (draw : list byte) (s : crng_state).

(** Encrypt, decrypt, compare. *)
Definition v7_round_trip (msg key : list Z) (aad : list byte) : test unit :=
  ct ← unwrap_ok (encrypt_bytes msg key aad draw s).1;
  pt ← unwrap_ok (decrypt_bytes ct key aad);
  assert_eq pt msg.

Definition roundtrip_bytes : test unit := v7_round_trip (str "Hello, EpiCypher!") crate_test_key [].
Definition cvf14_encrypt_bytes_roundtrip_via_decrypt_bytes_unchanged : test unit :=
  v7_round_trip (str "hello " ++ [0xE9] ++ str " world " ++ [0x1F600]) crate_test_key (bstr "aad").

Definition roundtrip_str_with_aad : test unit :=
  let msg := str "Authenticated payload" in
  let aad := bstr "hdr=1" in
  ct ← unwrap_ok (encrypt_str msg crate_test_key aad draw s).1;
  pt ← unwrap_ok (decrypt_str ct crate_test_key aad);
  assert_eq pt msg.

Definition empty_message_roundtrip : test unit :=
  ct_b64 ← unwrap_ok (encrypt_str [] crate_test_key [] draw s).1;
  ct ← unwrap (b64_decode (as_bytes ct_b64));
  _ ← assert_that (bool_decide (NONCE_SIZE + TAG_SIZE ≤ length ct)%nat);
  pt ← unwrap_ok (decrypt_bytes ct crate_test_key []);
  assert_eq pt [].

Definition cvf14_encrypt_raw_ciphertext_still_roundtrips_via_decrypt_raw : test unit :=
  let data := byte_of_Z <$> seqZ 0 256 in
  ct ← unwrap_ok (encrypt_raw data crate_test_key (bstr "aad") draw s).1;
  recovered ← unwrap_ok (decrypt_raw ct crate_test_key (bstr "aad"));
  assert_eq recovered data.

Definition cvf14_encrypt_bytes_ciphertext_is_rejected_by_decrypt_raw_for_non_ascii : test unit :=
  ct ← unwrap_ok (encrypt_bytes [0x100] crate_test_key [] draw s).1;
  err ← unwrap_err (decrypt_raw ct crate_test_key []);
  assert_that (contains (v7_error_text err) (str "byte range") || contains (v7_error_text err) (str "CVF-14")).

Definition wrong_aad_fails : test unit :=
  ct ← unwrap_ok (encrypt_bytes (str "secret") crate_test_key (bstr "good") draw s).1;
  assert_err (decrypt_bytes ct crate_test_key (bstr "bad")).

(** The last byte of the tag is flipped. *)
Definition v7_tampered (msg : list Z) : test unit :=
  ct ← unwrap_ok (encrypt_bytes msg crate_test_key [] draw s).1;
  last ← Z.of_nat (length ct) -! 1;
  ct ← update (Z.to_nat last) (flip x01) ct;
  assert_err (decrypt_bytes ct crate_test_key []).

Definition tamper_fails : test unit := v7_tampered (str "secret").
Definition empty_message_ciphertext_authenticates : test unit := v7_tampered [].

Definition v5_17_encrypt_rejects_non_scalar_input : test unit :=
  let key := [1000003; 1000033; 1000037; 1000039] in
  _ ← for_in (λ bad, assert_err (encrypt [0x41; bad] key draw s).1) [0xD800; 0xDFFF; 0x110000; 2 ^ 32 - 1];
  let msg := [0xE9; 0x1F600; 65] in
  r ← unwrap_ok (encrypt msg key draw s).1;
  pt ← unwrap_ok (decrypt r.1 r.2 key);
  assert_eq pt msg.
End one_nonce.

Definition cvf14_decrypt_returns_result_not_panic : test unit :=
  let bogus_tokens := replicate 20 0 in
  let bogus_nonce := replicate NONCE_SIZE x00 in
  assert_err (decrypt bogus_nonce bogus_tokens crate_test_key).

(** Three encryptions, one nonce each. *)
Definition v5_25_v7_cross_convention_behaviour_is_as_documented (draw1 draw2 draw3 : list byte) (s : crng_state) : test unit :=
  let key := [1000003; 1000033; 1000037; 1000039] in
  let '(r1, s) := encrypt_bytes [0xE9] key [] draw1 s in
  ct ← unwrap_ok r1;
  raw ← unwrap_ok (decrypt_raw ct key []);
  _ ← assert_eq raw [xe9];
  let '(r2, s) := encrypt_raw [xc3; xa9] key [] draw2 s in
  ct ← unwrap_ok r2;
  text ← unwrap_ok (decrypt_bytes ct key []);
  _ ← assert_eq text [0xC3; 0xA9];
  let '(r3, s) := encrypt_bytes [0x20AC] key [] draw3 s in
  ct ← unwrap_ok r3;
  assert_err (decrypt_raw ct key []).

(** [f64] 1.0. *)
Definition ONE_F64 : spec_float := binary_normalize 53 1024 1 0 false.

Definition v5_4_v7_emission_loop_is_bounded : test unit :=
  let key := [1000003; 1000033] in
  let kb := key_bytes key in
  let nonce := replicate NONCE_SIZE x03 in
  _ ← err_contains error_text "CVF-V5-4" (emit_tokens_v7 [0x41] kb nonce ONE_F64 key);
  assert_ok (emit_tokens_v7 [0x41] kb nonce (derive_noise_p kb nonce) key).

(** [a[..].try_into()] for a nonce. *)
Definition nonce_of (ct : list byte) : test (list byte) := index_range 0 NONCE_SIZE ct.

Definition cvf46_all_four_v7_encryptors_share_emitter (draw1 draw2 draw3 draw4 : list byte) (s : crng_state) : test unit :=
  let key := crate_test_key in
  let msg := str "hello CVF-46" in
  let aad := bstr "aad-check" in
  let '(r, s) := encrypt_bytes msg key aad draw1 s in
  ct_b ← unwrap_ok r;
  n ← nonce_of ct_b;
  again ← unwrap_ok (encrypt_bytes_with_nonce msg key n aad);
  _ ← assert_eq ct_b again;
  let '(r, s) := encrypt_raw (as_bytes msg) key aad draw2 s in
  ct_r ← unwrap_ok r;
  n ← nonce_of ct_r;
  again ← unwrap_ok (encrypt_bytes_with_nonce msg key n aad);
  _ ← assert_eq ct_r again;
  let '(r, s) := encrypt_str msg key aad draw3 s in
  text ← unwrap_ok r;
  ct_s ← unwrap (b64_decode (as_bytes text));
  n ← nonce_of ct_s;
  again ← unwrap_ok (encrypt_bytes_with_nonce msg key n aad);
  _ ← assert_eq ct_s again;
  let cps := msg in
  let '(r, s) := encrypt cps key draw4 s in
  e ← unwrap_ok r;
  let '(n_e, tokens) := e in
  reference ← unwrap_ok (encrypt_bytes_with_nonce msg key n_e aad);
  l ← Z.of_nat (length reference) -! Z.of_nat TAG_SIZE;
  masked ← index_range NONCE_SIZE (Z.to_nat l) reference;
  ks ← unwrap_ok (varint_keystream (key_bytes key) n_e (length masked));
  let blob := xor_bytes masked ks in
  decoded ← unwrap_ok (fixed_decode_tokens blob);
  assert_eq tokens decoded.

Definition v5_16_v7_decryptors_open_out_of_interval_archived_keys : test unit :=
  let key := [999983; 1000000; 20000003] in
  let nonce := replicate NONCE_SIZE x09 in
  let kb := key_bytes key in
  let msg := str "archived" in
  padded ← unwrap_ok (pad_message msg kb nonce);
  tokens ← unwrap_ok (emit_tokens_v7 padded kb nonce (derive_noise_p kb nonce) key);
  let blob := fixed_encode_tokens tokens in
  ks ← unwrap_ok (varint_keystream kb nonce (length blob));
  let ct := nonce ++ xor_bytes blob ks in
  tag ← unwrap_ok (compute_auth_tag kb (bstr "aad") ct AAD_LEN_WIDTH_V7);
  let ct := ct ++ tag in
  _ ← assert_err (validate_key key);
  pt ← unwrap_ok (decrypt_bytes ct key (bstr "aad"));
  _ ← assert_eq pt (str "archived");
  raw ← unwrap_ok (decrypt_raw ct key (bstr "aad"));
  _ ← assert_eq raw (bstr "archived");
  cps ← unwrap_ok (decrypt nonce tokens key);
  _ ← assert_eq cps msg;
  v7_policy_refusals.

(** Vector W009 of the block corpus. *)
Definition napqeskey_reproduces_v8_corpus_vector `{Json} (corpus : test (list Value)) : test unit :=
  corpus ← corpus;
  w ← unwrap (List.find (λ v, is_str (index "id" v) "W009") corpus);
  primes ← number_array "key" w;
  sk_bytes ← hex_field "sk_hex" w;
  sk ← sized SK_SIZE sk_bytes;
  aad ← hex_field "aad_hex" w;
  k ← unwrap_ok (NapqesKey_new primes sk);
  message ← unwrap (as_str (index "message" w));
  ct ← unwrap_ok (encrypt_bytes_v8_key message k aad);
  expected ← hex_field "ciphertext_hex" w;
  assert_eq ct expected.
End legacy_tests.

(** ** What the legacy tests decide *)

Section legacy_results.
Context `{Crypto} `{Gate} `{Base64} (Hgate : gate_open) (base64_error : list Z).

Lemma v7_test_key_valid : valid_key crate_test_key.
Proof using Type. apply validated_key; [repeat constructor; unfold fits; lia|vm_compute; reflexivity]. Qed.

(** The tag is compared before anything else is looked at. *)
Lemma open_v7_compares nonce masked tag key aad : Z.of_nat (length aad) < 2 ^ 32 → length nonce = NONCE_SIZE → length tag = TAG_SIZE →
  tag ≠ v7_tag key aad nonce masked → open_v7 ((nonce ++ masked) ++ tag) key aad = Err AuthenticationFailed.
Proof using Type.
  intros Ha Hn Ht Hne. unfold open_v7. rewrite check_v7_aad_len_Ok, bind_Ok by done.
  assert (length ((nonce ++ masked) ++ tag) = length (nonce ++ masked) + 32)%nat as Hlen by (rewrite length_app, Ht; done).
  assert (length (nonce ++ masked) = 16 + length masked)%nat as Hl2 by (rewrite length_app, Hn; done).
  unfold NONCE_SIZE, TAG_SIZE. rewrite (proj2 (Z.ltb_ge _ _)) by lia.
  bind_ok (apply checked_sub_Ok; lia).
  replace (Z.to_nat (Z.of_nat (length ((nonce ++ masked) ++ tag)) - Z.of_nat 32)) with (length (nonce ++ masked)) by lia.
  bind_ok (apply index_range_Ok; lia). bind_ok (apply index_range_Ok; lia).
  assert (slice 0 (length (nonce ++ masked)) ((nonce ++ masked) ++ tag) = nonce ++ masked) as ->
    by (unfold slice; by rewrite Nat.sub_0_r, drop_0, take_app_length).
  assert (slice (length (nonce ++ masked)) (length ((nonce ++ masked) ++ tag)) ((nonce ++ masked) ++ tag) = tag) as ->.
  { unfold slice. rewrite drop_app_length, Hlen. apply firstn_all2. rewrite Ht. unfold TAG_SIZE. lia. }
  rewrite compute_auth_tag_v7, bind_Ok by done. rewrite ct_eq_bytes_spec. by rewrite bool_decide_eq_false_2.
Qed.

Section fresh.
Context (draw : list byte) (s : crng_state) (Hdraw : length draw = NONCE_SIZE) (Hfresh : prev_nonce s ≠ Some draw).

(** The encryption either gives what opens to the message, or meets too long a run of noise. *)
Definition encrypts (msg : list Z) (aad : list byte) : Prop :=
  (∃ ct s', encrypt_bytes msg crate_test_key aad draw s = (Ok ct, s') ∧ open_v7 ct crate_test_key aad = Ok msg) ∨
  (encrypt_bytes msg crate_test_key aad draw s).1 = Err NoiseRunAborted.

Lemma encrypts_cases msg aad : str_ok msg → Z.of_nat (length msg) ≤ MAX_PLAINTEXT_CODEPOINTS → Z.of_nat (length aad) < 2 ^ 32 →
  encrypts msg aad.
Proof using Hgate Hdraw Hfresh.
  intros Hm Hl Ha. pose proof (sealed_cases crate_test_key aad draw Hgate v7_test_key_valid Hdraw msg s Hm) as Hc.
  unfold encrypts, encrypt_bytes. destruct (with_nonce _ _ _ _) as [[ct|e|p] s']; [left; by exists ct, s'|right|done].
  destruct Hc as [[_ ?]|[[_ ?]|[[_ ?]|Hc]]]; [lia|lia|done|]. cbn [fst]. by rewrite Hc.
Qed.

Lemma v7_round_trip_result msg aad : str_ok msg → Z.of_nat (length msg) ≤ MAX_PLAINTEXT_CODEPOINTS → Z.of_nat (length aad) < 2 ^ 32 →
  v7_round_trip draw s msg crate_test_key aad = Ok tt ∨ (encrypt_bytes msg crate_test_key aad draw s).1 = Err NoiseRunAborted.
Proof using Hgate Hdraw Hfresh.
  intros Hm Hl Ha. destruct (encrypts_cases msg aad Hm Hl Ha) as [(ct & s' & He & Ho)|Hr]; [left|by right].
  unfold v7_round_trip. rewrite He. cbn [fst unwrap_ok]. rewrite bind_Ok.
  rewrite (decrypt_bytes_of_open crate_test_key aad Hgate ct msg Ho Hm). cbn [unwrap_ok].
  rewrite bind_Ok. unfold assert_eq. by rewrite bool_decide_eq_true_2.
Qed.

Lemma str_round_trip_result : roundtrip_str_with_aad draw s = Ok tt ∨
  (encrypt_bytes (str "Authenticated payload") crate_test_key (bstr "hdr=1") draw s).1 = Err NoiseRunAborted.
Proof using Hgate Hdraw Hfresh.
  destruct (encrypts_cases (str "Authenticated payload") (bstr "hdr=1") ltac:(repeat constructor) ltac:(done) ltac:(done))
    as [(ct & s' & He & Ho)|Hr]; [left|by right].
  unfold roundtrip_str_with_aad, encrypt_str, decrypt_str. cbv zeta. rewrite Hgate, bind_Ok, validate_key_valid by apply v7_test_key_valid.
  rewrite He, !bind_Ok. cbn [fst unwrap_ok]. rewrite !bind_Ok, b64_roundtrip. cbn [opt_or]. rewrite bind_Ok.
  rewrite (decrypt_bytes_of_open _ _ Hgate ct _ Ho ltac:(repeat constructor)). reflexivity.
Qed.

Lemma raw_round_trip_result : cvf14_encrypt_raw_ciphertext_still_roundtrips_via_decrypt_raw draw s = Ok tt ∨
  (encrypt_raw (byte_of_Z <$> seqZ 0 256) crate_test_key (bstr "aad") draw s).1 = Err NoiseRunAborted.
Proof using Hgate Hdraw Hfresh.
  unfold cvf14_encrypt_raw_ciphertext_still_roundtrips_via_decrypt_raw, encrypt_raw. cbv zeta. set (data := byte_of_Z <$> seqZ 0 256).
  assert (str_ok (byte_to_Z <$> data)) as Hm by (apply latin1_ok).
  pose proof (sealed_cases crate_test_key (bstr "aad") draw Hgate v7_test_key_valid Hdraw (byte_to_Z <$> data) s Hm) as Hc.
  rewrite length_fmap in Hc. destruct (with_nonce _ _ _ _) as [[ct|e|p] s']; [left|right|done].
  - cbn [fst unwrap_ok]. rewrite bind_Ok, (decrypt_raw_bytes _ _ Hgate ct data Hc). cbn [unwrap_ok].
    rewrite bind_Ok. unfold assert_eq. by rewrite bool_decide_eq_true_2.
  - destruct Hc as [[_ ?]|[[_ Hl]|[[_ ?]|Hc]]]; [done| |done|cbn [fst]; by rewrite Hc].
    exfalso. unfold data in Hl. rewrite length_fmap, length_seqZ in Hl. done.
Qed.

Lemma non_ascii_result : cvf14_encrypt_bytes_ciphertext_is_rejected_by_decrypt_raw_for_non_ascii base64_error draw s = Ok tt ∨
  (encrypt_bytes [0x100] crate_test_key [] draw s).1 = Err NoiseRunAborted.
Proof using Hgate Hdraw Hfresh.
  destruct (encrypts_cases [0x100] [] ltac:(repeat constructor) ltac:(done) ltac:(done)) as [(ct & s' & He & Ho)|Hr]; [left|by right].
  unfold cvf14_encrypt_bytes_ciphertext_is_rejected_by_decrypt_raw_for_non_ascii. rewrite He. cbn [fst unwrap_ok]. rewrite bind_Ok.
  rewrite (decrypt_raw_of_open _ _ Hgate ct [] 0x100 [] Ho ltac:(lia)). vm_compute. reflexivity.
Qed.

(** What the tag of a v7 ciphertext covers. *)
Definition v7_covered (c aad : list byte) : list byte :=
  let payload := take (length c - TAG_SIZE) c in
  x03 :: take NONCE_SIZE payload ++ to_be_bytes 4 (Z.of_nat (length aad)) ++ aad ++ drop NONCE_SIZE payload.

Lemma v7_covered_layout nonce masked tag aad : length nonce = NONCE_SIZE → length tag = TAG_SIZE →
  v7_covered ((nonce ++ masked) ++ tag) aad = hmac_input x03 nonce (to_be_bytes 4 (Z.of_nat (length aad)) ++ aad ++ masked).
Proof using Type.
  clear Hdraw Hfresh. intros Hn Ht. unfold v7_covered. rewrite (length_app (nonce ++ masked)), Ht, Nat.add_sub, take_app_length.
  by rewrite take_app_length', drop_app_length' by done.
Qed.

(** What an encryption gives, in its parts. *)
Lemma opened_layout ct aad msg : Z.of_nat (length aad) < 2 ^ 32 → open_v7 ct crate_test_key aad = Ok msg →
  (48 ≤ length ct)%nat ∧ ∃ nonce masked, length nonce = NONCE_SIZE ∧ ct = (nonce ++ masked) ++ v7_tag crate_test_key aad nonce masked.
Proof using Type.
  clear Hdraw Hfresh. intros Ha Ho. assert (48 ≤ length ct)%nat as H48.
  { unfold open_v7, NONCE_SIZE, TAG_SIZE in Ho. rewrite check_v7_aad_len_Ok, bind_Ok in Ho by done. case_if_in Ho; [done|lia]. }
  destruct (block_layout ct H48) as (nonce & masked & tag & -> & Hn & Ht & _). split; [done|]. exists nonce, masked. split; [done|].
  destruct (decide (tag = v7_tag crate_test_key aad nonce masked)) as [->|]; [done|]. by rewrite open_v7_compares in Ho.
Qed.

(** A changed tag never opens. *)
Lemma v7_tampered_result msg : str_ok msg → Z.of_nat (length msg) ≤ MAX_PLAINTEXT_CODEPOINTS →
  v7_tampered draw s msg = Ok tt ∨ (encrypt_bytes msg crate_test_key [] draw s).1 = Err NoiseRunAborted.
Proof using Hgate Hdraw Hfresh.
  intros Hm Hl. destruct (encrypts_cases msg [] Hm Hl ltac:(done)) as [(ct & s' & He & Ho)|Hr]; [left|by right].
  unfold v7_tampered. rewrite He. cbn [fst unwrap_ok]. rewrite bind_Ok.
  destruct (opened_layout ct [] msg ltac:(done) Ho) as (H48 & nonce & masked & Hn & ->).
  set (tag := v7_tag crate_test_key [] nonce masked) in *. assert (length tag = TAG_SIZE) as Ht by apply length_hmac_digest.
  destruct (exists_last (l:=tag)) as (front & z & Hf); [by intros Hn0; rewrite Hn0 in Ht|].
  assert (length (front ++ [z]) = 32%nat) as Hfl by (by rewrite <-Hf). rewrite length_app in Hfl. cbn [length] in Hfl.
  bind_ok (apply checked_sub_Ok; lia).
  replace (Z.to_nat (Z.of_nat (length ((nonce ++ masked) ++ tag)) - 1)) with (length ((nonce ++ masked) ++ front))
    by (rewrite Hf, !length_app; cbn [length]; lia).
  rewrite Hf at 1. rewrite (app_assoc _ front [z]), update_Ok, bind_Ok, <-(app_assoc _ front).
  unfold decrypt_bytes. rewrite Hgate, bind_Ok, open_v7_compares; [done|done|done|unfold TAG_SIZE; rewrite length_app; cbn [length]; lia|].
  fold tag. rewrite Hf. intros Heq. apply app_inv_head in Heq. injection Heq as Heq. by apply (flip_changes z).
Qed.

Lemma empty_round_trip_result : empty_message_roundtrip draw s = Ok tt ∨
  (encrypt_bytes [] crate_test_key [] draw s).1 = Err NoiseRunAborted.
Proof using Hgate Hdraw Hfresh.
  destruct (encrypts_cases [] [] ltac:(constructor) ltac:(done) ltac:(done)) as [(ct & s' & He & Ho)|Hr]; [left|by right].
  unfold empty_message_roundtrip, encrypt_str. rewrite Hgate, bind_Ok, validate_key_valid by apply v7_test_key_valid.
  rewrite He, !bind_Ok. cbn [fst unwrap_ok]. rewrite !bind_Ok, b64_roundtrip. unfold unwrap. cbn [expect]. rewrite bind_Ok.
  destruct (opened_layout ct [] [] ltac:(done) Ho) as [H48 _]. rewrite bool_decide_eq_true_2 by done. cbn [assert_that].
  rewrite bind_Ok, (decrypt_bytes_of_open _ _ Hgate ct _ Ho ltac:(constructor)). reflexivity.
Qed.

(** The associated data is covered by the tag. *)
Lemma v7_wrong_aad_result : wrong_aad_fails draw s = Ok tt ∨
  (encrypt_bytes (str "secret") crate_test_key (bstr "good") draw s).1 = Err NoiseRunAborted ∨
  ∃ ct, (encrypt_bytes (str "secret") crate_test_key (bstr "good") draw s).1 = Ok ct ∧
    collides (key_bytes crate_test_key) (v7_covered ct (bstr "good")) (v7_covered ct (bstr "bad")).
Proof using Hgate Hdraw Hfresh.
  destruct (encrypts_cases (str "secret") (bstr "good") ltac:(repeat constructor) ltac:(done) ltac:(done))
    as [(ct & s' & He & Ho)|Hr]; [|by right; left].
  unfold wrong_aad_fails. rewrite He. cbn [fst unwrap_ok]. rewrite bind_Ok.
  destruct (opened_layout ct (bstr "good") (str "secret") ltac:(done) Ho) as (_ & nonce & masked & Hn & ->).
  destruct (decide (v7_tag crate_test_key (bstr "good") nonce masked = v7_tag crate_test_key (bstr "bad") nonce masked)) as [Heq|Hne].
  - right; right. eexists. split; [reflexivity|]. rewrite !v7_covered_layout by (done || apply length_hmac_digest).
    split; [|exact Heq]. intros Hx. apply hmac_input_inj in Hx as (_ & _ & Hx); [|done].
    apply app_inj_1 in Hx as [Hx _]; [|by rewrite !length_to_be_bytes]. by apply to_be_bytes_inj in Hx.
  - left. unfold decrypt_bytes. rewrite Hgate, bind_Ok, open_v7_compares; [done|done|done|apply length_hmac_digest|done].
Qed.
End fresh.

(** ** Tagged ciphertexts under bad keys *)

Lemma v7_tagged_layout key : ∃ nonce masked, length nonce = NONCE_SIZE ∧ length masked = 160%nat ∧
  v7_tagged_under key = Ok ((nonce ++ masked) ++ v7_tag key [] nonce masked).
Proof using Type.
  exists (replicate 16 x00), (replicate 160 x00). split_and!; [done|done|]. unfold v7_tagged_under.
  change (replicate (NONCE_SIZE + 8 * 20) x00) with (replicate 16 x00 ++ replicate 160 x00).
  rewrite compute_auth_tag_v7 by done. cbn [unwrap_ok]. by rewrite bind_Ok.
Qed.

(** The tag verifies, and the key policy answers. *)
Lemma tagged_opened key e : validate_key_v7_decrypt key = Err e →
  ∃ ct, v7_tagged_under key = Ok ct ∧ open_v7 ct key [] = Err e.
Proof using Type.
  intros He. destruct (v7_tagged_layout key) as (nonce & masked & Hn & Hm & ->). eexists. split; [done|].
  rewrite open_v7_layout; [|done|done|apply length_hmac_digest|lia]. by rewrite bool_decide_eq_true_2, He by done.
Qed.

(** A hundred zero bytes under the empty key: refused by the tag, unless the tag is zero. *)
Lemma zeros_refused : (open_v7 (replicate 100 x00) [] [] = Err AuthenticationFailed) ∨
  hmac_digest [] (v7_covered (replicate 100 x00) []) = replicate 32 x00.
Proof using Type.
  change (replicate 100 x00) with ((replicate 16 x00 ++ replicate 52 x00) ++ replicate 32 x00).
  rewrite open_v7_layout by done. case_bool_decide as Ht; [right|by left]. symmetry. exact Ht.
Qed.

Lemma empty_key_test_result : cvf15_v7_decrypt_bytes_rejects_empty_key base64_error = Ok tt ∨
  hmac_digest [] (v7_covered (replicate 100 x00) []) = replicate 32 x00.
Proof using Hgate.
  destruct zeros_refused as [Hz|Hz]; [left|by right]. unfold cvf15_v7_decrypt_bytes_rejects_empty_key, decrypt_bytes.
  destruct (tagged_opened [] EmptyKey eq_refl) as (ct & -> & Ho). rewrite Hgate, !bind_Ok, Hz, Ho. vm_compute. reflexivity.
Qed.

Lemma raw_bad_key_test_result : cvf15_v7_decrypt_raw_rejects_bad_key base64_error = Ok tt ∨
  hmac_digest [] (v7_covered (replicate 100 x00) []) = replicate 32 x00.
Proof using Hgate.
  destruct zeros_refused as [Hz|Hz]; [left|by right]. unfold cvf15_v7_decrypt_raw_rejects_bad_key, decrypt_raw.
  destruct (tagged_opened [5; 5] (DuplicatesEarlier 1) eq_refl) as (ct & -> & Ho). rewrite Hgate, !bind_Ok, Hz, Ho. vm_compute. reflexivity.
Qed.

Lemma str_bad_key_test_passes : cvf15_v7_decrypt_str_rejects_bad_key base64_error = Ok tt.
Proof using Hgate.
  unfold cvf15_v7_decrypt_str_rejects_bad_key, decrypt_str, decrypt_bytes.
  destruct (tagged_opened [1] (OutsideV7Range 0 1) eq_refl) as (ct & -> & Ho). rewrite Hgate, !bind_Ok, b64_roundtrip.
  cbn [opt_or]. rewrite !bind_Ok, Ho. vm_compute. reflexivity.
Qed.

(** ** Tokens that are not a ciphertext *)

(** No real token is zero, so zeros are noise or an error. *)
Lemma zero_tokens key kb nonce noise_p n p i : arith_key key → 0 ≤ i →
  decrypt_loop_v7 key kb nonce noise_p p i (replicate n 0) [] = Ok [] ∨
  ∃ e, decrypt_loop_v7 key kb nonce noise_p p i (replicate n 0) [] = Err e.
Proof using Type.
  intros Hkey Hi. revert p. induction n as [|n IH]; intros p; [by left|]. cbn [replicate decrypt_loop_v7].
  destruct (negb (is_noise_pos kb nonce p noise_p)); [|apply IH]. right.
  destruct (key_at_Ok key i Hkey Hi) as [-> Hk]. rewrite bind_Ok.
  destruct (derive_addend_cases kb nonce i (key_elem key i) ltac:(lia)) as (a & -> & Ha & _). rewrite bind_Ok.
  unfold recover_codepoint. rewrite (proj2 (Z.ltb_lt _ _)) by lia. eexists. reflexivity.
Qed.

Lemma bogus_tokens_test_passes : cvf14_decrypt_returns_result_not_panic = Ok tt.
Proof using Hgate.
  unfold cvf14_decrypt_returns_result_not_panic, decrypt, decrypt_core. rewrite Hgate, bind_Ok.
  change (validate_key_v7_decrypt crate_test_key) with (Ok (E:=error) tt). rewrite bind_Ok.
  destruct (zero_tokens crate_test_key (key_bytes crate_test_key) (replicate NONCE_SIZE x00)
    (derive_noise_p (key_bytes crate_test_key) (replicate NONCE_SIZE x00)) 20 0 0 (valid_key_arith _ v7_test_key_valid) ltac:(lia))
    as [->|[e ->]]; reflexivity.
Qed.
End legacy_results.

(** The legacy tests: with the gate open and a fresh nonce, each round trip and each test with a
    changed tag passes, or its encryption met too long a run of noise, or, in the test with other
    associated data, what the tag covers with the two has the same HMAC; those on bad keys under
    a valid tag and on tokens that are no ciphertext pass, the two with an all-zero tag unless
    that is the HMAC, under the empty key, of what the tag of a hundred zeros covers. *)
Theorem legacy_tests_pass `{Crypto} `{Gate} `{Base64} base64_error draw s :
  gate_open → length draw = NONCE_SIZE → prev_nonce s ≠ Some draw →
  let passes t msg aad := t = Ok tt ∨ (encrypt_bytes msg crate_test_key aad draw s).1 = Err NoiseRunAborted in
  passes (roundtrip_bytes draw s) (str "Hello, EpiCypher!") [] ∧
  passes (cvf14_encrypt_bytes_roundtrip_via_decrypt_bytes_unchanged draw s) (str "hello " ++ [0xE9] ++ str " world " ++ [0x1F600]) (bstr "aad") ∧
  passes (roundtrip_str_with_aad draw s) (str "Authenticated payload") (bstr "hdr=1") ∧
  passes (cvf14_encrypt_bytes_ciphertext_is_rejected_by_decrypt_raw_for_non_ascii base64_error draw s) [0x100] [] ∧
  passes (tamper_fails draw s) (str "secret") [] ∧
  passes (empty_message_ciphertext_authenticates draw s) [] [] ∧
  passes (empty_message_roundtrip draw s) [] [] ∧
  (passes (wrong_aad_fails draw s) (str "secret") (bstr "good") ∨
   ∃ ct, (encrypt_bytes (str "secret") crate_test_key (bstr "good") draw s).1 = Ok ct ∧
     collides (key_bytes crate_test_key) (v7_covered ct (bstr "good")) (v7_covered ct (bstr "bad"))) ∧
  (cvf14_encrypt_raw_ciphertext_still_roundtrips_via_decrypt_raw draw s = Ok tt ∨
   (encrypt_raw (byte_of_Z <$> seqZ 0 256) crate_test_key (bstr "aad") draw s).1 = Err NoiseRunAborted) ∧
  Forall (λ t, t = Ok tt) [cvf15_v7_decrypt_str_rejects_bad_key base64_error; cvf14_decrypt_returns_result_not_panic] ∧
  Forall (λ t, t = Ok tt ∨ hmac_digest [] (v7_covered (replicate 100 x00) []) = replicate 32 x00)
    [cvf15_v7_decrypt_bytes_rejects_empty_key base64_error; cvf15_v7_decrypt_raw_rejects_bad_key base64_error].
Proof.
  intros Hg Hd Hfr passes. split_and!.
  - apply v7_round_trip_result; try done. repeat constructor.
  - apply v7_round_trip_result; try done. repeat constructor.
  - by apply str_round_trip_result.
  - by apply non_ascii_result.
  - apply v7_tampered_result; try done. repeat constructor.
  - apply v7_tampered_result; try done. constructor.
  - by apply empty_round_trip_result.
  - destruct (v7_wrong_aad_result Hg draw s Hd Hfr) as [?|[?|?]]; [left; by left|left; by right|by right].
  - by apply raw_round_trip_result.
  - repeat apply Forall_cons_2; [by apply str_bad_key_test_passes|by apply bogus_tokens_test_passes|constructor].
  - repeat apply Forall_cons_2; [by apply empty_key_test_result|by apply raw_bad_key_test_result|constructor].
Qed.
