(* ===== verification/KemTests.v ===== *)
(** * Unit tests of key establishment ([kem.rs], [kem_exchange.rs])

    The tests of the KEM module and of the exchange. The seeds of the key pairs and of the
    encapsulations are arguments. *)
From Stdlib Require Import ZArith Lia Strings.Byte Strings.String.
From stdpp Require Import base tactics option numbers gmap list.
From S2P Require Import Prelude Machine Errors Crates Post Primes Keys Derive Padding Tokens BlockV8.
From S2P Require Import LegacyV7 StreamV8 OtFrame Kem KemExchange KatVectors SelfTest Report Messages CrossCheck.
From S2P Require Import FrameTests CrateTests CipherTests.

#[local] Open Scope Z_scope.
#[local] Open Scope napqes_scope.

(** [iter().all(f)] *)
Fixpoint all_in {A} (f : A → test bool) (l : list A) : test bool :=
  match l with [] => Ok true | x :: l => b ← f x; if (b : bool) then all_in f l else Ok false end.

Definition assert_ne {A} `{EqDecision A} (a b : A) : test unit := assert_that (negb (bool_decide (a = b))).

Definition in_range (p : Z) : bool := (MIN_PRIME <=? p) && (p <? MAX_PRIME).

(** [(a..=b).collect()] of bytes. *)
Definition bytes_from (first : Z) (n : Z) : list byte := byte_of_Z <$> seqZ first n.

Section kem_tests.
Context `{Crypto} `{Hkdf} `{Gate} `{Frodo} `{X25519}.

(** ** FrodoKEM alone *)

Definition test_roundtrip (s1 s2 : list byte) : test unit :=
  let '(pk, sk) := keygen s1 in
  r ← unwrap_ok (encapsulate pk s2);
  let '(ct, key_bob) := r in
  key_alice ← unwrap_ok (decapsulate ct sk);
  assert_eq key_bob key_alice.

Definition test_key_count (s1 s2 : list byte) : test unit :=
  let '(pk, _) := keygen s1 in
  r ← unwrap_ok (encapsulate pk s2);
  assert_eq (Z.of_nat (length r.2)) NAPQES_KEY_COUNT.

Definition test_key_elements_in_range (s1 s2 : list byte) : test unit :=
  let '(pk, _) := keygen s1 in
  r ← unwrap_ok (encapsulate pk s2);
  for_in (λ p, assert_that (in_range p)) r.2.

Definition test_key_elements_distinct (s1 s2 : list byte) : test unit :=
  let '(pk, _) := keygen s1 in
  r ← unwrap_ok (encapsulate pk s2);
  assert_eq (distinct r.2) (length r.2).

Definition test_key_elements_are_prime (s1 s2 : list byte) : test unit :=
  let '(pk, _) := keygen s1 in
  r ← unwrap_ok (encapsulate pk s2);
  assert (all_in is_prime r.2).

Definition test_derive_is_deterministic : test unit :=
  let secret := bstr "test-shared-secret-16b" in
  key1 ← unwrap_ok (derive_napqes_key secret);
  key2 ← unwrap_ok (derive_napqes_key secret);
  assert_eq key1 key2.

Definition test_different_secrets_give_different_keys : test unit :=
  key1 ← unwrap_ok (derive_napqes_key (bstr "aaaaaaaaaaaaaaaa"));
  key2 ← unwrap_ok (derive_napqes_key (bstr "bbbbbbbbbbbbbbbb"));
  assert_ne key1 key2.

Definition test_wrong_sk_gives_different_key (s1 s2 s3 : list byte) : test unit :=
  let '(pk, _) := keygen s1 in
  r ← unwrap_ok (encapsulate pk s2);
  let '(_, wrong_sk) := keygen s3 in
  key_wrong ← unwrap_ok (decapsulate r.1 wrong_sk);
  assert_ne key_wrong r.2.

Definition test_key_sizes (s1 s2 : list byte) : test unit :=
  let '(pk, sk) := keygen s1 in
  r ← unwrap_ok (encapsulate pk s2);
  _ ← assert_eq (length pk) (Z.to_nat 9616);
  _ ← assert_eq (length sk) (Z.to_nat 19888);
  assert_eq (length r.1) (Z.to_nat 9720).

Definition test_derive_cross_language_vector : test unit :=
  key ← unwrap_ok (derive_napqes_key (replicate 16 x00));
  assert_eq key [11530619; 13297909; 9920357; 13069411; 5196311; 6762001; 12497731; 7518361; 12559777; 1531199;
                 14203867; 10311841; 13788101].

Definition test_derive_v8_sk_cross_language_vector : test unit :=
  let sk := derive_v8_sk (bytes_from 0 16) in
  _ ← assert_eq (to_hex sk) (str "7f73b293ead8a33c31bcab44d159e16dd4f12dcc89ba35877f21a75cbd42b9db");
  assert_ne sk (derive_v8_sk (replicate 16 x00)).

Definition test_v8_encapsulate_decapsulate_agree (s1 s2 : list byte) : test unit :=
  let '(pk, sk') := keygen s1 in
  r ← unwrap_ok (encapsulate_v8 pk s2);
  let '(ct, key_a) := r in
  key_b ← unwrap_ok (decapsulate_v8 ct sk');
  _ ← assert_eq (primes key_a) (primes key_b);
  _ ← assert_eq (sk key_a) (sk key_b);
  msg ← unwrap_ok (encrypt_bytes_v8_key (str "frame") key_a []);
  pt ← unwrap_ok (decrypt_bytes_v8_key msg key_b []);
  assert_eq pt (str "frame").

(** ** FrodoKEM and X25519 *)

(** [concat] of the two lines of the literal; the [replace] removes nothing from it. *)
Definition expected_transcript : list Z :=
  str "763200000005504b2d50510000000543542d50510000000c" ++ str "504b2d45432d53544154494300000009504b2d45432d455048".

Definition test_derive_hybrid_cross_language_vector : test unit :=
  let transcript := hybrid_transcript (bstr "PK-PQ") (bstr "CT-PQ") (bstr "PK-EC-STATIC") (bstr "PK-EC-EPH") in
  _ ← assert_eq (to_hex transcript) (filter (λ c, c ≠ 92 ∧ c ≠ 32 ∧ c ≠ 10) expected_transcript);
  let ss_ec := bytes_from 1 32 in
  key ← unwrap_ok (derive_napqes_key_hybrid (replicate 16 x00) ss_ec transcript);
  assert_eq key [2992559; 2913523; 2740301; 1977709; 5330359; 13077137; 6210319; 11896091; 14291593; 8698397;
                 12129883; 1604143; 10450267].

Definition test_hybrid_roundtrip (s1 sk_ec s2 eph : list byte) : test unit :=
  let '(pk, sk) := keygen_hybrid s1 sk_ec in
  _ ← assert_eq (Z.of_nat (length pk)) HYBRID_PUBLIC_KEY_SIZE;
  _ ← assert_eq (Z.of_nat (length sk)) HYBRID_SECRET_KEY_SIZE;
  r ← unwrap_ok (encapsulate_hybrid pk s2 eph);
  let '(ct, key_bob) := r in
  _ ← assert_eq (Z.of_nat (length ct)) HYBRID_CIPHERTEXT_SIZE;
  key_alice ← unwrap_ok (decapsulate_hybrid ct sk);
  _ ← assert_eq key_bob key_alice;
  _ ← assert_eq (Z.of_nat (length key_bob)) NAPQES_KEY_COUNT;
  assert (all_in (λ p, b ← is_prime p; Ok (b && in_range p)) key_bob).

Definition test_hybrid_each_session_is_fresh (s1 sk_ec s2 eph s2' eph' : list byte) : test unit :=
  let '(pk, _) := keygen_hybrid s1 sk_ec in
  r1 ← unwrap_ok (encapsulate_hybrid pk s2 eph);
  r2 ← unwrap_ok (encapsulate_hybrid pk s2' eph');
  assert_ne r1.2 r2.2.

Definition test_hybrid_transcript_binds_the_classical_half (s1 sk_ec s2 eph s2' eph' : list byte) : test unit :=
  let '(pk, sk) := keygen_hybrid s1 sk_ec in
  r1 ← unwrap_ok (encapsulate_hybrid pk s2 eph);
  r2 ← unwrap_ok (encapsulate_hybrid pk s2' eph');
  spliced ← index_range 0 (Z.to_nat FRODO_CIPHERTEXT_SIZE) r1.1;
  other ← index_range (Z.to_nat FRODO_CIPHERTEXT_SIZE) (length r2.1) r2.1;
  derived ← unwrap_ok (decapsulate_hybrid (spliced ++ other) sk);
  assert_ne derived r1.2.

Definition test_hybrid_rejects_all_zero_x25519_secret (base64_error : list Z) : test unit :=
  err_contains (error_text base64_error) "all-zero" (derive_napqes_key_hybrid (replicate 16 x00) (replicate 32 x00) (bstr "info")).

(** [&blob[..blob.len() - 1]] *)
Definition without_last (blob : list byte) : test (list byte) :=
  l ← Z.of_nat (length blob) -! 1; index_range 0 (Z.to_nat l) blob.

Definition test_hybrid_rejects_malformed_blobs (s1 sk_ec s2 eph : list byte) : test unit :=
  let '(pk, sk) := keygen_hybrid s1 sk_ec in
  r ← unwrap_ok (encapsulate_hybrid pk s2 eph);
  short_pk ← without_last pk;
  _ ← assert_err (encapsulate_hybrid short_pk s2 eph);
  short_ct ← without_last r.1;
  _ ← assert_err (decapsulate_hybrid short_ct sk);
  short_sk ← without_last sk;
  assert_err (decapsulate_hybrid r.1 short_sk).

Definition test_hybrid_and_frodo_only_are_domain_separated : test unit :=
  let ss_pq := bytes_from 0 16 in
  let ss_ec := bytes_from 1 32 in
  legacy ← unwrap_ok (derive_napqes_key ss_pq);
  hybrid ← unwrap_ok (derive_napqes_key_hybrid ss_pq ss_ec (bstr "v2"));
  assert_ne legacy hybrid.

(** ** The exchange *)

(** What the test does with the results of the two parties. Every insertion into the set is
    new exactly when there are as many distinct elements as elements. *)
Definition kem_exchange_derives_same_key (initiator responder : outcome exchange_error NapqesKey) : test unit :=
  init_key ← unwrap_ok initiator;
  resp_key ← unwrap_ok responder;
  _ ← assert_eq (primes init_key) (primes resp_key);
  _ ← assert_eq (sk init_key) (sk resp_key);
  _ ← assert_that (0 <? Z.of_nat (NapqesKey_k init_key));
  _ ← for_in (λ p, assert (is_prime p)) (primes init_key);
  assert_eq (distinct (primes init_key)) (length (primes init_key)).
End kem_tests.

(** ** Results *)

(** The test passes unless the counter of the expansion of a seed overflows, which panics. *)
Definition passes_or_overflows (t : test unit) : Prop := t = Ok tt ∨ t = Panic PanicOverflow.

Lemma all_in_Ok {A} (f : A → test bool) l : Forall (λ x, f x = Ok true) l → all_in f l = Ok true.
Proof. induction 1 as [|x l Hx _ IH]; [done|]. cbn [all_in]. by rewrite Hx, bind_Ok. Qed.

Lemma distinct_valid ps : valid_key ps → distinct ps = length ps.
Proof. intros (_ & _ & _ & Hnd). unfold distinct. by apply size_list_to_set. Qed.

Lemma valid_in_range ps : valid_key ps → Forall (λ p, in_range p = true ∧ is_prime (E:=Empty_set) p = Ok true) ps.
Proof.
  intros (_ & _ & Hall & _). eapply Forall_impl; [exact Hall|]. intros p [Hr Hp].
  unfold in_range, MIN_PRIME, MAX_PRIME, MIN_KEY_PRIME, MAX_KEY_PRIME in *. split.
  - rewrite (proj2 (Z.leb_le _ _)) by lia. by rewrite (proj2 (Z.ltb_lt _ _)) by lia.
  - rewrite is_prime_spec by (unfold fits; lia). by rewrite bool_decide_eq_true_2.
Qed.

Lemma assert_eq_of {A} `{EqDecision A} (a b : A) : a = b → assert_eq a b = Ok tt.
Proof. intros ->. apply assert_eq_refl. Qed.

Lemma without_last_Ok blob : 0 < Z.of_nat (length blob) →
  ∃ short, without_last blob = Ok short ∧ Z.of_nat (length short) = Z.of_nat (length blob) - 1.
Proof.
  intros Hl. unfold without_last. bind_ok (apply checked_sub_Ok; lia).
  rewrite index_range_Ok by lia. eexists. split; [done|]. unfold slice. rewrite length_take, length_drop. lia.
Qed.

Section frodo_results.
Context `{Crypto} `{Hkdf} `{Gate} `{Frodo} (Hgate : gate_open) (Hsizes : frodo640_sizes).

Lemma derived_twice ss :
  passes_or_overflows (key1 ← unwrap_ok (derive_napqes_key ss); key2 ← unwrap_ok (derive_napqes_key ss); assert_eq key1 key2).
Proof using Type.
  pose proof (derive_napqes_key_cases ss) as Hc. destruct (derive_napqes_key ss) as [key|e|p]; [|done|right; by subst].
  left. cbn [unwrap_ok]. rewrite !bind_Ok. apply assert_eq_refl.
Qed.

Lemma frodo_tests_pass s1 s2 :
  Forall passes_or_overflows [test_roundtrip s1 s2; test_key_count s1 s2; test_key_elements_in_range s1 s2;
    test_key_elements_distinct s1 s2; test_key_elements_are_prime s1 s2; test_key_sizes s1 s2; test_derive_is_deterministic].
Proof using Hgate Hsizes.
  pose proof (encapsulate_cases Hgate s1 s2) as Hc. destruct Hsizes as (Hpl & Hsl & Hcl).
  destruct (length_frodo_keypair s1) as [Hpk Hsk].
  assert (∀ t : list byte * list byte → list byte * list Z → test unit,
    (∀ ct key, encapsulate (keygen s1).1 s2 = Ok (ct, key) → t (keygen s1) (ct, key) = Ok tt) →
    passes_or_overflows (r ← unwrap_ok (encapsulate (keygen s1).1 s2); t (keygen s1) r)) as Hrun.
  { intros t Ht. destruct (encapsulate (keygen s1).1 s2) as [[ct key]|e|p]; [|done|right; by rewrite Hc].
    left. cbn [unwrap_ok]. rewrite bind_Ok. by apply Ht. }
  unfold test_roundtrip, test_key_count, test_key_elements_in_range, test_key_elements_distinct, test_key_elements_are_prime, test_key_sizes.
  unfold keygen in *. destruct (frodo_keypair s1) as [pk sk]. cbn [fst snd] in *.
  repeat apply Forall_cons_2; [..|constructor]; [| | | | | |apply derived_twice].
  - apply (Hrun (λ k r, let '(ct, key_bob) := r in key_alice ← unwrap_ok (decapsulate ct k.2); assert_eq key_bob key_alice)).
    intros ct key He. rewrite He in Hc. cbn [fst snd]. destruct Hc as (-> & _). cbn [unwrap_ok]. rewrite bind_Ok. apply assert_eq_refl.
  - apply (Hrun (λ _ r, assert_eq (Z.of_nat (length r.2)) NAPQES_KEY_COUNT)). intros ct key He. rewrite He in Hc.
    destruct Hc as (_ & _ & _ & Hl). cbn [snd]. by rewrite Hl.
  - apply (Hrun (λ _ r, for_in (λ p, assert_that (in_range p)) r.2)). intros ct key He. rewrite He in Hc.
    destruct Hc as (_ & Hv & _). apply for_in_Ok. eapply Forall_impl; [by apply valid_in_range|]. by intros p [-> _].
  - apply (Hrun (λ _ r, assert_eq (distinct r.2) (length r.2))). intros ct key He. rewrite He in Hc.
    destruct Hc as (_ & Hv & _). by apply assert_eq_of, distinct_valid.
  - apply (Hrun (λ _ r, assert (all_in is_prime r.2))). intros ct key He. rewrite He in Hc.
    destruct Hc as (_ & Hv & _). unfold assert. rewrite all_in_Ok; [done|].
    eapply Forall_impl; [by apply valid_in_range|]. by intros p [_ Hp].
  - apply (Hrun (λ k r, _ ← assert_eq (length k.1) (Z.to_nat 9616); _ ← assert_eq (length k.2) (Z.to_nat 19888);
      assert_eq (length r.1) (Z.to_nat 9720))). intros ct key He. rewrite He in Hc. destruct Hc as (_ & _ & Hl & _).
    unfold FRODO_PUBLIC_KEY_SIZE, FRODO_SECRET_KEY_SIZE, FRODO_CIPHERTEXT_SIZE in *. cbn [fst snd].
    rewrite !assert_eq_of by lia. done.
Qed.

Lemma v8_agree_result s1 s2 : passes_or_overflows (test_v8_encapsulate_decapsulate_agree s1 s2).
Proof using Hgate.
  pose proof (encapsulate_v8_cases Hgate s1 s2) as Hc. unfold test_v8_encapsulate_decapsulate_agree.
  destruct (keygen s1) as [pk sk']. cbn [fst snd] in Hc.
  destruct (encapsulate_v8 pk s2) as [[ct key]|e|p]; [|done|right; by subst].
  destruct Hc as (Hd & Hv & _). left. cbn [unwrap_ok]. rewrite bind_Ok, Hd. cbn [unwrap_ok].
  rewrite bind_Ok, !assert_eq_refl, !bind_Ok.
  destruct (v8_key_encrypts Hgate (str "frame") key [] 16 Hv ltac:(repeat constructor) eq_refl) as (c & -> & Hdec).
  cbn [unwrap_ok]. rewrite bind_Ok, Hdec. cbn [unwrap_ok]. rewrite bind_Ok. apply assert_eq_refl.
Qed.

Lemma exchange_test_result s1 s2 rk ik : connected s1 s2 rk ik → passes_or_overflows (kem_exchange_derives_same_key ik rk).
Proof using Hgate Hsizes.
  intros Hc. apply (connected_cases Hgate Hsizes) in Hc. pose proof (encapsulate_v8_cases Hgate s1 s2) as He.
  destruct (encapsulate_v8 (keygen s1).1 s2) as [[ct key]|e|p]; [|done|].
  - destruct Hc as [-> ->]. destruct He as (_ & Hv & Hk & _). left. unfold kem_exchange_derives_same_key.
    cbn [unwrap_ok]. rewrite !bind_Ok, !assert_eq_refl, !bind_Ok, Hk. change (0 <? Z.of_nat 13) with true. cbn [assert_that]. rewrite bind_Ok.
    assert (for_in (λ p, assert (is_prime p)) (primes key) = Ok tt) as ->.
    { apply for_in_Ok. eapply Forall_impl; [by apply valid_in_range|]. intros p [_ Hp]. unfold assert. by rewrite Hp. }
    rewrite bind_Ok. by apply assert_eq_of, distinct_valid.
  - destruct Hc as [-> ->]. right. by subst.
Qed.
End frodo_results.

Section hybrid_results.
Context `{Crypto} `{Hkdf} `{Gate} `{Frodo} `{X25519} (Hgate : gate_open) (Hsizes : frodo640_sizes).

(** The unit test and KAT-8 pin the same answer. *)
Lemma hybrid_vector_test : 
  test_derive_hybrid_cross_language_vector = Ok tt ↔
  derive_napqes_key_hybrid (replicate 16 x00) (byte_of_Z <$> seqZ 1 32)
    (hybrid_transcript (list_byte_of_string "PK-PQ") (list_byte_of_string "CT-PQ")
       (list_byte_of_string "PK-EC-STATIC") (list_byte_of_string "PK-EC-EPH")) = Ok KAT_HYBRID_EXPECTED_KEY.
Proof using Type.
  unfold test_derive_hybrid_cross_language_vector, bstr, bytes_from. cbv zeta.
  rewrite assert_eq_of by (vm_compute; reflexivity). rewrite bind_Ok, bind_Ok_iff. split.
  - intros (key & Hk & Heq). apply (proj1 (unwrap_ok_Ok _ _)) in Hk. rewrite Hk. f_equal.
    unfold assert_eq in Heq. by apply assert_that_Ok, bool_decide_eq_true in Heq.
  - intros Hk. exists KAT_HYBRID_EXPECTED_KEY. split; [by apply (proj2 (unwrap_ok_Ok _ _))|]. by apply assert_eq_of.
Qed.

Lemma all_zero_test_passes base64_error : test_hybrid_rejects_all_zero_x25519_secret base64_error = Ok tt.
Proof using Type. unfold test_hybrid_rejects_all_zero_x25519_secret, derive_napqes_key_hybrid. vm_compute. reflexivity. Qed.

Context (s1 sk_ec s2 eph : list byte) (Hec : Z.of_nat (length sk_ec) = X25519_KEY_SIZE).
Context (Hpoint : x25519_dh eph (x25519_public sk_ec) ≠ replicate 32 x00).

Lemma hybrid_sizes :
  Z.of_nat (length (keygen_hybrid s1 sk_ec).1) = HYBRID_PUBLIC_KEY_SIZE ∧
  Z.of_nat (length (keygen_hybrid s1 sk_ec).2) = HYBRID_SECRET_KEY_SIZE.
Proof using Hsizes Hec.
  destruct Hsizes as (Hpl & Hsl & _). destruct (length_frodo_keypair s1) as [Hpk Hsk].
  unfold keygen_hybrid. destruct (frodo_keypair s1) as [pk sk]. cbn [fst snd] in *.
  rewrite !length_app, length_x25519_public. unfold HYBRID_PUBLIC_KEY_SIZE, HYBRID_SECRET_KEY_SIZE, X25519_KEY_SIZE in *. lia.
Qed.

Lemma hybrid_roundtrip_result : passes_or_overflows (test_hybrid_roundtrip s1 sk_ec s2 eph).
Proof using Hgate Hsizes Hec Hpoint.
  pose proof (encapsulate_hybrid_cases Hgate s1 sk_ec s2 eph Hsizes Hec) as Hc. destruct hybrid_sizes as [Hpk Hsk].
  unfold test_hybrid_roundtrip. destruct (keygen_hybrid s1 sk_ec) as [pk sk]. cbn [fst snd] in *.
  rewrite !(assert_eq_of (Z.of_nat _)), !bind_Ok by done.
  destruct (encapsulate_hybrid pk s2 eph) as [[ct key]|e|p]; [|by destruct Hc|right; by subst].
  destruct Hc as (Hd & Hv & Hct & Hl). left. cbn [unwrap_ok]. rewrite bind_Ok. rewrite (assert_eq_of (Z.of_nat (length ct)) _ Hct), bind_Ok, Hd.
  cbn [unwrap_ok]. rewrite bind_Ok, assert_eq_refl, bind_Ok, Hl. rewrite assert_eq_of, bind_Ok by done.
  unfold assert. rewrite all_in_Ok; [done|]. eapply Forall_impl; [by apply valid_in_range|].
  intros p [Hr Hp]. by rewrite Hp, bind_Ok, Hr.
Qed.

Lemma malformed_blobs_result : passes_or_overflows (test_hybrid_rejects_malformed_blobs s1 sk_ec s2 eph).
Proof using Hgate Hsizes Hec Hpoint.
  pose proof (encapsulate_hybrid_cases Hgate s1 sk_ec s2 eph Hsizes Hec) as Hc. destruct hybrid_sizes as [Hpk Hsk].
  unfold test_hybrid_rejects_malformed_blobs. destruct (keygen_hybrid s1 sk_ec) as [pk sk]. cbn [fst snd] in *.
  destruct (encapsulate_hybrid pk s2 eph) as [[ct key]|e|p]; [|by destruct Hc|right; by subst].
  destruct Hc as (_ & _ & Hct & _). left. cbn [unwrap_ok]. rewrite bind_Ok. cbn [fst].
  unfold HYBRID_PUBLIC_KEY_SIZE, HYBRID_SECRET_KEY_SIZE, HYBRID_CIPHERTEXT_SIZE, FRODO_PUBLIC_KEY_SIZE,
    FRODO_SECRET_KEY_SIZE, FRODO_CIPHERTEXT_SIZE, X25519_KEY_SIZE in *.
  destruct (without_last_Ok pk) as (spk & -> & Hspk); [lia|]. destruct (without_last_Ok ct) as (sct & -> & Hsct); [lia|].
  destruct (without_last_Ok sk) as (ssk & -> & Hssk); [lia|]. rewrite !bind_Ok.
  unfold encapsulate_hybrid, decapsulate_hybrid. rewrite Hgate, !bind_Ok, Hspk, Hsct, Hssk, Hct, Hpk, Hsk. reflexivity.
Qed.
End hybrid_results.

(** The tests of key establishment: with the gate open and FrodoKEM of the sizes the code
    expects, the tests of round trips, of the shape of keys and of malformed blobs pass
    whatever the primitives compute, except that a seed whose expansion overflows its counter
    panics; so does the test of the exchange on every run of a connection; the all-zero X25519
    secret is refused; and the pinned hybrid answer is the one KAT-8 pins. *)
Theorem kem_tests_pass `{Crypto} `{Hkdf} `{Gate} `{Frodo} `{X25519} base64_error s1 s2 sk_ec eph :
  gate_open → frodo640_sizes → Z.of_nat (length sk_ec) = X25519_KEY_SIZE →
  x25519_dh eph (x25519_public sk_ec) ≠ replicate 32 x00 →
  Forall passes_or_overflows
    [test_roundtrip s1 s2; test_key_count s1 s2; test_key_elements_in_range s1 s2; test_key_elements_distinct s1 s2;
     test_key_elements_are_prime s1 s2; test_key_sizes s1 s2; test_derive_is_deterministic;
     test_v8_encapsulate_decapsulate_agree s1 s2; test_hybrid_roundtrip s1 sk_ec s2 eph;
     test_hybrid_rejects_malformed_blobs s1 sk_ec s2 eph] ∧
  (∀ rk ik, connected s1 s2 rk ik → passes_or_overflows (kem_exchange_derives_same_key ik rk)) ∧
  test_hybrid_rejects_all_zero_x25519_secret base64_error = Ok tt ∧
  (test_derive_hybrid_cross_language_vector = Ok tt ↔
   derive_napqes_key_hybrid (replicate 16 x00) (byte_of_Z <$> seqZ 1 32)
     (hybrid_transcript (list_byte_of_string "PK-PQ") (list_byte_of_string "CT-PQ")
        (list_byte_of_string "PK-EC-STATIC") (list_byte_of_string "PK-EC-EPH")) = Ok KAT_HYBRID_EXPECTED_KEY).
Proof.
  intros Hg Hs Hec Hp. split_and!.
  - apply (Forall_app _ [_; _; _; _; _; _; _]). split; [by apply frodo_tests_pass|].
    repeat apply Forall_cons_2; [..|constructor].
    + by apply v8_agree_result.
    + by apply hybrid_roundtrip_result.
    + by apply malformed_blobs_result.
  - intros rk ik. by apply exchange_test_result.
  - apply all_zero_test_passes.
  - apply hybrid_vector_test.
Qed.
