(* ===== verification/ModuleTests.v ===== *)
(** * Unit tests of the self-tests and of the wiping functions ([self_test.rs], [lib.rs])

    The tests of [self_test.rs], those run with the gate compiled in, and the tests of
    [zeroize_key], [zeroize_sk] and [zeroize_codepoints]. The contents of the files a test
    writes are arguments of the checks, and the latch is threaded. *)
From Stdlib Require Import ZArith Lia Strings.Byte Strings.String.
From stdpp Require Import base tactics option numbers relations gmap list.
From S2P Require Import Prelude Machine Errors Crates Post Primes Keys Derive Padding Tokens BlockV8.
From S2P Require Import LegacyV7 StreamV8 OtFrame Kem KatVectors SelfTest PostLatch Wipe Messages CrossCheck.
From S2P Require Import FrameTests CrateTests CipherTests KemTests.

#[local] Open Scope Z_scope.
#[local] Open Scope napqes_scope.

#[local] Instance outcome_eq_dec {E A} `{EqDecision E, EqDecision A} : EqDecision (outcome E A).
Proof. solve_decision. Defined.

(** ** Wiping *)

Definition all_zero (cells : list Z) : test unit := assert_that (forallb (λ x, x =? 0) cells).

Definition zeroize_key_clears_memory : test unit :=
  let '(p, h) := allocate crate_test_key [] in
  let k := MkVec p (length crate_test_key) in
  let h := Wipe.zeroize_key k h in
  all_zero (vec_read h k).

Definition v8_zeroize_sk_clears_memory : test unit :=
  let '(p, h) := allocate (byte_to_Z <$> test_sk) [] in
  let h := Wipe.zeroize_sk p h in
  all_zero (cells (region_at h p)).

(** [fresh] is what the allocator hands out for a capacity of 8. *)
Definition v5_11_zeroize_codepoints_wipes_spare_capacity (fresh : list Z) : test unit :=
  let '(buf, h) := with_capacity fresh [] in
  let '(buf, h) := foldl (λ '(v, h) c, vec_push c v h) (buf, h) [0x41; 0x42; 0x43; 0x44; 0x45] in
  let buf := MkVec (vec_ptr buf) 2 in
  let cap := Wipe.capacity h buf in
  let '(buf, h) := Wipe.zeroize_codepoints buf h in
  _ ← assert_eq (vec_len buf) 0%nat;
  _ ← assert_eq (Wipe.capacity h buf) cap;
  let buf := MkVec (vec_ptr buf) cap in
  all_zero (vec_read h buf).

(** ** The gate *)

Definition cvf47_gate_decision_table : test unit :=
  _ ← assert_eq (gate_admit POST_NOT_RUN false) (Err ModuleNotOperational);
  _ ← assert_eq (gate_admit POST_NOT_RUN true) (Err ModuleNotOperational);
  _ ← assert_eq (gate_admit POST_RUNNING false) (Err ModuleNotOperational);
  _ ← assert_eq (gate_admit POST_RUNNING true) (Ok tt);
  _ ← assert_eq (gate_admit POST_PASSED false) (Ok tt);
  _ ← assert_eq (gate_admit POST_FAILED false) (Err ModuleNotOperational);
  assert_eq (gate_admit POST_FAILED true) (Err ModuleNotOperational).

Section self_tests.
Context `{Crypto} `{Sha256} `{Hkdf} `{Frodo} `{X25519}.

(** ** Integrity *)

(** The module image and its reference as the test leaves them before each call. *)
Definition int2_software_integrity_detects_modification : test unit :=
  let v1 := bstr "module image v1" in
  let v2 := bstr "module image v2" in
  _ ← assert_eq (verify_module_integrity ReadNotFound (ReadOk v1)) (Ok false);
  let sidecar := to_hex (integrity_tag v1) ++ [10] in
  _ ← assert_eq (verify_module_integrity (ReadOk sidecar) (ReadOk v1)) (Ok true);
  _ ← assert_eq (verify_module_integrity (ReadOk sidecar) (ReadOk v2)) (Err IntegrityCheckFailed);
  assert_eq (verify_module_integrity (ReadOk (str "00")) (ReadOk v2)) (Err IntegrityCheckFailed).

(** ** Single known-answer tests *)

Section single.
Context `{Gate} (KAT_FRODO_DECAP : list byte) (e : post_env).

Definition kat1_encrypt_matches_reference : test unit := unwrap_ok kat_encrypt.
Definition kat2_decrypt_matches_plaintext : test unit := unwrap_ok kat_decrypt.
Definition kat3_tampered_ciphertext_rejected : test unit := unwrap_ok kat_tamper_rejection.
Definition kat4_v8_encrypt_roundtrip : test unit := unwrap_ok kat_v8_encrypt.
Definition kat5_v8_decrypt_roundtrip : test unit := unwrap_ok kat_v8_decrypt.
Definition kat6_v8_structural_reject : test unit := unwrap_ok kat_v8_structural_reject.
Definition kat7_v8_tampered_ciphertext_rejected : test unit := unwrap_ok kat_v8_tamper_rejection.
Definition kat8_kem_derivation_and_pairwise_consistency : test unit := unwrap_ok (kat_kem KAT_FRODO_DECAP e).
Definition kat9_11_stream : test unit := unwrap_ok kat_stream.

Definition kat8_frodo_decap_is_a_known_answer : test unit :=
  parts ← unwrap_ok (split_at FRODO_SECRET_KEY_SIZE KAT_FRODO_DECAP);
  let '(sk, ct) := parts in
  _ ← assert_eq (Z.of_nat (length ct)) FRODO_CIPHERTEXT_SIZE;
  key ← unwrap_ok (decapsulate ct sk);
  _ ← assert_eq key KAT_FRODO_EXPECTED_KEY;
  bad ← update 0 (flip x01) ct;
  key ← unwrap_ok (decapsulate bad sk);
  assert_ne key KAT_FRODO_EXPECTED_KEY.

Definition kat6_forgery_passes_the_tag : test unit :=
  ct ← unwrap_ok (encrypt_bytes_v8 KAT_V8_MESSAGE KAT_V8_PRIMES KAT_V8_SK KAT_V8_AAD);
  tag_at ← Z.of_nat (length ct) -! Z.of_nat TAG_SIZE;
  body ← index_range 0 (Z.to_nat tag_at) ct;
  tag ← unwrap_ok (retag_block_v8 body KAT_V8_SK KAT_V8_AAD);
  expected ← index_range (Z.to_nat tag_at) (length ct) ct;
  assert_eq tag expected.
End single.

(** ** The power-on self-tests as a whole *)

Context (fips : bool) (KAT_FRODO_DECAP : list byte).

Definition run_post (e : post_env) (latch : Z) : outcome SelfTestError unit * Z :=
  run_power_on_self_tests (post_run fips KAT_FRODO_DECAP) e latch.

Definition all_self_tests_pass (e : post_env) (latch : Z) : test unit := unwrap_ok (run_post e latch).1.

Definition cvf47_post_state_transitions_to_passed (e e' : post_env) (latch : Z) : test unit :=
  let '(r, latch) := run_post e latch in
  _ ← unwrap_ok r;
  let '(r, latch) := run_post e' latch in
  _ ← unwrap_ok r;
  assert_eq latch POST_PASSED.

(** The gate as a thread sees it between the runs of the self-tests. *)
Definition latch_gate (latch : Z) : Gate :=
  {| fips_gate := true; in_post := false; post_state := latch; post_state_again := latch; post_state_unlocked := latch |}.

Definition v8_entry_admits_after_post (e : post_env) (latch : Z) (d : key_draws) : test unit :=
  let '(r, latch) := run_post e latch in
  _ ← unwrap_ok r;
  let _ := latch_gate latch in
  key ← unwrap_ok (NapqesKey_generate (candidates d) (sk_fill d));
  ct ← unwrap_ok (encrypt_bytes_v8_key (str "hi") key []);
  pt ← unwrap_ok (decrypt_bytes_v8_key ct key []);
  assert_eq pt (str "hi").

(** ** The constants and the corpora *)

Context `{Json}.

Definition has_id (id : string) (v : Value) : bool := is_str (index "id" v) id.

(** [v == text] for a string that is a list of codepoints. *)
Definition is_text (v : Value) (text : list Z) : bool := bool_decide (as_str v = Some text).

(** Vector V002. *)
Definition v7_constants_match (v : Value) : test unit :=
  ct ← hex_field "ciphertext_hex" v;
  reference ← unwrap_ok (decode_hex KAT_CIPHERTEXT_HEX);
  _ ← assert_eq ct reference;
  nonce ← hex_field "nonce_hex" v;
  _ ← assert_eq nonce KAT_NONCE;
  key ← number_array "key" v;
  _ ← assert_eq key KAT_KEY;
  _ ← assert_that (is_text (index "message" v) KAT_MESSAGE);
  assert_that (is_str (index "aad_hex" v) "").

(** Vector W002. *)
Definition v8_constants_match (v : Value) : test unit :=
  ct ← hex_field "ciphertext_hex" v;
  let digest := sha256 ct in
  _ ← assert_eq (Z.of_nat (length ct)) KAT_V8_EXPECTED_LEN;
  _ ← assert_eq digest KAT_V8_EXPECTED_SHA256;
  sk ← hex_field "sk_hex" v;
  _ ← assert_eq sk KAT_V8_SK;
  key ← number_array "key" v;
  _ ← assert_eq key KAT_V8_PRIMES;
  _ ← assert_that (is_text (index "message" v) KAT_V8_MESSAGE);
  aad ← hex_field "aad_hex" v;
  assert_eq aad KAT_V8_AAD.

(** Vector S002. *)
Definition stream_constants_match (v : Value) : test unit :=
  ct ← hex_field "ciphertext_hex" v;
  let digest := sha256 ct in
  _ ← assert_eq (Z.of_nat (length ct)) stream_kat.EXPECTED_LEN;
  _ ← assert_eq digest stream_kat.EXPECTED_SHA256;
  sk ← hex_field "sk_hex" v;
  _ ← assert_eq sk stream_kat.SK;
  nonce ← hex_field "nonce_hex" v;
  _ ← assert_eq nonce stream_kat.NONCE;
  primes ← number_array "primes" v;
  _ ← assert_eq primes stream_kat.PRIMES;
  _ ← assert_that (is_text (index "message" v) stream_kat.MESSAGE);
  _ ← assert_that (bool_decide (as_u64 (index "frame_codepoints" v) = Some stream_kat.FRAME));
  assert_that (is_str (index "aad_hex" v) "").

Definition kat_constants_match_corpus (v7 v8 stream : test (list Value)) : test unit :=
  v7 ← v7;
  v002 ← unwrap (List.find (has_id "V002") v7);
  _ ← v7_constants_match v002;
  v8 ← v8;
  w002 ← unwrap (List.find (has_id "W002") v8);
  _ ← v8_constants_match w002;
  stream ← stream;
  s002 ← unwrap (List.find (has_id "S002") stream);
  stream_constants_match s002.
End self_tests.

(** ** Results *)

Lemma wiping_tests_pass fresh : (8 ≤ length fresh)%nat →
  Forall (λ t, t = Ok tt)
    [zeroize_key_clears_memory; v8_zeroize_sk_clears_memory; v5_11_zeroize_codepoints_wipes_spare_capacity fresh].
Proof.
  intros Hl. repeat apply Forall_cons_2; [vm_compute; reflexivity..| |constructor].
  unfold v5_11_zeroize_codepoints_wipes_spare_capacity, with_capacity, allocate. cbn [app length foldl]. cbv zeta.
  assert (∀ x xs n, n = length xs → (n < length fresh)%nat →
    vec_push x (MkVec 0 n) [MkRegion (xs ++ drop n fresh) false] =
    (MkVec 0 (S n), [MkRegion ((xs ++ [x]) ++ drop (S n) fresh) false])) as Hpush
    by (intros x xs n Hn Hlt; by apply (vec_push_at x [] xs fresh [] 0 n)).
  change (MkRegion fresh false) with (MkRegion ([] ++ drop 0 fresh) false).
  rewrite !Hpush by (cbn; lia).
  cbn [vec_ptr app]. set (c := 0x41 :: _ : list Z).
  assert (length c = length fresh) as Hc by (unfold c; cbn [length]; rewrite length_drop; lia).
  pose proof (zeroize_codepoints_region [] c [] 0 2 eq_refl ltac:(lia)) as Hz. cbn [app] in Hz. rewrite Hz.
  cbn [vec_len vec_ptr].
  rewrite assert_eq_refl, bind_Ok.
  assert (∀ cs n, Wipe.capacity [MkRegion cs false] (MkVec 0 n) = length cs) as Hcap by done.
  rewrite !Hcap, length_replicate, assert_eq_refl, bind_Ok.
  unfold all_zero. apply assert_that_Ok, forallb_forall. unfold vec_read. cbn [vec_len vec_ptr].
  change (region_at _ 0) with (MkRegion (replicate (length c) 0) false). cbn [cells].
  rewrite take_ge by (by rewrite length_replicate).
  intros x Hx%list_elem_of_In%elem_of_replicate_inv. by subst.
Qed.

Lemma gate_table_test_passes : cvf47_gate_decision_table = Ok tt.
Proof. vm_compute. reflexivity. Qed.

Section self_test_results.
Context `{Crypto} `{Sha256} `{Hkdf} `{Frodo} `{X25519}.

Lemma int2_test_result :
  int2_software_integrity_detects_modification = Ok tt ∨
  integrity_tag (bstr "module image v1") = integrity_tag (bstr "module image v2").
Proof using Type.
  destruct (decide (integrity_tag (bstr "module image v1") = integrity_tag (bstr "module image v2"))) as [Heq|Hne]; [by right|left].
  unfold int2_software_integrity_detects_modification. cbv zeta.
  fold (napqes_integrity (bstr "module image v1")). rewrite !verify_written.
  rewrite (bool_decide_eq_true_2 (integrity_tag (bstr "module image v1") = _) eq_refl).
  rewrite (bool_decide_eq_false_2 (integrity_tag (bstr "module image v2") = _)) by (intros Hx; by apply Hne).
  cbn [verify_module_integrity]. rewrite !assert_eq_refl, !bind_Ok. reflexivity.
Qed.

Section gate.
Context `{Gate} (Hgate : gate_open).

Lemma forgery_test_passes : kat6_forgery_passes_the_tag = Ok tt.
Proof using Hgate.
  destruct (kat_v8_ciphertext Hgate) as (nonce & masked & He & Hn & Hm & _). cbv zeta in *.
  unfold kat6_forgery_passes_the_tag. rewrite He. cbn [unwrap_ok]. rewrite bind_Ok.
  set (tag := hmac_digest _ _). assert (length tag = TAG_SIZE) as Ht by apply length_hmac_digest.
  set (body := nonce ++ masked) in *. assert (length (body ++ tag) = (length body + TAG_SIZE)%nat) as Hb by (by rewrite length_app, Ht).
  rewrite Hb. bind_ok (apply checked_sub_Ok; lia).
  replace (Z.to_nat (Z.of_nat (length body + TAG_SIZE) - Z.of_nat TAG_SIZE)) with (length body) by lia.
  bind_ok (apply index_range_Ok; lia).
  assert (slice 0 (length body) (body ++ tag) = body) as -> by (unfold slice; rewrite drop_0, Nat.sub_0_r; apply take_app_length).
  unfold retag_block_v8, body.
  rewrite (compute_auth_tag_v8 (derive_format_subkey KAT_V8_SK FORMAT_BLOCK_V8) KAT_V8_AAD nonce masked) by done.
  cbn [unwrap_ok]. rewrite bind_Ok. fold body. bind_ok (apply index_range_Ok; lia).
  apply assert_eq_of. unfold slice. rewrite drop_app_length, take_ge by lia. done.
Qed.

#[local] Opaque kat_encrypt kat_decrypt kat_tamper_rejection kat_v8_decrypt kat_v8_structural_reject kat_v8_tamper_rejection.

(** The tests that follow from the code, and those that follow from the v7 answer. *)
Lemma kat_tests_pass :
  Forall (λ t, t = Ok tt)
    [kat5_v8_decrypt_roundtrip; kat6_v8_structural_reject; kat7_v8_tampered_ciphertext_rejected; kat6_forgery_passes_the_tag] ∧
  (kat1_encrypt_matches_reference = Ok tt → kat2_decrypt_matches_plaintext = Ok tt ∧ kat3_tampered_ciphertext_rejected = Ok tt).
Proof using Hgate.
  unfold kat5_v8_decrypt_roundtrip, kat6_v8_structural_reject, kat7_v8_tampered_ciphertext_rejected,
    kat1_encrypt_matches_reference, kat2_decrypt_matches_plaintext, kat3_tampered_ciphertext_rejected. split.
  - repeat apply Forall_cons_2; [apply (proj2 (unwrap_ok_Ok _ _))..|apply forgery_test_passes|constructor].
    + exact (kat_v8_decrypt_Ok Hgate).
    + exact (kat_v8_structural_Ok Hgate).
    + exact (kat_v8_tamper_Ok Hgate).
  - intros Hk%(proj1 (unwrap_ok_Ok _ _)). apply kat_encrypt_Ok in Hk as (c & Hc & He).
    pose proof (kat_v7_cases Hgate c Hc He) as Hd.
    split; apply (proj2 (unwrap_ok_Ok _ _)); [exact (kat_decrypt_Ok c Hc Hd)|exact (kat_tamper_follows Hgate c KAT_MESSAGE Hc Hd)].
Qed.
End gate.

(** ** The power-on self-tests as a whole *)

Context (fips : bool) (KAT_FRODO_DECAP : list byte) (Hsizes : frodo640_sizes).
Context (Hkat : FRODO_SECRET_KEY_SIZE ≤ Z.of_nat (length KAT_FRODO_DECAP)).

(** The known answers hold for what the run reads, on the thread that runs it. *)
Definition answers_hold (e : post_env) : Prop :=
  Z.of_nat (length (hybrid_ec e).1) = X25519_KEY_SIZE ∧ @post_passes _ (post_thread_gate fips POST_RUNNING) _ _ _ _ KAT_FRODO_DECAP e.

Lemma run_post_passes e latch : latch ≠ POST_FAILED → answers_hold e → run_post fips KAT_FRODO_DECAP e latch = (Ok tt, POST_PASSED).
Proof using Hsizes Hkat.
  intros Hl [Hec Hp]. unfold run_post, run_power_on_self_tests. rewrite (proj2 (Z.eqb_neq _ _)) by done. cbv zeta.
  assert (@gate_open (post_thread_gate fips POST_RUNNING)) as Hg by (by destruct fips).
  assert (post_run fips KAT_FRODO_DECAP POST_RUNNING e = Ok tt) as ->; [|done].
  exact (proj2 (@post_checks_Ok _ (post_thread_gate fips POST_RUNNING) _ _ _ _ Hg KAT_FRODO_DECAP Hsizes Hkat e Hec) Hp).
Qed.

Lemma whole_run_tests_pass e e' latch d : latch ≠ POST_FAILED → answers_hold e → answers_hold e' →
  @good_draws (latch_gate POST_PASSED) d →
  Forall (λ t, t = Ok tt)
    [all_self_tests_pass fips KAT_FRODO_DECAP e latch; cvf47_post_state_transitions_to_passed fips KAT_FRODO_DECAP e e' latch;
     v8_entry_admits_after_post fips KAT_FRODO_DECAP e latch d].
Proof using Hsizes Hkat.
  intros Hl He He' Hd. unfold all_self_tests_pass, cvf47_post_state_transitions_to_passed, v8_entry_admits_after_post.
  rewrite (run_post_passes e latch), (run_post_passes e' POST_PASSED) by done.
  repeat apply Forall_cons_2; [done..| |constructor]. cbn [unwrap_ok]. rewrite bind_Ok.
  assert (@gate_open (latch_gate POST_PASSED)) as Hg by reflexivity. cbv zeta.
  destruct (@NapqesKey_generate_Ok (latch_gate POST_PASSED) Hg d Hd) as (ps & -> & Hv & _). cbn [unwrap_ok]. rewrite bind_Ok.
  destruct (@v8_key_encrypts _ (latch_gate POST_PASSED) Hg (str "hi") (MkNapqesKey ps (sk_fill d)) [] 16 Hv ltac:(repeat constructor) eq_refl)
    as (ct & -> & Hdec). cbn [unwrap_ok]. rewrite bind_Ok, Hdec. cbn [unwrap_ok]. rewrite bind_Ok. apply assert_eq_refl.
Qed.
End self_test_results.

(** ** The corpora pin the known answers *)

Lemma assert_eq_inv {A} `{EqDecision A} (a b : A) : assert_eq a b = Ok tt → a = b.
Proof. unfold assert_eq. intros Heq%assert_that_Ok. by apply bool_decide_eq_true in Heq. Qed.

(** Takes one step off a test that passes. *)
Ltac test_step H x E :=
  apply bind_Ok_inv in H as (x & E & H);
  lazymatch type of x with
  | unit => destruct x; lazymatch type of E with assert_eq _ _ = _ => apply assert_eq_inv in E | _ => apply assert_that_Ok in E end
  | _ => idtac
  end.

Section corpora.
Context `{Json} `{Crypto} `{Sha256}.

Lemma hex_field_string key v bs : hex_field key v = Ok bs → hex_decode (str_or_empty (index key v)) = Ok bs.
Proof using Type.
  unfold hex_field, str_or_empty. intros (h & Hh & Hd)%bind_Ok_inv.
  destruct (as_str (index key v)) as [h'|]; cbn in Hh; [|done]. by injection Hh as ->.
Qed.

Lemma hex_field_nonempty key v b bs : hex_field key v = Ok (b :: bs) → str_or_empty (index key v) ≠ [].
Proof using Type. intros Hd%hex_field_string Hn. by rewrite Hn in Hd. Qed.

Lemma is_text_string key v text : is_text (index key v) text = true → str_or_empty (index key v) = text.
Proof using Type. unfold is_text, str_or_empty. by intros ->%bool_decide_eq_true. Qed.

Lemma found p (vs : list Value) v : unwrap (List.find p vs) = Ok v → v ∈ vs ∧ p v = true.
Proof using Type.
  destruct (List.find p vs) as [v'|] eqn:Hf; cbn; [|done]. intros [= ->].
  apply List.find_some in Hf as [Hi Hp]. by apply list_elem_of_In in Hi.
Qed.

Lemma v7_constants v : v7_constants_match v = Ok tt →
  ∃ c, hex_field "ciphertext_hex" v = Ok c ∧ decode_hex KAT_CIPHERTEXT_HEX = Ok c ∧ hex_field "nonce_hex" v = Ok KAT_NONCE ∧
    number_array "key" v = Ok KAT_KEY ∧ str_or_empty (index "message" v) = KAT_MESSAGE ∧ str_or_empty (index "aad_hex" v) = [].
Proof using Type.
  unfold v7_constants_match. intros Hv. test_step Hv c Hc. test_step Hv reference Hr. test_step Hv u1 E1.
  test_step Hv nonce Hn. test_step Hv u2 E2. test_step Hv key Hk. test_step Hv u3 E3. test_step Hv u4 E4.
  apply assert_that_Ok in Hv. apply (proj1 (unwrap_ok_Ok _ _)) in Hr. subst c nonce key. exists reference.
  exact (conj Hc (conj Hr (conj Hn (conj Hk (conj (is_text_string _ _ _ E4) (is_text_string _ _ [] Hv)))))).
Qed.

Lemma v8_constants v : v8_constants_match v = Ok tt →
  ∃ c, hex_field "ciphertext_hex" v = Ok c ∧ sha256 c = KAT_V8_EXPECTED_SHA256 ∧ hex_field "sk_hex" v = Ok KAT_V8_SK ∧
    number_array "key" v = Ok KAT_V8_PRIMES ∧ str_or_empty (index "message" v) = KAT_V8_MESSAGE ∧
    hex_field "aad_hex" v = Ok KAT_V8_AAD.
Proof using Type.
  unfold v8_constants_match. intros Hv. test_step Hv c Hc. test_step Hv u1 E1. test_step Hv u2 E2. test_step Hv skb Hs.
  test_step Hv u3 E3. test_step Hv key Hk. test_step Hv u4 E4. test_step Hv u5 E5. test_step Hv aad Ha.
  apply assert_eq_inv in Hv. subst skb key aad. exists c.
  exact (conj Hc (conj E2 (conj Hs (conj Hk (conj (is_text_string _ _ _ E5) Ha))))).
Qed.

Lemma stream_constants v : stream_constants_match v = Ok tt →
  ∃ c, hex_field "ciphertext_hex" v = Ok c ∧ sha256 c = stream_kat.EXPECTED_SHA256 ∧ hex_field "sk_hex" v = Ok stream_kat.SK ∧
    hex_field "nonce_hex" v = Ok stream_kat.NONCE ∧ number_array "primes" v = Ok stream_kat.PRIMES ∧
    str_or_empty (index "message" v) = stream_kat.MESSAGE ∧ as_u64 (index "frame_codepoints" v) = Some stream_kat.FRAME ∧
    str_or_empty (index "aad_hex" v) = [].
Proof using Type.
  unfold stream_constants_match. intros Hv. test_step Hv c Hc. test_step Hv u1 E1. test_step Hv u2 E2. test_step Hv skb Hs.
  test_step Hv u3 E3. test_step Hv nonce Hn. test_step Hv u4 E4. test_step Hv ps Hp. test_step Hv u5 E5. test_step Hv u6 E6.
  test_step Hv u7 E7. apply assert_that_Ok in Hv. apply bool_decide_eq_true in E7. subst skb nonce ps. exists c.
  exact (conj Hc (conj E2 (conj Hs (conj Hn (conj Hp (conj (is_text_string _ _ _ E6) (conj E7 (is_text_string _ _ [] Hv)))))))).
Qed.

Context `{Gate}.

Lemma v7_replayed v : v7_constants_match v = Ok tt → v7_positive_encrypt_vector v = Ok tt → kat_encrypt = Ok tt.
Proof using Type.
  intros (c & Hc & Hr & Hn & Hk & Hm & Ha)%v7_constants. unfold v7_positive_encrypt_vector. rewrite Hm, Ha. unfold v8_key.
  rewrite Hk. intros Hv. test_step Hv i0 Hid. test_step Hv u1 E1. rewrite bind_Ok in Hv.
  apply hex_field_string in Hn, Hc. rewrite Hn, bind_Ok in Hv. test_step Hv u2 E2. rewrite Hc, bind_Ok in Hv.
  test_step Hv aad Haad. injection Haad as <-. test_step Hv got Hgot. apply assert_that_Ok, bool_decide_eq_true in Hv.
  apply (proj1 (unwrap_ok_Ok _ _)) in Hgot. apply kat_encrypt_Ok. exists c. split; [exact Hr|]. by rewrite Hgot, Hv.
Qed.

Lemma v8_replayed base64_error v :
  v8_constants_match v = Ok tt → get (str "pad_profile") v = None → v8_positive_encrypt_vector base64_error v = Ok tt →
  ∃ ct, encrypt_bytes_v8 KAT_V8_MESSAGE KAT_V8_PRIMES KAT_V8_SK KAT_V8_AAD = Ok ct ∧ sha256 ct = KAT_V8_EXPECTED_SHA256.
Proof using Type.
  intros (c & Hc & Hsha & Hs & Hk & Hm & Ha)%v8_constants Hp. unfold v8_positive_encrypt_vector, v8_sk, v8_key, hex_field_or_empty.
  apply hex_field_string in Ha. rewrite Hm, Hk, Hs, Hc, Ha. intros Hv. test_step Hv i0 Hid. rewrite !bind_Ok in Hv.
  test_step Hv skb Hsk. injection Hsk as <-. rewrite bind_Ok in Hv. test_step Hv got Hgot. test_step Hv u E.
  apply assert_that_Ok, bool_decide_eq_true in Hv. subst got. apply (proj1 (unwrap_ok_Ok _ _)) in Hgot.
  unfold encrypt_vector, pad_profile_from_vec in Hgot. rewrite Hp, bind_Ok in Hgot. exists c. split; [|exact Hsha].
  unfold encrypt_bytes_v8. destruct (encrypt_bytes_v8_with_profile _ _ _ _ _); cbn in Hgot; [by injection Hgot as ->|done..].
Qed.

Lemma stream_replayed v : stream_constants_match v = Ok tt → v8_stream_positive_encrypt_vector v = Ok tt →
  ∃ ct, encrypt_stream_ae_v8_with_nonce stream_kat.MESSAGE stream_kat.PRIMES stream_kat.SK stream_kat.NONCE []
          stream_kat.FRAME = Ok ct ∧ sha256 ct = stream_kat.EXPECTED_SHA256.
Proof using Type.
  intros (c & Hc & Hsha & Hs & Hn & Hk & Hm & Hf & Ha)%stream_constants.
  unfold v8_stream_positive_encrypt_vector, v8_stream_sk, v8_stream_primes, v8_stream_nonce, hex_field_or_empty.
  rewrite Hm, Hk, Hs, Hc, Hn, Ha, Hf. intros Hv. test_step Hv i0 Hid. test_step Hv aad Haad. injection Haad as <-.
  cbn [unwrap expect] in Hv. rewrite !bind_Ok in Hv. test_step Hv skb Hsk. injection Hsk as <-.
  test_step Hv nonce Hnonce. injection Hnonce as <-. test_step Hv got Hgot. test_step Hv u E.
  apply assert_that_Ok, bool_decide_eq_true in Hv. subst got. apply (proj1 (unwrap_ok_Ok _ _)) in Hgot.
  exists c. split; [exact Hgot|exact Hsha].
Qed.
End corpora.

(** The tests of the self-tests and of wiping: with the gate open, those of the rejections
    and of the gate pass whatever the primitives compute, the v7 decryption and tamper tests
    follow from the v7 answer, a modified image is noticed unless its HMAC coincides, and
    wiping clears the spare capacity of any allocation. When the known answers hold, a run of
    the self-tests passes and stays passed, and a gated entry point then serves. *)
Theorem module_tests_pass `{Crypto} `{Sha256} `{Hkdf} `{Frodo} `{X25519} `{Gate} fips KAT_FRODO_DECAP fresh e e' latch d :
  gate_open → (8 ≤ length fresh)%nat → frodo640_sizes → FRODO_SECRET_KEY_SIZE ≤ Z.of_nat (length KAT_FRODO_DECAP) →
  latch ≠ POST_FAILED → answers_hold fips KAT_FRODO_DECAP e → answers_hold fips KAT_FRODO_DECAP e' →
  @good_draws (latch_gate POST_PASSED) d →
  Forall (λ t, t = Ok tt)
    [zeroize_key_clears_memory; v8_zeroize_sk_clears_memory; v5_11_zeroize_codepoints_wipes_spare_capacity fresh;
     cvf47_gate_decision_table;
     kat5_v8_decrypt_roundtrip; kat6_v8_structural_reject; kat7_v8_tampered_ciphertext_rejected; kat6_forgery_passes_the_tag;
     all_self_tests_pass fips KAT_FRODO_DECAP e latch; cvf47_post_state_transitions_to_passed fips KAT_FRODO_DECAP e e' latch;
     v8_entry_admits_after_post fips KAT_FRODO_DECAP e latch d] ∧
  (kat1_encrypt_matches_reference = Ok tt → kat2_decrypt_matches_plaintext = Ok tt ∧ kat3_tampered_ciphertext_rejected = Ok tt) ∧
  (int2_software_integrity_detects_modification = Ok tt ∨
   integrity_tag (bstr "module image v1") = integrity_tag (bstr "module image v2")).
Proof.
  intros Hg Hf Hs Hk Hl He He' Hd. destruct (kat_tests_pass Hg) as [Hkat Hv7]. split; [|split; [exact Hv7|apply int2_test_result]].
  apply (Forall_app _ [_; _; _]). split; [by apply wiping_tests_pass|]. apply Forall_cons_2; [apply gate_table_test_passes|].
  apply (Forall_app _ [_; _; _; _]). split; [exact Hkat|]. by apply whole_run_tests_pass.
Qed.

(** The corpora pin the known answers of the power-on self-tests: where the constants of the
    self-tests are vectors V002, W002 and S002 and the encryption of every positive vector of
    the corpora is reproduced, the v7 and v8 known-answer tests pass and the stream has the
    digest KAT-9 expects. So the self-tests and the corpora cannot drift apart. *)
Theorem corpora_pin_known_answers `{Json} `{Crypto} `{Sha256} `{Gate} base64_error v7 v8 stream :
  gate_open → kat_constants_match_corpus (Ok v7) (Ok v8) (Ok stream) = Ok tt →
  legacy_v7_positive_encrypt_bytes_deterministic v7 = Ok tt → v8_positive_encrypt_matches_python base64_error v8 = Ok tt →
  v8_stream_positive_encrypt_matches_python stream = Ok tt →
  (∀ v, v ∈ v7 → has_id "V002" v = true → not_stream "positive" v = true) →
  (∀ v, v ∈ v8 → has_id "W002" v = true → of_kind "positive" v = true ∧ get (str "pad_profile") v = None) →
  (∀ v, v ∈ stream → has_id "S002" v = true → of_kind "positive" v = true) →
  kat_encrypt = Ok tt ∧ kat_decrypt = Ok tt ∧ kat_tamper_rejection = Ok tt ∧ kat_v8_encrypt = Ok tt ∧
  ∃ ct, encrypt_stream_ae_v8_with_nonce stream_kat.MESSAGE stream_kat.PRIMES stream_kat.SK stream_kat.NONCE []
          stream_kat.FRAME = Ok ct ∧ sha256 ct = stream_kat.EXPECTED_SHA256.
Proof.
  intros Hg Hall Hv7 Hv8 Hst HV002 HW002 HS002. unfold kat_constants_match_corpus in Hall. rewrite !bind_Ok in Hall.
  apply bind_Ok_inv in Hall as (v & Hv%found & Hall). apply bind_Ok_inv in Hall as ([] & Cv & Hall).
  apply bind_Ok_inv in Hall as (w & Hw%found & Hall). apply bind_Ok_inv in Hall as ([] & Cw & Hall).
  apply bind_Ok_inv in Hall as (s & Hs%found & Cs).
  destruct Hv as [Hv Hid], Hw as [Hw Hidw], Hs as [Hs Hids]. destruct (HW002 w Hw Hidw) as [Kw Pw].
  assert (kat_encrypt = Ok tt) as K1.
  { apply (v7_replayed v Cv). by apply (run_vectors_each _ _ V7_POSITIVE v7 ltac:(done) Hv7 v Hv), HV002. }
  pose proof K1 as (c & Hc & He)%kat_encrypt_Ok. pose proof (kat_v7_cases Hg c Hc He) as Hd.
  assert (kat_v8_encrypt = Ok tt) as K4.
  { apply (kat_v8_encrypt_Ok Hg), (v8_replayed base64_error w Cw Pw).
    exact (run_vectors_each _ _ V8_POSITIVE v8 ltac:(done) Hv8 w Hw Kw). }
  refine (conj K1 (conj (kat_decrypt_Ok c Hc Hd) (conj (kat_tamper_follows Hg c KAT_MESSAGE Hc Hd) (conj K4 _)))).
  apply (stream_replayed s Cs). apply (run_vectors_each _ _ V8_STREAM_POSITIVE stream ltac:(done) Hst s Hs). by apply HS002.
Qed.
