(* ===== verification/TimingHarness.v ===== *)
(** * The timing harness ([examples/dudect_harness.rs])

    What the three benches measure: the inputs of the two classes, the calls that are timed and
    what those return. Time is not modelled; for the comparator of the positive control the
    number of bytes it looks at is. The coin that chooses a class is an argument. *)
From Stdlib Require Import ZArith Lia Strings.Byte Strings.String.
From stdpp Require Import base tactics option numbers list.
From S2P Require Import Prelude Machine Errors Crates Post Primes Keys Derive Padding Tokens BlockV8.
From S2P Require Import LegacyV7 KatVectors CrossCheck FrameTests CrateTests CipherTests.

#[local] Open Scope Z_scope.
#[local] Open Scope napqes_scope.

Inductive Class := Left | Right.

Definition CT_EQ_REPS : nat := 100.

Definition FIXED_PRIMES : list Z := [1000003; 1000033; 1000037; 1000039].

(** The byte with [^= 0xFF]: the first of a tag, or its last. *)
Definition corrupt (coin : bool) (tag_at : nat) (bytes : list byte) : test (Class * list byte) :=
  if coin
  then c ← update tag_at (flip xff) bytes; Ok (Left, c)
  else c ← update (tag_at + (TAG_SIZE - 1)) (flip xff) bytes; Ok (Right, c).

(** ** The comparators *)

Definition ct_bench_eq `{Crypto} (a b : list byte) : bool := ct_eq_bytes a b.

(** [a.iter().zip(b).all(|(x, y)| x == y)], and the number of pairs looked at. *)
Fixpoint all_eq (a b : list byte) : bool * nat :=
  match a, b with
  | x :: a, y :: b =>
      if bool_decide (x = y) then let '(r, n) := all_eq a b in (r, S n) else (false, 1%nat)
  | _, _ => (true, 0%nat)
  end.

Definition early_exit_eq (a b : list byte) : bool * nat :=
  if bool_decide (length a = length b) then all_eq a b else (false, 0%nat).

(** [run]: the comparison, repeated. *)
Definition run_comparator {A} (eq : list byte → list byte → A) (coin : bool) : test (Class * list A) :=
  let reference := replicate TAG_SIZE xa5 in
  c ← corrupt coin 0 reference;
  Ok (c.1, replicate CT_EQ_REPS (eq reference c.2)).

Definition bench_ct_eq_bytes `{Crypto} : bool → test (Class * list bool) := run_comparator ct_bench_eq.
Definition bench_positive_control_early_exit : bool → test (Class * list (bool * nat)) := run_comparator early_exit_eq.

(** ** Decryption *)

Section decryption.
Context `{Crypto} `{Gate}.

(** [post] is the result of the power-on self-tests. *)
Definition fixed_key {E} (post : outcome E unit) : test NapqesKey :=
  _ ← unwrap_ok post; unwrap_ok (NapqesKey_new FIXED_PRIMES (replicate 32 x5a)).

Definition base_message : list Z := str "napqes v8 dudect constant-time timing harness (CVF-26 retarget)".

Definition base_ct (key : NapqesKey) : test (list byte) := unwrap_ok (encrypt_bytes_v8_key base_message key []).

(** [let _ = black_box(r)]: only a panic matters. *)
Definition discard {E A} (r : outcome E A) : test unit := match r with Panic p => Panic p | _ => Ok tt end.

Definition warm_up (base : list byte) (key : NapqesKey) : test unit :=
  for_in (λ _, discard (decrypt_bytes_v8_key base key [])) (seqZ 0 20000).

(** The result of the timed call. *)
Definition bench_tag_comparison {E} (post : outcome E unit) (coin : bool) : test (Class * outcome error (list Z)) :=
  key ← fixed_key post;
  base ← base_ct key;
  let n := Z.of_nat (length base) in
  _ ← warm_up base key;
  tag_at ← n -! Z.of_nat TAG_SIZE;
  c ← corrupt coin (Z.to_nat tag_at) base;
  Ok (c.1, decrypt_bytes_v8_key c.2 key []).
End decryption.

(** ** What is measured *)

Definition class_of (coin : bool) : Class := if coin then Left else Right.

Lemma comparator_benches `{Crypto} coin :
  bench_ct_eq_bytes coin = Ok (class_of coin, replicate CT_EQ_REPS false) ∧
  bench_positive_control_early_exit coin = Ok (class_of coin, replicate CT_EQ_REPS (false, if coin then 1 else TAG_SIZE)%nat).
Proof.
  split; [|destruct coin; vm_compute; reflexivity].
  assert (∃ c, corrupt coin 0 (replicate TAG_SIZE xa5) = Ok (class_of coin, c) ∧ replicate TAG_SIZE xa5 ≠ c) as (c & Hc & Hne)
    by (destruct coin; eexists; (split; [vm_compute; reflexivity|discriminate])).
  unfold bench_ct_eq_bytes, run_comparator. rewrite Hc, bind_Ok. cbn [fst snd]. unfold ct_bench_eq.
  by rewrite ct_eq_bytes_spec, bool_decide_eq_false_2.
Qed.

Lemma flip_ff_changes b : flip xff b ≠ b.
Proof. destruct b; vm_compute; discriminate. Qed.

(** Corrupting a tag changes it and nothing else. *)
Lemma corrupt_tag coin front tag : length tag = TAG_SIZE →
  ∃ tag', corrupt coin (length front) (front ++ tag) = Ok (class_of coin, front ++ tag') ∧ length tag' = TAG_SIZE ∧ tag' ≠ tag.
Proof.
  intros Ht.
  assert (∀ i, (i < TAG_SIZE)%nat → ∃ tag', update (length front + i) (flip xff) (front ++ tag) = Ok (front ++ tag') ∧
    length tag' = TAG_SIZE ∧ tag' ≠ tag) as Hup.
  { intros i Hi. destruct (lookup_lt_is_Some_2 tag i ltac:(lia)) as [x Hx]. exists (<[i := flip xff x]> tag). split_and!.
    - unfold update. rewrite lookup_app_r, Nat.add_comm, Nat.add_sub, Hx by lia. cbn [expect]. rewrite bind_Ok.
      by rewrite Nat.add_comm, insert_app_r.
    - by rewrite length_insert.
    - apply (list_insert_ne _ _ x); [done|]. intros Hf. by apply (flip_ff_changes x). }
  unfold corrupt, class_of. destruct coin.
  - destruct (Hup 0%nat ltac:(unfold TAG_SIZE; lia)) as (tag' & Hu & Hl & Hne). rewrite Nat.add_0_r in Hu. exists tag'. by rewrite Hu.
  - destruct (Hup (TAG_SIZE - 1)%nat ltac:(unfold TAG_SIZE; lia)) as (tag' & Hu & Hl & Hne). exists tag'. by rewrite Hu.
Qed.

Section measured.
Context `{Crypto} `{Gate} (Hgate : gate_open).

Definition the_fixed_key : NapqesKey := MkNapqesKey FIXED_PRIMES (replicate 32 x5a).

Lemma fixed_primes_valid : valid_key FIXED_PRIMES.
Proof using Type. apply sample_key_valid. Qed.

Lemma fixed_key_Ok {E} : fixed_key (E:=E) (Ok tt) = Ok the_fixed_key.
Proof using Type.
  unfold fixed_key, NapqesKey_new. cbn [unwrap_ok]. by rewrite bind_Ok, validate_key_valid by apply fixed_primes_valid.
Qed.

(** The ciphertext the two classes are derived from. *)
Lemma base_ciphertext :
  let sk_fmt := derive_format_subkey (replicate 32 x5a) FORMAT_BLOCK_V8 in
  ∃ nonce masked, base_ct the_fixed_key = Ok ((nonce ++ masked) ++ hmac_digest sk_fmt (auth_input nonce [] masked)) ∧
    length nonce = NONCE_SIZE ∧ Z.of_nat (length masked) = 160 * 66.
Proof using Hgate.
  intros sk_fmt.
  destruct (encrypt_inner_Ok FIXED_PRIMES (valid_key_arith _ fixed_primes_valid) sk_fmt base_message [] Bucket 64
    ltac:(repeat constructor) I eq_refl) as (nonce & masked & He & Hn & Hm & _).
  exists nonce, masked. unfold base_ct, encrypt_bytes_v8_key, encrypt_bytes_v8_core. rewrite Hgate, bind_Ok.
  cbn [primes sk the_fixed_key]. fold sk_fmt. rewrite He. split; [done|]. split; [done|]. lia.
Qed.

Lemma warm_up_Ok base key m : decrypt_bytes_v8_key base key [] = Ok m → warm_up base key = Ok tt.
Proof using Type. intros Hd. apply for_in_Ok, Forall_forall. intros i _. by rewrite Hd. Qed.

Lemma tag_bench {E} coin : bench_tag_comparison (E:=E) (Ok tt) coin = Ok (class_of coin, Err AuthenticationFailed).
Proof using Hgate.
  unfold bench_tag_comparison. rewrite fixed_key_Ok, bind_Ok.
  destruct base_ciphertext as (nonce & masked & Hb & Hn & Hm).
  destruct (v8_key_encrypts Hgate base_message the_fixed_key [] 64 fixed_primes_valid ltac:(repeat constructor) eq_refl)
    as (ct & He & Hd).
  assert (base_ct the_fixed_key = Ok ct) as Hb' by (unfold base_ct; by rewrite He).
  rewrite Hb' in Hb. injection Hb as ->. rewrite Hb', bind_Ok, (warm_up_Ok _ _ _ Hd), bind_Ok.
  set (tag := hmac_digest _ _) in *. assert (length tag = TAG_SIZE) as Ht by apply length_hmac_digest.
  bind_ok (apply checked_sub_Ok; rewrite length_app; lia).
  replace (Z.to_nat (Z.of_nat (length ((nonce ++ masked) ++ tag)) - Z.of_nat TAG_SIZE)) with (length (nonce ++ masked))
    by (rewrite (length_app (nonce ++ masked)); lia).
  destruct (corrupt_tag coin (nonce ++ masked) tag Ht) as (tag' & -> & Ht' & Hne). rewrite bind_Ok. cbn [fst snd].
  unfold decrypt_bytes_v8_key. rewrite Hgate, bind_Ok.
  rewrite decrypt_core_reject; [done|by apply valid_key_arith, fixed_primes_valid|done|done| | |done].
  - unfold NONCE_SIZE, TAG_SIZE in *. rewrite !length_app. lia.
  - by rewrite Hm.
Qed.
End measured.

(** What the harness compares: in both classes every timed comparison is of unequal inputs and
    the timed decryption is refused by the tag, so the classes differ only in where the wrong
    byte is; the comparator of the positive control looks at one byte in one class and at all
    of them in the other. *)
Theorem harness_classes `{Crypto} `{Gate} coin : gate_open →
  bench_ct_eq_bytes coin = Ok (class_of coin, replicate CT_EQ_REPS false) ∧
  bench_positive_control_early_exit coin = Ok (class_of coin, replicate CT_EQ_REPS (false, if coin then 1 else TAG_SIZE)%nat) ∧
  bench_tag_comparison (E:=SelfTestError) (Ok tt) coin = Ok (class_of coin, Err AuthenticationFailed).
Proof.
  intros Hg. destruct (comparator_benches coin) as [H1 H2]. split; [exact H1|]. split; [exact H2|]. by apply tag_bench.
Qed.
