(* ===== verification/Fuzz.v ===== *)
(** * The programs that exercise the library: the fuzz targets and the demonstration

    [fuzz_targets/*.rs] and the hooks of [lib.rs] they use, and [main.rs]. A target
    is a function of the fuzzer's bytes; a crash is a panic. The last theorem says
    that there is none to be found. *)
From Stdlib Require Import ZArith Lia Strings.Byte Strings.String.
From stdpp Require Import base tactics option numbers list.
From S2P Require Import Prelude Machine Errors Crates Post Primes Keys Derive Padding Tokens BlockV8 LegacyV7 StreamV8.

#[local] Open Scope Z_scope.
#[local] Open Scope napqes_scope.

(** ** Standard-library helpers *)

(** [.expect(..)] and [.unwrap()] on a [Result]. *)
Definition unwrap {A} (r : outcome error A) : outcome error A :=
  match r with Err _ => Panic PanicExpect | r => r end.

(** [let _ = r;] *)
Definition ignore {A} (r : outcome error A) : outcome error unit :=
  match r with Panic p => Panic p | _ => Ok tt end.

(** [data[i]], below the length a target has checked. *)
Definition byte_at (data : list byte) (i : nat) : Z := byte_to_Z (default x00 (data !! i)).

(** [l[i] ^= x] *)
Definition xor_at (i : nat) (x : Z) (l : list byte) : outcome error (list byte) :=
  b ← expect PanicBounds (l !! i);
  Ok (<[i := byte_of_Z (Z.lxor (byte_to_Z b) x)]> l).

(** [l[pos..pos + src.len()].copy_from_slice(src)] *)
Definition copy_at (pos : nat) (src l : list byte) : outcome error (list byte) :=
  if bool_decide (pos + length src ≤ length l)%nat
  then Ok (take pos l ++ src ++ drop (pos + length src) l)
  else Panic PanicBounds.

(** One character of [str::from_utf8]: the length and the payload bits are in the
    first byte; the character is accepted when its encoding is the bytes read, which
    rules out overlong forms and stray continuation bytes. *)
Definition utf8_lead (b : Z) : nat * Z :=
  if b <? 0x80 then (1%nat, b)
  else if b <? 0xE0 then (2%nat, b - 0xC0)
  else if b <? 0xF0 then (3%nat, b - 0xE0)
  else (4%nat, b - 0xF0).

Definition decode_char (bytes : list byte) : option (Z * list byte) :=
  match bytes with
  | [] => None
  | b :: rest =>
      let '(n, lead) := utf8_lead (byte_to_Z b) in
      let c := foldl (λ acc b, acc * 64 + byte_to_Z b mod 64) lead (take (n - 1) rest) in
      if is_scalar c && bool_decide (utf8_char c = take n bytes) then Some (c, drop n bytes) else None
  end.

Fixpoint from_utf8_fuel (fuel : nat) (bytes : list byte) : option (list Z) :=
  match fuel, bytes with
  | _, [] => Some []
  | O, _ => None
  | S fuel, bytes => '(c, rest) ← decode_char bytes; (c ::.) <$> from_utf8_fuel fuel rest
  end.

Definition from_utf8 (bytes : list byte) : option (list Z) := from_utf8_fuel (length bytes) bytes.

(** ** Fixtures *)

(** [key_for] of [decode_bytes.rs], [unauth_decode.rs] and [stream_decode.rs]. *)
Definition decode_key_for (selector : Z) : list Z :=
  let s := selector mod 3 in
  if s =? 0 then [1000003; 1000033]
  else if s =? 1 then [7999993]
  else [1000003; 1000033; 1000037; 1000039; 1000081; 1000099; 1000117; 1000121; 1000133; 1000151;
        1000159; 1000171; 1000183].

Definition unauth_key_for (selector : Z) : list Z :=
  let s := selector mod 3 in
  if s =? 0 then [1000003; 1000033; 1000037; 1000039]
  else if s =? 1 then [7999993]
  else [1000003; 1000033; 1000037; 1000039; 1000081; 1000099; 1000117; 1000121; 1000133; 1000151].

Definition stream_key_for (selector : Z) : list Z :=
  let s := selector mod 3 in
  if s =? 0 then [1000003; 1000033]
  else if s =? 1 then [7999993]
  else [1000003; 1000033; 1000037; 1000039; 1000081; 1000099; 1000117; 1000121; 1000133; 1000151;
        9900047; 12000017; 14999981].

Definition aad_for (selector : Z) : list byte :=
  let s := selector mod 4 in
  if s =? 0 then []
  else if s =? 1 then list_byte_of_string "aad-context"
  else if s =? 2 then [x00; xff; x80; x01]
  else list_byte_of_string "sender=alice;recipient=bob".

(** [selector.wrapping_add(i as u8)]: [byte_of_Z] wraps. *)
Definition sk_for (selector : Z) : list byte := (λ i, byte_of_Z (selector + i)) <$> seqZ 0 (Z.of_nat SK_SIZE).

Definition profile_for (selector param : Z) : PadProfile :=
  let s := selector mod 3 in
  if s =? 0 then Bucket
  else if s =? 1 then Coarse (param mod 5)
  else Frame (Z.shiftl 1 (param mod 11)).

Definition TOKEN_GROUP : nat := (8 * Z.to_nat (MAX_NOISE_RUN + 1))%nat.

Section targets.
Context `{Crypto} `{Gate} `{Base64}.

(** ** [decode_bytes] *)

(** The mutated ciphertext, re-tagged. *)
Definition mutate_block (ct sk aad : list byte) (flip flip_nonce : bool) (drop_groups mut_lo mut_hi : nat)
    (mut_xor : Z) : outcome error (list byte) :=
  split ← Z.of_nat (length ct) -! Z.of_nat TAG_SIZE;
  payload ← index_range 0 (Z.to_nat split) ct;
  masked_len ← Z.of_nat (length payload) -! Z.of_nat NONCE_SIZE;
  let drop := ((drop_groups * TOKEN_GROUP) `min` Z.to_nat masked_len)%nat in
  let payload := take (length payload - drop) payload in
  payload ← (if flip && bool_decide (NONCE_SIZE < length payload)%nat then
               let idx := (NONCE_SIZE + (Nat.lor (Nat.shiftl mut_hi 8) mut_lo)
                             mod (length payload - NONCE_SIZE))%nat in
               xor_at idx mut_xor payload
             else Ok payload);
  payload ← (if flip_nonce then xor_at (mut_lo mod NONCE_SIZE) (Z.lor mut_xor 1) payload else Ok payload);
  tag ← retag_block_v8 payload sk aad;
  Ok (payload ++ tag).

Definition decode_bytes (data : list byte) : outcome error unit :=
  if bool_decide (length data < 10)%nat then Ok tt
  else
    let key := decode_key_for (byte_at data 0) in
    if existsb (λ k, k <? MIN_KEY_PRIME) key then Ok tt
    else
      let aad := aad_for (byte_at data 1) in
      let sk := sk_for (byte_at data 2) in
      let flags := byte_at data 3 in
      let flip := Z.land flags 1 =? 1 in
      let drop_groups := Z.to_nat (Z.land (Z.shiftr flags 1) 0x07) in
      let mut_lo := Z.to_nat (byte_at data 4) in
      let mut_hi := Z.to_nat (byte_at data 5) in
      let mut_xor := byte_at data 6 in
      let flip_nonce := negb (Z.land flags 0x10 =? 0) in
      let profile := profile_for (byte_at data 8) (byte_at data 9) in
      let msg_len := (Z.to_nat (byte_at data 7) `min` (length data - 10))%nat in
      msg_bytes ← index_range 10 (10 + msg_len) data;
      let message := default [65] (from_utf8 msg_bytes) in
      match encrypt_bytes_v8_with_profile message key sk aad profile with
      | Err _ => Ok tt
      | Panic p => Panic p
      | Ok ct =>
          rt ← unwrap (decrypt_bytes_v8 ct key sk aad);
          _ ← assert_that (bool_decide (rt = message));
          if negb flip && negb flip_nonce && bool_decide (drop_groups = 0)%nat then Ok tt
          else
            payload ← mutate_block ct sk aad flip flip_nonce drop_groups mut_lo mut_hi mut_xor;
            ignore (decrypt_bytes_v8 payload key sk aad)
      end.

(** ** [unauth_decode] *)

Definition fuzz_v7_tokens (message key : list Z) (nonce : list byte) : outcome error (list Z) :=
  _ ← validate_key key;
  let kb := key_bytes key in
  padded ← pad_message message kb nonce;
  emit_tokens_v7 padded kb nonce (derive_noise_p kb nonce) key.

(** The [match op % 6] on [tokens[i]]; the arithmetic wraps at 64 bits. *)
Definition mutate_tokens (op delta : Z) (i : nat) (key tokens : list Z) : outcome error (list Z) :=
  t ← expect PanicBounds (tokens !! i);
  let op := op mod 6 in
  if op =? 0 then Ok (<[i := (t + (delta mod 1000000 + 1)) mod 2 ^ 64]> tokens)
  else if op =? 1 then Ok (<[i := (t - (delta mod 1000000 + 1)) mod 2 ^ 64]> tokens)
  else if op =? 2 then Ok (<[i := Z.lxor t (Z.shiftl 1 (delta mod 64))]> tokens)
  else if op =? 3 then Ok (take i tokens)
  else if op =? 4 then Ok (take i tokens ++ t :: drop i tokens)
  else
    k0 ← expect PanicBounds (key !! 0%nat);
    Ok (<[i := (t + (k0 * 0x110000) mod 2 ^ 64) mod 2 ^ 64]> tokens).

Definition unauth_message (data : list byte) : list Z :=
  imap (λ i b, if bool_decide (i `mod` 4 = 3)%nat then 0x100 + byte_to_Z b * 7 else byte_to_Z b)
    (take 512 (drop 28 data)).

Definition unauth_decode (data : list byte) : outcome error unit :=
  if bool_decide (length data < 28)%nat then Ok tt
  else
    let key := unauth_key_for (byte_at data 0) in
    let nonce := slice 1 17 data in
    let op := byte_at data 17 in
    let idx := Z.lor (byte_at data 18) (Z.shiftl (byte_at data 19) 8) in
    let delta := from_be_bytes (slice 20 28 data) in
    let msg := unauth_message data in
    _ ← match fuzz_v7_tokens msg key nonce with
        | Panic p => Panic p
        | Err _ => Ok tt
        | Ok tokens =>
            r ← unwrap (decrypt nonce tokens key);
            _ ← assert_that (bool_decide (r = msg));
            tokens ← (if bool_decide (tokens = []) then Ok tokens
                      else
                        let i := (Z.to_nat idx mod length tokens)%nat in
                        mutate_tokens op delta i key tokens);
            ignore (decrypt nonce tokens key)
        end;
    _ ← ignore (decrypt_raw data key []);
    match from_utf8 data with
    | Some s => ignore (decrypt_str s key [])
    | None => Ok tt
    end.

(** ** [validate_key] *)

(** [draw] and [s]: the nonce the generator fills and the process state. *)
Definition validate_key_target (data draw : list byte) (s : crng_state) : outcome error unit :=
  let key := from_le_bytes <$> chunks_exact 8 data in
  let msg := [65] in
  let sk := replicate SK_SIZE x11 in
  _ ← ignore (encrypt_bytes msg key [] draw s).1;
  _ ← ignore (decrypt_bytes (replicate 100 x00) key []);
  _ ← ignore (encrypt_bytes_v8 msg key sk []);
  ignore (decrypt_bytes_v8 (replicate 100 x00) key sk []).

(** ** [stream_decode] *)

Definition SENTINEL : nat := (4 + 8 + TAG_SIZE)%nat.

(** One round of [while pos + frame <= frames_end] over [(stream, pos, idx)]. *)
Definition retag_step (f : Z) (nonce sk_fmt aad : list byte) (body frames_end : nat)
    (s : list byte * nat * Z) : (list byte * nat * Z) + outcome error (list byte * Z) :=
  let '(stream, pos, idx) := s in
  let frame := (4 + body + TAG_SIZE)%nat in
  if bool_decide (pos + frame ≤ frames_end)%nat then
    continue_with (
      masked ← index_range (pos + 4) (pos + 4 + body) stream;
      tag ← compute_stream_v8_chunk_tag sk_fmt f nonce idx aad masked;
      stream' ← copy_at (pos + 4 + body) tag stream;
      idx' ← checked_add 32 idx 1;
      Ok (stream', (pos + frame)%nat, idx'))
  else inr (Ok (stream, idx)).

Definition fuzz_retag_stream_v8 (stream sk aad : list byte) : outcome error (list byte) :=
  if bool_decide (length stream < 21 + SENTINEL)%nat then Ok stream
  else
    let f := from_be_bytes (slice 1 5 stream) in
    if (f =? 0) || (STREAM_AE_V8_MAX_FRAME <? f) then Ok stream
    else
      let nonce := slice 5 21 stream in
      let sk_fmt := derive_format_subkey sk FORMAT_STREAM_AE_V8 in
      let body := Z.to_nat (f * 160) in
      let frames_end := (length stream - SENTINEL)%nat in
      r ← while_loop 64 (retag_step f nonce sk_fmt aad body frames_end) (stream, 21%nat, 0);
      let '(stream, idx) := r in
      let s := (length stream - SENTINEL)%nat in
      let n := Z.lxor (u64_from_be8 (slice (s + 4) (s + 12) stream)) (stream_v8_count_mask sk_fmt f nonce idx) in
      tag ← compute_stream_v8_sentinel_tag sk_fmt f nonce idx aad n;
      copy_at (s + 12) tag stream.

(** The [match op % 7]. *)
Definition mutate_stream (op : Z) (pos : nat) (xor : Z) (frame : nat) (ct : list byte)
    : outcome error (list byte) :=
  let op := op mod 7 in
  if op =? 0 then xor_at (1 + pos mod 4) xor ct
  else if op =? 1 then xor_at (5 + pos mod 16) xor ct
  else if op =? 2 then
    b ← Z.of_nat (length ct) -! 21;
    body ← b -! 44;
    if 0 <? body then xor_at (21 + pos mod Z.to_nat body) xor ct else Ok ct
  else if op =? 3 then
    n ← Z.of_nat (length ct) -! 40;
    xor_at (Z.to_nat n + pos mod 8) xor ct
  else if op =? 4 then
    if bool_decide (21 + frame + 44 ≤ length ct)%nat
    then Ok (take 21 ct ++ drop (21 + frame) ct) else Ok ct
  else if op =? 5 then
    if bool_decide (21 + frame + 44 ≤ length ct)%nat
    then Ok (take 21 ct ++ slice 21 (21 + frame) ct ++ drop 21 ct) else Ok ct
  else
    n ← Z.of_nat (length ct) -! 21;
    r ← Z.of_nat pos %! n;
    Ok (take (21 + Z.to_nat r) ct).

(** The AAD and the message bytes in [rest = data[23..]]. *)
Definition stream_aad_msg (rest : list byte) : outcome error (list byte * list byte) :=
  let aad_len := (match rest with [] => 0 | b :: _ => Z.to_nat (byte_to_Z b mod 8) end
                  `min` (length rest - 1))%nat in
  if bool_decide (rest = []) then Ok ([], [])
  else
    aad ← index_range 1 (1 + aad_len) rest;
    msg ← index_range (1 + aad_len) (length rest) rest;
    Ok (aad, msg).

Definition stream_decode (data : list byte) : outcome error unit :=
  if bool_decide (length data < 23)%nat then Ok tt
  else
    let primes := stream_key_for (byte_at data 0) in
    let sk := sk_for (byte_at data 1) in
    let f := byte_at data 2 mod 16 + 1 in
    let op := byte_at data 3 in
    let pos := Z.to_nat (Z.lor (byte_at data 4) (Z.shiftl (byte_at data 5) 8)) in
    let xor := Z.lor (byte_at data 6) 1 in
    let nonce := slice 7 23 data in
    r ← stream_aad_msg (drop 23 data);
    let '(aad, msg_bytes) := r in
    let msg := match from_utf8 msg_bytes with
               | Some s => if bool_decide (length s ≤ 64)%nat then s else [115; 116; 114; 101; 97; 109]
               | None => [115; 116; 114; 101; 97; 109]
               end in
    key ← unwrap (NapqesKey_new primes sk);
    match encrypt_stream_ae_v8_with_nonce msg primes sk nonce aad f with
    | Err _ => Ok tt
    | Panic p => Panic p
    | Ok ct =>
        rt ← unwrap (decrypt_stream_ae_v8_key ct key aad);
        _ ← assert_that (bool_decide (rt = msg));
        let frame := Z.to_nat (4 + f * 160 + 32) in
        ct ← mutate_stream op pos xor frame ct;
        ct ← fuzz_retag_stream_v8 ct sk aad;
        ignore (decrypt_stream_ae_v8_key ct key aad)
    end.

(** ** The demonstration *)

(** [main.rs]: [post] is the outcome of the self-tests, [draws] and [fill] what the
    key generator draws. The result is the text decrypted at the end. *)
Definition demo_message : list Z :=
  byte_to_Z <$> list_byte_of_string "Hello from the Rust port of napqes!".

Definition demo (post : outcome error unit) (draws : Z → Z) (fill : list byte) : outcome error (list Z) :=
  _ ← unwrap post;
  key ← unwrap (NapqesKey_generate draws fill);
  ct ← unwrap (encrypt_bytes_v8_key demo_message key []);
  _ ← assert_that (bool_decide (48 ≤ length (b64_encode ct))%nat);
  pt ← unwrap (decrypt_bytes_v8_key ct key []);
  _ ← assert_that (bool_decide (pt = demo_message));
  Ok pt.
End targets.

(** ** UTF-8 *)

Lemma decode_char_sound bytes c rest :
  decode_char bytes = Some (c, rest) → is_scalar c = true ∧ bytes = utf8_char c ++ rest.
Proof.
  unfold decode_char. destruct bytes as [|b bytes]; [done|].
  destruct (utf8_lead (byte_to_Z b)) as [n lead]. case_match eqn:Hc; [|done]. intros [= <- <-].
  apply andb_true_iff in Hc as [Hs He]. apply bool_decide_eq_true in He. split; [done|].
  by rewrite He, take_drop.
Qed.

Lemma from_utf8_fuel_sound fuel bytes s :
  from_utf8_fuel fuel bytes = Some s → str_ok s ∧ as_bytes s = bytes.
Proof.
  revert bytes s. induction fuel as [|fuel IH]; intros [|b bytes] s Hd; cbn [from_utf8_fuel] in Hd; simplify_eq;
    [split; [constructor|done]..|].
  apply bind_Some in Hd as ([c rest] & Hc & Hd). apply fmap_Some in Hd as (s' & Hd & ->).
  apply decode_char_sound in Hc as [Hs ->]. apply IH in Hd as [Hok <-]. split; [by constructor|done].
Qed.

Lemma decode_char_encoded c b w lead rest :
  utf8_char c = b :: w → utf8_lead (byte_to_Z b) = (S (length w), lead) → is_scalar c = true →
  foldl (λ acc b, acc * 64 + byte_to_Z b mod 64) lead w = c →
  decode_char (b :: w ++ rest) = Some (c, rest).
Proof.
  intros Hu Hl Hs Hc. unfold decode_char. rewrite Hl. cbn [Nat.sub]. rewrite Nat.sub_0_r, take_app_length, Hc, Hs.
  rewrite Hu. cbn [take drop]. rewrite take_app_length, drop_app_length.
  by rewrite bool_decide_eq_true_2.
Qed.

Lemma continuation_low z : 0 ≤ z < 64 → byte_to_Z (byte_of_Z (0x80 + z)) mod 64 = z.
Proof.
  intros Hz. rewrite byte_to_of_Z_small by lia. replace (0x80 + z) with (z + 2 * 64) by lia.
  rewrite Z.mod_add by lia. apply Z.mod_small. lia.
Qed.

Lemma utf8_lead_2 z : 0xC0 ≤ z < 0xE0 → utf8_lead z = (2%nat, z - 0xC0).
Proof. intros Hz. unfold utf8_lead. by repeat case_if; try lia. Qed.
Lemma utf8_lead_3 z : 0xE0 ≤ z < 0xF0 → utf8_lead z = (3%nat, z - 0xE0).
Proof. intros Hz. unfold utf8_lead. by repeat case_if; try lia. Qed.
Lemma utf8_lead_4 z : 0xF0 ≤ z → utf8_lead z = (4%nat, z - 0xF0).
Proof. intros Hz. unfold utf8_lead. by repeat case_if; try lia. Qed.

Lemma decode_char_complete c rest :
  is_scalar c = true → decode_char (utf8_char c ++ rest) = Some (c, rest).
Proof.
  intros Hs. pose proof (is_scalar_range c Hs) as Hr.
  pose proof (Z.div_mod c (2 ^ 6) ltac:(lia)). pose proof (Z.mod_pos_bound c (2 ^ 6) ltac:(lia)).
  pose proof (Z.div_mod (c / 2 ^ 6) (2 ^ 6) ltac:(lia)). pose proof (Z.mod_pos_bound (c / 2 ^ 6) (2 ^ 6) ltac:(lia)).
  assert (c / 2 ^ 12 = c / 2 ^ 6 / 2 ^ 6) as E12 by (by rewrite Z.div_div by lia).
  pose proof (Z.div_mod (c / 2 ^ 12) (2 ^ 6) ltac:(lia)). pose proof (Z.mod_pos_bound (c / 2 ^ 12) (2 ^ 6) ltac:(lia)).
  assert (c / 2 ^ 18 = c / 2 ^ 12 / 2 ^ 6) as E18 by (by rewrite Z.div_div by lia).
  destruct (Z.ltb_spec c 0x80) as [Hc1|Hc1].
  { assert (utf8_char c = [byte_of_Z c]) as Hu by (unfold utf8_char; by rewrite (proj2 (Z.ltb_lt _ _))).
    rewrite Hu. apply (decode_char_encoded c _ [] c); [done| |done|done].
    unfold utf8_lead. rewrite byte_to_of_Z_small by lia. by rewrite (proj2 (Z.ltb_lt _ _)). }
  destruct (Z.ltb_spec c 0x800) as [Hc2|Hc2].
  { unfold utf8_char at 1. rewrite (proj2 (Z.ltb_ge _ _)), (proj2 (Z.ltb_lt _ _)) by lia.
    eapply decode_char_encoded; [|rewrite byte_to_of_Z_small by lia; apply utf8_lead_2; lia|done|].
    - unfold utf8_char. by rewrite (proj2 (Z.ltb_ge _ _)), (proj2 (Z.ltb_lt _ _)) by lia.
    - cbn [foldl]. rewrite continuation_low by lia. lia. }
  destruct (Z.ltb_spec c 0x10000) as [Hc3|Hc3].
  { unfold utf8_char at 1. rewrite !(proj2 (Z.ltb_ge _ _)), (proj2 (Z.ltb_lt _ _)) by lia.
    eapply decode_char_encoded; [|rewrite byte_to_of_Z_small by lia; apply utf8_lead_3; lia|done|].
    - unfold utf8_char. by rewrite !(proj2 (Z.ltb_ge _ _)), (proj2 (Z.ltb_lt _ _)) by lia.
    - cbn [foldl]. rewrite !continuation_low by lia. lia. }
  unfold utf8_char at 1. rewrite !(proj2 (Z.ltb_ge _ _)) by lia.
  eapply decode_char_encoded; [|rewrite byte_to_of_Z_small by lia; apply utf8_lead_4; lia|done|].
  - unfold utf8_char. by rewrite !(proj2 (Z.ltb_ge _ _)) by lia.
  - cbn [foldl]. rewrite !continuation_low by lia. lia.
Qed.

Lemma from_utf8_fuel_complete s fuel :
  str_ok s → (length (as_bytes s) ≤ fuel)%nat → from_utf8_fuel fuel (as_bytes s) = Some s.
Proof.
  intros Hs. revert fuel. induction Hs as [|c s Hc _ IH]; intros fuel Hf; [by destruct fuel|].
  unfold as_bytes in *. cbn [fmap list_fmap concat] in *. pose proof (length_utf8_char c) as Hl.
  rewrite length_app in Hf. destruct fuel as [|fuel]; [lia|].
  pose proof (decode_char_complete c (concat (utf8_char <$> s)) Hc) as Hd.
  destruct (utf8_char c) as [|b w]; [cbn in Hl; lia|]. cbn [app from_utf8_fuel] in *. rewrite Hd.
  cbn [mbind option_bind]. rewrite IH by (cbn in Hf; lia). done.
Qed.

(** [from_utf8] inverts [as_bytes], and accepts nothing else. *)
Theorem from_utf8_correct bytes s : from_utf8 bytes = Some s ↔ str_ok s ∧ as_bytes s = bytes.
Proof.
  split; [apply from_utf8_fuel_sound|]. intros [Hs <-]. by apply from_utf8_fuel_complete.
Qed.

(** ** Fixtures are valid *)

Lemma valid_key_check key :
  forallb (λ k, (0 <=? k) && (k <? 2 ^ 64)) key = true → validate_key key = Ok tt → valid_key key.
Proof.
  intros Hf Hv. pose proof (validate_key_cases key) as Hc. rewrite Hv in Hc. apply Hc.
  apply Forall_forall. intros k Hk. rewrite forallb_forall in Hf.
  specialize (Hf k (proj1 (list_elem_of_In _ _) Hk)). unfold fits. lia.
Qed.

Lemma decode_key_valid selector : valid_key (decode_key_for selector).
Proof.
  unfold decode_key_for. repeat case_if; apply valid_key_check; vm_compute; reflexivity.
Qed.

Lemma unauth_key_valid selector : valid_key (unauth_key_for selector).
Proof.
  unfold unauth_key_for. repeat case_if; apply valid_key_check; vm_compute; reflexivity.
Qed.

Lemma stream_key_valid selector : valid_key (stream_key_for selector).
Proof.
  unfold stream_key_for. repeat case_if; apply valid_key_check; vm_compute; reflexivity.
Qed.

Lemma byte_at_range data i : 0 ≤ byte_at data i < 256.
Proof. apply byte_to_Z_range. Qed.

Lemma profile_for_fits selector param : profile_fits (profile_for selector param).
Proof.
  unfold profile_for. repeat case_if; cbn; [done|..]; unfold fits.
  - pose proof (Z.mod_pos_bound param 5). lia.
  - pose proof (Z.mod_pos_bound param 11 ltac:(lia)). rewrite Z.shiftl_1_l.
    split; [lia|]. apply Z.pow_lt_mono_r; lia.
Qed.

Lemma from_utf8_str bytes s : from_utf8 bytes = Some s → str_ok s.
Proof. intros Hb. by apply from_utf8_fuel_sound in Hb as [? _]. Qed.

Lemma ignore_Ok {A} (r : outcome error A) : no_panic r → ignore r = Ok tt.
Proof. by destruct r. Qed.

Lemma xor_at_Ok i x l :
  (i < length l)%nat → ∃ l', xor_at i x l = Ok l' ∧ length l' = length l.
Proof.
  intros Hi. unfold xor_at. destruct (lookup_lt_is_Some_2 l i Hi) as [b ->]. cbn [expect]. rewrite bind_Ok.
  eexists. split; [done|]. by rewrite length_insert.
Qed.

Lemma copy_at_Ok pos src l :
  (pos + length src ≤ length l)%nat → ∃ l', copy_at pos src l = Ok l' ∧ length l' = length l.
Proof.
  intros Hl. unfold copy_at. rewrite bool_decide_eq_true_2 by done. eexists. split; [done|].
  rewrite !length_app, length_take, length_drop. lia.
Qed.

(** ** The targets do not crash *)

Section safe.
Context `{Crypto} `{Gate} `{Base64} (Hg : gate_open).

Lemma decrypt_bytes_v8_no_panic c key sk aad :
  valid_key key → Z.of_nat (length c) ≤ 2 ^ 36 → no_panic (decrypt_bytes_v8 c key sk aad).
Proof using Hg.
  intros Hk Hc. unfold decrypt_bytes_v8. rewrite Hg, bind_Ok, (validate_key_valid _ Hk), bind_Ok.
  pose proof (decrypt_core_layout key (valid_key_arith _ Hk) sk aad c Hc) as Hl. cbv zeta in Hl.
  by destruct (decrypt_bytes_v8_core c key sk aad).
Qed.

Lemma retag_block_Ok payload sk aad :
  (NONCE_SIZE ≤ length payload)%nat → ∃ tag, retag_block_v8 payload sk aad = Ok tag ∧ length tag = TAG_SIZE.
Proof using Type.
  intros Hl. unfold retag_block_v8. rewrite <-(take_drop NONCE_SIZE payload).
  rewrite compute_auth_tag_v8 by (rewrite length_take; lia). eexists. split; [done|]. apply length_hmac_digest.
Qed.

Lemma mutate_block_Ok ct sk aad flip flip_nonce drop_groups lo hi x :
  (NONCE_SIZE + TAG_SIZE ≤ length ct)%nat →
  ∃ c', mutate_block ct sk aad flip flip_nonce drop_groups lo hi x = Ok c' ∧ (length c' ≤ length ct)%nat.
Proof using Type.
  unfold NONCE_SIZE, TAG_SIZE. intros Hl. unfold mutate_block, NONCE_SIZE, TAG_SIZE.
  rewrite checked_sub_Ok, bind_Ok by lia. rewrite index_range_Ok, bind_Ok by lia.
  set (payload := slice _ _ ct).
  assert (length payload = length ct - 32)%nat as Hp by (unfold payload; rewrite length_slice; lia).
  rewrite checked_sub_Ok, bind_Ok by lia. cbv zeta.
  set (kept := take _ payload).
  assert (16 ≤ length kept ≤ length payload)%nat as Hk by (unfold kept; rewrite length_take; lia).
  clearbody kept. clearbody payload.
  assert (∃ p1, (if flip && bool_decide (16 < length kept)%nat
    then xor_at (16 + Nat.lor (Nat.shiftl hi 8) lo mod (length kept - 16)) x kept else Ok kept) = Ok p1 ∧
    length p1 = length kept) as (p1 & -> & Hp1).
  { destruct flip; cbn [andb]; [|by exists kept]. case_bool_decide; [|by exists kept].
    apply xor_at_Ok. pose proof (Nat.mod_upper_bound (Nat.lor (Nat.shiftl hi 8) lo) (length kept - 16)). lia. }
  rewrite bind_Ok.
  assert (∃ p2, (if flip_nonce then xor_at (lo mod 16) (Z.lor x 1) p1 else Ok p1) = Ok p2 ∧
    length p2 = length p1) as (p2 & -> & Hp2).
  { destruct flip_nonce; [|by exists p1]. apply xor_at_Ok.
    pose proof (Nat.mod_upper_bound lo 16). lia. }
  rewrite bind_Ok. destruct (retag_block_Ok p2 sk aad) as (tag & -> & Ht); [unfold NONCE_SIZE; lia|].
  rewrite bind_Ok. eexists. split; [done|]. rewrite length_app, Ht. unfold TAG_SIZE. lia.
Qed.

Lemma decode_bytes_safe data : Z.of_nat (length data) ≤ 2 ^ 36 → decode_bytes data = Ok tt.
Proof using Hg.
  intros Hlen. unfold decode_bytes. case_bool_decide as Hd; [done|].
  case_match; [done|]. cbv zeta. rewrite index_range_Ok, bind_Ok by lia.
  set (message := default [65] _).
  assert (str_ok message) as Hm.
  { unfold message. destruct (from_utf8 _) as [s|] eqn:Hs; [by eapply from_utf8_str|]. by repeat constructor. }
  clearbody message. set (key := decode_key_for _). set (sk := sk_for _). set (aad := aad_for _).
  set (profile := profile_for _ _).
  pose proof (decode_key_valid (byte_at data 0) : valid_key key) as Hk.
  pose proof (profile_for_fits (byte_at data 8) (byte_at data 9) : profile_fits profile) as Hp.
  pose proof (encrypt_core_cases key (valid_key_arith _ Hk) sk message aad profile Hm Hp) as Hc. cbv zeta in Hc.
  unfold encrypt_bytes_v8_with_profile. rewrite Hg, bind_Ok, (validate_key_valid _ Hk), bind_Ok.
  destruct (encrypt_bytes_v8_core message key sk aad profile) as [ct|e|]; [|done|done].
  destruct Hc as (B & HB & Hl & Hdec).
  apply block_size_bound in HB as ([_ HB16] & _ & HB0); [|lia|done].
  assert (decrypt_bytes_v8 ct key sk aad = Ok message) as ->.
  { unfold decrypt_bytes_v8. by rewrite Hg, bind_Ok, (validate_key_valid _ Hk), bind_Ok. }
  cbn [unwrap]. rewrite bind_Ok, (bool_decide_eq_true_2 (message = message)) by done.
  cbn [assert_that]. rewrite bind_Ok. case_match; [done|].
  destruct (mutate_block_Ok ct sk aad (Z.land (byte_at data 3) 1 =? 1) (negb (Z.land (byte_at data 3) 16 =? 0))
    (Z.to_nat (Z.land (Z.shiftr (byte_at data 3) 1) 7)) (Z.to_nat (byte_at data 4)) (Z.to_nat (byte_at data 5))
    (byte_at data 6)) as (c' & -> & Hl'); [unfold NONCE_SIZE, TAG_SIZE; lia|].
  rewrite bind_Ok. apply ignore_Ok, decrypt_bytes_v8_no_panic; [done|]. lia.
Qed.

(** ** Any key at all *)

Lemma chunks_exact_length {A} n (l : list A) : Forall (λ c, length c = n) (chunks_exact n l).
Proof using Type.
  unfold chunks_exact. generalize (length l) as fuel. intros fuel. revert l.
  induction fuel as [|fuel IH]; intros l; cbn; [constructor|]. case_bool_decide; [|constructor].
  constructor; [|apply IH]. rewrite length_take. lia.
Qed.

Lemma candidate_key_fits data : Forall (fits 64) (from_le_bytes <$> chunks_exact 8 data).
Proof using Type.
  apply Forall_fmap. eapply Forall_impl; [apply chunks_exact_length|]. intros c Hc. cbn.
  pose proof (from_le_bytes_range c) as Hr. rewrite Hc in Hr. done.
Qed.

Lemma validated_or_refused key :
  Forall (fits 64) key → (valid_key key ∧ validate_key key = Ok tt) ∨ ∃ e, validate_key key = Err e.
Proof using Type.
  intros Hf. pose proof (validate_key_cases key Hf) as Hc. destruct (validate_key key) as [[]|e|]; [by left|eauto|done].
Qed.

Lemma validate_key_target_safe data draw s :
  length draw = NONCE_SIZE → validate_key_target data draw s = Ok tt.
Proof using Hg.
  intros Hd. unfold validate_key_target. cbv zeta. set (key := from_le_bytes <$> _).
  pose proof (candidate_key_fits data : Forall (fits 64) key) as Hf. clearbody key.
  assert (str_ok [65]) as Hm by by repeat constructor.
  assert (no_panic (encrypt_bytes [65] key [] draw s).1) as He.
  { unfold encrypt_bytes. destruct (validated_or_refused key Hf) as [[Hk Hv]|[e Hv]].
    - pose proof (sealed_cases key [] draw Hg Hk Hd [65] s Hm) as Hs.
      destruct (with_nonce _ _ _ _) as [[c|e|] s']; done.
    - unfold with_nonce. by rewrite Hg, bind_Ok, Hv. }
  assert (no_panic (encrypt_bytes_v8 [65] key (replicate SK_SIZE x11) [])) as He8.
  { unfold encrypt_bytes_v8, encrypt_bytes_v8_with_profile. rewrite Hg, bind_Ok.
    destruct (validated_or_refused key Hf) as [[Hk ->]|[e ->]]; [|done]. rewrite bind_Ok.
    pose proof (encrypt_core_cases key (valid_key_arith _ Hk) (replicate SK_SIZE x11) [65] [] Bucket Hm I) as Hc.
    by destruct (encrypt_bytes_v8_core _ _ _ _ _). }
  assert (no_panic (decrypt_bytes_v8 (replicate 100 x00) key (replicate SK_SIZE x11) [])) as Hd8.
  { destruct (validated_or_refused key Hf) as [[Hk _]|[e Hv]].
    - apply decrypt_bytes_v8_no_panic; [done|]. rewrite length_replicate. lia.
    - unfold decrypt_bytes_v8. by rewrite Hg, bind_Ok, Hv. }
  destruct (decrypt_v7_no_panic key [] (replicate 100 x00)) as [Hd7 _]; [rewrite length_replicate; lia|].
  by rewrite !ignore_Ok.
Qed.

(** ** Unauthenticated tokens *)

Lemma is_scalar_low c : 0 ≤ c < 0xD800 → is_scalar c = true.
Proof using Type.
  intros Hc. unfold is_scalar. repeat (apply andb_true_intro; split); [lia|lia|].
  apply negb_true_iff, andb_false_iff. left. lia.
Qed.

Lemma unauth_message_str data : str_ok (unauth_message data).
Proof using Type.
  apply Forall_lookup. intros i c Hi. unfold unauth_message in Hi. rewrite list_lookup_imap in Hi.
  apply fmap_Some in Hi as (b & _ & ->). pose proof (byte_to_Z_range b).
  case_bool_decide; apply is_scalar_low; lia.
Qed.

Lemma length_unauth_message data : (length (unauth_message data) ≤ 512)%nat.
Proof using Type. unfold unauth_message. rewrite length_imap, length_take. lia. Qed.

Lemma mutate_tokens_Ok op delta i key tokens :
  (i < length tokens)%nat → key ≠ [] → Forall (fits 64) tokens →
  ∃ tokens', mutate_tokens op delta i key tokens = Ok tokens' ∧ Forall (fits 64) tokens' ∧
    (length tokens' ≤ S (length tokens))%nat.
Proof using Type.
  intros Hi Hkey Hf. unfold mutate_tokens. destruct (lookup_lt_is_Some_2 tokens i Hi) as [t Ht].
  rewrite Ht. cbn [expect]. rewrite bind_Ok.
  assert (fits 64 t) as Hft by (eapply Forall_lookup_1 in Ht; done).
  assert (∀ z, fits 64 (z mod 2 ^ 64)) as Hmod by (intros z; apply Z.mod_pos_bound; lia).
  assert (∀ z, fits 64 z → Forall (fits 64) (<[i := z]> tokens)) as Hins by (intros z Hz; by apply Forall_insert).
  assert (Forall (fits 64) (take i tokens)) by (by apply Forall_take).
  repeat case_if.
  - eexists. split; [done|]. rewrite length_insert. auto with lia.
  - eexists. split; [done|]. rewrite length_insert. auto with lia.
  - eexists. split; [done|]. rewrite length_insert. split; [|lia]. apply Hins, (lxor_bound 64); [lia|done|].
    rewrite Z.shiftl_1_l. pose proof (Z.mod_pos_bound delta 64 ltac:(lia)).
    split; [lia|]. apply Z.pow_lt_mono_r; lia.
  - eexists. split; [done|]. rewrite length_take. auto with lia.
  - eexists. split; [done|]. split.
    + apply Forall_app. split; [done|]. constructor; [done|]. by apply Forall_drop.
    + rewrite length_app, length_take. cbn. rewrite length_drop. lia.
  - destruct key as [|k0 key]; [done|]. cbn [lookup list_lookup expect]. rewrite bind_Ok.
    eexists. split; [done|]. rewrite length_insert. auto with lia.
Qed.

Lemma decrypt_tokens_no_panic nonce tokens key :
  valid_key key → Forall (fits 64) tokens → Z.of_nat (length tokens) < 2 ^ 64 →
  no_panic (decrypt nonce tokens key).
Proof using Hg.
  intros Hk Hf Hl. unfold decrypt. rewrite Hg, bind_Ok.
  destruct (valid_key_v7_checked key Hk) as [Hk7 ->]. rewrite bind_Ok.
  pose proof (decrypt_core_v7_cases key (key_bytes key) nonce (valid_key_v7_arith _ Hk7) tokens Hf Hl) as Hc.
  by destruct (decrypt_core _ _ _ _).
Qed.

Lemma fuzz_v7_tokens_cases msg key nonce :
  valid_key key → str_ok msg → Z.of_nat (length msg) ≤ MAX_PLAINTEXT_CODEPOINTS →
  match fuzz_v7_tokens msg key nonce with
  | Ok tokens => Forall (fits 64) tokens ∧ Z.of_nat (length tokens) < 2 ^ 32 ∧
      decrypt nonce tokens key = Ok msg
  | Err e => e = NoiseRunAborted
  | Panic _ => False
  end.
Proof using Hg.
  intros Hk Hm Hl. unfold fuzz_v7_tokens. rewrite (validate_key_valid _ Hk), bind_Ok.
  destruct (pad_message_Ok msg (key_bytes key) nonce Hl) as (B & HB & ->). rewrite bind_Ok.
  destruct (block_size_bound Bucket (Z.of_nat (length msg)) B ltac:(lia) I HB) as ([HnB HB16] & _ & _).
  set (padded := padded_block msg (key_bytes key) nonce B).
  assert (Z.of_nat (length padded) = B + 2) as Hpl by (apply length_padded_block; lia).
  destruct (valid_key_v7_checked key Hk) as [Hk7 Hv7].
  pose proof (decrypt_emit_v7_spec key (key_bytes key) nonce (valid_key_v7_arith _ Hk7) padded
    ltac:(by apply padded_block_scalar) ltac:(lia)) as He.
  destruct (emit_tokens_v7 _ _ _ _ _) as [tokens|e|]; [|done|done].
  destruct He as (Hf & [_ Htl] & Hdec). split; [done|]. split; [lia|].
  unfold decrypt. rewrite Hg, Hv7, !bind_Ok, Hdec. apply unpad_padded_block. lia.
Qed.

Lemma unauth_decode_safe data : Z.of_nat (length data) ≤ 2 ^ 30 → unauth_decode data = Ok tt.
Proof using Hg.
  intros Hlen. unfold unauth_decode. case_bool_decide as Hd; [done|]. cbv zeta.
  set (key := unauth_key_for _). pose proof (unauth_key_valid (byte_at data 0) : valid_key key) as Hk.
  set (nonce := slice 1 17 data). set (msg := unauth_message data).
  pose proof (fuzz_v7_tokens_cases msg key nonce Hk (unauth_message_str data)) as Ht.
  specialize (Ht ltac:(pose proof (length_unauth_message data); unfold MAX_PLAINTEXT_CODEPOINTS, msg; lia)).
  assert (∀ r, r = Ok tt → (_ ← r; _ ← ignore (decrypt_raw data key []);
    match from_utf8 data with
    | Some s => ignore (decrypt_str s key [])
    | None => Ok tt
    end) = Ok tt) as Hrest.
  { intros r ->. rewrite bind_Ok.
    destruct (decrypt_v7_no_panic key [] data ltac:(lia)) as [_ Hraw]. rewrite ignore_Ok, bind_Ok by done.
    destruct (from_utf8 data) as [s|] eqn:Hs; [|done]. apply from_utf8_correct in Hs as [_ Hs].
    apply ignore_Ok. unfold decrypt_str. rewrite Hg, bind_Ok, Hs.
    destruct (b64_decode data) as [bytes|] eqn:Hb; [|done]. cbn [opt_or]. rewrite bind_Ok.
    apply b64_decode_length in Hb. apply decrypt_v7_no_panic. lia. }
  apply Hrest. clear Hrest. destruct (fuzz_v7_tokens msg key nonce) as [tokens|e|]; [|done|done].
  destruct Ht as (Hf & Hl & Hdec). rewrite Hdec. cbn [unwrap].
  rewrite bind_Ok, (bool_decide_eq_true_2 (msg = msg)) by done. cbn [assert_that]. rewrite bind_Ok.
  case_bool_decide as Hnil.
  - rewrite bind_Ok, Hdec. done.
  - destruct (mutate_tokens_Ok (byte_at data 17) (from_be_bytes (slice 20 28 data))
      (Z.to_nat (Z.lor (byte_at data 18) (Z.shiftl (byte_at data 19) 8)) mod length tokens) key tokens)
      as (tokens' & -> & Hf' & Hl').
    + apply Nat.mod_upper_bound. by destruct tokens.
    + by destruct Hk.
    + done.
    + rewrite bind_Ok. apply ignore_Ok, decrypt_tokens_no_panic; [done|done|lia].
Qed.

(** ** Re-tagged streams *)

Definition retag_inv (n body : nat) (s : list byte * nat * Z) : Prop :=
  let '(stream, pos, idx) := s in
  length stream = n ∧ Z.of_nat pos = 21 + idx * Z.of_nat (4 + body + TAG_SIZE) ∧ 0 ≤ idx ∧ (pos ≤ n)%nat.

Lemma retag_loop f nonce sk_fmt aad body frames_end stream :
  Z.of_nat (length stream) < 2 ^ 36 → (21 ≤ length stream)%nat → (frames_end ≤ length stream)%nat →
  (160 ≤ body)%nat →
  ∃ stream' idx, while_loop 64 (retag_step f nonce sk_fmt aad body frames_end) (stream, 21%nat, 0) = Ok (stream', idx) ∧
    length stream' = length stream.
Proof using Type.
  intros Hlen Hmin Hend Hbody.
  apply (while_loop_total 64 _ (retag_inv (length stream) body)
    (λ s, Z.of_nat (length stream) - Z.of_nat s.1.2)
    (λ r, ∃ stream' idx, r = Ok (stream', idx) ∧ length stream' = length stream)).
  - intros [[st pos] idx] (Hst & Hpos & Hidx & Hle). unfold retag_step. cbv zeta.
    unfold TAG_SIZE in *. case_bool_decide as Hfit; [|by eexists _, _].
    rewrite index_range_Ok, bind_Ok by lia. rewrite chunk_tag_Ok, bind_Ok.
    destruct (copy_at_Ok (pos + 4 + body) (chunk_auth sk_fmt aad f nonce idx (slice (pos + 4) (pos + 4 + body) st)) st)
      as (st' & -> & Hst').
    { unfold chunk_auth. rewrite length_hmac_digest. unfold TAG_SIZE. lia. }
    rewrite bind_Ok. rewrite checked_add_Ok, bind_Ok by nia. cbn [continue_with fst snd].
    split; [|lia]. split_and!; [lia| |lia|lia]. unfold TAG_SIZE.
    rewrite Nat2Z.inj_add, Z.mul_add_distr_r. lia.
  - split_and!; lia.
  - intros [[st pos] idx] (_ & _ & _ & Hle). cbn [fst snd]. lia.
  - cbn [fst snd]. lia.
Qed.

Lemma fuzz_retag_stream_Ok stream sk aad :
  Z.of_nat (length stream) < 2 ^ 36 →
  ∃ stream', fuzz_retag_stream_v8 stream sk aad = Ok stream' ∧ length stream' = length stream.
Proof using Type.
  intros Hlen. unfold fuzz_retag_stream_v8. case_bool_decide as Hmin; [by exists stream|]. cbv zeta.
  unfold SENTINEL, TAG_SIZE in *. set (f := from_be_bytes _). case_if; [by exists stream|].
  assert (1 ≤ f) as Hf.
  { pose proof (from_be_bytes_range (slice 1 5 stream)). fold f in H2. destruct (Z.eqb_spec f 0); [done|lia]. }
  destruct (retag_loop f (slice 5 21 stream) (derive_format_subkey sk FORMAT_STREAM_AE_V8) aad
    (Z.to_nat (f * 160)) (length stream - (4 + 8 + 32)) stream) as (st & idx & -> & Hst); [lia..|].
  rewrite bind_Ok, sentinel_tag_Ok, bind_Ok.
  match goal with |- ∃ _, copy_at ?p ?t st = _ ∧ _ => destruct (copy_at_Ok p t st) as (st' & Hc & Hst') end.
  { unfold sentinel_auth. rewrite length_hmac_digest. unfold TAG_SIZE. lia. }
  exists st'. split; [done|lia].
Qed.

Lemma mutate_stream_Ok op pos xor frame ct :
  (65 ≤ length ct)%nat →
  ∃ ct', mutate_stream op pos xor frame ct = Ok ct' ∧ (length ct' ≤ 2 * length ct)%nat.
Proof using Type.
  intros Hl.
  assert (∀ i, (i < length ct)%nat →
    ∃ ct', xor_at i xor ct = Ok ct' ∧ (length ct' ≤ 2 * length ct)%nat) as Hx.
  { intros i Hi. destruct (xor_at_Ok i xor ct Hi) as (ct' & Hc & Hl'). exists ct'. split; [done|lia]. }
  assert (∃ ct' : list byte, Ok (E := error) ct = Ok ct' ∧ (length ct' ≤ 2 * length ct)%nat) as Hsame
    by (exists ct; split; [done|lia]).
  unfold mutate_stream. cbv zeta.
  case_if; [apply Hx; pose proof (Nat.mod_upper_bound pos 4); lia|].
  case_if; [apply Hx; pose proof (Nat.mod_upper_bound pos 16); lia|].
  case_if.
  { rewrite checked_sub_Ok, bind_Ok, checked_sub_Ok, bind_Ok by lia. case_if; [|done].
    apply Hx. pose proof (Nat.mod_upper_bound pos (Z.to_nat (Z.of_nat (length ct) - 21 - 44))). lia. }
  case_if.
  { rewrite checked_sub_Ok, bind_Ok by lia. apply Hx. pose proof (Nat.mod_upper_bound pos 8). lia. }
  case_if.
  { case_bool_decide; [|done]. eexists. split; [done|]. rewrite length_app, length_take, length_drop. lia. }
  case_if.
  { case_bool_decide; [|done]. eexists. split; [done|].
    rewrite !length_app, length_take, length_slice, length_drop by lia. lia. }
  rewrite checked_sub_Ok, bind_Ok by lia. rewrite checked_rem_Ok, bind_Ok by lia.
  eexists. split; [done|]. rewrite length_take. lia.
Qed.

Lemma decrypt_stream_no_panic stream key aad :
  valid_key (primes key) → Z.of_nat (length stream) < 2 ^ 60 → no_panic (decrypt_stream_ae_v8_key stream key aad).
Proof using Hg.
  intros Hk Hl. unfold decrypt_stream_ae_v8_key. rewrite Hg, bind_Ok.
  by apply decrypt_stream_inner_spec; [apply valid_key_arith|].
Qed.

Lemma stream_aad_msg_Ok rest : ∃ aad msg, stream_aad_msg rest = Ok (aad, msg).
Proof using Type.
  unfold stream_aad_msg. cbv zeta. destruct rest as [|b rest]; [by eexists _, _|].
  rewrite bool_decide_eq_false_2 by done. cbn iota.
  bind_ok (apply index_range_Ok; cbn [length]; lia). bind_ok (apply index_range_Ok; cbn [length]; lia).
  by eexists _, _.
Qed.

Lemma stream_decode_safe data : stream_decode data = Ok tt.
Proof using Hg.
  unfold stream_decode. case_bool_decide as Hd; [done|]. cbv zeta.
  set (ps := stream_key_for _). pose proof (stream_key_valid (byte_at data 0) : valid_key ps) as Hk.
  set (sk := sk_for _). set (f := byte_at data 2 mod 16 + 1).
  pose proof (Z.mod_pos_bound (byte_at data 2) 16 ltac:(lia)).
  assert (1 ≤ f ≤ 16) as Hf by (unfold f; lia). clearbody f.
  destruct (stream_aad_msg_Ok (drop 23 data)) as (aad & msg_bytes & ->). rewrite bind_Ok.
  set (msg := match from_utf8 msg_bytes with Some s => _ | None => _ end).
  assert (str_ok msg ∧ (length msg ≤ 64)%nat) as [Hm Hml].
  { assert (str_ok [115; 116; 114; 101; 97; 109]) by by repeat constructor. unfold msg.
    destruct (from_utf8 msg_bytes) as [s|] eqn:Hs; [|split; [done|cbn; lia]].
    case_bool_decide; [|split; [done|cbn; lia]]. split; [by eapply from_utf8_str|done]. }
  clearbody msg. unfold NapqesKey_new. rewrite (validate_key_valid _ Hk), bind_Ok. cbn [unwrap]. rewrite bind_Ok.
  pose proof (stream_encrypt_decrypt_cases msg ps sk (slice 7 23 data) aad f Hg Hk) as Hc.
  specialize (Hc ltac:(unfold STREAM_AE_V8_MAX_FRAME; lia) ltac:(apply length_slice; lia) Hm ltac:(lia)). cbv zeta in Hc.
  destruct (encrypt_stream_ae_v8_with_nonce _ _ _ _ _ _) as [ct|e|]; [|done|done].
  destruct Hc as (Hdec & _ & C & HC & Hl).
  assert (decrypt_stream_ae_v8_key ct (MkNapqesKey ps sk) aad = Ok msg) as ->.
  { rewrite <-Hdec. unfold decrypt_stream_ae_v8_key, decrypt_stream_ae_v8. cbn [Keys.primes Keys.sk].
    by rewrite (validate_key_valid _ Hk), Hg, !bind_Ok. }
  cbn [unwrap]. rewrite bind_Ok, (bool_decide_eq_true_2 (msg = msg)) by done. cbn [assert_that]. rewrite bind_Ok.
  assert (65 ≤ Z.of_nat (length ct) < 2 ^ 30) as Hb by (unfold canonical_count in HC; nia).
  match goal with |- context [mutate_stream ?op ?pos ?xor ?fr ct] =>
    destruct (mutate_stream_Ok op pos xor fr ct) as (ct1 & -> & Hl1) end; [lia|].
  rewrite bind_Ok. destruct (fuzz_retag_stream_Ok ct1 sk aad) as (ct2 & -> & Hl2); [lia|].
  rewrite bind_Ok. apply ignore_Ok, decrypt_stream_no_panic; [done|lia].
Qed.

(** ** The demonstration *)

Lemma demo_message_str : str_ok demo_message.
Proof using Type. by apply (bool_decide_unpack _). Qed.

Lemma as_bytes_length (text : list Z) : (length (as_bytes text) ≤ 4 * length text)%nat.
Proof using Type.
  induction text as [|c text IH]; [done|]. unfold as_bytes in *. cbn [fmap list_fmap concat length].
  rewrite length_app. pose proof (length_utf8_char c). lia.
Qed.

(** Once the self-tests have passed, the demonstration prints the round trip, or stops
    at the key generation when that exhausts its draws. *)
Lemma demo_round_trip draws fill :
  (∀ i, MIN_KEY_PRIME ≤ draws i ≤ MAX_KEY_PRIME) →
  match NapqesKey_generate draws fill with
  | Ok _ => demo (Ok tt) draws fill = Ok demo_message
  | Err _ => demo (Ok tt) draws fill = Panic PanicExpect
  | Panic _ => False
  end.
Proof using Hg.
  intros Hdraws. pose proof (NapqesKey_generate_valid draws fill Hg Hdraws) as Hgen. unfold demo.
  destruct (NapqesKey_generate draws fill) as [key|e|]; [|done|done].
  destruct Hgen as (Hk & _ & _). cbn [unwrap]. rewrite !bind_Ok.
  unfold encrypt_bytes_v8_key, decrypt_bytes_v8_key. rewrite Hg, !bind_Ok.
  pose proof (encrypt_core_cases (primes key) (valid_key_arith _ Hk) (sk key) demo_message [] Bucket
    demo_message_str I) as Hc. cbv zeta in Hc.
  change (block_size Bucket (Z.of_nat (length demo_message))) with (Ok (E := error) 64) in Hc.
  destruct (encrypt_bytes_v8_core _ _ _ _ _) as [ct|e|]; [| |done].
  - destruct Hc as (B & [= <-] & Hl & Hdec). cbn [unwrap]. rewrite bind_Ok.
    pose proof (b64_decode_length _ _ (b64_roundtrip ct)). pose proof (as_bytes_length (b64_encode ct)).
    rewrite bool_decide_eq_true_2 by lia. cbn [assert_that]. rewrite !bind_Ok, Hdec. cbn [unwrap].
    rewrite bind_Ok, (bool_decide_eq_true_2 (demo_message = demo_message)) by done. done.
  - destruct Hc as [[_ Hn]|?]; [|done]. exfalso. revert Hn. apply Z.le_ngt. vm_compute. done.
Qed.
End safe.

(** C26: the fuzz targets cannot crash: for every input of at most a gibibyte, every
    behaviour of HMAC and base64 and every draw of the nonce generator, each of the
    four targets runs to its end. No entry point panics on the mutated ciphertexts,
    streams, tokens and keys they build and re-tag, no round-trip assertion fails,
    and no index of the targets themselves is out of range. *)
Theorem fuzz_targets_never_crash `{Crypto} `{Gate} `{Base64} data draw s :
  gate_open → Z.of_nat (length data) ≤ 2 ^ 30 → length draw = NONCE_SIZE →
  decode_bytes data = Ok tt ∧ unauth_decode data = Ok tt ∧
  validate_key_target data draw s = Ok tt ∧ stream_decode data = Ok tt.
Proof.
  intros Hg Hlen Hd. split; [apply decode_bytes_safe; [done|lia]|]. split; [by apply unauth_decode_safe|].
  split; [by apply validate_key_target_safe|by apply stream_decode_safe].
Qed.

Lemma fuzz_targets_never_crash_witness :
  let _ := Toy.crypto in let _ := default_build in let _ := Toy.base64 in
  decode_bytes (replicate 40 x07) = Ok tt ∧ stream_decode (replicate 40 x07) = Ok tt.
Proof.
  intros C G B. assert gate_open as Hg by reflexivity.
  destruct (fuzz_targets_never_crash (replicate 40 x07) (replicate 16 x2a) (MkCrng None POST_PASSED)
    Hg ltac:(rewrite length_replicate; lia) eq_refl) as (Hdec & _ & _ & Hstream).
  exact (conj Hdec Hstream).
Defined.
